(* ===== verification/_CoqProject ===== *)
-Q . S2P
Prelude.v
Bytes.v
Codec.v
Text.v
Doubles.v
Rounding.v
Cursor.v
Analysis.v
Schema.v
Types.v
Index.v
IndexSpec.v
IndexChecks.v
Contents.v
ViewSpec.v
Ranking.v
Numbers.v
Query.v
Lexer.v
Parser.v
Grammar.v
Plan.v
Planner.v
Executor.v
ScoreBits.v
ExecutorSpec.v
SearchSpec.v
PlanSpec.v
PlannerSpec.v
PlanBoosts.v
Segment.v
SegmentSpec.v
SegmentFile.v
SegmentRoundtrip.v
Store.v
StoreSpec.v
SegmentStore.v
Manifest.v
ManifestSpec.v
Durability.v
Wal.v
WalSpec.v
WalDurability.v
Generation.v
GenerationSpec.v
Writer.v
WriterSpec.v
WriterRecovery.v
Cluster.v
ClusterSpec.v
Replication.v
ReplicationSpec.v
ReplicaRecovery.v
QueryCache.v
QueryCacheSpec.v
DocumentFile.v
DocumentFileSpec.v
Metrics.v
MetricsSpec.v
Sockets.v
Rpc.v
RpcSpec.v
RpcRuns.v
RpcExchange.v
RpcDeadline.v
TcpServer.v
TcpServerSpec.v
TcpClient.v
TcpExchange.v
Evaluation.v
IndexCli.v
Json.v
IndexCliSpec.v
IndexCliRuns.v
Programs.v
ProgramsSpec.v
