(* ===== verification/Prelude.v ===== *)
(** * Verification of the distributed search engine

    The repository is a full-text search engine in C++: documents are analysed
    into an inverted index, queries are parsed, planned and evaluated with BM25
    scores, indexes are written to immutable segments under a manifest and a
    write-ahead log, and searches run on local shards, on replicas, or over
    TCP.  This library translates that code into executable definitions and
    proves what makes it correct.

    ** How the program fits together

    A client's document goes through an [Analyzer] into an [InMemoryIndex] (or
    an [IndexWriter], which logs it, collects it in an active index, freezes
    that and flushes it to a segment).  Whatever holds documents (the memory
    index, a segment reader, a generation of segments, a shard) answers
    through the interface [SearchIndexView], and the query engine is a client
    of that interface: text -> lexemes -> syntax tree -> plan -> hits.  Here the
    interface is the record [search_index_view] with its laws
    [IndexViewLaws] (ViewSpec.v): each holder of documents proves the laws, and
    every theorem about searching is proved from them.  The shard protocol
    carries query texts and results between processes.

    ** Files and the code they model (paths under src/)

    Shared material
    - Prelude.v: [expected], machine integers, lists, maps in key order; tactics
      and hints.  Bytes.v: integers as bytes, CRC-32C, FNV-1a.  Text.v,
      Numbers.v: [std::string], [to_string], [from_chars].  Doubles.v: IEEE
      binary64 on SpecFloat; Rounding.v: operations on doubles give doubles.
      Cursor.v: reading bytes.

    Documents, analysis, index
    - Analysis.v: analysis/analyzer.cpp.  Schema.v: index/schema.cpp.
      Types.v: types.hpp, document.hpp.
    - Index.v: index/in_memory_index.cpp; IndexSpec.v, IndexChecks.v: its
      invariant [wf] (the postings are the inversion of the documents), [put]
      and [erase] on every branch, and its own checker.  Contents.v, ViewSpec.v:
      the index as a view.
    - DocumentFile.v, DocumentFileSpec.v: index/document_file.cpp.

    Queries
    - Query.v, Lexer.v, Parser.v, Grammar.v: query/lexer.cpp, query/parser.cpp
      against an inductive grammar.
    - Plan.v, Planner.v, PlanSpec.v, PlannerSpec.v, PlanBoosts.v:
      query/planner.cpp; canonical texts; what a query means and that its plan
      means the same; when its boosts are usable.
    - Ranking.v: ranking/bm25.cpp, ranking/top_k.cpp.
    - Executor.v, ScoreBits.v, ExecutorSpec.v, SearchSpec.v: query/executor.cpp;
      its scores are doubles, its results those of a document-at-a-time
      specification.
    - QueryCache.v, QueryCacheSpec.v: query/cache.cpp against a bounded LRU
      list.

    Storage
    - Codec.v: storage/posting_codec.cpp.  Segment.v, SegmentSpec.v,
      SegmentFile.v, SegmentRoundtrip.v: storage/segment.cpp.
    - Store.v, StoreSpec.v: the directory, its crashes and a program logic;
      SegmentStore.v: a segment's file operations.
    - Manifest.v, ManifestSpec.v, Durability.v: storage/manifest.cpp.
    - Wal.v, WalSpec.v, WalDurability.v: storage/write_ahead_log.cpp.
    - Generation.v, GenerationSpec.v: storage/generation.cpp.
    - Writer.v, WriterSpec.v, WriterRecovery.v: storage/index_writer.cpp; its
      interleavings, and its log and its crashes together.

    Distribution
    - Cluster.v, ClusterSpec.v: distributed/local_cluster.cpp.
    - Replication.v, ReplicationSpec.v, ReplicaRecovery.v:
      distributed/replication.cpp.
    - Sockets.v: system calls as events, traces and two program logics.  Rpc.v,
      RpcSpec.v, RpcRuns.v, RpcExchange.v, RpcDeadline.v:
      distributed/shard_rpc.cpp.
    - TcpServer.v, TcpServerSpec.v, TcpClient.v, TcpExchange.v:
      distributed/tcp_transport.cpp.

    Around the engine
    - Metrics.v, MetricsSpec.v: telemetry/metrics.cpp.
    - Evaluation.v: evaluation/metrics.cpp.
    - IndexCli.v, Json.v, IndexCliSpec.v, IndexCliRuns.v:
      apps/index_cli/main.cpp; a reader of JSON, that its output is JSON, and
      what its runs print.
    - Programs.v, ProgramsSpec.v: apps/shard_server/main.cpp and
      apps/rpc_client/main.cpp, and the three programs together.

    A class is a record of its fields, a method a function that returns the new
    state; names are the source's (a Module per class where names clash).

    ** What the theorems show

    - Indexing: an index built by puts and erases is the inversion of its
      documents ([index_is_inversion]); [put_spec] gives [put] on every branch.
    - Searching: the parser accepts the grammar and nothing else and always
      ends ([parse_grammar], [parse_total]), and that grammar is the documented
      one but for an implicit OR before NOT ([juxtaposed_negation_refused]);
      plans mean what the queries mean ([plan_describes]); evaluation, search and explanation return the
      documents, scores and order of the specification ([evaluate_spec],
      [search_plan_spec], [explain_spec]); together, [search_describes].
    - Files: segments, manifests, log records and documents files round-trip,
      damaged ones are rejected, and what opens is consistent.
    - Crashes: publishing a generation is atomic ([publish_atomic]); an
      acknowledged log record survives every crash, unless the crash takes the
      whole log, which it can as long as the log's entry in the directory is
      not durable ([wal_append_durable], [replica_log_durable]); replay finds
      the records and cuts a torn tail ([wal_replay_recovers]).  With the same
      exception, a writer that has frozen nothing restores, after any crash,
      every mutation it acknowledged ([writer_recovers]).
    - Generations: the newest version of a document is shown and merging
      changes nothing that can be seen.
    - The writer: in every interleaving its bounds hold and every mutation is
      somewhere until it is published ([writer_conserves]); two theorems show
      interleavings and errors in which an acknowledged mutation is lost
      ([acknowledged_mutation_lost], [failed_open_empties_log]).
    - Distribution: a sharded search is the search on the whole
      ([cluster_search_oracle]), replicas hold a prefix of one log
      ([replicas_follow_log]), a remote search returns the outcome on the
      server's index or an error ([remote_search]) and returns at all
      ([remote_search_returns]); the server closes each connection once and
      drains them before it stops ([tcp_server_drains]).
    - Programs: a run of the index command line prints the answer over the
      newest rows of its document file as JSON ([index_cli_answers]); a segment
      it has written answers as the file does ([segment_stands_in]), also
      through the server and client programs ([programs_answer]).
    - The cache is a bounded LRU map, the metrics are functions of the log of
      their updates, and a ranking is evaluated by the textbook formulas,
      but for the nDCG of one that ends early ([evaluate_closed_form],
      [short_ranking_ndcg]).

    ** Fuel and bounds

    Loops that are not structural take fuel, and a theorem shows that it is
    never used up: the lexer one unit for each byte and one more ([lex_total]),
    the parser eight for each token and eight more ([parse_total]),
    the document reader the bytes left, the cache's eviction the number of
    nodes, the variable-byte encoder five ([encode_loop]: 32 bits in groups of
    seven), the reader of JSON in Json.v the length of its text and one more.
    Loops around system calls are [ITree.iter] and have no fuel; their
    termination is a theorem about the clock (RpcDeadline.v, TcpExchange.v).
    The fuel of [drive] in Sockets.v only serves concrete runs.
    Integers are [Z] with the wrap-around of their width written out
    ([wrap32], [wrap64]) wherever the code's operation can wrap; the sizes of
    objects in memory are below 2^63 and are not wrapped.

    ** Assumptions of the models

    - Disk (Store.v): a crash leaves each file its durable bytes or a prefix of
      the current ones that extends them, and the directory as of one moment
      since its last sync; [rename] replaces a name at once; each call may
      fail.  Texts that the system appends to error messages are left out.
    - Concurrency: the code between two waits on a mutex is one step.  Where
      every operation of a class runs under its mutex (cache, metrics, replica
      group) each is one function; futures that only read are the list of
      their results.
    - Libraries: [log1p] (Ranking.v), [exp2] and [log2] (Evaluation.v),
      [strerror] and [gai_strerror] (Rpc.v, TcpClient.v) are parameters of the definitions that use them, with the
      few facts needed of them as named hypotheses.  Hash functions of
      unordered containers only place their keys and are left out.
    - Allocation does not fail.

    ** Not modelled

    - telemetry/logger.hpp (an interface without users), config.hpp (constants
      without users), benchmarks, fuzz targets, tests, scripts and build files.
    - Thread creation failures, socket options, signals and the wait for them,
      and the texts of system errors. *)

From Stdlib Require Export ZArith Lia.
From stdpp Require Export base tactics option gmap strings sorting numbers.
From stdpp Require Export list.

Open Scope Z_scope.

(** ** Fallible computations: [std::expected<A, E>] *)

Inductive expected (E A : Type) : Type :=
| Ok (a : A)
| Err (e : E).
Arguments Ok {E A} a.
Arguments Err {E A} e.

#[global] Instance expected_ret E : MRet (expected E) := fun A a => Ok a.
#[global] Instance expected_bind E : MBind (expected E) :=
  fun A B f m => match m with Ok a => f a | Err e => Err e end.
#[global] Instance expected_fmap E : FMap (expected E) :=
  fun A B f m => match m with Ok a => Ok (f a) | Err e => Err e end.

Definition is_Ok {E A} (m : expected E A) : bool :=
  match m with Ok _ => true | Err _ => false end.

(** [if (!x) return std::unexpected(f(x.error()))] *)
Definition map_err {E E' A} (f : E -> E') (m : expected E A) : expected E' A :=
  match m with Ok a => Ok a | Err e => Err (f e) end.

(** [if (!b) return std::unexpected(e)] *)
Definition ensure {E} (b : bool) (e : E) : expected E unit :=
  if b then Ok tt else Err e.

(** The result is a value, and it passes the test. *)
Definition ok_and {E A} (m : expected E A) (test : A -> bool) : bool :=
  match m with Ok a => test a | Err _ => false end.

Lemma ok_and_true {E A} (m : expected E A) test :
  ok_and m test = true -> exists a, m = Ok a /\ test a = true.
Proof. destruct m; cbn; [by eauto|done]. Qed.

Lemma bind_Ok {E A B} (m : expected E A) (f : A -> expected E B) b :
  m ≫= f = Ok b <-> exists a, m = Ok a /\ f a = Ok b.
Proof.
  split.
  - destruct m as [a|e]; cbn; [by eauto|done].
  - by intros (a & -> & ?).
Qed.

Lemma bind_Err {E A B} (m : expected E A) (f : A -> expected E B) e :
  m ≫= f = Err e <-> m = Err e \/ exists a, m = Ok a /\ f a = Err e.
Proof.
  split.
  - destruct m as [a|e']; cbn; [by eauto|by intros [= ->]; left].
  - by intros [->|(a & -> & ?)].
Qed.

Lemma map_err_Ok {E E' A} (f : E -> E') (m : expected E A) a :
  map_err f m = Ok a <-> m = Ok a.
Proof. destruct m; cbn; split; congruence. Qed.

Lemma ensure_Ok {E} b (e : E) u : ensure b e = Ok u <-> b = true.
Proof. destruct b, u; cbn; split; congruence. Qed.

(** A loop whose body may return an error: the first one wins. *)
Fixpoint check_each {E A} (f : A -> expected E unit) (l : list A) : expected E unit :=
  match l with
  | [] => Ok tt
  | x :: l' => match f x with Ok _ => check_each f l' | Err e => Err e end
  end.

Lemma check_each_Ok {E A} (f : A -> expected E unit) l :
  check_each f l = Ok tt <-> forall x, x ∈ l -> f x = Ok tt.
Proof.
  induction l as [|x l IH]; cbn.
  - split; [by intros _ ? ?%not_elem_of_nil|done].
  - split.
    + destruct (f x) as [[]|e] eqn:Hx; [|done]. rewrite IH.
      intros H y [->|Hy]%elem_of_cons; auto.
    + intros H. rewrite (H x) by left. apply IH. intros y Hy. apply H. by right.
Qed.

Lemma check_each_Err {E A} (f : A -> expected E unit) l e :
  check_each f l = Err e -> exists x, x ∈ l /\ f x = Err e.
Proof.
  induction l as [|x l IH]; cbn; [done|].
  destruct (f x) as [[]|e'] eqn:Hx.
  - intros (y & Hy & Hf)%IH. exists y. split; [by right|done].
  - intros [= ->]. exists x. split; [by left|done].
Qed.

(** A loop that threads a state and may return an error. *)
Fixpoint fold_each {E A S} (f : S -> A -> expected E S) (s : S) (l : list A) : expected E S :=
  match l with
  | [] => Ok s
  | x :: l' => match f s x with Ok s' => fold_each f s' l' | Err e => Err e end
  end.

Lemma fold_each_Ok {E A S} (f : S -> A -> expected E S) (g : S -> A -> S) l : forall s,
  (forall s x, x ∈ l -> f s x = Ok (g s x)) -> fold_each f s l = Ok (foldl g s l).
Proof.
  induction l as [|x l IH]; intros s Hf; [done|]. cbn. rewrite Hf by left.
  apply IH. intros s' y Hy. apply Hf. by right.
Qed.

Lemma fold_each_Err {E A S} (f : S -> A -> expected E S) l e : forall s,
  fold_each f s l = Err e -> exists s' x, x ∈ l /\ f s' x = Err e.
Proof.
  induction l as [|x l IH]; intros s; cbn; [done|].
  destruct (f s x) as [s'|e'] eqn:Hx.
  - intros (s'' & y & Hy & Hf)%IH. exists s'', y. split; [by right|done].
  - intros [= ->]. exists s, x. split; [by left|done].
Qed.

(** ** Machine integers

    An unsigned w-bit value is a [Z] kept below 2^w; every operation that can
    leave that range says so with one of these. *)

Definition u8_max : Z := 255.
Definition u32_max : Z := 4294967295.
Definition u64_max : Z := 18446744073709551615.
Definition i64_max : Z := 9223372036854775807.
Definition i64_min : Z := -9223372036854775808.

Definition wrap8 (z : Z) : Z := z mod 256.
Definition wrap16 (z : Z) : Z := z mod 65536.
Definition wrap32 (z : Z) : Z := z mod 4294967296.
Definition wrap64 (z : Z) : Z := z mod 18446744073709551616.

Definition is_u32 (z : Z) : Prop := 0 <= z <= u32_max.
Definition is_u64 (z : Z) : Prop := 0 <= z <= u64_max.

#[global] Instance is_u32_dec z : Decision (is_u32 z).
Proof. unfold is_u32. apply _. Defined.
#[global] Instance is_u64_dec z : Decision (is_u64 z).
Proof. unfold is_u64. apply _. Defined.

Lemma wrap32_range z : is_u32 (wrap32 z).
Proof. unfold is_u32, wrap32, u32_max. pose proof (Z.mod_pos_bound z 4294967296). lia. Qed.
Lemma wrap64_range z : is_u64 (wrap64 z).
Proof. unfold is_u64, wrap64, u64_max. pose proof (Z.mod_pos_bound z 18446744073709551616). lia. Qed.
Lemma wrap32_id z : is_u32 z -> wrap32 z = z.
Proof. unfold is_u32, wrap32, u32_max. intros. apply Z.mod_small. lia. Qed.
Lemma wrap64_id z : is_u64 z -> wrap64 z = z.
Proof. unfold is_u64, wrap64, u64_max. intros. apply Z.mod_small. lia. Qed.

(** [std::size_t] of a container. *)
Definition zlen {A} (l : list A) : Z := Z.of_nat (length l).
Definition zstrlen (s : string) : Z := Z.of_nat (String.length s).

Lemma zlen_nil {A} : zlen (@nil A) = 0. Proof. done. Qed.
Lemma zlen_cons {A} (x : A) l : zlen (x :: l) = 1 + zlen l.
Proof. unfold zlen. cbn [length]. lia. Qed.
Lemma zlen_app {A} (l k : list A) : zlen (l ++ k) = zlen l + zlen k.
Proof. unfold zlen. rewrite length_app. lia. Qed.
Lemma zlen_nonneg {A} (l : list A) : 0 <= zlen l.
Proof. unfold zlen. lia. Qed.
Lemma zstrlen_nonneg s : 0 <= zstrlen s.
Proof. unfold zstrlen. lia. Qed.

(** Unfolding [fold_left] by rewriting keeps the kernel from computing the
    step function when it compares the two sides. *)
Lemma fold_left_cons {A B} (f : A -> B -> A) (x : B) l a :
  fold_left f (x :: l) a = fold_left f l (f a x).
Proof. reflexivity. Qed.
Lemma fold_left_nil {A B} (f : A -> B -> A) a : fold_left f [] a = a.
Proof. reflexivity. Qed.

(** ** Ordered maps

    [std::map<K, V>] is a [gmap]; where the program iterates it, the order of
    the keys matters and [map_items] lists the entries in increasing key order. *)

Class KeyOrder (K : Type) := {
  key_le : relation K;
  key_le_dec :: RelDecision key_le;
  key_le_po :: PartialOrder key_le;
  key_le_total :: Total key_le
}.

#[global] Instance string_key_order : KeyOrder string.
Proof. refine {| key_le := String.le |}. Defined.

#[global] Instance Z_key_order : KeyOrder Z.
Proof. refine {| key_le := Z.le |}. Defined.

Definition key_lt {K} `{KeyOrder K} (x y : K) : Prop := key_le x y /\ x <> y.
Definition key_ltb {K} `{KeyOrder K, EqDecision K} (x y : K) : bool :=
  bool_decide (key_le x y) && bool_decide (x <> y).

Section ordered_maps.
Context {K V : Type} `{Countable K, KeyOrder K}.

Definition entry_le (x y : K * V) : Prop := key_le x.1 y.1.

#[global] Instance entry_le_dec : RelDecision entry_le.
Proof. intros x y. unfold entry_le. apply _. Defined.
#[global] Instance entry_le_trans : Transitive entry_le.
Proof. intros x y z. unfold entry_le. by etrans. Qed.
#[global] Instance entry_le_total : Total entry_le.
Proof. intros x y. unfold entry_le. apply total, _. Qed.

Definition map_items (m : gmap K V) : list (K * V) :=
  merge_sort entry_le (map_to_list m).

Lemma map_items_perm m : map_items m ≡ₚ map_to_list m.
Proof. apply merge_sort_Permutation. Qed.

Lemma elem_of_map_items m k v : (k, v) ∈ map_items m <-> m !! k = Some v.
Proof. rewrite map_items_perm. apply elem_of_map_to_list. Qed.

Lemma NoDup_fst_map_items m : NoDup (map_items m).*1.
Proof. rewrite map_items_perm. apply NoDup_fst_map_to_list. Qed.

Lemma list_to_map_items m : list_to_map (map_items m) = m.
Proof.
  rewrite <- (list_to_map_to_list m) at 2.
  apply list_to_map_proper; [apply NoDup_fst_map_items|apply map_items_perm].
Qed.

Lemma length_map_items m : length (map_items m) = size m.
Proof. by rewrite map_items_perm, length_map_to_list. Qed.

Lemma map_items_empty : map_items (∅ : gmap K V) = [].
Proof. unfold map_items. by rewrite map_to_list_empty. Qed.

Lemma map_items_singleton k v : map_items ({[k := v]} : gmap K V) = [(k, v)].
Proof. unfold map_items. by rewrite map_to_list_singleton. Qed.

Lemma StronglySorted_map_items m : StronglySorted entry_le (map_items m).
Proof. apply StronglySorted_merge_sort; apply _. Qed.

Lemma map_items_keys_sorted m : StronglySorted key_lt (map_items m).*1.
Proof.
  pose proof (StronglySorted_map_items m) as Hs. pose proof (NoDup_fst_map_items m) as Hn.
  induction Hs as [|[k v] l Hs IH Hx]; [constructor|]. rewrite fmap_cons in *.
  apply NoDup_cons in Hn as [Hk Hn]. constructor; [by apply IH|].
  rewrite Forall_fmap, Forall_forall in *. intros [k' v'] Hin. specialize (Hx _ Hin).
  split; [exact Hx|]. cbn. intros ->. apply Hk. apply list_elem_of_fmap. by exists (k', v').
Qed.

(** The iteration order is a function of the map alone: any sorted listing of
    the entries is the one the program walks. *)
Lemma map_items_unique m l :
  NoDup l.*1 -> StronglySorted entry_le l -> list_to_map l = m -> l = map_items m.
Proof.
  intros Hnd Hsort Hm.
  assert (Hperm : l ≡ₚ map_items m).
  { rewrite map_items_perm, <- Hm. symmetry. by apply map_to_list_to_map. }
  eapply (StronglySorted_unique_strong entry_le);
    [|exact Hsort|apply StronglySorted_map_items|exact Hperm].
  intros [k1 v1] [k2 v2] H1 H2 Hl1 Hl2.
  assert (k1 = k2) as -> by (apply (anti_symm key_le); assumption).
  assert (m !! k2 = Some v1) as E1.
  { rewrite <- Hm. by apply elem_of_list_to_map_1. }
  apply elem_of_map_items in H2. congruence.
Qed.
End ordered_maps.

(** [std::set<K>] is a [gset], iterated in increasing order. *)
Section ordered_sets.
Context {K : Type} `{Countable K, KeyOrder K}.

Definition set_items (X : gset K) : list K := merge_sort key_le (elements X).

Lemma elem_of_set_items X k : k ∈ set_items X <-> k ∈ X.
Proof. unfold set_items. by rewrite merge_sort_Permutation, elem_of_elements. Qed.

Lemma NoDup_set_items X : NoDup (set_items X).
Proof. unfold set_items. rewrite merge_sort_Permutation. apply NoDup_elements. Qed.

Lemma length_set_items X : length (set_items X) = size X.
Proof. unfold set_items. by rewrite merge_sort_Permutation. Qed.

Lemma list_to_set_items X : list_to_set (set_items X) = X.
Proof. apply set_eq. intros k. by rewrite elem_of_list_to_set, elem_of_set_items. Qed.
End ordered_sets.

(** ** Sorted sequences *)

(** [std::ranges::lower_bound] on a sorted range: the suffix from the first
    element that is not less than the key. *)
Fixpoint lower_bound {A} (less : A -> bool) (l : list A) : list A :=
  match l with
  | [] => []
  | x :: l' => if less x then lower_bound less l' else l
  end.

(** [std::ranges::is_sorted], and no two equal neighbours. *)
Fixpoint adjacent_all {A} (p : A -> A -> bool) (l : list A) : bool :=
  match l with
  | x :: ((y :: _) as l') => p x y && adjacent_all p l'
  | _ => true
  end.

Lemma adjacent_all_Sorted {A} (p : A -> A -> bool) (R : relation A) l :
  (forall x y, p x y = true <-> R x y) -> adjacent_all p l = true <-> Sorted R l.
Proof.
  intros HR. induction l as [|x l IH]; [split; [constructor|done]|].
  destruct l as [|y l]; [split; [by repeat constructor|done]|].
  change (adjacent_all p (x :: y :: l)) with (p x y && adjacent_all p (y :: l)).
  rewrite andb_true_iff, HR, IH. split.
  - intros [H1 H2]. constructor; [done|by constructor].
  - intros H. inversion_clear H as [|? ? Hs Hd]. inversion_clear Hd. done.
Qed.

(** A strictly increasing list of integers of [1, n] has at most [n] elements. *)
Lemma increasing_length (l : list Z) n : 0 <= n -> StronglySorted Z.lt l ->
  Forall (fun x => 1 <= x <= n) l -> zlen l <= n.
Proof.
  revert n. induction l as [|x l IH] using rev_ind; intros n Hn Hs Hf.
  - by rewrite zlen_nil.
  - apply Forall_app in Hf as [Hf Hx]. pose proof (Forall_inv Hx) as Hx'. cbn in Hx'.
    rewrite zlen_app, zlen_cons, zlen_nil.
    apply StronglySorted_app in Hs as (Hlt & Hs & _).
    assert (zlen l <= x - 1); [|lia].
    apply IH; [lia|done|]. rewrite Forall_forall in *. intros y Hy.
    specialize (Hf y Hy). specialize (Hlt y x Hy ltac:(by left)). lia.
Qed.

(** ** Loops that update one key per round *)

Section keyed_loops.
Context {K V A : Type} `{Countable K}.
Variables (f : gmap K V -> A -> gmap K V) (key : A -> K) (g : A -> option V -> option V).
Hypothesis f_keyed : forall m x k, f m x !! k = if decide (k = key x) then g x (m !! k) else m !! k.

Lemma foldl_keyed_not_in l : forall m k, k ∉ key <$> l -> foldl f m l !! k = m !! k.
Proof using f_keyed.
  induction l as [|x l IH]; intros m k Hk; [done|].
  rewrite fmap_cons, not_elem_of_cons in Hk. destruct Hk as [Hne Hk].
  cbn [foldl]. rewrite IH by done. rewrite f_keyed. by rewrite decide_False by done.
Qed.

Lemma foldl_keyed_in l : forall m x, NoDup (key <$> l) -> x ∈ l ->
  foldl f m l !! key x = g x (m !! key x).
Proof using f_keyed.
  induction l as [|y l IH]; intros m x Hnd Hx; [by apply not_elem_of_nil in Hx|].
  rewrite fmap_cons, NoDup_cons in Hnd. destruct Hnd as [Hy Hnd]. cbn [foldl].
  apply elem_of_cons in Hx as [->|Hx].
  - rewrite foldl_keyed_not_in by done. rewrite f_keyed. by rewrite decide_True by done.
  - rewrite IH by done. rewrite f_keyed, decide_False; [done|].
    intros E. apply Hy. rewrite <- E. by apply list_elem_of_fmap_2.
Qed.
End keyed_loops.

(** The same over the entries of a map. *)
Lemma foldl_map_entries {K V A} `{Countable K, KeyOrder K} (f : gmap K V -> K * A -> gmap K V)
    (g : K -> A -> option V -> option V) :
  (forall m k' a k, f m (k', a) !! k = if decide (k = k') then g k a (m !! k) else m !! k) ->
  forall (entries : gmap K A) m k,
    foldl f m (map_items entries) !! k =
    match entries !! k with Some a => g k a (m !! k) | None => m !! k end.
Proof.
  intros Hf entries m k.
  assert (Hk : forall m x k, f m x !! k = if decide (k = x.1) then g x.1 x.2 (m !! k) else m !! k).
  { intros m' [k' a] k''. rewrite Hf. cbn. by destruct (decide (k'' = k')) as [->|]. }
  destruct (entries !! k) as [a|] eqn:E.
  - apply (foldl_keyed_in f fst (fun x => g x.1 x.2) Hk _ _ (k, a)).
    + apply NoDup_fst_map_items.
    + by apply elem_of_map_items.
  - apply (foldl_keyed_not_in f fst (fun x => g x.1 x.2) Hk).
    intros ([k' a] & -> & Hin)%list_elem_of_fmap. apply elem_of_map_items in Hin. cbn in E. congruence.
Qed.

Lemma foldl_map_items {K V A} `{Countable K, KeyOrder K} (f : gmap K V -> K * A -> gmap K V)
    (g : A -> option V -> option V) :
  (forall m k' a k, f m (k', a) !! k = if decide (k = k') then g a (m !! k) else m !! k) ->
  forall (entries : gmap K A) m k,
    foldl f m (map_items entries) !! k =
    match entries !! k with Some a => g a (m !! k) | None => m !! k end.
Proof. apply (foldl_map_entries f (fun _ => g)). Qed.

(** ** Lists with distinct keys *)

Lemma NoDup_fmap_inj {A B} (f : A -> B) l x y :
  NoDup (f <$> l) -> x ∈ l -> y ∈ l -> f x = f y -> x = y.
Proof.
  intros Hnd [i Hi]%list_elem_of_lookup [j Hj]%list_elem_of_lookup E.
  assert (i = j) as ->; [|congruence].
  apply (NoDup_lookup (f <$> l) i j (f x)); [done|by rewrite list_lookup_fmap, Hi|].
  by rewrite list_lookup_fmap, Hj, E.
Qed.

Section sort_by_key.
Context {A : Type} (R : relation A) `{!RelDecision R, !Transitive R, !Total R}.

Lemma merge_sort_unique (l l' : list A) :
  (forall x y, x ∈ l -> y ∈ l -> R x y -> R y x -> x = y) ->
  l ≡ₚ l' -> StronglySorted R l' -> merge_sort R l = l'.
Proof using Type*.
  intros Hanti Hperm Hs.
  apply (StronglySorted_unique_strong R); [|by apply StronglySorted_merge_sort; apply _|done|].
  - intros x y Hx Hy. apply Hanti; [by rewrite merge_sort_Permutation in Hx|by rewrite Hperm].
  - by rewrite merge_sort_Permutation.
Qed.
End sort_by_key.

Lemma StronglySorted_filter {A} (R : relation A) (P : A -> Prop) `{!forall x, Decision (P x)} l :
  StronglySorted R l -> StronglySorted R (filter P l).
Proof.
  induction 1 as [|x l Hs IH Hx]; [constructor|].
  rewrite filter_cons. case_decide; [|done]. constructor; [done|].
  rewrite Forall_forall in *. intros y [_ Hy]%list_elem_of_filter. by apply Hx.
Qed.

Lemma filter_all {A} (P : A -> Prop) `{!forall x, Decision (P x)} (l : list A) :
  (forall x, x ∈ l -> P x) -> filter P l = l.
Proof.
  induction l as [|x l IH]; intros Hl; [done|].
  rewrite filter_cons_True by (apply Hl; left). f_equal. apply IH. intros y Hy. apply Hl. by right.
Qed.

Lemma StronglySorted_sublist {A} (R : relation A) (l l' : list A) :
  sublist l l' -> StronglySorted R l' -> StronglySorted R l.
Proof.
  induction 1 as [|x l l' Hsub IH|x l l' Hsub IH]; [done| |].
  - intros [Hs Hx]%StronglySorted_inv. constructor; [by apply IH|].
    rewrite Forall_forall in *. intros y Hy. apply Hx. by eapply elem_of_sublist.
  - intros [Hs _]%StronglySorted_inv. by apply IH.
Qed.

Lemma StronglySorted_key_lt (l : list Z) : StronglySorted key_lt l <-> StronglySorted Z.lt l.
Proof.
  split; (induction 1 as [|x l Hs IH Hx]; constructor; [done|]);
    (eapply Forall_impl; [exact Hx|]); unfold key_lt; cbn; lia.
Qed.

(** ** Sorting with a comparator

    [std::sort] with a strict weak order: the result is determined up to
    elements the comparator does not tell apart. *)

Section sort_by.
Context {A : Type} (less : A -> A -> bool).

Fixpoint insert_by (x : A) (l : list A) : list A :=
  match l with
  | [] => [x]
  | y :: l' => if less y x then y :: insert_by x l' else x :: l
  end.

Definition sort_by (l : list A) : list A := foldr insert_by [] l.

Lemma insert_by_perm x l : insert_by x l ≡ₚ x :: l.
Proof using Type.
  induction l as [|y l IH]; [done|]. cbn. destruct (less y x); [|done].
  rewrite IH. apply Permutation_swap.
Qed.

Lemma sort_by_perm l : sort_by l ≡ₚ l.
Proof using Type. induction l as [|x l IH]; [done|]. cbn. by rewrite insert_by_perm, IH. Qed.

(** A sorted list is left alone. *)
Lemma sort_by_id l : StronglySorted (fun x y => less y x = false) l -> sort_by l = l.
Proof using Type.
  induction 1 as [|x l Hs IH Hx]; [done|]. change (sort_by (x :: l)) with (insert_by x (sort_by l)).
  rewrite IH. destruct l as [|y l]; [done|]. cbn. apply Forall_inv in Hx. by rewrite Hx.
Qed.

(** The first [k] of an insertion only depend on the first [k]. *)
Lemma take_insert_by k x l : take k (insert_by x l) = take k (insert_by x (take k l)).
Proof using Type.
  revert k. induction l as [|y l IH]; intros k; [by destruct k|]. destruct k as [|k]; [done|].
  cbn [take insert_by]. destruct (less y x); cbn [take].
  - f_equal. apply IH.
  - f_equal. destruct k; [done|]. cbn. f_equal. by rewrite take_take, Nat.min_l by lia.
Qed.

Definition not_after (x y : A) : Prop := less y x = false.

Context (P : A -> Prop).
Hypothesis less_asym : forall x y, P x -> P y -> less x y = true -> less y x = false.
Hypothesis less_trans : forall x y z, P x -> P y -> P z ->
  not_after x y -> not_after y z -> not_after x z.

Lemma insert_by_sorted x l : P x -> Forall P l ->
  StronglySorted not_after l -> StronglySorted not_after (insert_by x l).
Proof using less_asym less_trans.
  intros Hx Hl. induction 1 as [|y l Hs IH Hy]; cbn; [by repeat constructor|].
  apply Forall_cons in Hl as [HPy Hl]. destruct (less y x) eqn:E.
  - constructor; [by apply IH|]. rewrite insert_by_perm. constructor; [|done].
    unfold not_after. by apply less_asym.
  - constructor; [by constructor|]. constructor; [done|].
    rewrite Forall_forall in *. intros z Hz. apply (less_trans x y z); auto.
Qed.

Lemma sort_by_sorted l : Forall P l -> StronglySorted not_after (sort_by l).
Proof using less_asym less_trans.
  induction 1 as [|x l Hx Hl IH]; cbn; [constructor|]. apply insert_by_sorted; [done| |done].
  by rewrite sort_by_perm.
Qed.
End sort_by.

Lemma sort_by_unique {A} (less : A -> A -> bool) (l l' : list A) :
  (forall x y, x ∈ l' -> y ∈ l' -> not_after less x y -> not_after less y x -> x = y) ->
  l ≡ₚ l' -> StronglySorted (not_after less) l -> StronglySorted (not_after less) l' -> l = l'.
Proof.
  intros Hanti Hp Hs Hs'. apply (StronglySorted_unique_strong (not_after less)); [|done..].
  intros x y Hx Hy. apply Hanti; [by rewrite <- Hp|done].
Qed.

Lemma sort_by_fmap {A B} (f : A -> B) (lessA : A -> A -> bool) (lessB : B -> B -> bool) l :
  (forall x y, x ∈ l -> y ∈ l -> lessA x y = lessB (f x) (f y)) ->
  f <$> sort_by lessA l = sort_by lessB (f <$> l).
Proof.
  intros Hf.
  assert (Hins : forall x k, x ∈ l -> (forall y, y ∈ k -> y ∈ l) ->
            f <$> insert_by lessA x k = insert_by lessB (f x) (f <$> k)).
  { intros x k Hx. induction k as [|y k IH]; intros Hk; [done|]. cbn [insert_by]. rewrite fmap_cons.
    cbn [insert_by]. rewrite <- Hf by (first [exact Hx|apply Hk; left]).
    destruct (lessA y x); [|done]. rewrite fmap_cons. f_equal. apply IH. intros z Hz. apply Hk. by right. }
  enough (Hg : forall k, (forall x, x ∈ k -> x ∈ l) -> f <$> sort_by lessA k = sort_by lessB (f <$> k))
    by by apply Hg.
  induction k as [|x k IH]; intros Hk; [done|]. cbn. rewrite Hins.
  - f_equal. apply IH. intros y Hy. apply Hk. by right.
  - apply Hk. by left.
  - intros y Hy. apply Hk. right. by rewrite <- (sort_by_perm lessA k).
Qed.
