(* ===== verification/Bytes.v ===== *)
(** * Bytes: little-endian integers, byte readers, CRC-32C and FNV-1a

    Files and frames are [list byte].  The program has five private copies of
    the same helpers: the [Bytes]/[Buffer] writers and [Cursor] readers of
    src/storage/segment.cpp, src/storage/manifest.cpp,
    src/storage/write_ahead_log.cpp and src/distributed/shard_rpc.cpp, and
    three copies of [crc32c].  The loops they share are here; what differs
    (limits and error codes) is in the file of each component. *)

From S2P Require Import Prelude.
From Stdlib Require Import Init.Byte Strings.Byte.

(** ** Bytes *)

Notation byte := Corelib.Init.Byte.byte.

Definition byte_val (b : byte) : Z := Z.of_N (Byte.to_N b).

(** [static_cast<std::byte>(value & 0xff)] *)
Definition byte_of (z : Z) : byte :=
  match Byte.of_N (Z.to_N (Z.land z 255)) with Some b => b | None => x00 end.

Definition string_bytes (s : string) : list byte := String.list_byte_of_string s.
Definition bytes_string (l : list byte) : string := String.string_of_list_byte l.

#[global] Instance byte_eq_dec : EqDecision byte := Byte.byte_eq_dec.

(** ** Integers: [out.push_back((value >> (i * 8)) & 0xff)] for i = 0 .. width-1 *)

Definition put_int (width : nat) (value : Z) : list byte :=
  map (fun i : nat => byte_of (Z.shiftr value (Z.of_nat i * 8))) (seq 0 width).

(** [value |= byte << (i * 8)] for i = 0 .. width-1 *)
Fixpoint get_int (value : Z) (i : Z) (bs : list byte) : Z :=
  match bs with
  | [] => value
  | b :: bs' => get_int (Z.lor value (Z.shiftl (byte_val b) (i * 8))) (i + 1) bs'
  end.

Definition put_u8 (v : Z) : list byte := [byte_of v].
Definition put_u16 (v : Z) : list byte := put_int 2 v.
Definition put_u32 (v : Z) : list byte := put_int 4 v.
Definition put_u64 (v : Z) : list byte := put_int 8 v.

(** ** Readers

    A [Cursor] is a span and an offset that only moves forward: the model
    carries the part of the span after the offset. *)

Definition reader (E A : Type) : Type := list byte -> expected E (A * list byte).

#[global] Instance reader_ret E : MRet (reader E) := fun A a bs => Ok (a, bs).
#[global] Instance reader_bind E : MBind (reader E) :=
  fun A B f r bs => match r bs with Ok (a, bs') => f a bs' | Err e => Err e end.

Definition read_fail {E A} (e : E) : reader E A := fun _ => Err e.

(** [if (!cond) return std::unexpected(e)] between two reads *)
Definition read_ensure {E} (b : bool) (e : E) : reader E unit :=
  fun bs => if b then Ok (tt, bs) else Err e.

(** The result of the reads, every failure reported as the error [e]. *)
Definition read_or {E E' A} (e : E') (r : reader E A) : reader E' A :=
  fun bs => match r bs with Ok x => Ok x | Err _ => Err e end.

(** [if (remaining() < width) return error; ...; offset_ += width] *)
Definition read_int {E} (e : E) (width : nat) : reader E Z := fun bs =>
  if (length bs <? width)%nat then Err e
  else Ok (get_int 0 0 (take width bs), drop width bs).

(** [n] bytes as a string; the caller has compared [n] with [remaining()]. *)
Definition read_raw {E} (n : Z) : reader E string := fun bs =>
  Ok (bytes_string (take (Z.to_nat n) bs), drop (Z.to_nat n) bs).

(** [n] records one after the other *)
Fixpoint read_many {E A} (n : nat) (r : reader E A) : reader E (list A) :=
  match n with
  | O => mret []
  | S n' => x ← r; xs ← read_many n' r; mret (x :: xs)
  end.

(** A reader consumes exactly [bs] and returns [a], whatever follows. *)
Definition reads {E A} (r : reader E A) (bs : list byte) (a : A) : Prop :=
  forall rest, r (bs ++ rest) = Ok (a, rest).

(** ** CRC-32C, bit by bit *)

Definition crc_poly : Z := 0x82f63b78.

(** [mask = 0U - (crc & 1U); crc = (crc >> 1U) ^ (0x82f63b78U & mask)] *)
Definition crc_bit (crc : Z) : Z :=
  let mask := wrap32 (0 - Z.land crc 1) in
  Z.lxor (Z.shiftr crc 1) (Z.land crc_poly mask).

Definition crc_byte (crc : Z) (item : byte) : Z :=
  Nat.iter 8 crc_bit (Z.lxor crc (byte_val item)).

Definition crc32c (bytes : list byte) : Z :=
  wrap32 (Z.lnot (fold_left crc_byte bytes 0xffffffff)).

(** ** FNV-1a on 64 bits *)

Definition fnv_offset : Z := 14695981039346656037.
Definition fnv_prime : Z := 1099511628211.

Definition fnv_step (hash : Z) (item : byte) : Z :=
  wrap64 (Z.lxor hash (byte_val item) * fnv_prime).

(** ** Lemmas *)

Create HintDb codec.

Lemma byte_val_range b : 0 <= byte_val b < 256.
Proof. unfold byte_val. pose proof (Byte.to_N_bounded b). lia. Qed.

Lemma land_255 z : Z.land z 255 = z mod 256.
Proof. change 255 with (Z.ones 8). by rewrite Z.land_ones by lia. Qed.

Lemma byte_val_of z : byte_val (byte_of z) = z mod 256.
Proof.
  unfold byte_of, byte_val. rewrite land_255.
  pose proof (Z.mod_pos_bound z 256).
  destruct (Byte.of_N (Z.to_N (z mod 256))) as [b|] eqn:E.
  - apply Byte.to_of_N in E. rewrite E. rewrite Z2N.id; lia.
  - apply Byte.of_N_None_iff in E. lia.
Qed.

Lemma byte_val_inj b1 b2 : byte_val b1 = byte_val b2 -> b1 = b2.
Proof.
  unfold byte_val. intros H%N2Z.inj.
  pose proof (Byte.of_to_N b1) as H1. pose proof (Byte.of_to_N b2) as H2.
  rewrite H in H1. congruence.
Qed.

Lemma byte_of_val b : byte_of (byte_val b) = b.
Proof.
  apply byte_val_inj. rewrite byte_val_of. apply Z.mod_small, byte_val_range.
Qed.

Lemma bytes_string_bytes s : bytes_string (string_bytes s) = s.
Proof. apply String.string_of_list_byte_of_string. Qed.
Lemma string_bytes_string l : string_bytes (bytes_string l) = l.
Proof. apply String.list_byte_of_string_of_list_byte. Qed.

Lemma length_string_bytes s : length (string_bytes s) = String.length s.
Proof.
  unfold string_bytes, String.list_byte_of_string.
  rewrite length_map. induction s as [|c s IH]; cbn; [done|by rewrite IH].
Qed.
Lemma zlen_string_bytes s : zlen (string_bytes s) = zstrlen s.
Proof. unfold zlen, zstrlen. by rewrite length_string_bytes. Qed.

Lemma length_put_int width v : length (put_int width v) = width.
Proof. unfold put_int. by rewrite length_map, length_seq. Qed.

Lemma put_int_S width v :
  put_int (S width) v = byte_of v :: put_int width (Z.shiftr v 8).
Proof.
  unfold put_int. cbn [seq map]. rewrite Z.shiftr_0_r. f_equal.
  rewrite <- seq_shift, map_map. apply map_ext. intros i.
  rewrite Z.shiftr_shiftr by lia. do 2 f_equal. lia.
Qed.

(** The loop with an accumulator is the base-256 value of the bytes. *)
Lemma get_int_acc bs : forall value i, 0 <= i ->
  get_int value i bs = Z.lor value (Z.shiftl (get_int 0 0 bs) (i * 8)).
Proof.
  induction bs as [|b bs IH]; intros value i Hi.
  - cbn [get_int]. by rewrite Z.shiftl_0_l, Z.lor_0_r.
  - cbn [get_int]. rewrite IH by lia. rewrite (IH _ (0 + 1)) by lia.
    rewrite Z.lor_0_l, Z.mul_0_l, Z.shiftl_0_r, Z.shiftl_lor, Z.lor_assoc.
    f_equal. rewrite Z.shiftl_shiftl by lia. f_equal. lia.
Qed.

Lemma get_int_cons b bs :
  get_int 0 0 (b :: bs) = Z.lor (byte_val b) (Z.shiftl (get_int 0 0 bs) 8).
Proof.
  cbn [get_int]. rewrite Z.lor_0_l, Z.mul_0_l, Z.shiftl_0_r, get_int_acc by lia.
  reflexivity.
Qed.

Lemma lor_shiftl_disjoint b n s : 0 <= s -> 0 <= b < 2 ^ s ->
  Z.lor b (Z.shiftl n s) = b + n * 2 ^ s.
Proof.
  intros Hs Hb. rewrite Z.lor_comm, Z.shiftl_mul_pow2 by lia.
  pose proof (Z.add_lor_land (n * 2 ^ s) b) as E.
  assert (Z.land (n * 2 ^ s) b = 0) as E0; [|lia].
  apply Z.bits_inj'. intros i Hi. rewrite Z.bits_0, Z.land_spec.
  destruct (Z.lt_ge_cases i s).
  - by rewrite Z.mul_pow2_bits_low.
  - rewrite <- (Z.mod_small b (2 ^ s)) by lia.
    by rewrite Z.mod_pow2_bits_high, andb_false_r by lia.
Qed.

Lemma lor_shiftl_add b n : 0 <= b < 256 -> Z.lor b (Z.shiftl n 8) = b + 256 * n.
Proof. intros. rewrite lor_shiftl_disjoint by (change (2 ^ 8) with 256; lia). lia. Qed.

Lemma get_put_int width : forall v,
  get_int 0 0 (put_int width v) = v mod 2 ^ (Z.of_nat width * 8).
Proof.
  induction width as [|w IH]; intros v.
  - cbn. symmetry. apply Z.mod_1_r.
  - rewrite put_int_S, get_int_cons, IH, byte_val_of.
    rewrite lor_shiftl_add by (apply Z.mod_pos_bound; lia).
    replace (Z.of_nat (S w) * 8) with (8 + Z.of_nat w * 8) by lia.
    rewrite Z.pow_add_r by lia. change (2 ^ 8) with 256.
    rewrite Z.shiftr_div_pow2 by lia. change (2 ^ 8) with 256.
    rewrite Z.rem_mul_r by lia. lia.
Qed.

Lemma get_int_range bs : 0 <= get_int 0 0 bs < 2 ^ (Z.of_nat (length bs) * 8).
Proof.
  induction bs as [|b bs IH]; [cbn; lia|].
  rewrite get_int_cons, lor_shiftl_add by apply byte_val_range.
  pose proof (byte_val_range b). cbn [length].
  replace (Z.of_nat (S (length bs)) * 8) with (8 + Z.of_nat (length bs) * 8) by lia.
  rewrite Z.pow_add_r by lia. change (2 ^ 8) with 256. lia.
Qed.

(** A little-endian integer read back and written again is the same bytes. *)
Lemma put_get_int bs : put_int (length bs) (get_int 0 0 bs) = bs.
Proof.
  induction bs as [|b bs IH]; [done|].
  cbn [length]. rewrite put_int_S, get_int_cons, lor_shiftl_add by apply byte_val_range.
  pose proof (byte_val_range b). f_equal.
  - apply byte_val_inj. rewrite byte_val_of.
    rewrite Z.mul_comm, Z.mod_add by lia. apply Z.mod_small. lia.
  - etrans; [|exact IH]. f_equal. rewrite Z.shiftr_div_pow2 by lia.
    change (2 ^ 8) with 256. rewrite Z.mul_comm, Z.div_add by lia.
    rewrite Z.div_small; lia.
Qed.

(** ** Readers against writers *)

Lemma reads_bind {E A B} (r : reader E A) (f : A -> reader E B) bs1 bs2 a b :
  reads r bs1 a -> reads (f a) bs2 b -> reads (r ≫= f) (bs1 ++ bs2) b.
Proof.
  intros H1 H2 rest. rewrite <- app_assoc.
  unfold mbind, reader_bind. rewrite H1. apply H2.
Qed.

Lemma reads_ret {E A} (a : A) : reads (E := E) (mret a) [] a.
Proof. done. Qed.

(** The last binding of a chain produces no bytes of its own. *)
Lemma reads_bind_nil {E A B} (r : reader E A) (f : A -> reader E B) bs a b :
  reads r bs a -> reads (f a) [] b -> reads (r ≫= f) bs b.
Proof. intros H1 H2. rewrite <- (app_nil_r bs). by eapply reads_bind. Qed.

Lemma reads_ensure {E A} (c : bool) (e : E) (f : unit -> reader E A) bs a :
  c = true -> reads (f tt) bs a -> reads (read_ensure c e ≫= f) bs a.
Proof. intros -> Hf rest. apply Hf. Qed.

Lemma reads_or {E E' A} (e : E') (r : reader E A) bs a :
  reads r bs a -> reads (read_or e r) bs a.
Proof. intros H rest. unfold read_or. by rewrite H. Qed.

Lemma reads_int {E} (e : E) width v :
  0 <= v < 2 ^ (Z.of_nat width * 8) -> reads (read_int e width) (put_int width v) v.
Proof.
  intros Hv rest. unfold read_int.
  rewrite length_app, length_put_int.
  destruct (Nat.ltb_spec (width + length rest) width); [lia|].
  rewrite take_app_length', drop_app_length' by by rewrite length_put_int.
  by rewrite get_put_int, Z.mod_small by done.
Qed.

Lemma reads_raw {E} s : reads (E := E) (read_raw (zstrlen s)) (string_bytes s) s.
Proof.
  intros rest. unfold read_raw, zstrlen. rewrite Nat2Z.id.
  rewrite take_app_length', drop_app_length' by by rewrite length_string_bytes.
  by rewrite bytes_string_bytes.
Qed.

Lemma reads_many {E A} (r : reader E A) (enc : A -> list byte) (xs : list A) n :
  n = length xs -> Forall (fun x => reads r (enc x) x) xs ->
  reads (read_many n r) (xs ≫= enc) xs.
Proof.
  intros ->. induction 1 as [|x xs Hx Hxs IH]; [apply reads_ret|].
  cbn [length read_many mbind list_bind]. eapply reads_bind; [exact Hx|].
  eapply reads_bind_nil; [exact IH|apply reads_ret].
Qed.

#[export] Hint Resolve reads_ret reads_or reads_int reads_raw : codec.

(** ** CRC-32C

    One bit step keeps 32-bit values and is injective on them, since bit 31
    of the result is the bit that was shifted out.  So two messages that
    differ in one byte have different checksums. *)

Lemma bit_above z n i : 0 <= z < 2 ^ n -> n <= i -> Z.testbit z i = false.
Proof.
  intros Hz Hi. destruct (Z.eq_dec z 0) as [->|]; [apply Z.bits_0|].
  apply Z.bits_above_log2; [lia|].
  apply Z.lt_le_trans with n; [|done]. apply Z.log2_lt_pow2; lia.
Qed.

Lemma lxor_bound a b n : 0 <= n -> 0 <= a < 2 ^ n -> 0 <= b < 2 ^ n -> 0 <= Z.lxor a b < 2 ^ n.
Proof.
  intros Hn Ha Hb. assert (0 <= Z.lxor a b) by (apply Z.lxor_nonneg; lia).
  split; [done|].
  destruct (Z.eq_dec (Z.lxor a b) 0) as [->|Hne]; [lia|].
  apply Z.log2_lt_pow2; [lia|].
  pose proof (Z.log2_lxor a b ltac:(lia) ltac:(lia)).
  destruct (Z.eq_dec a 0) as [->|]; destruct (Z.eq_dec b 0) as [->|];
    rewrite ?Z.lxor_0_l, ?Z.lxor_0_r in *; try done;
    try (apply Z.log2_lt_pow2; lia).
  eapply Z.le_lt_trans; [eassumption|]. apply Z.max_lub_lt; apply Z.log2_lt_pow2; lia.
Qed.

Lemma land_1_cases z : Z.land z 1 = 0 \/ Z.land z 1 = 1.
Proof.
  assert (Z.land z 1 = z mod 2) as ->.
  { change 1 with (Z.ones 1). by rewrite Z.land_ones by lia. }
  pose proof (Z.mod_pos_bound z 2). lia.
Qed.

Lemma crc_bit_even z : Z.land z 1 = 0 -> crc_bit z = Z.shiftr z 1.
Proof. intros E. unfold crc_bit. rewrite E. by rewrite Z.lxor_0_r. Qed.
Lemma crc_bit_odd z : Z.land z 1 = 1 -> crc_bit z = Z.lxor (Z.shiftr z 1) crc_poly.
Proof. intros E. unfold crc_bit. by rewrite E. Qed.

Lemma shiftr1_bound z : is_u32 z -> 0 <= Z.shiftr z 1 < 2 ^ 31.
Proof.
  unfold is_u32, u32_max. intros. rewrite Z.shiftr_div_pow2 by lia. change (2 ^ 1) with 2.
  change (2 ^ 31) with 2147483648.
  split; [apply Z.div_pos|apply Z.div_lt_upper_bound]; lia.
Qed.

Lemma is_u32_pow z : is_u32 z <-> 0 <= z < 2 ^ 32.
Proof. unfold is_u32, u32_max. change (2 ^ 32) with 4294967296. lia. Qed.

Lemma crc_bit_range z : is_u32 z -> is_u32 (crc_bit z).
Proof.
  intros Hz. pose proof (shiftr1_bound z Hz) as Hs. apply is_u32_pow.
  destruct (land_1_cases z) as [E|E].
  - rewrite crc_bit_even by done. change (2 ^ 32) with (2 * 2 ^ 31). lia.
  - rewrite crc_bit_odd by done. apply lxor_bound; [lia| |unfold crc_poly; lia].
    change (2 ^ 32) with (2 * 2 ^ 31). lia.
Qed.

Lemma crc_bit_top z : is_u32 z -> Z.testbit (crc_bit z) 31 = Z.testbit z 0.
Proof.
  intros Hz. pose proof (shiftr1_bound z Hz) as Hs.
  assert (Z.testbit z 0 = Z.testbit (Z.land z 1) 0) as ->
    by (rewrite Z.land_spec; cbn; by rewrite andb_true_r).
  destruct (land_1_cases z) as [E|E]; rewrite E.
  - rewrite crc_bit_even by done. rewrite (bit_above _ 31); [done|done|lia].
  - rewrite crc_bit_odd by done. rewrite Z.lxor_spec, (bit_above _ 31); [done|done|lia].
Qed.

Lemma crc_bit_inj x y : is_u32 x -> is_u32 y -> crc_bit x = crc_bit y -> x = y.
Proof.
  intros Hx Hy E.
  assert (Hb : Z.testbit x 0 = Z.testbit y 0) by (rewrite <- !crc_bit_top; congruence).
  assert (Hl : Z.land x 1 = Z.land y 1).
  { apply Z.bits_inj'. intros i Hi. rewrite !Z.land_spec.
    destruct (Z.eq_dec i 0) as [->|]; [by rewrite Hb|].
    rewrite (bit_above 1 1 i), !andb_false_r; [done|lia|lia]. }
  assert (Hs : Z.shiftr x 1 = Z.shiftr y 1).
  { destruct (land_1_cases y) as [Ey|Ey]; rewrite Ey in Hl.
    - rewrite !crc_bit_even in E by congruence. done.
    - rewrite !crc_bit_odd in E by congruence.
      apply (f_equal (fun v => Z.lxor v crc_poly)) in E.
      by rewrite !Z.lxor_assoc, Z.lxor_nilpotent, !Z.lxor_0_r in E. }
  apply Z.bits_inj'. intros i Hi. destruct (Z.eq_dec i 0) as [->|]; [done|].
  apply (f_equal (fun v => Z.testbit v (i - 1))) in Hs.
  rewrite !Z.shiftr_spec in Hs by lia. by replace (i - 1 + 1) with i in Hs by lia.
Qed.

Lemma crc_iter_range n z : is_u32 z -> is_u32 (Nat.iter n crc_bit z).
Proof. intros Hz. induction n; cbn; [done|by apply crc_bit_range]. Qed.

Lemma crc_iter_inj n x y : is_u32 x -> is_u32 y ->
  Nat.iter n crc_bit x = Nat.iter n crc_bit y -> x = y.
Proof.
  intros Hx Hy. induction n as [|n IH]; cbn; [done|].
  intros E. apply IH. apply crc_bit_inj; [by apply crc_iter_range..|done].
Qed.

Lemma lxor_byte_range z b : is_u32 z -> is_u32 (Z.lxor z (byte_val b)).
Proof.
  rewrite !is_u32_pow. intros Hz. apply lxor_bound; [lia|done|].
  pose proof (byte_val_range b). lia.
Qed.

Lemma crc_byte_eq z b : crc_byte z b = Nat.iter 8 crc_bit (Z.lxor z (byte_val b)).
Proof. reflexivity. Qed.

#[local] Opaque crc_byte.

Lemma crc_byte_range z b : is_u32 z -> is_u32 (crc_byte z b).
Proof. intros Hz. rewrite crc_byte_eq. by apply (crc_iter_range 8), lxor_byte_range. Qed.

Lemma lxor_cancel_r a b c : Z.lxor a c = Z.lxor b c -> a = b.
Proof.
  intros E. apply (f_equal (fun v => Z.lxor v c)) in E.
  by rewrite !Z.lxor_assoc, Z.lxor_nilpotent, !Z.lxor_0_r in E.
Qed.

Lemma lxor_cancel_l a b c : Z.lxor c a = Z.lxor c b -> a = b.
Proof. rewrite !(Z.lxor_comm c). apply lxor_cancel_r. Qed.

Lemma crc_byte_inj_state x y b : is_u32 x -> is_u32 y ->
  crc_byte x b = crc_byte y b -> x = y.
Proof.
  intros Hx Hy E. rewrite !crc_byte_eq in E. apply (lxor_cancel_r x y (byte_val b)).
  revert E. apply (crc_iter_inj 8); by apply lxor_byte_range.
Qed.

Lemma crc_byte_inj_byte z b1 b2 : is_u32 z ->
  crc_byte z b1 = crc_byte z b2 -> b1 = b2.
Proof.
  intros Hz E. rewrite !crc_byte_eq in E. apply byte_val_inj, (lxor_cancel_l _ _ z).
  revert E. apply (crc_iter_inj 8); by apply lxor_byte_range.
Qed.

Lemma crc_fold_range bs z : is_u32 z -> is_u32 (fold_left crc_byte bs z).
Proof.
  revert z. induction bs as [|b bs IH]; intros z Hz; [done|].
  rewrite fold_left_cons. by apply IH, crc_byte_range.
Qed.

Lemma crc_fold_inj bs x y : is_u32 x -> is_u32 y ->
  fold_left crc_byte bs x = fold_left crc_byte bs y -> x = y.
Proof.
  revert x y. induction bs as [|b bs IH]; intros x y Hx Hy E; [done|].
  rewrite !fold_left_cons in E. apply IH in E; [|by apply crc_byte_range..]. by eapply crc_byte_inj_state.
Qed.

Lemma is_u32_ones : is_u32 0xffffffff.
Proof. by vm_compute. Qed.

Lemma crc32c_range bs : is_u32 (crc32c bs).
Proof. apply wrap32_range. Qed.

Lemma wrap32_lnot z : is_u32 z -> wrap32 (Z.lnot z) = u32_max - z.
Proof.
  unfold is_u32, wrap32, u32_max, Z.lnot. intros.
  replace (Z.pred (- z)) with (4294967295 - z + (-1) * 4294967296) by lia.
  rewrite Z.mod_add by lia. apply Z.mod_small. lia.
Qed.

Lemma crc_fold_one_byte pre b1 b2 post z : is_u32 z ->
  fold_left crc_byte (pre ++ b1 :: post) z = fold_left crc_byte (pre ++ b2 :: post) z ->
  b1 = b2.
Proof.
  intros Hz. rewrite !fold_left_app, !fold_left_cons. intros E.
  pose proof (crc_fold_range pre z Hz) as Hp.
  apply (crc_byte_inj_byte _ _ _ Hp). revert E.
  apply crc_fold_inj; by apply crc_byte_range.
Qed.

Lemma crc32c_one_byte pre b1 b2 post :
  crc32c (pre ++ b1 :: post) = crc32c (pre ++ b2 :: post) -> b1 = b2.
Proof.
  unfold crc32c. rewrite !wrap32_lnot by apply crc_fold_range, is_u32_ones.
  intros E. apply (crc_fold_one_byte pre b1 b2 post _ is_u32_ones).
  exact (proj1 (Z.sub_cancel_l _ _ _) E).
Qed.

Lemma fnv_step_range h b : is_u64 (fnv_step h b).
Proof. apply wrap64_range. Qed.

(** The check value of the CRC-32C parameters, over the bytes "123456789". *)
Example crc32c_check : crc32c (string_bytes "123456789") = 0xe3069283.
Proof. by vm_compute. Qed.
