(* ===== verification/Codec.v ===== *)
(** * Variable-byte integers and delta lists

    src/storage/posting_codec.cpp: [VariableByteCodec].  A 32-bit value is
    written seven bits at a time, low bits first, the last byte marked with
    bit 7; a strictly increasing list is written as its differences. *)

From S2P Require Import Prelude Bytes.

Inductive CodecErrorCode :=
| codec_truncated | codec_overflow | codec_non_canonical | codec_invalid_order
| codec_resource_limit.

Record CodecError := { codec_code : CodecErrorCode; codec_message : string }.

Module VariableByteCodec.

(** [do { byte = value & 0x7f; value >>= 7; if (value == 0) byte |= 0x80;
    output.push_back(byte); } while (value != 0)] *)
Fixpoint encode_loop (fuel : nat) (value : Z) : option (list byte) :=
  match fuel with
  | O => None
  | S fuel' =>
      let b := Z.land value 0x7f in
      let value' := Z.shiftr value 7 in
      if value' =? 0 then Some [byte_of (Z.lor b 0x80)]
      else rest ← encode_loop fuel' value'; Some (byte_of b :: rest)
  end.

(** Five rounds are enough for 32 bits ([encode_loop_total]). *)
Definition encode (value : Z) : list byte := default [] (encode_loop 5 value).

(** [for (shift = 0; shift <= 28; shift += 7)]: [n] rounds left *)
Fixpoint decode_loop (n : nat) (shift value : Z) : reader CodecError Z := fun input =>
  match n with
  | O => Err {| codec_code := codec_overflow;
                codec_message := "variable-byte integer is too long" |}
  | S n' =>
      match input with
      | [] => Err {| codec_code := codec_truncated;
                     codec_message := "truncated variable-byte integer" |}
      | item :: input' =>
          let b := byte_val item in
          let payload := Z.land b 0x7f in
          if (shift =? 28) && (payload >? 15) then
            Err {| codec_code := codec_overflow;
                   codec_message := "variable-byte integer overflow" |}
          else
            let value' := Z.lor value (Z.shiftl payload shift) in
            if negb (Z.land b 0x80 =? 0) then
              if negb (shift =? 0) && (payload =? 0) then
                Err {| codec_code := codec_non_canonical;
                       codec_message := "non-canonical variable-byte integer" |}
              else Ok (value', input')
            else decode_loop n' (shift + 7) value' input'
      end
  end.

Definition decode : reader CodecError Z := decode_loop 5 0 0.

Fixpoint encode_deltas_from (previous : Z) (sorted : list Z) : expected CodecError (list byte) :=
  match sorted with
  | [] => Ok []
  | value :: sorted' =>
      if value <=? previous then
        Err {| codec_code := codec_invalid_order;
               codec_message := "values are not strictly increasing" |}
      else rest ← encode_deltas_from value sorted';
           Ok (encode (wrap32 (value - previous)) ++ rest)
  end.

Definition encode_deltas (sorted : list Z) : expected CodecError (list byte) :=
  encode_deltas_from 0 sorted.

Fixpoint decode_deltas_from (n : nat) (previous : Z) : reader CodecError (list Z) :=
  match n with
  | O => mret []
  | S n' =>
      delta ← decode;
      _ ← read_ensure (negb ((delta =? 0) || (delta >? u32_max - previous)))
            {| codec_code := codec_invalid_order;
               codec_message := "delta sequence is not strictly increasing" |};
      rest ← decode_deltas_from n' (previous + delta);
      mret ((previous + delta) :: rest)
  end.

Definition decode_deltas (input : list byte) (expected_count maximum_count : Z)
    : expected CodecError (list Z) :=
  if expected_count >? maximum_count then
    Err {| codec_code := codec_resource_limit;
           codec_message := "decoded integer count exceeds limit" |}
  else
    match decode_deltas_from (Z.to_nat expected_count) 0 input with
    | Err e => Err e
    | Ok (result, []) => Ok result
    | Ok (_, _ :: _) =>
        Err {| codec_code := codec_non_canonical;
               codec_message := "trailing variable-byte data" |}
    end.

(** ** One integer *)

Lemma land_127 z : Z.land z 0x7f = z mod 128.
Proof. change 0x7f with (Z.ones 7). by rewrite Z.land_ones by lia. Qed.

Lemma shiftr_7 z : Z.shiftr z 7 = z / 128.
Proof. by rewrite Z.shiftr_div_pow2 by lia. Qed.

Lemma lor_128 z : 0 <= z < 128 -> Z.lor z 0x80 = z + 128.
Proof.
  intros. change (Z.lor z 0x80) with (Z.lor z (Z.shiftl 1 7)).
  rewrite lor_shiftl_disjoint by (change (2 ^ 7) with 128; lia).
  change (2 ^ 7) with 128. lia.
Qed.

(** The two fields of a byte as the decoder reads them. *)
Lemma byte_fields b : 0 <= b < 256 ->
  Z.land b 0x7f = b mod 128 /\ (negb (Z.land b 0x80 =? 0) = (128 <=? b)).
Proof.
  intros Hb. split; [apply land_127|].
  assert (Z.land b 0x80 = if 128 <=? b then 128 else 0) as ->.
  { pose proof (Z.mod_pos_bound b 128 ltac:(lia)) as Hm.
    destruct (Z.leb_spec 128 b).
    - assert (Em : b mod 128 = b - 128) by (symmetry; apply (Z.mod_unique _ _ 1); lia).
      replace b with (Z.lor (b mod 128) 0x80) by (rewrite lor_128 by done; lia).
      rewrite Z.land_lor_distr_l.
      replace (Z.land (b mod 128) 128) with 0; [done|].
      symmetry. apply Z.bits_inj'. intros i Hi. rewrite Z.bits_0, Z.land_spec.
      destruct (Z.eq_dec i 7) as [->|].
      + rewrite (bit_above _ 7); [done|change (2 ^ 7) with 128; lia|lia].
      + change 128 with (2 ^ 7) at 2. rewrite Z.pow2_bits_false by done. apply andb_false_r.
    - apply Z.bits_inj'. intros i Hi. rewrite Z.bits_0, Z.land_spec.
      destruct (Z.eq_dec i 7) as [->|].
      + rewrite (bit_above _ 7); [done|change (2 ^ 7) with 128; lia|lia].
      + change 128 with (2 ^ 7). rewrite Z.pow2_bits_false by done. apply andb_false_r. }
  destruct (128 <=? b); done.
Qed.

Lemma encode_loop_S fuel v : 0 <= v ->
  encode_loop (S fuel) v =
  if v <? 128 then Some [byte_of (v + 128)]
  else rest ← encode_loop fuel (v / 128); Some (byte_of (v mod 128) :: rest).
Proof.
  intros Hv. cbn [encode_loop]. rewrite land_127, shiftr_7.
  destruct (Z.ltb_spec v 128).
  - rewrite Z.div_small, Z.mod_small by lia. cbn. by rewrite lor_128 by lia.
  - destruct (Z.eqb_spec (v / 128) 0) as [E|]; [|done].
    apply Z.div_small_iff in E; lia.
Qed.

Lemma encode_loop_more fuel : forall v bs,
  encode_loop fuel v = Some bs -> encode_loop (S fuel) v = Some bs.
Proof.
  induction fuel as [|fuel IH]; intros v bs; [done|].
  intros H. cbn [encode_loop] in H |- *. cbn [encode_loop] in IH.
  destruct (Z.shiftr v 7 =? 0); [done|].
  destruct (encode_loop fuel (Z.shiftr v 7)) as [rest|] eqn:E; [|done].
  by rewrite (IH _ _ E).
Qed.

(** [k] rounds write any value of [7 k] bits. *)
Lemma encode_loop_total fuel : forall v, (0 < fuel)%nat ->
  0 <= v < 2 ^ (Z.of_nat fuel * 7) ->
  exists bs, encode_loop fuel v = Some bs /\ (1 <= length bs <= fuel)%nat.
Proof.
  induction fuel as [|fuel IH]; intros v Hf Hv; [lia|].
  rewrite encode_loop_S by lia. destruct (Z.ltb_spec v 128).
  - eexists; split; [done|cbn; lia].
  - replace (Z.of_nat (S fuel) * 7) with (7 + Z.of_nat fuel * 7) in Hv by lia.
    rewrite Z.pow_add_r in Hv by lia. change (2 ^ 7) with 128 in Hv.
    destruct fuel as [|fuel]; [cbn in Hv; lia|].
    destruct (IH (v / 128) ltac:(lia)) as (bs & -> & Hlen).
    { split; [apply Z.div_pos; lia|apply Z.div_lt_upper_bound; lia]. }
    eexists; split; [done|cbn in *; lia].
Qed.

Lemma encode_loop_32 v : is_u32 v -> encode_loop 5 v = Some (encode v).
Proof.
  intros Hv%is_u32_pow. unfold encode.
  destruct (encode_loop_total 5 v) as (bs & -> & _); [lia| |done].
  change (Z.of_nat 5 * 7) with 35. change (2 ^ 35) with (8 * 2 ^ 32). lia.
Qed.

(** Decoding from bit position [s] inverts encoding of the remaining bits. *)
Lemma decode_encode_loop n : forall fuel s acc v bs rest,
  s = 28 - 7 * (Z.of_nat n - 1) -> 0 <= s -> 0 <= acc < 2 ^ s ->
  0 <= v < 2 ^ (32 - s) -> (s <> 0 -> v <> 0) -> (0 < n)%nat ->
  encode_loop fuel v = Some bs ->
  decode_loop n s acc (bs ++ rest) = Ok (acc + v * 2 ^ s, rest).
Proof.
  induction n as [|n IH]; intros fuel s acc v bs rest Hs Hs0 Hacc Hv Hz Hn He; [lia|].
  destruct fuel as [|fuel]; [done|]. rewrite encode_loop_S in He by lia.
  assert (Hsmall : s = 28 -> v < 16).
  { intros ->. change (2 ^ (32 - 28)) with 16 in Hv. lia. }
  destruct (Z.ltb_spec v 128) as [Hlt|Hge].
  - injection He as <-. cbn [app decode_loop].
    rewrite byte_val_of, Z.mod_small by lia.
    destruct (byte_fields (v + 128)) as [-> ->]; [lia|].
    replace ((v + 128) mod 128) with v
      by (replace (v + 128) with (v + 1 * 128) by lia; rewrite Z.mod_add, Z.mod_small; lia).
    replace ((s =? 28) && (v >? 15)) with false
      by (destruct (Z.eqb_spec s 28); cbn; [|done]; destruct (Z.gtb_spec v 15); lia).
    destruct (Z.leb_spec 128 (v + 128)); [|lia].
    replace (negb (s =? 0) && (v =? 0)) with false
      by (destruct (Z.eqb_spec s 0), (Z.eqb_spec v 0); cbn; try done; tauto).
    by rewrite lor_shiftl_disjoint.
  - destruct (encode_loop fuel (v / 128)) as [bs'|] eqn:E'; [|done].
    injection He as <-. cbn [app decode_loop].
    pose proof (Z.mod_pos_bound v 128 ltac:(lia)) as Hm.
    rewrite byte_val_of, (Z.mod_small (v mod 128) 256) by lia.
    destruct (byte_fields (v mod 128)) as [-> ->]; [lia|].
    rewrite Z.mod_mod by lia.
    destruct (Z.eqb_spec s 28) as [->|Hne]; [lia|]. cbn [andb].
    destruct (Z.leb_spec 128 (v mod 128)); [lia|].
    assert (s + 7 <= 28) by lia.
    assert (2 ^ (s + 7) = 128 * 2 ^ s) as Ep by (rewrite Z.pow_add_r by lia; lia).
    assert (2 ^ (32 - s) = 128 * 2 ^ (32 - (s + 7))) as Eq.
    { replace (32 - s) with (7 + (32 - (s + 7))) by lia. by rewrite Z.pow_add_r by lia. }
    rewrite lor_shiftl_disjoint by done.
    rewrite (IH fuel (s + 7) _ (v / 128) bs' rest); [|lia|lia|nia| | |lia|done].
    + do 2 f_equal. rewrite Ep. rewrite (Z.div_mod v 128) at 3 by lia. lia.
    + split; [apply Z.div_pos; lia|apply Z.div_lt_upper_bound; lia].
    + intros _ E0. apply Z.div_small_iff in E0; lia.
Qed.

(** ... and everything the decoder accepts is such an encoding. *)
Lemma decode_loop_inv n : forall s acc input v rest,
  s = 28 - 7 * (Z.of_nat n - 1) -> 0 <= s -> 0 <= acc < 2 ^ s ->
  decode_loop n s acc input = Ok (v, rest) ->
  exists w bs, v = acc + w * 2 ^ s /\ 0 <= w < 2 ^ (32 - s) /\ (s <> 0 -> w <> 0) /\
    encode_loop n w = Some bs /\ input = bs ++ rest.
Proof.
  induction n as [|n IH]; intros s acc input v rest Hs Hs0 Hacc; [done|].
  cbn [decode_loop]. destruct input as [|item input]; [done|].
  pose proof (byte_val_range item) as Hb.
  destruct (byte_fields (byte_val item) Hb) as [-> ->].
  set (b := byte_val item) in *.
  pose proof (Z.mod_pos_bound b 128 ltac:(lia)) as Hm.
  destruct ((s =? 28) && (b mod 128 >? 15)) eqn:E28; [done|].
  assert (H28 : s = 28 -> b mod 128 < 16).
  { intros ->. cbn in E28. destruct (Z.gtb_spec (b mod 128) 15); [done|lia]. }
  destruct (Z.leb_spec 128 b) as [Hhi|Hlo].
  - destruct (negb (s =? 0) && (b mod 128 =? 0)) eqn:Ec; [done|].
    intros [= <- <-]. exists (b mod 128), [item].
    assert (Hp : b mod 128 = b - 128).
    { symmetry. apply (Z.mod_unique _ _ 1); lia. }
    split_and!; [by rewrite lor_shiftl_disjoint|lia| | | |done].
    + destruct (Z.eq_dec s 28) as [->|]; [change (2 ^ (32 - 28)) with 16; lia|].
      assert (2 ^ 7 <= 2 ^ (32 - s)) by (apply Z.pow_le_mono_r; lia).
      change (2 ^ 7) with 128 in *. lia.
    + intros Hne. destruct (Z.eqb_spec s 0), (Z.eqb_spec (b mod 128) 0); done.
    + rewrite encode_loop_S by lia. destruct (Z.ltb_spec (b mod 128) 128); [|lia].
      do 2 f_equal. rewrite Hp. replace (b - 128 + 128) with b by lia. apply byte_of_val.
  - rewrite Z.mod_small in H28 |- * by lia.
    destruct n as [|n]; [done|].
    assert (Hs28 : s + 7 <= 28) by lia.
    assert (2 ^ (s + 7) = 128 * 2 ^ s) as Ep by (rewrite Z.pow_add_r by lia; lia).
    assert (2 ^ (32 - s) = 128 * 2 ^ (32 - (s + 7))) as Eq.
    { replace (32 - s) with (7 + (32 - (s + 7))) by lia. by rewrite Z.pow_add_r by lia. }
    intros Hrec. rewrite lor_shiftl_disjoint in Hrec by done.
    apply IH in Hrec; [|lia|lia|nia].
    destruct Hrec as (w & bs & -> & Hw & Hnz & Henc & ->).
    specialize (Hnz ltac:(lia)).
    exists (b + 128 * w), (item :: bs). split_and!; [rewrite Ep; lia|lia|lia|lia| |done].
    rewrite encode_loop_S by lia. destruct (Z.ltb_spec (b + 128 * w) 128); [lia|].
    replace ((b + 128 * w) / 128) with w
      by (rewrite Z.mul_comm, Z.div_add, Z.div_small; lia).
    rewrite Henc. cbn. do 2 f_equal.
    rewrite Z.mul_comm, Z.mod_add, Z.mod_small by lia. apply byte_of_val.
Qed.

Lemma reads_vbyte v : is_u32 v -> reads decode (encode v) v.
Proof.
  intros Hv rest. unfold decode.
  rewrite (decode_encode_loop 5 5 0 0 v (encode v) rest); try lia.
  - change (2 ^ 0) with 1. do 2 f_equal. lia.
  - apply is_u32_pow in Hv. done.
  - by apply encode_loop_32.
Qed.

Lemma decode_inv input v rest :
  decode input = Ok (v, rest) -> is_u32 v /\ input = encode v ++ rest.
Proof.
  intros H. apply (decode_loop_inv 5 0 0) in H; [|lia..].
  destruct H as (w & bs & -> & Hw & _ & Henc & ->).
  change (2 ^ 0) with 1. rewrite Z.mul_1_r, Z.add_0_l.
  change (32 - 0) with 32 in Hw. apply is_u32_pow in Hw. split; [done|].
  rewrite encode_loop_32 in Henc by done. by injection Henc as <-.
Qed.

Lemma length_encode v : is_u32 v -> (1 <= length (encode v) <= 5)%nat.
Proof.
  intros Hv. pose proof (encode_loop_32 v Hv) as E. apply is_u32_pow in Hv.
  destruct (encode_loop_total 5 v) as (bs & E' & Hl); [lia| |congruence].
  change (Z.of_nat 5 * 7) with 35. change (2 ^ 35) with (8 * 2 ^ 32). lia.
Qed.

(** ** Delta lists *)

(** Strictly increasing 32-bit values above [previous]. *)
Fixpoint increasing_from (previous : Z) (l : list Z) : Prop :=
  match l with
  | [] => True
  | v :: l' => previous < v <= u32_max /\ increasing_from v l'
  end.

#[export] Instance increasing_from_dec : forall l p, Decision (increasing_from p l).
Proof. induction l; intros p; cbn; apply _. Defined.

Lemma decode_deltas_from_encode l : forall p bs rest, 0 <= p ->
  increasing_from p l -> encode_deltas_from p l = Ok bs ->
  decode_deltas_from (length l) p (bs ++ rest) = Ok (l, rest).
Proof.
  induction l as [|v l IH]; intros p bs rest Hp Hinc He.
  - by injection He as <-.
  - destruct Hinc as [Hv Hinc]. cbn [encode_deltas_from] in He.
    destruct (Z.leb_spec v p); [lia|].
    apply bind_Ok in He as (bs' & He & [= <-]).
    assert (is_u32 (v - p)) as Hd by (unfold is_u32 in *; lia).
    rewrite wrap32_id by done. cbn [length decode_deltas_from].
    rewrite <- app_assoc. unfold mbind, reader_bind. rewrite (reads_vbyte _ Hd).
    unfold read_ensure. destruct (Z.eqb_spec (v - p) 0); [lia|].
    destruct (Z.gtb_spec (v - p) (u32_max - p)); [lia|]. cbn [orb negb].
    replace (p + (v - p)) with v by lia.
    by rewrite (IH v bs' rest ltac:(lia) Hinc He).
Qed.

Lemma encode_deltas_from_Ok l : forall p, increasing_from p l ->
  exists bs, encode_deltas_from p l = Ok bs.
Proof.
  induction l as [|v l IH]; intros p Hinc; [by eexists|].
  destruct Hinc as [Hv Hinc]. cbn [encode_deltas_from].
  destruct (Z.leb_spec v p); [lia|]. destruct (IH v Hinc) as [bs ->]. by eexists.
Qed.

Lemma encode_deltas_inc l : forall p bytes, Forall is_u32 l -> encode_deltas_from p l = Ok bytes ->
  increasing_from p l.
Proof.
  induction l as [|v l IH]; intros p bytes Hl He; [done|]. apply Forall_cons in Hl as [Hv Hl].
  cbn [encode_deltas_from] in He. destruct (Z.leb_spec v p); [done|].
  apply bind_Ok in He as (bs & He & _). split; [unfold is_u32 in *; lia|by eapply IH].
Qed.

Lemma encode_deltas_from_Err l e : forall p, encode_deltas_from p l = Err e ->
  ~ increasing_from p l /\ codec_code e = codec_invalid_order.
Proof.
  induction l as [|v l IH]; intros p He; [done|]. cbn [encode_deltas_from] in He.
  destruct (Z.leb_spec v p).
  - injection He as <-. split; [intros [Hv _]; lia|done].
  - apply bind_Err in He as [He|(? & _ & He)]; [|done].
    apply IH in He as [Hn ?]. split; [by intros [_ ?]|done].
Qed.

Lemma decode_deltas_from_inv n : forall p input l rest, 0 <= p <= u32_max ->
  decode_deltas_from n p input = Ok (l, rest) ->
  length l = n /\ increasing_from p l /\
  exists bs, encode_deltas_from p l = Ok bs /\ input = bs ++ rest.
Proof.
  induction n as [|n IH]; intros p input l rest Hp H.
  - injection H as <- <-. split_and!; [done|done|]. by exists [].
  - cbn [decode_deltas_from] in H. unfold mbind, reader_bind, read_ensure in H.
    destruct (decode input) as [[d input']|] eqn:Ed; [|done].
    apply decode_inv in Ed as [Hd ->]. unfold is_u32 in Hd.
    destruct (Z.eqb_spec d 0); [done|].
    destruct (Z.gtb_spec d (u32_max - p)); [done|]. cbn [orb negb] in H.
    destruct (decode_deltas_from n (p + d) input') as [[l' rest']|] eqn:El; [|done].
    injection H as <- <-. apply IH in El as (<- & Hinc & bs & Henc & ->); [|lia].
    split_and!; [done|cbn; split; [lia|done]|].
    exists (encode d ++ bs). cbn [encode_deltas_from].
    destruct (Z.leb_spec (p + d) p); [lia|]. rewrite Henc. cbn.
    rewrite wrap32_id by (unfold is_u32; lia).
    replace (p + d - p) with d by lia. by rewrite <- app_assoc.
Qed.

(** ** Properties *)

(**  The variable-byte code is a bijection between 32-bit values and the
    byte strings [decode] accepts: every value is read back from its own
    encoding, of one to five bytes, whatever follows it, and anything that is
    read at all is the encoding of its value, so overlong, overflowing and
    truncated forms are all refused. *)
Theorem vbyte_bijection input value rest :
  decode input = Ok (value, rest) <->
  is_u32 value /\ input = encode value ++ rest /\ (1 <= length (encode value) <= 5)%nat.
Proof.
  split.
  - intros [Hv ->]%decode_inv. split_and!; [apply Hv..|done| |]; by apply length_encode.
  - intros (Hv & -> & _). by apply reads_vbyte.
Qed.

(**  The delta code: [encode_deltas] accepts exactly the strictly
    increasing lists of positive values, and [decode_deltas], given the right
    count within the limit, accepts exactly their encodings and gives the list
    back. *)
Theorem delta_roundtrip l input maximum :
  Forall is_u32 l ->
  match encode_deltas l with
  | Ok bytes => increasing_from 0 l /\
      (zlen l <= maximum -> decode_deltas input (zlen l) maximum = Ok l <-> input = bytes)
  | Err e => ~ increasing_from 0 l /\ codec_code e = codec_invalid_order
  end.
Proof.
  intros Hl. unfold encode_deltas. destruct (encode_deltas_from 0 l) as [bytes|e] eqn:E.
  - assert (Hinc : increasing_from 0 l) by by eapply encode_deltas_inc.
    split; [done|]. intros Hmax. unfold decode_deltas.
    destruct (Z.gtb_spec (zlen l) maximum); [lia|]. unfold zlen. rewrite Nat2Z.id. split.
    + destruct (decode_deltas_from (length l) 0 input) as [[l' rest]|] eqn:Ed; [|done].
      destruct rest; [|done]. intros [= ->].
      apply decode_deltas_from_inv in Ed as (_ & _ & bs & Eb & ->); [|unfold u32_max; lia].
      rewrite app_nil_r. congruence.
    + intros ->. rewrite <- (app_nil_r bytes).
      by rewrite (decode_deltas_from_encode l 0 bytes []) by done.
  - by apply encode_deltas_from_Err.
Qed.

Lemma delta_roundtrip_witness :
  exists bytes, encode_deltas [3; 300; 70000] = Ok bytes /\ length bytes = 6%nat /\
    decode_deltas bytes 3 10 = Ok [3; 300; 70000].
Proof.
  eexists. split; [vm_compute; reflexivity|]. split; [vm_compute; reflexivity|].
  eapply (delta_roundtrip [3; 300; 70000] _ 10).
  - repeat constructor; discriminate.
  - discriminate.
  - reflexivity.
Defined.

End VariableByteCodec.
