(* ===== verification/Text.v ===== *)
(** * Text: characters and the numeric conversions of the C++ library

    What src/ uses of <cctype> in the "C" locale (the program never sets
    another one), of [std::string], [std::to_string] and the integer
    overloads of [std::from_chars].  A [std::string] is a [string] of bytes
    (8-bit [ascii] characters); positions are byte offsets. *)

From S2P Require Import Prelude.
From Stdlib Require Import Ascii.

#[global] Arguments String.append !_ _ /.

(** ** Characters *)

Definition code (c : ascii) : Z := Z.of_N (N_of_ascii c).
Definition chr (z : Z) : ascii := ascii_of_N (Z.to_N z).

Definition is_digit (c : ascii) : bool := (48 <=? code c) && (code c <=? 57).
Definition is_upper (c : ascii) : bool := (65 <=? code c) && (code c <=? 90).
Definition is_lower (c : ascii) : bool := (97 <=? code c) && (code c <=? 122).
(** [std::isalnum], [std::isspace], [std::tolower] *)
Definition is_alnum (c : ascii) : bool := is_digit c || is_upper c || is_lower c.
Definition is_space (c : ascii) : bool :=
  ((9 <=? code c) && (code c <=? 13)) || (code c =? 32).
Definition to_lower (c : ascii) : ascii := if is_upper c then chr (code c + 32) else c.

(** ** Strings *)

Fixpoint str_map (f : ascii -> ascii) (s : string) : string :=
  match s with EmptyString => EmptyString | String c s' => String (f c) (str_map f s') end.

(** The longest prefix of characters satisfying [p], and the rest. *)
Fixpoint span (p : ascii -> bool) (s : string) : string * string :=
  match s with
  | EmptyString => (EmptyString, EmptyString)
  | String c s' =>
      if p c then let '(a, b) := span p s' in (String c a, b) else (EmptyString, s)
  end.

Fixpoint str_forallb (p : ascii -> bool) (s : string) : bool :=
  match s with EmptyString => true | String c s' => p c && str_forallb p s' end.

(** [s.substr(n)] and [s.substr(0, n)] *)
Fixpoint str_drop (n : nat) (s : string) : string :=
  match n, s with S n', String _ s' => str_drop n' s' | _, _ => s end.
Fixpoint str_take (n : nat) (s : string) : string :=
  match n, s with S n', String c s' => String c (str_take n' s') | _, _ => EmptyString end.

(** [s.starts_with(prefix)]: the rest after the prefix *)
Fixpoint strip_prefix (prefix s : string) : option string :=
  match prefix, s with
  | EmptyString, _ => Some s
  | String c p', String d s' => if ascii_dec c d then strip_prefix p' s' else None
  | String _ _, EmptyString => None
  end.

Definition str_eqb (s t : string) : bool := bool_decide (s = t).
Definition str_leb (s t : string) : bool := bool_decide (String.le s t).
Definition str_ltb (s t : string) : bool := negb (str_leb t s).

(** ** Numbers in decimal *)

Definition digit_char (d : Z) : ascii := chr (48 + d).
Definition digit_value (c : ascii) : Z := code c - 48.

Fixpoint decimal_loop (fuel : nat) (n : Z) (acc : string) : string :=
  match fuel with
  | O => acc
  | S fuel' =>
      let acc' := String (digit_char (n mod 10)) acc in
      if n / 10 =? 0 then acc' else decimal_loop fuel' (n / 10) acc'
  end.

(** [std::to_string] of an unsigned, and of a signed integer *)
Definition to_string_u (n : Z) : string := decimal_loop (S (Z.to_nat (Z.log2 n))) n "".
Definition to_string_i (n : Z) : string :=
  if n <? 0 then String "-" (to_string_u (- n)) else to_string_u n.

Fixpoint digits_value (acc : Z) (s : string) : Z :=
  match s with
  | EmptyString => acc
  | String c s' => digits_value (acc * 10 + digit_value c) s'
  end.

(** [std::from_chars(first, last, value)]: the digits read as far as they go;
    [ec] is [invalid_argument] without a digit and [result_out_of_range] when
    the number does not fit, and then [value] keeps its old contents. *)
Inductive from_chars_result :=
| fc_ok (value : Z) (rest : string)
| fc_invalid
| fc_range (rest : string).

Definition from_chars_unsigned (hi : Z) (s : string) : from_chars_result :=
  let '(ds, rest) := span is_digit s in
  match ds with
  | EmptyString => fc_invalid
  | _ => let v := digits_value 0 ds in if v <=? hi then fc_ok v rest else fc_range rest
  end.

Definition from_chars_signed (lo hi : Z) (s : string) : from_chars_result :=
  let '(neg, s') := match s with
                    | String c t => if ascii_dec c "-" then (true, t) else (false, s)
                    | EmptyString => (false, s)
                    end in
  let '(ds, rest) := span is_digit s' in
  match ds with
  | EmptyString => fc_invalid
  | _ => let v := if neg then - digits_value 0 ds else digits_value 0 ds in
         if (lo <=? v) && (v <=? hi) then fc_ok v rest else fc_range rest
  end.

(** [ec == std::errc{} && ptr == last]: the whole text is the number. *)
Definition whole (r : from_chars_result) : option Z :=
  match r with fc_ok v EmptyString => Some v | _ => None end.

Definition parse_u64 (s : string) : option Z := whole (from_chars_unsigned u64_max s).
Definition parse_i64 (s : string) : option Z := whole (from_chars_signed i64_min i64_max s).

(** ** Lemmas *)

Lemma code_range c : 0 <= code c < 256.
Proof. unfold code. pose proof (N_ascii_bounded c). lia. Qed.
Lemma chr_code c : chr (code c) = c.
Proof. unfold chr, code. by rewrite N2Z.id, ascii_N_embedding. Qed.
Lemma code_chr z : 0 <= z < 256 -> code (chr z) = z.
Proof. intros. unfold chr, code. rewrite N_ascii_embedding; lia. Qed.
Lemma code_inj c d : code c = code d -> c = d.
Proof. intros E. by rewrite <- (chr_code c), E, chr_code. Qed.

Lemma str_app_assoc (a b c : string) : (a +:+ b) +:+ c = a +:+ (b +:+ c).
Proof. induction a as [|x a IH]; cbn; [done|by rewrite IH]. Qed.
Lemma str_app_nil_r (a : string) : a +:+ "" = a.
Proof. induction a as [|x a IH]; cbn; [done|by rewrite IH]. Qed.
Lemma length_str_app a b : String.length (a +:+ b) = (String.length a + String.length b)%nat.
Proof. induction a as [|x a IH]; cbn; [done|by rewrite IH]. Qed.
Lemma zstrlen_app a b : zstrlen (a +:+ b) = zstrlen a + zstrlen b.
Proof. unfold zstrlen. rewrite length_str_app. lia. Qed.
Lemma zstrlen_cons c s : zstrlen (String c s) = 1 + zstrlen s.
Proof. unfold zstrlen. cbn [String.length]. lia. Qed.
Lemma zstrlen_0 s : zstrlen s = 0 -> s = "".
Proof. destruct s; [done|]. rewrite zstrlen_cons. pose proof (zstrlen_nonneg s). lia. Qed.

Lemma length_str_map f s : String.length (str_map f s) = String.length s.
Proof. induction s as [|c s IH]; cbn; [done|by rewrite IH]. Qed.

Lemma span_app p s a b : span p s = (a, b) ->
  s = a +:+ b /\ str_forallb p a = true /\ match b with "" => True | String c _ => p c = false end.
Proof.
  revert a b. induction s as [|c s IH]; intros a b; cbn.
  - by intros [= <- <-].
  - destruct (p c) eqn:Ec.
    + destruct (span p s) as [a' b'] eqn:E. intros [= <- <-].
      destruct (IH _ _ eq_refl) as (-> & Ha & Hb). cbn. by rewrite Ec, Ha.
    + intros [= <- <-]. by split_and!.
Qed.

Lemma span_exact p a b : str_forallb p a = true ->
  match b with "" => True | String c _ => p c = false end -> span p (a +:+ b) = (a, b).
Proof.
  induction a as [|c a IH]; cbn; intros Ha Hb.
  - destruct b as [|c b]; cbn; [done|by rewrite Hb].
  - apply andb_prop in Ha as [-> Ha]. by rewrite IH.
Qed.

Lemma str_forallb_app p a b :
  str_forallb p (a +:+ b) = str_forallb p a && str_forallb p b.
Proof. induction a as [|c a IH]; cbn; [done|]. by rewrite IH, andb_assoc. Qed.

Lemma str_take_drop n s : str_take n s +:+ str_drop n s = s.
Proof. revert s. induction n as [|n IH]; intros [|c s]; cbn; try done. by rewrite IH. Qed.
Lemma str_take_app a b : str_take (String.length a) (a +:+ b) = a.
Proof. induction a as [|c a IH]; cbn; [done|by rewrite IH]. Qed.
Lemma str_drop_app a b : str_drop (String.length a) (a +:+ b) = b.
Proof. induction a as [|c a IH]; cbn; [done|by rewrite IH]. Qed.

Lemma strip_prefix_Some p s r : strip_prefix p s = Some r <-> s = p +:+ r.
Proof.
  revert s. induction p as [|c p IH]; intros s; cbn.
  - split; congruence.
  - destruct s as [|d s]; [done|]. destruct (ascii_dec c d) as [->|Hn].
    + rewrite IH. split; congruence.
    + split; [done|]. congruence.
Qed.

Lemma digit_char_digit d : 0 <= d < 10 ->
  is_digit (digit_char d) = true /\ digit_value (digit_char d) = d.
Proof.
  intros Hd. unfold is_digit, digit_value, digit_char. rewrite code_chr by lia.
  split; [|lia]. apply andb_true_intro. split; apply Z.leb_le; lia.
Qed.

Lemma digit_value_range c : is_digit c = true -> 0 <= digit_value c < 10.
Proof. unfold is_digit, digit_value. intros [?%Z.leb_le ?%Z.leb_le]%andb_prop. lia. Qed.

Lemma decimal_loop_spec fuel : forall n acc,
  0 <= n < 2 ^ Z.of_nat fuel -> (0 < fuel)%nat ->
  exists ds, decimal_loop fuel n acc = ds +:+ acc /\ str_forallb is_digit ds = true /\
    ds <> "" /\ forall k, digits_value k ds = k * 10 ^ zstrlen ds + n.
Proof.
  induction fuel as [|fuel IH]; intros n acc Hn Hf; [lia|]. cbn [decimal_loop].
  pose proof (Z.mod_pos_bound n 10 ltac:(lia)) as Hm.
  destruct (digit_char_digit (n mod 10) Hm) as [Hd Hv].
  pose proof (Z.div_mod n 10 ltac:(lia)) as Hdm.
  destruct (Z.eqb_spec (n / 10) 0) as [E|E].
  - exists (String (digit_char (n mod 10)) ""). split_and!; [done|cbn; by rewrite Hd|done|].
    intros k. cbn [digits_value]. rewrite Hv. change (zstrlen (String _ "")) with 1. lia.
  - assert (0 < n / 10) by (pose proof (Z.div_pos n 10); lia).
    destruct fuel as [|fuel]; [cbn in Hn; lia|].
    destruct (IH (n / 10) (String (digit_char (n mod 10)) acc)) as (ds & -> & Hds & Hne & Hval).
    { rewrite Nat2Z.inj_succ, Z.pow_succ_r in Hn by lia.
      split; [lia|]. apply Z.div_lt_upper_bound; lia. }
    { lia. }
    exists (ds +:+ String (digit_char (n mod 10)) ""). split_and!.
    + by rewrite str_app_assoc.
    + rewrite str_forallb_app, Hds. cbn. by rewrite Hd.
    + by destruct ds.
    + intros k. rewrite zstrlen_app. change (zstrlen (String _ "")) with 1.
      assert (Hda : forall a b k, digits_value k (a +:+ b) = digits_value (digits_value k a) b).
      { clear. induction a as [|c a IHa]; intros b k; cbn; [done|]. apply IHa. }
      rewrite Hda, Hval. cbn [digits_value]. rewrite Hv.
      rewrite Z.pow_add_r by (pose proof (zstrlen_nonneg ds); lia). lia.
Qed.

Lemma to_string_u_spec n : 0 <= n ->
  str_forallb is_digit (to_string_u n) = true /\ to_string_u n <> "" /\
  digits_value 0 (to_string_u n) = n.
Proof.
  intros Hn. unfold to_string_u.
  destruct (decimal_loop_spec (S (Z.to_nat (Z.log2 n))) n "") as (ds & -> & Hd & Hne & Hv).
  - rewrite Nat2Z.inj_succ, Z2Nat.id by apply Z.log2_nonneg.
    split; [done|]. destruct (Z.eq_dec n 0) as [->|]; [done|]. apply Z.log2_spec. lia.
  - lia.
  - rewrite str_app_nil_r. split_and!; [done|done|]. rewrite Hv. lia.
Qed.

(** [from_chars] reads back what [to_string] wrote. *)
Lemma from_chars_to_string_u hi n rest : 0 <= n <= hi ->
  match rest with "" => True | String c _ => is_digit c = false end ->
  from_chars_unsigned hi (to_string_u n +:+ rest) = fc_ok n rest.
Proof.
  intros Hn Hr. destruct (to_string_u_spec n) as (Hd & Hne & Hv); [lia|].
  unfold from_chars_unsigned. rewrite span_exact by done. rewrite Hv.
  destruct (to_string_u n); [done|]. destruct (Z.leb_spec n hi); [done|lia].
Qed.

Lemma parse_u64_to_string n : is_u64 n -> parse_u64 (to_string_u n) = Some n.
Proof.
  intros Hn. unfold parse_u64. rewrite <- (str_app_nil_r (to_string_u n)).
  by rewrite from_chars_to_string_u.
Qed.

Lemma digit_not_minus c : is_digit c = true -> c <> "-"%char.
Proof. intros H ->. vm_compute in H. done. Qed.

Lemma parse_i64_to_string n : i64_min <= n <= i64_max -> parse_i64 (to_string_i n) = Some n.
Proof.
  unfold i64_min, i64_max. intros Hn. unfold parse_i64, to_string_i, from_chars_signed.
  destruct (Z.ltb_spec n 0) as [Hneg|Hpos].
  - destruct (to_string_u_spec (- n)) as (Hd & Hne & Hv); [lia|].
    destruct (ascii_dec "-" "-"); [|done].
    rewrite <- (str_app_nil_r (to_string_u (- n))), span_exact, Hv by done.
    destruct (to_string_u (- n)); [done|].
    destruct (Z.leb_spec i64_min (- - n)), (Z.leb_spec (- - n) i64_max);
      unfold i64_min, i64_max in *; try lia. cbn. f_equal. lia.
  - destruct (to_string_u_spec n) as (Hd & Hne & Hv); [lia|].
    destruct (to_string_u n) as [|c s] eqn:E; [done|].
    assert (c <> "-"%char) as Hc.
    { cbn [str_forallb] in Hd. apply andb_prop in Hd as [Hd _]. by apply digit_not_minus. }
    destruct (ascii_dec c "-"); [done|].
    rewrite <- (str_app_nil_r (String c s)), span_exact, Hv by done.
    destruct (Z.leb_spec i64_min n), (Z.leb_spec n i64_max);
      unfold i64_min, i64_max in *; try lia. done.
Qed.

Lemma to_string_u_inj m n : 0 <= m -> 0 <= n -> to_string_u m = to_string_u n -> m = n.
Proof.
  intros Hm Hn E. destruct (to_string_u_spec m Hm) as (_ & _ & <-).
  destruct (to_string_u_spec n Hn) as (_ & _ & <-). by rewrite E.
Qed.

(** Two texts that start with numerals ended by the same separator agree on
    both parts: the length prefix of [atom]. *)
Lemma numeral_sep_inj m n c s t : 0 <= m -> 0 <= n -> is_digit c = false ->
  to_string_u m +:+ String c s = to_string_u n +:+ String c t -> m = n /\ s = t.
Proof.
  intros Hm Hn Hc E.
  assert (Hspan : forall k u, 0 <= k ->
    span is_digit (to_string_u k +:+ String c u) = (to_string_u k, String c u)).
  { intros k u Hk. destruct (to_string_u_spec k Hk) as (Hd & _ & _). by apply span_exact. }
  apply (f_equal (span is_digit)) in E. rewrite !Hspan in E by done.
  injection E as E1 E2. split; [by apply to_string_u_inj|done].
Qed.

Lemma str_app_inj_length a b c d : String.length a = String.length c ->
  a +:+ b = c +:+ d -> a = c /\ b = d.
Proof.
  revert c. induction a as [|x a IH]; intros [|y c]; cbn; try done.
  intros [= Hl] [= -> E]. by destruct (IH c Hl E) as [-> ->].
Qed.

(** If [a] followed by the character [c] is [b] followed by a non-empty text,
    that text ends in [c]. *)
Lemma str_app_snoc_suffix a b c s : a +:+ String c "" = b +:+ s -> s <> "" ->
  exists z, s = z +:+ String c "".
Proof.
  revert b. induction a as [|x a IH]; intros [|y b]; cbn; intros E Hs.
  - exists "". by rewrite <- E.
  - injection E as -> E. destruct b, s; done.
  - exists (String x a). by rewrite <- E.
  - injection E as -> E. by eapply IH.
Qed.

(** ** Comparison of strings is lexicographic on bytes *)

Lemma compare_code c d : Ascii.compare c d = (code c ?= code d).
Proof. unfold Ascii.compare, code. symmetry. apply N2Z.inj_compare. Qed.

Lemma str_compare_cons c s d t :
  String.compare (String c s) (String d t) =
  match code c ?= code d with Eq => String.compare s t | r => r end.
Proof. cbn [String.compare]. by rewrite compare_code. Qed.

Lemma str_compare_refl s : String.compare s s = Eq.
Proof. induction s as [|c s IH]; [done|]. by rewrite str_compare_cons, Z.compare_refl. Qed.

Lemma str_compare_app a b c d : String.length a = String.length c ->
  String.compare (a +:+ b) (c +:+ d) =
  match String.compare a c with Eq => String.compare b d | r => r end.
Proof.
  revert c. induction a as [|x a IH]; intros [|y c]; cbn [String.length]; try done.
  intros [= Hl]. cbn [String.append]. rewrite !str_compare_cons, IH by done.
  by destruct (code x ?= code y).
Qed.

Lemma str_leb_compare s t : str_leb s t = true <-> String.compare s t <> Gt.
Proof.
  unfold str_leb. rewrite bool_decide_eq_true. unfold String.le, String.leb.
  by destruct (String.compare s t).
Qed.

(** ** Fixed-width numerals *)

Fixpoint digits_fixed (width : nat) (n : Z) : string :=
  match width with
  | O => ""
  | S w => digits_fixed w (n / 10) +:+ String (digit_char (n mod 10)) ""
  end.

Lemma length_digits_fixed w n : String.length (digits_fixed w n) = w.
Proof.
  revert n. induction w as [|w IH]; intros n; cbn; [done|].
  rewrite length_str_app, IH. cbn. lia.
Qed.

Lemma digits_value_app a b k : digits_value k (a +:+ b) = digits_value (digits_value k a) b.
Proof. revert k. induction a as [|c a IH]; intros k; cbn; [done|]. apply IH. Qed.

Lemma digits_fixed_digits w n : str_forallb is_digit (digits_fixed w n) = true.
Proof.
  revert n. induction w as [|w IH]; intros n; cbn [digits_fixed]; [done|].
  rewrite str_forallb_app, IH. cbn.
  by destruct (digit_char_digit (n mod 10)) as [-> _]; [apply Z.mod_pos_bound|].
Qed.

Lemma digits_fixed_value w n : 0 <= n < 10 ^ Z.of_nat w -> digits_value 0 (digits_fixed w n) = n.
Proof.
  revert n. induction w as [|w IH]; intros n; cbn [digits_fixed]; [cbn; lia|].
  rewrite Nat2Z.inj_succ, Z.pow_succ_r by lia. intros Hn.
  rewrite digits_value_app, IH.
  - cbn [digits_value].
    destruct (digit_char_digit (n mod 10)) as [_ ->]; [by apply Z.mod_pos_bound|].
    pose proof (Z.div_mod n 10). lia.
  - split; [apply Z.div_pos; lia|apply Z.div_lt_upper_bound; lia].
Qed.

Lemma str_snoc s : s <> "" -> exists s' c, s = s' +:+ String c "".
Proof.
  induction s as [|c s IH]; [done|]. intros _. destruct s as [|d s].
  - by exists "", c.
  - destruct IH as (s' & e & ->); [done|]. by exists (String c s'), e.
Qed.

(** A text of [w] digits is the fixed-width numeral of its value. *)
Lemma digits_fixed_of_digits w : forall s, String.length s = w ->
  str_forallb is_digit s = true ->
  s = digits_fixed w (digits_value 0 s) /\ 0 <= digits_value 0 s < 10 ^ Z.of_nat w.
Proof.
  induction w as [|w IH]; intros s Hl Hd.
  - destruct s; [|done]. by cbn.
  - destruct (str_snoc s) as (s' & c & ->); [by destruct s|].
    rewrite length_str_app in Hl. cbn in Hl.
    rewrite str_forallb_app in Hd. apply andb_prop in Hd as [Hd Hc].
    cbn in Hc. rewrite andb_true_r in Hc. pose proof (digit_value_range c Hc) as Hcv.
    destruct (IH s') as [E Hv]; [lia|done|].
    rewrite digits_value_app. cbn [digits_value digits_fixed].
    set (v := digits_value 0 s') in *.
    replace ((v * 10 + digit_value c) / 10) with v
      by (rewrite Z.add_comm, Z.div_add, Z.div_small; lia).
    replace ((v * 10 + digit_value c) mod 10) with (digit_value c)
      by (rewrite Z.add_comm, Z.mod_add, Z.mod_small; lia).
    rewrite Nat2Z.inj_succ, Z.pow_succ_r by lia. split; [|lia].
    rewrite E at 1. unfold digit_char, digit_value.
    replace (48 + (code c - 48)) with (code c) by lia. by rewrite chr_code.
Qed.

(** The byte order of fixed-width numerals is the order of the numbers. *)
Lemma digits_fixed_compare w : forall m n,
  0 <= m < 10 ^ Z.of_nat w -> 0 <= n < 10 ^ Z.of_nat w ->
  String.compare (digits_fixed w m) (digits_fixed w n) = (m ?= n).
Proof.
  induction w as [|w IH]; intros m n Hm Hn.
  - cbn in *. assert (m = n) as -> by lia. by rewrite Z.compare_refl.
  - rewrite Nat2Z.inj_succ, Z.pow_succ_r in Hm, Hn by lia. cbn [digits_fixed].
    rewrite str_compare_app by by rewrite !length_digits_fixed.
    rewrite IH by (split; [apply Z.div_pos; lia|apply Z.div_lt_upper_bound; lia]).
    rewrite str_compare_cons.
    pose proof (Z.mod_pos_bound m 10 ltac:(lia)) as Hm'.
    pose proof (Z.mod_pos_bound n 10 ltac:(lia)) as Hn'.
    unfold digit_char. rewrite !code_chr by lia.
    pose proof (Z.div_mod m 10 ltac:(lia)) as Em. pose proof (Z.div_mod n 10 ltac:(lia)) as En.
    destruct (Z.compare_spec (m / 10) (n / 10)), (Z.compare_spec (48 + m mod 10) (48 + n mod 10)),
      (Z.compare_spec m n); try done; lia.
Qed.

Lemma str_ltb_irrefl s : str_ltb s s = false.
Proof.
  unfold str_ltb, str_leb. apply negb_false_iff, bool_decide_eq_true_2. by destruct (total String.le s s).
Qed.
