(* ===== verification/Doubles.v ===== *)
(** * Doubles: IEEE 754 binary64

    Boosts, scores and statistics are [double]s.  They are modelled with the
    executable binary64 arithmetic of the Standard Library's [SpecFloat]
    (round to nearest, ties to even), which is free of axioms.  It has a
    single NaN, so the payload of a NaN is not kept. *)

From S2P Require Import Prelude.
From Stdlib Require Import SpecFloat.

Notation double := spec_float.

Definition d_prec : Z := 53.
Definition d_emax : Z := 1024.

Definition d_add : double -> double -> double := SFadd d_prec d_emax.
Definition d_sub : double -> double -> double := SFsub d_prec d_emax.
Definition d_mul : double -> double -> double := SFmul d_prec d_emax.
Definition d_div : double -> double -> double := SFdiv d_prec d_emax.

(** [m * 2^e], rounded once; [static_cast<double>(n)] is [d_of_Z n]. *)
Definition d_make (m e : Z) : double := binary_normalize d_prec d_emax m e false.
Definition d_of_Z (n : Z) : double := d_make n 0.

Definition d_zero : double := S754_zero false.
Definition d_half : double := Eval vm_compute in d_make 1 (-1).
Definition d_one : double := Eval vm_compute in d_of_Z 1.

(** [std::isfinite] *)
Definition d_finite (x : double) : bool :=
  match x with S754_zero _ | S754_finite _ _ _ => true | _ => false end.

(** The comparison operators: all false on NaN, except [!=]. *)
Definition d_eqb : double -> double -> bool := SFeqb.
Definition d_ltb : double -> double -> bool := SFltb.
Definition d_leb : double -> double -> bool := SFleb.

(** [std::bit_cast<std::uint64_t>] and back *)
Definition d_bits (x : double) : Z :=
  match x with
  | S754_zero s => if s then 2 ^ 63 else 0
  | S754_infinity s => (if s then 2 ^ 63 else 0) + 2047 * 2 ^ 52
  | S754_nan => 2047 * 2 ^ 52 + 2 ^ 51
  | S754_finite s m e =>
      (if s then 2 ^ 63 else 0) +
      (if Z.pos m <? 2 ^ 52 then Z.pos m else (e + 1075) * 2 ^ 52 + (Z.pos m - 2 ^ 52))
  end.

Definition d_of_bits (z : Z) : double :=
  let s := 2 ^ 63 <=? z in
  let ef := (z / 2 ^ 52) mod 2048 in
  let mant := z mod 2 ^ 52 in
  if ef =? 2047 then (if mant =? 0 then S754_infinity s else S754_nan)
  else if ef =? 0 then
    match mant with Z.pos p => S754_finite s p (-1074) | _ => S754_zero s end
  else
    match mant + 2 ^ 52 with Z.pos p => S754_finite s p (ef - 1075) | _ => S754_zero s end.

(** The representable values: what every [double] variable holds. *)
Definition d_valid (x : double) : bool := valid_binary d_prec d_emax x.

#[export] Instance double_eq_dec : EqDecision double.
Proof. solve_decision. Defined.

(** ** Order

    On everything but NaN the comparison is the lexicographic order of
    (sign, exponent, mantissa), so it is a total preorder; only the two zeros
    are equal without being identical. *)

Definition d_key (x : double) : Z * Z * Z :=
  match x with
  | S754_zero _ | S754_nan => (0, 0, 0)
  | S754_infinity s => (if s then -2 else 2, 0, 0)
  | S754_finite s m e => if s then (-1, - e, - Z.pos m) else (1, e, Z.pos m)
  end.

Definition lex3 (a b : Z * Z * Z) : comparison :=
  let '(a1, a2, a3) := a in
  let '(b1, b2, b3) := b in
  match a1 ?= b1 with
  | Eq => match a2 ?= b2 with Eq => a3 ?= b3 | c => c end
  | c => c
  end.

Definition d_not_nan (x : double) : bool := match x with S754_nan => false | _ => true end.

Lemma d_finite_not_nan x : d_finite x = true -> d_not_nan x = true.
Proof. by destruct x. Qed.

Lemma compare_opp_opp a b : (- a ?= - b) = CompOpp (a ?= b).
Proof. rewrite Z.compare_opp. apply Z.compare_antisym. Qed.

Lemma d_compare_key x y : d_not_nan x = true -> d_not_nan y = true ->
  SFcompare x y = Some (lex3 (d_key x) (d_key y)).
Proof.
  destruct x as [s1|s1| |s1 m1 e1], y as [s2|s2| |s2 m2 e2]; cbn; try done;
    intros _ _; destruct s1; try destruct s2; cbn; try done.
  rewrite !compare_opp_opp. by destruct (e1 ?= e2).
Qed.

Lemma lex3_lt_trans a b c : lex3 a b = Lt -> lex3 b c = Lt -> lex3 a c = Lt.
Proof.
  destruct a as [[a1 a2] a3], b as [[b1 b2] b3], c as [[c1 c2] c3]. unfold lex3.
  destruct (Z.compare_spec a1 b1), (Z.compare_spec b1 c1), (Z.compare_spec a1 c1);
    try lia; try done;
    destruct (Z.compare_spec a2 b2), (Z.compare_spec b2 c2), (Z.compare_spec a2 c2);
    try lia; try done; rewrite !Z.compare_lt_iff; lia.
Qed.

Lemma lex3_eq a b : lex3 a b = Eq <-> a = b.
Proof.
  destruct a as [[a1 a2] a3], b as [[b1 b2] b3]. unfold lex3. split.
  - destruct (Z.compare_spec a1 b1), (Z.compare_spec a2 b2), (Z.compare_spec a3 b3);
      try done; congruence.
  - intros [= -> -> ->]. by rewrite !Z.compare_refl.
Qed.

Lemma lex3_antisym a b : lex3 b a = CompOpp (lex3 a b).
Proof.
  destruct a as [[a1 a2] a3], b as [[b1 b2] b3]. unfold lex3.
  rewrite (Z.compare_antisym a1), (Z.compare_antisym a2), (Z.compare_antisym a3).
  by destruct (a1 ?= b1), (a2 ?= b2).
Qed.

Lemma d_ltb_key x y : d_not_nan x = true -> d_not_nan y = true ->
  d_ltb x y = true <-> lex3 (d_key x) (d_key y) = Lt.
Proof.
  intros Hx Hy. unfold d_ltb, SFltb. rewrite d_compare_key by done.
  by destruct (lex3 _ _).
Qed.

Lemma d_eqb_key x y : d_not_nan x = true -> d_not_nan y = true ->
  d_eqb x y = true <-> d_key x = d_key y.
Proof.
  intros Hx Hy. unfold d_eqb, SFeqb. rewrite d_compare_key by done.
  rewrite <- lex3_eq. by destruct (lex3 _ _).
Qed.

(** ** Addition is commutative (though not associative). *)

Lemma d_add_comm x y : d_add x y = d_add y x.
Proof.
  destruct x as [s1|s1| |s1 m1 e1], y as [s2|s2| |s2 m2 e2]; cbn;
    try (by destruct s1, s2); try done.
  by rewrite Z.min_comm, Z.add_comm.
Qed.

(** ** Bit patterns *)

Lemma digits2_bounds p :
  2 ^ (Z.pos (digits2_pos p) - 1) <= Z.pos p < 2 ^ Z.pos (digits2_pos p).
Proof.
  induction p as [p IH|p IH|]; cbn [digits2_pos]; [..|done];
    rewrite Pos2Z.inj_succ; replace (Z.succ (Z.pos (digits2_pos p)) - 1)
      with (Z.succ (Z.pos (digits2_pos p) - 1)) by lia;
    rewrite !Z.pow_succ_r by lia; lia.
Qed.

Lemma d_valid_finite s m e : d_valid (S754_finite s m e) = true ->
  Z.pos m < 2 ^ 53 /\ -1074 <= e <= 971 /\ (Z.pos m < 2 ^ 52 -> e = -1074).
Proof.
  unfold d_valid, valid_binary, bounded, canonical_mantissa, fexp, emin, d_prec, d_emax.
  intros [H1 H2]%andb_prop. apply Z.eqb_eq in H1. apply Z.leb_le in H2.
  pose proof (digits2_bounds m) as [Hl Hu].
  set (d := Z.pos (digits2_pos m)) in *.
  assert (d <= 53) by lia.
  split_and!; [|lia|lia|].
  - eapply Z.lt_le_trans; [exact Hu|]. by apply Z.pow_le_mono_r.
  - intros Hs. destruct (Z.le_gt_cases d 52); [lia|].
    assert (2 ^ 52 <= 2 ^ (d - 1)) by (apply Z.pow_le_mono_r; lia). lia.
Qed.

Lemma d_bits_range x : d_valid x = true -> is_u64 (d_bits x).
Proof.
  unfold is_u64, u64_max. destruct x as [s|s| |s m e]; cbn [d_bits]; intros Hv.
  1-3: try destruct s; lia.
  apply d_valid_finite in Hv as (Hm & He & Hsub).
  destruct s, (Z.ltb_spec (Z.pos m) (2 ^ 52)); lia.
Qed.

Lemma d_of_bits_split (s : bool) ef mant : 0 <= ef < 2048 -> 0 <= mant < 2 ^ 52 ->
  d_of_bits ((if s then 2 ^ 63 else 0) + (ef * 2 ^ 52 + mant)) =
  if ef =? 2047 then (if mant =? 0 then S754_infinity s else S754_nan)
  else if ef =? 0 then
    match mant with Z.pos p => S754_finite s p (-1074) | _ => S754_zero s end
  else
    match mant + 2 ^ 52 with Z.pos p => S754_finite s p (ef - 1075) | _ => S754_zero s end.
Proof.
  intros He Hm. unfold d_of_bits.
  set (S := if s then 2 ^ 63 else 0).
  assert (HS : S = (if s then 2048 else 0) * 2 ^ 52) by (subst S; by destruct s).
  replace (2 ^ 63 <=? S + (ef * 2 ^ 52 + mant)) with s.
  2:{ subst S. destruct s; symmetry; [apply Z.leb_le|apply Z.leb_gt]; nia. }
  replace (S + (ef * 2 ^ 52 + mant)) with (mant + ((if s then 2048 else 0) + ef) * 2 ^ 52) by lia.
  rewrite Z.mod_add, Z.div_add, (Z.mod_small mant), (Z.div_small mant) by lia.
  replace ((0 + ((if s then 2048 else 0) + ef)) mod 2048) with ef; [done|].
  destruct s.
  - replace (0 + (2048 + ef)) with (ef + 1 * 2048) by lia.
    rewrite Z.mod_add, Z.mod_small; lia.
  - rewrite Z.mod_small; lia.
Qed.

Lemma d_of_bits_bits x : d_valid x = true -> d_of_bits (d_bits x) = x.
Proof.
  intros Hv. destruct x as [s|s| |s m e].
  - pose proof (d_of_bits_split s 0 0) as E. cbn [d_bits].
    replace (if s then 2 ^ 63 else 0) with ((if s then 2 ^ 63 else 0) + (0 * 2 ^ 52 + 0))
      by (destruct s; lia). by rewrite E.
  - pose proof (d_of_bits_split s 2047 0) as E. cbn [d_bits].
    replace (2047 * 2 ^ 52) with (2047 * 2 ^ 52 + 0) by lia. by rewrite E.
  - done.
  - apply d_valid_finite in Hv as (Hm & He & Hsub). cbn [d_bits].
    destruct (Z.ltb_spec (Z.pos m) (2 ^ 52)) as [Hlt|Hge].
    + rewrite (Hsub Hlt).
      replace (Z.pos m) with (0 * 2 ^ 52 + Z.pos m) at 1 by lia.
      by rewrite d_of_bits_split by lia.
    + rewrite d_of_bits_split by lia.
      destruct (Z.eqb_spec (e + 1075) 2047); [lia|].
      destruct (Z.eqb_spec (e + 1075) 0); [lia|].
      replace (Z.pos m - 2 ^ 52 + 2 ^ 52) with (Z.pos m) by lia.
      f_equal. lia.
Qed.

(** Every bit pattern that is not a NaN survives a reading and a writing. *)
Lemma d_valid_of_bits z : d_valid (d_of_bits z) = true.
Proof.
  unfold d_of_bits.
  pose proof (Z.mod_pos_bound z (2 ^ 52) ltac:(lia)) as Hm.
  pose proof (Z.mod_pos_bound (z / 2 ^ 52) 2048 ltac:(lia)) as He.
  set (mant := z mod 2 ^ 52) in *. set (ef := (z / 2 ^ 52) mod 2048) in *.
  set (s := 2 ^ 63 <=? z). clearbody mant ef s.
  destruct (Z.eqb_spec ef 2047); [by destruct (mant =? 0)|].
  assert (Hpos : forall p e, (0 < Z.pos p < 2 ^ 52 /\ e = -1074) \/
      (2 ^ 52 <= Z.pos p < 2 ^ 53 /\ -1074 <= e <= 971) ->
      d_valid (S754_finite s p e) = true).
  { intros p e Hp. unfold d_valid, valid_binary, bounded, canonical_mantissa, fexp, emin,
      d_prec, d_emax.
    pose proof (digits2_bounds p) as [Hl Hu]. set (d := Z.pos (digits2_pos p)) in *.
    assert (Hd : 0 < d) by (subst d; lia). clearbody d.
    apply andb_true_intro. split; [apply Z.eqb_eq|apply Z.leb_le; lia].
    destruct Hp as [[Hp ->]|[Hp He']].
    - assert (d <= 52); [|lia]. destruct (Z.le_gt_cases d 52); [done|].
      assert (2 ^ 52 <= 2 ^ (d - 1)) by (apply Z.pow_le_mono_r; lia). lia.
    - assert (d = 53); [|lia].
      assert (d <= 53) by (destruct (Z.le_gt_cases d 53); [done|];
        assert (2 ^ 53 <= 2 ^ (d - 1)) by (apply Z.pow_le_mono_r; lia); lia).
      assert (53 <= d); [|lia]. destruct (Z.le_gt_cases 53 d); [done|].
      assert (2 ^ d <= 2 ^ 52) by (apply Z.pow_le_mono_r; lia). lia. }
  destruct (Z.eqb_spec ef 0).
  - destruct mant as [|p|p]; try done. apply Hpos. left. lia.
  - destruct (mant + 2 ^ 52) as [|p|p] eqn:E; try done. apply Hpos. right. lia.
Qed.

(** ** Quotients of positive integers

    The quotient of two positive 64-bit counts is a positive finite double. *)

Lemma shr_1_m r : 0 <= shr_m r -> shr_m (shr_1 r) = shr_m r / 2.
Proof.
  destruct r as [m r s]. cbn. intros Hm. destruct m as [|p|p]; [done| |lia].
  destruct p; cbn [shr_m].
  - apply (Z.div_unique _ _ _ 1); lia.
  - apply (Z.div_unique _ _ _ 0); lia.
  - done.
Qed.

Lemma iter_shr_m p : forall r, 0 <= shr_m r ->
  shr_m (iter_pos shr_1 p r) = shr_m r / 2 ^ Z.pos p.
Proof.
  assert (Hpos : forall a k, 0 <= a -> 0 <= a / 2 ^ Z.pos k)
    by (intros; apply Z.div_pos; lia).
  induction p as [p IH|p IH|]; intros r Hr; cbn [iter_pos].
  - assert (0 <= shr_m (shr_1 r)) by (rewrite shr_1_m by done; apply Z.div_pos; lia).
    rewrite IH by (rewrite IH by done; auto). rewrite IH, shr_1_m by done.
    rewrite !Z.div_div by lia. replace (Z.pos p~1) with (1 + Z.pos p + Z.pos p) by lia.
    rewrite !Z.pow_add_r by lia. f_equal. ring.
  - rewrite IH by (rewrite IH by done; auto). rewrite IH by done.
    rewrite !Z.div_div by lia. replace (Z.pos p~0) with (Z.pos p + Z.pos p) by lia.
    by rewrite !Z.pow_add_r by lia.
  - apply shr_1_m, Hr.
Qed.

Lemma Zdigits2_bounds m : 0 < m -> 2 ^ (Zdigits2 m - 1) <= m < 2 ^ Zdigits2 m /\ 0 < Zdigits2 m.
Proof. destruct m as [|p|p]; try lia. intros _. split; [apply digits2_bounds|cbn; lia]. Qed.

Lemma Zdigits2_le m k : 0 < m -> 0 <= k -> m < 2 ^ k -> Zdigits2 m <= k.
Proof.
  intros Hm Hk Hlt. destruct (Zdigits2_bounds m Hm) as [[H1 _] Hd].
  destruct (Z.le_gt_cases (Zdigits2 m) k); [done|].
  assert (2 ^ k <= 2 ^ (Zdigits2 m - 1)) by (apply Z.pow_le_mono_r; lia). lia.
Qed.

Lemma Zdigits2_ge m k : 0 < m -> 0 <= k -> 2 ^ k <= m -> k < Zdigits2 m.
Proof.
  intros Hm Hk Hle. destruct (Zdigits2_bounds m Hm) as [[_ H2] Hd].
  destruct (Z.lt_ge_cases k (Zdigits2 m)); [done|].
  assert (2 ^ Zdigits2 m <= 2 ^ k) by (apply Z.pow_le_mono_r; lia). lia.
Qed.

(** One rounding shift of a value that is not subnormal. *)
Lemma shr_fexp_normal m e l r e' : 0 < m -> -1021 <= Zdigits2 m + e ->
  shr_fexp d_prec d_emax m e l = (r, e') ->
  shr_m r = m / 2 ^ Z.max 0 (Zdigits2 m - 53) /\ e' = e + Z.max 0 (Zdigits2 m - 53).
Proof.
  intros Hm He. unfold shr_fexp, fexp, emin, d_prec, d_emax.
  replace (Z.max (Zdigits2 m + e - 53) (3 - 1024 - 53) - e) with (Zdigits2 m - 53) by lia.
  assert (Hrec : shr_m (shr_record_of_loc m l) = m) by by destruct l as [|[]].
  unfold shr. destruct (Zdigits2 m - 53) as [|p|p]; intros [= <- <-].
  - rewrite Hrec, Z.div_1_r. split; lia.
  - rewrite iter_shr_m, Hrec by lia. split; [done|lia].
  - rewrite Hrec. change (Z.max 0 (Z.neg p)) with 0. rewrite Z.div_1_r. split; lia.
Qed.

Lemma binary_round_aux_pos m e l : 0 < m -> -1021 <= Zdigits2 m + e ->
  e + Z.max 0 (Zdigits2 m - 53) + 1 <= 971 ->
  exists p e', binary_round_aux d_prec d_emax false m e l = S754_finite false p e' /\
    e <= e' <= e + Z.max 0 (Zdigits2 m - 53) + 1 /\ Z.pos p <= 2 ^ 53.
Proof.
  intros Hm Hlo Hhi. unfold binary_round_aux.
  destruct (shr_fexp d_prec d_emax m e l) as [r1 e1] eqn:E1.
  apply shr_fexp_normal in E1 as [Er1 ->]; [|done..].
  destruct (Zdigits2_bounds m Hm) as [[Hb1 Hb2] Hd]. set (d := Zdigits2 m) in *.
  set (n := Z.max 0 (d - 53)) in *. set (k := d - n).
  assert (Hk : 0 < k <= 53) by lia.
  assert (Hm1 : 2 ^ (k - 1) <= shr_m r1 < 2 ^ k).
  { rewrite Er1. split.
    - apply Z.div_le_lower_bound; [lia|]. rewrite <- Z.pow_add_r by lia.
      replace (n + (k - 1)) with (d - 1) by lia. done.
    - apply Z.div_lt_upper_bound; [lia|]. rewrite <- Z.pow_add_r by lia.
      replace (n + k) with d by lia. done. }
  set (m2 := round_nearest_even (shr_m r1) (loc_of_shr_record r1)).
  assert (Hm2 : 2 ^ (k - 1) <= m2 <= 2 ^ k).
  { subst m2. unfold round_nearest_even. destruct (loc_of_shr_record r1) as [|[]]; try lia.
    destruct (Z.even _); lia. }
  assert (0 < 2 ^ (k - 1)) by (apply Z.pow_pos_nonneg; lia).
  assert (Hd2 : k <= Zdigits2 m2 <= k + 1).
  { split; [pose proof (Zdigits2_ge m2 (k - 1) ltac:(lia) ltac:(lia) ltac:(lia)); lia|].
    apply Zdigits2_le; [lia..|]. rewrite Z.pow_add_r by lia. lia. }
  destruct (shr_fexp d_prec d_emax m2 (e + n) loc_Exact) as [r2 e2] eqn:E2.
  apply shr_fexp_normal in E2 as [Er2 ->]; [|lia|lia].
  assert (Hm3 : 1 <= shr_m r2 <= 2 ^ 53).
  { rewrite Er2. assert (Hle : 2 ^ k <= 2 ^ 53) by (apply Z.pow_le_mono_r; lia).
    destruct (Z.le_gt_cases (Zdigits2 m2) 53).
    - rewrite Z.max_l by lia. rewrite Z.div_1_r. lia.
    - rewrite Z.max_r by lia. assert (k = 53) by lia. replace (Zdigits2 m2 - 53) with 1 by lia.
      subst k. replace (d - n) with 53 in * by lia. change (2 ^ 1) with 2.
      change (2 ^ (53 - 1)) with (2 ^ 52) in *. split.
      + apply Z.div_le_lower_bound; [lia|]. change (2 ^ 52) with 4503599627370496 in *. lia.
      + apply Z.div_le_upper_bound; [lia|]. change (2 ^ 53) with 9007199254740992 in *. lia. }
  destruct (shr_m r2) as [|p|p]; [lia| |lia].
  unfold d_emax, d_prec. destruct (Z.leb_spec (e + n + Z.max 0 (Zdigits2 m2 - 53)) (1024 - 53)); [|lia].
  exists p, (e + n + Z.max 0 (Zdigits2 m2 - 53)). split_and!; [done|lia|lia|lia].
Qed.

Lemma iter_xO p d : Z.pos (Pos.iter xO p d) = Z.pos p * 2 ^ Z.pos d.
Proof.
  induction d as [|d IH] using Pos.peano_ind; [cbn; lia|].
  rewrite Pos.iter_succ, Pos2Z.inj_succ, Z.pow_succ_r by lia. lia.
Qed.

Lemma Zdigits2_unique m k : 2 ^ (k - 1) <= m < 2 ^ k -> 0 < k -> Zdigits2 m = k.
Proof.
  intros [H1 H2] Hk. assert (0 < 2 ^ (k - 1)) by (apply Z.pow_pos_nonneg; lia).
  pose proof (Zdigits2_le m k ltac:(lia) ltac:(lia) H2).
  pose proof (Zdigits2_ge m (k - 1) ltac:(lia) ltac:(lia) H1). lia.
Qed.

Lemma d_of_Z_pos n : 0 < n <= u64_max ->
  exists p e, d_of_Z n = S754_finite false p e /\ -52 <= e <= 12 /\ Z.pos p <= 2 ^ 53.
Proof.
  unfold u64_max. intros [Hn Hmax]. unfold d_of_Z, d_make, binary_normalize.
  destruct n as [|q|q]; try lia. unfold binary_round.
  destruct (Zdigits2_bounds (Z.pos q) Hn) as [[Hb1 Hb2] Hd].
  assert (Zdigits2 (Z.pos q) <= 64) by (apply Zdigits2_le; lia).
  change (Z.pos (digits2_pos q)) with (Zdigits2 (Z.pos q)). set (d := Zdigits2 (Z.pos q)) in *.
  unfold shl_align, fexp, emin, d_prec, d_emax.
  replace (Z.max (d + 0 - 53) (3 - 1024 - 53) - 0) with (d - 53) by lia.
  replace (Z.max (d + 0 - 53) (3 - 1024 - 53)) with (d - 53) by lia.
  destruct (d - 53) as [|k|k] eqn:E.
  1, 2: destruct (binary_round_aux_pos (Z.pos q) 0 loc_Exact) as (p & e & Hr & He & Hp);
    fold d; [lia..|]; change d_prec with 53 in Hr; change d_emax with 1024 in Hr;
    exists p, e; split_and!; [done|lia|lia|lia].
  assert (Hdig : Zdigits2 (Z.pos (Pos.iter xO q k)) = 53).
  { apply Zdigits2_unique; [|lia]. rewrite iter_xO.
    replace (53 - 1) with ((d - 1) + Z.pos k) by lia.
    replace 53 with (d + Z.pos k) by lia. rewrite !Z.pow_add_r by lia.
    assert (0 < 2 ^ Z.pos k) by (apply Z.pow_pos_nonneg; lia). nia. }
  destruct (binary_round_aux_pos (Z.pos (Pos.iter xO q k)) (Z.neg k) loc_Exact)
    as (p & e & Hr & He & Hp); rewrite ?Hdig in *; [lia..|].
  change d_prec with 53 in Hr; change d_emax with 1024 in Hr.
  exists p, e. split_and!; [done|lia|lia|lia].
Qed.

Lemma d_div_pos p1 e1 p2 e2 :
  -52 <= e1 <= 12 -> Z.pos p1 <= 2 ^ 53 -> -52 <= e2 <= 12 -> Z.pos p2 <= 2 ^ 53 ->
  exists p e, d_div (S754_finite false p1 e1) (S754_finite false p2 e2) = S754_finite false p e.
Proof.
  intros He1 Hp1 He2 Hp2. unfold d_div, SFdiv, SFdiv_core_binary. cbn [xorb].
  destruct (Zdigits2_bounds (Z.pos p1) ltac:(lia)) as [[Ha1 Ha2] Hd1].
  destruct (Zdigits2_bounds (Z.pos p2) ltac:(lia)) as [[Hb1 Hb2] Hd2].
  assert (Zdigits2 (Z.pos p1) <= 54) by (apply Zdigits2_le; lia).
  assert (Zdigits2 (Z.pos p2) <= 54) by (apply Zdigits2_le; lia).
  set (d1 := Zdigits2 (Z.pos p1)) in *. set (d2 := Zdigits2 (Z.pos p2)) in *.
  unfold fexp, emin. change d_prec with 53. change d_emax with 1024.
  replace (Z.max (d1 + e1 - (d2 + e2) - 53) (3 - 1024 - 53)) with (d1 + e1 - (d2 + e2) - 53) by lia.
  set (e' := Z.min (d1 + e1 - (d2 + e2) - 53) (e1 - e2)).
  set (s := e1 - e2 - e'). assert (Hs : 0 <= s) by lia.
  assert (Hm' : match s with 0 => Z.pos p1 | Z.pos _ => Z.shiftl (Z.pos p1) s | Z.neg _ => 0 end =
                Z.pos p1 * 2 ^ s).
  { destruct s as [|k|k] eqn:Es; [lia| |lia]. apply Z.shiftl_mul_pow2. lia. }
  rewrite Hm'. pose proof (Z.div_eucl_eq (Z.pos p1 * 2 ^ s) (Z.pos p2) ltac:(lia)) as Heq.
  pose proof (Z.mod_pos_bound (Z.pos p1 * 2 ^ s) (Z.pos p2) ltac:(lia)) as Hr.
  unfold Z.modulo in Hr. destruct (Z.div_eucl (Z.pos p1 * 2 ^ s) (Z.pos p2)) as [q r].
  assert (Hlow : 2 ^ (d2 + 52) <= Z.pos p1 * 2 ^ s).
  { replace (d2 + 52) with ((d1 - 1) + (d2 - d1 + 53)) by lia.
    destruct (Z.le_gt_cases 0 (d2 - d1 + 53)) as [Hge|Hlt].
    - rewrite Z.pow_add_r by lia.
      assert (2 ^ (d2 - d1 + 53) <= 2 ^ s) by (apply Z.pow_le_mono_r; lia).
      assert (0 < 2 ^ (d1 - 1)) by (apply Z.pow_pos_nonneg; lia).
      assert (0 < 2 ^ (d2 - d1 + 53)) by (apply Z.pow_pos_nonneg; lia). nia.
    - lia. }
  assert (Hq : 0 < q).
  { assert (2 ^ d2 < 2 ^ (d2 + 52)) by (apply Z.pow_lt_mono_r; lia). nia. }
  assert (Hqd : Zdigits2 q <= d1 + s).
  { apply Zdigits2_le; [lia..|]. rewrite Z.pow_add_r by lia.
    assert (0 < 2 ^ s) by (apply Z.pow_pos_nonneg; lia).
    assert (Z.pos p1 * 2 ^ s < 2 ^ d1 * 2 ^ s) by nia. nia. }
  assert (1 <= Zdigits2 q) by (destruct (Zdigits2_bounds q Hq); lia).
  destruct (binary_round_aux_pos q e' (new_location (Z.pos p2) r)) as (p & e & Hres & _); [lia..|].
  exists p, e. exact Hres.
Qed.

(** An average of counts is positive and finite. *)
Lemma d_ratio_pos a c : 0 < a <= u64_max -> 0 < c <= u64_max ->
  exists p e, d_div (d_of_Z a) (d_of_Z c) = S754_finite false p e.
Proof.
  intros (p1 & e1 & -> & ? & ?)%d_of_Z_pos (p2 & e2 & -> & ? & ?)%d_of_Z_pos.
  by apply d_div_pos.
Qed.
