(* ===== verification/Rounding.v ===== *)
(** * Arithmetic stays within the representable doubles

    Every operation of Doubles.v rounds to a representable value.  Quotients
    do so for any operands, and so does a product by one; sums and other
    products do for representable operands. *)

From S2P Require Import Prelude Doubles.
From Stdlib Require Import SpecFloat.

Lemma fexp_double x : fexp d_prec d_emax x = Z.max (x - 53) (-1074).
Proof. done. Qed.

Lemma Zdigits2_shift m n : 0 < m -> 0 <= n -> Zdigits2 (m * 2 ^ n) = Zdigits2 m + n.
Proof.
  intros Hm Hn. destruct (Zdigits2_bounds m Hm) as [[H1 H2] Hd].
  assert (0 < 2 ^ n) by (apply Z.pow_pos_nonneg; lia).
  apply Zdigits2_unique; [|lia]. replace (Zdigits2 m + n - 1) with (Zdigits2 m - 1 + n) by lia.
  rewrite !Z.pow_add_r by lia. nia.
Qed.

(** The shift that makes room for the rounding. *)
Lemma shr_fexp_spec m e l r e' : 0 <= m -> shr_fexp d_prec d_emax m e l = (r, e') ->
  let n := Z.max 0 (fexp d_prec d_emax (Zdigits2 m + e) - e) in shr_m r = m / 2 ^ n /\ e' = e + n.
Proof.
  intros Hm. unfold shr_fexp. set (k := fexp d_prec d_emax (Zdigits2 m + e) - e).
  assert (Hrec : shr_m (shr_record_of_loc m l) = m) by by destruct l as [|[]].
  unfold shr. destruct k as [|p|p]; intros [= <- <-].
  - rewrite Hrec, Z.div_1_r. split; lia.
  - rewrite iter_shr_m, Hrec by lia. split; [done|lia].
  - rewrite Hrec. change (Z.max 0 (Z.neg p)) with 0. rewrite Z.div_1_r. split; lia.
Qed.

(** Mantissas and exponents of doubles: normal, or with the least exponent. *)
Definition in_range (m e : Z) : Prop := -1074 <= e /\ (2 ^ 52 <= m \/ e = -1074).

Lemma canonical_valid s p e : Z.pos p < 2 ^ 53 -> in_range (Z.pos p) e -> e <= 971 ->
  d_valid (S754_finite s p e) = true.
Proof.
  intros Hp [Hlo Hr] Hhi. unfold d_valid, valid_binary, bounded, canonical_mantissa. rewrite fexp_double.
  pose proof (digits2_bounds p) as [Hl Hu]. set (d := Z.pos (digits2_pos p)) in *.
  assert (Hd : 0 < d) by (subst d; lia). clearbody d.
  assert (d <= 53) by (destruct (Z.le_gt_cases d 53); [done|];
    assert (2 ^ 53 <= 2 ^ (d - 1)) by (apply Z.pow_le_mono_r; lia); lia).
  apply andb_true_intro. split; [apply Z.eqb_eq|apply Z.leb_le; unfold d_emax, d_prec; lia].
  destruct Hr as [Hr| ->]; [|lia]. assert (53 <= d); [|lia]. destruct (Z.le_gt_cases 53 d); [done|].
  assert (2 ^ d <= 2 ^ 52) by (apply Z.pow_le_mono_r; lia). lia.
Qed.

(** The first shift leaves at most 53 bits, and 53 above the least exponent. *)
Lemma first_shift m e l r e' : 0 <= m -> e <= fexp d_prec d_emax (Zdigits2 m + e) ->
  shr_fexp d_prec d_emax m e l = (r, e') -> 0 <= shr_m r < 2 ^ 53 /\ in_range (shr_m r) e'.
Proof.
  intros Hm He [Er ->]%shr_fexp_spec; [|done]. rewrite Er. rewrite fexp_double in *.
  set (n := Z.max 0 (Z.max (Zdigits2 m + e - 53) (-1074) - e)).
  assert (Hn : 0 < 2 ^ n) by (apply Z.pow_pos_nonneg; lia).
  assert (H0 : 0 <= m / 2 ^ n) by (apply Z.div_pos; lia).
  destruct (Z.eq_dec m 0) as [->|Hne].
  { cbn [Zdigits2] in *. rewrite Z.div_0_l by lia. split; [lia|]. split; [lia|right; lia]. }
  destruct (Zdigits2_bounds m ltac:(lia)) as [[H1 H2] Hd]. set (d := Zdigits2 m) in *.
  split; [split; [done|]|].
  - apply Z.div_lt_upper_bound; [lia|]. rewrite <- Z.pow_add_r by lia. eapply Z.lt_le_trans; [exact H2|].
    apply Z.pow_le_mono_r; lia.
  - split; [lia|]. destruct (Z.le_gt_cases (d + e - 53) (-1074)); [right; lia|left].
    apply Z.div_le_lower_bound; [lia|]. rewrite <- Z.pow_add_r by lia.
    replace (n + 52) with (d - 1) by lia. done.
Qed.

Lemma round_nearest_bounds m l : m <= round_nearest_even m l <= m + 1.
Proof. unfold round_nearest_even. destruct l as [|[]]; try lia. destruct (Z.even m); lia. Qed.

Lemma round_valid s m e l : 0 <= m -> e <= fexp d_prec d_emax (Zdigits2 m + e) ->
  d_valid (binary_round_aux d_prec d_emax s m e l) = true.
Proof.
  intros Hm He. unfold binary_round_aux. destruct (shr_fexp d_prec d_emax m e l) as [r1 e1] eqn:E1.
  apply first_shift in E1 as [[Hm1 Hm1'] [Hlo Hr]]; [|done..].
  pose proof (round_nearest_bounds (shr_m r1) (loc_of_shr_record r1)) as Hm2.
  set (m2 := round_nearest_even _ _) in *.
  destruct (shr_fexp d_prec d_emax m2 e1 loc_Exact) as [r2 e2] eqn:E2.
  apply shr_fexp_spec in E2 as [Er2 ->]; [|lia]. rewrite fexp_double in *.
  destruct (Z.eq_dec m2 0) as [E0|Hne].
  { rewrite E0, Z.div_0_l in Er2 by (apply Z.pow_nonzero; lia). by rewrite Er2. }
  destruct (Z.eq_dec m2 (2 ^ 53)) as [E53|Hlt].
  - rewrite E53 in *. change (Zdigits2 (2 ^ 53)) with 54 in *.
    assert (En : Z.max 0 (Z.max (54 + e1 - 53) (-1074) - e1) = 1) by lia. rewrite En in *.
    change (2 ^ 53 / 2 ^ 1) with 4503599627370496 in Er2. rewrite Er2.
    destruct (Z.leb_spec (e1 + 1) (d_emax - d_prec)) as [Hmax|]; [|done].
    apply canonical_valid; [lia|split; [lia|left; lia]|done].
  - destruct (Zdigits2_bounds m2 ltac:(lia)) as [[H1 H2] Hd]. 
    assert (Hd53 : Zdigits2 m2 <= 53) by (apply Zdigits2_le; lia).
    assert (En : Z.max 0 (Z.max (Zdigits2 m2 + e1 - 53) (-1074) - e1) = 0) by lia.
    rewrite En, Z.div_1_r, Z.add_0_r in *. rewrite Er2. destruct m2 as [|p|p]; [done| |lia].
    destruct (Z.leb_spec e1 (d_emax - d_prec)) as [Hmax|]; [|done].
    apply canonical_valid; [lia| |done]. split; [lia|]. destruct Hr; [left|right]; lia.
Qed.

Lemma normalize_valid m e szero : d_valid (binary_normalize d_prec d_emax m e szero) = true.
Proof.
  assert (Hround : forall s p, d_valid (binary_round d_prec d_emax s p e) = true).
  { intros s p. unfold binary_round, shl_align. set (f := fexp d_prec d_emax (Z.pos (digits2_pos p) + e)).
    change (Z.pos (digits2_pos p)) with (Zdigits2 (Z.pos p)) in f.
    destruct (f - e) as [|k|k] eqn:Ek; try (apply round_valid; lia).
    apply round_valid; [lia|]. rewrite iter_xO, Zdigits2_shift by lia.
    replace (Zdigits2 (Z.pos p) + Z.pos k + f) with (Zdigits2 (Z.pos p) + e) by lia. done. }
  destruct m; [done|apply Hround..].
Qed.

Lemma d_of_Z_valid n : d_valid (d_of_Z n) = true.
Proof. apply normalize_valid. Qed.

Lemma d_add_valid x y : d_valid x = true -> d_valid y = true -> d_valid (d_add x y) = true.
Proof.
  destruct x as [[]|[]| |sx mx ex], y as [[]|[]| |sy my ey]; intros Hx Hy; try done. apply normalize_valid.
Qed.

Lemma d_sub_valid x y : d_valid x = true -> d_valid y = true -> d_valid (d_sub x y) = true.
Proof.
  destruct x as [[]|[]| |sx mx ex], y as [[]|[]| |sy my ey]; intros Hx Hy; try done. apply normalize_valid.
Qed.

(** The digits of a product are those of the factors, or one less. *)
Lemma Zdigits2_mul a b : 0 < a -> 0 < b -> Zdigits2 a + Zdigits2 b - 1 <= Zdigits2 (a * b).
Proof.
  intros Ha Hb. destruct (Zdigits2_bounds a Ha) as [[H1 _] Hda], (Zdigits2_bounds b Hb) as [[H2 _] Hdb].
  pose proof (Zdigits2_ge (a * b) (Zdigits2 a - 1 + (Zdigits2 b - 1)) ltac:(nia) ltac:(lia)) as H.
  rewrite Z.pow_add_r in H by lia. assert (0 < 2 ^ (Zdigits2 a - 1)) by (apply Z.pow_pos_nonneg; lia).
  assert (0 < 2 ^ (Zdigits2 b - 1)) by (apply Z.pow_pos_nonneg; lia). specialize (H ltac:(nia)). lia.
Qed.

(** A representable mantissa has 53 digits or the least exponent. *)
Lemma valid_digits s m e : d_valid (S754_finite s m e) = true ->
  -1074 <= e /\ (Zdigits2 (Z.pos m) = 53 \/ e = -1074).
Proof.
  intros (Hm & He & Hsub)%d_valid_finite. split; [lia|].
  destruct (Z.lt_ge_cases (Z.pos m) (2 ^ 52)) as [H|H]; [right; auto|left]. apply Zdigits2_unique; lia.
Qed.

Lemma d_mul_valid x y : d_valid x = true -> d_valid y = true -> d_valid (d_mul x y) = true.
Proof.
  destruct x as [[]|[]| |sx mx ex], y as [[]|[]| |sy my ey]; intros Hx Hy; try done.
  unfold d_mul, SFmul. apply round_valid; [lia|]. rewrite fexp_double, Pos2Z.inj_mul.
  apply valid_digits in Hx as [Hex Hx], Hy as [Hey Hy].
  pose proof (Zdigits2_mul (Z.pos mx) (Z.pos my) ltac:(lia) ltac:(lia)) as Hd.
  destruct (Zdigits2_bounds (Z.pos mx) ltac:(lia)) as [_ Hdx], (Zdigits2_bounds (Z.pos my) ltac:(lia)) as [_ Hdy]. lia.
Qed.

(** Multiplying by one rounds whatever is multiplied. *)
Lemma d_mul_one_valid x : d_valid (d_mul x d_one) = true.
Proof.
  destruct x as [[]|[]| |s m e]; try done. unfold d_mul, SFmul, d_one. apply round_valid; [lia|].
  rewrite fexp_double, Pos2Z.inj_mul.
  pose proof (Zdigits2_mul (Z.pos m) 4503599627370496 ltac:(lia) ltac:(lia)) as Hd.
  change (Zdigits2 4503599627370496) with 53 in Hd.
  destruct (Zdigits2_bounds (Z.pos m) ltac:(lia)) as [_ Hdm]. lia.
Qed.

Lemma d_div_valid x y : d_valid (d_div x y) = true.
Proof.
  destruct x as [[]|[]| |sx mx ex], y as [[]|[]| |sy my ey]; try done.
  unfold d_div, SFdiv, SFdiv_core_binary. rewrite fexp_double.
  destruct (Zdigits2_bounds (Z.pos mx) ltac:(lia)) as [[Ha1 Ha2] Hdx].
  destruct (Zdigits2_bounds (Z.pos my) ltac:(lia)) as [[Hb1 Hb2] Hdy].
  set (d1 := Zdigits2 (Z.pos mx)) in *. set (d2 := Zdigits2 (Z.pos my)) in *.
  set (e' := Z.min (Z.max (d1 + ex - (d2 + ey) - 53) (-1074)) (ex - ey)).
  set (s := ex - ey - e'). assert (Hs : 0 <= s) by lia.
  assert (Hm' : match s with 0 => Z.pos mx | Z.pos _ => Z.shiftl (Z.pos mx) s | Z.neg _ => 0 end = Z.pos mx * 2 ^ s).
  { destruct s as [|k|k] eqn:Es; [lia| |lia]. apply Z.shiftl_mul_pow2. lia. }
  rewrite Hm'. pose proof (Z.div_eucl_eq (Z.pos mx * 2 ^ s) (Z.pos my) ltac:(lia)) as Heq.
  pose proof (Z.mod_pos_bound (Z.pos mx * 2 ^ s) (Z.pos my) ltac:(lia)) as Hr. unfold Z.modulo in Hr.
  destruct (Z.div_eucl (Z.pos mx * 2 ^ s) (Z.pos my)) as [q r].
  assert (0 < 2 ^ s) by (apply Z.pow_pos_nonneg; lia). assert (Hq : 0 <= q) by nia.
  assert (Hdq : d1 + s - d2 <= Zdigits2 q).
  { destruct (Z.le_gt_cases (d1 + s - d2) 0) as [|Hpos].
    - etrans; [eassumption|]. destruct q; cbn; lia.
    - pose proof (Zdigits2_ge q (d1 + s - d2 - 1)) as H1.
      assert (Hpow : 2 ^ (d1 - 1) * 2 ^ s = 2 ^ (d1 + s - d2 - 1) * 2 ^ d2).
      { rewrite <- !Z.pow_add_r by lia. f_equal. lia. }
      assert (0 < 2 ^ (d1 + s - d2 - 1)) by (apply Z.pow_pos_nonneg; lia).
      assert (Hge : 2 ^ (d1 + s - d2 - 1) <= q) by nia. specialize (H1 ltac:(lia) ltac:(lia) Hge). lia. }
  apply round_valid; [done|]. rewrite fexp_double. lia.
Qed.
