(* ===== verification/Cursor.v ===== *)
(** * Reading containers from bytes

    The loops of the storage readers: a state threaded through a number of
    reads, and maps filled by [emplace], which refuses a second value for a
    key.  What was written item by item in the order of the map is read back
    as the same map. *)

From S2P Require Import Prelude Bytes Text.

Section readers.
Context {E : Type}.

(** [for (i = 0; i < n; ++i)] around a body that reads and updates a state *)
Fixpoint read_fold {S} (n : nat) (f : S -> reader E S) (s : S) : reader E S :=
  match n with
  | O => mret s
  | S n' => s' ← f s; read_fold n' f s'
  end.

(** [if (!result.emplace(key, value).second) return error] *)
Definition read_emplace {K V} `{Countable K} (e : E) (m : gmap K V) (key : K) (value : V)
    : reader E (gmap K V) :=
  match m !! key with
  | Some _ => read_fail e
  | None => mret (<[key := value]> m)
  end.

Definition read_entries {K V} `{Countable K} (duplicate : E) (n : nat) (item : reader E (K * V))
    : reader E (gmap K V) :=
  read_fold n (fun m => '(key, value) ← item; read_emplace duplicate m key value) ∅.

(** The whole span: [if (!cursor.done()) return error] *)
Definition read_all {A} (e : E) (r : reader E A) (bs : list byte) : expected E A :=
  match r bs with
  | Ok (a, []) => Ok a
  | Ok (_, _ :: _) => Err e
  | Err e' => Err e'
  end.

(** A size and that many bytes, under a limit on the size. *)
Definition read_string (limit truncated truncated_integer : E) (maximum : option Z) : reader E string :=
  fun bs =>
    match read_int truncated_integer 8 bs with
    | Err e => Err e
    | Ok (size, bs') =>
        if match maximum with Some m => size >? m | None => false end then Err limit
        else if size >? zlen bs' then Err truncated
        else read_raw size bs'
    end.

(** The first [n] bytes of the span on their own: [subspan(0, n)] *)
Definition read_span (n : Z) : reader E (list byte) := fun bs =>
  Ok (take (Z.to_nat n) bs, drop (Z.to_nat n) bs).

End readers.

(** Values kept after a check. *)
Definition read_such {E A} (e : E) (test : A -> bool) (r : reader E A) : reader E A :=
  a ← r; _ ← read_ensure (test a) e; mret a.

(** [u64(size)] and the bytes *)
Definition put_string (s : string) : list byte := put_u64 (zstrlen s) ++ string_bytes s.

(** The same with 32-bit sizes. *)
Definition read_string32 {E} (e : E) (maximum : Z) : reader E string := fun bs =>
  match read_int e 4 bs with
  | Err e => Err e
  | Ok (size, bs') => if (size >? maximum) || (size >? zlen bs') then Err e else read_raw size bs'
  end.

Definition put_string32 (s : string) : list byte := put_u32 (zstrlen s) ++ string_bytes s.

(** ** Lemmas *)

Lemma bind_fmap_ext {A B C} (f : A -> list C) (g : B -> list C) (h : A -> B) (l : list A) :
  (forall x, x ∈ l -> f x = g (h x)) -> l ≫= f = (h <$> l) ≫= g.
Proof.
  induction l as [|x l IH]; intros H; [done|]. cbn. rewrite (H x) by left. f_equal.
  apply IH. intros y Hy. apply H. by right.
Qed.

Lemma reads_bind' {E A B} (r : reader E A) (f : A -> reader E B) bs bs1 bs2 a b :
  bs = bs1 ++ bs2 -> reads r bs1 a -> reads (f a) bs2 b -> reads (r ≫= f) bs b.
Proof. intros ->. apply reads_bind. Qed.

Lemma read_all_reads {E A} (e : E) (r : reader E A) bs a : reads r bs a -> read_all e r bs = Ok a.
Proof. intros H. unfold read_all. specialize (H []). rewrite app_nil_r in H. by rewrite H. Qed.

Lemma reads_such {E A} (e : E) (test : A -> bool) (r : reader E A) bs a :
  test a = true -> reads r bs a -> reads (read_such e test r) bs a.
Proof.
  intros Ht H. unfold read_such. eapply reads_bind_nil; [exact H|].
  apply reads_ensure; [done|]. apply reads_ret.
Qed.

Lemma reads_string {E} (e1 e2 e3 : E) maximum s :
  is_u64 (zstrlen s) -> match maximum with Some m => zstrlen s <= m | None => True end ->
  reads (read_string e1 e2 e3 maximum) (put_string s) s.
Proof.
  intros Hs Hm rest. unfold read_string, put_string. rewrite <- app_assoc.
  rewrite (reads_int e3 8 (zstrlen s)) by (unfold is_u64, u64_max in Hs; cbn; lia).
  assert (match maximum with Some m => zstrlen s >? m | None => false end = false) as ->.
  { destruct maximum; [|done]. destruct (Z.gtb_spec (zstrlen s) z); [lia|done]. }
  rewrite zlen_app, zlen_string_bytes. pose proof (zlen_nonneg rest).
  destruct (Z.gtb_spec (zstrlen s) (zstrlen s + zlen rest)); [lia|]. apply reads_raw.
Qed.

Lemma reads_span {E} bs n : n = zlen bs -> reads (E := E) (read_span n) bs bs.
Proof.
  intros -> rest. unfold read_span, zlen. rewrite Nat2Z.id. by rewrite take_app_length, drop_app_length.
Qed.

Lemma reads_fold {E S X} (f : S -> reader E S) (enc : X -> list byte) (step : S -> X -> S)
    (I : S -> list X -> Prop) xs n : forall s,
  n = length xs -> I s xs ->
  (forall s x l, I s (x :: l) -> reads (f s) (enc x) (step s x) /\ I (step s x) l) ->
  reads (read_fold n f s) (xs ≫= enc) (foldl step s xs).
Proof.
  intros s -> HI Hstep. revert s HI. induction xs as [|x xs IH]; intros s HI; [apply reads_ret|].
  destruct (Hstep _ _ _ HI) as [Hr HI']. cbn [length read_fold foldl mbind list_bind].
  eapply reads_bind; [exact Hr|]. by apply IH.
Qed.

Lemma reads_emplace {E K V} `{Countable K} (e : E) (m : gmap K V) k v : m !! k = None ->
  reads (read_emplace e m k v) [] (<[k := v]> m).
Proof. intros Hm. unfold read_emplace. rewrite Hm. apply reads_ret. Qed.

(** Insertions under distinct keys. *)
Lemma foldl_insert_keys {K V X} `{Countable K} (key : X -> K) (val : X -> V) (l : list X) :
  NoDup (key <$> l) ->
  foldl (fun m x => <[key x := val x]> m) (∅ : gmap K V) l =
  list_to_map ((fun x => (key x, val x)) <$> l).
Proof.
  intros Hnd. assert (Hgen : forall m : gmap K V, (forall x, x ∈ l -> m !! key x = None) ->
    foldl (fun m x => <[key x := val x]> m) m l = list_to_map ((fun x => (key x, val x)) <$> l) ∪ m).
  { induction l as [|x l IH]; intros m Hm; [by rewrite fmap_nil, list_to_map_nil, map_empty_union|].
    rewrite fmap_cons in *. apply NoDup_cons in Hnd as [Hk Hnd]. cbn [foldl list_to_map foldr fst snd].
    rewrite IH; [|done|].
    - change (foldr ?f ∅ ?l) with (list_to_map (M := gmap K V) l).
      rewrite <- insert_union_l, <- insert_union_r; [done|]. apply not_elem_of_list_to_map_1.
      intros Hin. apply Hk. rewrite <- list_fmap_compose in Hin. exact Hin.
    - intros y Hy. rewrite lookup_insert_ne.
      + apply Hm. by right.
      + intros E. apply Hk. rewrite E. by apply list_elem_of_fmap_2. }
  rewrite Hgen; [by rewrite map_union_empty|]. intros x _. apply lookup_empty.
Qed.

(** Items with distinct keys, read one after the other into a map. *)
Lemma reads_entry_list {E K V} `{Countable K} (e : E) (item : reader E (K * V))
    (enc : K * V -> list byte) l n :
  n = length l -> NoDup l.*1 -> (forall x, x ∈ l -> reads item (enc x) x) ->
  reads (read_entries e n item) (l ≫= enc) (list_to_map l).
Proof.
  intros Hn Hnd Hitem. unfold read_entries.
  assert (Hfold : foldl (fun m x => <[x.1 := x.2]> m) (∅ : gmap K V) l = list_to_map l).
  { rewrite foldl_insert_keys by done. f_equal. rewrite <- (list_fmap_id l) at 2.
    apply list_fmap_ext. by intros ? [? ?] _. }
  rewrite <- Hfold.
  apply (reads_fold _ enc (fun m x => <[x.1 := x.2]> m)
    (fun m xs => NoDup xs.*1 /\ (forall k, k ∈ xs.*1 -> m !! k = None) /\
                 forall x, x ∈ xs -> reads item (enc x) x)); [done| |].
  { split_and!; [done| |done]. intros k _. apply lookup_empty. }
  intros m [k v] xs (Hnd' & Hm & Hi). rewrite fmap_cons in Hnd', Hm. apply NoDup_cons in Hnd' as [Hk Hnd'].
  split.
  - eapply reads_bind_nil; [apply Hi; left|]. apply reads_emplace, Hm. by left.
  - split_and!; [done| |].
    + intros k' Hk'. cbn [fst]. rewrite lookup_insert_ne by (intros ->; done). apply Hm. by right.
    + intros x Hx. apply Hi. by right.
Qed.

Lemma reads_entries {E K V} `{Countable K, KeyOrder K} (e : E) (item : reader E (K * V))
    (enc : K * V -> list byte) (m : gmap K V) n :
  n = size m -> (forall k v, m !! k = Some v -> reads item (enc (k, v)) (k, v)) ->
  reads (read_entries e n item) (map_items m ≫= enc) m.
Proof.
  intros Hn Hitem. rewrite <- (list_to_map_items m) at 2.
  apply reads_entry_list; [by rewrite length_map_items|apply NoDup_fst_map_items|].
  intros [k v] Hin%elem_of_map_items. by apply Hitem.
Qed.

(** ** What a successful read has consumed *)

Lemma reader_bind_Ok {E A B} (r : reader E A) (f : A -> reader E B) bs b rest :
  (r ≫= f) bs = Ok (b, rest) <-> exists a bs', r bs = Ok (a, bs') /\ f a bs' = Ok (b, rest).
Proof.
  unfold mbind, reader_bind. destruct (r bs) as [[a bs']|e].
  - split; [intros H; by exists a, bs'|]. by intros (? & ? & [= <- <-] & H).
  - split; [done|]. by intros (? & ? & ? & _).
Qed.

Lemma read_ensure_Ok {E} (b : bool) (e : E) bs u rest :
  read_ensure b e bs = Ok (u, rest) <-> b = true /\ rest = bs.
Proof. unfold read_ensure. destruct b, u; cbn; split; try done; [by intros [= ->]|by intros [_ ->]|by intros []]. Qed.

Lemma read_ret_Ok {E A} (a a' : A) bs rest : (mret a : reader E A) bs = Ok (a', rest) <-> a' = a /\ rest = bs.
Proof. unfold mret, reader_ret. split; [by intros [= -> ->]|by intros [-> ->]]. Qed.

Lemma read_or_Ok {E E' A} (e : E') (r : reader E A) bs x : read_or e r bs = Ok x <-> r bs = Ok x.
Proof. unfold read_or. destruct (r bs); split; congruence. Qed.

Lemma read_int_Ok {E} (e : E) width bs v rest : read_int e width bs = Ok (v, rest) <->
  0 <= v < 2 ^ (Z.of_nat width * 8) /\ bs = put_int width v ++ rest.
Proof.
  split.
  - unfold read_int. destruct (Nat.ltb_spec (length bs) width) as [|Hlen]; [done|]. intros [= <- <-].
    assert (Hl : length (take width bs) = width) by (rewrite length_take; lia).
    pose proof (get_int_range (take width bs)) as Hr. pose proof (put_get_int (take width bs)) as Hp.
    rewrite Hl in Hr, Hp. split; [done|]. by rewrite Hp, take_drop.
  - intros [Hv ->]. by apply reads_int.
Qed.

Lemma read_string_Ok {E} (e1 e2 e3 : E) maximum bs s rest : read_string e1 e2 e3 maximum bs = Ok (s, rest) <->
  is_u64 (zstrlen s) /\ match maximum with Some m => zstrlen s <= m | None => True end /\
  bs = put_string s ++ rest.
Proof.
  split; [|intros (Hu & Hm & ->); by apply reads_string].
  unfold read_string. destruct (read_int e3 8 bs) as [[size bs']|e] eqn:E0; [|done].
  apply read_int_Ok in E0 as [Hv ->].
  destruct (match maximum with Some m => size >? m | None => false end) eqn:Em; [done|].
  destruct (Z.gtb_spec size (zlen bs')) as [|Hlen]; [done|]. unfold read_raw. intros [= <- <-].
  assert (Hsize : zstrlen (bytes_string (take (Z.to_nat size) bs')) = size).
  { rewrite <- zlen_string_bytes, string_bytes_string. unfold zlen in *. rewrite length_take. lia. }
  rewrite Hsize. cbn in Hv. split_and!; [unfold is_u64, u64_max; lia| |].
  - destruct maximum as [m|]; [|done]. destruct (Z.gtb_spec size m); [done|lia].
  - unfold put_string. rewrite Hsize, string_bytes_string, <- app_assoc, take_drop. done.
Qed.

Lemma read_all_Ok {E A} (e : E) (r : reader E A) bs a : read_all e r bs = Ok a <-> r bs = Ok (a, []).
Proof. unfold read_all. destruct (r bs) as [[a' [|? ?]]|]; split; congruence. Qed.

Lemma read_string32_Ok {E} (e : E) maximum bs s rest :
  read_string32 e maximum bs = Ok (s, rest) <-> is_u32 (zstrlen s) /\ zstrlen s <= maximum /\ bs = put_string32 s ++ rest.
Proof.
  unfold read_string32, put_string32, is_u32, u32_max in *. split.
  - destruct (read_int e 4 bs) as [[size bs']|] eqn:E0; [|done]. apply read_int_Ok in E0 as [Hv ->].
    destruct (Z.gtb_spec size maximum) as [|Hm]; [done|]. destruct (Z.gtb_spec size (zlen bs')) as [|Hlen]; [done|].
    cbn [orb]. unfold read_raw. intros [= <- <-].
    assert (Hsize : zstrlen (bytes_string (take (Z.to_nat size) bs')) = size).
    { rewrite <- zlen_string_bytes, string_bytes_string. unfold zlen in *. rewrite length_take. lia. }
    change (2 ^ (Z.of_nat 4 * 8)) with 4294967296 in Hv.
    rewrite Hsize, string_bytes_string, <- app_assoc, take_drop. split; [lia|done].
  - intros (Hu & Hs & ->). rewrite <- app_assoc.
    rewrite (reads_int e 4 (zstrlen s)) by (change (2 ^ (Z.of_nat 4 * 8)) with 4294967296; lia).
    rewrite zlen_app, zlen_string_bytes. pose proof (zlen_nonneg rest).
    destruct (Z.gtb_spec (zstrlen s) maximum); [lia|].
    destruct (Z.gtb_spec (zstrlen s) (zstrlen s + zlen rest)); [lia|]. apply reads_raw.
Qed.

Lemma reads_string32 {E} (e : E) maximum s : is_u32 (zstrlen s) -> zstrlen s <= maximum ->
  reads (read_string32 e maximum) (put_string32 s) s.
Proof. intros Hu Hs rest. by apply read_string32_Ok. Qed.

(** What the items of a map satisfy, when each item that is read does. *)
Lemma read_entries_all {E K V} `{Countable K} (e : E) (item : reader E (K * V)) (ok : K * V -> Prop) n bs m rest :
  (forall bs x rest, item bs = Ok (x, rest) -> ok x) ->
  read_entries e n item bs = Ok (m, rest) -> size m = n /\ forall k v, m !! k = Some v -> ok (k, v).
Proof.
  intros Hitem. unfold read_entries.
  assert (Hgen : forall s bs, (forall k v, s !! k = Some v -> ok (k, v)) ->
    read_fold n (fun m => '(key, value) ← item; read_emplace e m key value) s bs = Ok (m, rest) ->
    size m = (size s + n)%nat /\ forall k v, m !! k = Some v -> ok (k, v)).
  { induction n as [|n IH]; intros s bs' Hs; cbn [read_fold].
    - rewrite read_ret_Ok. intros [-> _]. split; [lia|done].
    - intros (s' & bs1 & H1 & H2)%reader_bind_Ok. apply reader_bind_Ok in H1 as ([k v] & bs2 & Hx%Hitem & H1).
      unfold read_emplace in H1. destruct (s !! k) eqn:Hk; [done|]. apply read_ret_Ok in H1 as [-> ->].
      destruct (IH (<[k := v]> s) bs2) as [Hsz Hall]; [|done|].
      + intros k' v'. destruct (decide (k = k')) as [<-|Hne]; [rewrite lookup_insert_eq; congruence|].
        rewrite lookup_insert_ne by done. apply Hs.
      + split; [|done]. rewrite Hsz, map_size_insert_None by done. lia. }
  intros Hread. destruct (Hgen ∅ bs) as [Hsz Hall]; [intros k v Hk; by rewrite lookup_empty in Hk|done|].
  rewrite map_size_empty in Hsz. split; [lia|done].
Qed.
