(* ===== verification/Analysis.v ===== *)
(** * Text analysis

    src/analysis/analyzer.cpp and include/dse/analysis/analyzer.hpp.  The
    virtual class [Analyzer] is a record of its two methods; [AnalyzerLaws]
    is what the index relies on of any analyzer, and the two analyzers of the
    program satisfy it. *)

From S2P Require Import Prelude Text.
From Stdlib Require Import Ascii.

Record Token := {
  term : string;
  position : Z;
  start_offset : Z;
  end_offset : Z
}.

#[export] Instance Token_eq_dec : EqDecision Token.
Proof. solve_decision. Defined.

(** [analyze] returns the tokens or throws; the exception is its message. *)
Record Analyzer := {
  analyze : string -> expected string (list Token);
  descriptor : string
}.

Definition checked_offset (value : Z) : expected string Z :=
  if value >? u32_max then Err "analyzer input exceeds uint32 offset range" else Ok value.

Definition ascii_lower_char (ch : ascii) : ascii :=
  if code ch <? 0x80 then to_lower ch else ch.
Definition ascii_lower (value : string) : string := str_map ascii_lower_char value.

Definition is_token_byte (byte : ascii) : bool := (0x80 <=? code byte) || is_alnum byte.

Module StandardAnalyzer.

(** The constructor lowercases the stop words. *)
Definition make_stop_words (stop_words : gset string) : gset string :=
  set_map ascii_lower stop_words.

(** The outer [while (cursor < text.size())]; [rest] is [text.substr(cursor)].
    Every round but the last consumes a byte, so [S (size)] rounds are enough
    ([analyze_loop_fuel]). *)
Fixpoint analyze_loop (stop_words : gset string) (fuel : nat) (cursor position : Z)
    (rest : string) : expected string (list Token) :=
  match fuel, rest with
  | O, _ | _, EmptyString => Ok []
  | S fuel', _ =>
      let '(skipped, from_start) := span (fun c => negb (is_token_byte c)) rest in
      let start := cursor + zstrlen skipped in
      let '(word, rest') := span is_token_byte from_start in
      let cursor' := start + zstrlen word in
      if start =? cursor' then Ok []
      else
        let t := ascii_lower word in
        let position' := wrap32 (position + 1) in
        if bool_decide (t ∈ stop_words) then
          analyze_loop stop_words fuel' cursor' position' rest'
        else
          s ← checked_offset start; e ← checked_offset cursor';
          tokens ← analyze_loop stop_words fuel' cursor' position' rest';
          Ok ({| term := t; position := position; start_offset := s; end_offset := e |}
              :: tokens)
  end.

Definition analyze (stop_words : gset string) (text : string) : expected string (list Token) :=
  analyze_loop stop_words (S (String.length text)) 0 0 text.

Definition descriptor (stop_words : gset string) : string :=
  "standard-v1:" +:+ to_string_u (Z.of_nat (size stop_words)) +:+ ":" +:+
  foldr (fun word acc => to_string_u (zstrlen word) +:+ ":" +:+ word +:+ acc) ""
    (set_items stop_words).

Definition make (stop_words : gset string) : Analyzer :=
  let stop_words_ := make_stop_words stop_words in
  {| Analysis.analyze := analyze stop_words_; Analysis.descriptor := descriptor stop_words_ |}.

End StandardAnalyzer.

Module KeywordAnalyzer.

Definition analyze (text : string) : expected string (list Token) :=
  if str_eqb text "" then Ok []
  else e ← checked_offset (zstrlen text);
       Ok [{| term := text; position := 0; start_offset := 0; end_offset := e |}].

Definition make : Analyzer :=
  {| Analysis.analyze := analyze; Analysis.descriptor := "keyword-v1" |}.

End KeywordAnalyzer.

(** ** What the index relies on *)

Class AnalyzerLaws (a : Analyzer) : Prop := {
  laws_positions text tokens :
    analyze a text = Ok tokens -> StronglySorted Z.lt (position <$> tokens);
  laws_range text tokens :
    analyze a text = Ok tokens -> Forall (fun t => is_u32 (position t) /\ term t <> "") tokens
}.

(** ** Maximal runs of token bytes *)

(** The runs of [text] from offset [cursor] on, as (start, end) pairs. *)
Fixpoint runs_from (fuel : nat) (cursor : Z) (rest : string) : list (Z * string) :=
  match fuel with
  | O => []
  | S fuel' =>
      let '(skipped, from_start) := span (fun c => negb (is_token_byte c)) rest in
      let '(word, rest') := span is_token_byte from_start in
      let start := cursor + zstrlen skipped in
      if str_eqb word "" then []
      else (start, word) :: runs_from fuel' (start + zstrlen word) rest'
  end.

Definition runs (text : string) : list (Z * string) := runs_from (S (String.length text)) 0 text.

(** A run as the documentation describes it: a non-empty stretch of token
    bytes of [text] that cannot be extended on either side. *)
Definition maximal_run (text : string) (start : Z) (word : string) : Prop :=
  exists before after, text = before +:+ word +:+ after /\ zstrlen before = start /\
    word <> "" /\ str_forallb is_token_byte word = true /\
    (before = "" \/ exists b c, before = b +:+ String c "" /\ is_token_byte c = false) /\
    match after with "" => True | String c _ => is_token_byte c = false end.

(** The tokens of consecutively numbered runs, without the stop words. *)
Fixpoint tokens_of_runs (stop_words : gset string) (k : Z) (rs : list (Z * string)) : list Token :=
  match rs with
  | [] => []
  | (start, word) :: rs' =>
      let t := ascii_lower word in
      if bool_decide (t ∈ stop_words) then tokens_of_runs stop_words (k + 1) rs'
      else {| term := t; position := k; start_offset := start;
              end_offset := start + zstrlen word |} :: tokens_of_runs stop_words (k + 1) rs'
  end.

(** ** Lemmas *)

Lemma checked_offset_Ok v u : checked_offset v = Ok u -> u = v /\ v <= u32_max.
Proof.
  unfold checked_offset. destruct (Z.gtb_spec v u32_max); [done|].
  intros [= <-]. split; [done|lia].
Qed.
Lemma checked_offset_le v : v <= u32_max -> checked_offset v = Ok v.
Proof. intros. unfold checked_offset. destruct (Z.gtb_spec v u32_max); [lia|done]. Qed.

Lemma span_notrun rest skipped from_start word rest' :
  span (fun c => negb (is_token_byte c)) rest = (skipped, from_start) ->
  span is_token_byte from_start = (word, rest') ->
  rest = skipped +:+ word +:+ rest' /\
  str_forallb (fun c => negb (is_token_byte c)) skipped = true /\
  str_forallb is_token_byte word = true /\
  match rest' with "" => True | String c _ => is_token_byte c = false end /\
  (word = "" -> rest' = "").
Proof.
  intros E1 E2. apply span_app in E1 as (-> & H1 & H2).
  apply span_app in E2 as (-> & H3 & H4). split_and!; try done.
  intros ->. destruct rest' as [|c rest']; [done|]. cbn in H2.
  by rewrite H4 in H2.
Qed.

Lemma run_eqb start word : (start =? start + zstrlen word) = str_eqb word "".
Proof.
  unfold str_eqb. destruct word as [|c w].
  - change (zstrlen "") with 0. by rewrite Z.add_0_r, Z.eqb_refl.
  - rewrite zstrlen_cons. pose proof (zstrlen_nonneg w).
    destruct (Z.eqb_spec start (start + (1 + zstrlen w))); [lia|done].
Qed.

(** Each run starts after [k] earlier ones, each of at least one byte, so the
    32-bit position never wraps on a token whose offset was checked. *)
Lemma analyze_loop_runs stop fuel : forall cursor pos rest tokens,
  0 <= pos -> pos <= cursor ->
  StandardAnalyzer.analyze_loop stop fuel cursor (wrap32 pos) rest = Ok tokens ->
  tokens = tokens_of_runs stop pos (runs_from fuel cursor rest) /\
  Forall (fun t => position t <= start_offset t <= u32_max /\ 0 <= position t) tokens.
Proof.
  induction fuel as [|fuel IH]; intros cursor pos rest tokens Hp Hc H.
  - by injection H as <-.
  - cbn [StandardAnalyzer.analyze_loop runs_from] in H |- *.
    destruct (span (fun c => negb (is_token_byte c)) rest) as [skipped from_start] eqn:E1.
    destruct (span is_token_byte from_start) as [word rest'] eqn:E2.
    pose proof (zstrlen_nonneg skipped). pose proof (zstrlen_nonneg word).
    assert (Hrest : rest <> "" \/ rest = "") by (destruct rest; [by right|by left]).
    destruct Hrest as [Hrest|Hrest].
    2:{ subst rest. injection E1 as <- <-. injection E2 as <- <-. by injection H as <-. }
    assert (H' : (if cursor + zstrlen skipped =? cursor + zstrlen skipped + zstrlen word
      then Ok [] else
      if bool_decide (ascii_lower word ∈ stop) then
        StandardAnalyzer.analyze_loop stop fuel (cursor + zstrlen skipped + zstrlen word)
          (wrap32 (wrap32 pos + 1)) rest'
      else
        s ← checked_offset (cursor + zstrlen skipped);
        e ← checked_offset (cursor + zstrlen skipped + zstrlen word);
        tokens ← StandardAnalyzer.analyze_loop stop fuel
          (cursor + zstrlen skipped + zstrlen word) (wrap32 (wrap32 pos + 1)) rest';
        Ok ({| term := ascii_lower word; position := wrap32 pos; start_offset := s;
               end_offset := e |} :: tokens)) = Ok tokens) by by destruct rest.
    clear H. rewrite run_eqb in H'. destruct (str_eqb word "") eqn:Ew; [by injection H' as <-|].
    assert (0 < zstrlen word).
    { destruct word; [done|]. rewrite zstrlen_cons. pose proof (zstrlen_nonneg word). lia. }
    assert (Hwrap : wrap32 (wrap32 pos + 1) = wrap32 (pos + 1)).
    { unfold wrap32. apply Zplus_mod_idemp_l. }
    rewrite Hwrap in H'. cbn [tokens_of_runs].
    case_bool_decide.
    + apply IH in H'; [|lia|lia]. destruct H' as [-> Hf]. done.
    + apply bind_Ok in H' as (s & Hs%checked_offset_Ok & H').
      apply bind_Ok in H' as (e & He%checked_offset_Ok & H').
      apply bind_Ok in H' as (ts & Hts & [= <-]).
      destruct Hs as [-> Hs], He as [-> He].
      apply IH in Hts; [|lia|lia]. destruct Hts as [-> Hf].
      assert (wrap32 pos = pos) as -> by (apply wrap32_id; unfold is_u32; lia).
      split; [done|]. constructor; [cbn; lia|done].
Qed.

(** With offsets in range the analysis does not throw. *)
Lemma analyze_loop_Ok stop fuel : forall cursor pos rest,
  0 <= cursor -> cursor + zstrlen rest <= u32_max ->
  exists tokens, StandardAnalyzer.analyze_loop stop fuel cursor pos rest = Ok tokens.
Proof.
  induction fuel as [|fuel IH]; intros cursor pos rest H0 H; [by eexists|].
  cbn [StandardAnalyzer.analyze_loop]. destruct rest as [|c0 rest0]; [by eexists|].
  set (rest := String c0 rest0) in *. clearbody rest.
  destruct (span (fun c => negb (is_token_byte c)) rest) as [skipped from_start] eqn:E1.
  destruct (span is_token_byte from_start) as [word rest'] eqn:E2.
  destruct (span_notrun _ _ _ _ _ E1 E2) as (-> & _).
  rewrite !zstrlen_app in H.
  pose proof (zstrlen_nonneg skipped). pose proof (zstrlen_nonneg word).
  pose proof (zstrlen_nonneg rest').
  case_match; [by eexists|]. case_bool_decide; [apply IH; lia|].
  rewrite !checked_offset_le by lia.
  destruct (IH (cursor + zstrlen skipped + zstrlen word) (wrap32 (pos + 1)) rest') as [ts E];
    [lia|lia|]. unfold mbind, expected_bind. rewrite E. by eexists.
Qed.

Lemma tokens_of_runs_positions stop rs : forall k,
  StronglySorted Z.lt (position <$> tokens_of_runs stop k rs) /\
  Forall (fun t => k <= position t) (tokens_of_runs stop k rs).
Proof.
  induction rs as [|[s w] rs IH]; intros k; cbn [tokens_of_runs]; [by repeat constructor|].
  destruct (IH (k + 1)) as [Hs Hf].
  assert (Forall (fun t => k <= position t) (tokens_of_runs stop (k + 1) rs)).
  { eapply Forall_impl; [exact Hf|]. cbn. lia. }
  case_bool_decide; [done|]. split.
  - cbn. constructor; [done|]. apply Forall_fmap.
    eapply Forall_impl; [exact Hf|]. cbn. lia.
  - constructor; [cbn; lia|done].
Qed.

Lemma tokens_of_runs_terms stop rs k : Forall (fun r => r.2 <> "") rs ->
  Forall (fun t => term t <> "") (tokens_of_runs stop k rs).
Proof.
  intros H. revert k. induction H as [|[s w] rs Hw _ IH]; intros k; cbn [tokens_of_runs]; [done|].
  case_bool_decide; [done|]. constructor; [|done]. cbn in *. by destruct w.
Qed.

Lemma runs_from_nonempty fuel : forall cursor rest,
  Forall (fun r => r.2 <> "") (runs_from fuel cursor rest).
Proof.
  induction fuel as [|fuel IH]; intros cursor rest; cbn [runs_from]; [done|].
  repeat case_match; try done. constructor; [|done].
  cbn. intros ->. done.
Qed.

(** The runs are exactly the maximal runs, left to right. *)
Lemma before_boundary pre skipped :
  (pre = "" \/ exists b c, pre = b +:+ String c "" /\ is_token_byte c = false) ->
  str_forallb (fun c => negb (is_token_byte c)) skipped = true ->
  pre +:+ skipped = "" \/ exists b c, pre +:+ skipped = b +:+ String c "" /\ is_token_byte c = false.
Proof.
  revert pre. induction skipped as [|c skipped IH]; intros pre Hpre Hs.
  - by rewrite str_app_nil_r.
  - cbn [str_forallb] in Hs. apply andb_prop in Hs as [Hc%negb_true_iff Hs].
    replace (pre +:+ String c skipped) with ((pre +:+ String c "") +:+ skipped)
      by by rewrite str_app_assoc.
    apply IH; [|done]. right. by exists pre, c.
Qed.

Lemma runs_from_sound fuel : forall pre rest start word,
  (pre = "" \/ rest = "" \/ (exists b c, pre = b +:+ String c "" /\ is_token_byte c = false) \/
   match rest with "" => True | String c _ => is_token_byte c = false end) ->
  (start, word) ∈ runs_from fuel (zstrlen pre) rest ->
  maximal_run (pre +:+ rest) start word /\ zstrlen pre <= start.
Proof.
  induction fuel as [|fuel IH]; intros pre rest start word Hpre; cbn [runs_from];
    [by intros ?%not_elem_of_nil|].
  destruct (span (fun c => negb (is_token_byte c)) rest) as [skipped from_start] eqn:E1.
  destruct (span is_token_byte from_start) as [w rest'] eqn:E2.
  destruct (span_notrun _ _ _ _ _ E1 E2) as (-> & Hs & Hw & Hr & _).
  destruct (str_eqb w "") eqn:Ew; [by intros ?%not_elem_of_nil|].
  assert (w <> "") as Hne by by intros ->.
  pose proof (zstrlen_nonneg skipped). pose proof (zstrlen_nonneg w).
  intros [[= -> ->]|Hin]%elem_of_cons.
  - split; [|lia]. exists (pre +:+ skipped), rest'. split_and!; try done.
    + by rewrite !str_app_assoc.
    + by rewrite zstrlen_app.
    + destruct skipped as [|c0 skipped].
      * rewrite str_app_nil_r. destruct Hpre as [->|[Hn|[?|Hc]]]; [by left| |by right|].
        -- by destruct w.
        -- destruct w as [|c w]; [done|]. cbn in Hc, Hw. by rewrite Hc in Hw.
      * pose proof (before_boundary (pre +:+ String c0 "") skipped) as Hb.
        cbn [str_forallb] in Hs. apply andb_prop in Hs as [Hc%negb_true_iff Hs].
        rewrite str_app_assoc in Hb. apply Hb; [|done]. right. by exists pre, c0.
  - replace (pre +:+ skipped +:+ w +:+ rest') with ((pre +:+ skipped +:+ w) +:+ rest')
      by by rewrite !str_app_assoc.
    replace (zstrlen pre + zstrlen skipped + zstrlen w) with (zstrlen (pre +:+ skipped +:+ w))
      in Hin by (rewrite !zstrlen_app; lia).
    apply IH in Hin as [Hmax Hle].
    + split; [done|]. rewrite !zstrlen_app in Hle. lia.
    + right. right. by right.
Qed.

Lemma span_more p a b x y : span p a = (x, y) -> y <> "" -> span p (a +:+ b) = (x, y +:+ b).
Proof.
  revert x y. induction a as [|c a IH]; intros x y; cbn; [by intros [= <- <-]|].
  destruct (p c); [|by intros [= <- <-]].
  destruct (span p a) as [x' y']. intros [= <- <-] Hy. by rewrite (IH x' y' eq_refl Hy).
Qed.

Lemma span_snoc p s c x y : p c = false -> span p (s +:+ String c "") = (x, y) ->
  exists z, y = z +:+ String c "".
Proof.
  intros Hc. revert x y. induction s as [|d s IH]; intros x y; cbn.
  - rewrite Hc. intros [= <- <-]. by exists "".
  - destruct (p d).
    + destruct (span p (s +:+ String c "")) as [x' y']. intros [= <- <-]. by eapply IH.
    + intros [= <- <-]. by exists (String d s).
Qed.

Lemma forallb_negb_first p (c : ascii) s : str_forallb p (String c s) = true -> p c = true.
Proof. cbn. by intros [? _]%andb_prop. Qed.

Lemma runs_from_complete fuel : forall cursor b word after,
  (String.length (b +:+ word +:+ after) < fuel)%nat -> word <> "" ->
  str_forallb is_token_byte word = true ->
  (b = "" \/ exists b' c, b = b' +:+ String c "" /\ is_token_byte c = false) ->
  match after with "" => True | String c _ => is_token_byte c = false end ->
  (cursor + zstrlen b, word) ∈ runs_from fuel cursor (b +:+ word +:+ after).
Proof.
  induction fuel as [|fuel IH]; intros cursor b word after Hl Hw Hword Hb Ha; [lia|].
  cbn [runs_from].
  assert (Hcase : str_forallb (fun c => negb (is_token_byte c)) b = true \/
    exists sk w r c, span (fun c => negb (is_token_byte c)) b = (sk, w +:+ r +:+ String c "") /\
      span is_token_byte (w +:+ r +:+ String c "") = (w, r +:+ String c "") /\
      w <> "" /\ is_token_byte c = false).
  { destruct (span (fun c => negb (is_token_byte c)) b) as [sk fs] eqn:E1.
    pose proof (span_app _ _ _ _ E1) as (Eb & Hsk & Hfs).
    destruct fs as [|f fs]; [left; by rewrite Eb, str_app_nil_r|right].
    destruct Hb as [->|(b' & c & -> & Hc)]; [by destruct sk|].
    destruct (span is_token_byte (String f fs)) as [w r] eqn:E2.
    pose proof (span_app _ _ _ _ E2) as (Ef & Hwt & Hr).
    assert (exists z, String f fs = z +:+ String c "") as [z Ez].
    { apply str_app_snoc_suffix with (a := b') (b := sk); [|done]. congruence. }
    rewrite Ez in E2. destruct (span_snoc _ _ _ _ _ Hc E2) as [r' ->].
    exists sk, w, r', c. rewrite Ef. split_and!; try done.
    - rewrite <- Ef, Ez. done.
    - intros ->. cbn in Ef. rewrite <- Ef in Hr. apply negb_false_iff in Hfs. congruence. }
  destruct word as [|c0 word0] eqn:Eword; [done|]. rewrite <- Eword in *.
  assert (Hc0 : is_token_byte c0 = true) by (subst word; by eapply forallb_negb_first).
  destruct Hcase as [Hall|(sk & w & r & c & E1 & E2 & Hwn & Hc)].
  - rewrite span_exact by (try done; subst word; cbn; by rewrite Hc0).
    rewrite span_exact by done.
    assert (str_eqb word "" = false) as -> by (unfold str_eqb; by rewrite bool_decide_eq_false).
    left.
  - rewrite (span_more _ _ (word +:+ after) _ _ E1) by by destruct w.
    rewrite (span_more _ _ (word +:+ after) _ _ E2) by by destruct r.
    assert (str_eqb w "" = false) as -> by (unfold str_eqb; by rewrite bool_decide_eq_false).
    right. apply span_app in E1 as (-> & _).
    replace (cursor + zstrlen (sk +:+ w +:+ r +:+ String c ""))
      with (cursor + zstrlen sk + zstrlen w + zstrlen (r +:+ String c ""))
      by (rewrite !zstrlen_app; lia).
    apply IH; try done; [|right; by exists r, c].
    rewrite !length_str_app in Hl. rewrite !length_str_app.
    destruct w; [done|]. cbn in *. lia.
Qed.

Lemma runs_from_sorted fuel : forall cursor rest,
  StronglySorted (fun x y => x.1 < y.1) (runs_from fuel cursor rest) /\
  Forall (fun r => cursor <= r.1) (runs_from fuel cursor rest).
Proof.
  induction fuel as [|fuel IH]; intros cursor rest; cbn [runs_from]; [by repeat constructor|].
  destruct (span (fun c => negb (is_token_byte c)) rest) as [skipped from_start].
  destruct (span is_token_byte from_start) as [word rest'].
  destruct (str_eqb word "") eqn:Ew; [by repeat constructor|].
  pose proof (zstrlen_nonneg skipped).
  assert (0 < zstrlen word).
  { destruct word; [done|]. rewrite zstrlen_cons. pose proof (zstrlen_nonneg word). lia. }
  destruct (IH (cursor + zstrlen skipped + zstrlen word) rest') as [Hs Hf].
  split; constructor; try done; cbn; try lia.
  all: eapply Forall_impl; [exact Hf|]; cbn; lia.
Qed.

Lemma runs_maximal text start word : (start, word) ∈ runs text <-> maximal_run text start word.
Proof.
  split.
  - intros H. apply (runs_from_sound _ "") in H as [? _]; [done|by left].
  - intros (before & after & -> & <- & Hw & Hword & Hb & Ha).
    unfold runs. pose proof (runs_from_complete (S (String.length (before +:+ word +:+ after)))
      0 before word after) as H. rewrite Z.add_0_l in H. apply H; try done. lia.
Qed.

Lemma standard_analyze_eq stop text tokens :
  StandardAnalyzer.analyze stop text = Ok tokens -> tokens = tokens_of_runs stop 0 (runs text).
Proof. intros H. by apply (analyze_loop_runs stop _ 0 0) in H as [-> _]. Qed.

Lemma standard_analyze_Ok stop text : zstrlen text <= u32_max ->
  StandardAnalyzer.analyze stop text = Ok (tokens_of_runs stop 0 (runs text)).
Proof.
  intros H. destruct (analyze_loop_Ok stop (S (String.length text)) 0 0 text) as [ts E];
    [lia|lia|]. fold (StandardAnalyzer.analyze stop text) in E.
  rewrite E. f_equal. by apply standard_analyze_eq.
Qed.

#[export] Instance standard_laws stop : AnalyzerLaws (StandardAnalyzer.make stop).
Proof.
  split; cbn [analyze StandardAnalyzer.make]; intros text tokens H.
  - rewrite (standard_analyze_eq _ _ _ H). apply tokens_of_runs_positions.
  - pose proof (analyze_loop_runs _ _ 0 0 text tokens ltac:(lia) ltac:(lia) H) as [Ht Hf].
    pose proof (tokens_of_runs_terms (StandardAnalyzer.make_stop_words stop) (runs text) 0
      (runs_from_nonempty _ _ _)) as Hn.
    unfold runs in Hn. rewrite <- Ht in Hn. clear Ht.
    apply Forall_and; split; [|done].
    eapply Forall_impl; [exact Hf|]. unfold is_u32. cbn. lia.
Qed.

#[export] Instance keyword_laws : AnalyzerLaws KeywordAnalyzer.make.
Proof.
  split; cbn [analyze KeywordAnalyzer.make]; unfold KeywordAnalyzer.analyze; intros text tokens;
    (destruct (str_eqb text "") eqn:E; [intros [= <-]; by repeat constructor|]);
    intros (e & _ & [= <-])%bind_Ok.
  - by repeat constructor.
  - repeat constructor; [by vm_compute..|]. cbn. by intros ->.
Qed.

(** ** Properties *)

(** C38.  [StandardAnalyzer::analyze] on an input whose offsets fit in 32 bits
    returns one token per maximal run of token bytes, in text order: the
    lowercased run with its byte offsets, numbered by its rank among all runs
    so that a removed stop word leaves a gap in the positions. *)
Theorem standard_analyze_spec stop_words text :
  zstrlen text <= u32_max ->
  StandardAnalyzer.analyze stop_words text = Ok (tokens_of_runs stop_words 0 (runs text)) /\
  StronglySorted (fun x y => x.1 < y.1) (runs text) /\
  forall start word, (start, word) ∈ runs text <-> maximal_run text start word.
Proof.
  intros H. split_and!; [by apply standard_analyze_Ok|apply runs_from_sorted|].
  apply runs_maximal.
Qed.

Lemma standard_analyze_spec_witness :
  zstrlen "The Quick fox" <= u32_max /\
  StandardAnalyzer.analyze {["the"]} "The Quick fox" =
    Ok [{| term := "quick"; position := 1; start_offset := 4; end_offset := 9 |};
        {| term := "fox"; position := 2; start_offset := 10; end_offset := 13 |}].
Proof.
  assert (H : zstrlen "The Quick fox" <= u32_max) by by vm_compute.
  split; [exact H|].
  rewrite (proj1 (standard_analyze_spec {["the"]} "The Quick fox" H)). by vm_compute.
Defined.
