(* ===== verification/Schema.v ===== *)
(** * Field schema

    src/index/schema.cpp and include/dse/index/schema.hpp: field definitions,
    their validation by [IndexSchema::create], and the typed values that
    [validate_value] lets into the index. *)

From S2P Require Import Prelude Text Doubles Analysis.
From Stdlib Require Import Ascii SpecFloat.

Inductive FieldType := ft_text | ft_keyword | ft_int64 | ft_timestamp.

#[export] Instance FieldType_eq_dec : EqDecision FieldType.
Proof. solve_decision. Defined.

Record FieldDefinition := {
  fd_name : string;
  fd_type : FieldType;
  fd_indexed : bool;
  fd_stored : bool;
  fd_boost : double;
  fd_analyzer : option Analyzer
}.

Inductive SchemaErrorCode :=
| empty_field_name | duplicate_field | invalid_boost | missing_analyzer | unexpected_analyzer
| unknown_field | field_not_indexed | field_not_stored | invalid_typed_value.

Record SchemaError := {
  schema_code : SchemaErrorCode;
  schema_field : string;
  schema_message : string
}.

(** ** Dates *)

(** The [digits] lambda: [count] characters from [start] read as an [int]. *)
Definition date_digits (value : string) (start count : nat) : option Z :=
  whole (from_chars_signed (-2147483648) 2147483647 (str_take count (str_drop start value))).

Definition char_at (s : string) (i : nat) : option ascii := String.get i s.

Definition days_per_month : list Z := [31; 28; 31; 30; 31; 30; 31; 31; 30; 31; 30; 31].

Definition leap_year (year : Z) : bool :=
  (year mod 4 =? 0) && (negb (year mod 100 =? 0) || (year mod 400 =? 0)).

Definition maximum_day (year month : Z) : Z :=
  if (month =? 2) && leap_year year then 29
  else default 0 (days_per_month !! Z.to_nat (month - 1)).

Definition valid_iso_date (value : string) : bool :=
  if negb (zstrlen value =? 10) || negb (bool_decide (char_at value 4 = Some "-"%char))
     || negb (bool_decide (char_at value 7 = Some "-"%char)) then false
  else
    match date_digits value 0 4, date_digits value 5 2, date_digits value 8 2 with
    | Some year, Some month, Some day =>
        if (year <? 1) || (month <? 1) || (month >? 12) then false
        else (1 <=? day) && (day <=? maximum_day year month)
    | _, _, _ => false
    end.

(** ** The schema *)

Module IndexSchema.

Record IndexSchema := { fields_ : gmap string FieldDefinition }.

Definition needs_analyzer (field : FieldDefinition) : bool :=
  fd_indexed field && (bool_decide (fd_type field = ft_text) ||
                       bool_decide (fd_type field = ft_keyword)).

(** One round of the loop of [create]. *)
Definition add_field (fields : gmap string FieldDefinition) (field : FieldDefinition)
    : expected SchemaError (gmap string FieldDefinition) :=
  if str_eqb (fd_name field) "" then
    Err {| schema_code := empty_field_name; schema_field := "";
           schema_message := "field name must not be empty" |}
  else if negb (d_finite (fd_boost field)) || d_ltb (fd_boost field) d_zero then
    Err {| schema_code := invalid_boost; schema_field := fd_name field;
           schema_message := "field boost must be finite and non-negative" |}
  else if needs_analyzer field && bool_decide (fd_analyzer field = None) then
    Err {| schema_code := missing_analyzer; schema_field := fd_name field;
           schema_message := "indexed text and keyword fields require an analyzer" |}
  else if negb (needs_analyzer field) && negb (bool_decide (fd_analyzer field = None)) then
    Err {| schema_code := unexpected_analyzer; schema_field := fd_name field;
           schema_message := "typed or unindexed fields must not have an analyzer" |}
  else
    match fields !! fd_name field with
    | Some _ =>
        Err {| schema_code := duplicate_field; schema_field := fd_name field;
               schema_message := "field appears more than once in schema" |}
    | None => Ok (<[fd_name field := field]> fields)
    end.

Fixpoint create_loop (fields : gmap string FieldDefinition) (definitions : list FieldDefinition)
    : expected SchemaError (gmap string FieldDefinition) :=
  match definitions with
  | [] => Ok fields
  | field :: rest => fields' ← add_field fields field; create_loop fields' rest
  end.

Definition create (definitions : list FieldDefinition) : expected SchemaError IndexSchema :=
  fields ← create_loop ∅ definitions; Ok {| fields_ := fields |}.

Definition default_definitions : list FieldDefinition :=
  let standard := StandardAnalyzer.make ∅ in
  let keyword := KeywordAnalyzer.make in
  [{| fd_name := "title"; fd_type := ft_text; fd_indexed := true; fd_stored := true;
      fd_boost := d_one; fd_analyzer := Some standard |};
   {| fd_name := "body"; fd_type := ft_text; fd_indexed := true; fd_stored := true;
      fd_boost := d_one; fd_analyzer := Some standard |};
   {| fd_name := "tags"; fd_type := ft_keyword; fd_indexed := true; fd_stored := true;
      fd_boost := d_one; fd_analyzer := Some keyword |};
   {| fd_name := "timestamp"; fd_type := ft_timestamp; fd_indexed := false; fd_stored := true;
      fd_boost := d_one; fd_analyzer := None |}].

(** [std::move(schema).value()]: [default_schema_ok] shows it is a value. *)
Definition default_schema : IndexSchema :=
  match create default_definitions with Ok schema => schema | Err _ => {| fields_ := ∅ |} end.

Definition find (schema : IndexSchema) (field : string) : option FieldDefinition :=
  fields_ schema !! field.

Definition validate_value (schema : IndexSchema) (field value : string)
    : expected SchemaError unit :=
  match find schema field with
  | None =>
      Err {| schema_code := unknown_field; schema_field := field;
             schema_message := "field is not declared in schema" |}
  | Some definition =>
      match fd_type definition with
      | ft_int64 =>
          if str_eqb value "" || bool_decide (parse_i64 value = None) then
            Err {| schema_code := invalid_typed_value; schema_field := field;
                   schema_message := "value is not a valid int64" |}
          else Ok tt
      | ft_timestamp =>
          if valid_iso_date value then Ok tt
          else Err {| schema_code := invalid_typed_value; schema_field := field;
                      schema_message := "timestamp must use a valid YYYY-MM-DD date" |}
      | ft_text | ft_keyword => Ok tt
      end
  end.

End IndexSchema.

Notation IndexSchema := IndexSchema.IndexSchema.

(** ** Specifications *)

(** A calendar date and its YYYY-MM-DD text *)
Definition calendar_date (year month day : Z) : Prop :=
  1 <= year <= 9999 /\ 1 <= month <= 12 /\ 1 <= day <= maximum_day year month.

Definition iso_date (year month day : Z) : string :=
  digits_fixed 4 year +:+ "-" +:+ digits_fixed 2 month +:+ "-" +:+ digits_fixed 2 day.

(** What a definition must satisfy to be part of a schema. *)
Definition field_ok (field : FieldDefinition) : Prop :=
  fd_name field <> "" /\ d_finite (fd_boost field) = true /\
  d_ltb (fd_boost field) d_zero = false /\
  (IndexSchema.needs_analyzer field = true <-> is_Some (fd_analyzer field)).

Definition schema_ok (schema : IndexSchema) : Prop :=
  forall name field, IndexSchema.find schema name = Some field ->
    fd_name field = name /\ field_ok field.

(** ** Lemmas *)

Lemma whole_signed_positive lo hi s v : whole (from_chars_signed lo hi s) = Some v -> 1 <= v ->
  str_forallb is_digit s = true /\ v = digits_value 0 s.
Proof.
  unfold from_chars_signed. intros H Hv.
  assert (Hdig : forall t, str_forallb is_digit t = true -> 0 <= digits_value 0 t).
  { intros t Ht. pose proof (digits_fixed_of_digits (String.length t) t eq_refl Ht). lia. }
  assert (Hpos : forall t, match span is_digit t with (ds, rest) =>
      match ds with EmptyString => fc_invalid | _ =>
        if (lo <=? digits_value 0 ds) && (digits_value 0 ds <=? hi)
        then fc_ok (digits_value 0 ds) rest else fc_range rest end end = fc_ok v "" ->
      str_forallb is_digit t = true /\ v = digits_value 0 t).
  { intros t Ht. destruct (span is_digit t) as [ds rest] eqn:E.
    apply span_app in E as (-> & Hd & _). destruct ds as [|c ds]; [done|].
    destruct (_ && _); [|done]. injection Ht as <- ->. by rewrite str_app_nil_r. }
  destruct s as [|c s]; [done|].
  destruct (ascii_dec c "-") as [->|Hc].
  - destruct (span is_digit s) as [ds rest] eqn:E. apply span_app in E as (-> & Hd & _).
    specialize (Hdig _ Hd). destruct ds as [|d ds]; [done|].
    destruct (_ && _); [|done]. destruct rest; [|done]. injection H as <-. cbn [digits_value] in Hdig. lia.
  - apply Hpos. destruct (span is_digit (String c s)) as [ds rest].
    destruct ds as [|d ds]; [done|]. destruct (_ && _); [|done]. destruct rest; [|done].
    by injection H as <-.
Qed.

Lemma whole_signed_digits lo hi s : str_forallb is_digit s = true -> s <> "" ->
  lo <= digits_value 0 s <= hi -> whole (from_chars_signed lo hi s) = Some (digits_value 0 s).
Proof.
  intros Hd Hne Hr. unfold from_chars_signed. destruct s as [|c s]; [done|].
  assert (c <> "-"%char) by (apply digit_not_minus; by eapply forallb_negb_first).
  destruct (ascii_dec c "-"); [done|].
  rewrite <- (str_app_nil_r (String c s)), span_exact by done. rewrite str_app_nil_r.
  destruct (Z.leb_spec lo (digits_value 0 (String c s))),
    (Z.leb_spec (digits_value 0 (String c s)) hi); try lia. done.
Qed.

Lemma maximum_day_range year month : 1 <= month <= 12 -> 1 <= maximum_day year month <= 31.
Proof.
  intros H. unfold maximum_day.
  assert (month ∈ [1;2;3;4;5;6;7;8;9;10;11;12]) as Hin by (rewrite !elem_of_cons; lia).
  destruct ((month =? 2) && leap_year year); [lia|].
  repeat (apply elem_of_cons in Hin as [->|Hin]; [by vm_compute|]).
  by apply not_elem_of_nil in Hin.
Qed.

(** The ten characters of a date, cut at the two dashes. *)
Lemma date_cut value : zstrlen value = 10 -> char_at value 4 = Some "-"%char ->
  char_at value 7 = Some "-"%char ->
  value = str_take 4 (str_drop 0 value) +:+ "-" +:+ str_take 2 (str_drop 5 value) +:+ "-" +:+
          str_take 2 (str_drop 8 value) /\
  String.length (str_take 4 (str_drop 0 value)) = 4%nat /\
  String.length (str_take 2 (str_drop 5 value)) = 2%nat /\
  String.length (str_take 2 (str_drop 8 value)) = 2%nat.
Proof.
  unfold zstrlen, char_at. intros Hl H4 H7.
  do 10 (destruct value as [|? value]; [cbn in Hl; lia|]).
  destruct value as [|? value]; [|cbn in Hl; lia].
  cbn in H4, H7. injection H4 as ->. injection H7 as ->. done.
Qed.

Lemma date_digits_positive s w v :
  whole (from_chars_signed (-2147483648) 2147483647 s) = Some v -> 1 <= v ->
  String.length s = w -> s = digits_fixed w v /\ v < 10 ^ Z.of_nat w.
Proof.
  intros H Hv Hl. apply whole_signed_positive in H as [Hd ->]; [|done].
  destruct (digits_fixed_of_digits w s Hl Hd). split; [done|lia].
Qed.

Lemma date_digits_fixed w v : (0 < w)%nat -> (w <= 4)%nat -> 0 <= v < 10 ^ Z.of_nat w ->
  whole (from_chars_signed (-2147483648) 2147483647 (digits_fixed w v)) = Some v.
Proof.
  intros Hw Hw4 Hv. rewrite whole_signed_digits; rewrite ?digits_fixed_value; try done.
  - apply digits_fixed_digits.
  - intros E. apply (f_equal String.length) in E. rewrite length_digits_fixed in E. cbn in E. lia.
  - assert (10 ^ Z.of_nat w <= 10 ^ 4) by (apply Z.pow_le_mono_r; lia).
    change (10 ^ 4) with 10000 in *. lia.
Qed.

Lemma valid_iso_date_sound value : valid_iso_date value = true ->
  exists y m d, calendar_date y m d /\ value = iso_date y m d.
Proof.
  unfold valid_iso_date. intros H.
  destruct (Z.eqb_spec (zstrlen value) 10) as [Hl|]; [|done]. cbn [negb orb] in H.
  case_bool_decide as H4; [|done]. case_bool_decide as H7; [|done]. cbn [negb orb] in H.
  destruct (date_cut value Hl H4 H7) as (E & L1 & L2 & L3).
  unfold date_digits in H.
  destruct (whole (from_chars_signed _ _ (str_take 4 _))) as [y|] eqn:Ey; [|done].
  destruct (whole (from_chars_signed _ _ (str_take 2 (str_drop 5 value)))) as [m|] eqn:Em; [|done].
  destruct (whole (from_chars_signed _ _ (str_take 2 (str_drop 8 value)))) as [d|] eqn:Ed; [|done].
  destruct (Z.ltb_spec y 1); [done|]. destruct (Z.ltb_spec m 1); [done|].
  destruct (Z.gtb_spec m 12); [done|]. cbn [orb] in H.
  apply andb_prop in H as [Hd1%Z.leb_le Hd2%Z.leb_le].
  apply (date_digits_positive _ 4) in Ey as [Ey Hy]; [|lia|done].
  apply (date_digits_positive _ 2) in Em as [Em Hm]; [|lia|done].
  apply (date_digits_positive _ 2) in Ed as [Ed Hd]; [|lia|done].
  exists y, m, d. split.
  - unfold calendar_date. change (10 ^ Z.of_nat 4) with 10000 in Hy. lia.
  - unfold iso_date. rewrite E. by rewrite Ey, Em, Ed.
Qed.

Lemma iso_date_parts y m d :
  zstrlen (iso_date y m d) = 10 /\ char_at (iso_date y m d) 4 = Some "-"%char /\
  char_at (iso_date y m d) 7 = Some "-"%char /\
  str_take 4 (str_drop 0 (iso_date y m d)) = digits_fixed 4 y /\
  str_take 2 (str_drop 5 (iso_date y m d)) = digits_fixed 2 m /\
  str_take 2 (str_drop 8 (iso_date y m d)) = digits_fixed 2 d.
Proof. unfold iso_date. cbn [digits_fixed String.append]. by split_and!. Qed.

Lemma valid_iso_date_complete y m d : calendar_date y m d -> valid_iso_date (iso_date y m d) = true.
Proof.
  intros (Hy & Hm & Hd). pose proof (maximum_day_range y m Hm).
  destruct (iso_date_parts y m d) as (Hl & H4 & H7 & E1 & E2 & E3).
  unfold valid_iso_date, date_digits. rewrite Hl, H4, H7, E1, E2, E3.
  rewrite !date_digits_fixed by (cbn; lia).
  rewrite !bool_decide_eq_true_2 by done. cbn [negb orb Z.eqb].
  destruct (Z.ltb_spec y 1); [lia|]. destruct (Z.ltb_spec m 1); [lia|].
  destruct (Z.gtb_spec m 12); [lia|]. cbn.
  apply andb_true_intro. split; apply Z.leb_le; lia.
Qed.

Definition date_compare (y1 m1 d1 y2 m2 d2 : Z) : comparison :=
  match y1 ?= y2 with Eq => match m1 ?= m2 with Eq => d1 ?= d2 | r => r end | r => r end.

Lemma iso_date_compare y1 m1 d1 y2 m2 d2 :
  calendar_date y1 m1 d1 -> calendar_date y2 m2 d2 ->
  String.compare (iso_date y1 m1 d1) (iso_date y2 m2 d2) = date_compare y1 m1 d1 y2 m2 d2.
Proof.
  intros (Hy1 & Hm1 & Hd1) (Hy2 & Hm2 & Hd2).
  pose proof (maximum_day_range y1 m1 Hm1). pose proof (maximum_day_range y2 m2 Hm2).
  assert (10 ^ Z.of_nat 4 = 10000) by done. assert (10 ^ Z.of_nat 2 = 100) by done.
  unfold iso_date, date_compare.
  rewrite str_compare_app by by rewrite !length_digits_fixed.
  rewrite digits_fixed_compare by lia. destruct (y1 ?= y2); [|done..].
  rewrite str_compare_app, str_compare_refl by done.
  rewrite str_compare_app by by rewrite !length_digits_fixed.
  rewrite digits_fixed_compare by lia. destruct (m1 ?= m2); [|done..].
  rewrite str_compare_app, str_compare_refl by done.
  by rewrite digits_fixed_compare by lia.
Qed.

Lemma add_field_Ok fields field fields' :
  IndexSchema.add_field fields field = Ok fields' <->
  field_ok field /\ fields !! fd_name field = None /\ fields' = <[fd_name field := field]> fields.
Proof.
  unfold IndexSchema.add_field, field_ok, str_eqb.
  destruct (decide (fd_name field = "")) as [En|En].
  { rewrite bool_decide_eq_true_2 by done. split; [done|]. by intros ((? & _) & _). }
  rewrite bool_decide_eq_false_2 by done.
  destruct (d_finite (fd_boost field)) eqn:Ef; cbn [negb orb].
  2:{ split; [done|]. by intros ((_ & ? & _) & _). }
  destruct (d_ltb (fd_boost field) d_zero) eqn:El.
  { split; [done|]. by intros ((_ & _ & ? & _) & _). }
  destruct (IndexSchema.needs_analyzer field) eqn:Ea, (fd_analyzer field) as [a|] eqn:Ean;
    cbn [andb negb]; rewrite ?bool_decide_eq_true_2, ?bool_decide_eq_false_2 by done; cbn [negb].
  - destruct (fields !! fd_name field) eqn:Efl.
    + split; [done|]. by intros (_ & ? & _).
    + split; [intros [= <-]|by intros (_ & _ & ->)]. split_and!; try done.
  - split; [done|]. intros ((_ & _ & _ & [Hx _]) & _). by destruct Hx.
  - split; [done|]. intros ((_ & _ & _ & [_ Hx]) & _). by discriminate Hx.
  - destruct (fields !! fd_name field) eqn:Efl.
    + split; [done|]. by intros (_ & ? & _).
    + split; [intros [= <-]|by intros (_ & _ & ->)]. split_and!; try done.
Qed.

Lemma create_loop_Ok definitions : forall fields fields',
  IndexSchema.create_loop fields definitions = Ok fields' <->
  Forall field_ok definitions /\ NoDup (fd_name <$> definitions) /\
  (forall f, f ∈ definitions -> fields !! fd_name f = None) /\
  fields' = foldl (fun m f => <[fd_name f := f]> m) fields definitions.
Proof.
  induction definitions as [|f fs IH]; intros fields fields'; cbn [IndexSchema.create_loop].
  - split; [intros [= <-]|by intros (_ & _ & _ & ->)].
    split_and!; [done|constructor|by intros ? ?%not_elem_of_nil|done].
  - rewrite bind_Ok. cbn [fmap list_fmap foldl].
    rewrite Forall_cons, NoDup_cons. split.
    + intros (m & (Hok & Hn & ->)%add_field_Ok & (Hall & Hnd & Hfresh & ->)%IH).
      split_and!; try done.
      * intros (g & Eg & Hg)%list_elem_of_fmap. specialize (Hfresh g Hg).
        rewrite <- Eg, lookup_insert_eq in Hfresh. done.
      * intros g [->|Hg]%elem_of_cons; [done|]. specialize (Hfresh g Hg).
        by apply lookup_insert_None in Hfresh as [? _].
    + intros ((Hok & Hall) & (Hnin & Hnd) & Hfresh & ->).
      exists (<[fd_name f := f]> fields). split.
      * apply add_field_Ok. split_and!; [done| |done]. apply Hfresh. by left.
      * apply IH. split_and!; try done. intros g Hg. apply lookup_insert_None. split.
        -- apply Hfresh. by right.
        -- intros E. apply Hnin. rewrite E. by apply list_elem_of_fmap_2.
Qed.

Lemma foldl_insert_lookup definitions : forall (fields : gmap string FieldDefinition) name,
  NoDup (fd_name <$> definitions) ->
  foldl (fun m f => <[fd_name f := f]> m) fields definitions !! name =
  match list_find (fun f => fd_name f = name) definitions with
  | Some (_, f) => Some f
  | None => fields !! name
  end.
Proof.
  induction definitions as [|f fs IH]; intros fields name Hnd; [done|].
  cbn [fmap list_fmap] in Hnd. apply NoDup_cons in Hnd as [Hnin Hnd].
  cbn [foldl list_find]. rewrite IH by done. case_decide as E.
  - destruct (list_find (fun f0 => fd_name f0 = name) fs) as [[i g]|] eqn:Eg.
    + apply list_find_Some in Eg as (Hg & Eg & _). exfalso. apply Hnin.
      rewrite E, <- Eg. apply list_elem_of_fmap_2. by eapply list_elem_of_lookup_2.
    + cbn. rewrite <- E. by rewrite lookup_insert_eq.
  - destruct (list_find (fun f0 => fd_name f0 = name) fs) as [[i g]|]; cbn; [done|].
    by rewrite lookup_insert_ne.
Qed.

Lemma create_find definitions schema name field :
  IndexSchema.create definitions = Ok schema ->
  IndexSchema.find schema name = Some field <-> field ∈ definitions /\ fd_name field = name.
Proof.
  intros (fields & (Hall & Hnd & _ & ->)%create_loop_Ok & [= <-])%bind_Ok.
  unfold IndexSchema.find. cbn [IndexSchema.fields_].
  rewrite foldl_insert_lookup by done. split.
  - destruct (list_find _ definitions) as [[i g]|] eqn:E; [|done]. intros [= <-].
    apply list_find_Some in E as (Hg & Eg & _).
    split; [by eapply list_elem_of_lookup_2|done].
  - intros [Hin <-].
    destruct (list_find (fun f => fd_name f = fd_name field) definitions) as [[i g]|] eqn:E.
    + apply list_find_Some in E as (Hg & Eg & _).
      apply list_elem_of_lookup_1 in Hin as [j Hj].
      assert (i = j) as <-; [|congruence].
      apply (NoDup_lookup (fd_name <$> definitions) i j (fd_name field));
        [done|rewrite list_lookup_fmap, Hg; cbn; congruence|by rewrite list_lookup_fmap, Hj].
    + exfalso. apply list_find_None in E. rewrite Forall_forall in E. by apply (E field).
Qed.

Lemma create_schema_ok definitions schema :
  IndexSchema.create definitions = Ok schema -> schema_ok schema.
Proof.
  intros H name field Hf. apply (create_find _ _ _ _ H) in Hf as [Hin <-].
  split; [done|]. revert H. intros (fields & (Hall & _)%create_loop_Ok & _)%bind_Ok.
  rewrite Forall_forall in Hall. by apply Hall.
Qed.

Lemma create_Ok_iff definitions :
  is_Ok (IndexSchema.create definitions) = true <->
  Forall field_ok definitions /\ NoDup (fd_name <$> definitions).
Proof.
  unfold IndexSchema.create. split.
  - destruct (IndexSchema.create_loop ∅ definitions) as [fields|] eqn:E; [|done].
    by apply create_loop_Ok in E as (? & ? & _).
  - intros [Hall Hnd].
    assert (IndexSchema.create_loop ∅ definitions =
      Ok (foldl (fun m f => <[fd_name f := f]> m) ∅ definitions)) as ->; [|done].
    by apply create_loop_Ok.
Qed.

Lemma default_schema_ok :
  IndexSchema.create IndexSchema.default_definitions = Ok IndexSchema.default_schema.
Proof.
  assert (H : is_Ok (IndexSchema.create IndexSchema.default_definitions) = true).
  { apply create_Ok_iff. split; [|apply (bool_decide_unpack _); by vm_compute].
    repeat constructor; cbn; try done; try (intros; by eexists); by intros [? ?]. }
  unfold IndexSchema.default_schema. by destruct (IndexSchema.create _).
Qed.

Lemma default_schema_is_ok : schema_ok IndexSchema.default_schema.
Proof. eapply create_schema_ok, default_schema_ok. Qed.

(** ** Properties *)

(**  A value of a timestamp field is accepted exactly when it is the
    YYYY-MM-DD text of a calendar date (year 1 to 9999, leap years included),
    and on such texts the byte comparison used by range filters is the
    chronological order. *)
Theorem timestamp_values (value : string) :
  (valid_iso_date value = true <->
   exists y m d, calendar_date y m d /\ value = iso_date y m d) /\
  forall y1 m1 d1 y2 m2 d2, calendar_date y1 m1 d1 -> calendar_date y2 m2 d2 ->
    str_leb (iso_date y1 m1 d1) (iso_date y2 m2 d2) = true <->
    date_compare y1 m1 d1 y2 m2 d2 <> Gt.
Proof.
  split; [split|].
  - apply valid_iso_date_sound.
  - intros (y & m & d & Hd & ->). by apply valid_iso_date_complete.
  - intros. by rewrite str_leb_compare, iso_date_compare.
Qed.

Lemma timestamp_values_witness :
  str_leb (iso_date 2024 2 29) (iso_date 2026 9 6) = true /\ valid_iso_date "2023-02-29" = false.
Proof.
  split; [|by vm_compute].
  apply (timestamp_values ""); [vm_compute; intuition discriminate..|]. by vm_compute.
Defined.

(**  [IndexSchema::create] succeeds exactly on well-formed definitions
    with distinct names, and the schema then finds each definition under its
    own name and nothing else; in particular exactly the indexed text and
    keyword fields own an analyzer. *)
Theorem schema_create_spec definitions :
  (is_Ok (IndexSchema.create definitions) = true <->
   Forall field_ok definitions /\ NoDup (fd_name <$> definitions)) /\
  forall schema, IndexSchema.create definitions = Ok schema ->
    schema_ok schema /\
    forall name field, IndexSchema.find schema name = Some field <->
      field ∈ definitions /\ fd_name field = name.
Proof.
  split; [apply create_Ok_iff|]. intros schema H. split.
  - by eapply create_schema_ok.
  - intros. by apply create_find.
Qed.

Lemma schema_create_spec_witness :
  schema_ok IndexSchema.default_schema /\
  IndexSchema.create (IndexSchema.default_definitions ++ IndexSchema.default_definitions)
    = Err {| schema_code := duplicate_field; schema_field := "title";
             schema_message := "field appears more than once in schema" |}.
Proof.
  split; [|by vm_compute].
  apply (proj2 (schema_create_spec IndexSchema.default_definitions)
    IndexSchema.default_schema default_schema_ok).
Defined.
