(* ===== verification/Types.v ===== *)
(** * Identifiers and documents

    include/dse/types.hpp and include/dse/document.hpp.  The strong identifier
    types are kept apart by their C++ tags; their values are a string
    ([DocumentId], [NodeId]), a 32-bit ([InternalDocumentId], [ShardId]) or a
    64-bit integer ([SegmentId], [GenerationId]), compared as such. *)

From S2P Require Import Prelude.

Notation DocumentId := string (only parsing).
Notation NodeId := string (only parsing).
Notation InternalDocumentId := Z (only parsing).
Notation ShardId := Z (only parsing).
Notation SegmentId := Z (only parsing).
Notation GenerationId := Z (only parsing).

Record Document := {
  doc_id : DocumentId;
  doc_fields : gmap string string;
  doc_stored_metadata : gmap string string;
  doc_version : Z;
  doc_deleted : bool
}.

#[export] Instance Document_eq_dec : EqDecision Document.
Proof. solve_decision. Defined.

(** The tombstone that [erase] puts. *)
Definition tombstone (id : DocumentId) (version : Z) : Document :=
  {| doc_id := id; doc_fields := ∅; doc_stored_metadata := ∅; doc_version := version;
     doc_deleted := true |}.
