(* ===== verification/Index.v ===== *)
(** * The in-memory inverted index: data and operations

    include/dse/index/search_index_view.hpp, include/dse/index/in_memory_index.hpp
    and src/index/in_memory_index.cpp.  [InMemoryIndex.put] returns the index
    after the final swaps, or the error; the four containers are only written
    by those swaps, so after an error the caller still has the old index. *)

From S2P Require Import Prelude Text Doubles Analysis Schema Types.
From Stdlib Require Import SpecFloat.

(** ** search_index_view.hpp *)

Record Posting := {
  posting_document_id : Z;
  term_frequency : Z;
  positions : list Z
}.

Record TermEntry := {
  document_frequency : Z;
  postings : list Posting
}.

Record DocumentRecord := {
  internal_id : Z;
  document : Document;
  field_lengths : gmap string Z;
  indexed_terms : gmap string (list string)
}.

Record FieldStatistics := {
  fs_document_count : Z;
  fs_total_length : Z;
  fs_average_length : double
}.

#[export] Instance Posting_eq_dec : EqDecision Posting.
Proof. solve_decision. Defined.
#[export] Instance TermEntry_eq_dec : EqDecision TermEntry.
Proof. solve_decision. Defined.
#[export] Instance DocumentRecord_eq_dec : EqDecision DocumentRecord.
Proof. solve_decision. Defined.

Notation TermDictionary := (gmap string TermEntry).
Notation FieldDictionaries := (gmap string (gmap string TermEntry)).
Notation DocumentRecords := (gmap string DocumentRecord).
Notation ExternalIdMap := (gmap Z string).

(** The virtual class: what a query needs of an index. *)
Record SearchIndexView := {
  view_lookup : string -> string -> option TermEntry;
  view_document : DocumentId -> option DocumentRecord;
  view_document_internal : InternalDocumentId -> option DocumentRecord;
  view_internal_id : DocumentId -> option InternalDocumentId;
  view_external_id : InternalDocumentId -> option DocumentId;
  view_live_document_ids : list InternalDocumentId;
  view_live_document_count : Z;
  view_field_statistics : string -> FieldStatistics;
  view_schema : IndexSchema
}.

Record IndexSnapshot := {
  snap_schema : IndexSchema;
  snap_fields : FieldDictionaries;
  snap_documents : DocumentRecords;
  snap_external_ids : ExternalIdMap;
  snap_statistics : gmap string FieldStatistics
}.

(** ** in_memory_index.hpp *)

(** [null_analyzer] is not an error of the source: it is the outcome of a call
    through a null analyzer pointer, which the language leaves undefined. *)
Inductive IndexErrorCode :=
| empty_document_id | stale_version | schema_error | internal_id_exhausted
| analysis_failed | field_length_overflow
| null_analyzer.

Record IndexError := {
  index_code : IndexErrorCode;
  index_message : string;
  index_schema_error : option SchemaError
}.

Record FieldAccumulator := { acc_document_count : Z; acc_total_length : Z }.

#[export] Instance FieldAccumulator_eq_dec : EqDecision FieldAccumulator.
Proof. solve_decision. Defined.

Definition posting_le (p q : Posting) : Prop := posting_document_id p <= posting_document_id q.

#[export] Instance posting_le_dec : RelDecision posting_le.
Proof. intros p q. unfold posting_le. apply _. Defined.
#[export] Instance posting_le_trans : Transitive posting_le.
Proof. intros p q r. unfold posting_le. lia. Qed.
#[export] Instance posting_le_total : Total posting_le.
Proof. intros p q. unfold posting_le. lia. Qed.

Module InMemoryIndex.

Record InMemoryIndex := {
  schema_ : IndexSchema;
  fields_ : FieldDictionaries;
  documents_ : DocumentRecords;
  external_ids_ : ExternalIdMap;
  field_statistics_ : gmap string FieldAccumulator;
  next_internal_id_ : Z;
  maximum_internal_id_ : Z
}.

Definition make (schema : IndexSchema) (maximum_internal_id : Z) : InMemoryIndex :=
  {| schema_ := schema; fields_ := ∅; documents_ := ∅; external_ids_ := ∅;
     field_statistics_ := ∅; next_internal_id_ := 1;
     maximum_internal_id_ := maximum_internal_id |}.

(** *** Queries *)

Definition lookup (index : InMemoryIndex) (field term : string) : option TermEntry :=
  match fields_ index !! field with None => None | Some dictionary => dictionary !! term end.

Definition find_document (index : InMemoryIndex) (id : DocumentId) : option DocumentRecord :=
  documents_ index !! id.

Definition external_id (index : InMemoryIndex) (id : InternalDocumentId) : option DocumentId :=
  external_ids_ index !! id.

Definition document_internal (index : InMemoryIndex) (id : InternalDocumentId)
    : option DocumentRecord :=
  match external_id index id with None => None | Some external => find_document index external end.

Definition internal_id_of (index : InMemoryIndex) (id : DocumentId) : option InternalDocumentId :=
  internal_id <$> documents_ index !! id.

Definition is_live (record : DocumentRecord) : bool := negb (doc_deleted (document record)).

Definition live_document_ids (index : InMemoryIndex) : list InternalDocumentId :=
  omap (fun '(id, external) =>
    match find_document index external with
    | Some record => if is_live record then Some id else None
    | None => None
    end) (map_items (external_ids_ index)).

Definition live_document_count (index : InMemoryIndex) : Z :=
  zlen (filter (fun item => is_live item.2 = true) (map_items (documents_ index))).

Definition statistics_of (accumulator : FieldAccumulator) : FieldStatistics :=
  {| fs_document_count := acc_document_count accumulator;
     fs_total_length := acc_total_length accumulator;
     fs_average_length := d_div (d_of_Z (acc_total_length accumulator))
                                (d_of_Z (acc_document_count accumulator)) |}.

Definition field_statistics (index : InMemoryIndex) (field : string) : FieldStatistics :=
  match field_statistics_ index !! field with
  | None => {| fs_document_count := 0; fs_total_length := 0; fs_average_length := d_zero |}
  | Some statistic => statistics_of statistic
  end.

Definition snapshot (index : InMemoryIndex) : IndexSnapshot :=
  {| snap_schema := schema_ index; snap_fields := fields_ index;
     snap_documents := documents_ index; snap_external_ids := external_ids_ index;
     snap_statistics := statistics_of <$> field_statistics_ index |}.

Definition view (index : InMemoryIndex) : SearchIndexView :=
  {| view_lookup := lookup index;
     view_document := find_document index;
     view_document_internal := document_internal index;
     view_internal_id := internal_id_of index;
     view_external_id := external_id index;
     view_live_document_ids := live_document_ids index;
     view_live_document_count := live_document_count index;
     view_field_statistics := field_statistics index;
     view_schema := schema_ index |}.

(** *** [put], part by part *)

Definition reject (code : IndexErrorCode) (message : string) : IndexError :=
  {| index_code := code; index_message := message; index_schema_error := None |}.

Definition reject_schema (e : SchemaError) : IndexError :=
  {| index_code := schema_error; index_message := schema_message e;
     index_schema_error := Some e |}.

(** The two validation loops: over [fields] with [indexed], over
    [stored_metadata] with [stored]. *)
Definition validate_entry (schema : IndexSchema) (allowed : FieldDefinition -> bool)
    (denied : SchemaErrorCode) (message : string) (entry : string * string)
    : expected IndexError unit :=
  let '(field, value) := entry in
  match IndexSchema.validate_value schema field value with
  | Err e => Err (reject_schema e)
  | Ok _ =>
      match IndexSchema.find schema field with
      | Some definition =>
          if allowed definition then Ok tt
          else Err (reject_schema {| schema_code := denied; schema_field := field;
                                     schema_message := message |})
      | None => Ok tt (* not reached: [validate_value] found the field *)
      end
  end.

Definition validate_fields (schema : IndexSchema) (document_value : Document)
    : expected IndexError unit :=
  check_each (validate_entry schema fd_indexed field_not_indexed
      "field is not configured for indexing") (map_items (doc_fields document_value)).

Definition validate_metadata (schema : IndexSchema) (document_value : Document)
    : expected IndexError unit :=
  check_each (validate_entry schema fd_stored field_not_stored
      "field is not configured for stored metadata")
    (map_items (doc_stored_metadata document_value)).

(** [for (const auto& token : tokens) positions[token.term].push_back(token.position)] *)
Definition collect_positions (tokens : list Token) : gmap string (list Z) :=
  foldl (fun m token =>
    <[term token := default [] (m !! term token) ++ [position token]]> m) ∅ tokens.

Record Prepared := {
  prepared_postings : gmap string (gmap string (list Z));
  prepared_lengths : gmap string Z;
  prepared_terms : gmap string (list string)
}.

Definition prepare_field (schema : IndexSchema) (prepared : Prepared) (entry : string * string)
    : expected IndexError Prepared :=
  let '(field, text) := entry in
  match IndexSchema.find schema field with
  | None => Ok prepared
  | Some definition =>
      if negb (fd_indexed definition) then Ok prepared
      else
        match fd_analyzer definition with
        | None => Err (reject null_analyzer "")
        | Some analyzer =>
            match analyze analyzer text with
            | Err what => Err (reject analysis_failed ("document analysis failed: " +:+ what))
            | Ok tokens =>
                if zlen tokens >? u32_max then
                  Err (reject field_length_overflow "analyzed field length exceeds uint32 range")
                else
                  let collected := collect_positions tokens in
                  Ok {| prepared_postings := <[field := collected]> (prepared_postings prepared);
                        prepared_lengths := <[field := zlen tokens]> (prepared_lengths prepared);
                        prepared_terms :=
                          <[field := (map_items collected).*1]> (prepared_terms prepared) |}
            end
        end
  end.

Definition no_postings : Prepared :=
  {| prepared_postings := ∅; prepared_lengths := ∅; prepared_terms := ∅ |}.

Definition prepare (schema : IndexSchema) (document_value : Document)
    : expected IndexError Prepared :=
  if doc_deleted document_value then Ok no_postings
  else fold_each (prepare_field schema) no_postings (map_items (doc_fields document_value)).

Definition remove_statistic (statistics : gmap string FieldAccumulator) (entry : string * Z)
    : gmap string FieldAccumulator :=
  let '(field, length) := entry in
  match statistics !! field with
  | None => statistics
  | Some statistic =>
      let count := wrap64 (acc_document_count statistic - 1) in
      let total := wrap64 (acc_total_length statistic - length) in
      if count =? 0 then delete field statistics
      else <[field := {| acc_document_count := count; acc_total_length := total |}]> statistics
  end.

Definition remove_term (id : Z) (dictionary : TermDictionary) (term : string) : TermDictionary :=
  match dictionary !! term with
  | None => dictionary
  | Some entry =>
      let kept := filter (fun p => posting_document_id p <> id) (postings entry) in
      match kept with
      | [] => delete term dictionary
      | _ => <[term := {| document_frequency := wrap32 (zlen kept); postings := kept |}]> dictionary
      end
  end.

Definition remove_field_terms (id : Z) (fields : FieldDictionaries)
    (entry : string * list string) : FieldDictionaries :=
  let '(field, terms) := entry in
  match fields !! field with
  | None => fields
  | Some dictionary =>
      let dictionary' := foldl (remove_term id) dictionary terms in
      if decide (dictionary' = ∅) then delete field fields else <[field := dictionary']> fields
  end.

Definition add_posting (id : Z) (dictionary : TermDictionary) (item : string * list Z)
    : TermDictionary :=
  let '(term, term_positions) := item in
  let old := match dictionary !! term with Some entry => postings entry | None => [] end in
  let posting := {| posting_document_id := id;
                    term_frequency := wrap32 (zlen term_positions);
                    positions := term_positions |} in
  let sorted := merge_sort posting_le (old ++ [posting]) in
  <[term := {| document_frequency := wrap32 (zlen sorted); postings := sorted |}]> dictionary.

(** [staged_fields[field][term]] creates the dictionary when it is missing,
    but only once a term is reached. *)
Definition add_field_postings (id : Z) (fields : FieldDictionaries)
    (entry : string * gmap string (list Z)) : FieldDictionaries :=
  let '(field, terms) := entry in
  match map_items terms with
  | [] => fields
  | items => <[field := foldl (add_posting id) (default ∅ (fields !! field)) items]> fields
  end.

Definition add_statistic (statistics : gmap string FieldAccumulator) (entry : string * Z)
    : gmap string FieldAccumulator :=
  let '(field, length) := entry in
  let old := default {| acc_document_count := 0; acc_total_length := 0 |} (statistics !! field) in
  <[field := {| acc_document_count := wrap64 (acc_document_count old + 1);
                acc_total_length := wrap64 (acc_total_length old + length) |}]> statistics.

Definition remove_document (existing : option DocumentRecord) (id : Z)
    (fields : FieldDictionaries) (statistics : gmap string FieldAccumulator)
    : FieldDictionaries * gmap string FieldAccumulator :=
  match existing with
  | Some record =>
      if is_live record then
        (foldl (remove_field_terms id) fields (map_items (indexed_terms record)),
         foldl remove_statistic statistics (map_items (field_lengths record)))
      else (fields, statistics)
  | None => (fields, statistics)
  end.

Definition add_document (record : DocumentRecord) (prepared : Prepared)
    (fields : FieldDictionaries) (statistics : gmap string FieldAccumulator)
    : FieldDictionaries * gmap string FieldAccumulator :=
  if is_live record then
    (foldl (add_field_postings (internal_id record)) fields (map_items (prepared_postings prepared)),
     foldl add_statistic statistics (map_items (field_lengths record)))
  else (fields, statistics).

Definition allocate (index : InMemoryIndex) (existing : option DocumentRecord)
    : expected IndexError Z :=
  match existing with
  | Some record => Ok (internal_id record)
  | None =>
      if (next_internal_id_ index =? 0) || (next_internal_id_ index >? maximum_internal_id_ index)
      then Err (reject internal_id_exhausted "segment-local document ID space is exhausted")
      else Ok (next_internal_id_ index)
  end.

(** From the staged copies to the swaps. *)
Definition publish (index : InMemoryIndex) (existing : option DocumentRecord)
    (record : DocumentRecord) (prepared : Prepared) : InMemoryIndex :=
  let '(removed_fields, removed_statistics) :=
    remove_document existing (internal_id record) (fields_ index) (field_statistics_ index) in
  let '(staged_fields, staged_statistics) :=
    add_document record prepared removed_fields removed_statistics in
  {| schema_ := schema_ index;
     fields_ := staged_fields;
     documents_ := <[doc_id (document record) := record]> (documents_ index);
     external_ids_ := <[internal_id record := doc_id (document record)]> (external_ids_ index);
     field_statistics_ := staged_statistics;
     next_internal_id_ := match existing with
                          | None => wrap32 (next_internal_id_ index + 1)
                          | Some _ => next_internal_id_ index
                          end;
     maximum_internal_id_ := maximum_internal_id_ index |}.

Definition put (index : InMemoryIndex) (document_value : Document)
    : expected IndexError InMemoryIndex :=
  if str_eqb (doc_id document_value) "" then
    Err (reject empty_document_id "document ID must not be empty")
  else
    let existing := documents_ index !! doc_id document_value in
    _ ← match existing with
        | Some record =>
            ensure (negb (doc_version document_value <=? doc_version (document record)))
              (reject stale_version "document version must be newer than visible version")
        | None => Ok tt
        end;
    _ ← validate_fields (schema_ index) document_value;
    _ ← validate_metadata (schema_ index) document_value;
    internal_document_id ← allocate index existing;
    prepared ← prepare (schema_ index) document_value;
    Ok (publish index existing
          {| internal_id := internal_document_id; document := document_value;
             field_lengths := prepared_lengths prepared;
             indexed_terms := prepared_terms prepared |} prepared).

Definition erase (index : InMemoryIndex) (id : DocumentId) (version : Z)
    : expected IndexError InMemoryIndex :=
  _ ← match documents_ index !! id with
      | Some record =>
          ensure (negb (version <=? doc_version (document record)))
            (reject stale_version "delete version must be newer than visible version")
      | None => Ok tt
      end;
  put index (tombstone id version).

(** *** [validate_invariants]: [Err reason] where the source returns false *)

Definition validate_posting (index : InMemoryIndex) (field term : string) (posting : Posting)
    : expected string unit :=
  match document_internal index (posting_document_id posting) with
  | None => Err "posting references missing/deleted document"
  | Some record =>
      _ ← ensure (is_live record) "posting references missing/deleted document";
      _ ← ensure (term_frequency posting =? zlen (positions posting)) "term frequency mismatch";
      _ ← ensure (adjacent_all Z.ltb (positions posting)) "positions not strictly increasing";
      _ ← ensure (bool_decide (is_Some (field_lengths record !! field))) "field length missing";
      ensure (negb (str_eqb term "")) "empty term"
  end.

Definition validate_term (index : InMemoryIndex) (field : string) (item : string * TermEntry)
    : expected string unit :=
  let '(term, entry) := item in
  _ ← ensure (document_frequency entry =? zlen (postings entry)) "document frequency mismatch";
  _ ← ensure (adjacent_all (fun p q => posting_document_id p <=? posting_document_id q)
                (postings entry)) "unsorted postings";
  check_each (validate_posting index field term) (postings entry).

Definition validate_reference (index : InMemoryIndex) (record : DocumentRecord) (field term : string)
    : expected string unit :=
  match lookup index field term with
  | None => Err "document term reference is missing from dictionary"
  | Some entry =>
      match lower_bound (fun p => posting_document_id p <? internal_id record) (postings entry) with
      | p :: _ => ensure (posting_document_id p =? internal_id record)
                    "document term reference is missing its posting"
      | [] => Err "document term reference is missing its posting"
      end
  end.

Definition validate_document_field (index : InMemoryIndex) (record : DocumentRecord)
    (expected_statistics : gmap string FieldAccumulator) (item : string * string)
    : expected string (gmap string FieldAccumulator) :=
  let '(field, text) := item in
  match IndexSchema.find (schema_ index) field with
  | None => Err "document contains unknown field"
  | Some definition =>
      if negb (fd_indexed definition) then Ok expected_statistics
      else
        match fd_analyzer definition with
        | None => Err "" (* null analyzer *)
        | Some analyzer =>
            match analyze analyzer text, field_lengths record !! field with
            | Ok tokens, Some length =>
                _ ← ensure (length =? zlen tokens) "field length mismatch";
                let statistics' := add_statistic expected_statistics (field, length) in
                match indexed_terms record !! field with
                | None => Err "document term references are missing, unsorted, or duplicated"
                | Some terms =>
                    _ ← ensure (adjacent_all (fun s t => str_ltb s t) terms)
                          "document term references are missing, unsorted, or duplicated";
                    _ ← check_each (validate_reference index record field) terms;
                    Ok statistics'
                end
            | _, _ => Err "field length mismatch"
            end
        end
  end.

Definition validate_document (index : InMemoryIndex)
    (expected_statistics : gmap string FieldAccumulator) (item : string * DocumentRecord)
    : expected string (gmap string FieldAccumulator) :=
  let '(id, record) := item in
  _ ← ensure (str_eqb id (doc_id (document record))) "document key mismatch";
  _ ← ensure (bool_decide (external_ids_ index !! internal_id record = Some id))
        "document ID mapping mismatch";
  _ ← ensure (is_live record ||
              (bool_decide (field_lengths record = ∅) && bool_decide (indexed_terms record = ∅)))
        "tombstone has analyzed field state";
  if is_live record then
    fold_each (validate_document_field index record) expected_statistics
      (map_items (doc_fields (document record)))
  else Ok expected_statistics.

Definition validate_statistic (index : InMemoryIndex) (item : string * FieldAccumulator)
    : expected string unit :=
  let '(field, expected) := item in
  ensure (bool_decide (field_statistics_ index !! field = Some expected))
    "field statistics mismatch".

Definition validate_invariants (index : InMemoryIndex) : expected string unit :=
  _ ← check_each (fun '(field, dictionary) =>
        check_each (validate_term index field) (map_items dictionary)) (map_items (fields_ index));
  expected_statistics ← fold_each (validate_document index) ∅ (map_items (documents_ index));
  _ ← ensure (Nat.eqb (size (external_ids_ index)) (size (documents_ index)))
        "document mapping size mismatch";
  _ ← ensure (Nat.eqb (size expected_statistics) (size (field_statistics_ index)))
        "field statistics size mismatch";
  check_each (validate_statistic index) (map_items expected_statistics).

End InMemoryIndex.

Notation InMemoryIndex := InMemoryIndex.InMemoryIndex.
