(* ===== verification/IndexSpec.v ===== *)
(** * The in-memory inverted index: what it maintains

    The postings, the dictionary entries and the field statistics of an
    [InMemoryIndex] are a function of its schema and its documents
    ([inverted], [total_statistics]); [wf] says so, [put] and [erase] keep it,
    and the source's own checker [validate_invariants] accepts every such
    index. *)

From S2P Require Import Prelude Text Doubles Analysis Schema Types Index.
From Stdlib Require Import SpecFloat.
Import InMemoryIndex.

(** ** The specification: the index rebuilt from its documents *)

Definition tokens_of (schema : IndexSchema) (field text : string) : option (list Token) :=
  definition ← IndexSchema.find schema field;
  if fd_indexed definition then
    analyzer ← fd_analyzer definition;
    match analyze analyzer text with Ok tokens => Some tokens | Err _ => None end
  else None.

Definition analysed_fields (schema : IndexSchema) (fields : gmap string string)
    : gmap string (list Token) := map_imap (tokens_of schema) fields.

Definition analysed (schema : IndexSchema) (record : DocumentRecord) : gmap string (list Token) :=
  if is_live record then analysed_fields schema (doc_fields (document record)) else ∅.

Definition occurrences (t : string) (tokens : list Token) : list Z :=
  position <$> filter (fun token => term token = t) tokens.

Definition posting_of (schema : IndexSchema) (field t : string) (record : DocumentRecord)
    : option Posting :=
  tokens ← analysed schema record !! field;
  match occurrences t tokens with
  | [] => None
  | ps => Some {| posting_document_id := internal_id record; term_frequency := zlen ps;
                  positions := ps |}
  end.

Definition entry_of (ps : list Posting) : option TermEntry :=
  match ps with
  | [] => None
  | _ => Some {| document_frequency := zlen ps; postings := ps |}
  end.

Definition records_of (documents : DocumentRecords) : list DocumentRecord :=
  (map_to_list documents).*2.

Definition inverted (schema : IndexSchema) (documents : DocumentRecords) (field t : string)
    : option TermEntry :=
  entry_of (merge_sort posting_le (omap (posting_of schema field t) (records_of documents))).

Definition lengths_of (schema : IndexSchema) (documents : DocumentRecords) (field : string)
    : list Z :=
  omap (fun record => zlen <$> analysed schema record !! field) (records_of documents).

Definition sum_list_Z (l : list Z) : Z := foldr Z.add 0 l.

Definition accumulate (ls : list Z) : option FieldAccumulator :=
  match ls with
  | [] => None
  | _ => Some {| acc_document_count := zlen ls; acc_total_length := sum_list_Z ls |}
  end.

Definition total_statistics (schema : IndexSchema) (documents : DocumentRecords) (field : string)
    : option FieldAccumulator :=
  accumulate (lengths_of schema documents field).

Definition term_list (tokens : list Token) : list string := (map_items (collect_positions tokens)).*1.

(** Every indexed field has an analyzer, and a lawful one. *)
Definition schema_analyzers (schema : IndexSchema) : Prop :=
  forall field definition analyzer, IndexSchema.find schema field = Some definition ->
    fd_indexed definition = true -> fd_analyzer definition = Some analyzer ->
    AnalyzerLaws analyzer.

Record record_ok (schema : IndexSchema) (id : DocumentId) (record : DocumentRecord) : Prop := {
  ro_id : doc_id (document record) = id;
  ro_lengths : field_lengths record = zlen <$> analysed schema record;
  ro_terms : indexed_terms record = term_list <$> analysed schema record;
  ro_small : map_Forall (fun _ tokens => zlen tokens <= u32_max) (analysed schema record);
  ro_fields : is_live record = true ->
    forall field, is_Some (doc_fields (document record) !! field) ->
      is_Some (analysed schema record !! field)
}.

Record wf (index : InMemoryIndex) : Prop := {
  wf_records : map_Forall (record_ok (schema_ index)) (documents_ index);
  wf_ids : map_Forall (fun _ r => 1 <= internal_id r <= Z.of_nat (size (documents_ index)))
             (documents_ index);
  wf_external : forall i id, external_ids_ index !! i = Some id <->
    exists r, documents_ index !! id = Some r /\ internal_id r = i;
  wf_external_size : size (external_ids_ index) = size (documents_ index);
  wf_next : next_internal_id_ index = wrap32 (Z.of_nat (size (documents_ index)) + 1);
  wf_maximum : Z.of_nat (size (documents_ index)) <= maximum_internal_id_ index <= u32_max;
  wf_fields : forall field t,
    lookup index field t = inverted (schema_ index) (documents_ index) field t;
  wf_dictionaries : map_Forall (fun _ dictionary => dictionary <> ∅) (fields_ index);
  wf_statistics : forall field,
    field_statistics_ index !! field = total_statistics (schema_ index) (documents_ index) field
}.

(** The operations a client can apply. *)
Inductive reachable (schema : IndexSchema) (maximum : Z) : InMemoryIndex -> Prop :=
| reach_make : reachable schema maximum (make schema maximum)
| reach_put index d index' :
    reachable schema maximum index -> put index d = Ok index' -> reachable schema maximum index'
| reach_erase index id version index' :
    reachable schema maximum index -> erase index id version = Ok index' ->
    reachable schema maximum index'.

(** ** Positions of the terms *)

Lemma collect_positions_lookup tokens t :
  collect_positions tokens !! t =
  match occurrences t tokens with [] => None | ps => Some ps end.
Proof.
  unfold collect_positions, occurrences.
  induction tokens as [|token tokens IH] using rev_ind; [done|].
  rewrite foldl_app, filter_app, fmap_app. cbn [foldl].
  destruct (decide (term token = t)) as [<-|Hne].
  - rewrite lookup_insert_eq, IH.
    rewrite (filter_cons_True _ token) by done. cbn.
    by destruct (position <$> filter _ tokens).
  - rewrite lookup_insert_ne by done. rewrite (filter_cons_False _ token) by done. cbn.
    by rewrite app_nil_r, IH.
Qed.

Lemma elem_of_term_list tokens t : t ∈ term_list tokens <-> occurrences t tokens <> [].
Proof.
  unfold term_list. rewrite list_elem_of_fmap. split.
  - intros ([t' ps] & -> & Hin%elem_of_map_items). rewrite collect_positions_lookup in Hin.
    cbn. by destruct (occurrences t' tokens).
  - intros Hne. exists (t, occurrences t tokens). split; [done|].
    apply elem_of_map_items. rewrite collect_positions_lookup.
    by destruct (occurrences t tokens).
Qed.

Lemma NoDup_term_list tokens : NoDup (term_list tokens).
Proof. apply NoDup_fst_map_items. Qed.

Lemma occurrences_length t tokens : zlen (occurrences t tokens) <= zlen tokens.
Proof.
  unfold occurrences, zlen. rewrite length_fmap. pose proof (length_filter (fun x => term x = t) tokens). lia.
Qed.

Lemma occurrences_sorted t tokens : StronglySorted Z.lt (position <$> tokens) ->
  StronglySorted Z.lt (occurrences t tokens).
Proof.
  unfold occurrences. induction tokens as [|x tokens IH]; [done|].
  rewrite fmap_cons. intros [Hs Hx]%StronglySorted_inv.
  rewrite filter_cons. case_decide; [|by apply IH].
  rewrite fmap_cons. constructor; [by apply IH|].
  rewrite Forall_fmap, Forall_forall in *. intros y [_ Hy]%list_elem_of_filter. by apply Hx.
Qed.

(** ** [prepare] is the analysis of the document *)

Definition prepared_of (tokens : gmap string (list Token)) : Prepared :=
  {| prepared_postings := collect_positions <$> tokens;
     prepared_lengths := zlen <$> tokens;
     prepared_terms := term_list <$> tokens |}.

Definition analyse_step (schema : IndexSchema) (m : gmap string (list Token))
    (entry : string * string) : gmap string (list Token) :=
  match tokens_of schema entry.1 entry.2 with
  | Some tokens => <[entry.1 := tokens]> m
  | None => m
  end.

Lemma prepare_field_Ok schema m field text p :
  prepare_field schema (prepared_of m) (field, text) = Ok p ->
  p = prepared_of (analyse_step schema m (field, text)) /\
  (forall tokens, tokens_of schema field text = Some tokens -> zlen tokens <= u32_max) /\
  (forall definition, IndexSchema.find schema field = Some definition ->
     fd_indexed definition = true -> is_Some (tokens_of schema field text)).
Proof.
  unfold prepare_field, analyse_step, tokens_of. cbn [fst snd].
  destruct (IndexSchema.find schema field) as [definition|]; cbn [mbind option_bind].
  2:{ intros [= <-]. by split_and!. }
  destruct (fd_indexed definition) eqn:Ei; cbn [negb].
  2:{ intros [= <-]. split_and!; [done|done|]. intros ? [= <-]. by rewrite Ei. }
  destruct (fd_analyzer definition) as [analyzer|]; cbn [mbind option_bind]; [|done].
  destruct (analyze analyzer text) as [tokens|what]; [|done].
  destruct (Z.gtb_spec (zlen tokens) u32_max); [done|].
  intros [= <-]. split_and!.
  - unfold prepared_of. cbn. by rewrite !fmap_insert.
  - intros ? [= <-]. lia.
  - by eauto.
Qed.

Lemma prepare_fold schema l : forall m p,
  fold_each (prepare_field schema) (prepared_of m) l = Ok p ->
  p = prepared_of (foldl (analyse_step schema) m l) /\
  (forall field text, (field, text) ∈ l ->
    (forall tokens, tokens_of schema field text = Some tokens -> zlen tokens <= u32_max) /\
    (forall definition, IndexSchema.find schema field = Some definition ->
       fd_indexed definition = true -> is_Some (tokens_of schema field text))).
Proof.
  induction l as [|[field text] l IH]; intros m p; cbn [fold_each foldl].
  - intros [= <-]. split; [done|]. by intros ?? ?%not_elem_of_nil.
  - destruct (prepare_field _ _ _) as [p'|] eqn:E; [|done].
    apply prepare_field_Ok in E as (-> & H1 & H2). intros [-> H3]%IH. split; [done|].
    intros field' text' [[= -> ->]|Hin]%elem_of_cons; by eauto.
Qed.

Lemma foldl_analyse schema fields :
  foldl (analyse_step schema) ∅ (map_items fields) = analysed_fields schema fields.
Proof.
  apply map_eq. intros field. unfold analysed_fields. rewrite map_lookup_imap.
  rewrite (foldl_map_entries (analyse_step schema) (fun f t o =>
    match tokens_of schema f t with Some tokens => Some tokens | None => o end)).
  - destruct (fields !! field); [|done]. cbn. by destruct (tokens_of schema field s).
  - intros m f t k. unfold analyse_step. cbn [fst snd]. destruct (decide (k = f)) as [->|E].
    + destruct (tokens_of schema f t); [by rewrite lookup_insert_eq|done].
    + destruct (tokens_of schema f t); [by rewrite lookup_insert_ne|done].
Qed.

(** The record that [put] builds. *)
Lemma prepare_record schema d i p :
  prepare schema d = Ok p ->
  (forall field, is_Some (doc_fields d !! field) -> exists definition,
     IndexSchema.find schema field = Some definition /\ fd_indexed definition = true) ->
  let record := {| internal_id := i; document := d; field_lengths := prepared_lengths p;
                   indexed_terms := prepared_terms p |} in
  record_ok schema (doc_id d) record /\ p = prepared_of (analysed schema record).
Proof.
  intros Hp Hf record. subst record. unfold prepare in Hp.
  destruct (doc_deleted d) eqn:Ed.
  - injection Hp as <-. unfold analysed, is_live, prepared_of. cbn. rewrite Ed. cbn.
    rewrite !fmap_empty. split; [|done]. split; cbn; try done;
    unfold analysed, is_live; cbn; rewrite Ed; cbn; rewrite ?fmap_empty; done.
  - change no_postings with (prepared_of ∅) in Hp.
    apply prepare_fold in Hp as [-> Hall]. rewrite foldl_analyse in *.
    unfold analysed, is_live. cbn. rewrite Ed. cbn. split; [|done].
    split; unfold analysed, is_live; cbn; rewrite ?Ed; cbn; try done.
    + intros field tokens Ht. unfold analysed_fields in Ht. rewrite map_lookup_imap in Ht.
      destruct (doc_fields d !! field) as [text|] eqn:Et; [|done].
      apply (Hall field text); [by apply elem_of_map_items|done].
    + intros _ field [text Ht]. unfold analysed_fields. rewrite map_lookup_imap, Ht. cbn.
      destruct (Hf field) as (definition & Hfd & Hi); [by eauto|].
      apply (Hall field text) in Hfd as [? ?]; [by eauto|by apply elem_of_map_items|done].
Qed.

(** ** The effect of removing and adding a document on one dictionary entry *)

Definition dict_at (fields : FieldDictionaries) (field t : string) : option TermEntry :=
  match fields !! field with None => None | Some dictionary => dictionary !! t end.

Definition remove_entry (i : Z) (entry : TermEntry) : option TermEntry :=
  match filter (fun p => posting_document_id p <> i) (postings entry) with
  | [] => None
  | kept => Some {| document_frequency := wrap32 (zlen kept); postings := kept |}
  end.

Definition add_entry (i : Z) (ps : list Z) (entry : option TermEntry) : TermEntry :=
  let sorted := merge_sort posting_le
    ((match entry with Some e => postings e | None => [] end) ++
     [{| posting_document_id := i; term_frequency := wrap32 (zlen ps); positions := ps |}]) in
  {| document_frequency := wrap32 (zlen sorted); postings := sorted |}.

Lemma remove_term_lookup i dictionary t k :
  remove_term i dictionary t !! k =
  if decide (k = t) then dictionary !! k ≫= remove_entry i else dictionary !! k.
Proof.
  unfold remove_term, remove_entry. case_decide as E.
  - subst. destruct (dictionary !! t) as [entry|] eqn:Et; cbn [mbind option_bind]; [|done].
    destruct (filter _ _); [by rewrite lookup_delete_eq|by rewrite lookup_insert_eq].
  - destruct (dictionary !! t) as [entry|] eqn:Et; cbn [mbind option_bind]; [|done].
    destruct (filter _ _); [by rewrite lookup_delete_ne|by rewrite lookup_insert_ne].
Qed.

Lemma remove_terms_lookup i terms dictionary k : NoDup terms ->
  foldl (remove_term i) dictionary terms !! k =
  if decide (k ∈ terms) then dictionary !! k ≫= remove_entry i else dictionary !! k.
Proof.
  intros Hnd. case_decide as E.
  - apply (foldl_keyed_in (remove_term i) id (fun _ o => o ≫= remove_entry i)); [|by rewrite list_fmap_id|done].
    intros. apply remove_term_lookup.
  - apply (foldl_keyed_not_in (remove_term i) id (fun _ o => o ≫= remove_entry i));
      [|by rewrite list_fmap_id]. intros. apply remove_term_lookup.
Qed.

Lemma remove_field_terms_lookup i fields field terms k :
  remove_field_terms i fields (field, terms) !! k =
  if decide (k = field) then
    match fields !! k with
    | None => None
    | Some dictionary =>
        let dictionary' := foldl (remove_term i) dictionary terms in
        if decide (dictionary' = ∅) then None else Some dictionary'
    end
  else fields !! k.
Proof.
  unfold remove_field_terms. destruct (decide (k = field)) as [->|E].
  - destruct (fields !! field) as [dictionary|] eqn:Et; cbn; [|done].
    destruct (decide _); [by rewrite lookup_delete_eq|by rewrite lookup_insert_eq].
  - destruct (fields !! field) as [dictionary|] eqn:Et; cbn; [|done].
    destruct (decide _); [by rewrite lookup_delete_ne|by rewrite lookup_insert_ne].
Qed.

Lemma remove_fields_lookup i fields (terms : gmap string (list string)) k :
  foldl (remove_field_terms i) fields (map_items terms) !! k =
  match terms !! k with
  | None => fields !! k
  | Some ts =>
      match fields !! k with
      | None => None
      | Some dictionary =>
          let dictionary' := foldl (remove_term i) dictionary ts in
          if decide (dictionary' = ∅) then None else Some dictionary'
      end
  end.
Proof.
  rewrite (foldl_map_items (remove_field_terms i) (fun ts o => match o with
    | None => None
    | Some dictionary =>
        let dictionary' := foldl (remove_term i) dictionary ts in
        if decide (dictionary' = ∅) then None else Some dictionary'
    end)); [done|]. intros. apply remove_field_terms_lookup.
Qed.

Lemma remove_fields_dict_at i fields (terms : gmap string (list string)) field t :
  map_Forall (fun _ ts => NoDup ts) terms ->
  dict_at (foldl (remove_field_terms i) fields (map_items terms)) field t =
  if decide (t ∈ default [] (terms !! field)) then dict_at fields field t ≫= remove_entry i
  else dict_at fields field t.
Proof.
  intros Hnd. unfold dict_at. rewrite remove_fields_lookup.
  destruct (terms !! field) as [ts|] eqn:Et; cbn [default].
  2:{ rewrite decide_False by apply not_elem_of_nil. done. }
  cbn [default option_rect]. specialize (Hnd _ _ Et). cbn in Hnd.
  destruct (fields !! field) as [dictionary|] eqn:Ef; [|by destruct (decide _)].
  pose proof (remove_terms_lookup i ts dictionary t Hnd) as H. cbv zeta.
  destruct (decide (foldl _ dictionary ts = ∅)) as [E0|]; [|exact H].
  rewrite E0, lookup_empty in H. exact H.
Qed.

Lemma add_posting_lookup i dictionary t ps k :
  add_posting i dictionary (t, ps) !! k =
  if decide (k = t) then Some (add_entry i ps (dictionary !! k)) else dictionary !! k.
Proof.
  unfold add_posting, add_entry. case_decide as E.
  - subst. by rewrite lookup_insert_eq.
  - by rewrite lookup_insert_ne.
Qed.

Lemma add_fields_lookup i fields (collected : gmap string (gmap string (list Z))) k :
  foldl (add_field_postings i) fields (map_items collected) !! k =
  match collected !! k with
  | None => fields !! k
  | Some terms =>
      match map_items terms with
      | [] => fields !! k
      | items => Some (foldl (add_posting i) (default ∅ (fields !! k)) items)
      end
  end.
Proof.
  rewrite (foldl_map_items (add_field_postings i) (fun terms o =>
    match map_items terms with
    | [] => o
    | items => Some (foldl (add_posting i) (default ∅ o) items)
    end)); [done|].
  intros m field terms k'. unfold add_field_postings. destruct (map_items terms).
  - by case_decide.
  - case_decide as E; [subst; by rewrite lookup_insert_eq|by rewrite lookup_insert_ne].
Qed.

Lemma add_postings_lookup i dictionary (terms : gmap string (list Z)) t :
  foldl (add_posting i) dictionary (map_items terms) !! t =
  match terms !! t with
  | Some ps => Some (add_entry i ps (dictionary !! t))
  | None => dictionary !! t
  end.
Proof.
  rewrite (foldl_map_items (add_posting i) (fun ps o => Some (add_entry i ps o))); [done|].
  intros. apply add_posting_lookup.
Qed.

Lemma add_fields_dict_at i fields (collected : gmap string (gmap string (list Z))) field t :
  dict_at (foldl (add_field_postings i) fields (map_items collected)) field t =
  match collected !! field ≫= (.!! t) with
  | Some ps => Some (add_entry i ps (dict_at fields field t))
  | None => dict_at fields field t
  end.
Proof.
  unfold dict_at. rewrite add_fields_lookup.
  destruct (collected !! field) as [terms|] eqn:Ec; cbn [mbind option_bind]; [|done].
  pose proof (add_postings_lookup i (default ∅ (fields !! field)) terms t) as H.
  assert (Hd : default ∅ (fields !! field) !! t =
      match fields !! field with Some dictionary => dictionary !! t | None => None end).
  { destruct (fields !! field); cbn; [done|by rewrite lookup_empty]. }
  rewrite Hd in H. destruct (map_items terms) as [|x items] eqn:Ei; [|exact H].
  assert (terms !! t = None) as ->; [|done].
  destruct (terms !! t) eqn:Et; [|done]. apply elem_of_map_items in Et. rewrite Ei in Et.
  by apply not_elem_of_nil in Et.
Qed.

Lemma add_postings_ne i items : forall dictionary,
  dictionary <> ∅ -> foldl (add_posting i) dictionary items <> ∅.
Proof.
  induction items as [|[t ps] items IH]; intros dictionary H; [done|].
  cbn [foldl]. apply IH. unfold add_posting. apply insert_non_empty.
Qed.

(** ** The rebuilt index after one document changes *)

Definition ids_unique (documents : DocumentRecords) : Prop :=
  forall id1 id2 r1 r2, documents !! id1 = Some r1 -> documents !! id2 = Some r2 ->
    internal_id r1 = internal_id r2 -> id1 = id2.

Lemma NoDup_internal_ids documents : ids_unique documents ->
  NoDup (internal_id <$> records_of documents).
Proof.
  intros Hu. unfold records_of. rewrite <- list_fmap_compose.
  apply NoDup_fmap_2_strong; [|apply NoDup_map_to_list].
  intros [id1 r1] [id2 r2] H1%elem_of_map_to_list H2%elem_of_map_to_list E. cbn in E.
  assert (id1 = id2) as -> by (eapply Hu; eauto). congruence.
Qed.

Lemma records_of_delete documents id r : documents !! id = Some r ->
  records_of documents ≡ₚ r :: records_of (delete id documents).
Proof. intros H. unfold records_of. by rewrite <- (map_to_list_delete documents id r H). Qed.

Lemma records_of_insert documents id r :
  records_of (<[id:=r]> documents) ≡ₚ r :: records_of (delete id documents).
Proof.
  unfold records_of. rewrite <- insert_delete_eq, map_to_list_insert by apply lookup_delete_eq. done.
Qed.

Lemma length_records_of documents : length (records_of documents) = size documents.
Proof. unfold records_of. by rewrite length_fmap, length_map_to_list. Qed.

Lemma elem_of_records_of documents r :
  r ∈ records_of documents <-> exists id, documents !! id = Some r.
Proof.
  unfold records_of. rewrite list_elem_of_fmap. split.
  - intros ([id r'] & -> & H%elem_of_map_to_list). by exists id.
  - intros [id H]. exists (id, r). split; [done|by apply elem_of_map_to_list].
Qed.

Lemma posting_of_id schema field t r p : posting_of schema field t r = Some p ->
  posting_document_id p = internal_id r.
Proof.
  unfold posting_of. destruct (_ !! field); [|done]. cbn. destruct (occurrences _ _); [done|].
  by intros [= <-].
Qed.

Section rebuilt.
Context (schema : IndexSchema) (field t : string).
Local Notation posting_of' := (posting_of schema field t).
Local Notation sorted documents := (merge_sort posting_le (omap posting_of' (records_of documents))).

Lemma posting_ids_sublist l :
  sublist (posting_document_id <$> omap posting_of' l) (internal_id <$> l).
Proof using Type.
  induction l as [|r l IH]; [constructor|]. rewrite fmap_cons. cbn [omap list_omap].
  destruct (posting_of' r) as [p|] eqn:E.
  - rewrite fmap_cons, (posting_of_id _ _ _ _ _ E). by constructor.
  - by constructor.
Qed.

Lemma NoDup_posting_ids l : NoDup (internal_id <$> l) ->
  NoDup (posting_document_id <$> omap posting_of' l).
Proof using Type. intros H. by eapply sublist_NoDup, posting_ids_sublist. Qed.

Lemma length_postings l : zlen (omap posting_of' l) <= zlen l.
Proof using Type.
  unfold zlen. pose proof (sublist_length _ _ (posting_ids_sublist l)) as H.
  rewrite !length_fmap in H. lia.
Qed.

Lemma sort_postings (l l' : list Posting) :
  NoDup (posting_document_id <$> l) -> l ≡ₚ l' -> StronglySorted posting_le l' ->
  merge_sort posting_le l = l'.
Proof using Type.
  intros Hnd. apply (merge_sort_unique posting_le). intros x y Hx Hy H1 H2.
  eapply NoDup_fmap_inj; [exact Hnd|done|done|]. unfold posting_le in *. lia.
Qed.

Lemma sorted_delete documents id r : ids_unique documents -> documents !! id = Some r ->
  sorted (delete id documents) =
  match posting_of' r with
  | Some _ => filter (fun p => posting_document_id p <> internal_id r) (sorted documents)
  | None => sorted documents
  end.
Proof using Type.
  intros Hu Hr. pose proof (NoDup_internal_ids _ Hu) as Hnd.
  pose proof (records_of_delete _ _ _ Hr) as Hp. rewrite Hp in Hnd.
  rewrite fmap_cons, NoDup_cons in Hnd. destruct Hnd as [Hnot Hnd].
  pose proof (StronglySorted_merge_sort posting_le (omap posting_of' (records_of documents))) as Hs.
  assert (Hsorted : sorted documents ≡ₚ omap posting_of' (r :: records_of (delete id documents))).
  { rewrite merge_sort_Permutation. by rewrite Hp. }
  destruct (posting_of' r) as [p|] eqn:E; cbn [omap list_omap] in Hsorted; rewrite E in Hsorted.
  - apply sort_postings; [by apply NoDup_posting_ids| |by apply StronglySorted_filter].
    rewrite Hsorted, filter_cons_False by (by rewrite (posting_of_id _ _ _ _ _ E); auto).
    rewrite filter_all; [done|]. intros q Hq E'. apply list_elem_of_omap in Hq as (r' & Hr' & Hq).
    apply posting_of_id in Hq. apply Hnot. rewrite <- E', Hq. by apply list_elem_of_fmap_2.
  - apply sort_postings; [by apply NoDup_posting_ids|by rewrite Hsorted|done].
Qed.

Lemma sorted_insert documents id r : ids_unique (<[id:=r]> documents) ->
  sorted (<[id:=r]> documents) =
  match posting_of' r with
  | Some p => merge_sort posting_le (sorted (delete id documents) ++ [p])
  | None => sorted (delete id documents)
  end.
Proof using Type.
  intros Hu. pose proof (NoDup_internal_ids _ Hu) as Hnd.
  pose proof (records_of_insert documents id r) as Hp.
  assert (Hperm : omap posting_of' (records_of (<[id:=r]> documents)) ≡ₚ
                  omap posting_of' (r :: records_of (delete id documents))) by by rewrite Hp.
  destruct (posting_of' r) as [p|] eqn:E; cbn [omap list_omap] in Hperm; rewrite E in Hperm.
  - apply sort_postings; [by apply NoDup_posting_ids| |apply StronglySorted_merge_sort; apply _].
    rewrite !merge_sort_Permutation, Hperm. by rewrite (Permutation_app_comm _ [p]).
  - apply sort_postings; [by apply NoDup_posting_ids| |apply StronglySorted_merge_sort; apply _].
    by rewrite merge_sort_Permutation, Hperm.
Qed.
End rebuilt.

(** *** In terms of [remove_entry] and [add_entry] *)

Lemma entry_of_remove i ps : zlen ps <= u32_max ->
  entry_of ps ≫= remove_entry i = entry_of (filter (fun p => posting_document_id p <> i) ps).
Proof.
  intros Hl. destruct ps as [|p ps]; [done|]. cbn [entry_of mbind option_bind].
  unfold remove_entry. cbn [postings].
  pose proof (length_filter (fun q => posting_document_id q <> i) (p :: ps)) as Hf.
  destruct (filter _ _) as [|q kept] eqn:E; [done|]. cbn [entry_of].
  rewrite wrap32_id; [done|]. unfold is_u32, zlen in *. lia.
Qed.

Lemma entry_of_add i qs ps : zlen ps + 1 <= u32_max -> zlen qs <= u32_max ->
  Some (add_entry i qs (entry_of ps)) =
  entry_of (merge_sort posting_le
    (ps ++ [{| posting_document_id := i; term_frequency := zlen qs; positions := qs |}])).
Proof.
  intros Hl Hq. unfold add_entry.
  assert ((match entry_of ps with Some e => postings e | None => [] end) = ps) as ->
    by by destruct ps.
  rewrite (wrap32_id (zlen qs)) by (unfold is_u32; pose proof (zlen_nonneg qs); lia).
  set (l := merge_sort _ _).
  assert (zlen l = zlen ps + 1) as Hlen.
  { unfold l, zlen. rewrite merge_sort_Permutation, length_app. cbn. lia. }
  rewrite wrap32_id by (unfold is_u32; pose proof (zlen_nonneg ps); lia).
  destruct l; [|done]. rewrite zlen_nil in Hlen. pose proof (zlen_nonneg ps). lia.
Qed.

Lemma length_sorted schema field t documents :
  zlen (merge_sort posting_le (omap (posting_of schema field t) (records_of documents)))
    <= Z.of_nat (size documents).
Proof.
  pose proof (length_postings schema field t (records_of documents)) as H.
  unfold zlen in *. rewrite merge_sort_Permutation. rewrite length_records_of in H. done.
Qed.

Lemma inverted_delete schema documents id r field t :
  ids_unique documents -> documents !! id = Some r -> Z.of_nat (size documents) <= u32_max ->
  inverted schema (delete id documents) field t =
  match posting_of schema field t r with
  | Some _ => inverted schema documents field t ≫= remove_entry (internal_id r)
  | None => inverted schema documents field t
  end.
Proof.
  intros Hu Hr Hs. unfold inverted. rewrite (sorted_delete schema field t documents id r) by done.
  destruct (posting_of schema field t r); [|done].
  rewrite entry_of_remove; [done|]. pose proof (length_sorted schema field t documents). lia.
Qed.

Lemma posting_of_frequency schema field t r p :
  map_Forall (fun _ tokens => zlen tokens <= u32_max) (analysed schema r) ->
  posting_of schema field t r = Some p ->
  p = {| posting_document_id := internal_id r; term_frequency := zlen (positions p);
         positions := positions p |} /\ zlen (positions p) <= u32_max.
Proof.
  intros Hsmall. unfold posting_of. destruct (analysed schema r !! field) as [tokens|] eqn:E; [|done].
  cbn. destruct (occurrences t tokens) as [|x l] eqn:Eo; [done|]. intros [= <-]. cbn. split; [done|].
  rewrite <- Eo. pose proof (occurrences_length t tokens). specialize (Hsmall _ _ E). cbn in Hsmall. lia.
Qed.

Lemma inverted_insert schema documents id r field t :
  ids_unique (<[id:=r]> documents) -> Z.of_nat (size (<[id:=r]> documents)) <= u32_max ->
  map_Forall (fun _ tokens => zlen tokens <= u32_max) (analysed schema r) ->
  inverted schema (<[id:=r]> documents) field t =
  match posting_of schema field t r with
  | Some p => Some (add_entry (internal_id r) (positions p)
                      (inverted schema (delete id documents) field t))
  | None => inverted schema (delete id documents) field t
  end.
Proof.
  intros Hu Hs Hsmall. unfold inverted. rewrite (sorted_insert schema field t documents id r) by done.
  destruct (posting_of schema field t r) as [p|] eqn:E; [|done].
  apply posting_of_frequency in E as [Ep Hq]; [|done]. rewrite entry_of_add; [by rewrite <- Ep| |done].
  pose proof (length_sorted schema field t (delete id documents)) as Hd.
  rewrite <- insert_delete_eq in Hs. rewrite map_size_insert_None in Hs by apply lookup_delete_eq. lia.
Qed.

(** ** The statistics after one document changes *)

Definition remove_length (length : Z) (statistic : FieldAccumulator) : option FieldAccumulator :=
  let count := wrap64 (acc_document_count statistic - 1) in
  let total := wrap64 (acc_total_length statistic - length) in
  if count =? 0 then None
  else Some {| acc_document_count := count; acc_total_length := total |}.

Definition add_length (length : Z) (statistic : option FieldAccumulator) : FieldAccumulator :=
  let old := default {| acc_document_count := 0; acc_total_length := 0 |} statistic in
  {| acc_document_count := wrap64 (acc_document_count old + 1);
     acc_total_length := wrap64 (acc_total_length old + length) |}.

Lemma remove_statistics_lookup statistics (lengths : gmap string Z) field :
  foldl remove_statistic statistics (map_items lengths) !! field =
  match lengths !! field with
  | Some length => statistics !! field ≫= remove_length length
  | None => statistics !! field
  end.
Proof.
  rewrite (foldl_map_items remove_statistic (fun length o => o ≫= remove_length length)); [done|].
  intros m f length k. unfold remove_statistic, remove_length.
  destruct (decide (k = f)) as [->|E].
  - destruct (m !! f) as [s|] eqn:Em; cbn; [|done].
    destruct (_ =? 0); [by rewrite lookup_delete_eq|by rewrite lookup_insert_eq].
  - destruct (m !! f) as [s|] eqn:Em; cbn; [|done].
    destruct (_ =? 0); [by rewrite lookup_delete_ne|by rewrite lookup_insert_ne].
Qed.

Lemma add_statistics_lookup statistics (lengths : gmap string Z) field :
  foldl add_statistic statistics (map_items lengths) !! field =
  match lengths !! field with
  | Some length => Some (add_length length (statistics !! field))
  | None => statistics !! field
  end.
Proof.
  rewrite (foldl_map_items add_statistic (fun length o => Some (add_length length o))); [done|].
  intros m f length k. unfold add_statistic, add_length.
  case_decide as E; [subst; by rewrite lookup_insert_eq|by rewrite lookup_insert_ne].
Qed.

Lemma sum_list_Z_bounds ls : Forall is_u32 ls -> 0 <= sum_list_Z ls <= zlen ls * u32_max.
Proof.
  induction 1 as [|x ls Hx _ IH]; cbn [sum_list_Z foldr]; [done|].
  rewrite zlen_cons. unfold is_u32, sum_list_Z in *. lia.
Qed.

Lemma accumulate_perm ls ls' : ls ≡ₚ ls' -> accumulate ls = accumulate ls'.
Proof.
  intros Hp. assert (sum_list_Z ls = sum_list_Z ls' /\ zlen ls = zlen ls') as [Hs Hl].
  { split; [|unfold zlen; by rewrite Hp]. unfold sum_list_Z. induction Hp; cbn; lia. }
  destruct ls as [|x ls], ls' as [|x' ls']; cbn [accumulate].
  - done.
  - by apply Permutation_nil_cons in Hp.
  - symmetry in Hp. by apply Permutation_nil_cons in Hp.
  - by rewrite Hs, Hl.
Qed.

Lemma remove_length_accumulate x ls : Forall is_u32 (x :: ls) -> zlen (x :: ls) <= u32_max ->
  accumulate (x :: ls) ≫= remove_length x = accumulate ls.
Proof.
  intros Hf Hl. pose proof (sum_list_Z_bounds ls (Forall_inv_tail Hf)).
  unfold accumulate at 1. unfold remove_length. cbn [mbind option_bind acc_document_count acc_total_length].
  rewrite zlen_cons in *. cbn [sum_list_Z foldr]. pose proof (zlen_nonneg ls).
  change (foldr Z.add 0 ls) with (sum_list_Z ls). unfold u32_max in *.
  rewrite !wrap64_id by (unfold is_u64, u64_max; lia).
  destruct ls as [|y ls]; [done|]. rewrite zlen_cons in *. pose proof (zlen_nonneg ls).
  destruct (Z.eqb_spec (1 + (1 + zlen ls) - 1) 0); [lia|]. cbn [accumulate].
  rewrite zlen_cons. f_equal. f_equal; lia.
Qed.

Lemma add_length_accumulate x ls : Forall is_u32 (x :: ls) -> zlen (x :: ls) <= u32_max ->
  Some (add_length x (accumulate ls)) = accumulate (x :: ls).
Proof.
  intros Hf Hl. pose proof (sum_list_Z_bounds (x :: ls) Hf) as Hb.
  pose proof (zlen_nonneg ls). unfold accumulate at 2, add_length. rewrite zlen_cons in *.
  cbn [sum_list_Z foldr] in *. change (foldr Z.add 0 ls) with (sum_list_Z ls) in *.
  pose proof (sum_list_Z_bounds ls (Forall_inv_tail Hf)). unfold u32_max in *.
  assert (default {| acc_document_count := 0; acc_total_length := 0 |} (accumulate ls) =
          {| acc_document_count := zlen ls; acc_total_length := sum_list_Z ls |}) as ->
    by by destruct ls.
  cbn [acc_document_count acc_total_length]. rewrite !wrap64_id by (unfold is_u64, u64_max; lia).
  f_equal. f_equal; lia.
Qed.

Lemma lengths_of_u32 schema documents field :
  map_Forall (fun _ r => map_Forall (fun _ tokens => zlen tokens <= u32_max) (analysed schema r))
    documents ->
  Forall is_u32 (lengths_of schema documents field).
Proof.
  intros Hd. rewrite Forall_forall. intros x Hx.
  unfold lengths_of in Hx. apply list_elem_of_omap in Hx as (r & Hr & Hx).
  apply elem_of_records_of in Hr as [id Hr].
  destruct (analysed schema r !! field) as [tokens|] eqn:E; [|done]. injection Hx as <-.
  specialize (Hd _ _ Hr _ _ E). cbn in Hd. pose proof (zlen_nonneg tokens). unfold is_u32. lia.
Qed.

Lemma length_lengths_of schema documents field :
  zlen (lengths_of schema documents field) <= Z.of_nat (size documents).
Proof.
  unfold zlen. rewrite <- length_records_of. unfold lengths_of.
  induction (records_of documents) as [|r l IH]; [done|]. cbn [omap list_omap].
  destruct (_ <$> _); cbn [length]; lia.
Qed.

Lemma lengths_of_delete schema documents id r field : documents !! id = Some r ->
  lengths_of schema documents field ≡ₚ
  match analysed schema r !! field with
  | Some tokens => zlen tokens :: lengths_of schema (delete id documents) field
  | None => lengths_of schema (delete id documents) field
  end.
Proof.
  intros Hr. unfold lengths_of. rewrite (records_of_delete _ _ _ Hr) at 1. cbn [omap list_omap].
  by destruct (analysed schema r !! field).
Qed.

Lemma lengths_of_insert schema documents id r field :
  lengths_of schema (<[id:=r]> documents) field ≡ₚ
  match analysed schema r !! field with
  | Some tokens => zlen tokens :: lengths_of schema (delete id documents) field
  | None => lengths_of schema (delete id documents) field
  end.
Proof.
  unfold lengths_of. rewrite (records_of_insert documents id r). cbn [omap list_omap].
  by destruct (analysed schema r !! field).
Qed.

(** ** [publish] keeps the invariant *)

Lemma wf_unique index : wf index -> ids_unique (documents_ index).
Proof.
  intros W id1 id2 r1 r2 H1 H2 E.
  assert (external_ids_ index !! internal_id r1 = Some id1) as E1
    by (apply (wf_external _ W); by exists r1).
  assert (external_ids_ index !! internal_id r1 = Some id2) as E2
    by (apply (wf_external _ W); by exists r2).
  congruence.
Qed.

Lemma allocate_Ok index existing i : wf index ->
  (forall r, existing = Some r -> exists id, documents_ index !! id = Some r) ->
  allocate index existing = Ok i ->
  match existing with
  | Some r => i = internal_id r
  | None => i = Z.of_nat (size (documents_ index)) + 1 /\ i <= maximum_internal_id_ index
  end.
Proof.
  intros W He. unfold allocate. destruct existing as [r|]; [by intros [= <-]|].
  destruct (Z.eqb_spec (next_internal_id_ index) 0) as [|Hn]; [done|]. cbn [orb].
  destruct (Z.gtb_spec (next_internal_id_ index) (maximum_internal_id_ index)) as [|Hm]; [done|].
  intros [= <-]. rewrite (wf_next _ W) in *. pose proof (wf_maximum _ W) as Hmax.
  unfold wrap32, u32_max in *.
  destruct (Z.eq_dec (Z.of_nat (size (documents_ index))) 4294967295) as [E|E].
  - rewrite E in Hn. by cbn in Hn.
  - rewrite Z.mod_small in * by lia. lia.
Qed.

Section publish.
Context (index : InMemoryIndex) (record : DocumentRecord) (p : Prepared).
Notation id := (doc_id (document record)).
Notation existing := (documents_ index !! id).
Context (W : wf index) (Hrecord : record_ok (schema_ index) id record).
Context (Hp : p = prepared_of (analysed (schema_ index) record)).
Context (Halloc : allocate index existing = Ok (internal_id record)).
Notation index' := (publish index existing record p).

Lemma publish_documents : documents_ index' = <[id := record]> (documents_ index).
Proof using Type. unfold publish. by destruct (remove_document _ _ _ _), (add_document _ _ _ _). Qed.
Lemma publish_schema : schema_ index' = schema_ index.
Proof using Type. unfold publish. by destruct (remove_document _ _ _ _), (add_document _ _ _ _). Qed.
Lemma publish_maximum : maximum_internal_id_ index' = maximum_internal_id_ index.
Proof using Type. unfold publish. by destruct (remove_document _ _ _ _), (add_document _ _ _ _). Qed.
Lemma publish_external : external_ids_ index' = <[internal_id record := id]> (external_ids_ index).
Proof using Type. unfold publish. by destruct (remove_document _ _ _ _), (add_document _ _ _ _). Qed.
Lemma publish_next : next_internal_id_ index' =
  match existing with None => wrap32 (next_internal_id_ index + 1) | Some _ => next_internal_id_ index end.
Proof using Type. unfold publish. by destruct (remove_document _ _ _ _), (add_document _ _ _ _). Qed.

Lemma allocated :
  match existing with
  | Some r => internal_id record = internal_id r
  | None => internal_id record = Z.of_nat (size (documents_ index)) + 1 /\
            internal_id record <= maximum_internal_id_ index
  end.
Proof using W Halloc. apply (allocate_Ok index existing); [done|by eauto|done]. Qed.

Lemma publish_size : Z.of_nat (size (documents_ index')) =
  match existing with Some _ => Z.of_nat (size (documents_ index))
                    | None => Z.of_nat (size (documents_ index)) + 1 end.
Proof using Type.
  clear Halloc Hrecord. rewrite publish_documents. rewrite map_size_insert. destruct existing as [r|] eqn:E; cbn; lia.
Qed.

Lemma publish_records : map_Forall (record_ok (schema_ index)) (documents_ index').
Proof using W Hrecord.
  rewrite publish_documents. apply map_Forall_insert_2; [done|]. apply (wf_records _ W).
Qed.

Lemma publish_ids :
  map_Forall (fun _ r => 1 <= internal_id r <= Z.of_nat (size (documents_ index'))) (documents_ index').
Proof using W Halloc.
  pose proof publish_size as Hs. pose proof allocated as Ha. rewrite Hs. rewrite publish_documents.
  apply map_Forall_insert_2.
  - destruct existing as [r|] eqn:E; [|lia]. rewrite Ha. exact (wf_ids _ W _ _ E).
  - eapply map_Forall_impl; [apply (wf_ids _ W)|]. cbn. intros k r Hr. destruct existing; lia.
Qed.

Lemma publish_external_spec i id' : external_ids_ index' !! i = Some id' <->
  exists r, documents_ index' !! id' = Some r /\ internal_id r = i.
Proof using W Halloc.
  rewrite publish_external, publish_documents. pose proof allocated as Ha.
  assert (Hfresh : forall id' r, documents_ index !! id' = Some r ->
            internal_id r = internal_id record -> id' = id).
  { intros id1 r Hr E. destruct existing as [r0|] eqn:Ee.
    - eapply (wf_unique _ W); [exact Hr|exact Ee|congruence].
    - pose proof (wf_ids _ W _ _ Hr) as Hb. cbn in Hb. lia. }
  destruct (decide (i = internal_id record)) as [->|Hi].
  - rewrite lookup_insert_eq. split.
    + intros [= <-]. exists record. by rewrite lookup_insert_eq.
    + intros (r & Hr & E). destruct (decide (id' = id)) as [->|Hne]; [done|].
      rewrite lookup_insert_ne in Hr by done. by rewrite (Hfresh _ _ Hr E).
  - rewrite lookup_insert_ne, (wf_external _ W) by done. split; intros (r & Hr & E).
    + exists r. split; [|done]. rewrite lookup_insert_ne; [done|]. intros <-.
      rewrite Hr in Ha. congruence.
    + exists r. split; [|done]. destruct (decide (id' = id)) as [->|Hne].
      * rewrite lookup_insert_eq in Hr. by injection Hr as <-.
      * by rewrite lookup_insert_ne in Hr.
Qed.

Lemma publish_external_size : size (external_ids_ index') = size (documents_ index').
Proof using W Halloc.
  rewrite publish_external, publish_documents, !map_size_insert, (wf_external_size _ W).
  pose proof allocated as Ha. destruct existing as [r|] eqn:Ee.
  - assert (external_ids_ index !! internal_id record = Some id) as ->; [|done].
    apply (wf_external _ W). exists r. by rewrite Ha.
  - assert (external_ids_ index !! internal_id record = None) as ->; [|done].
    destruct (external_ids_ index !! internal_id record) as [id'|] eqn:E; [|done].
    apply (wf_external _ W) in E as (r & Hr & E). pose proof (wf_ids _ W _ _ Hr) as Hb. cbn in Hb. lia.
Qed.

Lemma publish_next_spec :
  next_internal_id_ index' = wrap32 (Z.of_nat (size (documents_ index')) + 1).
Proof using W.
  clear Halloc Hrecord.
  rewrite publish_size, publish_next, (wf_next _ W). destruct existing; [done|].
  unfold wrap32. rewrite Z.add_mod_idemp_l by lia. done.
Qed.

Lemma publish_maximum_spec :
  Z.of_nat (size (documents_ index')) <= maximum_internal_id_ index' <= u32_max.
Proof using W Halloc.
  rewrite publish_size, publish_maximum. pose proof allocated as Ha.
  pose proof (wf_maximum _ W). destruct existing; lia.
Qed.

Lemma analysed_dead r : is_live r = false -> analysed (schema_ index) r = ∅.
Proof using Type. unfold analysed. by intros ->. Qed.

Lemma posting_of_dead field t r : is_live r = false -> posting_of (schema_ index) field t r = None.
Proof using Type. intros H. unfold posting_of. by rewrite analysed_dead, lookup_empty. Qed.

Lemma term_of_record r field t : record_ok (schema_ index) (doc_id (document r)) r ->
  t ∈ default [] (indexed_terms r !! field) <-> is_Some (posting_of (schema_ index) field t r).
Proof using Type.
  intros Hr. rewrite (ro_terms _ _ _ Hr), lookup_fmap. unfold posting_of.
  destruct (analysed (schema_ index) r !! field) as [tokens|]; cbn.
  - rewrite elem_of_term_list. destruct (occurrences t tokens); split; by eauto || by intros [].
  - split; [by intros ?%not_elem_of_nil|by intros []].
Qed.

Lemma removed_fields field t :
  dict_at (remove_document existing (internal_id record) (fields_ index)
             (field_statistics_ index)).1 field t =
  inverted (schema_ index) (delete id (documents_ index)) field t.
Proof using W Halloc.
  pose proof allocated as Ha. pose proof (wf_maximum _ W) as Hm.
  unfold remove_document. destruct existing as [r|] eqn:Ee.
  2:{ cbn. rewrite delete_id by done. apply (wf_fields _ W). }
  pose proof (wf_records _ W _ _ Ee) as Hr.
  rewrite (inverted_delete _ _ id r) by (done || by apply wf_unique || lia).
  rewrite <- (wf_fields _ W). change (lookup index field t) with (dict_at (fields_ index) field t).
  destruct (is_live r) eqn:El; cbn [fst].
  2:{ by rewrite posting_of_dead. }
  rewrite remove_fields_dict_at.
  2:{ rewrite (ro_terms _ _ _ Hr). apply map_Forall_fmap. intros ? tokens _. apply NoDup_term_list. }
  rewrite Ha. destruct (posting_of (schema_ index) field t r) as [q|] eqn:Eq.
  - rewrite decide_True; [done|]. apply term_of_record; [by rewrite (ro_id _ _ _ Hr)|by eauto].
  - rewrite decide_False; [done|]. rewrite term_of_record by by rewrite (ro_id _ _ _ Hr).
    rewrite Eq. by intros [].
Qed.

Lemma publish_fields_eq : fields_ index' =
  (add_document record p
     (remove_document existing (internal_id record) (fields_ index) (field_statistics_ index)).1
     (remove_document existing (internal_id record) (fields_ index) (field_statistics_ index)).2).1.
Proof using Type. unfold publish. destruct (remove_document _ _ _ _). cbn. by destruct (add_document _ _ _ _). Qed.

Lemma publish_statistics_eq : field_statistics_ index' =
  (add_document record p
     (remove_document existing (internal_id record) (fields_ index) (field_statistics_ index)).1
     (remove_document existing (internal_id record) (fields_ index) (field_statistics_ index)).2).2.
Proof using Type. unfold publish. destruct (remove_document _ _ _ _). cbn. by destruct (add_document _ _ _ _). Qed.

Lemma publish_unique : ids_unique (documents_ index').
Proof using W Halloc.
  intros id1 id2 r1 r2 H1 H2 E.
  assert (external_ids_ index' !! internal_id r1 = Some id1) as E1
    by (apply publish_external_spec; by exists r1).
  assert (external_ids_ index' !! internal_id r1 = Some id2) as E2
    by (apply publish_external_spec; by exists r2).
  congruence.
Qed.

Lemma posting_of_collected field t :
  prepared_postings p !! field ≫= (.!! t) = positions <$> posting_of (schema_ index) field t record.
Proof using Hp.
  rewrite Hp. cbn. rewrite lookup_fmap. unfold posting_of.
  destruct (analysed (schema_ index) record !! field) as [tokens|]; cbn; [|done].
  rewrite collect_positions_lookup. by destruct (occurrences t tokens).
Qed.

Lemma publish_fields field t :
  lookup index' field t = inverted (schema_ index) (documents_ index') field t.
Proof using W Hrecord Hp Halloc.
  change (lookup index' field t) with (dict_at (fields_ index') field t).
  pose proof publish_unique as Hu. pose proof publish_maximum_spec as Hm.
  rewrite publish_documents in *. rewrite inverted_insert; [|done|lia|apply (ro_small _ _ _ Hrecord)].
  rewrite publish_fields_eq. unfold add_document. rewrite <- removed_fields.
  destruct (is_live record) eqn:El; cbn [fst].
  - rewrite add_fields_dict_at, posting_of_collected.
    by destruct (posting_of (schema_ index) field t record).
  - by rewrite posting_of_dead.
Qed.

Lemma removed_statistics field :
  (remove_document existing (internal_id record) (fields_ index)
     (field_statistics_ index)).2 !! field =
  total_statistics (schema_ index) (delete id (documents_ index)) field.
Proof using W.
  clear Halloc Hrecord. pose proof (wf_maximum _ W) as Hm.
  unfold remove_document. destruct existing as [r|] eqn:Ee.
  2:{ cbn. rewrite delete_id by done. apply (wf_statistics _ W). }
  pose proof (wf_records _ W _ _ Ee) as Hr.
  pose proof (lengths_of_delete (schema_ index) _ _ _ field Ee) as Hlen.
  assert (Forall is_u32 (lengths_of (schema_ index) (documents_ index) field)) as Hf.
  { apply lengths_of_u32. eapply map_Forall_impl; [apply (wf_records _ W)|].
    intros k r' Hr'. apply (ro_small _ _ _ Hr'). }
  pose proof (length_lengths_of (schema_ index) (documents_ index) field) as Hl.
  pose proof (wf_statistics _ W field) as Hs. unfold total_statistics in *.
  rewrite (accumulate_perm _ _ Hlen) in Hs.
  assert (zlen (lengths_of (schema_ index) (documents_ index) field) <= u32_max) as Hl' by lia.
  unfold zlen in Hl'. rewrite Hlen in Hf, Hl'.
  destruct (is_live r) eqn:El; cbn [snd].
  - rewrite remove_statistics_lookup, (ro_lengths _ _ _ Hr), lookup_fmap, Hs.
    destruct (analysed (schema_ index) r !! field) as [tokens|]; cbn [fmap option_fmap option_map]; [|done].
    by apply remove_length_accumulate.
  - by rewrite analysed_dead, lookup_empty in Hs.
Qed.

Lemma publish_statistics field :
  field_statistics_ index' !! field = total_statistics (schema_ index) (documents_ index') field.
Proof using W Hrecord Halloc.
  pose proof publish_maximum_spec as Hm. pose proof publish_records as Hall.
  rewrite publish_statistics_eq. pose proof (removed_statistics field) as Hrem.
  rewrite publish_documents in *. set (docs := <[id:=record]> (documents_ index)) in *.
  pose proof (lengths_of_insert (schema_ index) (documents_ index) id record field) as Hlen.
  change (<[id:=record]> (documents_ index)) with docs in Hlen.
  assert (Forall is_u32 (lengths_of (schema_ index) docs field)) as Hf.
  { apply lengths_of_u32. eapply map_Forall_impl; [exact Hall|].
    intros k r' Hr'. apply (ro_small _ _ _ Hr'). }
  pose proof (length_lengths_of (schema_ index) docs field) as Hl.
  assert (zlen (lengths_of (schema_ index) docs field) <= u32_max) as Hl' by lia.
  unfold zlen in Hl'. rewrite Hlen in Hf, Hl'. unfold total_statistics in *.
  rewrite (accumulate_perm _ _ Hlen).
  unfold add_document. destruct (is_live record) eqn:El; cbn [snd].
  - rewrite add_statistics_lookup, (ro_lengths _ _ _ Hrecord), lookup_fmap, Hrem.
    destruct (analysed (schema_ index) record !! field) as [tokens|];
      cbn [fmap option_fmap option_map]; [|done].
    by apply add_length_accumulate.
  - by rewrite analysed_dead, lookup_empty.
Qed.

Lemma publish_dictionaries : map_Forall (fun _ dictionary => dictionary <> ∅) (fields_ index').
Proof using W.
  clear Halloc Hrecord. rewrite publish_fields_eq.
  assert (Hrem : map_Forall (fun _ dictionary => dictionary <> ∅)
    (remove_document existing (internal_id record) (fields_ index) (field_statistics_ index)).1).
  { unfold remove_document. destruct existing as [r|]; [|apply (wf_dictionaries _ W)].
    destruct (is_live r); [|apply (wf_dictionaries _ W)]. cbn [fst].
    intros field dictionary Hd. rewrite remove_fields_lookup in Hd.
    destruct (indexed_terms r !! field); [|by apply (wf_dictionaries _ W field)].
    destruct (fields_ index !! field); [|done]. cbv zeta in Hd.
    destruct (decide _) as [|Hne]; [done|]. by injection Hd as <-. }
  unfold add_document. destruct (is_live record); cbn [fst]; [|done].
  intros field dictionary Hd. rewrite add_fields_lookup in Hd.
  destruct (prepared_postings p !! field) as [terms|]; [|by apply (Hrem field)].
  destruct (map_items terms) as [|[t ps] items] eqn:Ei; [by apply (Hrem field)|].
  injection Hd as <-. apply add_postings_ne. unfold add_posting. apply insert_non_empty.
Qed.

Lemma publish_wf : wf index'.
Proof using Type*.
  split.
  - rewrite publish_schema. apply publish_records.
  - apply publish_ids.
  - apply publish_external_spec.
  - apply publish_external_size.
  - apply publish_next_spec.
  - apply publish_maximum_spec.
  - intros field t. rewrite publish_schema. apply publish_fields.
  - apply publish_dictionaries.
  - intros field. rewrite publish_schema. apply publish_statistics.
Qed.
End publish.

(** ** [make] and [put] *)

Lemma make_wf schema maximum : is_u32 maximum -> wf (make schema maximum).
Proof.
  intros [H1 H2]. unfold make. split; cbn; try done.
  intros i id. rewrite lookup_empty. split; [done|]. by intros (r & Hr & _).
Qed.

Definition newer (index : InMemoryIndex) (d : Document) : Prop :=
  forall r, documents_ index !! doc_id d = Some r -> doc_version (document r) < doc_version d.

(** A field value that [put] accepts, for an [allowed] use of the field. *)
Definition entry_accepted (schema : IndexSchema) (allowed : FieldDefinition -> bool)
    (field value : string) : Prop :=
  IndexSchema.validate_value schema field value = Ok tt /\
  exists definition, IndexSchema.find schema field = Some definition /\ allowed definition = true.

Lemma validate_entry_Ok schema allowed denied message field value :
  validate_entry schema allowed denied message (field, value) = Ok tt <->
  entry_accepted schema allowed field value.
Proof.
  unfold validate_entry, entry_accepted.
  destruct (IndexSchema.validate_value schema field value) as [[]|e] eqn:E.
  2:{ split; [done|by intros []]. }
  assert (is_Some (IndexSchema.find schema field)) as [definition Hf].
  { unfold IndexSchema.validate_value in E. by destruct (IndexSchema.find schema field); eauto. }
  rewrite Hf. destruct (allowed definition) eqn:Ea; split; try done.
  - intros _. by eauto.
  - intros (_ & ? & [= <-] & ?). congruence.
Qed.

Lemma validate_entry_Err schema allowed denied message entry e :
  validate_entry schema allowed denied message entry = Err e ->
  index_code e = schema_error /\ ~ entry_accepted schema allowed entry.1 entry.2.
Proof.
  destruct entry as [field value]. cbn [fst snd]. intros H.
  assert (~ entry_accepted schema allowed field value) as Hn.
  { intros Ha. by rewrite (proj2 (validate_entry_Ok schema allowed denied message field value) Ha) in H. }
  split; [|done]. unfold validate_entry in H.
  destruct (IndexSchema.validate_value schema field value) as [[]|e']; [|by injection H as <-].
  destruct (IndexSchema.find schema field) as [definition|]; [|done].
  destruct (allowed definition); [done|]. by injection H as <-.
Qed.

Definition entries_accepted (schema : IndexSchema) (allowed : FieldDefinition -> bool)
    (entries : gmap string string) : Prop :=
  map_Forall (entry_accepted schema allowed) entries.

Lemma check_entries_Ok schema allowed denied message entries :
  check_each (validate_entry schema allowed denied message) (map_items entries) = Ok tt <->
  entries_accepted schema allowed entries.
Proof.
  rewrite check_each_Ok. split.
  - intros H field value Hv. eapply validate_entry_Ok, H. by apply elem_of_map_items.
  - intros H [field value] Hin. apply validate_entry_Ok, H. by apply elem_of_map_items.
Qed.

Lemma check_entries_Err schema allowed denied message entries e :
  check_each (validate_entry schema allowed denied message) (map_items entries) = Err e ->
  index_code e = schema_error /\ ~ entries_accepted schema allowed entries.
Proof.
  intros ([field value] & Hin & [Hc Hn]%validate_entry_Err)%check_each_Err.
  split; [done|]. intros Ha. apply Hn, Ha. by apply elem_of_map_items.
Qed.

(** What [put] leaves behind. *)
Lemma put_Ok index d index' : put index d = Ok index' ->
  doc_id d <> "" /\ newer index d /\
  entries_accepted (schema_ index) fd_indexed (doc_fields d) /\
  entries_accepted (schema_ index) fd_stored (doc_stored_metadata d) /\
  exists record p, document record = d /\
    record_ok (schema_ index) (doc_id d) record /\
    p = prepared_of (analysed (schema_ index) record) /\
    allocate index (documents_ index !! doc_id d) = Ok (internal_id record) /\
    index' = publish index (documents_ index !! doc_id d) record p.
Proof.
  unfold put. destruct (str_eqb (doc_id d) "") eqn:E0; [done|]. intros H.
  apply bind_Ok in H as ([] & Hv & H). apply bind_Ok in H as ([] & Hf & H).
  apply bind_Ok in H as ([] & Hm & H). apply bind_Ok in H as (i & Ha & H).
  apply bind_Ok in H as (p & Hp & H). injection H as <-.
  apply check_entries_Ok in Hf, Hm. split_and!; [|..|done|].
  - unfold str_eqb in E0. by apply bool_decide_eq_false in E0.
  - intros r Hr. rewrite Hr in Hv. apply ensure_Ok in Hv. destruct (Z.leb_spec (doc_version d) (doc_version (document r))); [done|lia].
  - done.
  - pose proof (prepare_record _ _ i _ Hp) as [Hr Hpp].
    { intros field [value Hvalue]. by destruct (Hf _ _ Hvalue) as [_ ?]. }
    eexists _, p. split_and!; [|exact Hr|exact Hpp|done|done]. done.
Qed.

Lemma put_wf index d index' : wf index -> put index d = Ok index' -> wf index'.
Proof.
  intros W (Hid & _ & _ & _ & record & p & <- & Hr & Hp & Ha & ->)%put_Ok. by apply publish_wf.
Qed.

Lemma erase_put index id version index' : erase index id version = Ok index' ->
  put index (tombstone id version) = Ok index'.
Proof. unfold erase. intros H. by apply bind_Ok in H as ([] & _ & H). Qed.

Lemma put_schema index d index' : put index d = Ok index' -> schema_ index' = schema_ index.
Proof. intros (_ & _ & _ & _ & record & p & <- & _ & _ & _ & ->)%put_Ok. apply publish_schema. Qed.

Lemma reachable_wf schema maximum index : is_u32 maximum -> reachable schema maximum index ->
  wf index /\ schema_ index = schema.
Proof.
  intros Hm. induction 1 as [|index d index' _ [W Hs] Hput|index id v index' _ [W Hs] Her].
  - split; [by apply make_wf|done].
  - split; [by eapply put_wf|]. by rewrite (put_schema _ _ _ Hput).
  - apply erase_put in Her. split; [by eapply put_wf|]. by rewrite (put_schema _ _ _ Her).
Qed.
