(* ===== verification/IndexChecks.v ===== *)
(** * The index's own consistency check

    [validate_invariants] accepts every index that puts and erases can build,
    and the theorems about [put] and the live documents. *)

From S2P Require Import Prelude Text Doubles Analysis Schema Types Index IndexSpec.
From Stdlib Require Import SpecFloat.
Import InMemoryIndex.

(** ** Entries of a well-formed index *)

Lemma entry_of_Some ps entry : entry_of ps = Some entry ->
  ps <> [] /\ entry = {| document_frequency := zlen ps; postings := ps |}.
Proof. destruct ps; [done|]. by intros [= <-]. Qed.

Lemma elem_of_inverted schema documents field t entry p :
  inverted schema documents field t = Some entry ->
  p ∈ postings entry <->
  exists id r, documents !! id = Some r /\ posting_of schema field t r = Some p.
Proof.
  intros (_ & ->)%entry_of_Some. cbn. rewrite merge_sort_Permutation, list_elem_of_omap.
  setoid_rewrite elem_of_records_of. split.
  - intros (r & [id Hr] & Hp). by eauto.
  - intros (id & r & Hr & Hp). by eauto.
Qed.

Lemma inverted_is_Some schema documents field t id r p :
  documents !! id = Some r -> posting_of schema field t r = Some p ->
  exists entry, inverted schema documents field t = Some entry /\ p ∈ postings entry.
Proof.
  intros Hr Hp. destruct (inverted schema documents field t) as [entry|] eqn:E.
  - exists entry. split; [done|]. eapply elem_of_inverted; [done|]. by eauto.
  - unfold inverted in E.
    assert (p ∈ merge_sort posting_le (omap (posting_of schema field t) (records_of documents))) as Hin.
    { rewrite merge_sort_Permutation, list_elem_of_omap. exists r. split; [|done].
      apply elem_of_records_of. by eauto. }
    destruct (merge_sort _ _); [by apply not_elem_of_nil in Hin|done].
Qed.

Lemma inverted_sorted schema documents field t entry :
  inverted schema documents field t = Some entry -> StronglySorted posting_le (postings entry).
Proof. intros (_ & ->)%entry_of_Some. cbn. apply StronglySorted_merge_sort; apply _. Qed.

Lemma posting_of_inv schema field t r p : posting_of schema field t r = Some p ->
  is_live r = true /\ exists tokens, analysed schema r !! field = Some tokens /\
    occurrences t tokens <> [] /\
    p = {| posting_document_id := internal_id r; term_frequency := zlen (occurrences t tokens);
           positions := occurrences t tokens |}.
Proof.
  unfold posting_of. destruct (analysed schema r !! field) as [tokens|] eqn:E; [|done]. cbn.
  destruct (occurrences t tokens) as [|x l] eqn:Eo; [done|]. intros [= <-]. split.
  - unfold analysed in E. by destruct (is_live r).
  - exists tokens. by rewrite Eo.
Qed.

Lemma analysed_inv schema r field tokens : analysed schema r !! field = Some tokens ->
  exists text definition analyzer, doc_fields (document r) !! field = Some text /\
    IndexSchema.find schema field = Some definition /\ fd_indexed definition = true /\
    fd_analyzer definition = Some analyzer /\ analyze analyzer text = Ok tokens.
Proof.
  unfold analysed, analysed_fields. destruct (is_live r); [|by rewrite lookup_empty].
  rewrite map_lookup_imap. destruct (doc_fields (document r) !! field) as [text|] eqn:Ed; [|done]. cbn.
  unfold tokens_of. destruct (IndexSchema.find schema field) as [definition|] eqn:Ef; [|done]. cbn.
  destruct (fd_indexed definition) eqn:Ei; [|done].
  destruct (fd_analyzer definition) as [analyzer|] eqn:Ea; [|done]. cbn.
  destruct (analyze analyzer text) as [tokens'|] eqn:Et; [|done]. intros [= ->]. by eauto 10.
Qed.

Lemma analysed_laws schema r field tokens : schema_analyzers schema ->
  analysed schema r !! field = Some tokens ->
  StronglySorted Z.lt (position <$> tokens) /\
  Forall (fun token => is_u32 (position token) /\ term token <> "") tokens.
Proof.
  intros Hs (text & definition & analyzer & _ & Hf & Hi & Ha & Ht)%analysed_inv.
  specialize (Hs _ _ _ Hf Hi Ha). split; [by eapply laws_positions|by eapply laws_range].
Qed.

Lemma occurrences_nonempty t tokens : occurrences t tokens <> [] ->
  exists token, token ∈ tokens /\ term token = t.
Proof.
  unfold occurrences. induction tokens as [|x l IH]; [done|]. rewrite filter_cons.
  case_decide as E; [by exists x; split; [left|]|].
  intros (y & ? & ?)%IH. exists y. split; [by right|done].
Qed.

(** ** The postings pass their checks *)

Section checks.
Context (index : InMemoryIndex) (W : wf index) (Hlaws : schema_analyzers (schema_ index)).

Lemma document_internal_Some id r : documents_ index !! id = Some r ->
  document_internal index (internal_id r) = Some r.
Proof using W.
  intros Hr. unfold document_internal, external_id, find_document.
  assert (external_ids_ index !! internal_id r = Some id) as ->; [|done].
  apply (wf_external _ W). by eauto.
Qed.

Lemma validate_posting_Ok field t id r p :
  documents_ index !! id = Some r -> posting_of (schema_ index) field t r = Some p ->
  validate_posting index field t p = Ok tt.
Proof using W Hlaws.
  intros Hr Hp. apply posting_of_inv in Hp as (Hl & tokens & Ht & Hne & ->).
  destruct (analysed_laws _ _ _ _ Hlaws Ht) as [Hpos Hterms].
  unfold validate_posting. cbn [posting_document_id term_frequency positions].
  rewrite (document_internal_Some _ _ Hr), Hl. cbn [ensure mbind expected_bind].
  rewrite Z.eqb_refl. cbn [ensure mbind expected_bind].
  assert (adjacent_all Z.ltb (occurrences t tokens) = true) as ->.
  { apply (adjacent_all_Sorted _ Z.lt); [apply Z.ltb_lt|].
    apply StronglySorted_Sorted. by apply occurrences_sorted. }
  rewrite bool_decide_eq_true_2.
  2:{ rewrite (ro_lengths _ _ _ (wf_records _ W _ _ Hr)), lookup_fmap, Ht. by eauto. }
  cbn [ensure mbind expected_bind]. apply ensure_Ok.
  apply occurrences_nonempty in Hne as (token & Htok & <-).
  rewrite Forall_forall in Hterms. apply Hterms in Htok as [_ Htok].
  unfold str_eqb. by rewrite bool_decide_eq_false_2.
Qed.

Lemma validate_term_Ok field t entry : lookup index field t = Some entry ->
  validate_term index field (t, entry) = Ok tt.
Proof using W Hlaws.
  intros He. rewrite (wf_fields _ W) in He. pose proof (inverted_sorted _ _ _ _ _ He) as Hs.
  unfold validate_term.
  assert (document_frequency entry = zlen (postings entry)) as ->
    by by apply entry_of_Some in He as (_ & ->).
  rewrite Z.eqb_refl. cbn [ensure mbind expected_bind].
  assert (adjacent_all (fun p q => posting_document_id p <=? posting_document_id q)
            (postings entry) = true) as ->.
  { apply (adjacent_all_Sorted _ posting_le); [intros; apply Z.leb_le|].
    by apply StronglySorted_Sorted. }
  cbn [ensure mbind expected_bind]. apply check_each_Ok. intros p Hp.
  apply (elem_of_inverted _ _ _ _ _ _ He) in Hp as (id & r & Hr & Hp).
  by eapply validate_posting_Ok.
Qed.

Lemma validate_dictionaries_Ok :
  check_each (fun '(field, dictionary) =>
    check_each (validate_term index field) (map_items dictionary)) (map_items (fields_ index)) = Ok tt.
Proof using W Hlaws.
  apply check_each_Ok. intros [field dictionary] Hd%elem_of_map_items.
  apply check_each_Ok. intros [t entry] Ht%elem_of_map_items.
  apply validate_term_Ok. unfold lookup. by rewrite Hd.
Qed.

(** ** The documents pass theirs *)

Lemma lower_bound_found (ps : list Posting) p : StronglySorted posting_le ps -> p ∈ ps ->
  exists q rest, lower_bound (fun x => posting_document_id x <? posting_document_id p) ps = q :: rest /\
    posting_document_id q = posting_document_id p.
Proof using Type.
  induction 1 as [|x l Hs IH Hx]; [by intros ?%not_elem_of_nil|].
  intros Hp. cbn [lower_bound]. destruct (Z.ltb_spec (posting_document_id x) (posting_document_id p)).
  - apply IH. apply elem_of_cons in Hp as [->|Hp]; [lia|done].
  - exists x, l. split; [done|]. apply elem_of_cons in Hp as [->|Hp]; [done|].
    rewrite Forall_forall in Hx. apply Hx in Hp. unfold posting_le in Hp. lia.
Qed.

Lemma validate_reference_Ok id r field tokens t :
  documents_ index !! id = Some r -> analysed (schema_ index) r !! field = Some tokens ->
  t ∈ term_list tokens -> validate_reference index r field t = Ok tt.
Proof using W.
  intros Hr Ht Hin. apply elem_of_term_list in Hin.
  assert (exists p, posting_of (schema_ index) field t r = Some p) as [p Hp].
  { unfold posting_of. rewrite Ht. cbn. destruct (occurrences t tokens); by eauto. }
  destruct (inverted_is_Some _ _ _ _ _ _ _ Hr Hp) as (entry & He & Hpe).
  unfold validate_reference. rewrite (wf_fields _ W), He.
  destruct (lower_bound_found (postings entry) p (inverted_sorted _ _ _ _ _ He) Hpe)
    as (q & rest & Hlb & Hq).
  rewrite (posting_of_id _ _ _ _ _ Hp) in Hlb, Hq. rewrite Hlb. by rewrite Hq, Z.eqb_refl.
Qed.
End checks.

Lemma term_list_sorted tokens : StronglySorted (fun s t => str_ltb s t = true) (term_list tokens).
Proof.
  unfold term_list. pose proof (map_items_keys_sorted (collect_positions tokens)) as Hs.
  induction Hs as [|k l Hs IH Hx]; constructor; [done|].
  eapply Forall_impl; [exact Hx|]. intros k' [Hle Hne].
  unfold str_ltb, str_leb. rewrite bool_decide_eq_false_2; [done|]. intros Hle'.
  apply Hne. by apply (anti_symm String.le).
Qed.

Lemma term_list_increasing tokens : adjacent_all (fun s t => str_ltb s t) (term_list tokens) = true.
Proof.
  apply (adjacent_all_Sorted _ (fun s t => str_ltb s t = true)); [done|].
  apply StronglySorted_Sorted, term_list_sorted.
Qed.

Section documents.
Context (index : InMemoryIndex) (W : wf index) (Hlaws : schema_analyzers (schema_ index)).

Definition count_field (r : DocumentRecord) (statistics : gmap string FieldAccumulator)
    (item : string * string) : gmap string FieldAccumulator :=
  add_statistic statistics (item.1, default 0 (zlen <$> analysed (schema_ index) r !! item.1)).

Lemma validate_field_Ok id r statistics field text :
  documents_ index !! id = Some r -> is_live r = true ->
  doc_fields (document r) !! field = Some text ->
  validate_document_field index r statistics (field, text) =
  Ok (count_field r statistics (field, text)).
Proof using W.
  intros Hr Hl Ht. pose proof (wf_records _ W _ _ Hr) as Hok.
  destruct (ro_fields _ _ _ Hok Hl field) as [tokens Htok]; [by eauto|].
  destruct (analysed_inv _ _ _ _ Htok) as (text' & definition & analyzer & Ht' & Hf & Hi & Ha & Hana).
  assert (text' = text) as -> by congruence.
  unfold validate_document_field, count_field. cbn [fst].
  rewrite Hf, Hi. cbn [negb]. rewrite Ha, Hana.
  rewrite (ro_lengths _ _ _ Hok), (ro_terms _ _ _ Hok), !lookup_fmap, Htok.
  cbn [fmap option_fmap option_map default option_rect].
  rewrite Z.eqb_refl. cbn [ensure mbind expected_bind]. rewrite term_list_increasing.
  cbn [ensure mbind expected_bind].
  rewrite (proj2 (check_each_Ok _ _)); [done|]. intros t Hin. by eapply validate_reference_Ok.
Qed.

Definition count_document (statistics : gmap string FieldAccumulator)
    (item : string * DocumentRecord) : gmap string FieldAccumulator :=
  if is_live item.2 then foldl (count_field item.2) statistics (map_items (doc_fields (document item.2)))
  else statistics.

Lemma validate_document_Ok statistics id r : documents_ index !! id = Some r ->
  validate_document index statistics (id, r) = Ok (count_document statistics (id, r)).
Proof using W.
  intros Hr. pose proof (wf_records _ W _ _ Hr) as Hok. unfold validate_document, count_document.
  cbn [snd]. unfold str_eqb. rewrite (ro_id _ _ _ Hok), (bool_decide_eq_true_2 (id = id)) by done.
  cbn [ensure mbind expected_bind].
  rewrite (bool_decide_eq_true_2 (external_ids_ _ !! _ = _)) by (apply (wf_external _ W); by eauto).
  cbn [ensure mbind expected_bind].
  destruct (is_live r) eqn:El; cbn [orb ensure mbind expected_bind].
  - apply fold_each_Ok. intros s [field text] Hin%elem_of_map_items. by eapply validate_field_Ok.
  - assert (analysed (schema_ index) r = ∅) as E by (unfold analysed; by rewrite El).
    rewrite (ro_lengths _ _ _ Hok), (ro_terms _ _ _ Hok), E, !fmap_empty.
    by rewrite !bool_decide_eq_true_2 by done.
Qed.

Lemma count_document_lookup statistics id r field : documents_ index !! id = Some r ->
  count_document statistics (id, r) !! field =
  match analysed (schema_ index) r !! field with
  | Some tokens => Some (add_length (zlen tokens) (statistics !! field))
  | None => statistics !! field
  end.
Proof using W.
  intros Hr. unfold count_document. cbn [snd]. destruct (is_live r) eqn:El.
  2:{ unfold analysed. by rewrite El, lookup_empty. }
  rewrite (foldl_map_entries (count_field r) (fun field _ o =>
    Some (add_length (default 0 (zlen <$> analysed (schema_ index) r !! field)) o))).
  - destruct (doc_fields (document r) !! field) as [text|] eqn:Et.
    + destruct (ro_fields _ _ _ (wf_records _ W _ _ Hr) El field) as [tokens Htok]; [by eauto|].
      by rewrite Htok.
    + destruct (analysed (schema_ index) r !! field) as [tokens|] eqn:Ea; [|done].
      apply analysed_inv in Ea as (? & ? & ? & ? & _). congruence.
  - intros m f t k. unfold count_field, add_statistic, add_length. cbn [fst].
    case_decide as E; [subst; by rewrite lookup_insert_eq|by rewrite lookup_insert_ne].
Qed.

Lemma count_documents_lookup (l : list (string * DocumentRecord)) field : forall statistics,
  (forall id r, (id, r) ∈ l -> documents_ index !! id = Some r) ->
  let lens := omap (fun item => zlen <$> analysed (schema_ index) (item.2) !! field) l in
  forall ls, statistics !! field = accumulate ls -> Forall is_u32 (lens ++ ls) ->
    zlen (lens ++ ls) <= u32_max ->
    foldl count_document statistics l !! field = accumulate (lens ++ ls).
Proof using W.
  induction l as [|[id r] l IH]; intros statistics Hl lens ls Hs Hf Hlen; [done|].
  subst lens. cbn [foldl omap list_omap fst snd] in *.
  destruct (analysed (schema_ index) r !! field) as [tokens|] eqn:E.
  - cbn [fmap option_fmap option_map] in *.
    assert (Hperm : forall lens : list Z, (zlen tokens :: lens) ++ ls ≡ₚ lens ++ (zlen tokens :: ls))
      by (intros; cbn; apply Permutation_middle).
    rewrite (accumulate_perm _ _ (Hperm _)). unfold zlen at 1 in Hlen. rewrite (Hperm _) in Hf, Hlen.
    apply IH; [intros; apply Hl; by right| |done|exact Hlen].
    rewrite (count_document_lookup _ id r) by (apply Hl; left). rewrite E, Hs.
    apply add_length_accumulate; [by apply Forall_app in Hf as [_ ?]|].
    rewrite length_app in Hlen. unfold zlen. cbn [length] in *. lia.
  - cbn [fmap option_fmap option_map] in *. apply IH; [intros; apply Hl; by right| |done|done].
    rewrite (count_document_lookup _ id r) by (apply Hl; left). by rewrite E.
Qed.

Lemma counted_statistics : foldl count_document ∅ (map_items (documents_ index)) = field_statistics_ index.
Proof using W.
  apply map_eq. intros field. rewrite (wf_statistics _ W). unfold total_statistics.
  assert (Hp : omap (fun item => zlen <$> analysed (schema_ index) (item.2) !! field)
      (map_items (documents_ index)) ++ [] ≡ₚ lengths_of (schema_ index) (documents_ index) field).
  { rewrite app_nil_r, map_items_perm. unfold lengths_of, records_of.
    induction (map_to_list (documents_ index)) as [|[id r] l IH]; [done|]. cbn in *.
    destruct (_ !! field); cbn; by rewrite IH. }
  rewrite <- (accumulate_perm _ _ Hp). apply count_documents_lookup.
  - intros id r. apply elem_of_map_items.
  - by rewrite lookup_empty.
  - rewrite Hp. apply lengths_of_u32. eapply map_Forall_impl; [apply (wf_records _ W)|].
    intros k r' Hr'. apply (ro_small _ _ _ Hr').
  - unfold zlen. rewrite Hp. pose proof (length_lengths_of (schema_ index) (documents_ index) field).
    pose proof (wf_maximum _ W). unfold zlen in *. lia.
Qed.

Lemma validate_invariants_Ok : validate_invariants index = Ok tt.
Proof using W Hlaws.
  unfold validate_invariants. rewrite validate_dictionaries_Ok by done. cbn [mbind expected_bind].
  rewrite (fold_each_Ok _ count_document).
  2:{ intros s [id r] Hr%elem_of_map_items. by apply validate_document_Ok. }
  cbn [mbind expected_bind]. rewrite counted_statistics, (wf_external_size _ W), !Nat.eqb_refl.
  cbn [ensure mbind expected_bind]. apply check_each_Ok. intros [field s] Hs%elem_of_map_items.
  unfold validate_statistic. by rewrite bool_decide_eq_true_2.
Qed.
End documents.

(** ** Live documents *)

Lemma live_ids_elem index i : wf index ->
  i ∈ live_document_ids index <->
  exists id r, documents_ index !! id = Some r /\ internal_id r = i /\ is_live r = true.
Proof.
  intros W. unfold live_document_ids. rewrite list_elem_of_omap. split.
  - intros ([i' id] & Hin%elem_of_map_items & H). unfold find_document in H.
    destruct (documents_ index !! id) as [r|] eqn:Er; [|done].
    destruct (is_live r) eqn:El; [|done]. injection H as ->.
    apply (wf_external _ W) in Hin as (r' & Hr' & E). exists id, r. by split_and!; [|congruence|].
  - intros (id & r & Hr & Hi & Hl). exists (i, id). split.
    + apply elem_of_map_items, (wf_external _ W). by eauto.
    + unfold find_document. by rewrite Hr, Hl.
Qed.

Lemma live_ids_sorted index : StronglySorted Z.lt (live_document_ids index).
Proof.
  apply StronglySorted_key_lt. apply (StronglySorted_sublist _ _ (map_items (external_ids_ index)).*1);
    [|apply map_items_keys_sorted].
  unfold live_document_ids. induction (map_items (external_ids_ index)) as [|[i id] l IH]; [constructor|].
  cbn [omap list_omap]. rewrite fmap_cons. cbn.
  destruct (find_document index id) as [r|]; [|by constructor].
  destruct (is_live r); by constructor.
Qed.

Lemma live_count index : wf index -> live_document_count index = zlen (live_document_ids index).
Proof.
  intros W. unfold live_document_count, zlen. f_equal.
  rewrite <- (length_fmap (fun item => internal_id item.2)). apply Permutation_length.
  apply NoDup_Permutation.
  - apply NoDup_fmap_2_strong.
    + intros [id1 r1] [id2 r2] [_ H1]%list_elem_of_filter [_ H2]%list_elem_of_filter E.
      apply elem_of_map_items in H1, H2. cbn in E.
      assert (id1 = id2) as -> by (eapply (wf_unique _ W); eauto). congruence.
    + apply NoDup_filter. eapply NoDup_fmap_1, NoDup_fst_map_items.
  - pose proof (live_ids_sorted index) as Hs.
    induction Hs as [|x l Hs IH Hx]; constructor; [|done].
    rewrite Forall_forall in Hx. intros Hin%Hx. lia.
  - intros i. rewrite (live_ids_elem _ _ W), list_elem_of_fmap. split.
    + intros ([id r] & -> & [Hl Hin]%list_elem_of_filter). apply elem_of_map_items in Hin.
      exists id, r. by split_and!.
    + intros (id & r & Hr & <- & Hl). exists (id, r). split; [done|].
      apply list_elem_of_filter. split; [done|]. by apply elem_of_map_items.
Qed.

(** ** Rejections *)

(** Why [put] reports each error code. *)
Definition put_rejected (index : InMemoryIndex) (d : Document) (code : IndexErrorCode) : Prop :=
  let indexed_field field text definition :=
    doc_deleted d = false /\ doc_fields d !! field = Some text /\
    IndexSchema.find (schema_ index) field = Some definition /\ fd_indexed definition = true in
  match code with
  | empty_document_id => doc_id d = ""
  | stale_version => ~ newer index d
  | schema_error =>
      ~ (entries_accepted (schema_ index) fd_indexed (doc_fields d) /\
         entries_accepted (schema_ index) fd_stored (doc_stored_metadata d))
  | internal_id_exhausted =>
      documents_ index !! doc_id d = None /\
      Z.of_nat (size (documents_ index)) = maximum_internal_id_ index
  | analysis_failed => exists field text definition analyzer what,
      indexed_field field text definition /\ fd_analyzer definition = Some analyzer /\
      analyze analyzer text = Err what
  | field_length_overflow => exists field text definition analyzer tokens,
      indexed_field field text definition /\ fd_analyzer definition = Some analyzer /\
      analyze analyzer text = Ok tokens /\ u32_max < zlen tokens
  | null_analyzer => exists field text definition,
      indexed_field field text definition /\ fd_analyzer definition = None
  end.

Lemma allocate_Err index id e : wf index -> allocate index (documents_ index !! id) = Err e ->
  index_code e = internal_id_exhausted /\ documents_ index !! id = None /\
  Z.of_nat (size (documents_ index)) = maximum_internal_id_ index.
Proof.
  intros W. unfold allocate. destruct (documents_ index !! id); [done|].
  destruct (Z.eqb_spec (next_internal_id_ index) 0) as [Hn|Hn];
  destruct (Z.gtb_spec (next_internal_id_ index) (maximum_internal_id_ index)) as [Hm|Hm];
    cbn [orb]; try done; intros [= <-]; (split_and!; [done|done|]);
    pose proof (wf_maximum _ W) as Hb; rewrite (wf_next _ W) in *; unfold wrap32, u32_max in *.
  1, 2: destruct (Z.eq_dec (Z.of_nat (size (documents_ index))) 4294967295) as [|Hne]; [lia|];
    rewrite Z.mod_small in Hn by lia; lia.
  destruct (Z.eq_dec (Z.of_nat (size (documents_ index))) 4294967295) as [|Hne]; [lia|].
  rewrite Z.mod_small in Hm by lia. lia.
Qed.

Lemma prepare_Err index d e : prepare (schema_ index) d = Err e ->
  put_rejected index d (index_code e).
Proof.
  unfold prepare. destruct (doc_deleted d) eqn:Ed; [done|].
  intros (prepared & [field text] & Hin%elem_of_map_items & He)%fold_each_Err.
  unfold prepare_field in He.
  destruct (IndexSchema.find (schema_ index) field) as [definition|] eqn:Ef; [|done].
  destruct (fd_indexed definition) eqn:Ei; [|done]. cbn [negb] in He.
  destruct (fd_analyzer definition) as [analyzer|] eqn:Ea.
  2:{ injection He as <-. cbn. by eauto 10. }
  destruct (analyze analyzer text) as [tokens|what] eqn:Et.
  2:{ injection He as <-. cbn. by eauto 15. }
  destruct (Z.gtb_spec (zlen tokens) u32_max); [|done]. injection He as <-. cbn.
  exists field, text, definition, analyzer, tokens. by split_and!.
Qed.

Lemma put_Err index d e : wf index -> put index d = Err e -> put_rejected index d (index_code e).
Proof.
  intros W. unfold put, str_eqb. case_bool_decide as E0; [by intros [= <-]|]. intros H.
  apply bind_Err in H as [H|([] & _ & H)].
  { destruct (documents_ index !! doc_id d) as [r|] eqn:Er; [|done].
    destruct (Z.leb_spec (doc_version d) (doc_version (document r))); [|done].
    injection H as <-. cbn. intros Hn. specialize (Hn _ Er). lia. }
  apply bind_Err in H as [[Hc Hn]%check_entries_Err|([] & _ & H)].
  { rewrite Hc. cbn. by intros [??]. }
  apply bind_Err in H as [[Hc Hn]%check_entries_Err|([] & _ & H)].
  { rewrite Hc. cbn. by intros [??]. }
  apply bind_Err in H as [(Hc & ? & ?)%allocate_Err|(i & _ & H)]; [by rewrite Hc|done|].
  apply bind_Err in H as [H|(p & _ & H)]; [by apply prepare_Err|done].
Qed.

(** ** Properties *)

(** C3.  In every index that puts and erases can build, the dictionaries hold
    exactly the analysis of the visible documents: an entry is the list of the
    live documents that contain the term, in increasing id order, with their
    frequencies and positions; a field's statistics are the number and the
    total length of the live documents that have it (without overflow); and
    the two id maps are inverse to each other. *)
Theorem index_is_inversion schema maximum index :
  is_u32 maximum -> reachable schema maximum index ->
  (forall field t, lookup index field t = inverted schema (documents_ index) field t) /\
  (forall field, field_statistics_ index !! field =
                 total_statistics schema (documents_ index) field) /\
  (forall i id, external_id index i = Some id <-> internal_id_of index id = Some i).
Proof.
  intros Hm [W <-]%reachable_wf; [|done]. split_and!.
  - apply (wf_fields _ W).
  - apply (wf_statistics _ W).
  - intros i id. unfold external_id, internal_id_of. rewrite (wf_external _ W), fmap_Some.
    split; intros (r & ? & ?); by eauto.
Qed.

Definition sample_document : Document :=
  {| doc_id := "a"; doc_fields := {["title" := "One two, one"]}; doc_stored_metadata := ∅;
     doc_version := 3; doc_deleted := false |}.

Lemma sample_put (test : InMemoryIndex -> bool) :
  ok_and (put (make IndexSchema.default_schema 10) sample_document) test = true ->
  exists index, put (make IndexSchema.default_schema 10) sample_document = Ok index /\
    test index = true /\ reachable IndexSchema.default_schema 10 index.
Proof.
  intros (index & E & H)%ok_and_true. exists index. split_and!; [done..|].
  eapply reach_put; [apply reach_make|exact E].
Qed.

Lemma index_is_inversion_witness :
  exists index, put (make IndexSchema.default_schema 10) sample_document = Ok index /\
    lookup index "title" "one" =
    Some {| document_frequency := 1;
            postings := [{| posting_document_id := 1; term_frequency := 2; positions := [0; 2] |}] |} /\
    lookup index "title" "one" =
    inverted IndexSchema.default_schema (documents_ index) "title" "one".
Proof.
  assert (H : ok_and (put (make IndexSchema.default_schema 10) sample_document)
    (fun index => bool_decide (lookup index "title" "one" =
      Some {| document_frequency := 1;
              postings := [{| posting_document_id := 1; term_frequency := 2;
                              positions := [0; 2] |}] |})) = true) by (vm_compute; reflexivity).
  apply sample_put in H as (index & E & Hl%bool_decide_eq_true & Hreach).
  exists index. split; [exact E|]. split; [exact Hl|].
  apply (index_is_inversion IndexSchema.default_schema 10 index);
    [split; vm_compute; discriminate|exact Hreach].
Defined.

(** C10.  [put] on any reachable index: it succeeds only for a named document
    with a newer version whose every field is a valid value of an indexed
    field and whose every metadata entry is a valid value of a stored one, and
    then exactly that document becomes visible, under its old internal id or
    the next free one, with the analysis of its fields; and each error code
    is reported only for its own reason. *)
Theorem put_spec schema maximum index d :
  is_u32 maximum -> reachable schema maximum index ->
  match put index d with
  | Ok index' =>
      doc_id d <> "" /\ newer index d /\
      entries_accepted schema fd_indexed (doc_fields d) /\
      entries_accepted schema fd_stored (doc_stored_metadata d) /\
      exists record, document record = d /\ record_ok schema (doc_id d) record /\
        documents_ index' = <[doc_id d := record]> (documents_ index) /\
        internal_id record = match documents_ index !! doc_id d with
                             | Some old => internal_id old
                             | None => Z.of_nat (size (documents_ index)) + 1
                             end
  | Err e => put_rejected index d (index_code e)
  end.
Proof.
  intros Hm [W <-]%reachable_wf; [|done]. destruct (put index d) as [index'|e] eqn:E.
  - apply put_Ok in E as (H1 & H2 & H3 & H4 & record & p & <- & Hr & Hp & Ha & ->).
    split_and!; [done..|]. exists record. split_and!; [done|done|apply publish_documents|].
    pose proof (allocate_Ok index _ _ W ltac:(by eauto) Ha) as H. 
    destruct (documents_ index !! doc_id (document record)); [done|by destruct H].
  - by apply put_Err.
Qed.

Lemma put_spec_witness :
  is_Ok (put (make IndexSchema.default_schema 10) sample_document) = true /\
  newer (make IndexSchema.default_schema 10) sample_document.
Proof.
  pose proof (put_spec IndexSchema.default_schema 10 (make IndexSchema.default_schema 10)
    sample_document ltac:(by vm_compute) (reach_make _ _)) as H.
  assert (is_Ok (put (make IndexSchema.default_schema 10) sample_document) = true) as E
    by (vm_compute; reflexivity).
  destruct (put (make IndexSchema.default_schema 10) sample_document); [|discriminate E].
  split; [exact E|apply H].
Defined.

(**  [validate_invariants] returns true on every index that puts and
    erases can build, when the analyzers of the schema satisfy
    [AnalyzerLaws], as both of the program's do. *)
Theorem validate_invariants_holds schema maximum index :
  is_u32 maximum -> schema_analyzers schema -> reachable schema maximum index ->
  validate_invariants index = Ok tt.
Proof. intros Hm Hlaws [W <-]%reachable_wf; [|done]. by apply validate_invariants_Ok. Qed.

Lemma default_schema_analyzers : schema_analyzers IndexSchema.default_schema.
Proof.
  intros field definition analyzer Hf _ Ha.
  apply (create_find _ _ _ _ default_schema_ok) in Hf as [Hin _].
  unfold IndexSchema.default_definitions in Hin. rewrite !elem_of_cons in Hin.
  destruct Hin as [->|[->|[->|[->|Hin]]]]; cbn in Ha; try (injection Ha as <-; apply _); [done|].
  by apply not_elem_of_nil in Hin.
Qed.

Lemma validate_invariants_holds_witness :
  exists index, put (make IndexSchema.default_schema 10) sample_document = Ok index /\
    validate_invariants index = Ok tt.
Proof.
  assert (H : ok_and (put (make IndexSchema.default_schema 10) sample_document)
    (fun _ => true) = true) by (vm_compute; reflexivity).
  apply sample_put in H as (index & E & _ & Hreach).
  exists index. split; [exact E|].
  apply (validate_invariants_holds IndexSchema.default_schema 10 index);
    [split; vm_compute; discriminate|apply default_schema_analyzers|exact Hreach].
Defined.

(**  After a successful [erase] the document is a tombstone of the new
    version: it is not among the live ids and no posting of any term refers to
    it, while every other document is untouched; and the live ids are always
    the strictly increasing list of the undeleted documents' ids, as many as
    [live_document_count] says. *)
Theorem erase_spec schema maximum index id version index' :
  is_u32 maximum -> reachable schema maximum index -> erase index id version = Ok index' ->
  (document <$> find_document index' id = Some (tombstone id version)) /\
  (forall id', id' <> id -> find_document index' id' = find_document index id') /\
  (forall i, internal_id_of index' id = Some i ->
     i ∉ live_document_ids index' /\
     forall field t entry, lookup index' field t = Some entry ->
       i ∉ posting_document_id <$> postings entry) /\
  StronglySorted Z.lt (live_document_ids index') /\
  zlen (live_document_ids index') = live_document_count index'.
Proof.
  intros Hm Hreach Her.
  destruct (reachable_wf schema maximum index' Hm) as [W' Hs'].
  { eapply reach_erase; [exact Hreach|exact Her]. }
  apply erase_put in Her as (_ & _ & _ & _ & record & p & Hd & _ & _ & _ & E)%put_Ok.
  assert (documents_ index' = <[id := record]> (documents_ index)) as Edocs.
  { rewrite E. change id with (doc_id (tombstone id version)) at 2. rewrite <- Hd.
    apply publish_documents. }
  clear E. assert (is_live record = false) as Hdead by (unfold is_live; by rewrite Hd).
  unfold find_document, internal_id_of. rewrite Edocs, lookup_insert_eq.
  split_and!.
  - cbn. by rewrite Hd.
  - intros id' Hne. by rewrite lookup_insert_ne.
  - cbn. intros i [= <-]. split.
    + rewrite (live_ids_elem _ _ W'). intros (id' & r & Hr & Hi & Hl).
      assert (id' = id) as ->.
      { eapply (wf_unique _ W'); [exact Hr|by rewrite Edocs, lookup_insert_eq|done]. }
      rewrite Edocs, lookup_insert_eq in Hr. congruence.
    + intros field t entry He. rewrite (wf_fields _ W') in He.
      intros (q & Eq & Hq)%list_elem_of_fmap.
      apply (elem_of_inverted _ _ _ _ _ _ He) in Hq as (id' & r & Hr & Hq).
      pose proof (posting_of_id _ _ _ _ _ Hq) as Hi. apply posting_of_inv in Hq as [Hl _].
      assert (id' = id) as ->.
      { eapply (wf_unique _ W'); [exact Hr|by rewrite Edocs, lookup_insert_eq|congruence]. }
      rewrite Edocs, lookup_insert_eq in Hr. congruence.
  - apply live_ids_sorted.
  - symmetry. by apply live_count.
Qed.

Lemma erase_spec_witness :
  exists index index', reachable IndexSchema.default_schema 10 index /\
    erase index "a" 7 = Ok index' /\ document <$> find_document index' "a" = Some (tombstone "a" 7).
Proof.
  assert (H : ok_and (put (make IndexSchema.default_schema 10) sample_document)
    (fun index => is_Ok (erase index "a" 7)) = true) by (vm_compute; reflexivity).
  apply sample_put in H as (index & E & H & Hreach). clear E.
  destruct (erase index "a" 7) as [index'|] eqn:Her; [|discriminate H].
  exists index, index'. split; [exact Hreach|]. split; [exact Her|].
  apply (erase_spec IndexSchema.default_schema 10 index "a" 7 index');
    [split; vm_compute; discriminate|exact Hreach|exact Her].
Defined.

(**  An int64 or timestamp field may be declared as indexed, and then it
    must have no analyzer; a valid, live document with such a field makes
    [put] call the analysis through the null analyzer pointer. *)
Theorem typed_field_put_undefined schema maximum index d field value definition :
  is_u32 maximum -> reachable schema maximum index -> schema_ok schema ->
  IndexSchema.find schema field = Some definition -> fd_indexed definition = true ->
  fd_type definition = ft_int64 \/ fd_type definition = ft_timestamp ->
  doc_id d <> "" -> doc_deleted d = false -> doc_stored_metadata d = ∅ -> newer index d ->
  doc_fields d = {[field := value]} -> IndexSchema.validate_value schema field value = Ok tt ->
  Z.of_nat (size (documents_ index)) < maximum ->
  put index d = Err (reject null_analyzer "").
Proof.
  intros Hm Hreach Hok Hf Hi Hty Hid Hlive Hmeta Hnew Hfields Hv Hsize.
  assert (maximum_internal_id_ index = maximum) as Hmax.
  { clear -Hreach. induction Hreach as [|? ? ? _ IH Hput|? ? ? ? _ IH Her]; [done| |];
      [|apply erase_put in Her as Hput]; apply put_Ok in Hput as (_ & _ & _ & _ & r & p & <- & _ & _ & _ & ->);
      by rewrite publish_maximum. }
  apply reachable_wf in Hreach as [W <-]; [|done].
  unfold put, str_eqb. rewrite (bool_decide_eq_false_2 (doc_id d = "")) by done.
  assert (match documents_ index !! doc_id d with
    | Some record => ensure (negb (doc_version d <=? doc_version (document record)))
        (reject stale_version "document version must be newer than visible version")
    | None => Ok tt end = Ok tt) as ->.
  { destruct (documents_ index !! doc_id d) as [r|] eqn:Er; [|done].
    specialize (Hnew _ Er). apply ensure_Ok. by destruct (Z.leb_spec (doc_version d) (doc_version (document r))); [lia|]. }
  cbn [mbind expected_bind]. unfold validate_fields, validate_metadata.
  rewrite Hfields, Hmeta, map_items_singleton, map_items_empty. cbn [check_each validate_entry].
  rewrite Hv, Hf, Hi. cbn [mbind expected_bind].
  destruct (allocate index (documents_ index !! doc_id d)) as [i|e] eqn:Ea.
  2:{ apply allocate_Err in Ea as (_ & _ & E); [lia|done]. }
  cbn [mbind expected_bind]. unfold prepare. rewrite Hlive, Hfields, map_items_singleton.
  cbn [fold_each prepare_field]. rewrite Hf, Hi. cbn [negb].
  assert (fd_analyzer definition = None) as ->; [|done].
  apply Hok in Hf as [_ (_ & _ & _ & Hneeds)].
  destruct (fd_analyzer definition) as [a|]; [|done].
  assert (IndexSchema.needs_analyzer definition = true) as Hn by (apply Hneeds; by eauto).
  unfold IndexSchema.needs_analyzer in Hn. rewrite Hi in Hn. destruct Hty as [E|E]; by rewrite E in Hn.
Qed.

Definition typed_definition : FieldDefinition :=
  {| fd_name := "year"; fd_type := ft_int64; fd_indexed := true; fd_stored := true;
     fd_boost := d_one; fd_analyzer := None |}.
Definition typed_document : Document :=
  {| doc_id := "a"; doc_fields := {["year" := "1999"]}; doc_stored_metadata := ∅;
     doc_version := 1; doc_deleted := false |}.

Lemma typed_field_put_undefined_witness :
  exists schema, IndexSchema.create [typed_definition] = Ok schema /\
    put (make schema 10) typed_document = Err (reject null_analyzer "").
Proof.
  exists {| IndexSchema.fields_ := {["year" := typed_definition]} |}.
  assert (Hc : IndexSchema.create [typed_definition] =
    Ok {| IndexSchema.fields_ := {["year" := typed_definition]} |}) by reflexivity.
  split; [exact Hc|].
  apply (typed_field_put_undefined {| IndexSchema.fields_ := {["year" := typed_definition]} |}
    10 _ typed_document "year" "1999" typed_definition).
  - split; vm_compute; discriminate.
  - apply reach_make.
  - eapply create_schema_ok, Hc.
  - reflexivity.
  - reflexivity.
  - by left.
  - discriminate.
  - reflexivity.
  - reflexivity.
  - intros r H. cbn in H. by rewrite lookup_empty in H.
  - reflexivity.
  - reflexivity.
  - reflexivity.
Defined.
