(* ===== verification/Contents.v ===== *)
(** * The documents of an index

    What an index holds, apart from internal ids: its documents by id.  [put]
    depends on an index only through its schema, its documents and its room,
    so two indexes that agree on these take the same mutations. *)

From S2P Require Import Prelude Text Doubles Analysis Schema Types Index IndexSpec IndexChecks.

Definition contents (index : InMemoryIndex) : gmap string Document :=
  document <$> InMemoryIndex.documents_ index.

Lemma contents_make schema maximum : contents (InMemoryIndex.make schema maximum) = ∅.
Proof. unfold contents. cbn. apply fmap_empty. Qed.

Lemma contents_Some index id d : contents index !! id = Some d <->
  exists r, InMemoryIndex.documents_ index !! id = Some r /\ document r = d.
Proof. unfold contents. rewrite lookup_fmap, fmap_Some. naive_solver. Qed.

Lemma contents_size index : size (contents index) = size (InMemoryIndex.documents_ index).
Proof. apply map_size_fmap. Qed.

Lemma put_contents index d index' : InMemoryIndex.put index d = Ok index' ->
  contents index' = <[doc_id d := d]> (contents index) /\
  InMemoryIndex.maximum_internal_id_ index' = InMemoryIndex.maximum_internal_id_ index.
Proof.
  intros (_ & _ & _ & _ & record & p & <- & _ & _ & _ & ->)%put_Ok. split; [|apply publish_maximum].
  unfold contents. by rewrite publish_documents, fmap_insert.
Qed.

(** A mutation that one index takes is taken by every other index with the
    schema, the document of that id and room for a new one. *)
Lemma put_agrees index1 index2 d index1' : InMemoryIndex.put index1 d = Ok index1' ->
  InMemoryIndex.schema_ index2 = InMemoryIndex.schema_ index1 ->
  contents index2 !! doc_id d = contents index1 !! doc_id d -> wf index2 ->
  (contents index2 !! doc_id d = None ->
     Z.of_nat (size (contents index2)) < InMemoryIndex.maximum_internal_id_ index2) ->
  exists index2', InMemoryIndex.put index2 d = Ok index2'.
Proof.
  intros Hput Hs Hc W Hroom. unfold InMemoryIndex.put in Hput |- *. rewrite Hs.
  destruct (str_eqb (doc_id d) ""); [done|].
  apply bind_Ok in Hput as ([] & Hv & Hput). apply bind_Ok in Hput as ([] & Hf & Hput).
  apply bind_Ok in Hput as ([] & Hm & Hput). apply bind_Ok in Hput as (i & _ & Hput).
  apply bind_Ok in Hput as (p & Hp & _).
  assert (match InMemoryIndex.documents_ index2 !! doc_id d with
          | Some record => ensure (negb (doc_version d <=? doc_version (document record)))
              (InMemoryIndex.reject stale_version "document version must be newer than visible version")
          | None => Ok tt
          end = Ok tt) as ->.
  { unfold contents in Hc. rewrite !lookup_fmap in Hc.
    destruct (InMemoryIndex.documents_ index1 !! doc_id d), (InMemoryIndex.documents_ index2 !! doc_id d);
      try done. cbn in Hc. injection Hc as ->. done. }
  rewrite Hf, Hm. cbn [mbind expected_bind].
  destruct (InMemoryIndex.allocate index2 _) as [j|e] eqn:Ha.
  - cbn [mbind expected_bind]. rewrite Hp. cbn. by eexists.
  - apply allocate_Err in Ha as (_ & Hnone & Hfull); [|done].
    rewrite contents_size in Hroom. rewrite Hfull in Hroom. unfold contents in Hroom.
    rewrite lookup_fmap, Hnone in Hroom. specialize (Hroom eq_refl). lia.
Qed.

Lemma reachable_maximum schema maximum index : reachable schema maximum index ->
  InMemoryIndex.maximum_internal_id_ index = maximum.
Proof.
  induction 1 as [|index d index' _ IH H|index id version index' _ IH H]; [done|..].
  - by apply put_contents in H as [_ ->].
  - by apply erase_put, put_contents in H as [_ ->].
Qed.
