(* ===== verification/ViewSpec.v ===== *)
(** * What a query needs of an index

    [IndexViewLaws] is the contract between the query engine and an index:
    the view answers as the index rebuilt from its documents would.  The
    in-memory index satisfies it in every reachable state. *)

From S2P Require Import Prelude Text Doubles Analysis Schema Types Index IndexSpec IndexChecks.
From Stdlib Require Import SpecFloat.

Definition rebuilt_statistics (schema : IndexSchema) (documents : DocumentRecords) (field : string)
    : FieldStatistics :=
  match total_statistics schema documents field with
  | Some accumulator => InMemoryIndex.statistics_of accumulator
  | None => {| fs_document_count := 0; fs_total_length := 0; fs_average_length := d_zero |}
  end.

(** How many live documents have the term in the field. *)
Definition documents_with (schema : IndexSchema) (documents : DocumentRecords) (field t : string) : Z :=
  zlen (omap (posting_of schema field t) (records_of documents)).

(** A view answers for its own [documents]; the document frequencies and the
    statistics are those of a [corpus] that contains them, so that scores from
    several views of one corpus can be compared. *)
Class CorpusViewLaws (v : SearchIndexView) (schema : IndexSchema) (corpus documents : DocumentRecords)
    : Prop := {
  law_schema : view_schema v = schema;
  law_analyzers : schema_analyzers schema;
  law_records : map_Forall (record_ok schema) documents;
  law_corpus : map_Forall (record_ok schema) corpus;
  law_within id r : documents !! id = Some r ->
    exists r', corpus !! id = Some r' /\ document r' = document r;
  law_unique : ids_unique documents;
  law_size : Z.of_nat (size corpus) <= u32_max;
  law_lookup field t : view_lookup v field t =
    (fun entry => {| document_frequency := documents_with schema corpus field t;
                     postings := postings entry |}) <$> inverted schema documents field t;
  law_statistics field : view_field_statistics v field = rebuilt_statistics schema corpus field;
  law_document id : view_document v id = documents !! id;
  law_internal i r : view_document_internal v i = Some r <->
    exists id, documents !! id = Some r /\ internal_id r = i;
  law_internal_id id : view_internal_id v id = internal_id <$> documents !! id;
  law_external i id : view_external_id v i = Some id <->
    exists r, documents !! id = Some r /\ internal_id r = i;
  law_live_sorted : StronglySorted Z.lt (view_live_document_ids v);
  law_live i : i ∈ view_live_document_ids v <->
    exists id r, documents !! id = Some r /\ internal_id r = i /\ InMemoryIndex.is_live r = true;
  law_live_count : view_live_document_count v =
    zlen (filter (fun item => InMemoryIndex.is_live item.2 = true) (map_items corpus))
}.

(** A view of a whole index is its own corpus. *)
Notation IndexViewLaws v schema documents := (CorpusViewLaws v schema documents documents).

(** The document frequency of an entry counts the documents that have the term. *)
Lemma inverted_frequency schema documents field t :
  (fun entry => {| document_frequency := documents_with schema documents field t;
                   postings := postings entry |}) <$> inverted schema documents field t =
  inverted schema documents field t.
Proof.
  destruct (inverted schema documents field t) as [entry|] eqn:E; [|done].
  apply entry_of_Some in E as (_ & ->). cbn. do 2 f_equal. unfold documents_with, zlen.
  by rewrite merge_sort_Permutation.
Qed.

Lemma no_documents_with schema documents field t : inverted schema documents field t = None ->
  documents_with schema documents field t = 0.
Proof.
  unfold inverted, documents_with, zlen. intros E.
  rewrite <- (merge_sort_Permutation posting_le (omap _ _)). by destruct (merge_sort _ _).
Qed.

Lemma in_memory_view_laws schema maximum index :
  is_u32 maximum -> schema_analyzers schema -> reachable schema maximum index ->
  IndexViewLaws (InMemoryIndex.view index) schema (InMemoryIndex.documents_ index).
Proof.
  intros Hm Ha [W <-]%reachable_wf; [|done]. split; cbn.
  - done.
  - done.
  - apply (wf_records _ W).
  - apply (wf_records _ W).
  - eauto.
  - by apply wf_unique.
  - pose proof (wf_maximum _ W). lia.
  - intros field t. rewrite inverted_frequency. apply (wf_fields _ W).
  - intros field. unfold InMemoryIndex.field_statistics, rebuilt_statistics.
    by rewrite (wf_statistics _ W).
  - done.
  - intros i r. unfold InMemoryIndex.document_internal, InMemoryIndex.external_id,
      InMemoryIndex.find_document. split.
    + destruct (InMemoryIndex.external_ids_ index !! i) as [id|] eqn:E; [|done]. intros Hr.
      exists id. split; [done|]. apply (wf_external _ W) in E as (r' & Hr' & E). congruence.
    + intros (id & Hr & Hi).
      assert (InMemoryIndex.external_ids_ index !! i = Some id) as ->; [|done].
      apply (wf_external _ W). by eauto.
  - done.
  - intros i id. apply (wf_external _ W).
  - apply live_ids_sorted.
  - intros i. by apply live_ids_elem.
  - done.
Qed.

(** ** Consequences of the laws *)

Section laws.
Context {v : SearchIndexView} {schema : IndexSchema} {corpus documents : DocumentRecords}.
Context `{L : !CorpusViewLaws v schema corpus documents}.

(** An entry of the view is the inverted entry with the corpus's frequency. *)
Lemma view_entry field t entry : view_lookup v field t = Some entry ->
  document_frequency entry = documents_with schema corpus field t /\
  exists entry', inverted schema documents field t = Some entry' /\ postings entry = postings entry'.
Proof using L.
  rewrite law_lookup. intros (entry' & He & ->)%fmap_Some. split; [done|]. by exists entry'.
Qed.

Lemma view_no_entry field t : view_lookup v field t = None -> inverted schema documents field t = None.
Proof using L. rewrite law_lookup. by intros ?%fmap_None. Qed.

(** Fields and postings of a document are those of its copy in the corpus. *)
Lemma corpus_analysed id r : documents !! id = Some r ->
  exists r', r' ∈ records_of corpus /\ analysed schema r' = analysed schema r.
Proof using L.
  intros (r' & Hr' & E)%law_within. exists r'. split; [apply elem_of_records_of; by eauto|].
  unfold analysed, InMemoryIndex.is_live. by rewrite E.
Qed.

Lemma view_records_unique id1 id2 r1 r2 : documents !! id1 = Some r1 -> documents !! id2 = Some r2 ->
  internal_id r1 = internal_id r2 -> id1 = id2 /\ r1 = r2.
Proof using L.
  intros H1 H2 E. pose proof (law_unique _ _ _ _ H1 H2 E) as ->. split; [done|congruence].
Qed.

Lemma view_internal_record id r : documents !! id = Some r ->
  view_document_internal v (internal_id r) = Some r.
Proof using L. intros Hr. apply law_internal. by eauto. Qed.

(** A posting of a term is that of a live document, found under its id. *)
Lemma view_posting field t entry p : view_lookup v field t = Some entry ->
  p ∈ postings entry <->
  exists r, view_document_internal v (posting_document_id p) = Some r /\
    posting_of schema field t r = Some p.
Proof using L.
  intros (_ & entry' & He & ->)%view_entry. rewrite (elem_of_inverted _ _ _ _ _ _ He). split.
  - intros (id & r & Hr & Hp). exists r. split; [|done].
    rewrite (posting_of_id _ _ _ _ _ Hp). by eapply view_internal_record.
  - intros (r & (id & Hr & _)%law_internal & Hp). by eauto.
Qed.

Lemma view_no_posting field t i r : view_lookup v field t = None ->
  view_document_internal v i = Some r -> posting_of schema field t r = None.
Proof using L.
  intros He%view_no_entry (id & Hr & _)%law_internal.
  destruct (posting_of schema field t r) as [p|] eqn:Hp; [|done].
  destruct (inverted_is_Some _ _ _ _ _ _ _ Hr Hp) as (entry & E & _). congruence.
Qed.

Lemma view_live_record i : i ∈ view_live_document_ids v <->
  exists r, view_document_internal v i = Some r /\ InMemoryIndex.is_live r = true.
Proof using L.
  rewrite law_live. split.
  - intros (id & r & Hr & <- & Hl). exists r. split; [by eapply view_internal_record|done].
  - intros (r & (id & Hr & Hi)%law_internal & Hl). by exists id, r.
Qed.

(** Posting lists are strictly increasing in the document id. *)
Lemma view_postings_sorted field t entry : view_lookup v field t = Some entry ->
  StronglySorted Z.lt (posting_document_id <$> postings entry).
Proof using L.
  intros (_ & entry' & He & ->)%view_entry. pose proof (inverted_sorted _ _ _ _ _ He) as Hs.
  assert (Hnd : NoDup (posting_document_id <$> postings entry')).
  { apply entry_of_Some in He as (_ & ->). cbn. rewrite merge_sort_Permutation.
    apply NoDup_posting_ids, NoDup_internal_ids. apply law_unique. }
  induction Hs as [|p l Hs IH Hp]; [constructor|]. rewrite fmap_cons in *.
  apply NoDup_cons in Hnd as [Hnot Hnd]. constructor; [by apply IH|].
  rewrite Forall_fmap, Forall_forall in *. intros q Hq. specialize (Hp _ Hq). unfold posting_le in Hp.
  cbn. assert (posting_document_id p <> posting_document_id q); [|lia].
  intros E. apply Hnot. rewrite E. by apply list_elem_of_fmap_2.
Qed.

(** The BM25 statistics of a posting are consistent. *)
Lemma view_length_in_statistics field r tokens i :
  view_document_internal v i = Some r -> analysed schema r !! field = Some tokens ->
  zlen tokens ∈ lengths_of schema corpus field.
Proof using L.
  intros (id & Hr & _)%law_internal Ht. unfold lengths_of. apply list_elem_of_omap.
  destruct (corpus_analysed _ _ Hr) as (r' & Hin & E). exists r'. split; [done|by rewrite E, Ht].
Qed.

(** A term of a document has a posting in the corpus. *)
Lemma view_posting_counted field t r p i :
  view_document_internal v i = Some r -> posting_of schema field t r = Some p ->
  1 <= documents_with schema corpus field t.
Proof using L.
  intros (id & Hr & _)%law_internal Hp. destruct (corpus_analysed _ _ Hr) as (r' & Hin & E).
  unfold documents_with. destruct (omap _ _) as [|q l] eqn:Eo.
  - exfalso. revert Hp. unfold posting_of. rewrite <- E. intros Hp.
    destruct (posting_of schema field t r') as [q|] eqn:Hq.
    + assert (q ∈ omap (posting_of schema field t) (records_of corpus)) as Hq'
        by (apply list_elem_of_omap; eauto). rewrite Eo in Hq'. by apply not_elem_of_nil in Hq'.
    + unfold posting_of in Hq. destruct (analysed schema r' !! field); [|done]. cbn in *.
      by destruct (occurrences t _).
  - rewrite zlen_cons. pose proof (zlen_nonneg l). lia.
Qed.
End laws.

Lemma whole_lookup v schema documents : IndexViewLaws v schema documents ->
  forall field t, view_lookup v field t = inverted schema documents field t.
Proof. intros L field t. by rewrite law_lookup, inverted_frequency. Qed.

Lemma sum_list_Z_ge ls x : Forall is_u32 ls -> x ∈ ls -> x <= sum_list_Z ls.
Proof.
  induction 1 as [|y ls Hy Hls IH]; [by intros ?%not_elem_of_nil|].
  pose proof (sum_list_Z_bounds ls Hls). pose proof (zlen_nonneg ls). unfold u32_max in *.
  unfold is_u32 in Hy. cbn [sum_list_Z foldr]. change (foldr Z.add 0 ls) with (sum_list_Z ls) in *.
  intros [->|Hx]%elem_of_cons; [nia|]. specialize (IH Hx). lia.
Qed.
