(* ===== verification/Ranking.v ===== *)
(** * Ranking

    src/ranking/bm25.cpp and src/ranking/top_k.cpp with their headers: the
    BM25 scorer over binary64 arithmetic, the public result order, and the
    bounded collector.  [std::log1p] is a parameter of the scorer; the
    priority queue is a bag from which [top] and [pop] take the worst element,
    as its contract says. *)

From S2P Require Import Prelude Text Doubles.
From Stdlib Require Import SpecFloat.

(** ** bm25.hpp, bm25.cpp *)

Record BM25Parameters := { k1 : double; b : double }.

Record BM25TermStatistics := {
  document_count : Z;
  document_frequency : Z;
  term_frequency : Z;
  document_length : Z;
  average_document_length : double
}.

Inductive BM25Error := invalid_parameters | inconsistent_statistics | invalid_boost.

Definition describe (error : BM25Error) : string :=
  match error with
  | invalid_parameters => "BM25 requires finite k1 > 0 and b in [0, 1]"
  | inconsistent_statistics => "BM25 corpus statistics are inconsistent"
  | invalid_boost => "BM25 boosts must be finite and non-negative"
  end.

(** The literals 1.2 and 0.75. *)
Definition default_parameters : BM25Parameters :=
  {| k1 := d_div (d_of_Z 12) (d_of_Z 10); b := d_div (d_of_Z 3) (d_of_Z 4) |}.

Module BM25Scorer.

Definition create (parameters : BM25Parameters) : expected BM25Error BM25Parameters :=
  if negb (d_finite (k1 parameters)) || d_leb (k1 parameters) d_zero ||
     negb (d_finite (b parameters)) || d_ltb (b parameters) d_zero ||
     d_ltb d_one (b parameters)
  then Err invalid_parameters
  else Ok parameters.

Definition boosts_ok (field_boost query_boost : double) : bool :=
  negb (negb (d_finite field_boost) || d_ltb field_boost d_zero ||
        negb (d_finite query_boost) || d_ltb query_boost d_zero).

Definition inconsistent (statistics : BM25TermStatistics) : bool :=
  (document_frequency statistics >? document_count statistics) ||
  negb (d_finite (average_document_length statistics)) ||
  d_ltb (average_document_length statistics) d_zero ||
  ((term_frequency statistics >? 0) &&
   ((document_frequency statistics =? 0) || (document_count statistics =? 0) ||
    d_leb (average_document_length statistics) d_zero ||
    (term_frequency statistics >? document_length statistics))).

Section score.
Context (log1p : double -> double) (parameters : BM25Parameters).

Definition formula (statistics : BM25TermStatistics) (field_boost query_boost : double) : double :=
  let document_count := d_of_Z (document_count statistics) in
  let document_frequency := d_of_Z (document_frequency statistics) in
  let term_frequency := d_of_Z (term_frequency statistics) in
  let document_length := d_of_Z (document_length statistics) in
  let idf := log1p (d_div (d_add (d_sub document_count document_frequency) d_half)
                          (d_add document_frequency d_half)) in
  let length_ratio := d_div document_length (average_document_length statistics) in
  let normalization :=
    d_mul (k1 parameters) (d_add (d_sub d_one (b parameters)) (d_mul (b parameters) length_ratio)) in
  let frequency_weight :=
    d_div (d_mul term_frequency (d_add (k1 parameters) d_one)) (d_add term_frequency normalization) in
  d_mul (d_mul (d_mul idf frequency_weight) field_boost) query_boost.

Definition score (statistics : BM25TermStatistics) (field_boost query_boost : double)
    : expected BM25Error double :=
  if negb (boosts_ok field_boost query_boost) then Err invalid_boost
  else if inconsistent statistics then Err inconsistent_statistics
  else if (term_frequency statistics =? 0) || (document_frequency statistics =? 0) ||
          (document_count statistics =? 0) || d_eqb field_boost d_zero || d_eqb query_boost d_zero
  then Ok d_zero
  else Ok (formula statistics field_boost query_boost).
End score.
End BM25Scorer.

(** ** top_k.hpp, top_k.cpp *)

Record ScoredDocument := { scored_id : string; score : double }.

#[export] Instance ScoredDocument_eq_dec : EqDecision ScoredDocument.
Proof. solve_decision. Defined.

Definition BetterScore (lhs rhs : ScoredDocument) : bool :=
  if negb (d_eqb (score lhs) (score rhs)) then d_ltb (score rhs) (score lhs)
  else str_ltb (scored_id lhs) (scored_id rhs).

Module TopKCollector.

Record TopKCollector := { capacity_ : Z; heap_ : list ScoredDocument }.

Definition make (capacity : Z) : TopKCollector := {| capacity_ := capacity; heap_ := [] |}.

(** [top] of the priority queue and what [pop] leaves: the element every other
    one is at least as good as. *)
Fixpoint worst (x : ScoredDocument) (l : list ScoredDocument) : ScoredDocument * list ScoredDocument :=
  match l with
  | [] => (x, [])
  | y :: l' =>
      if BetterScore x y then let '(w, rest) := worst y l' in (w, x :: rest)
      else let '(w, rest) := worst x l' in (w, y :: rest)
  end.

Definition collect (collector : TopKCollector) (candidate : ScoredDocument) : bool * TopKCollector :=
  if negb (d_finite (score candidate)) then (false, collector)
  else if capacity_ collector =? 0 then (true, collector)
  else if zlen (heap_ collector) <? capacity_ collector then
    (true, {| capacity_ := capacity_ collector; heap_ := candidate :: heap_ collector |})
  else
    match heap_ collector with
    | [] => (true, collector) (* not reached: the heap is full and the capacity positive *)
    | x :: l =>
        let '(top, rest) := worst x l in
        (true, if BetterScore candidate top
               then {| capacity_ := capacity_ collector; heap_ := candidate :: rest |}
               else collector)
    end.

(** [while (!heap_copy.empty())]: one round per element. *)
Fixpoint drain (fuel : nat) (heap : list ScoredDocument) : list ScoredDocument :=
  match fuel, heap with
  | S fuel', x :: l => let '(top, rest) := worst x l in top :: drain fuel' rest
  | _, _ => []
  end.

Definition results (collector : TopKCollector) : list ScoredDocument :=
  sort_by BetterScore (drain (length (heap_ collector)) (heap_ collector)).

Definition collect_all (collector : TopKCollector) (candidates : list ScoredDocument) : TopKCollector :=
  foldl (fun c candidate => (collect c candidate).2) collector candidates.

End TopKCollector.

Notation TopKCollector := TopKCollector.TopKCollector.

(** ** The order of results

    A candidate's rank is its score's order key with its id; on finite scores
    [BetterScore] compares ranks, and ranks are totally ordered. *)

Definition rank (c : ScoredDocument) : (Z * Z * Z) * string := (d_key (score c), scored_id c).

Definition rank_less (r s : (Z * Z * Z) * string) : bool :=
  match lex3 s.1 r.1 with Lt => true | Gt => false | Eq => str_ltb r.2 s.2 end.

Definition finite_score (c : ScoredDocument) : bool := d_finite (score c).

(** Candidates the public order does not tell apart: same id, equal score. *)
Definition same_rank (c d : ScoredDocument) : Prop :=
  BetterScore c d = false /\ BetterScore d c = false.

Lemma better_rank c d : finite_score c = true -> finite_score d = true ->
  BetterScore c d = rank_less (rank c) (rank d).
Proof.
  intros Hc%d_finite_not_nan Hd%d_finite_not_nan. unfold BetterScore, rank_less, rank. cbn [fst snd].
  pose proof (d_eqb_key _ _ Hc Hd) as He. pose proof (d_ltb_key _ _ Hd Hc) as Hl.
  rewrite <- lex3_eq, (lex3_antisym (d_key (score d))) in He.
  destruct (d_eqb (score c) (score d)); cbn [negb].
  - by destruct (lex3 (d_key (score d)) (d_key (score c))); [|by specialize (proj1 He eq_refl)..].
  - destruct (d_ltb (score d) (score c)).
    + by rewrite (proj1 Hl eq_refl).
    + destruct (lex3 (d_key (score d)) (d_key (score c))); [|by specialize (proj2 Hl eq_refl)|done].
      by specialize (proj2 He eq_refl).
Qed.

Lemma rank_less_asym r s : rank_less r s = true -> rank_less s r = false.
Proof.
  unfold rank_less. rewrite (lex3_antisym s.1 r.1). destruct (lex3 s.1 r.1); cbn; try done.
  unfold str_ltb, str_leb. intros H%negb_true_iff%bool_decide_eq_false.
  apply negb_false_iff, bool_decide_eq_true. destruct (total String.le r.2 s.2); done.
Qed.

Lemma rank_antisym r s : not_after rank_less r s -> not_after rank_less s r -> r = s.
Proof.
  unfold not_after, rank_less. rewrite (lex3_antisym s.1 r.1).
  destruct (lex3 s.1 r.1) eqn:E; cbn; try done. apply lex3_eq in E.
  unfold str_ltb, str_leb. intros H1%negb_false_iff%bool_decide_eq_true.
  intros H2%negb_false_iff%bool_decide_eq_true.
  destruct r as [k i], s as [k' i']. cbn in *. subst. f_equal. by apply (anti_symm String.le).
Qed.

Lemma rank_trans r s t : not_after rank_less r s -> not_after rank_less s t -> not_after rank_less r t.
Proof.
  unfold not_after, rank_less. intros H1 H2.
  destruct (lex3 r.1 s.1) eqn:E1; try done; destruct (lex3 s.1 t.1) eqn:E2; try done.
  - apply lex3_eq in E1, E2. rewrite E1, E2, (proj2 (lex3_eq _ _) eq_refl).
    unfold str_ltb, str_leb in *. apply negb_false_iff, bool_decide_eq_true in H1, H2.
    apply negb_false_iff, bool_decide_eq_true. by etrans.
  - apply lex3_eq in E1. by rewrite E1, E2.
  - apply lex3_eq in E2. by rewrite <- E2, E1.
  - assert (lex3 t.1 r.1 = Lt) as E.
    { eapply lex3_lt_trans; [rewrite lex3_antisym, E2; done|rewrite lex3_antisym, E1; done]. }
    by rewrite lex3_antisym, E.
Qed.

Notation rank_sort := (sort_by rank_less).

Lemma rank_sort_sorted l : StronglySorted (not_after rank_less) (rank_sort l).
Proof.
  apply (sort_by_sorted rank_less (fun _ => True)).
  - intros. by apply rank_less_asym.
  - intros. by eapply rank_trans.
  - by apply Forall_true.
Qed.

Lemma rank_sort_unique l l' : l ≡ₚ l' -> StronglySorted (not_after rank_less) l' -> rank_sort l = l'.
Proof.
  intros Hp Hs. apply (sort_by_unique rank_less); [|by rewrite sort_by_perm|apply rank_sort_sorted|done].
  intros. by apply rank_antisym.
Qed.

(** The last element of a sorted list is the only one that all others precede. *)
Lemma last_is_worst l z m : StronglySorted (not_after rank_less) (l ++ [z]) -> m ∈ l ++ [z] ->
  (forall x, x ∈ l ++ [z] -> not_after rank_less x m) -> z = m.
Proof.
  intros Hs Hm Hall. apply rank_antisym.
  - apply Hall. apply elem_of_app. right. by left.
  - apply elem_of_app in Hm as [Hm|Hm%list_elem_of_singleton]; [|subst].
    + apply StronglySorted_app in Hs as (Hlt & _ & _). apply Hlt; [done|by left].
    + unfold not_after. destruct (rank_less z z) eqn:E; [|done]. by rewrite (rank_less_asym _ _ E) in E.
Qed.

(** Dropping the last of [k + 1] sorted ranks. *)
Lemma take_all_but_worst k l m rest : StronglySorted (not_after rank_less) l -> length l = S k ->
  l ≡ₚ m :: rest -> (forall x, x ∈ rest -> not_after rank_less x m) -> take k l ≡ₚ rest.
Proof.
  intros Hs Hl Hp Hall. destruct (exists_last (l := l)) as (u & z & ->); [by intros ->|].
  rewrite length_app in Hl. cbn in Hl.
  assert (z = m) as ->.
  { apply (last_is_worst u); [done| |].
    - rewrite Hp. by left.
    - intros x. rewrite Hp. intros [->|Hx]%elem_of_cons; [|by apply Hall].
      unfold not_after. destruct (rank_less m m) eqn:E; [|done]. by rewrite (rank_less_asym _ _ E) in E. }
  rewrite take_app_le, take_ge by lia. rewrite (Permutation_app_comm u) in Hp.
  by apply Permutation_cons_inv in Hp.
Qed.

(** ** The collector *)

Import TopKCollector.

Lemma worst_spec l : forall x w rest, worst x l = (w, rest) ->
  Forall (fun c => finite_score c = true) (x :: l) ->
  w :: rest ≡ₚ x :: l /\ forall y, y ∈ rest -> not_after rank_less (rank y) (rank w).
Proof.
  induction l as [|y l IH]; intros x w rest; cbn [worst].
  - intros [= <- <-] _. split; [done|]. by intros ? ?%not_elem_of_nil.
  - intros E Hf. apply Forall_cons in Hf as [Hx Hf]. apply Forall_cons in Hf as [Hy Hl].
    rewrite (better_rank x y Hx Hy) in E. destruct (rank_less (rank x) (rank y)) eqn:Exy.
    + destruct (worst y l) as [w' rest'] eqn:Ew. injection E as <- <-.
      apply IH in Ew as [Hp Hw]; [|by constructor]. split.
      * rewrite Permutation_swap, Hp. done.
      * intros z [->|Hz]%elem_of_cons; [|by apply Hw].
        assert (Hyx : not_after rank_less (rank x) (rank y)) by by apply rank_less_asym.
        assert (y ∈ w' :: rest') as Hy' by (rewrite Hp; left).
        apply elem_of_cons in Hy' as [->|Hy']; [done|]. eapply rank_trans; [exact Hyx|by apply Hw].
    + destruct (worst x l) as [w' rest'] eqn:Ew. injection E as <- <-.
      apply IH in Ew as [Hp Hw]; [|by constructor]. split.
      * rewrite Permutation_swap, Hp. by rewrite Permutation_swap.
      * intros z [->|Hz]%elem_of_cons; [|by apply Hw].
        assert (x ∈ w' :: rest') as Hx' by (rewrite Hp; left).
        apply elem_of_cons in Hx' as [->|Hx']; [done|]. eapply rank_trans; [exact Exy|by apply Hw].
Qed.

Definition all_finite (l : list ScoredDocument) : Prop := Forall (fun c => finite_score c = true) l.

Lemma drain_perm fuel : forall heap, length heap = fuel -> all_finite heap -> drain fuel heap ≡ₚ heap.
Proof.
  induction fuel as [|fuel IH]; intros [|x l] Hlen Hf; try done. cbn [drain].
  destruct (worst x l) as [w rest] eqn:Ew. apply worst_spec in Ew as [Hp _]; [|done].
  rewrite <- Hp. apply perm_skip. apply IH.
  - apply Permutation_length in Hp. cbn in *. lia.
  - unfold all_finite in *. rewrite <- Hp in Hf. by apply Forall_cons in Hf as [_ Hf].
Qed.

(** The heap holds the best [capacity] of the finite candidates seen so far. *)
Definition best (k : Z) (seen : list ScoredDocument) : list ((Z * Z * Z) * string) :=
  take (Z.to_nat k) (rank_sort (rank <$> seen)).

Definition collector_ok (collector : TopKCollector) (seen : list ScoredDocument) : Prop :=
  0 <= capacity_ collector /\ all_finite (heap_ collector) /\
  rank <$> heap_ collector ≡ₚ best (capacity_ collector) seen.

Lemma best_cons k c seen :
  best k (c :: seen) = take (Z.to_nat k) (insert_by rank_less (rank c) (best k seen)).
Proof. unfold best. rewrite fmap_cons. cbn [sort_by foldr]. apply take_insert_by. Qed.

Lemma best_length k seen : length (best k seen) = Nat.min (Z.to_nat k) (length seen).
Proof. unfold best. by rewrite length_take, sort_by_perm, length_fmap. Qed.

Lemma best_sorted k seen : StronglySorted (not_after rank_less) (best k seen).
Proof.
  eapply StronglySorted_sublist, rank_sort_sorted. apply sublist_take.
Qed.

Lemma insert_rank_sorted r l : StronglySorted (not_after rank_less) l ->
  StronglySorted (not_after rank_less) (insert_by rank_less r l).
Proof.
  intros Hs. apply (insert_by_sorted rank_less (fun _ => True)); [..|done].
  - intros. by apply rank_less_asym.
  - intros. by eapply rank_trans.
  - done.
  - by apply Forall_true.
Qed.

Lemma collect_ok collector seen c : collector_ok collector seen ->
  let '(accepted, collector') := collect collector c in
  accepted = finite_score c /\ capacity_ collector' = capacity_ collector /\
  collector_ok collector' (if finite_score c then c :: seen else seen).
Proof.
  intros (Hk & Hf & Hp). unfold collect. change (d_finite (score c)) with (finite_score c).
  destruct (finite_score c) eqn:Ec; cbn [negb]; [|done].
  destruct (Z.eqb_spec (capacity_ collector) 0) as [E0|E0].
  { split_and!; [done..|]. split_and!; [done..|]. unfold best in *. by rewrite E0 in *. }
  pose proof (Permutation_length Hp) as Hlen. rewrite length_fmap, best_length in Hlen.
  destruct (Z.ltb_spec (zlen (heap_ collector)) (capacity_ collector)) as [Hlt|Hge].
  { unfold zlen in Hlt. split_and!; [done..|]. split_and!; [done|by constructor|]. cbn.
    rewrite best_cons, take_ge; [by rewrite insert_by_perm, Hp|].
    rewrite insert_by_perm. cbn. rewrite best_length. lia. }
  destruct (heap_ collector) as [|x l] eqn:Eh; [unfold zlen in Hge; cbn in Hge; lia|].
  destruct (worst x l) as [w rest] eqn:Ew. apply worst_spec in Ew as [Hw Hall]; [|done].
  assert (Hwf : finite_score w = true /\ all_finite rest).
  { unfold all_finite in *. rewrite <- Hw in Hf. by apply Forall_cons in Hf. }
  destruct Hwf as [Hwf Hrf]. rewrite (better_rank c w Ec Hwf).
  assert (Hins : insert_by rank_less (rank c) (best (capacity_ collector) seen) ≡ₚ
                 rank c :: rank w :: (rank <$> rest)).
  { rewrite insert_by_perm, <- Hp, <- Hw. done. }
  assert (Hil : length (insert_by rank_less (rank c) (best (capacity_ collector) seen)) =
                S (Z.to_nat (capacity_ collector))).
  { rewrite insert_by_perm. cbn. rewrite best_length. unfold zlen in Hge. lia. }
  pose proof (insert_rank_sorted (rank c) _ (best_sorted (capacity_ collector) seen)) as Hs.
  destruct (rank_less (rank c) (rank w)) eqn:Ecw; (split_and!; [done..|]); (split_and!; [done| |]); cbn.
  - by constructor.
  - rewrite best_cons. symmetry. apply (take_all_but_worst _ _ (rank w)); [done..| |].
    + by rewrite Hins, Permutation_swap.
    + intros r [->|Hr]%elem_of_cons; [by apply rank_less_asym|].
      apply list_elem_of_fmap in Hr as (y & -> & Hy). by apply Hall.
  - by rewrite Eh.
  - rewrite Eh, best_cons. symmetry. rewrite <- Hw, fmap_cons.
    apply (take_all_but_worst _ _ (rank c)); [done..|].
    intros r [->|Hr]%elem_of_cons; [done|].
    apply list_elem_of_fmap in Hr as (y & -> & Hy). eapply rank_trans; [by apply Hall|done].
Qed.

Lemma collect_all_ok cs : forall collector seen, collector_ok collector seen ->
  (forall x, x ∈ heap_ collector -> x ∈ seen) ->
  let collector' := collect_all collector cs in
  let seen' := rev (filter (fun c => finite_score c = true) cs) ++ seen in
  collector_ok collector' seen' /\ capacity_ collector' = capacity_ collector /\
  (forall x, x ∈ heap_ collector' -> x ∈ seen').
Proof.
  induction cs as [|c cs IH]; intros collector seen Hok Hin; [done|].
  pose proof (collect_ok _ _ c Hok) as H. unfold collect_all. cbn [foldl].
  destruct (collect collector c) as [accepted collector'] eqn:Ec. destruct H as (-> & Hcap & Hok').
  rewrite filter_cons. cbn [snd].
  assert (Hin' : forall x, x ∈ heap_ collector' -> x ∈ if finite_score c then c :: seen else seen).
  { unfold collect in Ec. change (d_finite (score c)) with (finite_score c) in Ec.
    destruct (finite_score c); cbn [negb] in Ec; [|injection Ec as <-; done].
    intros x Hx. rewrite elem_of_cons.
    destruct (_ =? 0); [injection Ec as <-; auto|].
    destruct (_ <? _); [injection Ec as <-; apply elem_of_cons in Hx as [->|Hx]; auto|].
    destruct (heap_ collector) as [|y l] eqn:Eh; [injection Ec as <-; rewrite Eh in Hx; by apply not_elem_of_nil in Hx|].
    destruct (worst y l) as [w rest] eqn:Ew.
    apply worst_spec in Ew as [Hw _]; [|destruct Hok as (_ & Hf & _); by rewrite Eh in Hf].
    injection Ec as <-. destruct (BetterScore c w).
    - apply elem_of_cons in Hx as [->|Hx]; [auto|]. right. apply Hin. rewrite <- Hw. by right.
    - rewrite Eh in Hx. auto. }
  destruct (finite_score c); rewrite ?decide_True, ?decide_False by done.
  - cbn [rev]. destruct (IH _ _ Hok' Hin') as (H1 & H2 & H3).
    rewrite <- app_assoc. cbn [app]. split_and!; [done|exact (eq_trans H2 Hcap)|done].
  - destruct (IH _ _ Hok' Hin') as (H1 & H2 & H3). split_and!; [done|exact (eq_trans H2 Hcap)|done].
Qed.

Lemma results_best collector seen : collector_ok collector seen ->
  rank <$> results collector = best (capacity_ collector) seen.
Proof.
  intros (_ & Hf & Hp). unfold results.
  pose proof (drain_perm _ _ eq_refl Hf) as Hd.
  rewrite (sort_by_fmap rank BetterScore rank_less).
  - apply rank_sort_unique; [by rewrite Hd|apply best_sorted].
  - intros x y. rewrite !Hd. unfold all_finite in Hf. rewrite Forall_forall in Hf.
    intros Hx Hy. by apply better_rank; apply Hf.
Qed.

Lemma make_ok k : 0 <= k -> collector_ok (make k) [].
Proof.
  intros Hk. split_and!; [done|constructor|]. unfold best. cbn. by rewrite take_nil.
Qed.

Lemma same_rank_rank c d : finite_score c = true -> finite_score d = true ->
  rank c = rank d -> same_rank c d.
Proof.
  intros Hc Hd E. unfold same_rank. rewrite !better_rank, E by done.
  assert (rank_less (rank d) (rank d) = false); [|done].
  destruct (rank_less (rank d) (rank d)) eqn:Er; [|done]. by rewrite (rank_less_asym _ _ Er) in Er.
Qed.

(** The best of a whole are the best of its parts' bests. *)
Lemma take_sort_app k a b' :
  take k (rank_sort (take k (rank_sort a) ++ b')) = take k (rank_sort (a ++ b')).
Proof.
  induction b' as [|x b' IH].
  - rewrite !app_nil_r. rewrite (rank_sort_unique (take k _) (take k (rank_sort a))); [|done|].
    + by rewrite take_take, Nat.min_id.
    + eapply StronglySorted_sublist, rank_sort_sorted. apply sublist_take.
  - assert (Hmid : forall l, rank_sort (l ++ x :: b') = insert_by rank_less x (rank_sort (l ++ b'))).
    { intros l. apply rank_sort_unique; [|apply insert_rank_sorted, rank_sort_sorted].
      by rewrite insert_by_perm, sort_by_perm, <- Permutation_middle. }
    by rewrite !Hmid, take_insert_by, IH, <- take_insert_by.
Qed.

Lemma finite_ranks l : all_finite l -> rank <$> sort_by BetterScore l = rank_sort (rank <$> l).
Proof.
  intros Hf. apply sort_by_fmap. unfold all_finite in Hf. rewrite Forall_forall in Hf.
  intros x y Hx Hy. by apply better_rank; apply Hf.
Qed.

Lemma filter_finite l : all_finite (filter (fun c => finite_score c = true) l).
Proof. apply Forall_forall. by intros x [Hx _]%list_elem_of_filter. Qed.

(** [c] comes before [d] in the public order: a higher score, or the same score
    and a smaller id. *)
Definition before (c d : ScoredDocument) : Prop := BetterScore c d = true.

Lemma ranks_strict l : all_finite l -> NoDup (scored_id <$> l) -> StronglySorted (not_after rank_less) (rank <$> l) ->
  StronglySorted before l.
Proof.
  induction l as [|c l IH]; intros Hf Hn Hs; [constructor|]. cbn [fmap list_fmap] in Hn, Hs.
  apply Forall_cons in Hf as [Hc Hf]. apply NoDup_cons in Hn as [Hnew Hn]. apply StronglySorted_inv in Hs as [Hs Hall].
  constructor; [by apply IH|]. unfold all_finite in Hf. rewrite Forall_forall in Hf. rewrite Forall_forall in Hall. apply Forall_forall. intros d Hd. unfold before. rewrite better_rank by auto.
  destruct (rank_less (rank c) (rank d)) eqn:E; [done|]. exfalso. apply Hnew.
  assert (Er : rank c = rank d) by (apply rank_antisym; [by apply Hall, list_elem_of_fmap_2|done]).
  assert (scored_id c = scored_id d) as -> by (by injection Er). by apply list_elem_of_fmap_2.
Qed.

(** A ranking is in the public order. *)
Lemma ranking_sorted l : all_finite l -> NoDup (scored_id <$> l) -> StronglySorted before (sort_by BetterScore l).
Proof.
  intros Hf Hn. apply ranks_strict; [|by rewrite sort_by_perm|rewrite finite_ranks by done; apply rank_sort_sorted].
  unfold all_finite. by rewrite sort_by_perm.
Qed.

Lemma top_k_ranks k cs : 0 <= k ->
  rank <$> results (collect_all (make k) cs) =
  rank <$> take (Z.to_nat k) (sort_by BetterScore (filter (fun c => finite_score c = true) cs)).
Proof.
  intros Hk. destruct (collect_all_ok cs (make k) [] (make_ok k Hk)) as (Hok & Hcap & _).
  { by intros x ?%not_elem_of_nil. }
  rewrite (results_best _ _ Hok), Hcap, app_nil_r, fmap_take, finite_ranks by apply filter_finite.
  unfold best. f_equal. apply rank_sort_unique; [|apply rank_sort_sorted].
  by rewrite sort_by_perm, <- Permutation_rev.
Qed.

Lemma elem_of_results k cs x : 0 <= k -> x ∈ results (collect_all (make k) cs) ->
  x ∈ cs /\ finite_score x = true.
Proof.
  intros Hk Hx. destruct (collect_all_ok cs (make k) [] (make_ok k Hk)) as ((_ & Hf & _) & _ & Hin).
  { by intros y ?%not_elem_of_nil. }
  unfold results in Hx. rewrite sort_by_perm, drain_perm in Hx by done.
  apply Hin in Hx. rewrite app_nil_r, <- Permutation_rev in Hx.
  by apply list_elem_of_filter in Hx as [? ?].
Qed.

(** Lists drawn from candidates with distinct ids are told apart by their ranks. *)
Lemma ranks_inj (cs r e : list ScoredDocument) : NoDup (scored_id <$> cs) ->
  (forall x, x ∈ r -> x ∈ cs) -> (forall x, x ∈ e -> x ∈ cs) -> rank <$> r = rank <$> e -> r = e.
Proof.
  intros Hnd. revert e. induction r as [|x r IH]; intros [|y e] Hr He E; try done.
  rewrite !fmap_cons in E. injection E as Hs Hi E. f_equal.
  - apply (NoDup_fmap_inj scored_id cs); [done|apply Hr; left|apply He; left|done].
  - apply IH; [intros; apply Hr; by right|intros; apply He; by right|done].
Qed.

Lemma elem_of_expected k cs x :
  x ∈ take k (sort_by BetterScore (filter (fun c => d_finite (score c) = true) cs)) ->
  x ∈ cs /\ finite_score x = true.
Proof.
  intros Hx. apply list_elem_of_lookup in Hx as [i Hi].
  apply lookup_take_Some in Hi as [Hi _]. apply list_elem_of_lookup_2 in Hi.
  rewrite sort_by_perm in Hi. by apply list_elem_of_filter in Hi as [? ?].
Qed.

Lemma top_k_exact k cs : 0 <= k -> NoDup (scored_id <$> cs) ->
  results (collect_all (make k) cs) =
  take (Z.to_nat k) (sort_by BetterScore (filter (fun c => d_finite (score c) = true) cs)).
Proof.
  intros Hk Hnd. apply (ranks_inj cs); [done|..|by apply top_k_ranks].
  - intros x Hx. by apply (elem_of_results k).
  - intros x Hx. by eapply elem_of_expected.
Qed.

(** The public order does not depend on the order the candidates come in. *)
Lemma sort_scores_perm (l l' : list ScoredDocument) : l ≡ₚ l' -> all_finite l -> NoDup (scored_id <$> l) ->
  sort_by BetterScore l = sort_by BetterScore l'.
Proof.
  intros Hp Hf Hnd. apply (ranks_inj l); [done|..].
  - intros x. by rewrite sort_by_perm.
  - intros x. by rewrite sort_by_perm, Hp.
  - rewrite !finite_ranks by (unfold all_finite in *; by rewrite <- ?Hp).
    apply rank_sort_unique; [|apply rank_sort_sorted]. by rewrite sort_by_perm, Hp.
Qed.

(** ** Properties *)

(** C11.  After collecting any candidates, [results] are the best [capacity] of
    the finite-scored ones in the public order (higher score first, then
    smaller id), as a full sort would give; candidates that tie in both score
    and id count as the same, and when the ids are distinct the two lists are
    equal. *)
Theorem top_k_spec k cs :
  0 <= k ->
  let expected :=
    take (Z.to_nat k) (sort_by BetterScore (filter (fun c => d_finite (score c) = true) cs)) in
  Forall2 same_rank (results (collect_all (make k) cs)) expected /\
  (NoDup (scored_id <$> cs) -> results (collect_all (make k) cs) = expected).
Proof.
  intros Hk expected. pose proof (top_k_ranks k cs Hk) as Hr.
  change (filter (fun c => finite_score c = true) cs)
    with (filter (fun c => d_finite (score c) = true) cs) in Hr. fold expected in Hr.
  assert (He : forall x, x ∈ expected -> x ∈ cs /\ finite_score x = true)
    by (intros x; apply elem_of_expected).
  assert (Hall : forall x, x ∈ results (collect_all (make k) cs) -> x ∈ cs /\ finite_score x = true)
    by (intros x; by apply elem_of_results).
  split; [|by apply top_k_exact].
  revert Hr He Hall. generalize expected (results (collect_all (make k) cs)). clear expected.
  intros e r Hr He Hall. revert e Hr He. induction r as [|x r IH]; intros [|y e] Hr He; try done.
  rewrite !fmap_cons in Hr. injection Hr as Hs Hi Hr. constructor.
  - apply same_rank_rank; [apply Hall; left|apply He; left|]. unfold rank. by rewrite Hs, Hi.
  - apply IH; [intros; apply Hall; by right|done|intros; apply He; by right].
Qed.

Lemma top_k_spec_witness :
  let cs := [{| scored_id := "b"; score := d_one |}; {| scored_id := "c"; score := d_half |};
             {| scored_id := "a"; score := d_one |}; {| scored_id := "d"; score := S754_nan |}] in
  results (collect_all (make 2) cs) =
  [{| scored_id := "a"; score := d_one |}; {| scored_id := "b"; score := d_one |}].
Proof.
  intros cs. etransitivity.
  - apply (top_k_spec 2 cs); [discriminate|]. apply (bool_decide_unpack _). by vm_compute.
  - by vm_compute.
Defined.
