(* ===== verification/Numbers.v ===== *)
(** * Reading floating-point numbers

    [std::from_chars] for [double] in the general format, as the query parser
    uses it: on a text it reads in full, or not at all. *)

From S2P Require Import Prelude Text Doubles.
From Stdlib Require Import Ascii SpecFloat.

(** The nearest double of [numerator / denominator]. *)
Definition d_ratio (numerator : Z) (denominator : positive) : double :=
  match numerator with
  | Z0 => d_zero
  | Zpos n => d_div (S754_finite false n 0) (S754_finite false denominator 0)
  | Zneg n => d_div (S754_finite true n 0) (S754_finite false denominator 0)
  end.

(** The nearest double of [mantissa * 10 ^ exponent]. *)
Definition d_decimal (mantissa exponent : Z) : double :=
  if 0 <=? exponent then d_ratio (mantissa * 10 ^ exponent) 1
  else d_ratio mantissa (Z.to_pos (10 ^ (- exponent))).

Definition lower_string (s : string) : string := str_map to_lower s.

(** An optionally signed exponent part; a missing one is 0. *)
Definition read_exponent (s : string) : option Z :=
  match s with
  | EmptyString => Some 0
  | String c rest =>
      if negb (bool_decide (to_lower c = "e"%char)) then None
      else
        let '(sign, digits) :=
          match rest with
          | String "-" t => (-1, t)
          | String "+" t => (1, t)
          | _ => (1, rest)
          end in
        if negb (str_eqb digits "") && str_forallb is_digit digits
        then Some (sign * digits_value 0 digits) else None
  end.

(** Digits with an optional fraction, at least one digit in all, and an
    optional exponent: the mantissa and the power of ten. *)
Definition read_decimal (s : string) : option (Z * Z) :=
  let '(whole_part, rest) := span is_digit s in
  let '(fraction, rest) :=
    match rest with
    | String "." t => span is_digit t
    | _ => (EmptyString, rest)
    end in
  if str_eqb (whole_part +:+ fraction) "" then None
  else
    exponent ← read_exponent rest;
    Some (digits_value 0 (whole_part +:+ fraction), exponent - zstrlen fraction).

(** [nan] may be followed by a parenthesised sequence of letters, digits and
    underscores. *)
Definition nan_text (s : string) : bool :=
  match strip_prefix "nan" (lower_string s) with
  | Some EmptyString => true
  | Some (String "(" t) =>
      let '(sequence, rest) := span (fun c => is_alnum c || bool_decide (c = "_"%char)) t in
      str_eqb rest ")"
  | _ => false
  end.

Definition d_neg (x : double) : double := SFopp x.

(** [ec == std::errc{} && ptr == end], with the value.  A number that does not
    fit, or that underflows to zero, is reported as out of range. *)
Definition parse_double (s : string) : option double :=
  let '(negative, digits) := match s with String "-" t => (true, t) | _ => (false, s) end in
  let signed x := if negative : bool then d_neg x else x in
  if str_eqb (lower_string digits) "inf" || str_eqb (lower_string digits) "infinity"
  then Some (signed (S754_infinity false))
  else if nan_text digits then Some S754_nan
  else
    match read_decimal digits with
    | None => None
    | Some (mantissa, exponent) =>
        let value := d_decimal mantissa exponent in
        if negb (d_finite value) || (negb (mantissa =? 0) && d_eqb value d_zero) then None
        else Some (signed value)
    end.

(** ** Writing floating-point numbers

    [std::ostream << double] with [precision(p)]: the format of [%.pg]. *)

(** [numerator / denominator], rounded to the nearest integer, ties to even. *)
Definition round_half_even (numerator denominator : Z) : Z :=
  let q := numerator / denominator in
  let r := numerator mod denominator in
  match 2 * r ?= denominator with
  | Lt => q
  | Gt => q + 1
  | Eq => if Z.even q then q else q + 1
  end.

(** The decimal exponent of [numerator / denominator]: one step per power of
    ten, of which a double has fewer than 400. *)
Fixpoint exponent_up (fuel : nat) (numerator denominator x : Z) : Z :=
  match fuel with
  | O => x
  | S fuel' =>
      if numerator <? 10 * denominator then x
      else exponent_up fuel' numerator (10 * denominator) (x + 1)
  end.

Fixpoint exponent_down (fuel : nat) (numerator denominator x : Z) : Z :=
  match fuel with
  | O => x
  | S fuel' =>
      if denominator <=? numerator then x
      else exponent_down fuel' (10 * numerator) denominator (x - 1)
  end.

Definition decimal_exponent (numerator denominator : Z) : Z :=
  if denominator <=? numerator then exponent_up 400 numerator denominator 0
  else exponent_down 400 numerator denominator 0.

Definition scale10 (numerator denominator k : Z) : Z * Z :=
  if 0 <=? k then (numerator * 10 ^ k, denominator) else (numerator, denominator * 10 ^ (- k)).

(** [precision] significant digits and the decimal exponent. *)
Definition significant (precision numerator denominator : Z) : Z * Z :=
  let x := decimal_exponent numerator denominator in
  let '(n, d) := scale10 numerator denominator (precision - 1 - x) in
  let rounded := round_half_even n d in
  if rounded =? 10 ^ precision then (10 ^ (precision - 1), x + 1) else (rounded, x).

(** Without the trailing zeros. *)
Fixpoint trim_zeros (s : string) : string :=
  match s with
  | EmptyString => EmptyString
  | String c s' =>
      match trim_zeros s' with
      | EmptyString => if bool_decide (c = "0"%char) then EmptyString else String c EmptyString
      | t => String c t
      end
  end.

Definition with_fraction (whole_part fraction : string) : string :=
  match fraction with EmptyString => whole_part | _ => whole_part +:+ "." +:+ fraction end.

Definition zeros (n : nat) : string := digits_fixed n 0.

Definition format_magnitude (precision digits x : Z) : string :=
  let text := to_string_u digits in
  if (x <? -4) || (precision <=? x) then
    let magnitude := to_string_u (Z.abs x) in
    with_fraction (str_take 1 text) (trim_zeros (str_drop 1 text)) +:+
      (if x <? 0 then "e-" else "e+") +:+
      (if Z.abs x <? 10 then "0" +:+ magnitude else magnitude)
  else if 0 <=? x then
    with_fraction (str_take (Z.to_nat x + 1) text) (trim_zeros (str_drop (Z.to_nat x + 1) text))
  else with_fraction "0" (zeros (Z.to_nat (- x - 1)) +:+ trim_zeros text).

Definition fraction_of (m : positive) (e : Z) : Z * Z :=
  if 0 <=? e then (Z.pos m * 2 ^ e, 1) else (Z.pos m, 2 ^ (- e)).

Definition print_general (precision : Z) (x : double) : string :=
  match x with
  | S754_nan => "nan"
  | S754_infinity s => if s then "-inf" else "inf"
  | S754_zero s => if s then "-0" else "0"
  | S754_finite s m e =>
      let '(numerator, denominator) := fraction_of m e in
      let '(digits, exponent) := significant precision numerator denominator in
      (if s then "-" else "") +:+ format_magnitude precision digits exponent
  end.

(** With [precision(17)], which the program sets wherever a text is read again. *)
Definition print_double : double -> string := print_general 17.
