(* ===== verification/Query.v ===== *)
(** * Queries: syntax trees, errors, limits

    include/dse/query/ast.hpp, error.hpp and the declarations of lexer.hpp.
    Every node carries the byte position it starts at. *)

From S2P Require Import Prelude Text Doubles.
From Stdlib Require Import SpecFloat.

Inductive ParseErrorCode :=
| empty_query | unexpected_character | unterminated_phrase | expected_expression
| unexpected_token | expected_range_bound | invalid_boost | nesting_too_deep | resource_limit.

Record ParseError := {
  parse_code : ParseErrorCode;
  parse_position : Z;
  parse_message : string
}.

Record QueryLimits := {
  maximum_query_bytes : Z;
  maximum_lexemes : Z;
  maximum_lexeme_bytes : Z;
  maximum_nesting_depth : Z
}.

Definition default_limits : QueryLimits :=
  {| maximum_query_bytes := 16 * 1024; maximum_lexemes := 2048;
     maximum_lexeme_bytes := 4 * 1024; maximum_nesting_depth := 128 |}.

Inductive TokenKind :=
| word | phrase | and_operator | or_operator | not_operator | to_operator
| left_parenthesis | right_parenthesis | colon | caret | left_bracket | right_bracket
| star | end_token.

#[export] Instance TokenKind_eq_dec : EqDecision TokenKind.
Proof. solve_decision. Defined.

Record Lexeme := {
  kind : TokenKind;
  text : string;
  lexeme_position : Z
}.

#[export] Instance Lexeme_eq_dec : EqDecision Lexeme.
Proof. solve_decision. Defined.

Inductive Query :=
| TermQuery (position : Z) (term : string)
| PhraseQuery (position : Z) (text : string)
| AndQuery (position : Z) (left right : Query)
| OrQuery (position : Z) (left right : Query)
| NotQuery (position : Z) (operand : Query)
| FieldQuery (position : Z) (field : string) (query : Query)
| RangeFilter (position : Z) (field lower_bound upper_bound : string)
    (include_lower include_upper : bool)
| BoostQuery (position : Z) (query : Query) (boost : double)
| MatchAllQuery (position : Z).

Definition query_position (q : Query) : Z :=
  match q with
  | TermQuery p _ | PhraseQuery p _ | AndQuery p _ _ | OrQuery p _ _ | NotQuery p _
  | FieldQuery p _ _ | RangeFilter p _ _ _ _ _ | BoostQuery p _ _ | MatchAllQuery p => p
  end.
