(* ===== verification/Lexer.v ===== *)
(** * The query lexer

    src/query/lexer.cpp.  [lex] walks the input with a cursor; here the cursor
    is kept together with the rest of the input from it.  Every round of the
    outer loop consumes a byte, so [S (size)] rounds are enough ([lex_total]). *)

From S2P Require Import Prelude Text Query.
From Stdlib Require Import Ascii.

Definition ascii_equal_ignore_case (lhs rhs : string) : bool :=
  if negb (zstrlen lhs =? zstrlen rhs) then false
  else str_eqb (str_map to_lower lhs) (str_map to_lower rhs).

Definition is_delimiter (byte : ascii) : bool :=
  is_space byte || bool_decide (byte = "("%char) || bool_decide (byte = ")"%char) ||
  bool_decide (byte = ":"%char) || bool_decide (byte = "^"%char) ||
  bool_decide (byte = "["%char) || bool_decide (byte = "]"%char) ||
  bool_decide (byte = chr 34) || bool_decide (byte = "*"%char).

Definition classify_word (w : string) : TokenKind :=
  if ascii_equal_ignore_case w "AND" then and_operator
  else if ascii_equal_ignore_case w "OR" then or_operator
  else if ascii_equal_ignore_case w "NOT" then not_operator
  else if ascii_equal_ignore_case w "TO" then to_operator
  else word.

Definition limit_error {A} (position : Z) (message : string) : expected ParseError A :=
  Err {| parse_code := resource_limit; parse_position := position; parse_message := message |}.

(** The checks of the [append] lambda, for a vector of [count] tokens. *)
Definition append_check (limits : QueryLimits) (count : Z) (token : Lexeme)
    : expected ParseError unit :=
  if zstrlen (text token) >? maximum_lexeme_bytes limits then
    limit_error (lexeme_position token) "query lexeme byte limit exceeded"
  else if count >=? maximum_lexemes limits then
    limit_error (lexeme_position token) "query lexeme count limit exceeded"
  else Ok tt.

(** The punctuation cases of the [switch]. *)
Definition punctuation (byte : ascii) : option TokenKind :=
  if bool_decide (byte = "("%char) then Some left_parenthesis
  else if bool_decide (byte = ")"%char) then Some right_parenthesis
  else if bool_decide (byte = ":"%char) then Some colon
  else if bool_decide (byte = "^"%char) then Some caret
  else if bool_decide (byte = "["%char) then Some left_bracket
  else if bool_decide (byte = "]"%char) then Some right_bracket
  else if bool_decide (byte = "*"%char) then Some star
  else None.

(** The loop over a quoted phrase, from just after the opening quote at
    [position]: the text, and the cursor and input after the closing quote. *)
Fixpoint lex_phrase (position cursor : Z) (rest : string) : expected ParseError (string * Z * string) :=
  match rest with
  | EmptyString =>
      Err {| parse_code := unterminated_phrase; parse_position := position;
             parse_message := "quoted phrase is missing its closing quote" |}
  | String c rest' =>
      if bool_decide (c = chr 34) then Ok ("", cursor + 1, rest')
      else if bool_decide (c = "\"%char) then
        match rest' with
        | String d rest'' =>
            if bool_decide (d = chr 34) || bool_decide (d = "\"%char) then
              '(text, cursor', after) ← lex_phrase position (cursor + 2) rest'';
              Ok (String d text, cursor', after)
            else Err {| parse_code := unexpected_character; parse_position := cursor;
                        parse_message := "only quote and backslash may be escaped" |}
        | EmptyString =>
            Err {| parse_code := unexpected_character; parse_position := cursor;
                   parse_message := "only quote and backslash may be escaped" |}
        end
      else
        '(text, cursor', after) ← lex_phrase position (cursor + 1) rest';
        Ok (String c text, cursor', after)
  end.

Fixpoint lex_loop (limits : QueryLimits) (fuel : nat) (count cursor : Z) (rest : string)
    : expected ParseError (list Lexeme) :=
  match fuel, rest with
  | O, _ | _, EmptyString => Ok [{| kind := end_token; text := ""; lexeme_position := cursor |}]
  | S fuel', String byte rest' =>
      if is_space byte then lex_loop limits fuel' count (cursor + 1) rest'
      else
        match punctuation byte with
        | Some k =>
            let token := {| kind := k; text := String byte ""; lexeme_position := cursor |} in
            _ ← append_check limits count token;
            tokens ← lex_loop limits fuel' (count + 1) (cursor + 1) rest';
            Ok (token :: tokens)
        | None =>
            if bool_decide (byte = chr 34) then
              '(content, cursor', after) ← lex_phrase cursor (cursor + 1) rest';
              let token := {| kind := phrase; text := content; lexeme_position := cursor |} in
              _ ← append_check limits count token;
              tokens ← lex_loop limits fuel' (count + 1) cursor' after;
              Ok (token :: tokens)
            else
              let '(w, after) := span (fun c => negb (is_delimiter c)) rest in
              if str_eqb w "" then
                Err {| parse_code := unexpected_character; parse_position := cursor;
                       parse_message := "unexpected character in query" |}
              else
                let token := {| kind := classify_word w; text := w; lexeme_position := cursor |} in
                _ ← append_check limits count token;
                tokens ← lex_loop limits fuel' (count + 1) (cursor + zstrlen w) after;
                Ok (token :: tokens)
        end
  end.

Definition lex (input : string) (limits : QueryLimits) : expected ParseError (list Lexeme) :=
  if (maximum_query_bytes limits =? 0) || (maximum_lexemes limits =? 0) ||
     (maximum_lexeme_bytes limits =? 0) || (maximum_nesting_depth limits =? 0)
  then limit_error 0 "query limits must be greater than zero"
  else if zstrlen input >? maximum_query_bytes limits then
    limit_error (maximum_query_bytes limits) "query byte limit exceeded"
  else lex_loop limits (S (String.length input)) 0 0 input.

(** ** Specification: how an input is laid out *)

(** The source text of a phrase: quotes around it, and every quote and
    backslash of it escaped. *)
Fixpoint escape (s : string) : string :=
  match s with
  | EmptyString => EmptyString
  | String c s' =>
      if bool_decide (c = chr 34) || bool_decide (c = "\"%char)
      then String "\" (String c (escape s')) else String c (escape s')
  end.

Definition spaces (s : string) : Prop := str_forallb is_space s = true.

(** A word: not empty and without delimiters; its kind is that of its text. *)
Definition word_text (w : string) : Prop :=
  w <> "" /\ str_forallb (fun c => negb (is_delimiter c)) w = true.

Inductive source_of : Lexeme -> string -> Prop :=
| source_punctuation c k p :
    punctuation c = Some k ->
    source_of {| kind := k; text := String c ""; lexeme_position := p |} (String c "")
| source_phrase content p :
    source_of {| kind := phrase; text := content; lexeme_position := p |}
      (String (chr 34) (escape content +:+ String (chr 34) ""))
| source_word w p :
    word_text w ->
    source_of {| kind := classify_word w; text := w; lexeme_position := p |} w.

(** A word runs up to a delimiter or the end of the input. *)
Definition starts_with_delimiter (s : string) : Prop :=
  match s with EmptyString => True | String c _ => is_delimiter c = true end.

Inductive layout : Z -> list Lexeme -> string -> Prop :=
| layout_end cursor gap :
    spaces gap ->
    layout cursor [{| kind := end_token; text := ""; lexeme_position := cursor + zstrlen gap |}] gap
| layout_token cursor gap t source ts rest :
    spaces gap -> source_of t source -> lexeme_position t = cursor + zstrlen gap ->
    (source = text t -> word_text (text t) -> starts_with_delimiter rest) ->
    layout (cursor + zstrlen gap + zstrlen source) ts rest ->
    layout cursor (t :: ts) (gap +:+ source +:+ rest).

(** The limits are sizes; [lex] wants them positive. *)
Definition limits_positive (limits : QueryLimits) : Prop :=
  0 < maximum_query_bytes limits /\ 0 < maximum_lexemes limits /\
  0 < maximum_lexeme_bytes limits /\ 0 < maximum_nesting_depth limits.

(** [count] lexemes and then [ts], whose end token does not count. *)
Definition lexemes_fit (limits : QueryLimits) (count : Z) (ts : list Lexeme) : Prop :=
  (zlen ts = 1 \/ count + zlen ts <= maximum_lexemes limits + 1) /\
  Forall (fun t => zstrlen (text t) <= maximum_lexeme_bytes limits) ts.

(** ** Lemmas *)

Lemma layout_nonempty cursor ts rest : layout cursor ts rest -> 1 <= zlen ts.
Proof. destruct 1; rewrite zlen_cons; pose proof (zlen_nonneg (@nil Lexeme)); [|pose proof (zlen_nonneg ts)]; lia. Qed.

Lemma layout_space cursor c ts rest : is_space c = true ->
  layout (cursor + 1) ts rest -> layout cursor ts (String c rest).
Proof.
  intros Hc. inversion_clear 1 as [? gap Hgap|? gap t source ts' rest' Hgap Hsrc Hpos Hd Hl].
  - replace (cursor + 1 + zstrlen rest) with (cursor + zstrlen (String c rest))
      by (rewrite zstrlen_cons; lia).
    apply layout_end. unfold spaces. cbn. by rewrite Hc.
  - change (String c (gap +:+ source +:+ rest')) with (String c gap +:+ source +:+ rest').
    apply layout_token.
    + unfold spaces. cbn. by rewrite Hc.
    + done.
    + rewrite zstrlen_cons. lia.
    + done.
    + rewrite zstrlen_cons. replace (cursor + (1 + zstrlen gap)) with (cursor + 1 + zstrlen gap) by lia. done.
Qed.

Lemma lex_phrase_inv n : forall rest position cursor content cursor' after,
  (String.length rest < n)%nat ->
  lex_phrase position cursor rest = Ok (content, cursor', after) ->
  rest = escape content +:+ String (chr 34) after /\
  cursor' = cursor + zstrlen (escape content) + 1.
Proof.
  induction n as [|n IH]; intros rest position cursor content cursor' after Hn; [lia|].
  destruct rest as [|c rest]; cbn [lex_phrase]; [done|]. cbn [String.length] in Hn.
  case_bool_decide as E1.
  { intros [= <- <- <-]. subst. split; [done|]. unfold zstrlen. cbn. lia. }
  case_bool_decide as E2.
  - destruct rest as [|d rest]; [done|]. destruct (bool_decide (d = chr 34) || bool_decide (d = "\"%char)) eqn:Ed; [|done].
    intros ([[t k] a] & H & [= <- <- <-])%bind_Ok. cbn [String.length] in Hn.
    apply IH in H as [-> ->]; [|lia]. cbn [escape]. rewrite Ed, E2. split; [done|].
    rewrite !zstrlen_cons. lia.
  - intros ([[t k] a] & H & [= <- <- <-])%bind_Ok. apply IH in H as [-> ->]; [|lia].
    cbn [escape]. rewrite (bool_decide_eq_false_2 _ E1), (bool_decide_eq_false_2 _ E2). cbn [orb].
    split; [done|]. rewrite zstrlen_cons. lia.
Qed.

Lemma lex_phrase_Ok position content after : forall cursor,
  lex_phrase position cursor (escape content +:+ String (chr 34) after) =
  Ok (content, cursor + zstrlen (escape content) + 1, after).
Proof.
  induction content as [|c content IH]; intros cursor; cbn [escape].
  - cbn. do 3 f_equal. unfold zstrlen. cbn. lia.
  - destruct (bool_decide (c = chr 34) || bool_decide (c = "\"%char)) eqn:Ec.
    + cbn [String.append lex_phrase]. rewrite (bool_decide_eq_false_2 ("\"%char = chr 34)) by done.
      rewrite (bool_decide_eq_true_2 ("\"%char = "\"%char)) by done. rewrite Ec, IH.
      cbn [mbind expected_bind]. do 3 f_equal. rewrite !zstrlen_cons. lia.
    + apply orb_false_elim in Ec as [E1 E2]. cbn [String.append lex_phrase]. rewrite E1, E2, IH.
      cbn [mbind expected_bind]. do 3 f_equal. rewrite !zstrlen_cons. lia.
Qed.

Lemma lex_gap limits gap : forall fuel count cursor s, spaces gap ->
  (String.length gap <= fuel)%nat ->
  lex_loop limits fuel count cursor (gap +:+ s) =
  lex_loop limits (fuel - String.length gap) count (cursor + zstrlen gap) s.
Proof.
  induction gap as [|c gap IH]; intros fuel count cursor s Hs Hf.
  - cbn [String.append String.length]. rewrite Nat.sub_0_r. f_equal. unfold zstrlen. cbn. lia.
  - apply andb_prop in Hs as [Hc Hs]. destruct fuel as [|fuel]; [cbn in Hf; lia|].
    cbn [String.append lex_loop]. rewrite Hc. rewrite IH by (done || cbn in Hf; lia).
    cbn [String.length Nat.sub]. f_equal. rewrite zstrlen_cons. lia.
Qed.

Lemma append_check_Ok limits count t u : append_check limits count t = Ok u <->
  zstrlen (text t) <= maximum_lexeme_bytes limits /\ count < maximum_lexemes limits.
Proof.
  unfold append_check. destruct (Z.gtb_spec (zstrlen (text t)) (maximum_lexeme_bytes limits)).
  { split; [done|lia]. }
  destruct (Z.geb_spec count (maximum_lexemes limits)); [split; [done|lia]|].
  destruct u. split; [lia|done].
Qed.

Lemma fit_cons limits count t ts : 1 <= zlen ts ->
  zstrlen (text t) <= maximum_lexeme_bytes limits /\ count < maximum_lexemes limits ->
  lexemes_fit limits (count + 1) ts -> lexemes_fit limits count (t :: ts).
Proof.
  intros Hlen [H1 H2] [H3 H4]. split; [|by constructor]. right. rewrite zlen_cons. lia.
Qed.

Lemma fit_inv limits count t ts : 1 <= zlen ts -> lexemes_fit limits count (t :: ts) ->
  append_check limits count t = Ok tt /\ lexemes_fit limits (count + 1) ts.
Proof.
  intros Hlen [H1 H2]. apply Forall_cons in H2 as [H2 H3]. rewrite zlen_cons in H1.
  split; [apply append_check_Ok; lia|]. split; [|done]. lia.
Qed.

Lemma punctuation_delimiter c k : punctuation c = Some k ->
  is_delimiter c = true /\ is_space c = false /\ c <> chr 34.
Proof.
  unfold punctuation, is_delimiter. intros H.
  repeat (case_bool_decide; [subst; by vm_compute|]). done.
Qed.

Lemma lex_loop_sound limits n : forall count cursor rest ts,
  0 < maximum_lexeme_bytes limits -> (String.length rest < n)%nat ->
  lex_loop limits n count cursor rest = Ok ts ->
  layout cursor ts rest /\ lexemes_fit limits count ts.
Proof.
  induction n as [|n IH]; intros count cursor rest ts Hb Hn; [lia|].
  destruct rest as [|c rest]; cbn [lex_loop].
  { intros [= <-]. split.
    - pose proof (layout_end cursor "" eq_refl) as H. unfold zstrlen in H. cbn in H.
      by rewrite Z.add_0_r in H.
    - split; [by left|]. repeat constructor. cbn. unfold zstrlen. cbn. lia. }
  cbn [String.length] in Hn. destruct (is_space c) eqn:Es.
  { intros [Hl Hf]%IH; [|done|lia]. split; [by apply layout_space|done]. }
  assert (Htok : forall t source rest' tokens,
      String c rest = source +:+ rest' -> source_of t source -> lexeme_position t = cursor ->
      (source = text t -> word_text (text t) -> starts_with_delimiter rest') ->
      append_check limits count t = Ok tt -> source <> "" ->
      lex_loop limits n (count + 1) (cursor + zstrlen source) rest' = Ok tokens ->
      layout cursor (t :: tokens) (String c rest) /\ lexemes_fit limits count (t :: tokens)).
  { intros t source rest' tokens E Hsrc Hpos Hd Hchk Hne Hlex. apply append_check_Ok in Hchk.
    apply IH in Hlex as [Hl Hf]; [|done|].
    - split; [|apply fit_cons; [by eapply layout_nonempty|done..]].
      rewrite E. change (source +:+ rest') with ("" +:+ source +:+ rest').
      apply layout_token; [done|done|rewrite Hpos; unfold zstrlen; cbn; lia|done|].
      by replace (cursor + zstrlen "" + zstrlen source) with (cursor + zstrlen source)
        by (unfold zstrlen; cbn; lia).
    - apply (f_equal String.length) in E. rewrite length_str_app in E. cbn in E.
      destruct source; [done|]. cbn in E. lia. }
  destruct (punctuation c) as [k|] eqn:Ep.
  { intros ([] & Hchk & (tokens & Hlex & [= <-])%bind_Ok)%bind_Ok.
    apply (Htok _ (String c "") rest); [done|by constructor|done| |done|done|exact Hlex].
    intros _ [_ Hw]. cbn in Hw. apply punctuation_delimiter in Ep as [Ep _]. by rewrite Ep in Hw. }
  case_bool_decide as Eq.
  { intros ([[content cursor'] after] & Hph & ([] & Hchk & (tokens & Hlex & [= <-])%bind_Ok)%bind_Ok)%bind_Ok.
    apply (lex_phrase_inv (S (String.length rest))) in Hph as [-> ->]; [|lia].
    apply (Htok _ (String (chr 34) (escape content +:+ String (chr 34) "")) after); try done.
    - subst c. cbn. f_equal. by rewrite str_app_assoc.
    - constructor.
    - intros H. cbn in H. exfalso. apply (f_equal String.length) in H. cbn in H.
      rewrite length_str_app in H. cbn in H.
      assert (String.length content <= String.length (escape content))%nat; [|lia].
      clear. induction content as [|d content IH]; cbn; [lia|]. destruct (_ || _); cbn; lia.
    - rewrite <- Hlex. f_equal. rewrite zstrlen_cons, zstrlen_app, zstrlen_cons. unfold zstrlen at 2. cbn. lia. }
  destruct (span (fun c => negb (is_delimiter c)) (String c rest)) as [w after] eqn:Ew.
  apply span_app in Ew as (Ew & Hw & Ha). unfold str_eqb. case_bool_decide as Ewe; [done|].
  intros ([] & Hchk & (tokens & Hlex & [= <-])%bind_Ok)%bind_Ok.
  apply (Htok _ w after); try done.
  - by constructor.
  - intros _ _. destruct after; [done|]. by apply negb_false_iff in Ha.
Qed.

Lemma word_first w : word_text w -> exists c w', w = String c w' /\ is_delimiter c = false.
Proof.
  intros [Hne Hw]. destruct w as [|c w]; [done|]. exists c, w. split; [done|].
  cbn in Hw. apply andb_prop in Hw as [Hc _]. by apply negb_true_iff in Hc.
Qed.

Lemma not_delimiter c : is_delimiter c = false ->
  is_space c = false /\ punctuation c = None /\ bool_decide (c = chr 34) = false.
Proof.
  unfold is_delimiter, punctuation. intros H.
  repeat (apply orb_false_elim in H as [H ->]). split_and!; [done|done|].
  repeat (apply orb_false_elim in H as [H ?]). done.
Qed.

(** One round of the loop reads the lexeme that the layout says. *)
Lemma lex_step limits n count cursor t source rest :
  source_of t source -> lexeme_position t = cursor ->
  (source = text t -> word_text (text t) -> starts_with_delimiter rest) ->
  append_check limits count t = Ok tt ->
  lex_loop limits (S n) count cursor (source +:+ rest) =
  (tokens ← lex_loop limits n (count + 1) (cursor + zstrlen source) rest; Ok (t :: tokens)).
Proof.
  intros Hsrc Hpos Hd Hchk. destruct Hsrc as [c k p Hk|content p|w p Hw]; cbn in Hpos; subst p.
  - destruct (punctuation_delimiter _ _ Hk) as (_ & Hs & _). cbn [String.append lex_loop].
    rewrite Hs, Hk. cbv zeta. rewrite Hchk. done.
  - cbn [String.append lex_loop]. rewrite (str_app_assoc (escape content)). cbn [String.append].
    change (is_space (chr 34)) with false. change (punctuation (chr 34)) with (@None TokenKind). cbv iota.
    rewrite (bool_decide_eq_true_2 (chr 34 = chr 34)) by done.
    rewrite lex_phrase_Ok. cbn [mbind expected_bind]. rewrite Hchk. cbn [mbind expected_bind].
    f_equal. f_equal. rewrite zstrlen_cons, zstrlen_app, zstrlen_cons. unfold zstrlen at 3. cbn. lia.
  - cbn [text] in *. specialize (Hd eq_refl Hw).
    destruct (word_first _ Hw) as (c & w' & -> & Hc).
    destruct (not_delimiter _ Hc) as (Hs & Hp & Hq). destruct Hw as [Hne Hall].
    cbn [lex_loop String.append]. rewrite Hs, Hp, Hq.
    change (String c (w' +:+ rest)) with (String c w' +:+ rest).
    rewrite span_exact; [|done|].
    + unfold str_eqb. rewrite bool_decide_eq_false_2 by done. cbv zeta. by rewrite Hchk.
    + destruct rest; [done|]. cbn in Hd. by rewrite Hd.
Qed.

Lemma source_nonempty t source : source_of t source -> source <> "".
Proof. destruct 1 as [| |w p [Hw _]]; done. Qed.

Lemma lex_loop_complete limits cursor ts rest : layout cursor ts rest -> forall n count,
  (String.length rest < n)%nat -> lexemes_fit limits count ts ->
  lex_loop limits n count cursor rest = Ok ts.
Proof.
  induction 1 as [cursor gap Hgap|cursor gap t source ts rest Hgap Hsrc Hpos Hd Hl IH];
    intros n count Hn Hfit.
  - rewrite <- (str_app_nil_r gap) at 1. rewrite lex_gap by (done || lia).
    by destruct (n - String.length gap)%nat.
  - rewrite !length_str_app in Hn. rewrite lex_gap by (done || lia).
    apply fit_inv in Hfit as [Hchk Hfit]; [|by eapply layout_nonempty].
    destruct (n - String.length gap)%nat as [|n'] eqn:En; [lia|].
    rewrite lex_step with (t := t) by done. rewrite IH; [done| |done].
    pose proof (source_nonempty _ _ Hsrc). destruct source; [done|]. cbn in Hn. lia.
Qed.

(** ** Properties *)

(**  The lexer accepts an input within the byte limit exactly when it is
    the layout of a lexeme sequence within the limits, and returns that
    sequence: optional white space, then each lexeme's source text at its
    position (a word up to the next delimiter, a phrase in quotes with quotes
    and backslashes escaped), and an end token at the end of the input. *)
Theorem lex_layout input limits ts :
  0 <= maximum_query_bytes limits -> 0 <= maximum_lexemes limits ->
  0 <= maximum_lexeme_bytes limits -> 0 <= maximum_nesting_depth limits ->
  lex input limits = Ok ts <->
  limits_positive limits /\ zstrlen input <= maximum_query_bytes limits /\
  layout 0 ts input /\ lexemes_fit limits 0 ts.
Proof.
  intros H1 H2 H3 H4. unfold lex, limits_positive.
  destruct (Z.eqb_spec (maximum_query_bytes limits) 0), (Z.eqb_spec (maximum_lexemes limits) 0),
    (Z.eqb_spec (maximum_lexeme_bytes limits) 0), (Z.eqb_spec (maximum_nesting_depth limits) 0);
    cbn [orb]; try (split; [done|lia]).
  destruct (Z.gtb_spec (zstrlen input) (maximum_query_bytes limits)); [split; [done|lia]|].
  split.
  - intros [Hl Hf]%lex_loop_sound; [|lia|lia]. split_and!; (done || lia).
  - intros (_ & _ & Hl & Hf). apply lex_loop_complete; [done|lia|done].
Qed.

Lemma lex_layout_witness :
  let input := "tag:" +:+ String (chr 34) ("a\\b" +:+ String (chr 34) " x") in
  layout 0 [{| kind := word; text := "tag"; lexeme_position := 0 |};
            {| kind := colon; text := ":"; lexeme_position := 3 |};
            {| kind := phrase; text := "a\b"; lexeme_position := 4 |};
            {| kind := word; text := "x"; lexeme_position := 11 |};
            {| kind := end_token; text := ""; lexeme_position := 12 |}] input.
Proof.
  intros input. apply (lex_layout input default_limits); [discriminate..|]. by vm_compute.
Defined.
