(* ===== verification/Grammar.v ===== *)
(** * The query grammar and its parser

    The grammar that [Parser] recognises, as inductive derivations with the
    bound on nested parentheses, and the proofs that the parser returns a
    query exactly when the grammar derives it and always comes to an end; the
    grammar of docs/query_language.md, and how the two differ. *)

From S2P Require Import Prelude Text Doubles Numbers Query Lexer Parser.
From Stdlib Require Import SpecFloat.
Import Parser.

(** ** The grammar

    [g_or d ts q]: the tokens [ts] are the expression [q], read inside [d]
    parentheses.  Binary operators associate to the left, AND binds tighter
    than OR, OR may be left out before a primary, boosts follow a primary, and
    the operand of a field is a primary or a negation of one. *)

Section grammar.
Context (maximum : Z).

Definition is_bound (t : Lexeme) : Prop := kind t = word \/ kind t = star.

Inductive g_or : Z -> list Lexeme -> Query -> Prop :=
| gor_and d ts q : g_and d ts q -> g_or d ts q
| gor_or d ts t us l r :
    g_or d ts l -> kind t = or_operator -> g_and d us r ->
    g_or d (ts ++ t :: us) (OrQuery (query_position l) l r)
| gor_implicit d ts t us l r :
    g_or d ts l -> begins_primary (kind t) = true -> g_and d (t :: us) r ->
    g_or d (ts ++ t :: us) (OrQuery (query_position l) l r)
with g_and : Z -> list Lexeme -> Query -> Prop :=
| gand_unary d ts q : g_unary d ts q -> g_and d ts q
| gand_and d ts t us l r :
    g_and d ts l -> kind t = and_operator -> g_unary d us r ->
    g_and d (ts ++ t :: us) (AndQuery (query_position l) l r)
with g_unary : Z -> list Lexeme -> Query -> Prop :=
| gunary_not d t ts q :
    kind t = not_operator -> g_unary d ts q ->
    g_unary d (t :: ts) (NotQuery (lexeme_position t) q)
| gunary_postfix d ts q : g_postfix d ts q -> g_unary d ts q
with g_postfix : Z -> list Lexeme -> Query -> Prop :=
| gpostfix_primary d ts q : g_primary d ts q -> g_postfix d ts q
| gpostfix_boost d ts t b q boost :
    g_postfix d ts q -> kind t = caret -> kind b = word -> boost_value b = Some boost ->
    g_postfix d (ts ++ [t; b]) (BoostQuery (query_position q) q boost)
with g_operand : Z -> list Lexeme -> Query -> Prop :=
| goperand_not d t ts q :
    kind t = not_operator -> g_operand d ts q ->
    g_operand d (t :: ts) (NotQuery (lexeme_position t) q)
| goperand_primary d ts q : g_primary d ts q -> g_operand d ts q
with g_primary : Z -> list Lexeme -> Query -> Prop :=
| gprimary_term d t : kind t = word -> g_primary d [t] (TermQuery (lexeme_position t) (text t))
| gprimary_range d f c l lo to hi r :
    kind f = word -> kind c = colon -> kind l = left_bracket -> is_bound lo ->
    kind to = to_operator -> is_bound hi -> kind r = right_bracket ->
    g_primary d [f; c; l; lo; to; hi; r]
      (RangeFilter (lexeme_position f) (text f) (text lo) (text hi) true true)
| gprimary_field d f c ts q :
    kind f = word -> kind c = colon -> g_operand d ts q ->
    g_primary d (f :: c :: ts) (FieldQuery (lexeme_position f) (text f) q)
| gprimary_phrase d t : kind t = phrase -> blank (text t) = false ->
    g_primary d [t] (PhraseQuery (lexeme_position t) (text t))
| gprimary_star d t : kind t = star -> g_primary d [t] (MatchAllQuery (lexeme_position t))
| gprimary_group d l ts r q :
    kind l = left_parenthesis -> d < maximum -> g_or (d + 1) ts q -> kind r = right_parenthesis ->
    g_primary d (l :: ts ++ [r]) q.

End grammar.

Scheme g_or_mut := Induction for g_or Sort Prop
with g_and_mut := Induction for g_and Sort Prop
with g_unary_mut := Induction for g_unary Sort Prop
with g_postfix_mut := Induction for g_postfix Sort Prop
with g_operand_mut := Induction for g_operand Sort Prop
with g_primary_mut := Induction for g_primary Sort Prop.
Combined Scheme grammar_ind from
  g_or_mut, g_and_mut, g_unary_mut, g_postfix_mut, g_operand_mut, g_primary_mut.

(** ** The documented grammar

    The grammar of docs/query_language.md, rule by rule, as the token lists it
    derives (it does not say which tree: the operand of a field is a [unary],
    which leaves open whether a boost belongs to the operand or to the field).
    [implicit]: the tokens before which OR may be left out; the document leaves
    it out before any [and].  The other conditions are the document's: phrases
    are not blank, boosts are finite numbers greater than zero, parentheses
    nest at most [maximum] deep. *)

Definition anywhere (k : TokenKind) : bool := true.

Definition but_not (k : TokenKind) : bool := match k with not_operator => false | _ => true end.

Section documented.
Context (maximum : Z) (implicit : TokenKind -> bool).

Inductive d_or : Z -> list Lexeme -> Prop :=
| dor_and d ts : d_and d ts -> d_or d ts
| dor_or d ts t us : d_or d ts -> kind t = or_operator -> d_and d us -> d_or d (ts ++ t :: us)
| dor_implicit d ts t us : d_or d ts -> implicit (kind t) = true -> d_and d (t :: us) -> d_or d (ts ++ t :: us)
with d_and : Z -> list Lexeme -> Prop :=
| dand_unary d ts : d_unary d ts -> d_and d ts
| dand_and d ts t us : d_and d ts -> kind t = and_operator -> d_unary d us -> d_and d (ts ++ t :: us)
with d_unary : Z -> list Lexeme -> Prop :=
| dunary_not d t ts : kind t = not_operator -> d_unary d ts -> d_unary d (t :: ts)
| dunary_postfix d ts : d_postfix d ts -> d_unary d ts
with d_postfix : Z -> list Lexeme -> Prop :=
| dpostfix_primary d ts : d_primary d ts -> d_postfix d ts
| dpostfix_boost d ts t b : d_postfix d ts -> kind t = caret -> kind b = word -> is_Some (boost_value b) ->
    d_postfix d (ts ++ [t; b])
with d_primary : Z -> list Lexeme -> Prop :=
| dprimary_term d t : kind t = word -> d_primary d [t]
| dprimary_phrase d t : kind t = phrase -> blank (text t) = false -> d_primary d [t]
| dprimary_star d t : kind t = star -> d_primary d [t]
| dprimary_group d l ts r : kind l = left_parenthesis -> d < maximum -> d_or (d + 1) ts ->
    kind r = right_parenthesis -> d_primary d (l :: ts ++ [r])
| dprimary_field d f c ts : kind f = word -> kind c = colon -> d_unary d ts -> d_primary d (f :: c :: ts)
| dprimary_range d f c l lo to hi r :
    kind f = word -> kind c = colon -> kind l = left_bracket -> is_bound lo ->
    kind to = to_operator -> is_bound hi -> kind r = right_bracket -> d_primary d [f; c; l; lo; to; hi; r].
End documented.

Scheme d_or_mut := Induction for d_or Sort Prop
with d_and_mut := Induction for d_and Sort Prop
with d_unary_mut := Induction for d_unary Sort Prop
with d_postfix_mut := Induction for d_postfix Sort Prop
with d_primary_mut := Induction for d_primary Sort Prop.
Combined Scheme documented_ind from d_or_mut, d_and_mut, d_unary_mut, d_postfix_mut, d_primary_mut.

(** ** Totality and soundness *)

(** The tokens end with the only end token. *)
Definition terminated (ts : list Lexeme) : Prop :=
  exists l e, ts = l ++ [e] /\ kind e = end_token /\ Forall (fun t => kind t <> end_token) l.

Lemma terminated_cons ts : terminated ts -> exists t ts', ts = t :: ts' /\
  (kind t <> end_token -> terminated ts').
Proof.
  intros (l & e & -> & He & Hl). destruct l as [|t l].
  - exists e, []. by split.
  - exists t, (l ++ [e]). split; [done|]. intros _. apply Forall_cons in Hl as [_ Hl].
    by exists l, e.
Qed.

(** A state, and the one after some tokens were used. *)
Definition at_state (s : Parser) (used : list Lexeme) (s' : Parser) : Prop :=
  remaining s = used ++ remaining s' /\ terminated (remaining s') /\
  maximum_depth_ s' = maximum_depth_ s /\ depth_ s' = depth_ s.

Definition outcome (s : Parser) (G : list Lexeme -> Query -> Prop)
    (r : expected Failure (Query * Parser)) : Prop :=
  match r with
  | Ok (q, s') => exists used, at_state s used s' /\ G used q
  | Err (parse_error _) => True
  | Err _ => False
  end.

Lemma at_state_refl s : terminated (remaining s) -> at_state s [] s.
Proof. done. Qed.

Lemma at_state_trans s u s' u' s'' : at_state s u s' -> at_state s' u' s'' -> at_state s (u ++ u') s''.
Proof.
  intros (E1 & _ & M1 & D1) (E2 & T & M2 & D2). split_and!; [|done|congruence|congruence].
  by rewrite E1, E2, app_assoc.
Qed.

(** Reading the first token. *)
Lemma peek_Ok s : terminated (remaining s) -> exists t ts, remaining s = t :: ts /\
  peek s = Ok (t, s) /\
  (kind t <> end_token -> exists s', consume s = Ok (t, s') /\ at_state s [t] s').
Proof.
  intros Ht. destruct (terminated_cons _ Ht) as (t & ts & E & Hts). exists t, ts.
  unfold peek, consume. rewrite E. split_and!; [done|done|]. intros Hk.
  eexists. split; [done|]. split_and!; cbn; auto.
Qed.

Lemma is_kind_true k t : is_kind k t = true <-> kind t = k.
Proof. apply bool_decide_eq_true. Qed.
Lemma is_kind_false k t : is_kind k t = false <-> kind t <> k.
Proof. apply bool_decide_eq_false. Qed.

Definition len (s : Parser) : nat := length (remaining s).

Lemma at_state_len s u s' : at_state s u s' -> len s = (length u + len s')%nat.
Proof. intros (E & _). unfold len. by rewrite E, length_app. Qed.

Lemma outcome_bind {A} s0 s (m : P A) (f : A -> P Query) G :
  (exists e, m s = Err (parse_error e)) \/
  (exists a s', m s = Ok (a, s') /\ outcome s0 G (f a s')) ->
  outcome s0 G ((m ≫= f) s).
Proof.
  intros [[e E]|(a & s' & E & H)]; unfold mbind, P_bind; by rewrite E.
Qed.

Lemma outcome_shift s u s' (G G' : list Lexeme -> Query -> Prop) r :
  at_state s u s' -> outcome s' G r -> (forall us q, G us q -> G' (u ++ us) q) -> outcome s G' r.
Proof.
  intros Hs Hr HG. destruct r as [[q s'']|[e| |]]; cbn in *; try done.
  destruct Hr as (us & Hs' & Hq). exists (u ++ us). split; [by eapply at_state_trans|auto].
Qed.

Lemma grammar_nonempty M :
  (forall d ts q, g_or M d ts q -> ts <> []) /\ (forall d ts q, g_and M d ts q -> ts <> []) /\
  (forall d ts q, g_unary M d ts q -> ts <> []) /\ (forall d ts q, g_postfix M d ts q -> ts <> []) /\
  (forall d ts q, g_operand M d ts q -> ts <> []) /\ (forall d ts q, g_primary M d ts q -> ts <> []).
Proof.
  apply (grammar_ind M (fun _ ts _ _ => ts <> []) (fun _ ts _ _ => ts <> []) (fun _ ts _ _ => ts <> [])
    (fun _ ts _ _ => ts <> []) (fun _ ts _ _ => ts <> []) (fun _ ts _ _ => ts <> []));
    intros; try done; by destruct ts.
Qed.

Section soundness.
Context (M : Z).

Definition ready (s : Parser) (n k : nat) : Prop :=
  terminated (remaining s) /\ maximum_depth_ s = M /\ (8 * len s + k <= n)%nat.

(** What each function does with fuel [n], and the fuel it needs. *)
Definition parses (f : nat -> P Query) (G : Z -> list Lexeme -> Query -> Prop) (k n : nat) : Prop :=
  forall s, ready s n k -> outcome s (G (depth_ s)) (f n s).

Definition loops (f : nat -> Query -> P Query) (G : Z -> list Lexeme -> Query -> Prop) (k n : nat) : Prop :=
  forall s used left, ready s n k -> G (depth_ s) used left ->
    outcome s (fun us q => G (depth_ s) (used ++ us) q) (f n left s).

Record sound (n : nat) : Prop := {
  sound_or : parses parse_or (g_or M) 5 n;
  sound_or_loop : loops or_loop (g_or M) 5 n;
  sound_and : parses parse_and (g_and M) 4 n;
  sound_and_loop : loops and_loop (g_and M) 1 n;
  sound_unary : parses parse_unary (g_unary M) 3 n;
  sound_postfix : parses parse_postfix (g_postfix M) 2 n;
  sound_postfix_loop : loops postfix_loop (g_postfix M) 1 n;
  sound_operand : parses parse_field_operand (g_operand M) 2 n;
  sound_primary : parses parse_primary (g_primary M) 1 n
}.

Lemma ready_after s u s' n k k' : at_state s u s' -> u <> [] -> ready s (S n) k ->
  (k' <= k + 7)%nat -> ready s' n k'.
Proof using Type.
  intros Hs Hu (T & E & Hn) Hk. pose proof (at_state_len _ _ _ Hs) as Hl.
  destruct Hs as (_ & T' & E' & _). split_and!; [done|congruence|].
  destruct u; [done|]. cbn in Hl. lia.
Qed.

Lemma ready_step s n k k' : ready s (S n) k -> (k' < k)%nat -> ready s n k'.
Proof using Type. intros (T & E & Hn) Hk. split_and!; [done|done|lia]. Qed.

(** A parser followed by its loop. *)
Lemma parse_then_loop f g (G H : Z -> list Lexeme -> Query -> Prop) kf kg s n :
  parses f G kf n -> loops g H kg n -> (forall d ts q, G d ts q -> H d ts q) ->
  (forall d ts q, G d ts q -> ts <> []) ->
  ready s (S n) (S kf) -> (kg <= kf + 8)%nat ->
  outcome s (H (depth_ s)) ((left ← f n; g n left) s).
Proof using Type.
  intros Hf Hg HGH Hne Hr Hk. specialize (Hf s (ready_step _ _ (S kf) kf Hr ltac:(lia))).
  apply outcome_bind. destruct (f n s) as [[left s']|[e| |]] eqn:E; cbn in Hf; try done.
  - right. exists left, s'. split; [done|]. destruct Hf as (u & Hs & Hu).
    assert (depth_ s' = depth_ s) as Ed by apply Hs.
    assert (Hready : ready s' n kg) by (eapply ready_after; [exact Hs|by eapply Hne|exact Hr|lia]).
    specialize (Hg s' u left Hready). rewrite Ed in Hg.
    eapply outcome_shift; [exact Hs|apply Hg; by apply HGH|done].
  - left. by exists e.
Qed.

Lemma sound_or_S n : sound n -> parses parse_or (g_or M) 5 (S n).
Proof using Type.
  intros Hn s Hs. cbn [parse_or].
  apply (parse_then_loop parse_and or_loop (g_and M) (g_or M) 4 5);
    [apply Hn|apply Hn|intros; by constructor|apply grammar_nonempty|done|lia].
Qed.

Lemma sound_and_S n : sound n -> parses parse_and (g_and M) 4 (S n).
Proof using Type.
  intros Hn s Hs. cbn [parse_and].
  apply (parse_then_loop parse_unary and_loop (g_unary M) (g_and M) 3 1);
    [apply Hn|apply Hn|intros; by constructor|apply grammar_nonempty|done|lia].
Qed.

Lemma sound_postfix_S n : sound n -> parses parse_postfix (g_postfix M) 2 (S n).
Proof using Type.
  intros Hn s Hs. cbn [parse_postfix].
  apply (parse_then_loop parse_primary postfix_loop (g_primary M) (g_postfix M) 1 1);
    [apply Hn|apply Hn|intros; by constructor|apply grammar_nonempty|done|lia].
Qed.

(** Consuming the token that was just peeked at. *)
Lemma consume_bind {A} s (f : Lexeme -> P A) t s' : consume s = Ok (t, s') ->
  (consume ≫= f) s = f t s'.
Proof using Type. intros E. unfold mbind, P_bind. by rewrite E. Qed.

Lemma peek_bind {A} s (f : Lexeme -> P A) t : peek s = Ok (t, s) -> (peek ≫= f) s = f t s.
Proof using Type. intros E. unfold mbind, P_bind. by rewrite E. Qed.

(** Consume one token, parse, and go on with the loop. *)
Lemma loop_round s0 s n kf kg (f : nat -> P Query) (g : nat -> Query -> P Query)
    (G H : Z -> list Lexeme -> Query -> Prop) u (node : Query -> Query) used :
  at_state s0 u s -> parses f G kf n -> loops g H kg n -> ready s n kf ->
  (forall us q rest, remaining s = us ++ rest -> G (depth_ s0) us q ->
     H (depth_ s0) (used ++ u ++ us) (node q)) ->
  (forall us q, G (depth_ s0) us q -> us <> []) -> (kg <= kf + 8)%nat ->
  outcome s0 (fun us q => H (depth_ s0) (used ++ us) q) ((right ← f n; g n (node right)) s).
Proof using Type.
  intros Hs Hf Hg Hr HGH Hne Hk. specialize (Hf s Hr).
  assert (depth_ s = depth_ s0) as Ed by apply Hs. rewrite Ed in Hf.
  eapply (outcome_shift s0 u s (fun us q => H (depth_ s0) (used ++ u ++ us) q)); [exact Hs| |done].
  apply outcome_bind. destruct (f n s) as [[right s']|[e| |]] eqn:E; cbn in Hf; try done.
  - right. exists right, s'. split; [done|]. destruct Hf as (us & Hs' & Hu).
    assert (depth_ s' = depth_ s0) as Ed' by (rewrite <- Ed; apply Hs').
    assert (Hready : ready s' n kg).
    { destruct Hr as (T & EM & Hn). pose proof (at_state_len _ _ _ Hs') as Hl.
      destruct Hs' as (_ & T' & E' & _). split_and!; [done|congruence|].
      pose proof (Hne _ _ Hu). destruct us; [done|]. cbn in Hl. lia. }
    specialize (Hg s' (used ++ u ++ us) (node right) Hready). rewrite Ed' in Hg.
    eapply outcome_shift; [exact Hs'|apply Hg; eapply HGH; [apply Hs'|exact Hu]|].
    intros us' q' Hq. cbn in *. by rewrite <- !app_assoc in Hq.
  - left. by exists e.
Qed.

Lemma outcome_done s G q : terminated (remaining s) -> G [] q -> outcome s G ((mret q : P Query) s).
Proof using Type. intros T Hq. exists []. split; [by apply at_state_refl|done]. Qed.

Lemma sound_or_loop_S n : sound n -> loops or_loop (g_or M) 5 (S n).
Proof using Type.
  intros Hn s used left Hs Hleft. cbn [or_loop].
  destruct (peek_Ok s (proj1 Hs)) as (t & ts & Ets & Hpeek & Hcons).
  rewrite (peek_bind _ _ _ Hpeek).
  destruct (is_kind or_operator t) eqn:Eor; cbn [orb].
  - apply is_kind_true in Eor. destruct Hcons as (s' & Hc & Hs'); [by rewrite Eor|].
    assert (forall f : P Query, ((_ ← (_ ← consume; mret tt); f) : P Query) s = f s') as Eb.
    { intros f. unfold mbind, P_bind. by rewrite Hc. }
    rewrite Eb.
    apply (loop_round s s' n 4 5 parse_and or_loop (g_and M) (g_or M) [t]
      (OrQuery (query_position left) left)); [done|apply Hn|apply Hn| | |by intros ?? ?%grammar_nonempty|lia].
    + eapply ready_after; [exact Hs'|done|exact Hs|lia].
    + intros us q rest _ Hq. cbn. by constructor.
  - destruct (begins_primary (kind t)) eqn:Eb; [|apply outcome_done; [apply Hs|by rewrite app_nil_r]].
    change (outcome s (fun us q => g_or M (depth_ s) (used ++ us) q)
      ((right ← parse_and n; or_loop n (OrQuery (query_position left) left right)) s)).
    apply (loop_round s s n 4 5 parse_and or_loop (g_and M) (g_or M) []
      (OrQuery (query_position left) left)); [by apply at_state_refl, Hs|apply Hn|apply Hn| | |
      by intros ?? ?%grammar_nonempty|lia].
    + apply (ready_step _ _ 5); [done|lia].
    + intros us q rest E Hq. cbn. destruct us as [|t' us]; [by apply grammar_nonempty in Hq|].
      rewrite Ets in E. injection E as <- E. by apply gor_implicit.
Qed.

Lemma sound_and_loop_S n : sound n -> loops and_loop (g_and M) 1 (S n).
Proof using Type.
  intros Hn s used left Hs Hleft. cbn [and_loop].
  destruct (peek_Ok s (proj1 Hs)) as (t & ts & Ets & Hpeek & Hcons).
  rewrite (peek_bind _ _ _ Hpeek).
  destruct (is_kind and_operator t) eqn:Ek;
    [|apply outcome_done; [apply Hs|by rewrite app_nil_r]].
  apply is_kind_true in Ek. destruct Hcons as (s' & Hc & Hs'); [by rewrite Ek|].
  rewrite (consume_bind _ _ _ _ Hc).
  apply (loop_round s s' n 3 1 parse_unary and_loop (g_unary M) (g_and M) [t]
    (AndQuery (query_position left) left)); [done|apply Hn|apply Hn| | |by intros ?? ?%grammar_nonempty|lia].
  - eapply ready_after; [exact Hs'|done|exact Hs|lia].
  - intros us q rest _ Hq. cbn. by constructor.
Qed.

(** A negation: one token, then the operand. *)
Lemma sound_negation (f : nat -> P Query) (G : Z -> list Lexeme -> Query -> Prop) k n s s' t :
  parses f G k n -> at_state s [t] s' -> ready s (S n) k ->
  (forall us q, G (depth_ s) us q -> G (depth_ s) (t :: us) (NotQuery (lexeme_position t) q)) ->
  outcome s (G (depth_ s)) ((operand ← f n; mret (NotQuery (lexeme_position t) operand)) s').
Proof using Type.
  intros Hf Hs' Hr HG. assert (depth_ s' = depth_ s) as Ed by apply Hs'.
  assert (Hr' : ready s' n k) by (eapply ready_after; [exact Hs'|done|exact Hr|lia]).
  specialize (Hf s' Hr'). rewrite Ed in Hf.
  unfold mbind, P_bind. destruct (f n s') as [[q s'']|[e| |]]; cbn in *; try done.
  destruct Hf as (us & Hs'' & Hq). exists (t :: us). split; [|auto].
  by apply (at_state_trans _ [t] s').
Qed.

Lemma sound_unary_S n : sound n -> parses parse_unary (g_unary M) 3 (S n).
Proof using Type.
  intros Hn s Hs. cbn [parse_unary].
  destruct (peek_Ok s (proj1 Hs)) as (t & ts & Ets & Hpeek & Hcons).
  rewrite (peek_bind _ _ _ Hpeek). destruct (is_kind not_operator t) eqn:Ek.
  - apply is_kind_true in Ek. destruct Hcons as (s' & Hc & Hs'); [by rewrite Ek|].
    rewrite (consume_bind _ _ _ _ Hc). eapply sound_negation; [apply Hn|done|done|].
    intros us q. by constructor.
  - assert (Hr : ready s n 2) by (eapply ready_step; [exact Hs|lia]).
    pose proof (sound_postfix _ Hn s Hr) as H. destruct (parse_postfix n s) as [[q s']|]; [|done].
    destruct H as (us & Hs' & Hq). exists us. split; [done|by constructor].
Qed.

Lemma sound_operand_S n : sound n -> parses parse_field_operand (g_operand M) 2 (S n).
Proof using Type.
  intros Hn s Hs. cbn [parse_field_operand].
  destruct (peek_Ok s (proj1 Hs)) as (t & ts & Ets & Hpeek & Hcons).
  rewrite (peek_bind _ _ _ Hpeek). destruct (is_kind not_operator t) eqn:Ek.
  - apply is_kind_true in Ek. destruct Hcons as (s' & Hc & Hs'); [by rewrite Ek|].
    rewrite (consume_bind _ _ _ _ Hc). eapply sound_negation; [apply Hn|done|done|].
    intros us q. by constructor.
  - assert (Hr : ready s n 1) by (eapply ready_step; [exact Hs|lia]).
    pose proof (sound_primary _ Hn s Hr) as H. destruct (parse_primary n s) as [[q s']|]; [|done].
    destruct H as (us & Hs' & Hq). exists us. split; [done|by constructor].
Qed.

Lemma sound_postfix_loop_S n : sound n -> loops postfix_loop (g_postfix M) 1 (S n).
Proof using Type.
  intros Hn s used left Hs Hleft. cbn [postfix_loop].
  destruct (peek_Ok s (proj1 Hs)) as (t & ts & Ets & Hpeek & Hcons).
  rewrite (peek_bind _ _ _ Hpeek).
  destruct (is_kind caret t) eqn:Ek;
    [|apply outcome_done; [apply Hs|by rewrite app_nil_r]].
  apply is_kind_true in Ek. destruct Hcons as (s' & Hc & Hs'); [by rewrite Ek|].
  rewrite (consume_bind _ _ _ _ Hc).
  assert (T' : terminated (remaining s')) by apply Hs'.
  destruct (peek_Ok s' T') as (b & ts' & Ets' & Hpeek' & Hcons').
  rewrite (peek_bind _ _ _ Hpeek'). destruct (is_kind word b) eqn:Eb; cbn [negb]; [|done].
  apply is_kind_true in Eb. destruct Hcons' as (s'' & Hc' & Hs''); [by rewrite Eb|].
  rewrite (consume_bind _ _ _ _ Hc'). destruct (boost_value b) as [boost|] eqn:Ev; [|done].
  pose proof (at_state_trans _ _ _ _ _ Hs' Hs'') as Hs2. cbn in Hs2.
  assert (depth_ s'' = depth_ s) as Ed by apply Hs2.
  assert (Hr : ready s'' n 1) by (eapply ready_after; [exact Hs2|done|exact Hs|lia]).
  pose proof (sound_postfix_loop _ Hn s'' (used ++ [t; b])
    (BoostQuery (query_position left) left boost) Hr) as H. rewrite Ed in H.
  eapply outcome_shift; [exact Hs2|apply H; by constructor|].
  intros us q Hq. cbn in *. by rewrite <- app_assoc in Hq.
Qed.

Lemma bound_outcome s : terminated (remaining s) ->
  (exists e, consume_range_bound s = Err (parse_error e)) \/
  (exists t s', consume_range_bound s = Ok (text t, s') /\ at_state s [t] s' /\ is_bound t).
Proof using Type.
  intros T. destruct (peek_Ok s T) as (t & ts & Ets & Hpeek & Hcons).
  unfold consume_range_bound. rewrite (peek_bind _ _ _ Hpeek).
  destruct (is_kind word t) eqn:Ew; cbn [negb andb].
  - apply is_kind_true in Ew. destruct Hcons as (s' & Hc & Hs'); [by rewrite Ew|].
    right. exists t, s'. rewrite (consume_bind _ _ _ _ Hc). by split_and!; [| |left].
  - destruct (is_kind star t) eqn:Es; cbn [negb]; [|by left; eexists].
    apply is_kind_true in Es. destruct Hcons as (s' & Hc & Hs'); [by rewrite Es|].
    right. exists t, s'. rewrite (consume_bind _ _ _ _ Hc). by split_and!; [| |right].
Qed.

(** A token of an expected kind, or an error. *)
Lemma expect_outcome s s0 k code message u (f : Lexeme -> P Query) G :
  at_state s0 u s -> k <> end_token ->
  (forall t s', kind t = k -> at_state s0 (u ++ [t]) s' -> consume s = Ok (t, s') ->
     outcome s0 G (f t s)) ->
  outcome s0 G ((t ← peek; if negb (is_kind k t) then fail code t message else f t) s).
Proof using Type.
  intros Hs Hk Hf. destruct (peek_Ok s) as (t & ts & Ets & Hpeek & Hcons); [apply Hs|].
  rewrite (peek_bind _ _ _ Hpeek). destruct (is_kind k t) eqn:Ek; cbn [negb]; [|done].
  apply is_kind_true in Ek. destruct Hcons as (s' & Hc & Hs'); [by rewrite Ek|].
  eapply Hf; [done|by eapply at_state_trans|done].
Qed.

Lemma range_outcome s0 s f c l d :
  at_state s0 [f; c] s -> d = depth_ s0 -> kind f = word -> kind c = colon -> kind l = left_bracket ->
  (exists ts, remaining s = l :: ts) ->
  outcome s0 (g_primary M d) (parse_range f s).
Proof using Type.
  intros Hs -> Hf Hc Hl [ts Ets]. unfold parse_range.
  destruct (peek_Ok s) as (t & ts' & Ets' & _ & Hcons); [apply Hs|].
  rewrite Ets in Ets'. injection Ets' as <- <-. destruct Hcons as (s1 & Hc1 & Hs1); [by rewrite Hl|].
  rewrite (consume_bind _ _ _ _ Hc1). pose proof (at_state_trans _ _ _ _ _ Hs Hs1) as H1.
  assert (T1 : terminated (remaining s1)) by apply H1.
  apply outcome_bind. destruct (bound_outcome s1 T1) as [?|(lo & s2 & E2 & Hs2 & Hlo)]; [by left|].
  right. exists (text lo), s2. split; [done|]. pose proof (at_state_trans _ _ _ _ _ H1 Hs2) as H2.
  eapply expect_outcome; [exact H2|done|]. intros to s3 Hto H3 Hc3.
  rewrite (consume_bind _ _ _ _ Hc3). assert (T3 : terminated (remaining s3)) by apply H3.
  apply outcome_bind. destruct (bound_outcome s3 T3) as [?|(hi & s4 & E4 & Hs4 & Hhi)]; [by left|].
  right. exists (text hi), s4. split; [done|]. pose proof (at_state_trans _ _ _ _ _ H3 Hs4) as H4.
  eapply expect_outcome; [exact H4|done|]. intros r s5 Hr H5 Hc5.
  rewrite (consume_bind _ _ _ _ Hc5). cbn. exists [f; c; l; lo; to; hi; r]. split; [exact H5|by constructor].
Qed.

Lemma group_outcome s s' n t : sound n -> ready s (S n) 1 -> kind t = left_parenthesis ->
  at_state s [t] s' -> depth_ s < M ->
  outcome s (g_primary M (depth_ s))
    ((_ ← add_depth 1; inner ← parse_or n; _ ← add_depth (-1); t ← peek;
      if negb (is_kind right_parenthesis t) then fail unexpected_token t "expected closing parenthesis"
      else _ ← consume; mret inner) s').
Proof using Type.
  intros Hn Hs Ek Hs' Hd. set (s1 := {| remaining := remaining s'; maximum_depth_ := maximum_depth_ s';
                 depth_ := depth_ s' + 1 |}).
  destruct Hs' as (E1 & T1 & EM1 & Ed1).
  assert (Hr1 : ready s1 n 5).
  { split_and!; [done|cbn; rewrite EM1; apply Hs|]. destruct Hs as (_ & _ & Hlen).
    unfold len in *. rewrite E1 in Hlen. cbn in *. lia. }
  pose proof (sound_or _ Hn s1 Hr1) as H.
  apply outcome_bind. right. exists tt, s1. split; [done|].
  apply outcome_bind. destruct (parse_or n s1) as [[q s2]|[e| |]] eqn:E; cbn in H; try done; [|by left; exists e].
  right. exists q, s2. split; [done|]. destruct H as (us & (E2 & T2 & EM2 & Ed2) & Hq).
  set (s3 := {| remaining := remaining s2; maximum_depth_ := maximum_depth_ s2;
                depth_ := depth_ s2 + (-1) |}).
  apply outcome_bind. right. exists tt, s3. split; [done|].
  assert (H3 : at_state s (t :: us) s3).
  { split_and!; cbn in *; [by rewrite E1, E2|done|congruence|lia]. }
  eapply expect_outcome; [exact H3|done|]. intros r s4 Hr H4 Hc4.
  rewrite (consume_bind _ _ _ _ Hc4). cbn. exists (t :: us ++ [r]). split; [exact H4|].
  apply gprimary_group; [done|done| |done]. by rewrite <- Ed1.
Qed.

Lemma field_outcome s s' n f c : sound n -> ready s (S n) 1 -> kind f = word -> kind c = colon ->
  at_state s [f; c] s' ->
  outcome s (g_primary M (depth_ s))
    ((child ← parse_field_operand n; mret (FieldQuery (lexeme_position f) (text f) child)) s').
Proof using Type.
  intros Hn Hs Hf Hc Hs'. assert (depth_ s' = depth_ s) as Ed by apply Hs'.
  assert (Hr' : ready s' n 2) by (eapply ready_after; [exact Hs'|done|exact Hs|lia]).
  pose proof (sound_operand _ Hn s' Hr') as H. rewrite Ed in H.
  unfold mbind, P_bind. destruct (parse_field_operand n s') as [[q s'']|[e| |]]; cbn in *; try done.
  destruct H as (us & Hs'' & Hq). exists (f :: c :: us). split; [|by constructor].
  by apply (at_state_trans _ [f; c] s').
Qed.

Lemma single_outcome s s' t G q : at_state s [t] s' -> G [t] q ->
  outcome s G ((mret q : P Query) s').
Proof using Type. intros Hs Hq. by exists [t]. Qed.

Lemma sound_primary_S n : sound n -> parses parse_primary (g_primary M) 1 (S n).
Proof using Type.
  intros Hn s Hs. cbn [parse_primary].
  destruct (peek_Ok s (proj1 Hs)) as (t & ts & Ets & Hpeek & Hcons).
  rewrite (peek_bind _ _ _ Hpeek).
  destruct (kind t) eqn:Ek; try done; destruct Hcons as (s1 & Hc1 & Hs1); try done.
  - rewrite (consume_bind _ _ _ _ Hc1). assert (T1 : terminated (remaining s1)) by apply Hs1.
    destruct (peek_Ok s1 T1) as (c & ts1 & Ets1 & Hpeek1 & Hcons1).
    rewrite (peek_bind _ _ _ Hpeek1). destruct (is_kind colon c) eqn:Ec; cbn [negb];
      [|apply (single_outcome s s1 t); [done|by constructor]].
    apply is_kind_true in Ec. destruct Hcons1 as (s2 & Hc2 & Hs2); [by rewrite Ec|].
    rewrite (consume_bind _ _ _ _ Hc2). pose proof (at_state_trans _ _ _ _ _ Hs1 Hs2) as H2.
    assert (T2 : terminated (remaining s2)) by apply H2.
    destruct (peek_Ok s2 T2) as (l & ts2 & Ets2 & Hpeek2 & Hcons2).
    rewrite (peek_bind _ _ _ Hpeek2). destruct (is_kind left_bracket l) eqn:El.
    + apply is_kind_true in El. eapply (range_outcome s s2 t c l); [exact H2|done|done|done|done|by eexists].
    + destruct (negb (begins_primary (kind l)) && negb (is_kind not_operator l)); [done|].
      by apply (field_outcome s s2 n t c).
  - rewrite (consume_bind _ _ _ _ Hc1). destruct (blank (text t)) eqn:Eb; [done|].
    apply (single_outcome s s1 t); [done|by constructor].
  - unfold at_depth_limit. unfold mbind at 1, P_bind at 1.
    destruct (Z.geb_spec (depth_ s) (maximum_depth_ s)) as [|Hd]; [done|].
    rewrite (consume_bind _ _ _ _ Hc1). apply (group_outcome s s1 n t); try done.
    destruct Hs as (_ & <- & _). done.
  - rewrite (consume_bind _ _ _ _ Hc1). apply (single_outcome s s1 t); [done|by constructor].
Qed.

Lemma sound_all n : sound n.
Proof using Type.
  induction n as [|n IH].
  - split; intros s ? **; exfalso; repeat match goal with
      | H : ready _ 0 _ |- _ => destruct H as (_ & _ & ?); lia end.
  - split; [by apply sound_or_S|by apply sound_or_loop_S|by apply sound_and_S|by apply sound_and_loop_S
      |by apply sound_unary_S|by apply sound_postfix_S|by apply sound_postfix_loop_S
      |by apply sound_operand_S|by apply sound_primary_S].
Qed.
End soundness.

(** ** Completeness *)

Section completeness.
Context (M : Z).

Definition st (d : Z) (ts : list Lexeme) : Parser :=
  {| remaining := ts; maximum_depth_ := M; depth_ := d |}.

(** What may follow an expression of each kind. *)
Definition follows (stop : TokenKind -> bool) (rest : list Lexeme) : Prop :=
  match rest with t :: _ => stop (kind t) = false | [] => False end.

Definition stop_primary (k : TokenKind) : bool := match k with colon => true | _ => false end.
Definition stop_unary (k : TokenKind) : bool := match k with colon | caret => true | _ => false end.
Definition stop_and (k : TokenKind) : bool :=
  match k with colon | caret | and_operator => true | _ => false end.
Definition stop_or (k : TokenKind) : bool :=
  match k with
  | colon | caret | and_operator | or_operator => true
  | _ => begins_primary k
  end.

Lemma follows_weaken stop stop' rest : (forall k, stop' k = true -> stop k = true) ->
  follows stop rest -> follows stop' rest.
Proof using Type.
  intros H. destruct rest as [|t rest]; [done|]. cbn. intros Hf.
  destruct (stop' (kind t)) eqn:E; [|done]. apply H in E. congruence.
Qed.

Lemma and_loop_end n d q rest : (0 < n)%nat -> follows stop_and rest ->
  and_loop n q (st d rest) = Ok (q, st d rest).
Proof using Type.
  intros Hn Hf. destruct n as [|n]; [lia|]. destruct rest as [|t rest]; [done|].
  cbn in Hf. cbn [and_loop]. unfold mbind, P_bind, peek. cbn.
  unfold is_kind. by destruct (kind t).
Qed.

Lemma or_loop_end n d q rest : (0 < n)%nat -> follows stop_or rest ->
  or_loop n q (st d rest) = Ok (q, st d rest).
Proof using Type.
  intros Hn Hf. destruct n as [|n]; [lia|]. destruct rest as [|t rest]; [done|].
  cbn in Hf. cbn [or_loop]. unfold mbind, P_bind, peek. cbn.
  unfold is_kind. by destruct (kind t).
Qed.

Lemma postfix_loop_end n d q rest : (0 < n)%nat -> follows stop_unary rest ->
  postfix_loop n q (st d rest) = Ok (q, st d rest).
Proof using Type.
  intros Hn Hf. destruct n as [|n]; [lia|]. destruct rest as [|t rest]; [done|].
  cbn in Hf. cbn [postfix_loop]. unfold mbind, P_bind, peek. cbn.
  unfold is_kind. by destruct (kind t).
Qed.

Definition enough (n : nat) (ts : list Lexeme) (k : nat) : Prop := (8 * length ts + k <= n)%nat.

Definition complete_loop (f : nat -> P Query) (g : nat -> Query -> P Query)
    (stop : TokenKind -> bool) (k k' : nat) (d : Z) (ts : list Lexeme) (q : Query) : Prop :=
  forall rest n, follows stop rest -> enough n (ts ++ rest) k ->
    exists m, enough m rest k' /\ f n (st d (ts ++ rest)) = g m q (st d rest).

Definition complete_direct (f : nat -> P Query) (stop : TokenKind -> bool) (k : nat)
    (d : Z) (ts : list Lexeme) (q : Query) : Prop :=
  forall rest n, follows stop rest -> enough n (ts ++ rest) k ->
    f n (st d (ts ++ rest)) = Ok (q, st d rest).

Notation complete_or := (complete_loop parse_or or_loop stop_and 5 5).
Notation complete_and := (complete_loop parse_and and_loop stop_unary 4 4).
Notation complete_unary := (complete_direct parse_unary stop_unary 3).
Notation complete_postfix := (complete_loop parse_postfix postfix_loop stop_primary 2 1).
Notation complete_operand := (complete_direct parse_field_operand stop_primary 2).
Notation complete_primary := (complete_direct parse_primary stop_primary 1).

Lemma enough_S n ts k : enough n ts (S k) -> exists n', n = S n' /\ enough n' ts k.
Proof using Type. unfold enough. destruct n as [|n]; [lia|]. intros. exists n. split; [done|lia]. Qed.

Lemma enough_cons n t ts k : enough n (t :: ts) k -> enough n ts (k + 8).
Proof using Type. unfold enough. cbn. lia. Qed.

Lemma enough_less n ts k k' : enough n ts k -> (k' <= k)%nat -> enough n ts k'.
Proof using Type. unfold enough. lia. Qed.

(** [parse_and] up to what may follow it. *)
Lemma complete_and_end d ts q rest n : complete_and d ts q -> follows stop_and rest ->
  enough n (ts ++ rest) 4 -> parse_and n (st d (ts ++ rest)) = Ok (q, st d rest).
Proof using Type.
  intros Hc Hf Hn. destruct (Hc rest n) as (m & Hm & ->); [|done|].
  - apply (follows_weaken stop_and); [by intros []|done].
  - apply and_loop_end; [unfold enough in Hm; lia|done].
Qed.

(** A parser followed by its loop takes the fuel of one call. *)
Lemma enough_after n ts rest k k' : ts <> [] -> enough n (ts ++ rest) k -> (k' <= k + 8)%nat ->
  enough n rest k'.
Proof using Type. unfold enough. destruct ts; [done|]. cbn. rewrite length_app. lia. Qed.

Lemma case_or_and d ts q : g_and M d ts q -> complete_and d ts q -> complete_or d ts q.
Proof using Type.
  intros Hg H rest n Hf Hn. apply enough_S in Hn as (n' & -> & Hn). exists n'. split.
  - eapply (enough_after _ ts); [|exact Hn|lia]. intros ->. by apply grammar_nonempty in Hg.
  - cbn [parse_or]. unfold mbind, P_bind. by rewrite (complete_and_end _ _ _ _ _ H Hf Hn).
Qed.

Lemma case_or_or d ts t us l r : kind t = or_operator -> complete_or d ts l -> complete_and d us r ->
  complete_or d (ts ++ t :: us) (OrQuery (query_position l) l r).
Proof using Type.
  intros Hk Hl Hr rest n Hf Hn. rewrite <- app_assoc in *. cbn [app] in *.
  destruct (Hl (t :: us ++ rest) n) as (m & Hm & ->); [by cbn; rewrite Hk|done|].
  apply enough_S in Hm as (m' & -> & Hm). exists m'. apply enough_cons in Hm. split.
  - eapply enough_less; [|exact (Nat.le_refl _)]. unfold enough in *. rewrite length_app in Hm. lia.
  - cbn [or_loop]. unfold mbind, P_bind, peek. cbn. rewrite (proj2 (is_kind_true _ _) Hk). cbn.
    change {| remaining := us ++ rest; maximum_depth_ := M; depth_ := d |} with (st d (us ++ rest)).
    rewrite (complete_and_end _ _ _ _ _ Hr Hf); [done|]. eapply enough_less; [exact Hm|lia].
Qed.

Lemma case_or_implicit d ts t us l r : begins_primary (kind t) = true ->
  complete_or d ts l -> complete_and d (t :: us) r ->
  complete_or d (ts ++ t :: us) (OrQuery (query_position l) l r).
Proof using Type.
  intros Hk Hl Hr rest n Hf Hn. rewrite <- app_assoc in *. cbn [app] in *.
  destruct (Hl (t :: us ++ rest) n) as (m & Hm & ->); [by cbn; destruct (kind t)|done|].
  apply enough_S in Hm as (m' & -> & Hm). exists m'. split.
  - apply enough_cons in Hm. unfold enough in *. rewrite length_app in Hm. lia.
  - cbn [or_loop]. unfold mbind, P_bind, peek. cbn. unfold is_kind. rewrite Hk, orb_true_r.
    rewrite bool_decide_eq_false_2 by (intros E; by rewrite E in Hk). cbn.
    change {| remaining := t :: us ++ rest; maximum_depth_ := M; depth_ := d |}
      with (st d ((t :: us) ++ rest)).
    rewrite (complete_and_end _ _ _ _ _ Hr Hf); [done|]. done.
Qed.

Lemma case_and_unary d ts q : g_unary M d ts q -> complete_unary d ts q -> complete_and d ts q.
Proof using Type.
  intros Hg H rest n Hf Hn. apply enough_S in Hn as (n' & -> & Hn). exists n'. split.
  - eapply (enough_after _ ts); [|exact Hn|lia]. intros ->. by apply grammar_nonempty in Hg.
  - cbn [parse_and]. unfold mbind, P_bind. by rewrite (H _ _ Hf Hn).
Qed.

Lemma case_and_and d ts t us l r : kind t = and_operator -> complete_and d ts l ->
  complete_unary d us r -> complete_and d (ts ++ t :: us) (AndQuery (query_position l) l r).
Proof using Type.
  intros Hk Hl Hr rest n Hf Hn. rewrite <- app_assoc in *. cbn [app] in *.
  destruct (Hl (t :: us ++ rest) n) as (m & Hm & ->); [by cbn; rewrite Hk|done|].
  apply enough_S in Hm as (m' & -> & Hm). exists m'. apply enough_cons in Hm. split.
  - unfold enough in *. rewrite length_app in Hm. lia.
  - cbn [and_loop]. unfold mbind, P_bind, peek. cbn. rewrite (proj2 (is_kind_true _ _) Hk). cbn.
    change {| remaining := us ++ rest; maximum_depth_ := M; depth_ := d |} with (st d (us ++ rest)).
    rewrite (Hr rest m' Hf); [done|]. eapply enough_less; [exact Hm|lia].
Qed.

Lemma case_unary_not d t ts q : kind t = not_operator -> complete_unary d ts q ->
  complete_unary d (t :: ts) (NotQuery (lexeme_position t) q).
Proof using Type.
  intros Hk H rest n Hf Hn. apply enough_S in Hn as (n' & -> & Hn). cbn [app parse_unary].
  unfold mbind, P_bind, peek. cbn. rewrite (proj2 (is_kind_true _ _) Hk). cbn.
  change {| remaining := ts ++ rest; maximum_depth_ := M; depth_ := d |} with (st d (ts ++ rest)).
  rewrite (H rest n' Hf); [done|]. apply enough_cons in Hn. eapply enough_less; [exact Hn|lia].
Qed.

Lemma begins_app ts rest (P : TokenKind -> Prop) :
  (exists t ts', ts = t :: ts' /\ P (kind t)) -> exists t ts', ts ++ rest = t :: ts' /\ P (kind t).
Proof using Type. intros (t & ts' & -> & H). by exists t, (ts' ++ rest). Qed.

Lemma case_unary_postfix d ts q :
  (exists t ts', ts = t :: ts' /\ begins_primary (kind t) = true) ->
  complete_postfix d ts q -> complete_unary d ts q.
Proof using Type.
  intros Hb H rest n Hf Hn. apply enough_S in Hn as (n' & -> & Hn).
  destruct (H rest n') as (m & Hm & E);
    [apply (follows_weaken stop_unary); [by intros []|done]|done|].
  destruct (begins_app ts rest (fun k => begins_primary k = true) Hb) as (t & ts' & Ets & Hk).
  cbn [parse_unary]. unfold mbind, P_bind, peek. rewrite Ets in *. cbn [st remaining].
  unfold is_kind. rewrite bool_decide_eq_false_2 by (intros E'; by rewrite E' in Hk).
  change {| remaining := t :: ts'; maximum_depth_ := M; depth_ := d |} with (st d (t :: ts')).
  rewrite E. apply postfix_loop_end; [unfold enough in Hm; lia|done].
Qed.

Lemma case_postfix_primary d ts q : g_primary M d ts q -> complete_primary d ts q ->
  complete_postfix d ts q.
Proof using Type.
  intros Hg H rest n Hf Hn. apply enough_S in Hn as (n' & -> & Hn). exists n'. split.
  - eapply (enough_after _ ts); [|exact Hn|lia]. intros ->. by apply grammar_nonempty in Hg.
  - cbn [parse_postfix]. unfold mbind, P_bind. by rewrite (H _ _ Hf Hn).
Qed.

Lemma case_postfix_boost d ts t b q boost : kind t = caret -> kind b = word ->
  boost_value b = Some boost -> complete_postfix d ts q ->
  complete_postfix d (ts ++ [t; b]) (BoostQuery (query_position q) q boost).
Proof using Type.
  intros Ht Hb Hv H rest n Hf Hn. rewrite <- app_assoc in *. cbn [app] in *.
  destruct (H (t :: b :: rest) n) as (m & Hm & ->); [by cbn; rewrite Ht|done|].
  apply enough_S in Hm as (m' & -> & Hm). exists m'. split.
  - unfold enough in *. cbn [length] in Hm. lia.
  - cbn [postfix_loop]. unfold mbind, P_bind, peek. cbn. rewrite (proj2 (is_kind_true _ _) Ht). cbn.
    rewrite (proj2 (is_kind_true _ _) Hb). cbn. by rewrite Hv.
Qed.

Lemma case_operand_not d t ts q : kind t = not_operator -> complete_operand d ts q ->
  complete_operand d (t :: ts) (NotQuery (lexeme_position t) q).
Proof using Type.
  intros Hk H rest n Hf Hn. apply enough_S in Hn as (n' & -> & Hn). cbn [app parse_field_operand].
  unfold mbind, P_bind, peek. cbn. rewrite (proj2 (is_kind_true _ _) Hk). cbn.
  change {| remaining := ts ++ rest; maximum_depth_ := M; depth_ := d |} with (st d (ts ++ rest)).
  rewrite (H rest n' Hf); [done|]. apply enough_cons in Hn. eapply enough_less; [exact Hn|lia].
Qed.

Lemma case_operand_primary d ts q :
  (exists t ts', ts = t :: ts' /\ begins_primary (kind t) = true) ->
  complete_primary d ts q -> complete_operand d ts q.
Proof using Type.
  intros Hb H rest n Hf Hn. apply enough_S in Hn as (n' & -> & Hn).
  specialize (H rest n' Hf Hn). destruct (begins_app ts rest (fun k => begins_primary k = true) Hb) as (t & ts' & Ets & Hk).
  cbn [parse_field_operand]. unfold mbind, P_bind, peek. rewrite Ets in *. cbn [st remaining].
  unfold is_kind. rewrite bool_decide_eq_false_2 by (intros E'; by rewrite E' in Hk). exact H.
Qed.

Lemma case_term d t : kind t = word ->
  complete_primary d [t] (TermQuery (lexeme_position t) (text t)).
Proof using Type.
  intros Hk rest n Hf Hn. apply enough_S in Hn as (n' & -> & Hn). cbn [app parse_primary].
  unfold mbind, P_bind, peek, consume. cbn. rewrite Hk. cbn.
  destruct rest as [|c rest]; [done|]. cbn in *. unfold is_kind.
  by destruct (kind c).
Qed.

Lemma case_range d f c l lo to hi r :
  kind f = word -> kind c = colon -> kind l = left_bracket -> is_bound lo ->
  kind to = to_operator -> is_bound hi -> kind r = right_bracket ->
  complete_primary d [f; c; l; lo; to; hi; r]
    (RangeFilter (lexeme_position f) (text f) (text lo) (text hi) true true).
Proof using Type.
  intros Hf Hc Hl Hlo Hto Hhi Hr rest n _ Hn. apply enough_S in Hn as (n' & -> & Hn).
  cbn [app parse_primary]. unfold mbind, P_bind, peek, consume. cbn. rewrite Hf. cbn.
  rewrite (proj2 (is_kind_true _ _) Hc). cbn. rewrite (proj2 (is_kind_true _ _) Hl). cbn.
  assert (Hb : forall t, is_bound t -> negb (is_kind word t) && negb (is_kind star t) = false).
  { intros t [Ht|Ht]; rewrite (proj2 (is_kind_true _ _) Ht); [done|]. by rewrite andb_false_r. }
  unfold parse_range, consume_range_bound, mbind, P_bind, peek, consume. cbn.
  rewrite (Hb lo Hlo). cbn. rewrite (proj2 (is_kind_true _ _) Hto). cbn.
  rewrite (Hb hi Hhi). cbn. by rewrite (proj2 (is_kind_true _ _) Hr).
Qed.

Lemma case_field d f c ts q : kind f = word -> kind c = colon ->
  (exists t ts', ts = t :: ts' /\ begins_primary (kind t) || is_kind not_operator t = true) ->
  complete_operand d ts q ->
  complete_primary d (f :: c :: ts) (FieldQuery (lexeme_position f) (text f) q).
Proof using Type.
  intros Hf Hc (t & ts' & -> & Hb) H rest n Hfol Hn. apply enough_S in Hn as (n' & -> & Hn).
  cbn [app parse_primary]. unfold mbind, P_bind, peek, consume. cbn. rewrite Hf. cbn.
  rewrite (proj2 (is_kind_true _ _) Hc). cbn.
  assert (is_kind left_bracket t = false) as -> by (unfold is_kind in *; by destruct (kind t)).
  rewrite <- negb_orb, Hb. cbn.
  change {| remaining := t :: ts' ++ rest; maximum_depth_ := M; depth_ := d |}
    with (st d ((t :: ts') ++ rest)).
  rewrite (H rest n' Hfol); [done|]. unfold enough in *. cbn in *. lia.
Qed.

Lemma case_phrase d t : kind t = phrase -> blank (text t) = false ->
  complete_primary d [t] (PhraseQuery (lexeme_position t) (text t)).
Proof using Type.
  intros Hk Hb rest n Hf Hn. apply enough_S in Hn as (n' & -> & Hn). cbn [app parse_primary].
  unfold mbind, P_bind, peek, consume. cbn. rewrite Hk. cbn. by rewrite Hb.
Qed.

Lemma case_star d t : kind t = star -> complete_primary d [t] (MatchAllQuery (lexeme_position t)).
Proof using Type.
  intros Hk rest n Hf Hn. apply enough_S in Hn as (n' & -> & Hn). cbn [app parse_primary].
  unfold mbind, P_bind, peek, consume. cbn. by rewrite Hk.
Qed.

Lemma case_group d l ts r q : kind l = left_parenthesis -> d < M -> complete_or (d + 1) ts q ->
  kind r = right_parenthesis -> complete_primary d (l :: ts ++ [r]) q.
Proof using Type.
  intros Hl Hd H Hr rest n Hf Hn. apply enough_S in Hn as (n' & -> & Hn). cbn [app] in *.
  rewrite <- app_assoc in *. cbn [app] in *. apply enough_cons in Hn.
  destruct (H (r :: rest) n') as (m & Hm & E); [by cbn; rewrite Hr|eapply enough_less; [exact Hn|lia]|].
  rewrite or_loop_end in E; [|unfold enough in Hm; lia|by cbn; rewrite Hr].
  cbn [parse_primary]. unfold mbind, P_bind, peek, at_depth_limit. cbn. rewrite Hl.
  match goal with |- context [?x >=? ?y] =>
    destruct (Z.geb_spec x y) as [Hge|_]; [cbn in Hge; lia|] end.
  unfold add_depth, consume. cbn.
  change {| remaining := ts ++ r :: rest; maximum_depth_ := M; depth_ := d + 1 |}
    with (st (d + 1) (ts ++ r :: rest)). rewrite E. cbn. rewrite (proj2 (is_kind_true _ _) Hr). cbn.
  unfold mret, P_ret, st. do 3 f_equal. lia.
Qed.

(** How primaries and operands begin. *)
Lemma grammar_begins :
  (forall d ts q, g_or M d ts q -> True) /\ (forall d ts q, g_and M d ts q -> True) /\
  (forall d ts q, g_unary M d ts q -> True) /\
  (forall d ts q, g_postfix M d ts q -> exists t ts', ts = t :: ts' /\ begins_primary (kind t) = true) /\
  (forall d ts q, g_operand M d ts q ->
     exists t ts', ts = t :: ts' /\ begins_primary (kind t) || is_kind not_operator t = true) /\
  (forall d ts q, g_primary M d ts q -> exists t ts', ts = t :: ts' /\ begins_primary (kind t) = true).
Proof using Type.
  apply (grammar_ind M (fun _ _ _ _ => True) (fun _ _ _ _ => True) (fun _ _ _ _ => True)
    (fun _ ts _ _ => exists t ts', ts = t :: ts' /\ begins_primary (kind t) = true)
    (fun _ ts _ _ => exists t ts', ts = t :: ts' /\ begins_primary (kind t) || is_kind not_operator t = true)
    (fun _ ts _ _ => exists t ts', ts = t :: ts' /\ begins_primary (kind t) = true)); intros; try done.
  - by apply (begins_app _ _ (fun k => begins_primary k = true)).
  - eexists _, _. split; [done|]. by rewrite (proj2 (is_kind_true _ _)), orb_true_r.
  - match goal with H : exists _ _, _ |- _ => destruct H as (t & ts' & -> & H) end.
    exists t, ts'. by rewrite H.
  - by eexists _, _; split; [|rewrite e].
  - by eexists _, _; split; [|rewrite e].
  - by eexists _, _; split; [|rewrite e].
  - by eexists _, _; split; [|rewrite e].
  - by eexists _, _; split; [|rewrite e].
  - by eexists _, _; split; [|rewrite e].
Qed.

Lemma grammar_complete :
  (forall d ts q, g_or M d ts q -> complete_or d ts q) /\
  (forall d ts q, g_and M d ts q -> complete_and d ts q) /\
  (forall d ts q, g_unary M d ts q -> complete_unary d ts q) /\
  (forall d ts q, g_postfix M d ts q -> complete_postfix d ts q) /\
  (forall d ts q, g_operand M d ts q -> complete_operand d ts q) /\
  (forall d ts q, g_primary M d ts q -> complete_primary d ts q).
Proof using Type.
  destruct grammar_begins as (_ & _ & _ & Hpf & Hop & Hpr).
  apply (grammar_ind M (fun d ts q _ => complete_or d ts q) (fun d ts q _ => complete_and d ts q)
    (fun d ts q _ => complete_unary d ts q) (fun d ts q _ => complete_postfix d ts q)
    (fun d ts q _ => complete_operand d ts q) (fun d ts q _ => complete_primary d ts q));
    intros; eauto using case_or_and, case_or_or, case_or_implicit, case_and_unary, case_and_and,
      case_unary_not, case_postfix_primary, case_postfix_boost, case_operand_not,
      case_term, case_range, case_phrase, case_star, case_group.
  - apply case_unary_postfix; [by eapply Hpf|done].
  - apply case_operand_primary; [by eapply Hpr|done].
  - apply case_field; [done|done|by eapply Hop|done].
Qed.
End completeness.

(** ** From the lexer to the parser *)

Lemma classify_not_end w : classify_word w <> end_token.
Proof. unfold classify_word. repeat (destruct (ascii_equal_ignore_case _ _); [done|]). done. Qed.

Lemma punctuation_not_end c k : punctuation c = Some k -> k <> end_token.
Proof. unfold punctuation. intros H. repeat (case_bool_decide; [by injection H as <-|]). done. Qed.

Lemma lex_loop_terminated limits n : forall count cursor rest ts,
  lex_loop limits n count cursor rest = Ok ts -> terminated ts.
Proof.
  assert (Hcons : forall t ts, kind t <> end_token -> terminated ts -> terminated (t :: ts)).
  { intros t ts Ht (l & e & -> & He & Hl). exists (t :: l), e. split_and!; [done..|by constructor]. }
  assert (Hend : forall p, terminated [{| kind := end_token; text := ""; lexeme_position := p |}]).
  { intros p. exists [], {| kind := end_token; text := ""; lexeme_position := p |}.
    split_and!; [done..|constructor]. }
  induction n as [|n IH]; intros count cursor rest ts; [by intros [= <-]|].
  destruct rest as [|c rest]; cbn [lex_loop]; [by intros [= <-]|].
  destruct (is_space c); [apply IH|].
  destruct (punctuation c) as [k|] eqn:Ep.
  { intros (_ & _ & (tokens & Hlex & [= <-])%bind_Ok)%bind_Ok.
    apply Hcons; [by eapply punctuation_not_end|by eapply IH]. }
  case_bool_decide.
  { intros ([[content cursor'] after] & _ & (_ & _ & (tokens & Hlex & [= <-])%bind_Ok)%bind_Ok)%bind_Ok.
    apply Hcons; [done|by eapply IH]. }
  destruct (span _ _) as [w after]. destruct (str_eqb w ""); [done|].
  intros (_ & _ & (tokens & Hlex & [= <-])%bind_Ok)%bind_Ok.
  apply Hcons; [apply classify_not_end|by eapply IH].
Qed.

Lemma lex_terminated input limits ts : lex input limits = Ok ts -> terminated ts.
Proof.
  unfold lex. destruct (_ || _); [done|]. destruct (_ >? _); [done|]. apply lex_loop_terminated.
Qed.

Definition start (tokens : list Lexeme) (limits : QueryLimits) : Parser :=
  {| remaining := tokens; maximum_depth_ := maximum_nesting_depth limits; depth_ := 0 |}.

Lemma parse_or_outcome tokens limits : terminated tokens ->
  outcome (start tokens limits) (g_or (maximum_nesting_depth limits) 0)
    (parse_or (enough_fuel tokens) (start tokens limits)).
Proof.
  intros T. apply (sound_or (maximum_nesting_depth limits) _ (sound_all _ (enough_fuel tokens))
    (start tokens limits)).
  split_and!; [done|done|]. unfold enough_fuel, len, start. cbn. lia.
Qed.

Lemma terminated_end ts e ts' : terminated (ts ++ e :: ts') -> kind e = end_token -> ts' = [].
Proof.
  intros (l & e' & E & He' & Hl) He. destruct (decide (ts' = [])) as [|Hne]; [done|].
  destruct (exists_last Hne) as (u & x & ->).
  change (ts ++ e :: u ++ [x]) with (ts ++ (e :: u) ++ [x]) in E.
  rewrite app_assoc in E. apply app_inj_tail in E as [<- _].
  apply Forall_app in Hl as [_ Hl]. by apply Forall_cons in Hl as [? _].
Qed.

(** ** The grammar and the document *)

Section document.
Context (M : Z).

(** Boosts at the end of an expression can be left to the field before it. *)
Inductive boosts : list Lexeme -> Prop :=
| no_boosts : boosts []
| one_more_boost bs t b : boosts bs -> kind t = caret -> kind b = word -> is_Some (boost_value b) -> boosts (bs ++ [t; b]).

Definition boosted (G : Z -> list Lexeme -> Query -> Prop) (d : Z) (ts : list Lexeme) : Prop :=
  exists us bs q, ts = us ++ bs /\ G d us q /\ boosts bs.

Lemma boosted_postfix d ts : boosted (g_primary M) d ts -> exists q, g_postfix M d ts q.
Proof using Type.
  intros (us & bs & q & -> & Hq & Hb). induction Hb as [|bs t b _ [q' IH] Ht Hb [boost Ev]].
  - exists q. rewrite app_nil_r. by constructor.
  - eexists. rewrite app_assoc. by eapply gpostfix_boost.
Qed.

Lemma boosted_boost G d ts t b : boosted G d ts -> kind t = caret -> kind b = word -> is_Some (boost_value b) ->
  boosted G d (ts ++ [t; b]).
Proof using Type.
  intros (us & bs & q & -> & Hq & Hb) Ht Hw Ev. exists us, (bs ++ [t; b]), q.
  split_and!; [by rewrite app_assoc|done|by constructor].
Qed.

Lemma boosted_none (G : Z -> list Lexeme -> Query -> Prop) d ts q : G d ts q -> boosted G d ts.
Proof using Type. intros H. exists ts, [], q. split_and!; [by rewrite app_nil_r|done|constructor]. Qed.

Lemma and_begins d ts q : g_and M d ts q ->
  exists t us, ts = t :: us /\ (begins_primary (kind t) = true \/ kind t = not_operator).
Proof using Type.
  assert (Hunary : forall d ts q, g_unary M d ts q ->
    exists t us, ts = t :: us /\ (begins_primary (kind t) = true \/ kind t = not_operator)).
  { intros ? ? ? [? t us ? Ht _|? us ? Hp]; [exists t, us; split; [done|by right]|].
    destruct (grammar_begins M) as (_ & _ & _ & Hpf & _). destruct (Hpf _ _ _ Hp) as (t & ts' & -> & Ht).
    exists t, ts'. split; [done|by left]. }
  induction 1 as [|? ts t us l r _ (u & vs & -> & Hu)]; [by eapply Hunary|]. by exists u, (vs ++ t :: us).
Qed.

(** What the document derives, but for an implicit OR before NOT, has a tree. *)
Lemma documented_tree :
  (forall d ts, d_or M but_not d ts -> exists q, g_or M d ts q) /\
  (forall d ts, d_and M but_not d ts -> exists q, g_and M d ts q) /\
  (forall d ts, d_unary M but_not d ts -> (exists q, g_unary M d ts q) /\ boosted (g_operand M) d ts) /\
  (forall d ts, d_postfix M but_not d ts -> boosted (g_primary M) d ts) /\
  (forall d ts, d_primary M but_not d ts -> boosted (g_primary M) d ts).
Proof using Type.
  apply (documented_ind M but_not
    (fun d ts _ => exists q, g_or M d ts q) (fun d ts _ => exists q, g_and M d ts q)
    (fun d ts _ => (exists q, g_unary M d ts q) /\ boosted (g_operand M) d ts)
    (fun d ts _ => boosted (g_primary M) d ts) (fun d ts _ => boosted (g_primary M) d ts)).
  - intros d ts _ [q Hq]. exists q. by constructor.
  - intros d ts t us _ [l Hl] Ht _ [r Hr]. eexists. by eapply gor_or.
  - intros d ts t us _ [l Hl] Ht _ [r Hr]. eexists. apply gor_implicit; [exact Hl| |exact Hr].
    apply and_begins in Hr as (u & vs & [= <- <-] & [E|E]); [done|]. by rewrite E in Ht.
  - intros d ts _ [[q Hq] _]. exists q. by constructor.
  - intros d ts t us _ [l Hl] Ht _ [[r Hr] _]. eexists. by eapply gand_and.
  - intros d t ts Ht _ [[q Hq] (us & bs & q' & -> & Hq' & Hb)]. split; [eexists; by eapply gunary_not|].
    exists (t :: us), bs. eexists. split_and!; [done|by eapply goperand_not|done].
  - intros d ts _ Hts. split.
    + destruct (boosted_postfix _ _ Hts) as [q Hq]. exists q. by constructor.
    + destruct Hts as (us & bs & q & -> & Hq & Hb). exists us, bs, q. split_and!; [done|by constructor|done].
  - by intros d ts _ Hts.
  - intros d ts t b _ Hts Ht Hb Hv. by apply boosted_boost.
  - intros d t Ht. eapply boosted_none. by apply gprimary_term.
  - intros d t Ht Hb. eapply boosted_none. by apply gprimary_phrase.
  - intros d t Ht. eapply boosted_none. by apply gprimary_star.
  - intros d l ts r Hl Hd _ [q Hq] Hr. eapply boosted_none. by eapply gprimary_group.
  - intros d f c ts Hf Hc _ [_ (us & bs & q & -> & Hq & Hb)]. exists (f :: c :: us), bs. eexists.
    split_and!; [done|by eapply gprimary_field|done].
  - intros d f c l lo to hi r Hf Hc Hl Hlo Hto Hhi Hr. eapply boosted_none. by apply gprimary_range.
Qed.

(** A tree is of a text that the document derives. *)
Lemma tree_documented :
  (forall d ts q, g_or M d ts q -> d_or M but_not d ts) /\
  (forall d ts q, g_and M d ts q -> d_and M but_not d ts) /\
  (forall d ts q, g_unary M d ts q -> d_unary M but_not d ts) /\
  (forall d ts q, g_postfix M d ts q -> d_postfix M but_not d ts) /\
  (forall d ts q, g_operand M d ts q -> d_unary M but_not d ts) /\
  (forall d ts q, g_primary M d ts q -> d_primary M but_not d ts).
Proof using Type.
  apply (grammar_ind M (fun d ts q _ => d_or M but_not d ts) (fun d ts q _ => d_and M but_not d ts)
    (fun d ts q _ => d_unary M but_not d ts) (fun d ts q _ => d_postfix M but_not d ts)
    (fun d ts q _ => d_unary M but_not d ts) (fun d ts q _ => d_primary M but_not d ts));
    intros; try by econstructor.
  - apply dor_implicit; [done| |done]. by destruct (kind t).
  - by apply dunary_postfix, dpostfix_primary.
Qed.

Lemma documented_or d ts : (exists q, g_or M d ts q) <-> d_or M but_not d ts.
Proof using Type.
  split; [intros [q Hq]|]; [by eapply (proj1 tree_documented)|apply (proj1 documented_tree)].
Qed.
End document.

(** ** Properties *)

Lemma parse_derives input limits tokens q :
  lex input limits = Ok tokens ->
  parse input limits = Ok q <->
  exists ts e, tokens = ts ++ [e] /\ kind e = end_token /\
    g_or (maximum_nesting_depth limits) 0 ts q.
Proof.
  intros Hlex. unfold parse. rewrite Hlex. apply lex_terminated in Hlex as T.
  change {| remaining := tokens; maximum_depth_ := maximum_nesting_depth limits; depth_ := 0 |}
    with (start tokens limits).
  pose proof (parse_or_outcome tokens limits T) as Hout.
  destruct (peek_Ok (start tokens limits) T) as (t & ts & Et & Hpeek & _). cbn in Et. split.
  - unfold run. rewrite (peek_bind _ _ _ Hpeek). destruct (is_kind end_token t); [done|].
    unfold mbind, P_bind. destruct (parse_or _ _) as [[q' s']|]; [|done].
    destruct Hout as (us & (E & T' & _) & Hq). cbn in E.
    destruct (peek_Ok s' T') as (e & ts' & Ets' & Hpeek' & _). rewrite Hpeek'.
    destruct (is_kind end_token e) eqn:Ee; [|done]. intros [= <-]. apply is_kind_true in Ee.
    exists us, e. split_and!; [|done|done]. rewrite E, Ets' in *.
    by apply terminated_end in T as ->.
  - intros (us & e & -> & He & Hq).
    destruct (grammar_complete (maximum_nesting_depth limits)) as (Hc & _).
    destruct (Hc _ _ _ Hq [e] (enough_fuel (us ++ [e]))) as (m & Hm & E).
    { cbn. by rewrite He. }
    { unfold enough, enough_fuel. lia. }
    rewrite or_loop_end in E; [|unfold enough in Hm; lia|by cbn; rewrite He].
    unfold run. rewrite (peek_bind _ _ _ Hpeek).
    assert (is_kind end_token t = false) as ->.
    { apply is_kind_false. intros Ek. destruct us as [|u us]; [by apply grammar_nonempty in Hq|].
      injection Et as -> _. destruct T as (l & e' & El & He' & Hl).
      change ((t :: us) ++ [e] = l ++ [e']) in El. apply app_inj_tail in El as [<- _].
      by apply Forall_cons in Hl as [? _]. }
    unfold mbind, P_bind.
    change (start (us ++ [e]) limits) with (st (maximum_nesting_depth limits) 0 (us ++ [e])).
    rewrite E. unfold peek. cbn. by rewrite (proj2 (is_kind_true _ _) He).
Qed.

(** C6.  [parse] against two grammars.  It returns a query exactly when the
    grammar of trees derives it from all the lexemes before the end token, with
    parentheses nested at most [maximum_nesting_depth] deep: so precedence,
    associativity, implicit OR, boosts, field operands, ranges and the recorded
    positions are those of that grammar, and no input has two readings.  And
    it returns some query exactly when the grammar of docs/query_language.md
    derives these lexemes with no OR left out before NOT.  (The document does
    let OR be left out there: [juxtaposed_negation_refused].) *)
Theorem parse_grammar input limits tokens :
  lex input limits = Ok tokens ->
  (forall q, parse input limits = Ok q <->
    exists ts e, tokens = ts ++ [e] /\ kind e = end_token /\ g_or (maximum_nesting_depth limits) 0 ts q) /\
  ((exists q, parse input limits = Ok q) <->
    exists ts e, tokens = ts ++ [e] /\ kind e = end_token /\ d_or (maximum_nesting_depth limits) but_not 0 ts).
Proof.
  intros Hlex. pose proof (fun q => parse_derives input limits tokens q Hlex) as Hq. split; [exact Hq|].
  setoid_rewrite <- documented_or. setoid_rewrite Hq. naive_solver.
Qed.

(** A query that the documented grammar derives, with the OR between its two
    parts left out, and that [parse] refuses. *)
Definition juxtaposed : string := "gpu NOT cpu".

Theorem juxtaposed_negation_refused :
  (exists ts e, lex juxtaposed default_limits = Ok (ts ++ [e]) /\ kind e = end_token /\
     d_or (maximum_nesting_depth default_limits) anywhere 0 ts) /\
  match parse juxtaposed default_limits with
  | Err (parse_error e) => parse_code e = unexpected_token /\ parse_position e = 4
  | _ => False
  end.
Proof.
  split; [|vm_compute; auto].
  destruct (lex juxtaposed default_limits) as [tokens|e] eqn:E; [|by vm_compute in E].
  vm_compute in E. injection E as <-. eexists [_; _; _], _. split; [done|]. split; [done|].
  eapply (dor_implicit _ _ _ [_]); [by apply dor_and, dand_unary, dunary_postfix, dpostfix_primary, dprimary_term|done|].
  apply dand_unary, dunary_not; [done|]. by apply dunary_postfix, dpostfix_primary, dprimary_term.
Qed.

Lemma parse_grammar_witness :
  exists ts e, lex "a AND b c" default_limits = Ok (ts ++ [e]) /\
    g_or 128 0 ts (OrQuery 0 (AndQuery 0 (TermQuery 0 "a") (TermQuery 6 "b")) (TermQuery 8 "c")).
Proof.
  destruct (lex "a AND b c" default_limits) as [tokens|err] eqn:E; [|by vm_compute in E].
  destruct (proj1 (parse_grammar "a AND b c" default_limits tokens E)
    (OrQuery 0 (AndQuery 0 (TermQuery 0 "a") (TermQuery 6 "b")) (TermQuery 8 "c"))) as [H _].
  destruct H as (ts & e & -> & _ & H); [by vm_compute|].
  exists ts, e. split; [done|exact H].
Defined.

(** C36.  [parse] always comes to an end with a query or a parse error: the
    recursion and its loops take at most [enough_fuel] calls, and the parser
    never reads past its last token. *)
Theorem parse_total input limits :
  match parse input limits with
  | Ok _ | Err (parse_error _) => True
  | Err out_of_bounds | Err out_of_fuel => False
  end.
Proof.
  unfold parse. destruct (lex input limits) as [tokens|e] eqn:Hlex; [|done].
  apply lex_terminated in Hlex as T.
  change {| remaining := tokens; maximum_depth_ := maximum_nesting_depth limits; depth_ := 0 |}
    with (start tokens limits).
  pose proof (parse_or_outcome tokens limits T) as Hout.
  destruct (peek_Ok (start tokens limits) T) as (t & ts & Et & Hpeek & _).
  unfold run. rewrite (peek_bind _ _ _ Hpeek). destruct (is_kind end_token t); [done|].
  unfold mbind, P_bind. destruct (parse_or _ _) as [[q' s']|[e| |]]; try done.
  destruct Hout as (us & (E & T' & _) & Hq).
  destruct (peek_Ok s' T') as (e & ts' & Ets' & Hpeek' & _). rewrite Hpeek'.
  by destruct (is_kind end_token e).
Qed.
