(* ===== verification/Plan.v ===== *)
(** * Query plans

    include/dse/query/plan.hpp and [canonical] of src/query/planner.cpp.  A
    plan node carries its estimate of matching documents. *)

From S2P Require Import Prelude Text Doubles Numbers Analysis.
From Stdlib Require Import SpecFloat.

Inductive Plan :=
| PlannedTerm (estimated_matches : Z) (field term : string) (boost : double)
| PlannedPhrase (estimated_matches : Z) (field : string) (tokens : list Token) (boost : double)
| PlannedAnd (estimated_matches : Z) (children : list Plan)
| PlannedOr (estimated_matches : Z) (children : list Plan)
| PlannedNot (estimated_matches : Z) (operand : Plan)
| PlannedRange (estimated_matches : Z) (field lower_bound upper_bound : string)
    (include_lower include_upper : bool)
| PlannedMatchAll (estimated_matches : Z).

Definition estimated (p : Plan) : Z :=
  match p with
  | PlannedTerm e _ _ _ | PlannedPhrase e _ _ _ | PlannedAnd e _ | PlannedOr e _
  | PlannedNot e _ | PlannedRange e _ _ _ _ _ | PlannedMatchAll e => e
  end.

(** Induction through the children of AND and OR. *)
Section plan_induction.
Context (P : Plan -> Prop).
Hypothesis Hterm : forall e f t b, P (PlannedTerm e f t b).
Hypothesis Hphrase : forall e f ts b, P (PlannedPhrase e f ts b).
Hypothesis Hand : forall e cs, Forall P cs -> P (PlannedAnd e cs).
Hypothesis Hor : forall e cs, Forall P cs -> P (PlannedOr e cs).
Hypothesis Hnot : forall e p, P p -> P (PlannedNot e p).
Hypothesis Hrange : forall e f lo hi il iu, P (PlannedRange e f lo hi il iu).
Hypothesis Hall : forall e, P (PlannedMatchAll e).

Fixpoint plan_induction (p : Plan) : P p :=
  let fix go (cs : list Plan) : Forall P cs :=
    match cs with
    | [] => Forall_nil_2 P
    | c :: cs' => Forall_cons_2 P c cs' (plan_induction c) (go cs')
    end in
  match p with
  | PlannedTerm e f t b => Hterm e f t b
  | PlannedPhrase e f ts b => Hphrase e f ts b
  | PlannedAnd e cs => Hand e cs (go cs)
  | PlannedOr e cs => Hor e cs (go cs)
  | PlannedNot e q => Hnot e q (plan_induction q)
  | PlannedRange e f lo hi il iu => Hrange e f lo hi il iu
  | PlannedMatchAll e => Hall e
  end.
End plan_induction.

(** ** Canonical text *)

Definition atom (value : string) : string := to_string_u (zstrlen value) +:+ ":" +:+ value.

Definition canonical_token (token : Token) : string :=
  "," +:+ atom (term token) +:+ "@" +:+ to_string_u (position token).

Definition str_concat (l : list string) : string := foldr String.append "" l.

Fixpoint canonical (p : Plan) : string :=
  match p with
  | PlannedTerm _ field term boost =>
      "T(" +:+ atom field +:+ "," +:+ atom term +:+ "," +:+ print_double boost +:+ ")"
  | PlannedPhrase _ field tokens boost =>
      "P(" +:+ atom field +:+ "," +:+ print_double boost +:+
      str_concat (canonical_token <$> tokens) +:+ ")"
  | PlannedAnd _ children =>
      "A(" +:+ str_concat (map (fun child => canonical child +:+ ",") children) +:+ ")"
  | PlannedOr _ children =>
      "O(" +:+ str_concat (map (fun child => canonical child +:+ ",") children) +:+ ")"
  | PlannedNot _ operand => "N(" +:+ canonical operand +:+ ")"
  | PlannedRange _ field lower upper include_lower include_upper =>
      "R(" +:+ atom field +:+ "," +:+ atom lower +:+ "," +:+ atom upper +:+ "," +:+
      (if include_lower then "1" else "0") +:+ "," +:+ (if include_upper then "1" else "0") +:+ ")"
  | PlannedMatchAll _ => "M()"
  end.

Definition canonicalize (plan : Plan) : string := canonical plan.
