(* ===== verification/Planner.v ===== *)
(** * The query planner

    include/dse/query/planner.hpp and the [Builder] of src/query/planner.cpp:
    checks the query against the schema, expands it over the default fields,
    analyses its texts, and normalises the Boolean nodes.  The builder's three
    counters count objects in memory, so they are not near 2^64. *)

From S2P Require Import Prelude Text Doubles Analysis Schema Types Index Query Plan.
From Stdlib Require Import SpecFloat.

Record SearchField := { search_name : string; search_boost : double }.

Record PlannerLimits := {
  maximum_nodes : Z;
  maximum_analyzed_tokens : Z;
  maximum_phrase_tokens : Z;
  maximum_depth : Z
}.

Definition default_planner_limits : PlannerLimits :=
  {| maximum_nodes := 1024; maximum_analyzed_tokens := 4096; maximum_phrase_tokens := 256;
     maximum_depth := 128 |}.

Record PlannerOptions := { default_fields : list SearchField; limits : PlannerLimits }.

Definition default_search_fields : list SearchField :=
  [{| search_name := "title"; search_boost := d_one |};
   {| search_name := "body"; search_boost := d_one |};
   {| search_name := "tags"; search_boost := d_one |}].

Inductive PlanningErrorCode :=
| invalid_options | invalid_query_tree | planning_unknown_field | incompatible_field_type
| invalid_range | planning_resource_limit | planning_analysis_failed.

Record PlanningError := { planning_code : PlanningErrorCode; planning_message : string }.

Definition error (code : PlanningErrorCode) (message : string) : PlanningError :=
  {| planning_code := code; planning_message := message |}.

Module Builder.

Record Builder := { source_nodes_ : Z; planned_nodes_ : Z; analyzed_tokens_ : Z }.

Definition B (A : Type) : Type := Builder -> expected PlanningError (A * Builder).

#[export] Instance B_ret : MRet B := fun A a s => Ok (a, s).
#[export] Instance B_bind : MBind B := fun A A' f m s =>
  match m s with Ok (a, s') => f a s' | Err e => Err e end.

Definition fail {A} (code : PlanningErrorCode) (message : string) : B A :=
  fun _ => Err (error code message).

Section builder.
Context (index : SearchIndexView) (options : PlannerOptions).

Definition count_source_node : B unit := fun s =>
  let n := source_nodes_ s + 1 in
  if n >? maximum_nodes (limits options) then
    Err (error planning_resource_limit "query AST node limit exceeded")
  else Ok (tt, {| source_nodes_ := n; planned_nodes_ := planned_nodes_ s;
                  analyzed_tokens_ := analyzed_tokens_ s |}).

Definition make (value : Plan) : B Plan := fun s =>
  let n := planned_nodes_ s + 1 in
  if n >? maximum_nodes (limits options) then
    Err (error planning_resource_limit "planned query node limit exceeded")
  else Ok (value, {| source_nodes_ := source_nodes_ s; planned_nodes_ := n;
                     analyzed_tokens_ := analyzed_tokens_ s |}).

Definition searchable_field (field : string) : expected PlanningError (FieldDefinition * Analyzer) :=
  match IndexSchema.find (view_schema index) field with
  | None =>
      Err (error planning_unknown_field ("query references unknown field: " +:+ field))
  | Some definition =>
      match fd_analyzer definition with
      | Some analyzer =>
          if fd_indexed definition then Ok (definition, analyzer)
          else Err (error incompatible_field_type ("field is not searchable as text: " +:+ field))
      | None => Err (error incompatible_field_type ("field is not searchable as text: " +:+ field))
      end
  end.

Definition analyze_text (analyzer : Analyzer) (text : string) (is_phrase : bool) : B (list Token) :=
  fun s =>
    match analyze analyzer text with
    | Err what => Err (error planning_analysis_failed ("query analysis failed: " +:+ what))
    | Ok tokens =>
        let n := analyzed_tokens_ s + zlen tokens in
        if (n >? maximum_analyzed_tokens (limits options)) ||
           (is_phrase && (zlen tokens >? maximum_phrase_tokens (limits options)))
        then Err (error planning_resource_limit "analyzed query token limit exceeded")
        else Ok (tokens, {| source_nodes_ := source_nodes_ s; planned_nodes_ := planned_nodes_ s;
                            analyzed_tokens_ := n |})
    end.

Definition lift {A} (m : expected PlanningError A) : B A := fun s =>
  match m with Ok a => Ok (a, s) | Err e => Err e end.

Definition posting_count (field t : string) : Z :=
  match view_lookup index field t with Some entry => zlen (postings entry) | None => 0 end.

(** *** Boolean normalisation *)

(** The first child of each canonical text. *)
Fixpoint unique_keyed (keyed : list (string * Plan)) (children : list Plan) : list (string * Plan) :=
  match children with
  | [] => keyed
  | child :: rest =>
      let key := canonical child in
      if bool_decide (key ∈ keyed.*1) then unique_keyed keyed rest
      else unique_keyed (keyed ++ [(key, child)]) rest
  end.

Definition cheaper (left right : string * Plan) : bool :=
  if negb (estimated left.2 =? estimated right.2) then estimated left.2 <? estimated right.2
  else str_ltb left.1 right.1.

Definition key_less (left right : string * Plan) : bool := str_ltb left.1 right.1.

Definition and_estimate (children : list Plan) : Z :=
  foldl (fun estimate child => Z.min estimate (estimated child)) (view_live_document_count index) children.

Definition or_estimate (children : list Plan) : Z :=
  foldl (fun estimate child => Z.min (view_live_document_count index) (estimate + estimated child)) 0
    children.

Definition normalize_and (children : list Plan) : B Plan :=
  match unique_keyed [] children with
  | [] => make (PlannedAnd 0 [])
  | [(_, child)] => mret child
  | keyed =>
      let normalized := (sort_by cheaper keyed).*2 in
      make (PlannedAnd (and_estimate normalized) normalized)
  end.

Definition normalize_or (children : list Plan) : B Plan :=
  match unique_keyed [] children with
  | [] => make (PlannedOr 0 [])
  | [(_, child)] => mret child
  | keyed =>
      let normalized := (sort_by key_less keyed).*2 in
      make (PlannedOr (or_estimate normalized) normalized)
  end.

(** *** Leaves *)

Fixpoint term_children (field : string) (boost : double) (seen : gset string) (tokens : list Token)
    : B (list Plan) :=
  match tokens with
  | [] => mret []
  | token :: rest =>
      if bool_decide (term token ∈ seen) then term_children field boost seen rest
      else
        child ← make (PlannedTerm (posting_count field (term token)) field (term token) boost);
        children ← term_children field boost ({[term token]} ∪ seen) rest;
        mret (child :: children)
  end.

Definition term_for_field (field text : string) (boost : double) : B Plan :=
  '(definition, analyzer) ← lift (searchable_field field);
  tokens ← analyze_text analyzer text false;
  children ← term_children field (d_mul boost (fd_boost definition)) ∅ tokens;
  normalize_or children.

Definition phrase_for_field (field text : string) (boost : double) : B Plan :=
  '(definition, analyzer) ← lift (searchable_field field);
  tokens ← analyze_text analyzer text true;
  let estimate := foldl (fun estimate token => Z.min estimate (posting_count field (term token)))
                    (view_live_document_count index) tokens in
  make (PlannedPhrase estimate field tokens (d_mul boost (fd_boost definition))).

(** The loop over the default fields. *)
Fixpoint for_fields (build : string -> double -> B Plan) (boost : double) (fields : list SearchField)
    : B (list Plan) :=
  match fields with
  | [] => mret []
  | field :: rest =>
      child ← build (search_name field) (d_mul boost (search_boost field));
      children ← for_fields build boost rest;
      mret (child :: children)
  end.

Definition expand (build : string -> double -> B Plan) (field : option string) (boost : double) : B Plan :=
  match field with
  | Some name => build name boost
  | None => children ← for_fields build boost (default_fields options); normalize_or children
  end.

Definition canonical_bound (definition : FieldDefinition) (field bound : string)
    : expected PlanningError string :=
  if str_eqb bound "*" then Ok bound
  else
    match IndexSchema.validate_value (view_schema index) field bound with
    | Err e => Err (error invalid_range (schema_message e))
    | Ok _ =>
        if bool_decide (fd_type definition = ft_int64) then
          Ok (to_string_i (default 0 (parse_i64 bound)))
        else Ok bound
    end.

Definition build_range (field lower upper : string) (include_lower include_upper : bool) : B Plan :=
  match IndexSchema.find (view_schema index) field with
  | None => fail planning_unknown_field ("range references unknown field: " +:+ field)
  | Some definition =>
      if bool_decide (fd_type definition = ft_text) then
        fail incompatible_field_type "text fields do not support range filters"
      else
        lower' ← lift (canonical_bound definition field lower);
        upper' ← lift (canonical_bound definition field upper);
        make (PlannedRange (view_live_document_count index) field lower' upper'
                include_lower include_upper)
  end.

Definition invalid_tree {A} : B A := fail invalid_query_tree "query AST contains an invalid node".

(** The overloads of [build_node] on inner nodes, given what builds their
    children; the children of a parsed node are never null. *)
Definition build_and (left right : B Plan) : B Plan :=
  left' ← left; right' ← right; normalize_and [left'; right'].

Definition build_or (left right : B Plan) : B Plan :=
  left' ← left; right' ← right; normalize_or [left'; right'].

Definition build_not (operand : B Plan) : B Plan :=
  operand' ← operand; make (PlannedNot (view_live_document_count index) operand').

Definition build_field (name : string) (inner : B Plan) : B Plan :=
  if str_eqb name "" then invalid_tree
  else
    match IndexSchema.find (view_schema index) name with
    | None => fail planning_unknown_field ("query references unknown field: " +:+ name)
    | Some _ => inner
    end.

Definition build_boost (factor : double) (inner : B Plan) : B Plan :=
  if negb (d_finite factor) || d_leb factor d_zero then invalid_tree else inner.

Definition build_match_all : B Plan := make (PlannedMatchAll (view_live_document_count index)).

(** [build], and [build_node] on terms and phrases. *)
Fixpoint build (query : Query) (field : option string) (boost : double) (depth : Z) : B Plan :=
  if depth >? maximum_depth (limits options) then
    fail planning_resource_limit "query planning depth limit exceeded"
  else
    _ ← count_source_node;
    match query with
    | TermQuery _ t => expand (fun name => term_for_field name t) field boost
    | PhraseQuery _ text => expand (fun name => phrase_for_field name text) field boost
    | AndQuery _ l r => build_and (build l field boost (depth + 1)) (build r field boost (depth + 1))
    | OrQuery _ l r => build_or (build l field boost (depth + 1)) (build r field boost (depth + 1))
    | NotQuery _ q => build_not (build q field boost (depth + 1))
    | FieldQuery _ name q => build_field name (build q (Some name) boost (depth + 1))
    | RangeFilter _ name lower upper il iu => build_range name lower upper il iu
    | BoostQuery _ q factor => build_boost factor (build q field (d_mul boost factor) (depth + 1))
    | MatchAllQuery _ => build_match_all
    end.

End builder.
End Builder.

Definition options_ok (options : PlannerOptions) : expected PlanningError unit :=
  if bool_decide (default_fields options = []) || (maximum_nodes (limits options) =? 0) ||
     (maximum_analyzed_tokens (limits options) =? 0) || (maximum_depth (limits options) =? 0)
  then Err (error invalid_options "planner options contain a zero required limit")
  else
    check_each (fun field =>
        ensure (negb (str_eqb (search_name field) "" || negb (d_finite (search_boost field)) ||
                      d_ltb (search_boost field) d_zero))
          (error invalid_options "default fields require names and finite non-negative boosts"))
      (default_fields options).

Definition plan (index : SearchIndexView) (query : Query) (options : PlannerOptions)
    : expected PlanningError Plan :=
  _ ← options_ok options;
  match Builder.build index options query None d_one 0
          {| Builder.source_nodes_ := 0; Builder.planned_nodes_ := 0; Builder.analyzed_tokens_ := 0 |} with
  | Ok (root, _) => Ok root
  | Err e => Err e
  end.
