(* ===== verification/Executor.v ===== *)
(** * The query executor

    src/query/executor.cpp and its header: candidate lists sorted by internal
    id, their merges, the evaluation of a plan over posting lists, [search]
    and [explain]. *)

From S2P Require Import Prelude Text Doubles Analysis Schema Types Index Ranking Query Plan Planner.
From Stdlib Require Import SpecFloat.

Record SearchOptions := {
  top_k : Z;
  search_default_fields : list SearchField;
  planner_limits : PlannerLimits
}.

Record SearchHit := { hit_document_id : DocumentId; hit_score : double }.

#[export] Instance SearchHit_eq_dec : EqDecision SearchHit.
Proof. solve_decision. Defined.

Record SearchResult := { hits : list SearchHit; total_hits : Z }.

#[export] Instance SearchResult_eq_dec : EqDecision SearchResult.
Proof. solve_decision. Defined.

Inductive ScoreExplanation := score_explanation {
  description : string;
  node_type : string;
  explained_field : string;
  explained_term : string;
  matched : bool;
  explained_score : double;
  corpus_documents : Z;
  explained_document_frequency : Z;
  explained_term_frequency : Z;
  explained_document_length : Z;
  average_field_length : double;
  explained_boost : double;
  explanation_children : list ScoreExplanation
}.

Inductive ExecutionErrorCode :=
| exec_invalid_options | exec_planning_error | exec_invalid_query_tree | exec_unknown_field
| exec_incompatible_field_type | exec_ranking_error | exec_nesting_too_deep.

#[export] Instance ExecutionErrorCode_eq_dec : EqDecision ExecutionErrorCode.
Proof. solve_decision. Defined.

Record ExecutionError := { execution_code : ExecutionErrorCode; execution_message : string }.

Definition exec_error (code : ExecutionErrorCode) (message : string) : ExecutionError :=
  {| execution_code := code; execution_message := message |}.

Definition planning_error (planning : PlanningError) : ExecutionError :=
  let code := match planning_code planning with
              | invalid_options => exec_invalid_options
              | invalid_query_tree => exec_invalid_query_tree
              | planning_unknown_field => exec_unknown_field
              | incompatible_field_type | invalid_range => exec_incompatible_field_type
              | planning_resource_limit | planning_analysis_failed => exec_planning_error
              end in
  exec_error code (planning_message planning).

(** ** Candidate lists *)

Record Candidate := { candidate_id : Z; candidate_score : double }.

Notation Candidates := (list Candidate).

(** The merging loops: each round drops the head of one list or of both, so
    the sum of the lengths is fuel enough. *)
Fixpoint intersect_loop (fuel : nat) (left right : Candidates) : Candidates :=
  match fuel, left, right with
  | S fuel', l :: left', r :: right' =>
      if candidate_id l <? candidate_id r then intersect_loop fuel' left' right
      else if candidate_id r <? candidate_id l then intersect_loop fuel' left right'
      else {| candidate_id := candidate_id l;
              candidate_score := d_add (candidate_score l) (candidate_score r) |} ::
           intersect_loop fuel' left' right'
  | _, _, _ => []
  end.

Definition intersect (left right : Candidates) : Candidates :=
  intersect_loop (length left + length right) left right.

Fixpoint unite_loop (fuel : nat) (left right : Candidates) : Candidates :=
  match fuel, left, right with
  | O, _, _ | _, [], [] => []
  | S fuel', l :: left', [] => l :: unite_loop fuel' left' []
  | S fuel', [], r :: right' => r :: unite_loop fuel' [] right'
  | S fuel', l :: left', r :: right' =>
      if candidate_id l <? candidate_id r then l :: unite_loop fuel' left' right
      else if candidate_id r <? candidate_id l then r :: unite_loop fuel' left right'
      else {| candidate_id := candidate_id l;
              candidate_score := d_add (candidate_score l) (candidate_score r) |} ::
           unite_loop fuel' left' right'
  end.

Definition unite (left right : Candidates) : Candidates :=
  unite_loop (length left + length right) left right.

Fixpoint exclude (universe excluded : Candidates) : Candidates :=
  match universe with
  | [] => []
  | c :: rest =>
      let excluded' := lower_bound (fun e => candidate_id e <? candidate_id c) excluded in
      match excluded' with
      | e :: _ => if candidate_id c <? candidate_id e then c :: exclude rest excluded'
                  else exclude rest excluded'
      | [] => c :: exclude rest excluded'
      end
  end.

Definition posting_for (entry : TermEntry) (id : Z) : option Posting :=
  match lower_bound (fun p => posting_document_id p <? id) (postings entry) with
  | p :: _ => if posting_document_id p =? id then Some p else None
  | [] => None
  end.

Definition binary_search (l : list Z) (x : Z) : bool :=
  match lower_bound (fun y => y <? x) l with y :: _ => y =? x | [] => false end.

(** The inner loop, over the postings and tokens after the first ones. *)
Fixpoint positions_follow (base first : Z) (ps : list Posting) (tokens : list Token) : bool :=
  match ps, tokens with
  | p :: ps', token :: tokens' =>
      let offset := wrap32 (position token - first) in
      if (base >? u32_max - offset) || negb (binary_search (positions p) (base + offset)) then false
      else positions_follow base first ps' tokens'
  | _, _ => true
  end.

Definition positions_match (ps : list Posting) (tokens : list Token) : bool :=
  match tokens, ps with
  | first :: tokens', p :: ps' =>
      existsb (fun base => positions_follow base (position first) ps' tokens') (positions p)
  | _, _ => false
  end.

(** Like [std::vector] loops that may return early with an error. *)
Fixpoint collect_each {E A C} (f : A -> expected E C) (l : list A) : expected E (list C) :=
  match l with
  | [] => Ok []
  | x :: l' => y ← f x; ys ← collect_each f l'; Ok (y :: ys)
  end.

Section evaluator.
Context (log1p : double -> double) (index : SearchIndexView) (scorer : BM25Parameters).

(** ** The evaluator *)

Definition universe : Candidates :=
  map (fun id => {| candidate_id := id; candidate_score := d_zero |}) (view_live_document_ids index).

Definition score_posting (field : string) (entry : TermEntry) (posting : Posting) (boost : double)
    : expected ExecutionError double :=
  match view_document_internal index (posting_document_id posting) with
  | None => Err (exec_error exec_invalid_query_tree "unknown posting document")
  | Some record =>
      match field_lengths record !! field with
      | None => Err (exec_error exec_invalid_query_tree "missing field length")
      | Some length =>
          let stats := view_field_statistics index field in
          map_err (fun e => exec_error exec_ranking_error (describe e))
            (BM25Scorer.score log1p scorer
               {| Ranking.document_count := fs_document_count stats;
                  Ranking.document_frequency := Index.document_frequency entry;
                  Ranking.term_frequency := Index.term_frequency posting;
                  document_length := length;
                  average_document_length := fs_average_length stats |} boost d_one)
      end
  end.

Definition score_term (field t : string) (boost : double) : expected ExecutionError Candidates :=
  match view_lookup index field t with
  | None => Ok []
  | Some entry =>
      collect_each (fun posting =>
        score ← score_posting field entry posting boost;
        Ok {| candidate_id := posting_document_id posting; candidate_score := score |})
        (postings entry)
  end.

(** The index of the first entry with the fewest postings. *)
Definition anchor_of (entries : list TermEntry) : nat :=
  match entries with
  | [] => 0%nat
  | first :: rest =>
      (foldl (fun '(i, anchor, best) entry =>
         if zlen (postings entry) <? best then (S i, i, zlen (postings entry))
         else (S i, anchor, best)) (1%nat, 0%nat, zlen (postings first)) rest).1.2
  end.

Fixpoint gather (i anchor : nat) (anchor_posting : Posting) (entries : list TermEntry)
    : option (list Posting) :=
  match entries with
  | [] => Some []
  | entry :: rest =>
      p ← (if Nat.eqb i anchor then Some anchor_posting
           else posting_for entry (posting_document_id anchor_posting));
      ps ← gather (S i) anchor anchor_posting rest;
      Some (p :: ps)
  end.

Fixpoint phrase_score (field : string) (boost score : double) (entries : list TermEntry)
    (ps : list Posting) : expected ExecutionError double :=
  match entries, ps with
  | entry :: entries', p :: ps' =>
      term_score ← score_posting field entry p boost;
      phrase_score field boost (d_add score term_score) entries' ps'
  | _, _ => Ok score
  end.

Fixpoint phrase_loop (field : string) (tokens : list Token) (boost : double)
    (entries : list TermEntry) (anchor : nat) (anchor_postings : list Posting)
    : expected ExecutionError Candidates :=
  match anchor_postings with
  | [] => Ok []
  | anchor_posting :: rest =>
      match gather 0 anchor anchor_posting entries with
      | Some ps =>
          if positions_match ps tokens then
            score ← phrase_score field boost d_zero entries ps;
            candidates ← phrase_loop field tokens boost entries anchor rest;
            Ok ({| candidate_id := posting_document_id anchor_posting; candidate_score := score |}
                :: candidates)
          else phrase_loop field tokens boost entries anchor rest
      | None => phrase_loop field tokens boost entries anchor rest
      end
  end.

Definition by_id (c d : Candidate) : bool := candidate_id c <? candidate_id d.

Definition evaluate_phrase (field : string) (tokens : list Token) (boost : double)
    : expected ExecutionError Candidates :=
  match tokens with
  | [] => Ok []
  | _ =>
      match mapM (fun token => view_lookup index field (term token)) tokens with
      | None => Ok []
      | Some entries =>
          let anchor := anchor_of entries in
          match entries !! anchor with
          | None => Ok [] (* not reached: the anchor is an index of the entries *)
          | Some entry =>
              result ← phrase_loop field tokens boost entries anchor (postings entry);
              Ok (sort_by by_id result)
          end
      end
  end.

Definition field_value (record : DocumentRecord) (field : string) : option string :=
  match doc_fields (document record) !! field with
  | Some value => Some value
  | None => doc_stored_metadata (document record) !! field
  end.

(** [std::from_chars] into an [std::int64_t] that starts at 0. *)
Definition read_i64 (s : string) : option Z :=
  match from_chars_signed i64_min i64_max s with fc_ok v _ => Some v | _ => None end.

Definition range_matches (definition : FieldDefinition) (value lower_bound upper_bound : string)
    (include_lower include_upper : bool) : bool :=
  if bool_decide (fd_type definition = ft_int64) then
    match read_i64 value with
    | None => false
    | Some actual =>
        (str_eqb lower_bound "*" ||
         (let expected := default 0 (read_i64 lower_bound) in
          if include_lower then expected <=? actual else expected <? actual)) &&
        (str_eqb upper_bound "*" ||
         (let expected := default 0 (read_i64 upper_bound) in
          if include_upper then actual <=? expected else actual <? expected))
    end
  else
    (str_eqb lower_bound "*" ||
     (if include_lower then str_leb lower_bound value else str_ltb lower_bound value)) &&
    (str_eqb upper_bound "*" ||
     (if include_upper then str_leb value upper_bound else str_ltb value upper_bound)).

Definition evaluate_range (field lower upper : string) (il iu : bool)
    : expected ExecutionError Candidates :=
  match IndexSchema.find (view_schema index) field with
  | None => Err (exec_error exec_invalid_query_tree "unknown planned field")
  | Some definition =>
      Ok (omap (fun id =>
        match view_document_internal index id with
        | None => None
        | Some record =>
            match field_value record field with
            | Some value =>
                if range_matches definition value lower upper il iu
                then Some {| candidate_id := id; candidate_score := d_zero |} else None
            | None => None
            end
        end) (view_live_document_ids index))
  end.

(** The loops over the children of AND and OR. *)
Section loops.
Context (evaluate : Plan -> expected ExecutionError Candidates).

Fixpoint and_loop (result : Candidates) (rest : list Plan) : expected ExecutionError Candidates :=
  match rest with
  | [] => Ok result
  | child :: rest' =>
      candidates ← evaluate child;
      let result' := intersect result candidates in
      match result' with [] => Ok [] | _ => and_loop result' rest' end
  end.

Fixpoint or_loop (result : Candidates) (rest : list Plan) : expected ExecutionError Candidates :=
  match rest with
  | [] => Ok result
  | child :: rest' => candidates ← evaluate child; or_loop (unite result candidates) rest'
  end.
End loops.

Fixpoint evaluate (p : Plan) : expected ExecutionError Candidates :=
  match p with
  | PlannedTerm _ field t boost => score_term field t boost
  | PlannedPhrase _ field tokens boost => evaluate_phrase field tokens boost
  | PlannedAnd _ children =>
      match children with
      | [] => Ok []
      | first :: rest => result ← evaluate first; and_loop evaluate result rest
      end
  | PlannedOr _ children => or_loop evaluate [] children
  | PlannedNot _ operand =>
      candidates ← evaluate operand;
      Ok (exclude universe candidates)
  | PlannedRange _ field lower upper il iu => evaluate_range field lower upper il iu
  | PlannedMatchAll _ => Ok universe
  end.

(** ** [explain] *)

Definition find_candidate (candidates : Candidates) (id : Z) : option double :=
  match lower_bound (fun c => candidate_id c <? id) candidates with
  | c :: _ => if candidate_id c =? id then Some (candidate_score c) else None
  | [] => None
  end.

(** The explanation of a node, without its children. *)
Definition explain_node (p : Plan) (candidates : Candidates) (id : Z)
    (children : list ScoreExplanation) : ScoreExplanation :=
  let found := find_candidate candidates id in
  let blank kind field t documents df tf length average boost :=
    {| description := canonicalize p; node_type := kind; explained_field := field;
       explained_term := t; matched := bool_decide (is_Some found);
       explained_score := default d_zero found; corpus_documents := documents;
       explained_document_frequency := df; explained_term_frequency := tf;
       explained_document_length := length; average_field_length := average;
       explained_boost := boost; explanation_children := children |} in
  match p with
  | PlannedTerm _ field t boost =>
      let statistics := view_field_statistics index field in
      let entry := view_lookup index field t in
      let posting := entry ≫= (fun e => posting_for e id) in
      let length := view_document_internal index id ≫= (fun r => field_lengths r !! field) in
      blank "term" field t (fs_document_count statistics)
        (match entry with Some e => Index.document_frequency e | None => 0 end)
        (match posting with Some q => Index.term_frequency q | None => 0 end)
        (default 0 length) (fs_average_length statistics) boost
  | PlannedPhrase _ field _ boost => blank "phrase" field "" 0 0 0 0 d_zero boost
  | PlannedAnd _ _ => blank "and" "" "" 0 0 0 0 d_zero d_one
  | PlannedOr _ _ => blank "or" "" "" 0 0 0 0 d_zero d_one
  | PlannedNot _ _ => blank "not" "" "" 0 0 0 0 d_zero d_one
  | PlannedRange _ field _ _ _ _ => blank "range" field "" 0 0 0 0 d_zero d_one
  | PlannedMatchAll _ => blank "match_all" "" "" 0 0 0 0 d_zero d_one
  end.

Definition explain_term (id : Z) (field : string) (boost : double) (token : Token)
    : expected ExecutionError ScoreExplanation :=
  let node := PlannedTerm 0 field (term token) boost in
  candidates ← evaluate node;
  Ok (explain_node node candidates id []).

Fixpoint explain_plan (id : Z) (p : Plan) : expected ExecutionError ScoreExplanation :=
  candidates ← evaluate p;
  children ←
    match p with
    | PlannedPhrase _ field tokens boost => collect_each (explain_term id field boost) tokens
    | PlannedAnd _ children | PlannedOr _ children => collect_each (explain_plan id) children
    | PlannedNot _ operand => child ← explain_plan id operand; Ok [child]
    | _ => Ok []
    end;
  Ok (explain_node p candidates id children).

End evaluator.

(** ** The executor *)

Record QueryExecutor := {
  executor_index : SearchIndexView;
  executor_scorer : expected BM25Error BM25Parameters
}.

Definition make_executor (index : SearchIndexView) (parameters : BM25Parameters) : QueryExecutor :=
  {| executor_index := index; executor_scorer := BM25Scorer.create parameters |}.

Section executor.
Context (log1p : double -> double) (executor : QueryExecutor).

(** The loop that feeds the collector. *)
Definition collect_candidate (collector : TopKCollector) (candidate : Candidate)
    : expected ExecutionError TopKCollector :=
  match view_external_id (executor_index executor) (candidate_id candidate) with
  | None => Err (exec_error exec_invalid_query_tree "missing external ID")
  | Some external =>
      let '(accepted, collector') :=
        TopKCollector.collect collector
          {| scored_id := external; score := candidate_score candidate |} in
      if accepted : bool then Ok collector'
      else Err (exec_error exec_ranking_error "non-finite score")
  end.

Definition search_plan (query : Plan) (top_k : Z) : expected ExecutionError SearchResult :=
  match executor_scorer executor with
  | Err e => Err (exec_error exec_invalid_options (describe e))
  | Ok scorer =>
      candidates ← evaluate log1p (executor_index executor) scorer query;
      collector ← fold_each collect_candidate (TopKCollector.make top_k) candidates;
      Ok {| hits := map (fun scored => {| hit_document_id := scored_id scored;
                                          hit_score := score scored |})
                        (TopKCollector.results collector);
            total_hits := zlen candidates |}
  end.

Definition search (query : Query) (options : SearchOptions) : expected ExecutionError SearchResult :=
  plan ← map_err planning_error
    (plan (executor_index executor) query
       {| default_fields := search_default_fields options; limits := planner_limits options |});
  search_plan plan (top_k options).

Definition explain (query : Plan) (document : DocumentId) : expected ExecutionError ScoreExplanation :=
  match executor_scorer executor with
  | Err e => Err (exec_error exec_invalid_options (describe e))
  | Ok scorer =>
      match view_internal_id (executor_index executor) document with
      | None => Err (exec_error exec_invalid_query_tree "cannot explain an unknown document")
      | Some id => explain_plan log1p (executor_index executor) scorer id query
      end
  end.

End executor.
