(* ===== verification/ScoreBits.v ===== *)
(** * Scores are doubles

    Every score that a search returns is a binary64 value: the model computes
    on [spec_float], which also has values that no [double] holds, and the
    scorer, the phrase sums and the merges of AND and OR stay among those that
    one does, whatever [log1p] gives. *)

From S2P Require Import Prelude Text Doubles Rounding Analysis Schema Types Index Ranking Query Plan Planner Executor.
From Stdlib Require Import SpecFloat.

Definition valid_candidate (c : Candidate) : Prop := d_valid (candidate_score c) = true.

(** The last multiplication of the formula is by the query boost, one. *)
Lemma bm25_valid log1p parameters statistics boost s :
  BM25Scorer.score log1p parameters statistics boost d_one = Ok s -> d_valid s = true.
Proof.
  unfold BM25Scorer.score. destruct (negb _); [done|]. destruct (BM25Scorer.inconsistent _); [done|].
  destruct (_ || _); intros [= <-]; [done|]. apply d_mul_one_valid.
Qed.

Section merges.
Implicit Types l r u : list Candidate.

Lemma intersect_valid l r : Forall valid_candidate l -> Forall valid_candidate r -> Forall valid_candidate (intersect l r).
Proof.
  unfold intersect. generalize (length l + length r)%nat. intros fuel. revert l r.
  induction fuel as [|fuel IH]; intros [|x l] [|y r] Hl Hr; try by constructor.
  cbn [intersect_loop]. pose proof Hl as [Hx Hl']%Forall_cons. pose proof Hr as [Hy Hr']%Forall_cons.
  repeat destruct (_ <? _); auto. constructor; [by apply d_add_valid|auto].
Qed.

Lemma unite_valid l r : Forall valid_candidate l -> Forall valid_candidate r -> Forall valid_candidate (unite l r).
Proof.
  unfold unite. generalize (length l + length r)%nat. intros fuel. revert l r.
  induction fuel as [|fuel IH]; intros [|x l] [|y r] Hl Hr; try by constructor.
  all: cbn [unite_loop]; rewrite ?Forall_cons in Hl; rewrite ?Forall_cons in Hr; destruct_and?.
  1,2: constructor; [done|]; by apply IH.
  repeat destruct (_ <? _); constructor; try done; try (apply IH; rewrite ?Forall_cons; done).
  by apply d_add_valid.
Qed.

Lemma exclude_valid u : forall excluded, Forall valid_candidate u -> Forall valid_candidate (exclude u excluded).
Proof.
  induction u as [|c u IH]; intros excluded Hu; [done|]. apply Forall_cons in Hu as [Hc Hu]. cbn [exclude].
  repeat case_match; auto.
Qed.
End merges.

Lemma collect_each_Forall {E A C} (f : A -> expected E C) (P : C -> Prop) l ys :
  (forall x y, f x = Ok y -> P y) -> collect_each f l = Ok ys -> Forall P ys.
Proof.
  intros Hf. revert ys. induction l as [|x l IH]; intros ys; cbn [collect_each]; [intros [= <-]; constructor|].
  intros (y & Hy & (ys' & Hys & [= <-])%bind_Ok)%bind_Ok. constructor; [by eapply Hf|by apply IH].
Qed.

Section evaluator.
Context (log1p : double -> double) (index : SearchIndexView) (scorer : BM25Parameters).

Notation score_posting := (score_posting log1p index scorer).
Notation evaluate := (evaluate log1p index scorer).

Lemma score_posting_valid field entry p boost s : score_posting field entry p boost = Ok s -> d_valid s = true.
Proof.
  unfold Executor.score_posting. destruct (view_document_internal _ _); [|done]. destruct (_ !! _); [|done].
  cbv zeta. destruct (BM25Scorer.score _ _ _ _ _) eqn:E; [|done]. intros [= <-]. by eapply bm25_valid.
Qed.

Lemma universe_valid : Forall valid_candidate (universe index).
Proof. unfold universe. induction (view_live_document_ids index) as [|id ids IH]; cbn [map]; by constructor. Qed.

Lemma score_term_valid field t boost cs : score_term log1p index scorer field t boost = Ok cs -> Forall valid_candidate cs.
Proof.
  unfold score_term. destruct (view_lookup _ _ _) as [entry|]; [|intros [= <-]; constructor].
  apply collect_each_Forall. intros p c (s & Hs & [= <-])%bind_Ok. by eapply score_posting_valid.
Qed.

Lemma phrase_score_valid field boost entries : forall acc ps s, d_valid acc = true ->
  phrase_score log1p index scorer field boost acc entries ps = Ok s -> d_valid s = true.
Proof.
  induction entries as [|entry entries IH]; intros acc [|p ps] s Hacc; cbn [phrase_score]; try (intros [= <-]; done).
  intros (t & Ht & H)%bind_Ok. apply IH in H; [done|]. apply d_add_valid; [done|]. by eapply score_posting_valid.
Qed.

Lemma phrase_loop_valid field tokens boost entries anchor ps : forall cs,
  phrase_loop log1p index scorer field tokens boost entries anchor ps = Ok cs -> Forall valid_candidate cs.
Proof.
  induction ps as [|p ps IH]; intros cs; cbn [phrase_loop]; [intros [= <-]; constructor|].
  destruct (gather _ _ _ _) as [found|]; [|apply IH]. destruct (positions_match _ _); [|apply IH].
  intros (s & Hs & (rest & Hrest & [= <-])%bind_Ok)%bind_Ok. constructor; [|by apply IH].
  by eapply phrase_score_valid in Hs.
Qed.

Lemma evaluate_phrase_valid field tokens boost cs :
  evaluate_phrase log1p index scorer field tokens boost = Ok cs -> Forall valid_candidate cs.
Proof.
  unfold evaluate_phrase. destruct tokens as [|token tokens]; [intros [= <-]; constructor|].
  destruct (mapM _ _) as [entries|]; [|intros [= <-]; constructor].
  destruct (entries !! _) as [entry|]; [|intros [= <-]; constructor].
  intros (result & H & [= <-])%bind_Ok. rewrite sort_by_perm. by eapply phrase_loop_valid.
Qed.

Lemma evaluate_range_valid field lower upper il iu cs :
  evaluate_range index field lower upper il iu = Ok cs -> Forall valid_candidate cs.
Proof.
  unfold evaluate_range. destruct (IndexSchema.find _ _); [|done]. intros [= <-]. apply Forall_forall.
  intros c (id & _ & Hc)%list_elem_of_omap. destruct (view_document_internal _ _); [|done].
  destruct (field_value _ _); [|done]. destruct (range_matches _ _ _ _ _ _); [|done]. by injection Hc as <-.
Qed.

Definition gives_valid (p : Plan) : Prop := forall cs, evaluate p = Ok cs -> Forall valid_candidate cs.

Lemma and_loop_valid rest : Forall gives_valid rest -> forall acc cs, Forall valid_candidate acc ->
  and_loop evaluate acc rest = Ok cs -> Forall valid_candidate cs.
Proof.
  induction 1 as [|p rest Hp _ IH]; intros acc cs Hacc; cbn [and_loop]; [by intros [= <-]|].
  intros (c & Hc & H)%bind_Ok. cbv zeta in H. pose proof (intersect_valid acc c Hacc (Hp c Hc)) as Hi.
  destruct (intersect acc c); [injection H as <-; constructor|]. by eapply IH.
Qed.

Lemma or_loop_valid rest : Forall gives_valid rest -> forall acc cs, Forall valid_candidate acc ->
  or_loop evaluate acc rest = Ok cs -> Forall valid_candidate cs.
Proof.
  induction 1 as [|p rest Hp _ IH]; intros acc cs Hacc; cbn [or_loop]; [by intros [= <-]|].
  intros (c & Hc & H)%bind_Ok. eapply IH; [|exact H]. apply unite_valid; auto.
Qed.

Lemma evaluate_valid p : gives_valid p.
Proof.
  induction p as [e f t b|e f ts b|e ps IH|e ps IH|e q IH|e f lo hi il iu|e] using plan_induction;
    unfold gives_valid in *; cbn [Executor.evaluate]; intros cs Hcs.
  - by eapply score_term_valid.
  - by eapply evaluate_phrase_valid.
  - destruct ps as [|first rest]; [injection Hcs as <-; constructor|]. apply Forall_cons in IH as [Hf Hr].
    apply bind_Ok in Hcs as (c & Hc & Hcs). eapply and_loop_valid; [exact Hr|by apply Hf|exact Hcs].
  - by eapply or_loop_valid.
  - apply bind_Ok in Hcs as (c & _ & [= <-]). apply exclude_valid, universe_valid.
  - by eapply evaluate_range_valid.
  - injection Hcs as <-. apply universe_valid.
Qed.

End evaluator.

(** ** Results *)

Lemma collected_candidates executor cs : forall collector collector',
  fold_each (collect_candidate executor) collector cs = Ok collector' ->
  exists l, collector' = TopKCollector.collect_all collector l /\
    Forall (fun c => exists candidate, candidate ∈ cs /\ score c = candidate_score candidate) l.
Proof.
  induction cs as [|c cs IH]; intros collector collector'; cbn [fold_each]; [intros [= <-]; by exists []|].
  unfold collect_candidate at 1. destruct (view_external_id _ _) as [id|]; [|done].
  destruct (TopKCollector.collect collector _) as [accepted next] eqn:E. destruct accepted; [|done].
  intros (l & -> & Hl)%IH. eexists (_ :: l). split; [unfold TopKCollector.collect_all; cbn [foldl]; by rewrite E|].
  constructor; [exists c; split; [left|done]|]. eapply Forall_impl; [exact Hl|].
  intros x (y & Hy & Ey). exists y. split; [by right|done].
Qed.

Lemma results_length k docs : 0 <= k -> zlen (TopKCollector.results (TopKCollector.collect_all (TopKCollector.make k) docs)) <= k.
Proof.
  intros Hk. destruct (collect_all_ok docs (TopKCollector.make k) [] (make_ok k Hk)) as (Hok & Hcap & _).
  { by intros x ?%not_elem_of_nil. }
  apply results_best in Hok. apply (f_equal (@List.length _)) in Hok.
  rewrite length_fmap, Hcap in Hok. unfold best in Hok. rewrite length_take in Hok.
  unfold zlen. cbn [TopKCollector.make TopKCollector.capacity_] in Hok. lia.
Qed.

(** The scores of a result are finite doubles; there are at most [k] of them,
    and the total is a count. *)
Lemma search_plan_scores log1p executor p k result : 0 <= k -> search_plan log1p executor p k = Ok result ->
  zlen (hits result) <= k /\ 0 <= total_hits result /\
  Forall (fun hit => d_finite (hit_score hit) = true /\ d_valid (hit_score hit) = true) (hits result).
Proof.
  intros Hk. unfold search_plan. destruct (executor_scorer executor) as [scorer|e]; [|done].
  intros (cs & Hcs & H)%bind_Ok. apply bind_Ok in H as (collector & Hc & [= <-]). cbn [total_hits hits].
  apply collected_candidates in Hc as (l & -> & Hl).
  split; [unfold zlen; rewrite length_map; by apply results_length|]. split; [apply zlen_nonneg|]. rewrite Forall_forall. intros hit.
  intros (x & <- & Hx)%list_elem_of_In%in_map_iff. apply list_elem_of_In in Hx. cbn [hit_score].
  apply elem_of_results in Hx as [Hx Hf]; [|done]. split; [done|].
  rewrite Forall_forall in Hl. destruct (Hl x Hx) as (c & Hc & ->).
  pose proof (evaluate_valid log1p _ _ p cs Hcs) as Hv. rewrite Forall_forall in Hv. by apply Hv.
Qed.

Lemma search_scores log1p executor q options result : 0 <= Executor.top_k options ->
  search log1p executor q options = Ok result ->
  zlen (hits result) <= Executor.top_k options /\ 0 <= total_hits result /\
  Forall (fun hit => d_finite (hit_score hit) = true /\ d_valid (hit_score hit) = true) (hits result).
Proof. intros Hk (p & _ & H)%bind_Ok. by eapply search_plan_scores. Qed.
