(* ===== verification/ExecutorSpec.v ===== *)
(** * The executor against a document-at-a-time specification

    [doc_match] gives a plan's meaning on one document from the analysis of
    its fields alone, without posting lists or merges, as the repository's
    test oracle does.  The executor's merges, phrase search and top-k compute
    exactly that, on any index that satisfies [IndexViewLaws]. *)

From S2P Require Import Prelude Text Doubles Analysis Schema Types Index IndexSpec IndexChecks.
From S2P Require Import ViewSpec Ranking Query Plan Planner Executor.
From Stdlib Require Import SpecFloat.

Section specification.
Context (log1p : double -> double) (scorer : BM25Parameters).
Context (schema : IndexSchema) (documents : DocumentRecords).

(** ** The meaning of a plan on one document *)

(** The BM25 weight of a term in a document. *)
Definition term_score (field t : string) (boost : double) (r : DocumentRecord) : double :=
  let tokens := default [] (analysed schema r !! field) in
  let statistics := rebuilt_statistics schema documents field in
  match BM25Scorer.score log1p scorer
          {| Ranking.document_count := fs_document_count statistics;
             Ranking.document_frequency := documents_with schema documents field t;
             Ranking.term_frequency := zlen (occurrences t tokens);
             document_length := zlen tokens;
             average_document_length := fs_average_length statistics |} boost d_one with
  | Ok s => s
  | Err _ => d_zero
  end.

(** The tokens follow one another in the document as they do in the phrase,
    from the position [base] of the first one. *)
Definition phrase_at (document_tokens : list Token) (base first : Z) (tokens : list Token) : bool :=
  forallb (fun token =>
    let offset := wrap32 (position token - first) in
    (base + offset <=? u32_max) && bool_decide (base + offset ∈ occurrences (term token) document_tokens))
    tokens.

Definition phrase_match (document_tokens : list Token) (tokens : list Token) : bool :=
  match tokens with
  | [] => false
  | first :: rest =>
      existsb (fun base => phrase_at document_tokens base (position first) rest)
        (occurrences (term first) document_tokens)
  end.

(** Scores of a conjunction and of a disjunction. *)
Definition both (a b : option double) : option double :=
  match a, b with Some x, Some y => Some (d_add x y) | _, _ => None end.
Definition either (a b : option double) : option double :=
  match a, b with
  | Some x, Some y => Some (d_add x y)
  | Some x, None | None, Some x => Some x
  | None, None => None
  end.

Fixpoint doc_match (p : Plan) (r : DocumentRecord) : option double :=
  match p with
  | PlannedTerm _ field t boost =>
      match posting_of schema field t r with
      | Some _ => Some (term_score field t boost r)
      | None => None
      end
  | PlannedPhrase _ field tokens boost =>
      match analysed schema r !! field with
      | Some document_tokens =>
          if phrase_match document_tokens tokens
          then Some (foldl (fun s token => d_add s (term_score field (term token) boost r)) d_zero tokens)
          else None
      | None => None
      end
  | PlannedAnd _ children =>
      match children with
      | [] => None
      | first :: rest => foldl both (doc_match first r) (map (fun c => doc_match c r) rest)
      end
  | PlannedOr _ children => foldl either None (map (fun c => doc_match c r) children)
  | PlannedNot _ operand => match doc_match operand r with Some _ => None | None => Some d_zero end
  | PlannedRange _ field lower upper il iu =>
      match IndexSchema.find schema field, field_value r field with
      | Some definition, Some value =>
          if range_matches definition value lower upper il iu then Some d_zero else None
      | _, _ => None
      end
  | PlannedMatchAll _ => Some d_zero
  end.

(** Plans that the executor does not reject: boosts are finite and not
    negative, and range fields are declared. *)
Fixpoint plan_ok (p : Plan) : Prop :=
  match p with
  | PlannedTerm _ _ _ boost | PlannedPhrase _ _ _ boost => BM25Scorer.boosts_ok boost d_one = true
  | PlannedAnd _ children | PlannedOr _ children =>
      (fix all (l : list Plan) : Prop := match l with [] => True | c :: l' => plan_ok c /\ all l' end)
        children
  | PlannedNot _ operand => plan_ok operand
  | PlannedRange _ field _ _ _ _ => is_Some (IndexSchema.find schema field)
  | PlannedMatchAll _ => True
  end.

End specification.

(** ** Candidate lists as partial functions

    A sorted candidate list stands for a function from ids to scores, and is
    determined by it. *)

Definition represents (cs : list Candidate) (f : Z -> option double) : Prop :=
  StronglySorted Z.lt (candidate_id <$> cs) /\
  forall i s, {| candidate_id := i; candidate_score := s |} ∈ cs <-> f i = Some s.

Lemma represents_nil f : (forall i, f i = None) -> represents [] f.
Proof.
  intros H. split; [constructor|]. intros i s. rewrite H. split; [by intros ?%not_elem_of_nil|done].
Qed.

Lemma represents_ext cs f g : (forall i, f i = g i) -> represents cs f -> represents cs g.
Proof. intros H [Hs Hm]. split; [done|]. intros i s. by rewrite <- H. Qed.

Lemma candidate_eta c : c = {| candidate_id := candidate_id c; candidate_score := candidate_score c |}.
Proof. by destruct c. Qed.

(** The function of a list, by its head and its tail. *)
Lemma represents_cons c cs f : represents (c :: cs) f <->
  f (candidate_id c) = Some (candidate_score c) /\ (forall i, i < candidate_id c -> f i = None) /\
  represents cs (fun i => if i <=? candidate_id c then None else f i).
Proof.
  split.
  - intros [Hs Hm]. rewrite fmap_cons in Hs. apply StronglySorted_inv in Hs as [Hs Hc].
    rewrite Forall_fmap, Forall_forall in Hc.
    assert (Hf : f (candidate_id c) = Some (candidate_score c)).
    { apply Hm. rewrite <- candidate_eta. by left. }
    split_and!; [done| |].
    + intros i Hi. destruct (f i) as [s|] eqn:E; [|done]. apply Hm in E.
      apply elem_of_cons in E as [<-|E]; [cbn in Hi; lia|]. specialize (Hc _ E). cbn in Hc. lia.
    + split; [done|]. intros i s. destruct (Z.leb_spec i (candidate_id c)).
      * split; [|done]. intros Hin. specialize (Hc _ Hin). cbn in Hc. lia.
      * rewrite <- Hm, elem_of_cons. split; [by right|]. intros [<-|]; [cbn in *; lia|done].
  - intros (Hf & Hlow & [Hs Hm]). split.
    + rewrite fmap_cons. constructor; [done|]. rewrite Forall_fmap, Forall_forall.
      intros d Hd. cbn. rewrite (candidate_eta d) in Hd. apply Hm in Hd.
      destruct (Z.leb_spec (candidate_id d) (candidate_id c)); [done|lia].
    + intros i s. rewrite elem_of_cons, Hm. destruct (Z.leb_spec i (candidate_id c)) as [Hle|Hgt].
      * split.
        -- intros [<-|]; [done|done].
        -- intros E. left. destruct (Z.lt_ge_cases i (candidate_id c)); [by rewrite Hlow in E|].
           assert (i = candidate_id c) as -> by lia. rewrite Hf in E. injection E as <-.
           symmetry. apply candidate_eta.
      * split; [|by right]. intros [<-|]; [cbn in *; lia|done].
Qed.

Lemma represents_empty f : represents [] f -> forall i, f i = None.
Proof.
  intros [_ Hm] i. destruct (f i) as [s|] eqn:E; [|done]. apply Hm in E. by apply not_elem_of_nil in E.
Qed.

Lemma represents_unique cs f : represents cs f -> forall ds, represents ds f -> cs = ds.
Proof.
  revert f. induction cs as [|c cs IH]; intros f Hc [|d ds] Hd; [done| | |].
  - apply represents_cons in Hd as (E & _). by rewrite (represents_empty _ Hc) in E.
  - apply represents_cons in Hc as (E & _). by rewrite (represents_empty _ Hd) in E.
  - apply represents_cons in Hc as (E1 & L1 & R1), Hd as (E2 & L2 & R2).
    assert (candidate_id c = candidate_id d) as Ei.
    { destruct (Z.lt_trichotomy (candidate_id c) (candidate_id d)) as [H|[H|H]]; [|done|].
      - rewrite L2 in E1; done.
      - rewrite L1 in E2; done. }
    assert (c = d) as ->.
    { rewrite (candidate_eta c), (candidate_eta d). f_equal; [done|]. rewrite Ei in E1. congruence. }
    f_equal. by eapply IH.
Qed.

(** ** The merges *)

Ltac cases_leb := repeat match goal with
  | |- context [?x <=? ?y] => destruct (Z.leb_spec x y)
  | |- context [?x <? ?y] => destruct (Z.ltb_spec x y)
  end.

Lemma intersect_loop_spec n : forall l r f g, (length l + length r <= n)%nat ->
  represents l f -> represents r g ->
  represents (intersect_loop n l r) (fun i => both (f i) (g i)).
Proof.
  induction n as [|n IH]; intros l r f g Hn Hl Hr.
  { destruct l; [|cbn in Hn; lia]. apply represents_nil. intros i. by rewrite (represents_empty _ Hl). }
  destruct l as [|c l].
  { apply represents_nil. intros i. by rewrite (represents_empty _ Hl). }
  destruct r as [|d r].
  { apply represents_nil. intros i. rewrite (represents_empty _ Hr). by destruct (f i). }
  cbn [length] in Hn. cbn [intersect_loop].
  pose proof Hl as (Fl & Ll & Rl)%represents_cons. pose proof Hr as (Fr & Lr & Rr)%represents_cons.
  destruct (Z.ltb_spec (candidate_id c) (candidate_id d)) as [H1|H1].
  { eapply represents_ext; [|eapply (IH l (d :: r) _ g); [cbn; lia|exact Rl|exact Hr]].
    intros i. cbn. cases_leb; [|done]. rewrite Lr by lia. by destruct (f i). }
  destruct (Z.ltb_spec (candidate_id d) (candidate_id c)) as [H2|H2].
  { eapply represents_ext; [|eapply (IH (c :: l) r f _); [cbn; lia|exact Hl|exact Rr]].
    intros i. cbn. cases_leb; [|done]. by rewrite Ll by lia. }
  assert (candidate_id d = candidate_id c) as Ei by lia.
  apply represents_cons. cbn [candidate_id candidate_score]. split_and!.
  - rewrite Fl, <- Ei, Fr. done.
  - intros i Hi. by rewrite Ll.
  - eapply represents_ext; [|eapply (IH l r _ _); [lia|exact Rl|exact Rr]].
    intros i. cbn. rewrite Ei. by cases_leb.
Qed.

Lemma intersect_spec l r f g : represents l f -> represents r g ->
  represents (intersect l r) (fun i => both (f i) (g i)).
Proof. by apply intersect_loop_spec. Qed.

Lemma either_None_r a : either a None = a. Proof. by destruct a. Qed.

Lemma unite_loop_spec n : forall l r f g, (length l + length r <= n)%nat ->
  represents l f -> represents r g ->
  represents (unite_loop n l r) (fun i => either (f i) (g i)).
Proof.
  assert (Hempty : forall l r f g, l = [] -> r = [] -> represents l f -> represents r g ->
            represents [] (fun i => either (f i) (g i))).
  { intros l r f g -> -> Hl Hr. apply represents_nil. intros i.
    by rewrite (represents_empty _ Hl), (represents_empty _ Hr). }
  induction n as [|n IH]; intros l r f g Hn Hl Hr.
  { destruct l, r; try (cbn in Hn; lia). by eapply Hempty. }
  cbn [unite_loop].
  destruct l as [|c l], r as [|d r].
  - by eapply Hempty.
  - pose proof Hr as (Fr & Lr & Rr)%represents_cons.
    apply represents_cons. rewrite (represents_empty _ Hl). split_and!.
    + by rewrite Fr.
    + intros i Hi. by rewrite (represents_empty _ Hl), Lr.
    + eapply represents_ext; [|eapply (IH [] r _ _); [cbn in *; lia|exact Hl|exact Rr]].
      intros i. cbn. rewrite (represents_empty _ Hl). by cases_leb.
  - pose proof Hl as (Fl & Ll & Rl)%represents_cons.
    apply represents_cons. rewrite (represents_empty _ Hr). split_and!.
    + by rewrite Fl.
    + intros i Hi. by rewrite (represents_empty _ Hr), Ll.
    + eapply represents_ext; [|eapply (IH l [] _ _); [cbn in *; lia|exact Rl|exact Hr]].
      intros i. cbn. rewrite (represents_empty _ Hr). by cases_leb.
  - cbn [length] in Hn.
    pose proof Hl as (Fl & Ll & Rl)%represents_cons. pose proof Hr as (Fr & Lr & Rr)%represents_cons.
    destruct (Z.ltb_spec (candidate_id c) (candidate_id d)) as [H1|H1].
    { apply represents_cons. split_and!.
      - by rewrite Fl, Lr by lia.
      - intros i Hi. by rewrite Ll, Lr by lia.
      - eapply represents_ext; [|eapply (IH l (d :: r) _ g); [cbn; lia|exact Rl|exact Hr]].
        intros i. cbn. cases_leb; [|done]. by rewrite Lr by lia. }
    destruct (Z.ltb_spec (candidate_id d) (candidate_id c)) as [H2|H2].
    { apply represents_cons. split_and!.
      - by rewrite Fr, Ll by lia.
      - intros i Hi. by rewrite Ll, Lr by lia.
      - eapply represents_ext; [|eapply (IH (c :: l) r f _); [cbn; lia|exact Hl|exact Rr]].
        intros i. cbn. cases_leb; [|done]. by rewrite Ll by lia. }
    assert (candidate_id d = candidate_id c) as Ei by lia.
    apply represents_cons. cbn [candidate_id candidate_score]. split_and!.
    + rewrite Fl, <- Ei, Fr. done.
    + intros i Hi. by rewrite Ll, Lr by lia.
    + eapply represents_ext; [|eapply (IH l r _ _); [lia|exact Rl|exact Rr]].
      intros i. cbn. rewrite Ei. by cases_leb.
Qed.

Lemma unite_spec l r f g : represents l f -> represents r g ->
  represents (unite l r) (fun i => either (f i) (g i)).
Proof. by apply unite_loop_spec. Qed.

Lemma lower_bound_represents k cs f : represents cs f ->
  represents (lower_bound (fun c => candidate_id c <? k) cs) (fun i => if i <? k then None else f i).
Proof.
  revert f. induction cs as [|c cs IH]; intros f H.
  - apply represents_nil. intros i. rewrite (represents_empty _ H). by cases_leb.
  - pose proof H as (F & Lo & R)%represents_cons. cbn [lower_bound].
    destruct (Z.ltb_spec (candidate_id c) k) as [Hk|Hk].
    + eapply represents_ext; [|by apply IH, R]. intros i. cbn. cases_leb; done || lia.
    + eapply represents_ext; [|exact H]. intros i. cbn. cases_leb; [|done]. by rewrite Lo by lia.
Qed.

Lemma exclude_spec us cs u g : represents us u -> represents cs g ->
  represents (exclude us cs) (fun i => match g i with Some _ => None | None => u i end).
Proof.
  revert cs u g. induction us as [|c us IH]; intros cs u g Hu Hg.
  { apply represents_nil. intros i. rewrite (represents_empty _ Hu). by destruct (g i). }
  pose proof Hu as (F & Lo & R)%represents_cons.
  pose proof (lower_bound_represents (candidate_id c) cs g Hg) as Hb. cbn [exclude].
  destruct (lower_bound _ cs) as [|e es] eqn:E.
  - assert (Hg' : forall i, candidate_id c <= i -> g i = None).
    { intros i Hi. pose proof (represents_empty _ Hb i) as Hn. cbn in Hn.
      destruct (Z.ltb_spec i (candidate_id c)); [lia|done]. }
    apply represents_cons. rewrite Hg' by lia. split_and!; [done| |].
    + intros i Hi. rewrite Lo by done. by destruct (g i).
    + eapply represents_ext; [|eapply (IH _ _ _ R Hb)]. intros i. cbn. cases_leb; try lia; try by destruct (g i).
  - pose proof Hb as (Fe & Le & _)%represents_cons. cbn in Fe, Le.
    destruct (Z.ltb_spec (candidate_id c) (candidate_id e)) as [Hlt|Hge].
    + assert (Hgc : g (candidate_id c) = None).
      { specialize (Le (candidate_id c) Hlt). destruct (Z.ltb_spec (candidate_id c) (candidate_id c)); [lia|done]. }
      apply represents_cons. rewrite Hgc. split_and!; [done| |].
      * intros i Hi. rewrite Lo by done. by destruct (g i).
      * eapply represents_ext; [|eapply (IH _ _ _ R Hb)]. intros i. cbn. cases_leb; try lia; try by destruct (g i).
    + destruct (Z.ltb_spec (candidate_id e) (candidate_id c)) as [|Hec]; [done|].
      assert (candidate_id e = candidate_id c) as Ei by lia. rewrite Ei in Fe.
      eapply represents_ext; [|eapply (IH _ _ _ R Hb)]. intros i. cbn. cases_leb; try lia; try by destruct (g i).
      * rewrite Lo by done. by destruct (g i).
      * assert (i = candidate_id c) as -> by lia. by rewrite Fe.
Qed.

(** ** Scores *)

Lemma collect_each_Ok {E A C} (f : A -> expected E C) (g : A -> C) l :
  (forall x, x ∈ l -> f x = Ok (g x)) -> collect_each f l = Ok (map g l).
Proof.
  induction l as [|x l IH]; intros Hf; [done|]. cbn. rewrite Hf by left. cbn.
  rewrite IH; [done|]. intros y Hy. apply Hf. by right.
Qed.

Section with_view.
Context (log1p : double -> double) (scorer : BM25Parameters).
Context (v : SearchIndexView) (schema : IndexSchema) (corpus documents : DocumentRecords).
Context `{L : !CorpusViewLaws v schema corpus documents}.

Notation term_score := (term_score log1p scorer schema corpus).
Notation doc_match := (doc_match log1p scorer schema corpus).

Lemma documents_with_bound field t :
  documents_with schema corpus field t <= zlen (lengths_of schema corpus field).
Proof using Type.
  unfold documents_with, lengths_of, zlen.
  induction (records_of corpus) as [|r l IH]; [done|]. cbn [omap list_omap].
  destruct (posting_of schema field t r) as [p|] eqn:E.
  - apply posting_of_inv in E as (_ & tokens & -> & _). cbn [fmap option_fmap option_map length]. lia.
  - destruct (_ <$> _); cbn [length]; lia.
Qed.

(** The statistics of a field that occurs in some live document. *)
Lemma statistics_positive field r i tokens : view_document_internal v i = Some r ->
  analysed schema r !! field = Some tokens -> tokens <> [] ->
  exists p e, fs_average_length (rebuilt_statistics schema corpus field) = S754_finite false p e /\
    fs_document_count (rebuilt_statistics schema corpus field) =
      zlen (lengths_of schema corpus field) /\
    1 <= zlen (lengths_of schema corpus field).
Proof using L.
  intros Hr Ht Hne. pose proof (view_length_in_statistics _ _ _ _ Hr Ht) as Hin.
  assert (Hf : Forall is_u32 (lengths_of schema corpus field)).
  { apply lengths_of_u32. eapply map_Forall_impl; [apply law_corpus|].
    intros k r' Hr'. apply (ro_small _ _ _ Hr'). }
  pose proof (sum_list_Z_bounds _ Hf) as Hb. pose proof (sum_list_Z_ge _ _ Hf Hin) as Hge.
  pose proof (length_lengths_of schema corpus field) as Hl. pose proof law_size as Hs.
  assert (1 <= zlen tokens) by (destruct tokens; [done|]; rewrite zlen_cons; pose proof (zlen_nonneg tokens); lia).
  assert (1 <= zlen (lengths_of schema corpus field)) as H1.
  { destruct (lengths_of schema corpus field); [by apply not_elem_of_nil in Hin|].
    rewrite zlen_cons. pose proof (zlen_nonneg l). lia. }
  unfold rebuilt_statistics, total_statistics, accumulate.
  destruct (lengths_of schema corpus field) as [|x ls] eqn:E; [by apply not_elem_of_nil in Hin|].
  cbn [InMemoryIndex.statistics_of fs_average_length fs_document_count acc_total_length acc_document_count].
  rewrite <- E in *.
  destruct (d_ratio_pos (sum_list_Z (lengths_of schema corpus field))
    (zlen (lengths_of schema corpus field))) as (p & e & Ed).
  - unfold u64_max, u32_max in *. nia.
  - unfold u64_max, u32_max in *. lia.
  - exists p, e. by split_and!.
Qed.

Lemma score_posting_Ok field t entry p r boost :
  BM25Scorer.boosts_ok boost d_one = true -> view_lookup v field t = Some entry ->
  view_document_internal v (posting_document_id p) = Some r -> posting_of schema field t r = Some p ->
  score_posting log1p v scorer field entry p boost = Ok (term_score field t boost r).
Proof using L.
  intros Hboost He Hr Hp. pose proof Hp as (_ & tokens & Ht & Hocc & Ep)%posting_of_inv.
  unfold score_posting. rewrite Hr.
  destruct (proj1 (law_internal _ _) Hr) as (id & Hid & _).
  rewrite (ro_lengths _ _ _ (law_records _ _ Hid)), lookup_fmap, Ht.
  cbn [fmap option_fmap option_map]. rewrite law_statistics.
  unfold ExecutorSpec.term_score. rewrite Ht. cbn [default option_rect].
  assert (Hdf : Index.document_frequency entry = documents_with schema corpus field t).
  { by apply view_entry in He as [-> _]. }
  rewrite Hdf. rewrite Ep. cbn [Index.term_frequency].
  match goal with |- context [BM25Scorer.score ?a ?b ?c ?d ?e] =>
    assert (Hs : is_Ok (BM25Scorer.score a b c d e) = true) end.
  { assert (tokens <> []) as Hne by by intros ->.
    destruct (statistics_positive _ _ _ _ Hr Ht Hne) as (q & e & Eavg & Ecount & Hcount).
    unfold BM25Scorer.score. rewrite Hboost. cbn [negb].
    unfold BM25Scorer.inconsistent. cbn [Ranking.document_frequency Ranking.document_count
      average_document_length Ranking.term_frequency document_length].
    rewrite Eavg, Ecount. pose proof (documents_with_bound field t) as Hb.
    pose proof (occurrences_length t tokens) as Hol.
    pose proof (view_posting_counted _ _ _ _ _ Hr Hp) as Hcounted.
    destruct (Z.gtb_spec (documents_with schema corpus field t)
      (zlen (lengths_of schema corpus field))); [lia|].
    destruct (Z.gtb_spec (zlen (occurrences t tokens)) (zlen tokens)); [lia|].
    destruct (Z.eqb_spec (documents_with schema corpus field t) 0); [lia|].
    destruct (Z.eqb_spec (zlen (lengths_of schema corpus field)) 0); [lia|].
    cbn [d_finite negb orb d_ltb SFltb SFcompare d_zero d_leb SFleb].
    rewrite andb_false_r. by destruct (_ || _). }
  by destruct (BM25Scorer.score _ _ _ _ _).
Qed.

(** A plan as a function of the internal id. *)
Definition plan_fun (p : Plan) (i : Z) : option double :=
  match view_document_internal v i with
  | Some r => if InMemoryIndex.is_live r then doc_match p r else None
  | None => None
  end.

(** ** Terms *)

Lemma score_term_spec e field t boost : BM25Scorer.boosts_ok boost d_one = true ->
  exists cs, score_term log1p v scorer field t boost = Ok cs /\
    represents cs (plan_fun (PlannedTerm e field t boost)).
Proof using L.
  intros Hb. unfold score_term. destruct (view_lookup v field t) as [entry|] eqn:He.
  2:{ exists []. split; [done|]. apply represents_nil. intros i. unfold plan_fun. cbn.
      destruct (view_document_internal v i) as [r|] eqn:Er; [|done].
      rewrite (view_no_posting _ _ _ _ He Er). by destruct (InMemoryIndex.is_live r). }
  set (g := fun p : Posting => {| candidate_id := posting_document_id p;
    candidate_score := match view_document_internal v (posting_document_id p) with
                       | Some r => term_score field t boost r | None => d_zero end |}).
  exists (map g (postings entry)). split.
  - apply collect_each_Ok. intros p Hp. apply (view_posting _ _ _ _ He) in Hp as (r & Hr & Hpo).
    rewrite (score_posting_Ok _ _ _ _ _ _ Hb He Hr Hpo). unfold g. by rewrite Hr.
  - split.
    + assert ((candidate_id <$> map g (postings entry)) = posting_document_id <$> postings entry) as ->.
      { change (map g (postings entry)) with (g <$> postings entry). by rewrite <- list_fmap_compose. }
      by eapply view_postings_sorted.
    + intros i s. change (map g (postings entry)) with (g <$> postings entry).
      rewrite list_elem_of_fmap. unfold plan_fun. cbn. split.
      * intros (p & E & Hp). apply (view_posting _ _ _ _ He) in Hp as (r & Hr & Hpo).
        unfold g in E. rewrite Hr in E. injection E as -> ->. rewrite Hr, Hpo.
        by apply posting_of_inv in Hpo as [-> _].
      * destruct (view_document_internal v i) as [r|] eqn:Er; [|done].
        destruct (InMemoryIndex.is_live r); [|done].
        destruct (posting_of schema field t r) as [p|] eqn:Hpo; [|done]. intros [= <-].
        assert (posting_document_id p = i) as Ei.
        { rewrite (posting_of_id _ _ _ _ _ Hpo). by apply law_internal in Er as (id & _ & ?). }
        exists p. split.
        -- unfold g. by rewrite Ei, Er.
        -- apply (view_posting _ _ _ _ He). exists r. by rewrite Ei.
Qed.

(** ** Phrases *)

Lemma lower_bound_posting entry i (P : Posting -> Prop) :
  StronglySorted Z.lt (posting_document_id <$> postings entry) ->
  match posting_for entry i with
  | Some p => p ∈ postings entry /\ posting_document_id p = i
  | None => forall p, p ∈ postings entry -> posting_document_id p <> i
  end.
Proof using Type.
  unfold posting_for. induction (postings entry) as [|p l IH]; cbn [lower_bound].
  - intros _ p ?%not_elem_of_nil. done.
  - rewrite fmap_cons. intros [Hs Hp]%StronglySorted_inv. rewrite Forall_fmap, Forall_forall in Hp.
    destruct (Z.ltb_spec (posting_document_id p) i) as [Hlt|Hge].
    + specialize (IH Hs). destruct (lower_bound _ l) as [|q l'].
      * intros q' [->|Hq]%elem_of_cons; [lia|by apply IH].
      * destruct (posting_document_id q =? i).
        -- destruct IH as [IH E]. split; [by right|done].
        -- intros q' [->|Hq]%elem_of_cons; [lia|by apply IH].
    + destruct (Z.eqb_spec (posting_document_id p) i) as [E|E].
      * split; [by left|done].
      * intros q [->|Hq]%elem_of_cons; [done|]. specialize (Hp _ Hq). cbn in Hp. lia.
Qed.

Lemma posting_for_spec field t entry i r : view_lookup v field t = Some entry ->
  view_document_internal v i = Some r -> posting_for entry i = posting_of schema field t r.
Proof using L.
  intros He Hr. pose proof (lower_bound_posting entry i (fun _ => True) (view_postings_sorted _ _ _ He)) as H.
  destruct (posting_for entry i) as [p|] eqn:E.
  - destruct H as [Hp Hi]. apply (view_posting _ _ _ _ He) in Hp as (r' & Hr' & Hpo).
    rewrite Hi in Hr'. congruence.
  - destruct (posting_of schema field t r) as [p|] eqn:Hpo; [|done]. exfalso.
    assert (posting_document_id p = i) as Ei.
    { rewrite (posting_of_id _ _ _ _ _ Hpo). by apply law_internal in Hr as (id & _ & ?). }
    apply (H p); [|done]. apply (view_posting _ _ _ _ He). exists r. by rewrite Ei.
Qed.

Lemma gather_spec field i r anchor anchor_posting tokens : forall entries k,
  view_document_internal v i = Some r -> posting_document_id anchor_posting = i ->
  Forall2 (fun token entry => view_lookup v field (term token) = Some entry) tokens entries ->
  (forall token, tokens !! (anchor - k)%nat = Some token -> (k <= anchor)%nat ->
     posting_of schema field (term token) r = Some anchor_posting) ->
  gather k anchor anchor_posting entries =
  mapM (fun token => posting_of schema field (term token) r) tokens.
Proof using L.
  induction tokens as [|token tokens IH]; intros entries k Hr Hi Hall Hanchor;
    inversion_clear Hall as [|? entry ? entries' He Hall']; [done|].
  cbn [gather mapM]. subst i.
  assert ((if Nat.eqb k anchor then Some anchor_posting
           else posting_for entry (posting_document_id anchor_posting)) =
          posting_of schema field (term token) r) as ->.
  { destruct (Nat.eqb_spec k anchor) as [->|Hne].
    - symmetry. apply Hanchor; [by rewrite Nat.sub_diag|lia].
    - by apply posting_for_spec. }
  destruct (posting_of schema field (term token) r); cbn; [|done].
  rewrite (IH entries' (S k)); [done|done|done|done|].
  intros token' Htok Hle. apply Hanchor; [|lia].
  replace (anchor - k)%nat with (S (anchor - S k)) by lia. done.
Qed.

Lemma binary_search_spec l x : StronglySorted Z.lt l -> binary_search l x = bool_decide (x ∈ l).
Proof using Type.
  unfold binary_search. induction 1 as [|y l Hs IH Hy]; cbn [lower_bound]; [done|].
  rewrite Forall_forall in Hy. destruct (Z.ltb_spec y x) as [Hlt|Hge].
  - rewrite IH. apply bool_decide_ext. rewrite elem_of_cons. split; [by right|]. intros [->|]; [lia|done].
  - destruct (Z.eqb_spec y x) as [->|Hne].
    + symmetry. apply bool_decide_eq_true_2. by left.
    + symmetry. apply bool_decide_eq_false_2. intros [->|Hin]%elem_of_cons; [done|].
      specialize (Hy _ Hin). lia.
Qed.

(** All terms of a matching phrase occur. *)
Lemma phrase_match_occurs document_tokens tokens token : phrase_match document_tokens tokens = true ->
  token ∈ tokens -> occurrences (term token) document_tokens <> [].
Proof using Type.
  destruct tokens as [|first rest]; [done|]. cbn. rewrite existsb_exists.
  intros (base & Hbase & Hat) [->|Hin]%elem_of_cons.
  - intros E. by rewrite E in Hbase.
  - unfold phrase_at in Hat. rewrite forallb_forall in Hat.
    apply list_elem_of_In in Hin. specialize (Hat _ Hin). apply andb_prop in Hat as [_ Hat].
    apply bool_decide_eq_true in Hat. intros E. rewrite E in Hat. by apply not_elem_of_nil in Hat.
Qed.

Lemma existsb_eq {A} (f g : A -> bool) l : (forall x, f x = g x) -> existsb f l = existsb g l.
Proof using Type. intros H. induction l as [|x l IH]; [done|]. cbn. by rewrite H, IH. Qed.

Lemma positions_match_spec field r document_tokens tokens ps :
  analysed schema r !! field = Some document_tokens ->
  mapM (fun token => posting_of schema field (term token) r) tokens = Some ps ->
  positions_match ps tokens = phrase_match document_tokens tokens.
Proof using L.
  intros Ht Hps. apply mapM_Some in Hps.
  assert (Hpos : forall token p, posting_of schema field (term token) r = Some p ->
            positions p = occurrences (term token) document_tokens /\
            StronglySorted Z.lt (occurrences (term token) document_tokens)).
  { intros token p (_ & tokens' & Ht' & _ & ->)%posting_of_inv. rewrite Ht in Ht'. injection Ht' as <-.
    split; [done|]. apply occurrences_sorted. eapply (analysed_laws schema); [apply law_analyzers|done]. }
  destruct Hps as [|first p tokens ps Hp Hps]; [done|].
  cbn [positions_match phrase_match]. rewrite (proj1 (Hpos _ _ Hp)).
  apply existsb_eq. intros base. clear Hp p.
  induction Hps as [|token p tokens ps Hp Hps IH]; [done|].
  cbn [positions_follow phrase_at forallb]. destruct (Hpos _ _ Hp) as [-> Hs].
  rewrite binary_search_spec by done. unfold phrase_at in IH. rewrite IH.
  set (offset := wrap32 _).
  assert ((base >? u32_max - offset) = negb (base + offset <=? u32_max)) as ->.
  { destruct (Z.gtb_spec base (u32_max - offset)), (Z.leb_spec (base + offset) u32_max); done || lia. }
  by destruct (base + offset <=? u32_max), (bool_decide _), (forallb _ _).
Qed.

(** A sorted list of candidates computed one by one. *)
Lemma represents_omap {A} (id : A -> Z) (f : Z -> option double) (l : list A) :
  StronglySorted Z.lt (id <$> l) ->
  represents (omap (fun x => (fun s => {| candidate_id := id x; candidate_score := s |}) <$> f (id x)) l)
    (fun i => if bool_decide (i ∈ id <$> l) then f i else None).
Proof using Type.
  intros Hs. split.
  - eapply StronglySorted_sublist; [|exact Hs]. clear Hs. induction l as [|x l IH]; [constructor|].
    cbn [omap list_omap]. rewrite fmap_cons. destruct (f (id x)); cbn.
    + by constructor.
    + by constructor.
  - intros i s. rewrite list_elem_of_omap. setoid_rewrite fmap_Some. split.
    + intros (x & Hx & s' & Hf & [= -> ->]). rewrite bool_decide_eq_true_2; [done|].
      by apply list_elem_of_fmap_2.
    + case_bool_decide as Hi; [|done]. intros Hf. apply list_elem_of_fmap in Hi as (x & -> & Hx). eauto.
Qed.

Lemma represents_sorted cs f : represents cs f -> sort_by by_id cs = cs.
Proof using Type.
  intros [Hs _]. apply sort_by_id. induction cs as [|c cs IH]; [constructor|].
  rewrite fmap_cons in Hs. apply StronglySorted_inv in Hs as [Hs Hc]. constructor; [by apply IH|].
  rewrite Forall_fmap in Hc. eapply Forall_impl; [exact Hc|]. intros d Hd. cbn in Hd.
  unfold by_id. apply Z.ltb_ge. lia.
Qed.

Lemma anchor_of_lt entries : entries <> [] -> (anchor_of entries < length entries)%nat.
Proof using Type.
  destruct entries as [|e rest]; [done|]. intros _. cbn [anchor_of length].
  assert (H : forall (l : list TermEntry) (i a : nat) (b : Z), (a < i)%nat ->
    ((foldl (fun '(i, anchor, best) entry =>
         if (zlen (postings entry) <? best)%Z then (S i, i, zlen (postings entry))
         else (S i, anchor, best)) (i, a, b) l).1.2 < i + length l)%nat).
  { induction l as [|x l IH]; intros i a b Hlt; cbn [foldl length]; [cbn; lia|].
    destruct (_ <? _).
    - pose proof (IH (S i) i (zlen (postings x))). lia.
    - pose proof (IH (S i) a b). lia. }
  pose proof (H rest 1%nat 0%nat (zlen (postings e))). lia.
Qed.

Lemma phrase_score_Ok field boost r entries tokens ps : forall s,
  BM25Scorer.boosts_ok boost d_one = true ->
  Forall2 (fun token entry => view_lookup v field (term token) = Some entry) tokens entries ->
  Forall2 (fun token p => posting_of schema field (term token) r = Some p) tokens ps ->
  view_document_internal v (internal_id r) = Some r ->
  phrase_score log1p v scorer field boost s entries ps =
  Ok (foldl (fun s token => d_add s (term_score field (term token) boost r)) s tokens).
Proof using L.
  intros s Hb He. revert ps s. induction He as [|token entry tokens entries He Hall IH]; intros ps s Hps Hr;
    inversion_clear Hps as [|? p ? ps' Hp Hps']; [done|].
  cbn [phrase_score foldl]. erewrite score_posting_Ok; [|done|exact He| |exact Hp].
  - cbn. by apply IH.
  - by rewrite (posting_of_id _ _ _ _ _ Hp).
Qed.

Lemma phrase_none field r document_tokens tokens :
  analysed schema r !! field = Some document_tokens ->
  mapM (fun token => posting_of schema field (term token) r) tokens = None ->
  phrase_match document_tokens tokens = false.
Proof using Type.
  intros Ht Hn. destruct (phrase_match document_tokens tokens) eqn:E; [|done].
  apply mapM_None_1 in Hn. apply Exists_exists in Hn as (token & Hin & Hn).
  pose proof (phrase_match_occurs _ _ _ E Hin) as Ho.
  unfold posting_of in Hn. rewrite Ht in Hn. cbn in Hn. by destruct (occurrences _ _).
Qed.

Lemma live_of_posting field t r p : posting_of schema field t r = Some p -> InMemoryIndex.is_live r = true.
Proof using Type. by intros [? _]%posting_of_inv. Qed.

Lemma phrase_loop_spec e field tokens boost entries anchor entry aps :
  BM25Scorer.boosts_ok boost d_one = true ->
  Forall2 (fun token entry => view_lookup v field (term token) = Some entry) tokens entries ->
  entries !! anchor = Some entry -> (forall p, p ∈ aps -> p ∈ postings entry) ->
  phrase_loop log1p v scorer field tokens boost entries anchor aps =
  Ok (omap (fun p => (fun s => {| candidate_id := posting_document_id p; candidate_score := s |}) <$>
              plan_fun (PlannedPhrase e field tokens boost) (posting_document_id p)) aps).
Proof using L.
  intros Hb Hall Ha. induction aps as [|p aps IH]; intros Hin; [done|].
  assert (IH' := IH (fun q Hq => Hin q (list_elem_of_further _ _ _ Hq))). clear IH.
  destruct (Forall2_lookup_r _ _ _ _ _ Hall Ha) as (token & Htok & He).
  pose proof (Hin p (list_elem_of_here _ _)) as Hp. apply (view_posting _ _ _ _ He) in Hp as (r & Hr & Hpo).
  pose proof Hpo as (Hlive & document_tokens & Ht & _ & _)%posting_of_inv.
  assert (internal_id r = posting_document_id p) as Hid by by rewrite (posting_of_id _ _ _ _ _ Hpo).
  cbn [phrase_loop omap list_omap]. unfold plan_fun at 1. rewrite Hr, Hlive. cbn [ExecutorSpec.doc_match].
  rewrite Ht.
  rewrite (gather_spec field _ r anchor p tokens entries 0 Hr eq_refl Hall).
  2:{ intros token' Htok' _. rewrite Nat.sub_0_r, Htok in Htok'. by injection Htok' as <-. }
  destruct (mapM _ tokens) as [ps|] eqn:Hps.
  - rewrite (positions_match_spec _ _ _ _ _ Ht Hps). destruct (phrase_match document_tokens tokens); [|done].
    apply mapM_Some in Hps. rewrite (phrase_score_Ok _ _ r _ tokens); [|done..|by rewrite Hid].
    cbn. by rewrite IH'.
  - by rewrite (phrase_none _ _ _ _ Ht Hps).
Qed.

Lemma phrase_spec e field tokens boost : BM25Scorer.boosts_ok boost d_one = true ->
  exists cs, evaluate_phrase log1p v scorer field tokens boost = Ok cs /\
    represents cs (plan_fun (PlannedPhrase e field tokens boost)).
Proof using L.
  intros Hb.
  assert (Hnone : forall t, t ∈ tokens -> view_lookup v field (term t) = None ->
            exists cs, Ok (E := ExecutionError) [] = Ok cs /\ represents cs (plan_fun (PlannedPhrase e field tokens boost))).
  { intros t Ht Hl. exists []. split; [done|]. apply represents_nil. intros i. unfold plan_fun. cbn.
    destruct (view_document_internal v i) as [r|] eqn:Er; [|done].
    destruct (InMemoryIndex.is_live r); [|done].
    destruct (analysed schema r !! field) as [dt|] eqn:Ea; [|done].
    destruct (phrase_match dt tokens) eqn:Em; [|done].
    pose proof (phrase_match_occurs _ _ _ Em Ht) as Ho.
    pose proof (view_no_posting _ _ _ _ Hl Er) as Hn. unfold posting_of in Hn. rewrite Ea in Hn.
    cbn in Hn. by destruct (occurrences _ _). }
  unfold evaluate_phrase. destruct tokens as [|t0 rest] eqn:Etokens.
  { exists []. split; [done|]. apply represents_nil. intros i. unfold plan_fun. cbn.
    destruct (view_document_internal v i) as [r|]; [|done]. destruct (InMemoryIndex.is_live r); [|done].
    by destruct (analysed schema r !! field). }
  rewrite <- Etokens in *. destruct (mapM _ tokens) as [entries|] eqn:Hm.
  2:{ apply mapM_None_1, Exists_exists in Hm as (t & Ht & Hl). by eapply Hnone. }
  apply mapM_Some in Hm.
  assert (Hlt : (anchor_of entries < length entries)%nat).
  { apply anchor_of_lt. intros ->. apply Forall2_length in Hm. by subst. }
  apply lookup_lt_is_Some_2 in Hlt as [entry Ha]. rewrite Ha.
  rewrite (phrase_loop_spec e _ _ _ _ _ entry (postings entry) Hb Hm Ha) by done. cbn [mbind expected_bind].
  destruct (Forall2_lookup_r _ _ _ _ _ Hm Ha) as (t & Ht & He).
  pose proof (represents_omap posting_document_id (plan_fun (PlannedPhrase e field tokens boost)) (postings entry)
    (view_postings_sorted _ _ _ He)) as R.
  rewrite (represents_sorted _ _ R). eexists. split; [reflexivity|].
  eapply represents_ext; [|exact R]. intros i. cbn. case_bool_decide as Hi; [done|].
  unfold plan_fun. cbn. destruct (view_document_internal v i) as [r|] eqn:Er; [|done].
  destruct (InMemoryIndex.is_live r); [|done].
  destruct (analysed schema r !! field) as [dt|] eqn:Ea; [|done].
  destruct (phrase_match dt tokens) eqn:Em; [|done]. exfalso. apply Hi.
  pose proof (phrase_match_occurs _ _ _ Em (list_elem_of_lookup_2 _ _ _ Ht)) as Ho.
  destruct (posting_of schema field (term t) r) as [p|] eqn:Hpo.
  2:{ unfold posting_of in Hpo. rewrite Ea in Hpo. cbn in Hpo. by destruct (occurrences _ _). }
  assert (posting_document_id p = i) as <-.
  { rewrite (posting_of_id _ _ _ _ _ Hpo). by apply law_internal in Er as (id & _ & ?). }
  apply list_elem_of_fmap_2. apply (view_posting _ _ _ _ He). by exists r.
Qed.

(** ** Whole plans *)

Lemma omap_ext_in {A B} (f g : A -> option B) (l : list A) : (forall x, x ∈ l -> f x = g x) -> omap f l = omap g l.
Proof using Type.
  induction l as [|x l IH]; intros H; [done|]. cbn [omap list_omap]. rewrite (H x) by left.
  rewrite IH; [done|]. intros y Hy. apply H. by right.
Qed.

(** What holds of every live document, one after the other. *)
Lemma represents_live p g :
  (forall i r, view_document_internal v i = Some r -> InMemoryIndex.is_live r = true ->
     g i = (fun s => {| candidate_id := i; candidate_score := s |}) <$> doc_match p r) ->
  represents (omap g (view_live_document_ids v)) (plan_fun p).
Proof using L.
  intros Hg.
  rewrite (omap_ext_in _ (fun i => (fun s => {| candidate_id := id i; candidate_score := s |}) <$>
                            plan_fun p (id i))).
  2:{ intros i (r & Hr & Hl)%view_live_record. rewrite (Hg _ _ Hr Hl). unfold plan_fun, id. by rewrite Hr, Hl. }
  pose proof (represents_omap id (plan_fun p) (view_live_document_ids v)) as R.
  rewrite list_fmap_id in R. eapply represents_ext; [|apply R, law_live_sorted].
  intros i. cbn. case_bool_decide as Hi; [done|]. unfold plan_fun.
  destruct (view_document_internal v i) as [r|] eqn:Er; [|done].
  destruct (InMemoryIndex.is_live r) eqn:El; [|done]. exfalso. apply Hi, view_live_record. eauto.
Qed.

Lemma universe_spec e : represents (universe v) (plan_fun (PlannedMatchAll e)).
Proof using L.
  unfold universe. assert (Homap : forall l : list Z, map (fun id => {| candidate_id := id; candidate_score := d_zero |}) l =
    omap (fun id => Some {| candidate_id := id; candidate_score := d_zero |}) l).
  { induction l as [|x l IH]; [done|]. cbn. by rewrite IH. }
  rewrite Homap. by apply represents_live.
Qed.

Lemma range_spec e field lower upper il iu : is_Some (IndexSchema.find schema field) ->
  exists cs, evaluate_range v field lower upper il iu = Ok cs /\
    represents cs (plan_fun (PlannedRange e field lower upper il iu)).
Proof using L.
  intros [definition Hd]. unfold evaluate_range. rewrite law_schema, Hd.
  eexists. split; [reflexivity|]. apply represents_live. intros i r Hr _. cbn. rewrite Hr, Hd.
  destruct (field_value r field); [|done]. by destruct (range_matches _ _ _ _ _ _).
Qed.

Lemma foldl_both_None l : foldl both None l = None.
Proof using Type. induction l as [|x l IH]; [done|]. cbn. done. Qed.

Lemma plan_fun_and e first rest i :
  plan_fun (PlannedAnd e (first :: rest)) i =
  foldl both (plan_fun first i) (map (fun c => plan_fun c i) rest).
Proof using Type.
  unfold plan_fun. destruct (view_document_internal v i) as [r|].
  2:{ by rewrite foldl_both_None. }
  destruct (InMemoryIndex.is_live r); [done|]. by rewrite foldl_both_None.
Qed.

Lemma plan_fun_or e children i :
  plan_fun (PlannedOr e children) i = foldl either None (map (fun c => plan_fun c i) children).
Proof using Type.
  assert (Hnone : foldl either None (map (fun _ : Plan => None) children) = None)
    by (induction children as [|c cs IH]; done).
  unfold plan_fun. destruct (view_document_internal v i) as [r|]; [|done].
  by destruct (InMemoryIndex.is_live r).
Qed.

Definition evaluates (p : Plan) : Prop :=
  exists cs, evaluate log1p v scorer p = Ok cs /\ represents cs (plan_fun p).

Lemma and_loop_spec rest : Forall evaluates rest -> forall result f, represents result f ->
  exists cs, and_loop (evaluate log1p v scorer) result rest = Ok cs /\
    represents cs (fun i => foldl both (f i) (map (fun c => plan_fun c i) rest)).
Proof using Type.
  induction 1 as [|child rest (cs & Hcs & R) _ IH]; intros result f Hf; [by exists result|].
  cbn [and_loop]. rewrite Hcs. cbn [mbind expected_bind].
  pose proof (intersect_spec _ _ _ _ Hf R) as Hi.
  destruct (intersect result cs) as [|c ds] eqn:E.
  - exists []. split; [done|]. apply represents_nil. intros i. cbn.
    by rewrite (represents_empty _ Hi i), foldl_both_None.
  - by apply IH.
Qed.

Lemma or_loop_spec rest : Forall evaluates rest -> forall result f, represents result f ->
  exists cs, or_loop (evaluate log1p v scorer) result rest = Ok cs /\
    represents cs (fun i => foldl either (f i) (map (fun c => plan_fun c i) rest)).
Proof using Type.
  induction 1 as [|child rest (cs & Hcs & R) _ IH]; intros result f Hf; [by exists result|].
  cbn [or_loop]. rewrite Hcs. cbn [mbind expected_bind]. by apply IH, unite_spec.
Qed.

Definition plans_ok : list Plan -> Prop :=
  fix all l := match l with [] => True | c :: l' => plan_ok schema c /\ all l' end.

Lemma plans_evaluate cs : Forall (fun c => plan_ok schema c -> evaluates c) cs -> plans_ok cs ->
  Forall evaluates cs.
Proof using Type. induction 1 as [|c cs Hc _ IH]; [done|]. intros [? ?]. constructor; auto. Qed.

Lemma evaluate_represents p : plan_ok schema p -> evaluates p.
Proof using L.
  induction p as [e f t b|e f ts b|e cs IH|e cs IH|e q IH|e f lo hi il iu|e] using plan_induction;
    intros Hok; unfold evaluates.
  - by apply score_term_spec.
  - by apply phrase_spec.
  - pose proof (plans_evaluate _ IH Hok) as Hall. cbn [evaluate].
    destruct Hall as [|first rest (cs & Hcs & R) Hall].
    + exists []. split; [done|]. apply represents_nil. intros i. unfold plan_fun. cbn.
      destruct (view_document_internal v i) as [r|]; [|done]. by destruct (InMemoryIndex.is_live r).
    + rewrite Hcs. cbn [mbind expected_bind].
      destruct (and_loop_spec rest Hall cs _ R) as (ds & -> & R'). exists ds. split; [done|].
      eapply represents_ext; [|exact R']. intros i. by rewrite plan_fun_and.
  - pose proof (plans_evaluate _ IH Hok) as Hall. cbn [evaluate].
    destruct (or_loop_spec cs Hall [] (fun _ => None)) as (ds & -> & R); [by apply represents_nil|].
    exists ds. split; [done|]. eapply represents_ext; [|exact R]. intros i. by rewrite plan_fun_or.
  - destruct (IH Hok) as (cs & Hcs & R). cbn [evaluate]. rewrite Hcs. cbn [mbind expected_bind].
    eexists. split; [reflexivity|]. eapply represents_ext; [|apply (exclude_spec _ _ _ _ (universe_spec 0) R)].
    intros i. unfold plan_fun. cbn. destruct (view_document_internal v i) as [r|]; [|done].
    by destruct (InMemoryIndex.is_live r).
  - by apply range_spec.
  - exists (universe v). split; [done|]. apply universe_spec.
Qed.
End with_view.
