(* ===== verification/SearchSpec.v ===== *)
(** * Search and explanation, end to end

    What [QueryExecutor::search] and [explain] return, as a function of the
    documents alone: the matching live documents with their scores, ordered by
    the public order and cut at [top_k].  Proved over [IndexViewLaws], so for
    every index that satisfies the contract. *)

From S2P Require Import Prelude Text Doubles Analysis Schema Types Index IndexSpec IndexChecks.
From S2P Require Import ViewSpec Ranking Query Plan Planner Executor ExecutorSpec.
From Stdlib Require Import SpecFloat.

(** ** The expected answers *)

Section answers.
Context (log1p : double -> double) (scorer : BM25Parameters).
Context (schema : IndexSchema) (corpus : DocumentRecords).
Notation doc_match := (doc_match log1p scorer schema corpus).

(** A live document's match; deleted ones match nothing. *)
Definition live_match (p : Plan) (r : DocumentRecord) : option double :=
  if InMemoryIndex.is_live r then doc_match p r else None.

(** Every document that matches, with its score. *)
Definition matching (documents : DocumentRecords) (p : Plan) : list ScoredDocument :=
  omap (fun '(id, r) => (fun s => {| scored_id := id; score := s |}) <$> live_match p r)
    (map_items documents).

Definition hit_of (scored : ScoredDocument) : SearchHit :=
  {| hit_document_id := scored_id scored; hit_score := score scored |}.

Definition expected_result (documents : DocumentRecords) (p : Plan) (k : Z)
    : expected ExecutionError SearchResult :=
  let all := matching documents p in
  if forallb finite_score all then
    Ok {| hits := hit_of <$> take (Z.to_nat k) (sort_by BetterScore all); total_hits := zlen all |}
  else Err (exec_error exec_ranking_error "non-finite score").

(** A tree explains a plan on a document when every node carries its own
    canonical text, whether it matched and its score, down to the leaves. *)
Definition node_explains (p : Plan) (r : DocumentRecord) (tree : ScoreExplanation) : Prop :=
  description tree = canonicalize p /\
  matched tree = bool_decide (is_Some (live_match p r)) /\
  explained_score tree = default d_zero (live_match p r).

(** The term leaves also carry the figures their score is computed from. *)
Definition term_figures (field t : string) (boost : double) (r : DocumentRecord)
    (tree : ScoreExplanation) : Prop :=
  node_type tree = "term" /\ explained_field tree = field /\ explained_term tree = t /\
  explained_boost tree = boost /\
  corpus_documents tree = fs_document_count (rebuilt_statistics schema corpus field) /\
  average_field_length tree = fs_average_length (rebuilt_statistics schema corpus field) /\
  explained_document_frequency tree = documents_with schema corpus field t /\
  explained_term_frequency tree = zlen (occurrences t (default [] (analysed schema r !! field))) /\
  explained_document_length tree = zlen (default [] (analysed schema r !! field)) /\
  explanation_children tree = [].

Fixpoint explains (p : Plan) (r : DocumentRecord) (tree : ScoreExplanation) : Prop :=
  node_explains p r tree /\
  match p with
  | PlannedTerm _ field t boost => term_figures field t boost r tree
  | PlannedPhrase _ field tokens boost =>
      Forall2 (fun token child =>
          node_explains (PlannedTerm 0 field (term token) boost) r child /\
          term_figures field (term token) boost r child)
        tokens (explanation_children tree)
  | PlannedAnd _ children | PlannedOr _ children =>
      (fix all (ps : list Plan) (trees : list ScoreExplanation) : Prop :=
         match ps, trees with
         | [], [] => True
         | p' :: ps', tree' :: trees' => explains p' r tree' /\ all ps' trees'
         | _, _ => False
         end) children (explanation_children tree)
  | PlannedNot _ operand =>
      match explanation_children tree with [child] => explains operand r child | _ => False end
  | PlannedRange _ _ _ _ _ _ | PlannedMatchAll _ => explanation_children tree = []
  end.
End answers.

(** ** Search *)

Section search.
Context (log1p : double -> double) (scorer : BM25Parameters) (executor : QueryExecutor).
Context (schema : IndexSchema) (corpus documents : DocumentRecords).
Context `{L : !CorpusViewLaws (executor_index executor) schema corpus documents}.
Context (Hscorer : executor_scorer executor = Ok scorer).
Notation v := (executor_index executor).
Notation live_match := (live_match log1p scorer schema corpus).
Notation matching := (matching log1p scorer schema corpus documents).
Notation plan_fun := (plan_fun log1p scorer v schema corpus).

Lemma plan_fun_record p id r : documents !! id = Some r -> plan_fun p (internal_id r) = live_match p r.
Proof using L. intros Hr. unfold ExecutorSpec.plan_fun. by rewrite (view_internal_record _ _ Hr). Qed.

Lemma plan_fun_Some p i s : plan_fun p i = Some s <->
  exists id r, documents !! id = Some r /\ internal_id r = i /\ live_match p r = Some s.
Proof using L.
  split.
  - unfold ExecutorSpec.plan_fun. destruct (view_document_internal v i) as [r|] eqn:E; [|done].
    apply law_internal in E as (id & Hr & Hi). intros H. by exists id, r.
  - intros (id & r & Hr & <- & Hm). by rewrite (plan_fun_record _ _ _ Hr).
Qed.

Lemma elem_of_matching p id s : {| scored_id := id; score := s |} ∈ matching p <->
  exists r, documents !! id = Some r /\ live_match p r = Some s.
Proof using Type.
  unfold SearchSpec.matching. rewrite list_elem_of_omap. split.
  - intros ([id' r] & Hin & (s' & Hm & [= -> ->])%fmap_Some). exists r.
    by apply elem_of_map_items in Hin.
  - intros (r & Hr & Hm). exists (id, r). rewrite Hm. split; [by apply elem_of_map_items|done].
Qed.

Lemma NoDup_matching p : NoDup (scored_id <$> matching p).
Proof using Type.
  unfold SearchSpec.matching. eapply sublist_NoDup; [apply (NoDup_fst_map_items documents)|].
  induction (map_items documents) as [|[id r] l IH]; [done|]. cbn [omap list_omap].
  destruct (live_match p r); cbn; by constructor.
Qed.

(** The candidates with their external ids. *)
Definition external (c : Candidate) : ScoredDocument :=
  {| scored_id := default "" (view_external_id v (candidate_id c)); score := candidate_score c |}.

Lemma candidate_external p cs c : represents cs (plan_fun p) -> c ∈ cs ->
  exists id r, view_external_id v (candidate_id c) = Some id /\ documents !! id = Some r /\
    live_match p r = Some (candidate_score c).
Proof using L.
  intros [_ Hm] Hc. rewrite (candidate_eta c) in Hc. apply Hm, plan_fun_Some in Hc as (id & r & Hr & Hi & E).
  exists id, r. split_and!; [|done|done]. apply law_external. eauto.
Qed.

Lemma matching_perm p cs : represents cs (plan_fun p) -> external <$> cs ≡ₚ matching p.
Proof using L.
  intros R. apply NoDup_Permutation.
  - apply (NoDup_fmap_1 scored_id). pose proof R as [Hs _].
    assert (Hnd : NoDup (candidate_id <$> cs)).
    { clear R. induction Hs as [|i l Hs IH Hi]; constructor; [|done].
      rewrite Forall_forall in Hi. intros Hin. specialize (Hi _ Hin). lia. }
    rewrite <- list_fmap_compose. apply NoDup_fmap_2_strong; [|by eapply NoDup_fmap_1].
    intros c d Hc Hd. cbn.
    destruct (candidate_external p cs c R Hc) as (id & r & Ec & Hr & _).
    destruct (candidate_external p cs d R Hd) as (id' & r' & Ed & Hr' & _).
    rewrite Ec, Ed. cbn. intros ->. apply (NoDup_fmap_inj candidate_id cs); [done..|].
    apply law_external in Ec as (q & Hq & <-), Ed as (q' & Hq' & <-). congruence.
  - eapply NoDup_fmap_1, NoDup_matching.
  - intros [id s]. rewrite elem_of_matching, list_elem_of_fmap. split.
    + intros (c & E & Hc). destruct (candidate_external p cs c R Hc) as (id' & r & Ec & Hr & Hm).
      unfold external in E. rewrite Ec in E. injection E as -> ->. by exists r.
    + intros (r & Hr & Hm). exists {| candidate_id := internal_id r; candidate_score := s |}. split.
      * unfold external. cbn. assert (view_external_id v (internal_id r) = Some id) as ->; [|done].
        apply law_external. eauto.
      * apply R, plan_fun_Some. by exists id, r.
Qed.

(** The collector's loop, on candidates the index knows. *)
Lemma collect_candidates cs : forall collector,
  (forall c, c ∈ cs -> is_Some (view_external_id v (candidate_id c))) ->
  fold_each (collect_candidate executor) collector cs =
  if forallb finite_score (external <$> cs)
  then Ok (TopKCollector.collect_all collector (external <$> cs))
  else Err (exec_error exec_ranking_error "non-finite score").
Proof using Type.
  induction cs as [|c cs IH]; intros collector Hext; [done|]. cbn [fold_each].
  unfold collect_candidate at 1. destruct (Hext c (list_elem_of_here _ _)) as [id Hid]. rewrite Hid.
  rewrite fmap_cons. cbn [forallb].
  assert (external c = {| scored_id := id; score := candidate_score c |}) as Ec
    by (unfold external; by rewrite Hid).
  rewrite <- Ec. unfold TopKCollector.collect_all. cbn [foldl].
  assert (Hacc : (TopKCollector.collect collector (external c)).1 = finite_score (external c)).
  { unfold TopKCollector.collect, finite_score. destruct (d_finite _); [|done]. cbn [negb].
    destruct (_ =? _); [done|]. destruct (_ <? _); [done|].
    destruct (TopKCollector.heap_ collector) as [|x l]; [done|]. by destruct (TopKCollector.worst x l). }
  destruct (TopKCollector.collect collector (external c)) as [accepted collector']. cbn in Hacc. subst accepted.
  destruct (finite_score (external c)); cbn [andb snd]; [|done].
  apply IH. intros d Hd. apply Hext. by right.
Qed.

Lemma forallb_perm {A} (f : A -> bool) l l' : l ≡ₚ l' -> forallb f l = forallb f l'.
Proof using Type. induction 1; cbn; [done|congruence| |congruence]. by destruct (f x), (f y). Qed.

Lemma search_plan_matching p k : plan_ok schema p -> 0 <= k ->
  search_plan log1p executor p k = expected_result log1p scorer schema corpus documents p k.
Proof using L Hscorer.
  intros Hok Hk. unfold search_plan, expected_result. rewrite Hscorer.
  destruct (evaluate_represents log1p scorer v schema corpus documents p Hok) as (cs & -> & R).
  cbn [mbind expected_bind]. pose proof (matching_perm _ _ R) as Hp.
  rewrite collect_candidates.
  2:{ intros c Hc. destruct (candidate_external _ _ _ R Hc) as (id & r & E & _). by rewrite E. }
  rewrite (forallb_perm _ _ _ Hp). destruct (forallb finite_score (matching p)) eqn:Ef; [|done].
  cbn [mbind expected_bind]. f_equal.
  assert (Hall : Forall (fun c => finite_score c = true) (external <$> cs)).
  { rewrite Forall_forall. rewrite forallb_forall in Ef. intros x Hx. apply Ef, list_elem_of_In.
    by rewrite <- Hp. }
  assert (Hnd : NoDup (scored_id <$> (external <$> cs))) by (rewrite Hp; apply NoDup_matching).
  f_equal.
  - rewrite top_k_exact by done. rewrite <- (sort_scores_perm _ _ Hp) by done.
    rewrite filter_all; [done|]. by apply Forall_forall.
  - unfold zlen. rewrite <- Hp. by rewrite length_fmap.
Qed.

End search.

(** ** Explanation *)

Section explanation.
Context (log1p : double -> double) (scorer : BM25Parameters) (executor : QueryExecutor).
Context (schema : IndexSchema) (documents : DocumentRecords).
Context `{L : !IndexViewLaws (executor_index executor) schema documents}.
Context (Hscorer : executor_scorer executor = Ok scorer).
Notation v := (executor_index executor).
Notation live_match := (live_match log1p scorer schema documents).
Notation plan_fun := (plan_fun log1p scorer v schema documents).

Lemma find_candidate_spec cs f i : represents cs f -> find_candidate cs i = f i.
Proof using Type.
  intros R. pose proof (lower_bound_represents i cs f R) as Hb. unfold find_candidate.
  destruct (lower_bound _ cs) as [|c rest].
  - pose proof (represents_empty _ Hb i) as E. cbn in E. by destruct (Z.ltb_spec i i); [lia|].
  - apply represents_cons in Hb as (Hc & Hlow & _). cbn in Hc, Hlow.
    destruct (Z.eqb_spec (candidate_id c) i) as [<-|Hne].
    + by destruct (Z.ltb_spec (candidate_id c) (candidate_id c)); [lia|].
    + destruct (Z.ltb_spec (candidate_id c) i) as [|Hge]; [done|].
      specialize (Hlow i ltac:(lia)). by destruct (Z.ltb_spec i i); [lia|].
Qed.

Lemma node_explained p id r cs children : documents !! id = Some r -> represents cs (plan_fun p) ->
  node_explains log1p scorer schema documents p r (explain_node v p cs (internal_id r) children) /\
  explanation_children (explain_node v p cs (internal_id r) children) = children.
Proof using L.
  intros Hr R. unfold explain_node, node_explains.
  rewrite (find_candidate_spec _ _ _ R), (plan_fun_record log1p scorer executor schema documents documents _ _ _ Hr).
  by destruct p.
Qed.

Lemma term_explained e field t boost key r cs : documents !! key = Some r ->
  term_figures schema documents field t boost r
    (explain_node v (PlannedTerm e field t boost) cs (internal_id r) []).
Proof using L.
  intros Hr. pose proof (view_internal_record _ _ Hr) as Hi. unfold explain_node, term_figures.
  cbn [node_type explained_field explained_term explained_boost corpus_documents average_field_length
    explained_document_frequency explained_term_frequency explained_document_length explanation_children].
  rewrite law_statistics, Hi. split_and!; try done.
  - destruct (view_lookup v field t) as [entry|] eqn:He.
    + by apply view_entry in He as [-> _].
    + by rewrite (no_documents_with _ _ _ _ (view_no_entry _ _ He)).
  - destruct (view_lookup v field t) as [entry|] eqn:He.
    + cbn [mbind option_bind]. rewrite (posting_for_spec v schema documents documents field t entry _ r He Hi).
      unfold posting_of. destruct (analysed schema r !! field) as [tokens|]; [|done]. cbn [mbind option_bind default from_option option_rect id].
      by destruct (occurrences t tokens).
    + pose proof (view_no_posting _ _ _ _ He Hi) as Hn. cbn [mbind option_bind]. unfold posting_of in Hn.
      destruct (analysed schema r !! field) as [tokens|]; [|done]. cbn [mbind option_bind default from_option option_rect id] in *.
      by destruct (occurrences t tokens).
  - cbn. rewrite (ro_lengths _ _ _ (law_records _ _ Hr)), lookup_fmap.
    by destruct (analysed schema r !! field).
Qed.

Lemma collect_each_Forall2 {A C} (f : A -> expected ExecutionError C) (P : A -> C -> Prop) l :
  Forall (fun x => exists y, f x = Ok y /\ P x y) l ->
  exists ys, collect_each f l = Ok ys /\ Forall2 P l ys.
Proof using Type.
  induction 1 as [|x l (y & Hy & HP) _ (ys & Hys & Hall)]; [by exists []|].
  exists (y :: ys). cbn. rewrite Hy. cbn. rewrite Hys. split; [done|by constructor].
Qed.

Definition explained_ok (r : DocumentRecord) (p : Plan) : Prop :=
  exists tree, explain_plan log1p v scorer (internal_id r) p = Ok tree /\
    explains log1p scorer schema documents p r tree.

Lemma explains_children r children trees :
  Forall2 (fun p tree => explains log1p scorer schema documents p r tree) children trees ->
  (fix all (ps : list Plan) (trees : list ScoreExplanation) : Prop :=
     match ps, trees with
     | [], [] => True
     | p' :: ps', tree' :: trees' =>
         explains log1p scorer schema documents p' r tree' /\ all ps' trees'
     | _, _ => False
     end) children trees.
Proof using Type. by induction 1. Qed.

Lemma plans_explained r cs : Forall (fun c => plan_ok schema c -> explained_ok r c) cs ->
  plans_ok schema cs -> Forall (explained_ok r) cs.
Proof using Type. induction 1 as [|c cs Hc _ IH]; [done|]. intros [? ?]. constructor; auto. Qed.

Lemma explain_plan_explains p id r : documents !! id = Some r -> plan_ok schema p -> explained_ok r p.
Proof using L.
  intros Hr.
  induction p as [e f t b|e f ts b|e cs IH|e cs IH|e q IH|e f lo hi il iu|e] using plan_induction;
    intros Hok; unfold explained_ok;
    match type of Hok with plan_ok _ ?p =>
      destruct (evaluate_represents log1p scorer v schema documents documents p Hok) as (candidates & Hcs & R) end;
    cbn [explain_plan]; rewrite Hcs; cbn [mbind expected_bind].
  - eexists. split; [reflexivity|]. split; [by eapply node_explained|]. by eapply term_explained.
  - destruct (collect_each_Forall2 (explain_term log1p v scorer (internal_id r) f b)
      (fun token child => node_explains log1p scorer schema documents (PlannedTerm 0 f (term token) b) r child /\
          term_figures schema documents f (term token) b r child) ts) as (trees & -> & Hall).
    { apply Forall_forall. intros token _. unfold explain_term.
      destruct (evaluate_represents log1p scorer v schema documents documents (PlannedTerm 0 f (term token) b) Hok)
        as (ds & -> & R'). eexists. split; [reflexivity|].
      split; [by eapply node_explained|by eapply term_explained]. }
    eexists. split; [reflexivity|]. split; [by eapply node_explained|]. exact Hall.
  - destruct (collect_each_Forall2 _ _ _ (plans_explained _ _ IH Hok)) as (trees & -> & Hall).
    eexists. split; [reflexivity|]. split; [by eapply node_explained|]. by apply explains_children.
  - destruct (collect_each_Forall2 _ _ _ (plans_explained _ _ IH Hok)) as (trees & -> & Hall).
    eexists. split; [reflexivity|]. split; [by eapply node_explained|]. by apply explains_children.
  - destruct (IH Hok) as (child & -> & Hc). cbn [mbind expected_bind].
    eexists. split; [reflexivity|]. split; [by eapply node_explained|]. exact Hc.
  - eexists. split; [reflexivity|]. split; [by eapply node_explained|]. done.
  - eexists. split; [reflexivity|]. split; [by eapply node_explained|]. done.
Qed.
End explanation.

(** ** Properties *)

(** C2.  Posting-list evaluation computes the document-at-a-time meaning: on
    every index that satisfies the view contract, and for every plan whose
    boosts are finite and non-negative and whose ranges name declared fields,
    [evaluate] returns a list without error, strictly increasing in the
    internal id, that holds exactly the live documents the plan matches, each
    with its score: the merges, the phrase search from the rarest term and the
    early exit of AND lose and invent nothing. *)
Theorem evaluate_spec log1p scorer v schema documents p :
  IndexViewLaws v schema documents -> plan_ok schema p ->
  exists cs, evaluate log1p v scorer p = Ok cs /\
    StronglySorted Z.lt (candidate_id <$> cs) /\
    forall i s, {| candidate_id := i; candidate_score := s |} ∈ cs <->
      exists id r, documents !! id = Some r /\ internal_id r = i /\
        InMemoryIndex.is_live r = true /\ doc_match log1p scorer schema documents p r = Some s.
Proof.
  intros L Hok.
  destruct (evaluate_represents log1p scorer v schema documents documents p Hok) as (cs & Hcs & Hs & Hm).
  exists cs. split_and!; [done..|]. intros i s. rewrite Hm.
  set (executor := {| executor_index := v; executor_scorer := Ok scorer |}).
  change v with (executor_index executor) in L |- *.
  rewrite (plan_fun_Some log1p scorer executor schema documents documents). split.
  - intros (id & r & Hr & Hi & Hl). exists id, r. unfold live_match in Hl.
    by destruct (InMemoryIndex.is_live r).
  - intros (id & r & Hr & Hi & Hl & Hmatch). exists id, r. unfold live_match. by rewrite Hl.
Qed.

Definition sample_plan : Plan :=
  PlannedAnd 1 [PlannedPhrase 1 "title" [{| term := "two"; position := 0; start_offset := 0; end_offset := 3 |};
                                         {| term := "one"; position := 1; start_offset := 4; end_offset := 7 |}]
                  d_one;
                PlannedOr 1 [PlannedTerm 1 "title" "one" d_one; PlannedNot 1 (PlannedTerm 0 "body" "x" d_one)]].

Lemma sample_plan_ok : plan_ok IndexSchema.default_schema sample_plan.
Proof. repeat split. Qed.

Lemma sample_laws index :
  reachable IndexSchema.default_schema 10 index ->
  IndexViewLaws (InMemoryIndex.view index) IndexSchema.default_schema (InMemoryIndex.documents_ index).
Proof.
  intros H. apply (in_memory_view_laws _ 10); [split; discriminate|apply default_schema_analyzers|exact H].
Qed.

Lemma evaluate_spec_witness :
  exists index cs, InMemoryIndex.put (InMemoryIndex.make IndexSchema.default_schema 10) sample_document = Ok index /\
    evaluate (fun x => x) (InMemoryIndex.view index) default_parameters sample_plan = Ok cs /\
    candidate_id <$> cs = [1].
Proof.
  assert (H : ok_and (InMemoryIndex.put (InMemoryIndex.make IndexSchema.default_schema 10) sample_document)
    (fun index => ok_and (evaluate (fun x => x) (InMemoryIndex.view index) default_parameters sample_plan)
       (fun cs => bool_decide (candidate_id <$> cs = [1]))) = true) by (vm_compute; reflexivity).
  apply sample_put in H as (index & E & Ht & Hreach). exists index.
  destruct (evaluate_spec (fun x => x) default_parameters (InMemoryIndex.view index) IndexSchema.default_schema
    (InMemoryIndex.documents_ index) sample_plan (sample_laws index Hreach) sample_plan_ok) as (cs & Ecs & _).
  exists cs. split; [exact E|]. split; [exact Ecs|].
  rewrite Ecs in Ht. exact (bool_decide_eq_true_1 _ Ht).
Defined.

(** C5.  [search] of a plan is a function of the documents: the live matching
    documents in the public order (score descending, then id), cut at [top_k],
    with [total_hits] counting all of them; the collector's bounded heap and
    the order of the candidates do not show.  A score that is not finite makes
    the whole search the ranking error, and there is no other failure. *)
Theorem search_plan_spec log1p executor scorer schema documents p k :
  IndexViewLaws (executor_index executor) schema documents ->
  executor_scorer executor = Ok scorer -> plan_ok schema p -> 0 <= k ->
  search_plan log1p executor p k = expected_result log1p scorer schema documents documents p k.
Proof. intros L Hs Hok Hk. by apply search_plan_matching. Qed.

Lemma search_plan_spec_witness :
  exists index score, InMemoryIndex.put (InMemoryIndex.make IndexSchema.default_schema 10) sample_document = Ok index /\
    search_plan (fun x => x) (make_executor (InMemoryIndex.view index) default_parameters) sample_plan 5 =
      Ok {| hits := [{| hit_document_id := "a"; hit_score := score |}]; total_hits := 1 |} /\
    expected_result (fun x => x) default_parameters IndexSchema.default_schema (InMemoryIndex.documents_ index)
      (InMemoryIndex.documents_ index) sample_plan 5 = Ok {| hits := [{| hit_document_id := "a"; hit_score := score |}]; total_hits := 1 |}.
Proof.
  assert (H : ok_and (InMemoryIndex.put (InMemoryIndex.make IndexSchema.default_schema 10) sample_document)
    (fun index => ok_and (search_plan (fun x => x) (make_executor (InMemoryIndex.view index) default_parameters)
                            sample_plan 5)
       (fun result => match hits result with
                      | [hit] => str_eqb (hit_document_id hit) "a" && (total_hits result =? 1)
                      | _ => false
                      end)) = true) by (vm_compute; reflexivity).
  apply sample_put in H as (index & E & Ht & Hreach). exists index.
  pose proof (search_plan_spec (fun x => x) (make_executor (InMemoryIndex.view index) default_parameters)
    default_parameters IndexSchema.default_schema (InMemoryIndex.documents_ index) sample_plan 5
    (sample_laws index Hreach) eq_refl sample_plan_ok ltac:(discriminate)) as Hspec.
  destruct (search_plan _ _ _ _) as [[[|[id score] [|? ?]] total]|]; try discriminate Ht.
  apply andb_prop in Ht as [Hid Htotal]. cbn in Hid, Htotal.
  apply bool_decide_eq_true_1 in Hid. cbn in Hid. apply Z.eqb_eq in Htotal. subst.
  exists score. split; [exact E|]. split; [reflexivity|]. symmetry. exact Hspec.
Defined.

(** C35.  [explain] of a known document never fails and is faithful: the root
    and every node below it carry the node's canonical text, whether that node
    matches the document and the score it contributes, as the search counts
    it, and each term leaf carries the corpus figures of the BM25 formula;
    an unknown document is refused. *)
Theorem explain_spec log1p executor scorer schema documents p id :
  IndexViewLaws (executor_index executor) schema documents ->
  executor_scorer executor = Ok scorer -> plan_ok schema p ->
  match documents !! id with
  | Some r => exists tree, explain log1p executor p id = Ok tree /\
      explains log1p scorer schema documents p r tree
  | None => explain log1p executor p id =
      Err (exec_error exec_invalid_query_tree "cannot explain an unknown document")
  end.
Proof.
  intros L Hs Hok. unfold explain. rewrite Hs, law_internal_id.
  destruct (documents !! id) as [r|] eqn:Hr; [|done]. cbn.
  exact (explain_plan_explains log1p scorer executor schema documents p id r Hr Hok).
Qed.

Lemma explain_spec_witness :
  exists index tree, InMemoryIndex.put (InMemoryIndex.make IndexSchema.default_schema 10) sample_document = Ok index /\
    explain (fun x => x) (make_executor (InMemoryIndex.view index) default_parameters) sample_plan "a" = Ok tree /\
    matched tree = true.
Proof.
  assert (H : ok_and (InMemoryIndex.put (InMemoryIndex.make IndexSchema.default_schema 10) sample_document)
    (fun index => bool_decide (is_Some (InMemoryIndex.documents_ index !! "a")) &&
       ok_and (explain (fun x => x) (make_executor (InMemoryIndex.view index) default_parameters)
                            sample_plan "a") matched) = true) by (vm_compute; reflexivity).
  apply sample_put in H as (index & E & Ht & Hreach). apply andb_prop in Ht as [Hd Ht].
  apply bool_decide_eq_true_1 in Hd. exists index.
  pose proof (explain_spec (fun x => x) (make_executor (InMemoryIndex.view index) default_parameters)
    default_parameters IndexSchema.default_schema (InMemoryIndex.documents_ index) sample_plan "a"
    (sample_laws index Hreach) eq_refl sample_plan_ok) as Hspec.
  destruct Hd as [r Hr]. rewrite Hr in Hspec. destruct Hspec as (tree & Etree & _).
  exists tree. split; [exact E|]. split; [exact Etree|]. rewrite Etree in Ht. exact Ht.
Defined.
