(* ===== verification/PlanSpec.v ===== *)
(** * The canonical text identifies a plan

    The planner removes duplicate children by their canonical text and the
    caches use it as a key.  It determines the plan up to what it leaves out:
    the estimates, the offsets of phrase tokens and the digits of a boost
    beyond the seventeenth. *)

From S2P Require Import Prelude Text Doubles Numbers Analysis Plan.
From Stdlib Require Import Ascii SpecFloat.

(** ** Plans that are written alike *)

Definition same_token (t u : Token) : Prop := term t = term u /\ position t = position u.
Definition same_boost (b c : double) : Prop := print_double b = print_double c.

Inductive similar : Plan -> Plan -> Prop :=
| similar_term e e' field t b c : same_boost b c ->
    similar (PlannedTerm e field t b) (PlannedTerm e' field t c)
| similar_phrase e e' field ts us b c : same_boost b c -> Forall2 same_token ts us ->
    similar (PlannedPhrase e field ts b) (PlannedPhrase e' field us c)
| similar_and e e' ps qs : Forall2 similar ps qs -> similar (PlannedAnd e ps) (PlannedAnd e' qs)
| similar_or e e' ps qs : Forall2 similar ps qs -> similar (PlannedOr e ps) (PlannedOr e' qs)
| similar_not e e' p q : similar p q -> similar (PlannedNot e p) (PlannedNot e' q)
| similar_range e e' field lower upper il iu :
    similar (PlannedRange e field lower upper il iu) (PlannedRange e' field lower upper il iu)
| similar_all e e' : similar (PlannedMatchAll e) (PlannedMatchAll e').

(** Token positions are unsigned. *)
Fixpoint plan_positions (p : Plan) : Prop :=
  match p with
  | PlannedPhrase _ _ tokens _ => Forall (fun t => 0 <= position t) tokens
  | PlannedAnd _ children | PlannedOr _ children =>
      (fix all (l : list Plan) : Prop :=
         match l with [] => True | c :: l' => plan_positions c /\ all l' end) children
  | PlannedNot _ operand => plan_positions operand
  | _ => True
  end.

Definition all_positions : list Plan -> Prop :=
  fix all l := match l with [] => True | c :: l' => plan_positions c /\ all l' end.

Lemma all_positions_Forall l : all_positions l <-> Forall plan_positions l.
Proof.
  induction l as [|p l IH]; [split; [constructor|done]|]. rewrite Forall_cons, <- IH. done.
Qed.

(** ** Texts that can be cut in one way *)

Definition stops (p : ascii -> bool) (s : string) : Prop :=
  match s with "" => True | String c _ => p c = false end.

Lemma span_inj p a b s t : str_forallb p a = true -> str_forallb p b = true ->
  stops p s -> stops p t -> a +:+ s = b +:+ t -> a = b /\ s = t.
Proof.
  intros Ha Hb Hs Ht E. apply (f_equal (span p)) in E. rewrite !span_exact in E by done.
  by injection E as -> ->.
Qed.

Lemma numeral_inj m n s t : 0 <= m -> 0 <= n -> stops is_digit s -> stops is_digit t ->
  to_string_u m +:+ s = to_string_u n +:+ t -> m = n /\ s = t.
Proof.
  intros Hm Hn Hs Ht E.
  apply (span_inj is_digit) in E as [E ->]; [|by apply to_string_u_spec..|done|done].
  split; [by apply to_string_u_inj|done].
Qed.

Lemma atom_inj a b s t : atom a +:+ s = atom b +:+ t -> a = b /\ s = t.
Proof.
  unfold atom. rewrite !str_app_assoc. intros E.
  apply numeral_inj in E as [Hl E]; [|apply zstrlen_nonneg..|done|done].
  cbn in E. injection E as E. apply str_app_inj_length in E; [done|]. unfold zstrlen in Hl. lia.
Qed.

(** ** The characters of a printed number *)

Definition boost_char (c : ascii) : bool := negb (Ascii.eqb c "," || Ascii.eqb c ")").

Lemma digit_boost_char c : is_digit c = true -> boost_char c = true.
Proof.
  unfold boost_char. intros H. destruct (Ascii.eqb_spec c ",") as [->|_]; [by vm_compute in H|].
  destruct (Ascii.eqb_spec c ")") as [->|_]; [by vm_compute in H|done].
Qed.

Lemma str_forallb_impl (p q : ascii -> bool) s : (forall c, p c = true -> q c = true) ->
  str_forallb p s = true -> str_forallb q s = true.
Proof.
  intros Hpq. induction s as [|c s IH]; [done|]. cbn. intros [Hc Hs]%andb_prop.
  by rewrite Hpq, IH.
Qed.

Lemma numeral_boost n : 0 <= n -> str_forallb boost_char (to_string_u n) = true.
Proof.
  intros Hn. eapply str_forallb_impl; [apply digit_boost_char|]. by apply to_string_u_spec.
Qed.

Lemma str_take_forallb p n s : str_forallb p s = true -> str_forallb p (str_take n s) = true.
Proof.
  revert s. induction n as [|n IH]; intros [|c s]; try done. cbn. intros [-> H]%andb_prop. by apply IH.
Qed.

Lemma str_drop_forallb p n s : str_forallb p s = true -> str_forallb p (str_drop n s) = true.
Proof.
  revert s. induction n as [|n IH]; intros [|c s]; try done. cbn. intros [_ H]%andb_prop. by apply IH.
Qed.

Lemma trim_zeros_forallb p s : str_forallb p s = true -> str_forallb p (trim_zeros s) = true.
Proof.
  induction s as [|c s IH]; [done|]. cbn. intros [Hc Hs]%andb_prop. specialize (IH Hs).
  destruct (trim_zeros s) as [|d t]; [|by cbn in *; rewrite Hc].
  case_bool_decide; [done|]. cbn. by rewrite Hc.
Qed.

Lemma with_fraction_boost a b : str_forallb boost_char a = true -> str_forallb boost_char b = true ->
  str_forallb boost_char (with_fraction a b) = true.
Proof.
  intros Ha Hb. destruct b as [|c b]; [done|]. unfold with_fraction.
  by rewrite !str_forallb_app, Ha, Hb.
Qed.

Lemma digits_nonneg p n d : 0 <= n -> 0 < d -> 0 <= (significant p n d).1.
Proof.
  intros Hn Hd. unfold significant, scale10. set (k := p - 1 - _).
  assert (Hround : forall a b, 0 <= a -> 0 < b -> 0 <= round_half_even a b).
  { intros a b Ha Hb. unfold round_half_even. pose proof (Z.div_pos a b Ha Hb).
    destruct (_ ?= _); [destruct (Z.even _)|..]; lia. }
  destruct (Z.leb_spec 0 k) as [Hk|Hk].
  - pose proof (Z.pow_pos_nonneg 10 k ltac:(lia) ltac:(lia)).
    destruct (_ =? _); cbn; [lia|]. apply Hround; nia.
  - pose proof (Z.pow_pos_nonneg 10 (- k) ltac:(lia) ltac:(lia)).
    destruct (_ =? _); cbn; [lia|]. apply Hround; nia.
Qed.

Lemma format_magnitude_boost p digits x : 0 <= digits ->
  str_forallb boost_char (format_magnitude p digits x) = true.
Proof.
  intros Hd. unfold format_magnitude. pose proof (numeral_boost digits Hd) as Ht.
  pose proof (numeral_boost (Z.abs x) (Z.abs_nonneg x)) as Hm.
  destruct (_ || _).
  - rewrite !str_forallb_app, with_fraction_boost.
    + destruct (x <? 0), (Z.abs x <? 10); cbn; by rewrite ?Hm.
    + by apply str_take_forallb.
    + by apply trim_zeros_forallb, str_drop_forallb.
  - destruct (0 <=? x).
    + apply with_fraction_boost; [by apply str_take_forallb|by apply trim_zeros_forallb, str_drop_forallb].
    + apply with_fraction_boost; [done|]. rewrite str_forallb_app, trim_zeros_forallb by done.
      rewrite (str_forallb_impl is_digit), andb_true_r; [done|apply digit_boost_char|apply digits_fixed_digits].
Qed.

Lemma fraction_of_pos m e : let '(n, d) := fraction_of m e in 0 <= n /\ 0 < d.
Proof.
  unfold fraction_of. destruct (Z.leb_spec 0 e); [|split; [lia|]].
  - split; [|lia]. pose proof (Z.pow_nonneg 2 e). nia.
  - apply Z.pow_pos_nonneg; lia.
Qed.

Lemma print_double_boost x : str_forallb boost_char (print_double x) = true.
Proof.
  destruct x as [s|s| |s m e]; [by destruct s|by destruct s|done|]. unfold print_double, print_general.
  destruct (fraction_of m e) as [n d] eqn:Ef.
  pose proof (fraction_of_pos m e) as Hp. rewrite Ef in Hp.
  pose proof (digits_nonneg 17 n d ltac:(lia) ltac:(lia)) as Hdig. destruct (significant 17 n d) as [digits exponent].
  rewrite str_forallb_app, format_magnitude_boost by done. by destruct s.
Qed.

Lemma boost_inj b c s t : stops boost_char s -> stops boost_char t ->
  print_double b +:+ s = print_double c +:+ t -> same_boost b c /\ s = t.
Proof. intros Hs Ht. apply (span_inj boost_char); by try apply print_double_boost. Qed.

(** ** The canonical text can be read back *)

Lemma tokens_inj ts : forall us s t, Forall (fun t => 0 <= position t) ts ->
  Forall (fun t => 0 <= position t) us ->
  str_concat (canonical_token <$> ts) +:+ ")" +:+ s = str_concat (canonical_token <$> us) +:+ ")" +:+ t ->
  Forall2 same_token ts us /\ s = t.
Proof.
  assert (Hstop : forall l s, stops is_digit (str_concat (canonical_token <$> l) +:+ ")" +:+ s))
    by (by intros [|? ?] ?).
  induction ts as [|x ts IH]; intros [|y us] s t Hts Hus; cbn [fmap list_fmap str_concat foldr].
  - by intros [= ->].
  - unfold canonical_token. cbn. done.
  - unfold canonical_token at 1. cbn. done.
  - apply Forall_cons in Hts as [Hx Hts], Hus as [Hy Hus]. unfold canonical_token at 1 3.
    rewrite !str_app_assoc. cbn [String.append]. intros [= E]. apply atom_inj in E as [Et E].
    cbn [String.append] in E. injection E as E.
    apply numeral_inj in E as [Ep E]; [|done|done|apply Hstop|apply Hstop].
    apply IH in E as [Hall ->]; [|done|done]. split; [by constructor|done].
Qed.

(** No canonical text starts with a closing parenthesis. *)
Lemma canonical_open p s : exists c t, canonical p +:+ s = String c t /\ c <> ")"%char.
Proof. destruct p; cbn; eauto. Qed.

Definition prefix_free (p : Plan) : Prop := forall q s t, plan_positions q ->
  canonical p +:+ s = canonical q +:+ t -> similar p q /\ s = t.

Lemma children_inj ps : Forall prefix_free ps -> forall qs s t, all_positions qs ->
  str_concat (map (fun child => canonical child +:+ ",") ps) +:+ ")" +:+ s =
  str_concat (map (fun child => canonical child +:+ ",") qs) +:+ ")" +:+ t ->
  Forall2 similar ps qs /\ s = t.
Proof.
  induction 1 as [|p ps Hp _ IH]; intros [|q qs] s t Hqs; cbn [map str_concat foldr].
  - by intros [= ->].
  - rewrite !str_app_assoc. destruct (canonical_open q ("," +:+ str_concat
      (map (fun child => canonical child +:+ ",") qs) +:+ ")" +:+ t)) as (c & u & E & Hc).
    unfold str_concat in *. rewrite E. cbn. congruence.
  - rewrite !str_app_assoc. destruct (canonical_open p ("," +:+ str_concat
      (map (fun child => canonical child +:+ ",") ps) +:+ ")" +:+ s)) as (c & u & E & Hc).
    unfold str_concat in *. rewrite E. cbn. congruence.
  - destruct Hqs as [Hq Hqs]. rewrite !str_app_assoc. intros E. apply Hp in E as [Hpq E]; [|done].
    cbn [String.append] in E. injection E as E. apply IH in E as [Hall ->]; [|done].
    split; [by constructor|done].
Qed.

Lemma bit_inj (b c : bool) s t :
  (if b then "1" else "0") +:+ s = (if c then "1" else "0") +:+ t -> b = c /\ s = t.
Proof. by destruct b, c; cbn; intros [= ->]. Qed.

Ltac cut_head E := cbn [String.append] in E; injection E as E.

Lemma canonical_prefix_free p : plan_positions p -> prefix_free p.
Proof.
  induction p as [e f t b|e f ts b|e cs IH|e cs IH|e p IH|e f lo hi il iu|e] using plan_induction;
    intros Hp [e' f' t' b'|e' f' ts' b'|e' cs'|e' cs'|e' p'|e' f' lo' hi' il' iu'|e'] s s' Hq E;
    cbn [canonical] in E; rewrite ?str_app_assoc in E; try (cbn in E; discriminate E); cut_head E.
  - apply atom_inj in E as [-> E]. cut_head E. apply atom_inj in E as [-> E]. cut_head E.
    apply boost_inj in E as [Hb E]; [|done|done]. cut_head E. split; [by constructor|done].
  - apply atom_inj in E as [-> E]. cut_head E.
    apply boost_inj in E as [Hb E]; [|by destruct ts|by destruct ts'].
    apply tokens_inj in E as [Hall ->]; [|done|done]. split; [by constructor|done].
  - apply children_inj in E as [Hall ->].
    + split; [by constructor|done].
    + apply all_positions_Forall in Hp. rewrite Forall_forall in *. auto.
    + done.
  - apply children_inj in E as [Hall ->].
    + split; [by constructor|done].
    + apply all_positions_Forall in Hp. rewrite Forall_forall in *. auto.
    + done.
  - apply (IH Hp) in E as [Hpq E]; [|done]. cut_head E. split; [by constructor|done].
  - repeat (apply atom_inj in E as [-> E]; cut_head E).
    apply bit_inj in E as [-> E]. cut_head E. apply bit_inj in E as [-> E]. cut_head E.
    split; [by constructor|done].
  - split; [by constructor|done].
Qed.

Lemma canonicalize_similar p q : plan_positions p -> plan_positions q ->
  canonicalize p = canonicalize q -> similar p q.
Proof.
  intros Hp Hq E. eapply (canonical_prefix_free p Hp q "" ""); [done|]. by rewrite !str_app_nil_r.
Qed.

Lemma same_tokens_canonical ts us : Forall2 same_token ts us ->
  canonical_token <$> ts = canonical_token <$> us.
Proof.
  induction 1 as [|x y xs ys [Ex Ey] _ IH]; [done|]. rewrite !fmap_cons, IH.
  unfold canonical_token. by rewrite Ex, Ey.
Qed.

Lemma similar_children_canonical ps : Forall (fun p => forall q, similar p q -> canonical p = canonical q) ps ->
  forall qs, Forall2 similar ps qs ->
  map (fun child => canonical child +:+ ",") ps = map (fun child => canonical child +:+ ",") qs.
Proof.
  induction 1 as [|p ps Hp _ IH]; intros qs Hall; inversion_clear Hall; [done|]. cbn.
  erewrite Hp by done. f_equal. by apply IH.
Qed.

Lemma similar_canonical p : forall q, similar p q -> canonical p = canonical q.
Proof.
  induction p as [e f t b|e f ts b|e cs IH|e cs IH|e p IH|e f lo hi il iu|e]
    using plan_induction; intros q H;
    inversion H as [? ? ? ? ? ? Hb|? ? ? ? ? ? ? Hb Ht|? ? ? ? Hall|? ? ? ? Hall|? ? ? ? Hpq| |]; subst;
    cbn [canonical]; try done.
  - by rewrite Hb.
  - by rewrite Hb, (same_tokens_canonical _ _ Ht).
  - by rewrite (similar_children_canonical _ IH _ Hall).
  - by rewrite (similar_children_canonical _ IH _ Hall).
  - by rewrite (IH _ Hpq).
Qed.

(** ** Properties *)

(** C34.  Two plans have the same canonical text exactly when they are the same
    tree up to the estimates, the offsets of phrase tokens and the boosts'
    digits beyond the seventeenth, whatever bytes the field names, terms and
    range bounds contain: a text used as a cache key or to remove duplicates
    never identifies two different plans. *)
Theorem canonicalize_injective p q : plan_positions p -> plan_positions q ->
  canonicalize p = canonicalize q <-> similar p q.
Proof. intros Hp Hq. split; [by apply canonicalize_similar|apply similar_canonical]. Qed.

Lemma canonicalize_injective_witness :
  let p := PlannedOr 7 [PlannedTerm 1 "a,1:" "x)" d_one; PlannedMatchAll 2] in
  let q := PlannedOr 9 [PlannedTerm 5 "a,1:" "x)" d_one; PlannedMatchAll 0] in
  canonicalize p = "O(T(4:a,1:,2:x),1),M(),)" /\ similar p q.
Proof.
  intros p q. split; [by vm_compute|]. apply canonicalize_injective; [done..|]. by vm_compute.
Defined.
