(* ===== verification/PlannerSpec.v ===== *)
(** * What the planner's output means

    A query has a meaning of its own on a document: which of the documents it
    describes, before any plan.  The planner's rewriting (expansion over the
    default fields, analysis, removal of duplicates, reordering by cost)
    keeps it, and stays within the limits. *)

From S2P Require Import Prelude Text Doubles Analysis Schema Types Index IndexSpec IndexChecks.
From S2P Require Import ViewSpec Ranking Numbers Query Plan Planner Executor ExecutorSpec SearchSpec PlanSpec.
From Stdlib Require Import SpecFloat.

(** ** The documents a query describes *)

Section meaning.
Context (schema : IndexSchema) (fields : list SearchField).

Definition term_in (field text : string) (r : DocumentRecord) : bool :=
  match tokens_of schema field text, analysed schema r !! field with
  | Some tokens, Some document_tokens =>
      existsb (fun t => negb (bool_decide (occurrences (term t) document_tokens = []))) tokens
  | _, _ => false
  end.

Definition phrase_in (field text : string) (r : DocumentRecord) : bool :=
  match tokens_of schema field text, analysed schema r !! field with
  | Some tokens, Some document_tokens => phrase_match document_tokens tokens
  | _, _ => false
  end.

Definition in_range (field lower upper : string) (il iu : bool) (r : DocumentRecord) : bool :=
  match IndexSchema.find schema field, field_value r field with
  | Some definition, Some value => range_matches definition value lower upper il iu
  | _, _ => false
  end.

(** The field a query is under, or every default field. *)
Definition over (field : option string) (test : string -> bool) : bool :=
  match field with
  | Some name => test name
  | None => existsb test (search_name <$> fields)
  end.

Fixpoint describes (q : Query) (field : option string) (r : DocumentRecord) : bool :=
  match q with
  | TermQuery _ t => over field (fun name => term_in name t r)
  | PhraseQuery _ text => over field (fun name => phrase_in name text r)
  | AndQuery _ l q' => describes l field r && describes q' field r
  | OrQuery _ l q' => describes l field r || describes q' field r
  | NotQuery _ q' => negb (describes q' field r)
  | FieldQuery _ name q' => describes q' (Some name) r
  | RangeFilter _ name lower upper il iu => in_range name lower upper il iu r
  | BoostQuery _ q' _ => describes q' field r
  | MatchAllQuery _ => true
  end.
End meaning.

Lemma both_all l : forall a, is_Some (foldl both a l) <-> is_Some a /\ Forall is_Some l.
Proof.
  induction l as [|x l IH]; intros a; cbn [foldl].
  - split; [intros H; split; [done|constructor]|by intros [? _]].
  - rewrite IH, Forall_cons. destruct a, x; cbn; rewrite !is_Some_alt; tauto.
Qed.

Lemma either_any l : forall a, is_Some (foldl either a l) <-> is_Some a \/ Exists is_Some l.
Proof.
  induction l as [|x l IH]; intros a; cbn [foldl].
  - rewrite Exists_nil. tauto.
  - rewrite IH, Exists_cons. assert (is_Some (either a x) <-> is_Some a \/ is_Some x) as ->; [|tauto].
    destruct a, x; cbn; rewrite !is_Some_alt; tauto.
Qed.

(** ** Matching, without the scores *)

Section planning.
Context (log1p : double -> double) (scorer : BM25Parameters).
Context (schema : IndexSchema) (documents : DocumentRecords) (r : DocumentRecord).

Definition matches (p : Plan) : Prop := is_Some (doc_match log1p scorer schema documents p r).

Lemma matches_term e field t b : matches (PlannedTerm e field t b) <->
  exists tokens, analysed schema r !! field = Some tokens /\ occurrences t tokens <> [].
Proof using Type.
  unfold matches. cbn. unfold posting_of. destruct (analysed schema r !! field) as [tokens|]; cbn.
  - destruct (occurrences t tokens) as [|x l] eqn:E.
    + split; [by intros [? ?]|]. by intros (? & [= <-] & ?).
    + split; [|by intros _; eexists]. intros _. exists tokens. by rewrite E.
  - split; [by intros [? ?]|by intros (? & ? & _)].
Qed.

Lemma matches_phrase e field ts b : matches (PlannedPhrase e field ts b) <->
  exists tokens, analysed schema r !! field = Some tokens /\ phrase_match tokens ts = true.
Proof using Type.
  unfold matches. cbn. destruct (analysed schema r !! field) as [tokens|].
  - destruct (phrase_match tokens ts) eqn:E.
    + split; [|by intros _; eexists]. intros _. by exists tokens.
    + split; [by intros [? ?]|]. intros (? & [= <-] & ?); congruence.
  - split; [by intros [? ?]|by intros (? & ? & _)].
Qed.

Lemma matches_and e cs : matches (PlannedAnd e cs) <-> cs <> [] /\ Forall matches cs.
Proof using Type.
  unfold matches. destruct cs as [|c cs]; cbn.
  - split; [by intros [? ?]|by intros [? _]].
  - rewrite both_all, Forall_cons. change (map ?f cs) with (f <$> cs). rewrite Forall_fmap. naive_solver.
Qed.

Lemma matches_or e cs : matches (PlannedOr e cs) <-> Exists matches cs.
Proof using Type.
  unfold matches. cbn. rewrite either_any. change (map ?f cs) with (f <$> cs). rewrite Exists_fmap.
  split; [intros [[? ?]|?]; done|by right].
Qed.

Lemma matches_not e p : matches (PlannedNot e p) <-> ~ matches p.
Proof using Type.
  unfold matches. cbn. destruct (doc_match _ _ _ _ p r); split.
  - by intros [? ?].
  - intros H. exfalso. apply H. by eexists.
  - by intros _ [? ?].
  - by eexists.
Qed.

Lemma matches_range e field lower upper il iu : matches (PlannedRange e field lower upper il iu) <->
  in_range schema field lower upper il iu r = true.
Proof using Type.
  unfold matches, in_range. cbn. destruct (IndexSchema.find schema field); [|by split; [intros [? ?]|]].
  destruct (field_value r field); [|by split; [intros [? ?]|]].
  destruct (range_matches _ _ _ _ _ _); rewrite is_Some_alt; split; done.
Qed.

Lemma matches_all e : matches (PlannedMatchAll e).
Proof using Type. by eexists. Qed.

(** Plans that are written alike match alike. *)
Lemma same_tokens_phrase tokens ts us : Forall2 same_token ts us ->
  phrase_match tokens ts = phrase_match tokens us.
Proof using Type.
  destruct 1 as [|x y xs ys [Et Ep] Hall]; [done|]. cbn. rewrite Et, Ep. apply existsb_eq. intros base.
  unfold phrase_at. induction Hall as [|x' y' xs ys [Et' Ep'] _ IH]; [done|]. cbn. by rewrite Et', Ep', IH.
Qed.

Lemma similar_matches p : forall q, similar p q -> matches p <-> matches q.
Proof using Type.
  induction p as [e f t b|e f ts b|e cs IH|e cs IH|e p IH|e f lo hi il iu|e]
    using plan_induction; intros q H;
    inversion H as [? ? ? ? ? ? Hb|? ? ? ? ? ? ? Hb Ht|? ? ? ? Hall|? ? ? ? Hall|? ? ? ? Hpq| |]; subst.
  - by rewrite !matches_term.
  - rewrite !matches_phrase. by setoid_rewrite (fun tokens => same_tokens_phrase tokens _ _ Ht).
  - rewrite !matches_and. clear H. revert Hall. generalize qs. induction IH as [|c cs Hc _ IH'].
    + intros qs' Hall. inversion_clear Hall. done.
    + intros qs' Hall. inversion_clear Hall as [|? q' ? qs'' Hq Hqs]. rewrite !Forall_cons, (Hc _ Hq).
      clear Hc. assert (Forall matches cs <-> Forall matches qs'') as ->; [|naive_solver].
      clear -IH' Hqs. destruct cs as [|c cs]; inversion Hqs; subst; [done|]. specialize (IH' _ Hqs). naive_solver.
  - rewrite !matches_or. clear H. revert Hall. generalize qs. induction IH as [|c cs Hc _ IH'].
    + intros qs' Hall. by inversion_clear Hall.
    + intros qs' Hall. inversion_clear Hall. rewrite !Exists_cons. by rewrite Hc, IH'.
  - rewrite !matches_not. by rewrite (IH _ Hpq).
  - done.
  - split; intros _; apply matches_all.
Qed.

Context (v : SearchIndexView) (options : PlannerOptions).
Context (Hschema : view_schema v = schema) (Hanalyzers : schema_analyzers schema).

(** ** The builder *)

Import Builder.

(** What a computation of the builder returns, when it does. *)
Definition returns {A} (m : Builder.B A) (Q : A -> Prop) : Prop :=
  forall s a s', m s = Ok (a, s') -> Q a.

Lemma returns_ret {A} (a : A) (Q : A -> Prop) : Q a -> returns (mret a) Q.
Proof using Type. by intros H s ? ? [= <- <-]. Qed.

Lemma returns_bind {A A'} (m : Builder.B A) (f : A -> Builder.B A') (P : A -> Prop) (Q : A' -> Prop) :
  returns m P -> (forall a, P a -> returns (f a) Q) -> returns (m ≫= f) Q.
Proof using Type.
  intros Hm Hf s a s'. unfold mbind, Builder.B_bind. destruct (m s) as [[a0 s0]|] eqn:E; [|done].
  apply Hf. by eapply Hm.
Qed.

Lemma returns_make p (Q : Plan -> Prop) : Q p -> returns (Builder.make options p) Q.
Proof using Type.
  intros H s a s'. unfold Builder.make. destruct (_ >? _); [done|]. by intros [= <- <-].
Qed.

Lemma returns_lift {A} (m : expected PlanningError A) (Q : A -> Prop) :
  (forall a, m = Ok a -> Q a) -> returns (Builder.lift m) Q.
Proof using Type. intros H s a s'. unfold Builder.lift. destruct m; [|done]. intros [= <- <-]. auto. Qed.

Lemma returns_fail {A} code message (Q : A -> Prop) : returns (Builder.fail code message) Q.
Proof using Type. by intros s a s'. Qed.

(** A plan for the documents of which [D] holds. *)
Definition plans (D : Prop) (p : Plan) : Prop := plan_positions p /\ (matches p <-> D).

Lemma unique_keyed_spec children : forall keyed,
  (forall k c, (k, c) ∈ unique_keyed keyed children ->
     (k, c) ∈ keyed \/ c ∈ children /\ k = canonical c) /\
  (forall x, x ∈ keyed -> x ∈ unique_keyed keyed children) /\
  (forall c, c ∈ children -> exists c', (canonical c, c') ∈ unique_keyed keyed children).
Proof using Type.
  induction children as [|c children IH]; intros keyed; cbn [unique_keyed].
  { split_and!; [by left|done|]. by intros c ?%not_elem_of_nil. }
  case_bool_decide as Hk.
  - destruct (IH keyed) as (H1 & H2 & H3). split_and!.
    + intros k d [?|[? ->]]%H1; [by left|right]. split; [by right|done].
    + done.
    + intros d [->|Hd]%elem_of_cons; [|by apply H3].
      apply list_elem_of_fmap in Hk as ([k c'] & -> & Hin). exists c'. by apply H2.
  - destruct (IH (keyed ++ [(canonical c, c)])) as (H1 & H2 & H3). split_and!.
    + intros k d [Hin|[? ->]]%H1; [|right; split; [by right|done]].
      apply elem_of_app in Hin as [?|Hin%list_elem_of_singleton]; [by left|].
      injection Hin as -> ->. right. split; [by left|done].
    + intros x Hx. apply H2, elem_of_app. by left.
    + intros d [->|Hd]%elem_of_cons; [|by apply H3]. exists c. apply H2, elem_of_app. right. by left.
Qed.

Lemma unique_keyed_children children : let kept := (unique_keyed [] children).*2 in
  (forall c, c ∈ kept -> c ∈ children) /\
  (Forall plan_positions children -> forall c, c ∈ children -> exists c', c' ∈ kept /\ (matches c <-> matches c')).
Proof using Type.
  intros kept. destruct (unique_keyed_spec children []) as (H1 & _ & H3).
  assert (Hsub : forall k c, (k, c) ∈ unique_keyed [] children -> c ∈ children /\ k = canonical c).
  { intros k c [?%not_elem_of_nil|?]%H1; done. }
  split.
  - intros c ([k c'] & -> & Hin)%list_elem_of_fmap. by destruct (Hsub _ _ Hin).
  - rewrite Forall_forall. intros Hp c Hc. destruct (H3 c Hc) as (c' & Hin). exists c'.
    split; [apply list_elem_of_fmap; by exists (canonical c, c')|].
    apply Hsub in Hin as [Hin E]. apply similar_matches, canonicalize_similar; auto.
Qed.

Lemma unique_all children : Forall plan_positions children ->
  Forall matches (unique_keyed [] children).*2 <-> Forall matches children.
Proof using Type.
  intros Hp. destruct (unique_keyed_children children) as [H1 H2]. rewrite !Forall_forall. split.
  - intros H c Hc. destruct (H2 Hp c Hc) as (c' & Hin & ->). auto.
  - intros H c Hc. auto.
Qed.

Lemma unique_any children : Forall plan_positions children ->
  Exists matches (unique_keyed [] children).*2 <-> Exists matches children.
Proof using Type.
  intros Hp. destruct (unique_keyed_children children) as [H1 H2]. rewrite !Exists_exists. split.
  - intros (c & Hc & Hm). eauto.
  - intros (c & Hc & Hm). destruct (H2 Hp c Hc) as (c' & Hin & E). exists c'. by rewrite <- E.
Qed.

Lemma unique_positions children : Forall plan_positions children ->
  Forall plan_positions (unique_keyed [] children).*2.
Proof using Type.
  rewrite !Forall_forall. intros Hp c ([k c'] & -> & Hin)%list_elem_of_fmap. cbn.
  destruct (unique_keyed_spec children []) as (H1 & _ & _).
  apply H1 in Hin as [Hin|[Hin _]]; [by apply not_elem_of_nil in Hin|auto].
Qed.

Lemma unique_ne children : children <> [] -> unique_keyed [] children <> [].
Proof using Type.
  intros Hne E. apply Hne. destruct children as [|c cs]; [reflexivity|]. exfalso.
  destruct (proj2 (proj2 (unique_keyed_spec (c :: cs) [])) c (list_elem_of_here _ _)) as (c' & Hin).
  rewrite E in Hin. exact (not_elem_of_nil _ Hin).
Qed.

Lemma normalize_and_spec children : children <> [] -> Forall plan_positions children ->
  returns (Builder.normalize_and v options children) (plans (Forall matches children)).
Proof using Type.
  intros Hne Hp. pose proof (unique_all _ Hp) as Hm. pose proof (unique_positions _ Hp) as Hu.
  pose proof (unique_ne _ Hne) as Hk. unfold Builder.normalize_and.
  destruct (unique_keyed [] children) as [|[k c] [|kc rest]] eqn:E; [done| |]; rewrite <- E in *.
  - apply returns_ret. rewrite E in *. cbn in *. apply Forall_inv in Hu. rewrite Forall_singleton in Hm.
    by split.
  - apply returns_make. split.
    + apply all_positions_Forall. by rewrite sort_by_perm.
    + rewrite matches_and. split; [intros [_ Hall]; rewrite sort_by_perm in Hall; by apply Hm|].
      intros Hall. split; [|by rewrite sort_by_perm, Hm].
      intros Es. apply (f_equal length) in Es. rewrite length_fmap, sort_by_perm, E in Es. done.
Qed.

Lemma normalize_or_spec children : Forall plan_positions children ->
  returns (normalize_or v options children) (plans (Exists matches children)).
Proof using Type.
  intros Hp. pose proof (unique_any _ Hp) as Hm. pose proof (unique_positions _ Hp) as Hu.
  unfold normalize_or.
  destruct (unique_keyed [] children) as [|[k c] [|kc rest]] eqn:E.
  - apply returns_make. split; [done|]. by rewrite matches_or, <- Hm.
  - apply returns_ret. cbn in *. apply Forall_inv in Hu. split; [done|].
    rewrite <- Hm, Exists_cons, Exists_nil. tauto.
  - rewrite <- E in *. apply returns_make. split.
    + apply all_positions_Forall. by rewrite sort_by_perm.
    + by rewrite matches_or, sort_by_perm, Hm.
Qed.

(** ** Leaves *)

Lemma searchable_field_Ok field definition analyzer :
  searchable_field v field = Ok (definition, analyzer) ->
  IndexSchema.find schema field = Some definition /\ fd_indexed definition = true /\
  fd_analyzer definition = Some analyzer.
Proof using Hschema.
  unfold searchable_field. rewrite Hschema. destruct (IndexSchema.find schema field) as [d|]; [|done].
  destruct (fd_analyzer d) as [a|] eqn:Ea; [|done]. destruct (fd_indexed d) eqn:Ei; [|done].
  by intros [= <- <-].
Qed.

(** The tokens the planner gets are those the index would store. *)
Lemma returns_analyze field text definition analyzer is_phrase :
  searchable_field v field = Ok (definition, analyzer) ->
  returns (analyze_text options analyzer text is_phrase) (fun tokens =>
    tokens_of schema field text = Some tokens /\ Forall (fun t => 0 <= position t) tokens).
Proof using Hschema Hanalyzers.
  intros (Hf & Hi & Ha)%searchable_field_Ok s tokens s'. unfold analyze_text.
  destruct (analyze analyzer text) as [ts|] eqn:Et; [|done]. destruct (_ || _); [done|].
  intros [= <- <-]. split.
  - unfold tokens_of. by rewrite Hf; cbn; rewrite Hi, Ha; cbn; rewrite Et.
  - pose proof (laws_range (AnalyzerLaws := Hanalyzers _ _ _ Hf Hi Ha) _ _ Et) as Hr.
    eapply Forall_impl; [exact Hr|]. intros t [[? _] _]. done.
Qed.

Definition term_matches (field : string) (t : Token) : Prop :=
  exists tokens, analysed schema r !! field = Some tokens /\ occurrences (term t) tokens <> [].

Lemma term_children_spec field boost tokens : forall seen,
  returns (term_children v options field boost seen tokens) (fun cs =>
    Forall plan_positions cs /\
    (Exists matches cs <-> exists t, t ∈ tokens /\ term t ∉ seen /\ term_matches field t)).
Proof using Type.
  clear Hschema Hanalyzers.
  induction tokens as [|token tokens IH]; intros seen; cbn [term_children].
  { apply returns_ret. split; [constructor|]. rewrite Exists_nil. split; [done|].
    by intros (t & ?%not_elem_of_nil & _). }
  case_bool_decide as Hseen.
  - intros s cs s' E. apply IH in E as [Hp Hm]. split; [done|]. rewrite Hm. split.
    + intros (t & Ht & ? & ?). exists t. split; [by right|done].
    + intros (t & [->|Ht]%elem_of_cons & ? & ?); [done|by exists t].
  - eapply returns_bind; [by apply returns_make, (eq_refl (PlannedTerm _ _ _ _))|]. intros ? <-.
    eapply returns_bind; [apply IH|]. intros cs [Hp Hm]. apply returns_ret. split; [by constructor|].
    rewrite Exists_cons, Hm, matches_term. split.
    + intros [Ht|(t & Ht & Hn & H)].
      * exists token. split; [by left|done].
      * exists t. split; [by right|]. split; [set_solver|done].
    + intros (t & [->|Ht]%elem_of_cons & Hn & H); [by left|].
      destruct (decide (term t = term token)) as [E|E].
      * left. unfold term_matches in H. by rewrite E in H.
      * right. exists t. split; [done|]. split; [set_solver|done].
Qed.

Lemma term_in_tokens field text tokens : tokens_of schema field text = Some tokens ->
  term_in schema field text r = true <-> exists t, t ∈ tokens /\ term t ∉ (∅ : gset string) /\ term_matches field t.
Proof using Type.
  clear Hschema Hanalyzers. intros Ht. unfold term_in, term_matches. rewrite Ht.
  destruct (analysed schema r !! field) as [dts|].
  - rewrite existsb_exists. split.
    + intros (t & Hin%list_elem_of_In & Ho). exists t. split; [done|]. split; [set_solver|].
      exists dts. split; [done|]. intros E. by rewrite E in Ho.
    + intros (t & Hin & _ & dts' & [= <-] & Ho). exists t. split; [by apply list_elem_of_In|].
      by rewrite bool_decide_eq_false_2.
  - split; [done|]. by intros (? & ? & ? & ? & ? & ?).
Qed.

Lemma plans_iff D D' p : (D <-> D') -> plans D p -> plans D' p.
Proof using Type. intros E [Hp Hm]. split; [done|]. by rewrite Hm. Qed.

Lemma returns_impl {A} (m : Builder.B A) (P Q : A -> Prop) : (forall a, P a -> Q a) -> returns m P -> returns m Q.
Proof using Type. intros H Hm s a s' E. by eapply H, Hm. Qed.

Lemma term_for_field_spec field text boost :
  returns (term_for_field v options field text boost) (plans (term_in schema field text r = true)).
Proof using Hschema Hanalyzers.
  unfold term_for_field. eapply returns_bind; [apply returns_lift; intros a Ha; exact Ha|].
  intros [definition analyzer] Ha. eapply returns_bind; [by eapply returns_analyze|].
  intros tokens [Ht _]. eapply returns_bind; [apply term_children_spec|]. intros cs [Hp Hm].
  eapply returns_impl; [|by apply normalize_or_spec]. intros p. apply plans_iff.
  by rewrite Hm, (term_in_tokens _ _ _ Ht).
Qed.

Lemma phrase_for_field_spec field text boost :
  returns (phrase_for_field v options field text boost) (plans (phrase_in schema field text r = true)).
Proof using Hschema Hanalyzers.
  unfold phrase_for_field. eapply returns_bind; [apply returns_lift; intros a Ha; exact Ha|].
  intros [definition analyzer] Ha. eapply returns_bind; [by eapply returns_analyze|].
  intros tokens [Ht Hp]. apply returns_make. split; [done|]. rewrite matches_phrase. unfold phrase_in.
  rewrite Ht. destruct (analysed schema r !! field) as [dts|].
  - split; [by intros (? & [= <-] & ?)|]. intros H. by exists dts.
  - split; [by intros (? & ? & _)|done].
Qed.

Lemma for_fields_spec build (test : string -> bool) boost fields :
  (forall name b, returns (build name b) (plans (test name = true))) ->
  returns (for_fields build boost fields) (fun cs => Forall plan_positions cs /\
    (Exists matches cs <-> existsb test (search_name <$> fields) = true)).
Proof using Type.
  intros Hb. induction fields as [|field fields IH]; cbn [for_fields].
  { apply returns_ret. split; [constructor|]. by rewrite Exists_nil. }
  eapply returns_bind; [apply Hb|]. intros p [Hp Hm]. eapply returns_bind; [apply IH|].
  intros cs [Hps Hms]. apply returns_ret. split; [by constructor|].
  rewrite Exists_cons, fmap_cons, Hm, Hms. cbn. by rewrite orb_true_iff.
Qed.

Lemma expand_spec build (test : string -> bool) field boost :
  (forall name b, returns (build name b) (plans (test name = true))) ->
  returns (expand v options build field boost) (plans (over (default_fields options) field test = true)).
Proof using Type.
  intros Hb. unfold expand, over. destruct field as [name|]; [apply Hb|].
  eapply returns_bind; [by apply for_fields_spec|]. intros cs [Hp Hm].
  eapply returns_impl; [|by apply normalize_or_spec]. intros p. by apply plans_iff.
Qed.

(** ** Ranges *)

Lemma parse_read text z : parse_i64 text = Some z -> read_i64 text = Some z /\ i64_min <= z <= i64_max.
Proof using Type.
  unfold parse_i64, read_i64, whole. destruct (from_chars_signed i64_min i64_max text) as [z' rest| |] eqn:E; [|done..].
  destruct rest; [|done]. intros [= ->]. split; [done|]. unfold from_chars_signed in E.
  destruct (match text with String _ _ => _ | EmptyString => _ end) as [neg u]. destruct (span is_digit u) as [ds rest].
  destruct ds as [|c ds]; [done|]. cbv zeta in E.
  destruct ((i64_min <=? _) && _) eqn:Eb; [|done]. apply andb_prop in Eb as [H1%Z.leb_le H2%Z.leb_le].
  injection E as <- _. done.
Qed.

(** A canonical bound reads as the bound that was given. *)
Lemma canonical_bound_Ok field definition bound bound' : IndexSchema.find schema field = Some definition ->
  canonical_bound v definition field bound = Ok bound' ->
  bound' = bound \/ fd_type definition = ft_int64 /\
    str_eqb bound' "*" = str_eqb bound "*" /\ read_i64 bound' = read_i64 bound.
Proof using Hschema.
  intros Hf. unfold canonical_bound. destruct (str_eqb bound "*") eqn:Es; [intros [= <-]; by left|].
  rewrite Hschema. unfold IndexSchema.validate_value. rewrite Hf.
  destruct (decide (fd_type definition = ft_int64)) as [Ht|Ht].
  2:{ rewrite (bool_decide_eq_false_2 (fd_type definition = ft_int64)) by done. intros H. left.
      destruct (fd_type definition); try done; [by injection H as ->|by injection H as ->|].
      destruct (valid_iso_date bound); [by injection H as ->|done]. }
  rewrite (bool_decide_eq_true_2 (fd_type definition = ft_int64)) by done.
  rewrite Ht. unfold str_eqb at 1. case_bool_decide as E0; [done|]. cbn [orb].
  case_bool_decide as Ep; [done|]. destruct (parse_i64 bound) as [z|] eqn:Ez; [|done]. cbn.
  intros [= <-]. right. split; [done|]. destruct (parse_read _ _ Ez) as [Hr Hz].
  pose proof (parse_i64_to_string z Hz) as Hp. split.
  - unfold str_eqb. apply bool_decide_eq_false_2. intros E. rewrite E in Hp. by vm_compute in Hp.
  - rewrite Hr. by apply parse_read.
Qed.

Lemma range_matches_canonical definition value lower upper lower' upper' il iu :
  (lower' = lower \/ fd_type definition = ft_int64 /\
    str_eqb lower' "*" = str_eqb lower "*" /\ read_i64 lower' = read_i64 lower) ->
  (upper' = upper \/ fd_type definition = ft_int64 /\
    str_eqb upper' "*" = str_eqb upper "*" /\ read_i64 upper' = read_i64 upper) ->
  range_matches definition value lower' upper' il iu = range_matches definition value lower upper il iu.
Proof using Type.
  intros [->|(Ht & El & Er)] [->|(Ht' & El' & Er')]; unfold range_matches.
  - done.
  - rewrite bool_decide_eq_true_2 by done. by rewrite El', Er'.
  - rewrite bool_decide_eq_true_2 by done. by rewrite El, Er.
  - rewrite bool_decide_eq_true_2 by done. by rewrite El, Er, El', Er'.
Qed.

Lemma build_range_spec field lower upper il iu :
  returns (build_range v options field lower upper il iu)
    (plans (in_range schema field lower upper il iu r = true)).
Proof using Hschema.
  unfold build_range. rewrite Hschema. destruct (IndexSchema.find schema field) as [definition|] eqn:Hf;
    [|apply returns_fail].
  case_bool_decide; [apply returns_fail|].
  eapply returns_bind; [apply returns_lift; intros a Ha; exact Ha|]. intros lower' Hl.
  eapply returns_bind; [apply returns_lift; intros a Ha; exact Ha|]. intros upper' Hu.
  apply returns_make. split; [done|]. rewrite matches_range. unfold in_range. rewrite Hf.
  destruct (field_value r field); [|done].
  rewrite (range_matches_canonical definition s lower upper lower' upper'); [done|..];
    by eapply canonical_bound_Ok.
Qed.

(** ** Whole queries *)

Lemma build_spec q : forall field boost depth,
  returns (build v options q field boost depth)
    (plans (describes schema (default_fields options) q field r = true)).
Proof using Hschema Hanalyzers.
  induction q as [pos t|pos t|pos l IHl q IHq|pos l IHl q IHq|pos q IHq|pos name q IHq|pos name lo hi il iu
                 |pos q IHq b|pos]; intros field boost depth; cbn [build describes]; unfold build_and, build_or, build_not, build_field, build_boost, build_match_all;
    (destruct (_ >? _); [apply returns_fail|]);
    (eapply returns_bind; [by intros s a s' _; exact (eq_refl a)|]); intros _ _.
  - apply (expand_spec _ (fun name => term_in schema name t r)). intros. apply term_for_field_spec.
  - apply (expand_spec _ (fun name => phrase_in schema name t r)). intros. apply phrase_for_field_spec.
  - eapply returns_bind; [apply IHl|]. intros p [Hp Hm]. eapply returns_bind; [apply IHq|]. intros p' [Hp' Hm'].
    eapply returns_impl; [|apply normalize_and_spec; [done|by repeat constructor]]. intros p0. apply plans_iff.
    rewrite !Forall_cons, Forall_nil, andb_true_iff. tauto.
  - eapply returns_bind; [apply IHl|]. intros p [Hp Hm]. eapply returns_bind; [apply IHq|]. intros p' [Hp' Hm'].
    eapply returns_impl; [|apply normalize_or_spec; by repeat constructor]. intros p0. apply plans_iff.
    rewrite !Exists_cons, Exists_nil, orb_true_iff. tauto.
  - eapply returns_bind; [apply IHq|]. intros p [Hp Hm]. apply returns_make. split; [done|].
    rewrite matches_not, Hm, negb_true_iff. by destruct (describes _ _ _ _ _).
  - destruct (str_eqb name ""); [apply returns_fail|].
    destruct (IndexSchema.find _ _); [apply IHq|apply returns_fail].
  - apply build_range_spec.
  - destruct (_ || _); [apply returns_fail|]. apply IHq.
  - apply returns_make. split; [done|]. split; [done|]. intros _. apply matches_all.
Qed.
End planning.

Lemma planned_matches log1p scorer schema corpus v options q p r :
  view_schema v = schema -> schema_analyzers schema -> plan v q options = Ok p ->
  matches log1p scorer schema corpus r p <-> describes schema (default_fields options) q None r = true.
Proof.
  intros Hs Ha Hp. unfold plan in Hp. destruct (options_ok options); [|done]. cbn [mbind expected_bind] in Hp.
  destruct (Builder.build _ _ _ _ _ _ _) as [[root s']|] eqn:E; [|done]. injection Hp as <-.
  eapply (build_spec log1p scorer schema corpus r v options Hs Ha) in E. apply E.
Qed.

(** ** The results of a search, by the query *)

Section searching.
Context (log1p : double -> double) (scorer : BM25Parameters) (executor : QueryExecutor).
Context (schema : IndexSchema) (corpus documents : DocumentRecords).
Context `{L : !CorpusViewLaws (executor_index executor) schema corpus documents}.
Context (Hscorer : executor_scorer executor = Ok scorer).

Lemma plan_matches v options q p r : view_schema v = schema -> plan v q options = Ok p ->
  matches log1p scorer schema corpus r p <->
  describes schema (default_fields options) q None r = true.
Proof using L. intros Hs. apply planned_matches; [done|apply law_analyzers]. Qed.

(** The live documents the query describes. *)
Definition described (fields : list SearchField) (q : Query) : list (DocumentId * DocumentRecord) :=
  filter (fun '(id, r) => InMemoryIndex.is_live r && describes schema fields q None r = true)
    (map_items documents).

Lemma described_matching options q p : plan (executor_index executor) q options = Ok p ->
  scored_id <$> matching log1p scorer schema corpus documents p = (described (default_fields options) q).*1.
Proof using L.
  intros Hp. unfold matching, described.
  induction (map_items documents) as [|[id r] l IH]; [done|].
  assert (Hm : is_Some (live_match log1p scorer schema corpus p r) <->
    InMemoryIndex.is_live r && describes schema (default_fields options) q None r = true).
  { unfold live_match. destruct (InMemoryIndex.is_live r); cbn [andb].
    - by apply (plan_matches (executor_index executor) options q p r law_schema).
    - rewrite is_Some_alt. done. }
  cbn [omap list_omap]. rewrite filter_cons. case_decide as Hd; cbn in Hd.
  - apply Hm in Hd as [s ->]. cbn. by f_equal.
  - destruct (live_match log1p scorer schema corpus p r); [|done].
    exfalso. apply Hd, Hm. by eexists.
Qed.

Lemma length_described options q p : plan (executor_index executor) q options = Ok p ->
  zlen (matching log1p scorer schema corpus documents p) = zlen (described (default_fields options) q).
Proof using L.
  intros Hp. unfold zlen. f_equal. apply (described_matching _ q p) in Hp.
  apply (f_equal length) in Hp. by rewrite !length_fmap in Hp.
Qed.

Lemma elem_of_described fields q id : id ∈ (described fields q).*1 <->
  exists r, documents !! id = Some r /\ InMemoryIndex.is_live r = true /\
    describes schema fields q None r = true.
Proof using Type.
  unfold described. rewrite list_elem_of_fmap. split.
  - intros ([id' r] & -> & [Hd Hin]%list_elem_of_filter). apply andb_prop in Hd.
    apply elem_of_map_items in Hin. by exists r.
  - intros (r & Hr & Hl & Hd). exists (id, r). split; [done|]. apply list_elem_of_filter.
    rewrite Hl, Hd. split; [done|by apply elem_of_map_items].
Qed.
End searching.

(** ** Properties *)

(** C4.  The planner keeps the meaning of a query: whenever it returns a plan,
    the plan matches a document exactly when the query describes it, for every
    document; expansion over the default fields, analysis, the removal of
    duplicate branches by canonical text, the reordering by cost and the
    rewriting of integer bounds change nothing. *)
Theorem plan_describes log1p scorer v schema documents options q p r :
  view_schema v = schema -> schema_analyzers schema -> plan v q options = Ok p ->
  is_Some (doc_match log1p scorer schema documents p r) <->
  describes schema (default_fields options) q None r = true.
Proof. apply planned_matches. Qed.

Definition sample_options : PlannerOptions :=
  {| default_fields := default_search_fields; limits := default_planner_limits |}.

Definition sample_query : Query :=
  AndQuery 0 (NotQuery 0 (TermQuery 4 "three"))
    (OrQuery 12 (PhraseQuery 12 "One TWO") (FieldQuery 20 "title" (BoostQuery 26 (TermQuery 26 "one") d_half))).

Lemma plan_describes_witness :
  exists index p, InMemoryIndex.put (InMemoryIndex.make IndexSchema.default_schema 10) sample_document = Ok index /\
    plan (InMemoryIndex.view index) sample_query sample_options = Ok p /\
    exists r, InMemoryIndex.documents_ index !! "a" = Some r /\
      is_Some (doc_match (fun x => x) default_parameters IndexSchema.default_schema
                 (InMemoryIndex.documents_ index) p r).
Proof.
  assert (H : ok_and (InMemoryIndex.put (InMemoryIndex.make IndexSchema.default_schema 10) sample_document)
    (fun index =>
       ok_and (plan (InMemoryIndex.view index) sample_query sample_options) (fun _ =>
         match InMemoryIndex.documents_ index !! "a" with
         | Some r => describes IndexSchema.default_schema default_search_fields sample_query None r
         | None => false
         end)) = true).
  { vm_compute. reflexivity. }
  apply sample_put in H as (index & E & Ht & Hreach). exists index.
  apply ok_and_true in Ht as (p & Hp & Ht). exists p. split; [exact E|]. split; [exact Hp|].
  destruct (InMemoryIndex.documents_ index !! "a") as [r|]; [|discriminate Ht].
  exists r. split; [reflexivity|].
  apply (plan_describes (fun x => x) default_parameters (InMemoryIndex.view index) IndexSchema.default_schema
    (InMemoryIndex.documents_ index) sample_options sample_query p r).
  - exact (law_schema (CorpusViewLaws := sample_laws index Hreach)).
  - apply default_schema_analyzers.
  - exact Hp.
  - exact Ht.
Defined.

(** What [search] answers when the query is planned, and when it is not. *)
Lemma search_answers log1p executor scorer schema documents q options :
  IndexViewLaws (executor_index executor) schema documents ->
  executor_scorer executor = Ok scorer -> 0 <= top_k options ->
  let fields := search_default_fields options in
  let answer := search log1p executor q options in
  match plan (executor_index executor) q
          {| default_fields := fields; limits := planner_limits options |} with
  | Err e => answer = Err (planning_error e)
  | Ok p => plan_ok schema p ->
      match answer with
      | Ok result =>
          total_hits result = zlen (described schema documents fields q) /\
          zlen (hits result) = Z.min (top_k options) (total_hits result) /\
          NoDup (hit_document_id <$> hits result) /\
          (forall id, id ∈ hit_document_id <$> hits result ->
             exists r, documents !! id = Some r /\ InMemoryIndex.is_live r = true /\
               describes schema fields q None r = true)
      | Err e => execution_code e = exec_ranking_error
      end
  end.
Proof.
  intros L Hs Hk fields answer. unfold answer, search. fold fields.
  destruct (plan _ q _) as [p|e] eqn:Hp; [|done]. intros Hok. cbn [map_err mbind expected_bind].
  rewrite (search_plan_matching log1p scorer executor schema documents documents Hs p (top_k options) Hok Hk).
  unfold expected_result. destruct (forallb finite_score _); [|done]. cbn [total_hits hits].
  pose proof (length_described log1p scorer executor schema documents documents _ q p Hp) as Hl.
  pose proof (described_matching log1p scorer executor schema documents documents _ q p Hp) as Hd. cbn [default_fields] in *.
  set (all := matching log1p scorer schema documents documents p) in *.
  assert (Hsub : sublist (hit_document_id <$> (hit_of <$> take (Z.to_nat (top_k options)) (sort_by BetterScore all)))
                   (scored_id <$> sort_by BetterScore all)).
  { rewrite <- list_fmap_compose. change (hit_document_id ∘ hit_of) with scored_id.
    rewrite fmap_take. apply sublist_take. }
  split_and!; [done|..].
  - unfold zlen. rewrite length_fmap, length_take, sort_by_perm. unfold zlen in *. lia.
  - eapply sublist_NoDup; [|exact Hsub]. rewrite sort_by_perm. apply NoDup_matching.
  - intros id Hid. apply (elem_of_described schema documents). rewrite <- Hd.
    eapply elem_of_submseteq in Hid; [|by apply sublist_submseteq]. by rewrite sort_by_perm in Hid.
Qed.

(** What the answer of a planned search is: the described documents, each with
    the score of the plan, ranked, counted and cut; or the ranking error. *)
Definition ranks (log1p : double -> double) (scorer : BM25Parameters) (schema : IndexSchema) (documents : DocumentRecords)
    (fields : list SearchField) (q : Query) (p : Plan) (ranking : list ScoredDocument) : Prop :=
  scored_id <$> ranking ≡ₚ (described schema documents fields q).*1 /\
  (forall c r, c ∈ ranking -> documents !! scored_id c = Some r ->
     doc_match log1p scorer schema documents p r = Some (score c)) /\
  (forallb finite_score ranking = true -> StronglySorted before ranking).

(** C1.  [search], end to end.  When the query is not planned, the planner's
    error comes back.  When it is (with usable boosts), there is a ranking of
    exactly the live documents the query describes, each once, with the score
    that the specification gives it under the plan; if all these scores are
    finite the ranking is in the public order (higher scores first, equal ones
    by id) and the answer is its first [top_k] documents, in this order and
    with these scores, and the number of all of them; if one is not, the
    answer is the ranking error. *)
Theorem search_describes log1p executor scorer schema documents q options :
  IndexViewLaws (executor_index executor) schema documents ->
  executor_scorer executor = Ok scorer -> 0 <= top_k options ->
  let fields := search_default_fields options in
  let answer := search log1p executor q options in
  match plan (executor_index executor) q
          {| default_fields := fields; limits := planner_limits options |} with
  | Err e => answer = Err (planning_error e)
  | Ok p => plan_ok schema p ->
      exists ranking, ranks log1p scorer schema documents fields q p ranking /\
        answer = (if forallb finite_score ranking
                  then Ok {| hits := hit_of <$> take (Z.to_nat (top_k options)) ranking; total_hits := zlen ranking |}
                  else Err (exec_error exec_ranking_error "non-finite score"))
  end.
Proof.
  intros L Hs Hk fields answer. unfold answer, search. fold fields.
  destruct (plan _ q _) as [p|e] eqn:Hp; [|done]. intros Hok. cbn [map_err mbind expected_bind].
  rewrite (search_plan_matching log1p scorer executor schema documents documents Hs p (top_k options) Hok Hk).
  pose proof (described_matching log1p scorer executor schema documents documents _ q p Hp) as Hd. cbn [default_fields] in Hd.
  exists (sort_by BetterScore (matching log1p scorer schema documents documents p)). split; [split; [|split]|].
  - by rewrite sort_by_perm, Hd.
  - intros c r. rewrite sort_by_perm. intros Hc Hr. destruct c as [id s]. cbn [scored_id score] in *.
    apply elem_of_matching in Hc as (r' & Hr' & Hm).
    rewrite Hr in Hr'. injection Hr' as <-. unfold live_match in Hm.
    by destruct (InMemoryIndex.is_live r).
  - rewrite (forallb_perm finite_score _ _ (sort_by_perm BetterScore _)). intros Hf. apply ranking_sorted; [|apply NoDup_matching].
    apply Is_true_true_2, forallb_True in Hf. eapply Forall_impl; [exact Hf|]. intros c. apply Is_true_true_1.
  - unfold expected_result. rewrite (forallb_perm finite_score _ _ (sort_by_perm BetterScore _)). unfold zlen.
    by rewrite (Permutation_length (sort_by_perm BetterScore _)).
Qed.

Definition sample_search : SearchOptions :=
  {| top_k := 3; search_default_fields := default_search_fields; planner_limits := default_planner_limits |}.

Lemma search_describes_witness :
  let q := FieldQuery 0 "title" (BoostQuery 6 (TermQuery 6 "One") d_half) in
  exists index result p ranking, InMemoryIndex.put (InMemoryIndex.make IndexSchema.default_schema 10) sample_document = Ok index /\
    search (fun x => x) (make_executor (InMemoryIndex.view index) default_parameters) q sample_search = Ok result /\
    hit_document_id <$> hits result = ["a"] /\
    ranks (fun x => x) default_parameters IndexSchema.default_schema (InMemoryIndex.documents_ index)
      default_search_fields q p ranking /\
    hits result = hit_of <$> take 3 ranking /\ total_hits result = zlen ranking.
Proof.
  intros q.
  assert (H : ok_and (InMemoryIndex.put (InMemoryIndex.make IndexSchema.default_schema 10) sample_document)
    (fun index =>
       ok_and (plan (InMemoryIndex.view index) q sample_options) (fun p =>
         match p with PlannedTerm _ _ _ boost => BM25Scorer.boosts_ok boost d_one | _ => false end) &&
       ok_and (search (fun x => x) (make_executor (InMemoryIndex.view index) default_parameters)
                 q sample_search) (fun result => bool_decide (hit_document_id <$> hits result = ["a"]))) = true) by (vm_compute; reflexivity).
  apply sample_put in H as (index & E & Ht & Hreach). apply andb_prop in Ht as [Hp Hr].
  apply ok_and_true in Hr as (result & Hr & Hids). apply bool_decide_eq_true_1 in Hids.
  pose proof (search_describes (fun x => x) (make_executor (InMemoryIndex.view index) default_parameters)
    default_parameters IndexSchema.default_schema (InMemoryIndex.documents_ index) q sample_search
    (sample_laws index Hreach) eq_refl ltac:(discriminate)) as Hspec.
  cbv zeta in Hspec. rewrite Hr in Hspec. change (plan _ q _) with (plan (InMemoryIndex.view index) q sample_options) in Hspec.
  apply ok_and_true in Hp as (p & Ep & Hb). rewrite Ep in Hspec. destruct p; try discriminate Hb.
  destruct (Hspec Hb) as (ranking & Hranks & Hresult). destruct (forallb finite_score ranking); [|discriminate Hresult].
  injection Hresult as Hresult. eexists index, result, _, ranking. split; [exact E|]. split; [exact Hr|].
  split; [exact Hids|]. split; [exact Hranks|]. rewrite Hresult. split; reflexivity.
Defined.
