(* ===== verification/PlanBoosts.v ===== *)
(** * The boosts of a plan

    The planner multiplies the boosts on the way to a leaf: the query's, the
    default field's and the schema's.  When every such product is usable, the
    executor rejects no leaf of the plan. *)

From S2P Require Import Prelude Text Doubles Analysis Schema Types Index Ranking Query Plan Planner ExecutorSpec PlannerSpec.

(** The product of the boosts at a leaf is finite and not negative. *)
Definition usable_leaf (schema : IndexSchema) (name : string) (boost : double) : bool :=
  match IndexSchema.find schema name with
  | Some definition => BM25Scorer.boosts_ok (d_mul boost (fd_boost definition)) d_one
  | None => true
  end.

Definition usable_over (schema : IndexSchema) (fields : list SearchField) (field : option string) (boost : double)
    : bool :=
  match field with
  | Some name => usable_leaf schema name boost
  | None => forallb (fun f => usable_leaf schema (search_name f) (d_mul boost (search_boost f))) fields
  end.

Fixpoint usable_boosts (schema : IndexSchema) (fields : list SearchField) (q : Query) (field : option string)
    (boost : double) : bool :=
  match q with
  | TermQuery _ _ | PhraseQuery _ _ => usable_over schema fields field boost
  | AndQuery _ l r | OrQuery _ l r =>
      usable_boosts schema fields l field boost && usable_boosts schema fields r field boost
  | NotQuery _ q => usable_boosts schema fields q field boost
  | FieldQuery _ name q => usable_boosts schema fields q (Some name) boost
  | RangeFilter _ _ _ _ _ _ | MatchAllQuery _ => true
  | BoostQuery _ q factor => usable_boosts schema fields q field (d_mul boost factor)
  end.

Section planning.
Context (v : SearchIndexView) (options : PlannerOptions) (schema : IndexSchema).
Context (Hschema : view_schema v = schema).

Import Builder.

Notation plan_ok := (plan_ok schema).

Definition all_ok (children : list Plan) : Prop := Forall plan_ok children.

Lemma children_ok children : all_ok children <-> (fix all (l : list Plan) : Prop :=
  match l with [] => True | c :: l' => plan_ok c /\ all l' end) children.
Proof using Type.
  unfold all_ok. induction children as [|c l IH]; [split; [done|constructor]|]. by rewrite Forall_cons, IH.
Qed.

Lemma unique_ok children : all_ok children -> all_ok (unique_keyed [] children).*2.
Proof using Type. unfold all_ok. rewrite !Forall_forall. 
  intros H c ([k c'] & -> & Hin)%list_elem_of_fmap. apply unique_keyed_spec in Hin as [Hin|[Hin _]]; [|by apply H].
  by apply not_elem_of_nil in Hin.
Qed.

Lemma normalize_and_ok children : all_ok children -> returns (normalize_and v options children) plan_ok.
Proof using Type.
  intros H%unique_ok. unfold normalize_and.
  destruct (unique_keyed [] children) as [|[k c] [|kc rest]] eqn:E.
  - by apply returns_make.
  - apply returns_ret. by apply Forall_inv in H.
  - rewrite <- E in *. apply returns_make. apply children_ok. unfold all_ok. by rewrite sort_by_perm.
Qed.

Lemma normalize_or_ok children : all_ok children -> returns (normalize_or v options children) plan_ok.
Proof using Type.
  intros H%unique_ok. unfold normalize_or.
  destruct (unique_keyed [] children) as [|[k c] [|kc rest]] eqn:E.
  - by apply returns_make.
  - apply returns_ret. by apply Forall_inv in H.
  - rewrite <- E in *. apply returns_make. apply children_ok. unfold all_ok. by rewrite sort_by_perm.
Qed.

Lemma term_children_ok field boost tokens : BM25Scorer.boosts_ok boost d_one = true -> forall seen,
  returns (term_children v options field boost seen tokens) all_ok.
Proof using Type.
  intros Hb. induction tokens as [|t tokens IH]; intros seen; cbn [term_children]; [apply returns_ret; constructor|].
  case_bool_decide; [apply IH|]. eapply returns_bind; [by apply (returns_make options _ plan_ok)|]. intros p Hp.
  eapply returns_bind; [apply IH|]. intros cs Hcs. apply returns_ret. by constructor.
Qed.

(** What the field of a leaf is, once it has been looked up. *)
Lemma usable_searchable name boost definition analyzer : usable_leaf schema name boost = true ->
  searchable_field v name = Ok (definition, analyzer) ->
  BM25Scorer.boosts_ok (d_mul boost (fd_boost definition)) d_one = true.
Proof using Hschema.
  intros Hu Hs. apply (searchable_field_Ok schema v Hschema) in Hs as [Hf _]. unfold usable_leaf in Hu. by rewrite Hf in Hu.
Qed.

Lemma returns_any {A} (m : B A) : returns m (fun _ => True).
Proof using Type. by intros s a s' _. Qed.

Lemma term_for_field_ok name text boost : usable_leaf schema name boost = true ->
  returns (term_for_field v options name text boost) plan_ok.
Proof using Hschema.
  intros Hu. unfold term_for_field. eapply returns_bind; [apply returns_lift; intros a Ha; exact Ha|].
  intros [definition analyzer] Ha. eapply returns_bind; [apply returns_any|]. intros tokens _.
  eapply returns_bind; [apply term_children_ok; by eapply usable_searchable|]. intros cs. apply normalize_or_ok.
Qed.

Lemma phrase_for_field_ok name text boost : usable_leaf schema name boost = true ->
  returns (phrase_for_field v options name text boost) plan_ok.
Proof using Hschema.
  intros Hu. unfold phrase_for_field. eapply returns_bind; [apply returns_lift; intros a Ha; exact Ha|].
  intros [definition analyzer] Ha. eapply returns_bind; [apply returns_any|]. intros tokens _.
  apply returns_make. by eapply usable_searchable.
Qed.

Lemma expand_ok build field boost : usable_over schema (default_fields options) field boost = true ->
  (forall name b, usable_leaf schema name b = true -> returns (build name b) plan_ok) ->
  returns (expand v options build field boost) plan_ok.
Proof using Type.
  intros Hu Hb. unfold expand, usable_over in *. destruct field as [name|]; [by apply Hb|].
  eapply returns_bind with (P := all_ok); [|intros cs; apply normalize_or_ok].
  induction (default_fields options) as [|f fields IH]; cbn [for_fields]; [apply returns_ret; constructor|].
  cbn [forallb] in Hu. apply andb_prop in Hu as [Hf Hu].
  eapply returns_bind; [by apply Hb|]. intros p Hp. eapply returns_bind; [by apply IH|]. intros cs Hcs.
  apply returns_ret. by constructor.
Qed.

Lemma build_ok q : forall field boost depth, usable_boosts schema (default_fields options) q field boost = true ->
  returns (build v options q field boost depth) plan_ok.
Proof using Hschema.
  induction q as [pos t|pos t|pos l IHl q IHq|pos l IHl q IHq|pos q IHq|pos name q IHq|pos name lo hi il iu
                 |pos q IHq b|pos]; intros field boost depth Hu; cbn [build usable_boosts] in *; unfold build_and, build_or, build_not, build_field, build_boost, build_match_all;
    (destruct (_ >? _); [apply returns_fail|]); (eapply returns_bind; [apply returns_any|]); intros _ _.
  - apply expand_ok; [done|]. intros. by apply term_for_field_ok.
  - apply expand_ok; [done|]. intros. by apply phrase_for_field_ok.
  - apply andb_prop in Hu as [H1 H2]. eapply returns_bind; [by apply IHl|]. intros p Hp.
    eapply returns_bind; [by apply IHq|]. intros p' Hp'. apply normalize_and_ok. by repeat constructor.
  - apply andb_prop in Hu as [H1 H2]. eapply returns_bind; [by apply IHl|]. intros p Hp.
    eapply returns_bind; [by apply IHq|]. intros p' Hp'. apply normalize_or_ok. by repeat constructor.
  - eapply returns_bind; [by apply IHq|]. intros p Hp. by apply returns_make.
  - destruct (str_eqb name ""); [apply returns_fail|].
    destruct (IndexSchema.find _ _); [by apply IHq|apply returns_fail].
  - unfold build_range. rewrite Hschema. destruct (IndexSchema.find schema name) eqn:Hf; [|apply returns_fail].
    case_bool_decide; [apply returns_fail|]. eapply returns_bind; [apply returns_any|]. intros lower _.
    eapply returns_bind; [apply returns_any|]. intros upper _. apply returns_make. cbn. by eexists.
  - destruct (_ || _); [apply returns_fail|]. by apply IHq.
  - by apply returns_make.
Qed.
End planning.

Lemma planned_ok v options schema q p : view_schema v = schema ->
  usable_boosts schema (default_fields options) q None d_one = true -> plan v q options = Ok p -> plan_ok schema p.
Proof.
  intros Hs Hu H. unfold plan in H. apply bind_Ok in H as ([] & _ & H).
  destruct (Builder.build _ _ _ _ _ _ _) as [[root s]|] eqn:E; [|done]. injection H as <-.
  by apply (build_ok v options schema Hs q None d_one 0 Hu) in E.
Qed.

(** Queries without boosts. *)
Fixpoint boost_free (q : Query) : bool :=
  match q with
  | BoostQuery _ _ _ => false
  | AndQuery _ l r | OrQuery _ l r => boost_free l && boost_free r
  | NotQuery _ q | FieldQuery _ _ q => boost_free q
  | _ => true
  end.

(** In the default schema every field has boost one. *)
Lemma default_leaf name : usable_leaf IndexSchema.default_schema name d_one = true.
Proof.
  unfold usable_leaf. destruct (IndexSchema.find IndexSchema.default_schema name) as [definition|] eqn:Hf; [|done].
  assert (fd_boost definition = d_one) as ->; [|by vm_compute].
  apply (create_find _ _ _ _ default_schema_ok) in Hf as [Hin _]. unfold IndexSchema.default_definitions in Hin.
  rewrite !elem_of_cons in Hin. by destruct Hin as [->|[->|[->|[->|Hin%not_elem_of_nil]]]].
Qed.

Lemma boost_free_usable q : forall field, boost_free q = true ->
  usable_boosts IndexSchema.default_schema default_search_fields q field d_one = true.
Proof.
  assert (Hover : forall field, usable_over IndexSchema.default_schema default_search_fields field d_one = true).
  { intros [name|]; [apply default_leaf|]. cbn [usable_over default_search_fields forallb search_name search_boost].
    change (d_mul d_one d_one) with d_one. by rewrite !default_leaf. }
  induction q; intros scope Hq; cbn [usable_boosts boost_free] in *; try apply Hover; try done;
    try (apply andb_prop in Hq as [? ?]); auto with bool.
Qed.
