(* ===== verification/Segment.v ===== *)
(** * Segments: the immutable index file

    src/storage/segment.cpp and include/dse/storage/segment.hpp: the encoding
    of a snapshot in both posting formats, the reader with all its checks, and
    the reader's queries.  A file is the list of its bytes; the directory it
    lives in is modelled in Store.v.  Offsets and sizes of a file that fits in
    memory are below 2^63, so their sums are not wrapped. *)

From S2P Require Import Prelude Bytes Codec Text Cursor Doubles Analysis Schema Types Index.
From Stdlib Require Import Ascii SpecFloat.

Inductive SegmentErrorCode :=
| segment_io_error | segment_corruption | segment_unsupported_version | segment_resource_limit
| segment_invalid_snapshot.

#[export] Instance SegmentErrorCode_eq_dec : EqDecision SegmentErrorCode.
Proof. solve_decision. Defined.

Record SegmentError := { segment_code : SegmentErrorCode; segment_message : string }.

Definition segment_fail (code : SegmentErrorCode) (message : string) : SegmentError :=
  {| segment_code := code; segment_message := message |}.

Definition describe_segment (code : SegmentErrorCode) : string :=
  match code with
  | segment_io_error => "segment I/O error"
  | segment_corruption => "segment corruption"
  | segment_unsupported_version => "unsupported segment version"
  | segment_resource_limit => "segment resource limit exceeded"
  | segment_invalid_snapshot => "invalid index snapshot"
  end.

Record SegmentWriteOptions := { write_segment_id : SegmentId; compressed_postings : bool }.

Record SegmentReadLimits := {
  maximum_file_bytes : Z;
  maximum_documents : Z;
  maximum_terms : Z;
  maximum_postings : Z;
  maximum_positions : Z;
  maximum_string_bytes : Z;
  maximum_fields : Z
}.

Definition default_read_limits : SegmentReadLimits :=
  {| maximum_file_bytes := 2 ^ 30; maximum_documents := 10000000; maximum_terms := 100000000;
     maximum_postings := 1000000000; maximum_positions := 4000000000;
     maximum_string_bytes := 16 * 2 ^ 20; maximum_fields := 4096 |}.

Definition kMagic : list byte := string_bytes "DSESEG01".
Definition kMajor : Z := 1.
Definition kMaximumMinor : Z := 1.
Definition kCompressedPostings : Z := 1.
Definition kHeaderBytes : Z := 64.
Definition kDirectoryEntryBytes : Z := 32.
Definition kSectionCount : Z := 6.

(** ** The schema section *)

Definition field_type_code (t : FieldType) : Z :=
  match t with ft_text => 0 | ft_keyword => 1 | ft_int64 => 2 | ft_timestamp => 3 end.

Definition field_type_of (code : Z) : option FieldType :=
  match code with
  | 0 => Some ft_text | 1 => Some ft_keyword | 2 => Some ft_int64 | 3 => Some ft_timestamp
  | _ => None
  end.

(** The [add] lambda. *)
Definition fingerprint_add (hash : Z) (value : string) : Z :=
  wrap64 (Z.lxor (fold_left fnv_step (string_bytes value) hash) 255 * fnv_prime).

Definition bit_text (b : bool) : string := if b then "1" else "0".

Definition schema_fingerprint (schema : IndexSchema) : Z :=
  foldl (fun hash '(name, field) =>
    let hash := fingerprint_add hash name in
    let hash := fingerprint_add hash (to_string_u (field_type_code (fd_type field))) in
    let hash := fingerprint_add hash (bit_text (fd_indexed field)) in
    let hash := fingerprint_add hash (bit_text (fd_stored field)) in
    let hash := fingerprint_add hash (to_string_u (d_bits (fd_boost field))) in
    fingerprint_add hash (match fd_analyzer field with Some a => descriptor a | None => "none" end))
    fnv_offset (map_items (IndexSchema.fields_ schema)).

Definition put_bool (b : bool) : list byte := put_u8 (if b then 1 else 0).

Definition encode_field (item : string * FieldDefinition) : list byte :=
  let '(name, field) := item in
  put_string name ++ put_u8 (field_type_code (fd_type field)) ++ put_bool (fd_indexed field) ++
  put_bool (fd_stored field) ++ put_u8 0 ++ put_u64 (d_bits (fd_boost field)) ++
  put_string (match fd_analyzer field with Some a => descriptor a | None => "" end).

Definition encode_schema (schema : IndexSchema) : list byte :=
  put_u64 (schema_fingerprint schema) ++ put_u64 (Z.of_nat (size (IndexSchema.fields_ schema))) ++
  (map_items (IndexSchema.fields_ schema) ≫= encode_field).

(** ** The documents and statistics sections *)

Definition encode_string_pair (item : string * string) : list byte :=
  put_string item.1 ++ put_string item.2.

Definition encode_string_map (values : gmap string string) : list byte :=
  put_u64 (Z.of_nat (size values)) ++ (map_items values ≫= encode_string_pair).

Definition encode_length (item : string * Z) : list byte := put_string item.1 ++ put_u32 item.2.

Definition encode_terms (item : string * list string) : list byte :=
  put_string item.1 ++ put_u64 (zlen item.2) ++ (item.2 ≫= put_string).

Definition encode_document (item : DocumentId * DocumentRecord) : list byte :=
  let '(external, record) := item in
  put_u32 (internal_id record) ++ put_string external ++ put_u64 (doc_version (document record)) ++
  put_bool (doc_deleted (document record)) ++ encode_string_map (doc_fields (document record)) ++
  encode_string_map (doc_stored_metadata (document record)) ++
  put_u64 (Z.of_nat (size (field_lengths record))) ++ (map_items (field_lengths record) ≫= encode_length) ++
  put_u64 (Z.of_nat (size (indexed_terms record))) ++ (map_items (indexed_terms record) ≫= encode_terms).

Definition encode_documents (snapshot : IndexSnapshot) : list byte :=
  put_u64 (Z.of_nat (size (snap_documents snapshot))) ++ (map_items (snap_documents snapshot) ≫= encode_document).

Definition encode_statistic (item : string * FieldStatistics) : list byte :=
  let '(field, stats) := item in
  put_string field ++ put_u64 (fs_document_count stats) ++ put_u64 (fs_total_length stats).

Definition encode_statistics (snapshot : IndexSnapshot) : list byte :=
  put_u64 (Z.of_nat (size (snap_statistics snapshot))) ++ (map_items (snap_statistics snapshot) ≫= encode_statistic).

(** ** The terms, postings and positions sections *)

Record EncodedIndex := {
  encoded_terms : list byte;
  encoded_postings : list byte;
  encoded_positions : list byte;
  term_count : Z;
  posting_count : Z;
  position_count : Z
}.

Definition empty_encoded : EncodedIndex :=
  {| encoded_terms := []; encoded_postings := []; encoded_positions := []; term_count := 0;
     posting_count := 0; position_count := 0 |}.

(** The inner loop of the compressed format. *)
Fixpoint encode_position_deltas (previous : Z) (positions : list Z) : list byte :=
  match positions with
  | [] => []
  | p :: rest => VariableByteCodec.encode (wrap32 (p - previous)) ++ encode_position_deltas p rest
  end.

Fixpoint encode_compressed (previous_document : Z) (ps : list Posting) : list byte :=
  match ps with
  | [] => []
  | p :: rest =>
      VariableByteCodec.encode (wrap32 (posting_document_id p - previous_document)) ++
      VariableByteCodec.encode (term_frequency p) ++ encode_position_deltas 0 (positions p) ++
      encode_compressed (posting_document_id p) rest
  end.

(** One posting of the raw format; its positions follow the ones before. *)
Definition encode_raw (result : EncodedIndex) (p : Posting) : EncodedIndex :=
  {| encoded_terms := encoded_terms result;
     encoded_postings := encoded_postings result ++ put_u32 (posting_document_id p) ++
       put_u32 (term_frequency p) ++ put_u64 (position_count result) ++ put_u64 (zlen (positions p));
     encoded_positions := encoded_positions result ++ (positions p ≫= put_u32);
     term_count := term_count result;
     posting_count := posting_count result + 1;
     position_count := position_count result + zlen (positions p) |}.

Definition count_compressed (result : EncodedIndex) (ps : list Posting) : EncodedIndex :=
  {| encoded_terms := encoded_terms result;
     encoded_postings := encoded_postings result ++ encode_compressed 0 ps;
     encoded_positions := encoded_positions result;
     term_count := term_count result;
     posting_count := posting_count result + zlen ps;
     position_count := foldl (fun n p => n + zlen (positions p)) (position_count result) ps |}.

Definition encode_term (compressed : bool) (field : string) (result : EncodedIndex)
    (item : string * TermEntry) : EncodedIndex :=
  let '(term, entry) := item in
  let posting_start := if compressed then zlen (encoded_postings result) else posting_count result in
  let written := if compressed then count_compressed result (postings entry)
                 else foldl encode_raw result (postings entry) in
  {| encoded_terms := encoded_terms written ++ put_string field ++ put_string term ++
       put_u32 (document_frequency entry) ++ put_u32 0 ++ put_u64 posting_start ++
       put_u64 (if compressed then zlen (encoded_postings written) - posting_start
                else zlen (postings entry));
     encoded_postings := encoded_postings written;
     encoded_positions := encoded_positions written;
     term_count := term_count written + 1;
     posting_count := posting_count written;
     position_count := position_count written |}.

Definition encode_index (snapshot : IndexSnapshot) (compressed : bool) : EncodedIndex :=
  foldl (fun result '(field, dictionary) =>
      foldl (encode_term compressed field) result (map_items dictionary))
    empty_encoded (map_items (snap_fields snapshot)).

(** ** The file *)

Record SectionData := { section_bytes : list byte; section_count : Z }.

Definition sections_of (snapshot : IndexSnapshot) (compressed : bool) : list SectionData :=
  let encoded := encode_index snapshot compressed in
  [ {| section_bytes := encode_schema (snap_schema snapshot);
       section_count := Z.of_nat (size (IndexSchema.fields_ (snap_schema snapshot))) |};
    {| section_bytes := encode_documents snapshot; section_count := Z.of_nat (size (snap_documents snapshot)) |};
    {| section_bytes := encode_statistics snapshot; section_count := Z.of_nat (size (snap_statistics snapshot)) |};
    {| section_bytes := encoded_terms encoded; section_count := term_count encoded |};
    {| section_bytes := encoded_postings encoded; section_count := posting_count encoded |};
    {| section_bytes := encoded_positions encoded; section_count := position_count encoded |} ].

(** The directory entries of the sections from the [number]th on, the first of
    which starts at [offset]: what the loop of overwrites leaves. *)
Fixpoint encode_directory (number offset : Z) (sections : list SectionData) : list byte :=
  match sections with
  | [] => []
  | section :: rest =>
      put_u32 number ++ put_u32 0 ++ put_u64 offset ++ put_u64 (zlen (section_bytes section)) ++
      put_u64 (section_count section) ++
      encode_directory (number + 1) (offset + zlen (section_bytes section)) rest
  end.

Definition zero_bytes (n : nat) : list byte := replicate n (byte_of 0).

(** What [SegmentWriter::write] puts in the file. *)
Definition encode_segment (snapshot : IndexSnapshot) (options : SegmentWriteOptions) : list byte :=
  let compressed := compressed_postings options in
  let sections := sections_of snapshot compressed in
  let body := encode_directory 1 (kHeaderBytes + kSectionCount * kDirectoryEntryBytes) sections ++
              (sections ≫= section_bytes) in
  kMagic ++ put_u16 kMajor ++ put_u16 (if compressed then 1 else 0) ++ put_u32 kHeaderBytes ++
  put_u64 (kHeaderBytes + zlen body) ++ put_u64 (write_segment_id options) ++ put_u32 kSectionCount ++
  put_u32 (if compressed then kCompressedPostings else 0) ++ put_u32 (crc32c body) ++ zero_bytes 20 ++ body.

(** ** Reading: [Cursor] *)

Notation corrupt := (segment_fail segment_corruption).
Notation exceeded := (segment_fail segment_resource_limit).

Notation read_u8 := (read_int (corrupt "truncated segment integer") 1).
Notation read_u16 := (read_int (corrupt "truncated segment integer") 2).
Notation read_u32 := (read_int (corrupt "truncated segment integer") 4).
Notation read_u64 := (read_int (corrupt "truncated segment integer") 8).

Section reading.
Context (limits : SegmentReadLimits).

Definition read_text : reader SegmentError string :=
  read_string (exceeded "segment string limit exceeded") (corrupt "truncated segment string")
    (corrupt "truncated segment integer") (Some (maximum_string_bytes limits)).

(** *** [analyzer_from] *)

(** The [number] lambda: digits up to a colon, and what follows it. *)
Definition descriptor_number (s : string) : option (Z * string) :=
  match span (fun c => negb (bool_decide (c = ":"%char))) s with
  | (_, EmptyString) => None
  | (digits, String _ rest) =>
      match whole (from_chars_unsigned u64_max digits) with
      | Some value => Some (value, rest)
      | None => None
      end
  end.

Fixpoint descriptor_words (count : nat) (words : gset string) (s : string)
    : expected SegmentError (gset string * string) :=
  match count with
  | O => Ok (words, s)
  | S count' =>
      match descriptor_number s with
      | None => Err (corrupt "invalid analyzer stop-word descriptor")
      | Some (length, rest) =>
          if length >? zstrlen rest then Err (corrupt "invalid analyzer stop-word descriptor")
          else descriptor_words count' (words ∪ {[str_take (Z.to_nat length) rest]})
                 (str_drop (Z.to_nat length) rest)
      end
  end.

Definition analyzer_from (text : string) : expected SegmentError (option Analyzer) :=
  if str_eqb text "" then Ok None
  else if str_eqb text "keyword-v1" then Ok (Some KeywordAnalyzer.make)
  else
    match strip_prefix "standard-v1:" text with
    | None => Err (segment_fail segment_unsupported_version "unsupported analyzer descriptor")
    | Some rest =>
        match descriptor_number rest with
        | None => Err (corrupt "invalid analyzer descriptor")
        | Some (count, rest') =>
            '(words, rest'') ← descriptor_words (Z.to_nat count) ∅ rest';
            match rest'' with
            | EmptyString => Ok (Some (StandardAnalyzer.make words))
            | String _ _ => Err (corrupt "trailing analyzer descriptor data")
            end
        end
    end.

Definition read_lift {A} (m : expected SegmentError A) : reader SegmentError A := fun bs =>
  match m with Ok a => Ok (a, bs) | Err e => Err e end.

(** *** The schema section *)

Definition read_field : reader SegmentError FieldDefinition :=
  '(name, type, indexed, stored, boost, text) ←
    read_or (corrupt "invalid persisted field definition")
      (name ← read_text; type ← read_u8; indexed ← read_u8; stored ← read_u8; reserved ← read_u8;
       boost ← read_u64; text ← read_text;
       _ ← read_ensure ((reserved =? 0) && (type <=? 3) && (indexed <=? 1) && (stored <=? 1))
             (corrupt "invalid persisted field definition");
       mret (name, type, indexed, stored, d_of_bits boost, text));
  analyzer ← read_lift (analyzer_from text);
  match field_type_of type with
  | None => read_fail (corrupt "invalid persisted field definition") (* not reached: type <= 3 *)
  | Some field_type =>
      mret {| fd_name := name; fd_type := field_type; fd_indexed := negb (indexed =? 0);
              fd_stored := negb (stored =? 0); fd_boost := boost; fd_analyzer := analyzer |}
  end.

Definition read_schema (count : Z) : reader SegmentError (Z * list FieldDefinition) :=
  '(fingerprint, field_count) ← read_or (corrupt "invalid segment schema count")
    (fingerprint ← read_u64; field_count ← read_u64;
     _ ← read_ensure (field_count =? count) (corrupt "invalid segment schema count");
     mret (fingerprint, field_count));
  _ ← read_ensure (field_count <=? maximum_fields limits)
        (exceeded "segment schema field limit exceeded");
  definitions ← read_many (Z.to_nat field_count) read_field;
  mret (fingerprint, definitions).

Definition open_schema (section : SectionData) : expected SegmentError IndexSchema :=
  '(fingerprint, definitions) ←
    read_all (corrupt "trailing schema data") (read_schema (section_count section)) (section_bytes section);
  schema ← map_err (fun e => corrupt (schema_message e)) (IndexSchema.create definitions);
  if schema_fingerprint schema =? fingerprint then Ok schema
  else Err (corrupt "schema fingerprint mismatch").

(** *** The documents section *)

Definition read_string_map : reader SegmentError (gmap string string) :=
  count ← read_u64;
  _ ← read_ensure (count <=? maximum_fields limits) (exceeded "segment map count limit exceeded");
  read_entries (corrupt "duplicate segment map key") (Z.to_nat count)
    (key ← read_text; value ← read_text; mret (key, value)).

Definition read_lengths : reader SegmentError (gmap string Z) :=
  count ← read_or (exceeded "field length count exceeded")
    (read_such (exceeded "field length count exceeded") (fun n => n <=? maximum_fields limits) read_u64);
  read_entries (corrupt "invalid field length record") (Z.to_nat count)
    (read_or (corrupt "invalid field length record")
       (field ← read_text; length ← read_u32; mret (field, length))).

Definition read_terms : reader SegmentError (gmap string (list string)) :=
  count ← read_or (exceeded "indexed field count exceeded")
    (read_such (exceeded "indexed field count exceeded") (fun n => n <=? maximum_fields limits) read_u64);
  read_entries (corrupt "duplicate indexed field") (Z.to_nat count)
    ('(field, terms) ← read_or (exceeded "indexed term count exceeded")
       (field ← read_text;
        count ← read_such (exceeded "indexed term count exceeded") (fun n => n <=? maximum_terms limits) read_u64;
        mret (field, count));
     terms ← read_many (Z.to_nat terms) read_text;
     mret (field, terms)).

Definition read_document : reader SegmentError (DocumentId * DocumentRecord) :=
  '(internal, external, version, deleted) ← read_or (corrupt "invalid segment document header")
    (internal ← read_u32; external ← read_text; version ← read_u64; deleted ← read_u8;
     _ ← read_ensure (negb (internal =? 0) && negb (str_eqb external "") && (deleted <=? 1))
           (corrupt "invalid segment document header");
     mret (internal, external, version, deleted));
  fields ← read_string_map; metadata ← read_string_map;
  lengths ← read_lengths; terms ← read_terms;
  mret (external,
    {| internal_id := internal;
       document := {| doc_id := external; doc_fields := fields; doc_stored_metadata := metadata;
                      doc_version := version; doc_deleted := negb (deleted =? 0) |};
       field_lengths := lengths; indexed_terms := terms |}).

Definition add_document (maps : ExternalIdMap * DocumentRecords) (id : DocumentId) (record : DocumentRecord)
    : reader SegmentError (ExternalIdMap * DocumentRecords) :=
  let e := corrupt "duplicate segment document ID" in
  external_ids ← read_emplace e maps.1 (internal_id record) id;
  documents ← read_emplace e maps.2 id record;
  mret (external_ids, documents).

Definition read_documents (count : Z) : reader SegmentError (ExternalIdMap * DocumentRecords) :=
  document_count ← read_or (exceeded "invalid segment document count")
    (read_such (exceeded "invalid segment document count")
       (fun n => (n =? count) && (n <=? maximum_documents limits)) read_u64);
  read_fold (Z.to_nat document_count) (fun maps =>
    '(id, record) ← read_document; add_document maps id record) (∅, ∅).

Definition open_documents (section : SectionData) : expected SegmentError (ExternalIdMap * DocumentRecords) :=
  read_all (corrupt "trailing document data") (read_documents (section_count section)) (section_bytes section).

(** *** The statistics section *)

Definition read_statistic : reader SegmentError (string * FieldStatistics) :=
  read_or (corrupt "invalid field statistics")
    (field ← read_text; count ← read_u64; total ← read_u64;
     _ ← read_ensure (negb (count =? 0)) (corrupt "invalid field statistics");
     mret (field, {| fs_document_count := count; fs_total_length := total;
                     fs_average_length := d_div (d_of_Z total) (d_of_Z count) |})).

Definition read_statistics (count : Z) : reader SegmentError (gmap string FieldStatistics) :=
  stats_count ← read_or (exceeded "invalid statistics count")
    (read_such (exceeded "invalid statistics count")
       (fun n => (n =? count) && (n <=? maximum_fields limits)) read_u64);
  read_entries (corrupt "invalid field statistics") (Z.to_nat stats_count) read_statistic.

Definition open_statistics (section : SectionData) : expected SegmentError (gmap string FieldStatistics) :=
  read_all (corrupt "trailing statistics data") (read_statistics (section_count section))
    (section_bytes section).

(** *** Positions and raw postings *)

Definition open_positions (compressed : bool) (section : SectionData) : expected SegmentError (list Z) :=
  let count := section_count section in
  let bytes := section_bytes section in
  if (count >? maximum_positions limits) ||
     (negb compressed && ((count >? u64_max / 4) || negb (zlen bytes =? wrap64 (count * 4)))) ||
     (compressed && negb (zlen bytes =? 0))
  then Err (exceeded "invalid position section size")
  else if compressed then Ok []
  else '(positions, _) ← read_many (Z.to_nat count) read_u32 bytes; Ok positions.

Record RawPosting := { raw_document : Z; raw_frequency : Z; raw_start : Z; raw_count : Z }.

Definition read_raw_posting (position_total : Z) : reader SegmentError RawPosting :=
  read_or (corrupt "invalid posting record")
    (document ← read_u32; frequency ← read_u32; start ← read_u64; count ← read_u64;
     _ ← read_ensure ((frequency =? count) && (start <=? position_total) && (count <=? position_total - start))
           (corrupt "invalid posting record");
     mret {| raw_document := document; raw_frequency := frequency; raw_start := start; raw_count := count |}).

Definition open_postings (compressed : bool) (positions : list Z) (section : SectionData)
    : expected SegmentError (list RawPosting) :=
  let count := section_count section in
  let bytes := section_bytes section in
  if (count >? maximum_postings limits) ||
     (negb compressed && ((count >? u64_max / 24) || negb (zlen bytes =? wrap64 (count * 24))))
  then Err (exceeded "invalid posting section size")
  else if compressed then Ok []
  else '(postings, _) ← read_many (Z.to_nat count) (read_raw_posting (zlen positions)) bytes; Ok postings.

(** *** The terms section *)

Record TermState := {
  read_fields : FieldDictionaries;
  decoded_posting_count : Z;
  decoded_position_count : Z;
  expected_compressed_offset : Z
}.

(** The loop over the positions of a compressed posting. *)
Fixpoint read_position_deltas (first : bool) (n : nat) (previous : Z) : reader SegmentError (list Z) :=
  match n with
  | O => mret []
  | S n' =>
      let e := corrupt "invalid compressed position" in
      delta ← read_or e
        (delta ← VariableByteCodec.decode;
         _ ← read_ensure (negb (negb first && (delta =? 0)) && (delta <=? u32_max - previous))
               {| codec_code := codec_invalid_order; codec_message := "" |};
         mret delta);
      rest ← read_position_deltas false n' (previous + delta);
      mret (previous + delta :: rest)
  end.

Fixpoint read_compressed (n : nat) (previous_document decoded_positions : Z)
    : reader SegmentError (list Posting * Z) :=
  match n with
  | O => mret ([], decoded_positions)
  | S n' =>
      '(delta, frequency) ← read_or (corrupt "invalid compressed posting")
        (delta ← VariableByteCodec.decode; frequency ← VariableByteCodec.decode;
         _ ← read_ensure (negb (delta =? 0) && (delta <=? u32_max - previous_document) &&
                          negb (frequency =? 0) && (decoded_positions <=? maximum_positions limits) &&
                          (frequency <=? maximum_positions limits - decoded_positions))
               {| codec_code := codec_invalid_order; codec_message := "" |};
         mret (delta, frequency));
      let document := previous_document + delta in
      posting_positions ← read_position_deltas true (Z.to_nat frequency) 0;
      '(rest, total) ← read_compressed n' document (decoded_positions + frequency);
      mret ({| posting_document_id := document; term_frequency := frequency;
               positions := posting_positions |} :: rest, total)
  end.

Definition term_header : reader SegmentError (string * string * Z * Z * Z) :=
  read_or (corrupt "invalid term record")
    (field ← read_text; term ← read_text; frequency ← read_u32; reserved ← read_u32;
     start ← read_u64; count ← read_u64;
     _ ← read_ensure ((reserved =? 0) && negb (str_eqb term "") && negb (frequency =? 0))
           (corrupt "invalid term record");
     mret (field, term, frequency, start, count)).

(** The postings of a term and the state after them. *)
Definition compressed_entry (posting_bytes : list byte) (state : TermState) (frequency start count : Z)
    : expected SegmentError (list Posting * TermState) :=
  if negb (start =? expected_compressed_offset state) || (start >? zlen posting_bytes) ||
     (count >? zlen posting_bytes - start)
  then Err (corrupt "invalid compressed posting range")
  else
    '(ps, positions) ← read_all (corrupt "trailing compressed posting bytes")
      (read_compressed (Z.to_nat frequency) 0 (decoded_position_count state))
      (take (Z.to_nat count) (drop (Z.to_nat start) posting_bytes));
    if count >? u64_max - expected_compressed_offset state
    then Err (corrupt "compressed posting offset overflow")
    else Ok (ps, {| read_fields := read_fields state;
                    decoded_posting_count := decoded_posting_count state + frequency;
                    decoded_position_count := positions;
                    expected_compressed_offset := expected_compressed_offset state + count |}).

Definition posting_of_raw (all_positions : list Z) (raw : RawPosting) : Posting :=
  {| posting_document_id := raw_document raw; term_frequency := raw_frequency raw;
     positions := take (Z.to_nat (raw_count raw)) (drop (Z.to_nat (raw_start raw)) all_positions) |}.

Definition raw_entry (all_positions : list Z) (raws : list RawPosting) (state : TermState)
    (frequency start count : Z) : expected SegmentError (list Posting * TermState) :=
  if negb (frequency =? count) || (start >? zlen raws) || (count >? zlen raws - start)
  then Err (corrupt "invalid term posting range")
  else Ok (posting_of_raw all_positions <$> take (Z.to_nat count) (drop (Z.to_nat start) raws), state).

Definition read_term (compressed : bool) (posting_bytes : list byte) (all_positions : list Z)
    (raws : list RawPosting) (state : TermState) : reader SegmentError TermState :=
  '(field, term, frequency, start, count) ← term_header;
  '(ps, state') ← read_lift
    (if compressed then compressed_entry posting_bytes state frequency start count
     else raw_entry all_positions raws state frequency start count);
  dictionary ← read_emplace (corrupt "duplicate segment term")
    (default ∅ (read_fields state' !! field)) term
    {| document_frequency := frequency; postings := ps |};
  mret {| read_fields := <[field := dictionary]> (read_fields state');
          decoded_posting_count := decoded_posting_count state';
          decoded_position_count := decoded_position_count state';
          expected_compressed_offset := expected_compressed_offset state' |}.

Definition open_terms (compressed : bool) (term_section posting_section position_section : SectionData)
    (all_positions : list Z) (raws : list RawPosting) : expected SegmentError FieldDictionaries :=
  if section_count term_section >? maximum_terms limits then Err (exceeded "term count limit exceeded")
  else
    '(state, rest) ←
      read_fold (Z.to_nat (section_count term_section))
        (read_term compressed (section_bytes posting_section) all_positions raws)
        {| read_fields := ∅; decoded_posting_count := 0; decoded_position_count := 0;
           expected_compressed_offset := 0 |} (section_bytes term_section);
    if compressed &&
       (negb (expected_compressed_offset state =? zlen (section_bytes posting_section)) ||
        negb (decoded_posting_count state =? section_count posting_section) ||
        negb (decoded_position_count state =? section_count position_section))
    then Err (corrupt "compressed section count mismatch")
    else match rest with
         | [] => Ok (read_fields state)
         | _ :: _ => Err (corrupt "trailing term data")
         end.
End reading.

(** ** The reader: [SegmentReader] *)

Module SegmentReader.

Record SegmentReader := {
  segment_id_ : SegmentId;
  schema_ : IndexSchema;
  fields_ : FieldDictionaries;
  documents_ : DocumentRecords;
  external_ids_ : ExternalIdMap;
  statistics_ : gmap string FieldStatistics
}.

Definition lookup (reader : SegmentReader) (field term : string) : option TermEntry :=
  match fields_ reader !! field with None => None | Some dictionary => dictionary !! term end.

Definition find_document (reader : SegmentReader) (id : DocumentId) : option DocumentRecord :=
  documents_ reader !! id.

Definition external_id (reader : SegmentReader) (id : InternalDocumentId) : option DocumentId :=
  external_ids_ reader !! id.

Definition document_internal (reader : SegmentReader) (id : InternalDocumentId) : option DocumentRecord :=
  match external_id reader id with Some external => find_document reader external | None => None end.

Definition internal_id_of (reader : SegmentReader) (id : DocumentId) : option InternalDocumentId :=
  match find_document reader id with Some record => Some (internal_id record) | None => None end.

Definition live_document_ids (reader : SegmentReader) : list InternalDocumentId :=
  omap (fun '(id, external) =>
    match find_document reader external with
    | Some record => if InMemoryIndex.is_live record then Some id else None
    | None => None
    end) (map_items (external_ids_ reader)).

Definition live_document_count (reader : SegmentReader) : Z :=
  zlen (filter (fun item => InMemoryIndex.is_live item.2 = true) (map_items (documents_ reader))).

Definition field_statistics (reader : SegmentReader) (field : string) : FieldStatistics :=
  match statistics_ reader !! field with
  | None => {| fs_document_count := 0; fs_total_length := 0; fs_average_length := d_zero |}
  | Some statistic => statistic
  end.

Definition view (reader : SegmentReader) : SearchIndexView :=
  {| view_lookup := lookup reader;
     view_document := find_document reader;
     view_document_internal := document_internal reader;
     view_internal_id := internal_id_of reader;
     view_external_id := external_id reader;
     view_live_document_ids := live_document_ids reader;
     view_live_document_count := live_document_count reader;
     view_field_statistics := field_statistics reader;
     view_schema := schema_ reader |}.

(** *** [validate_invariants]: the reason where the source returns false *)

(** [is_sorted] and no two neighbours equal. *)
Definition sorted_unique {A} (le : A -> A -> bool) (eq : A -> A -> bool) (l : list A) : bool :=
  adjacent_all le l && adjacent_all (fun x y => negb (eq x y)) l.

(** [std::ranges::binary_search] *)
Definition contains_sorted {A} (lt : A -> bool) (eq : A -> bool) (l : list A) : bool :=
  match lower_bound lt l with x :: _ => eq x | [] => false end.

Definition validate_posting (reader : SegmentReader) (field term : string) (posting : Posting)
    : expected string unit :=
  match document_internal reader (posting_document_id posting) with
  | None => Err "invalid posting"
  | Some record =>
      _ ← ensure (InMemoryIndex.is_live record && negb (term_frequency posting =? 0) &&
                  (term_frequency posting =? zlen (positions posting)) &&
                  sorted_unique Z.leb Z.eqb (positions posting) &&
                  bool_decide (is_Some (field_lengths record !! field))) "invalid posting";
      match indexed_terms record !! field with
      | None => Err "posting absent from document term references"
      | Some terms => ensure (contains_sorted (fun t => str_ltb t term) (str_eqb term) terms)
                        "posting absent from document term references"
      end
  end.

Definition validate_term (reader : SegmentReader) (field : string) (item : string * TermEntry)
    : expected string unit :=
  let '(term, entry) := item in
  _ ← ensure (bool_decide (is_Some (IndexSchema.find (schema_ reader) field)) && negb (str_eqb term "") &&
              (document_frequency entry =? zlen (postings entry)) &&
              sorted_unique Z.leb Z.eqb (posting_document_id <$> postings entry)) "invalid term entry";
  check_each (validate_posting reader field term) (postings entry).

Definition known_field (reader : SegmentReader) (reason : string) (item : string * string)
    : expected string unit :=
  ensure (bool_decide (is_Some (IndexSchema.find (schema_ reader) item.1))) reason.

Definition expect_length (reader : SegmentReader) (expected_statistics : gmap string FieldAccumulator)
    (item : string * Z) : expected string (gmap string FieldAccumulator) :=
  _ ← ensure (bool_decide (is_Some (IndexSchema.find (schema_ reader) item.1)))
        "length references unknown field";
  Ok (InMemoryIndex.add_statistic expected_statistics item).

Definition validate_reference (reader : SegmentReader) (record : DocumentRecord) (field term : string)
    : expected string unit :=
  match lookup reader field term with
  | None => Err "document term reference has no posting"
  | Some entry =>
      ensure (contains_sorted (fun p => posting_document_id p <? internal_id record)
                (fun p => posting_document_id p =? internal_id record) (postings entry))
        "document term reference has no posting"
  end.

Definition validate_references (reader : SegmentReader) (record : DocumentRecord)
    (item : string * list string) : expected string unit :=
  let '(field, terms) := item in
  _ ← ensure (sorted_unique str_leb str_eqb terms) "invalid document term references";
  check_each (validate_reference reader record field) terms.

Definition validate_document (reader : SegmentReader) (expected_statistics : gmap string FieldAccumulator)
    (item : string * DocumentRecord) : expected string (gmap string FieldAccumulator) :=
  let '(id, record) := item in
  _ ← ensure (str_eqb id (doc_id (document record)) &&
              bool_decide (external_ids_ reader !! internal_id record = Some id) &&
              (InMemoryIndex.is_live record ||
               (bool_decide (field_lengths record = ∅) && bool_decide (indexed_terms record = ∅))))
        "invalid document record";
  _ ← check_each (known_field reader "document references unknown field")
        (map_items (doc_fields (document record)));
  _ ← check_each (known_field reader "metadata references unknown field")
        (map_items (doc_stored_metadata (document record)));
  if InMemoryIndex.is_live record then
    statistics ← fold_each (expect_length reader) expected_statistics (map_items (field_lengths record));
    _ ← check_each (validate_references reader record) (map_items (indexed_terms record));
    Ok statistics
  else Ok expected_statistics.

Definition validate_statistic (reader : SegmentReader) (item : string * FieldAccumulator)
    : expected string unit :=
  let '(field, expected) := item in
  ensure match statistics_ reader !! field with
         | Some actual => (fs_document_count actual =? acc_document_count expected) &&
                          (fs_total_length actual =? acc_total_length expected)
         | None => false
         end "field statistics mismatch".

Definition validate_invariants (reader : SegmentReader) : expected string unit :=
  _ ← check_each (fun '(field, dictionary) =>
        check_each (validate_term reader field) (map_items dictionary)) (map_items (fields_ reader));
  _ ← ensure (Nat.eqb (size (external_ids_ reader)) (size (documents_ reader)))
        "document mapping size mismatch";
  expected_statistics ← fold_each (validate_document reader) ∅ (map_items (documents_ reader));
  _ ← ensure (Nat.eqb (size expected_statistics) (size (statistics_ reader)))
        "field statistics size mismatch";
  check_each (validate_statistic reader) (map_items expected_statistics).

(** *** [open], on the bytes of the file *)

Record Header := {
  header_segment_id : Z;
  header_compressed : bool;
  header_checksum : Z
}.

Definition read_header (file_size : Z) : reader SegmentError Header :=
  '(major, minor, header_size, recorded_size, id, count, flags, checksum) ←
    read_or (corrupt "truncated segment header")
      (major ← read_u16; minor ← read_u16; header_size ← read_u32; recorded_size ← read_u64;
       id ← read_u64; count ← read_u32; flags ← read_u32; checksum ← read_u32;
       mret (major, minor, header_size, recorded_size, id, count, flags, checksum));
  _ ← read_ensure (major =? kMajor)
        (segment_fail segment_unsupported_version "unsupported segment major version");
  _ ← read_ensure (negb ((minor >? kMaximumMinor) ||
                         negb (Z.land flags (Z.lnot kCompressedPostings) =? 0) ||
                         (negb (Z.land flags kCompressedPostings =? 0) && (minor <? 1))))
        (segment_fail segment_unsupported_version "unsupported segment features");
  _ ← read_ensure ((header_size =? kHeaderBytes) && (recorded_size =? file_size) && negb (id =? 0) &&
                   (count =? kSectionCount)) (corrupt "invalid segment header values");
  mret {| header_segment_id := id; header_compressed := negb (Z.land flags kCompressedPostings =? 0);
          header_checksum := checksum |}.

(** The loop over the directory: the sections, cut from the file. *)
Fixpoint read_directory (n : nat) (bytes : list byte) (number expected_offset : Z)
    : reader SegmentError (list SectionData * Z) :=
  match n with
  | O => mret ([], expected_offset)
  | S n' =>
      '(length, count) ← read_or (corrupt "invalid segment section directory")
        (type ← read_u32; reserved ← read_u32; offset ← read_u64; length ← read_u64; count ← read_u64;
         _ ← read_ensure ((reserved =? 0) && (type =? number) && (offset =? expected_offset) &&
                          (length <=? zlen bytes - offset)) (corrupt "invalid segment section directory");
         mret (length, count));
      '(rest, final) ← read_directory n' bytes (number + 1) (expected_offset + length);
      mret ({| section_bytes := take (Z.to_nat length) (drop (Z.to_nat expected_offset) bytes);
               section_count := count |} :: rest, final)
  end.

Definition open_sections (bytes : list byte) : expected SegmentError (list SectionData) :=
  let start := kHeaderBytes + kSectionCount * kDirectoryEntryBytes in
  '(sections, final, _) ←
    (fun '(x, rest) => (x, rest)) <$>
      read_directory (Z.to_nat kSectionCount) bytes 1 start (drop (Z.to_nat kHeaderBytes) bytes);
  if final =? zlen bytes then Ok sections
  else Err (corrupt "trailing or missing segment section bytes").

Definition decode_body (limits : SegmentReadLimits) (header : Header) (sections : list SectionData)
    : expected SegmentError SegmentReader :=
  match sections with
  | [schema_section; document_section; statistics_section; term_section; posting_section; position_section] =>
      schema ← open_schema limits schema_section;
      '(external_ids, documents) ← open_documents limits document_section;
      statistics ← open_statistics limits statistics_section;
      let compressed := header_compressed header in
      positions ← open_positions limits compressed position_section;
      raws ← open_postings limits compressed positions posting_section;
      fields ← open_terms limits compressed term_section posting_section position_section positions raws;
      let reader :=
        {| segment_id_ := header_segment_id header; schema_ := schema; fields_ := fields;
           documents_ := documents; external_ids_ := external_ids; statistics_ := statistics |} in
      _ ← map_err (fun reason => corrupt ("segment invariant failed: " +:+ reason))
            (validate_invariants reader);
      Ok reader
  | _ => Err (corrupt "") (* not reached: [open_sections] returns six sections *)
  end.

Definition open (bytes : list byte) (limits : SegmentReadLimits) : expected SegmentError SegmentReader :=
  let file_size := zlen bytes in
  _ ← ensure (file_size <=? maximum_file_bytes limits) (exceeded "segment file size limit exceeded");
  _ ← ensure (negb (file_size <? kHeaderBytes + kSectionCount * kDirectoryEntryBytes))
        (corrupt "segment is shorter than its header");
  _ ← ensure (bool_decide (take 8 bytes = kMagic)) (corrupt "invalid segment magic");
  '(header, _) ← read_header file_size (take (Z.to_nat (kHeaderBytes - 8)) (drop 8 bytes));
  _ ← ensure (bool_decide (take 20 (drop 44 bytes) = zero_bytes 20)) (corrupt "nonzero reserved header bytes");
  _ ← ensure (crc32c (drop (Z.to_nat kHeaderBytes) bytes) =? header_checksum header)
        (corrupt "segment checksum mismatch");
  sections ← open_sections bytes;
  decode_body limits header sections.

End SegmentReader.

Notation SegmentReader := SegmentReader.SegmentReader.
