(* ===== verification/SegmentSpec.v ===== *)
(** * Segments: what is written is read back

    Section by section, then for whole files: the reader returns the snapshot
    that was written, in both posting formats, whenever it is within the
    reader's limits. *)

From S2P Require Import Prelude Bytes Codec Text Cursor Doubles Analysis Schema Types Index IndexSpec Segment.
From Stdlib Require Import Ascii SpecFloat.

(** ** What a snapshot must satisfy to be readable *)

Section limits.
Context (limits : SegmentReadLimits).

Definition text_fits (s : string) : Prop := zstrlen s <= maximum_string_bytes limits.

#[export] Instance text_fits_dec s : Decision (text_fits s).
Proof. unfold text_fits. apply _. Defined.

Definition builtin_analyzer (a : option Analyzer) : Prop :=
  match a with
  | None => True
  | Some a => a = KeywordAnalyzer.make \/ exists words, a = StandardAnalyzer.make words
  end.

Definition field_fits (name : string) (field : FieldDefinition) : Prop :=
  text_fits name /\ d_valid (fd_boost field) = true /\ builtin_analyzer (fd_analyzer field) /\
  text_fits (match fd_analyzer field with Some a => descriptor a | None => "" end).

Definition map_fits {A} (P : string -> A -> Prop) (m : gmap string A) : Prop :=
  Z.of_nat (size m) <= maximum_fields limits /\ map_Forall P m.

Definition schema_fits (schema : IndexSchema) : Prop :=
  map_fits field_fits (IndexSchema.fields_ schema) /\ schema_ok schema.

Definition record_fits (id : DocumentId) (r : DocumentRecord) : Prop :=
  1 <= internal_id r <= u32_max /\ id <> "" /\ text_fits id /\ doc_id (document r) = id /\
  is_u64 (doc_version (document r)) /\
  map_fits (fun k v => text_fits k /\ text_fits v) (doc_fields (document r)) /\
  map_fits (fun k v => text_fits k /\ text_fits v) (doc_stored_metadata (document r)) /\
  map_fits (fun k n => text_fits k /\ is_u32 n) (field_lengths r) /\
  map_fits (fun k terms => text_fits k /\ zlen terms <= maximum_terms limits /\ Forall text_fits terms)
    (indexed_terms r).

Definition documents_fit (documents : DocumentRecords) (external_ids : ExternalIdMap) : Prop :=
  Z.of_nat (size documents) <= maximum_documents limits /\ map_Forall record_fits documents /\
  (forall i id, external_ids !! i = Some id <->
     exists r, documents !! id = Some r /\ internal_id r = i).

Definition statistic_fits (field : string) (s : FieldStatistics) : Prop :=
  text_fits field /\ 1 <= fs_document_count s <= u64_max /\ is_u64 (fs_total_length s) /\
  fs_average_length s = d_div (d_of_Z (fs_total_length s)) (d_of_Z (fs_document_count s)).

(** Limits that are themselves sizes: 64-bit, and strings within memory. *)
Definition limits_ok : Prop :=
  maximum_string_bytes limits <= u64_max /\ maximum_fields limits <= u64_max /\
  maximum_documents limits <= u64_max /\ maximum_terms limits <= u64_max /\
  maximum_postings limits <= u64_max / 24 /\ maximum_positions limits <= u64_max / 4 /\
  maximum_file_bytes limits <= u64_max.

Context (Hlimits : limits_ok).

(** ** Analyzer descriptors *)

Lemma descriptor_number_ok n rest : is_u64 n ->
  descriptor_number (to_string_u n +:+ ":" +:+ rest) = Some (n, rest).
Proof using Type.
  intros Hn. destruct (to_string_u_spec n) as (Hd & _ & _); [unfold is_u64 in Hn; lia|].
  unfold descriptor_number. rewrite span_exact; [|clear -Hd|done].
  - cbn [String.append]. pose proof (parse_u64_to_string n Hn) as Hp. unfold parse_u64 in Hp. by rewrite Hp.
  - induction (to_string_u n) as [|c s IH]; [done|]. cbn in *. apply andb_prop in Hd as [Hc Hs].
    rewrite IH, andb_true_r by done. rewrite bool_decide_eq_false_2; [done|]. intros ->. by vm_compute in Hc.
Qed.

Lemma descriptor_words_ok l : forall words rest, Forall (fun w => is_u64 (zstrlen w)) l ->
  descriptor_words (length l) words
    (foldr (fun word acc => to_string_u (zstrlen word) +:+ ":" +:+ word +:+ acc) "" l +:+ rest) =
  Ok (words ∪ list_to_set l, rest).
Proof using Type.
  induction l as [|w l IH]; intros words rest Hl; cbn [length descriptor_words foldr].
  - by rewrite list_to_set_nil, union_empty_r_L.
  - apply Forall_cons in Hl as [Hw Hl]. rewrite !str_app_assoc.
    rewrite descriptor_number_ok by done. rewrite zstrlen_app.
    match goal with |- context [zstrlen ?a + zstrlen ?b] => pose proof (zstrlen_nonneg b);
      destruct (Z.gtb_spec (zstrlen a) (zstrlen a + zstrlen b)); [lia|] end.
    unfold zstrlen at 1 3. rewrite !Nat2Z.id, str_take_app, str_drop_app, IH by done.
    by rewrite list_to_set_cons, union_assoc_L.
Qed.

Lemma zstrlen_foldr_words l w :
  w ∈ l -> zstrlen w <= zstrlen (foldr (fun word acc => to_string_u (zstrlen word) +:+ ":" +:+ word +:+ acc) "" l).
Proof using Type.
  induction l as [|x l IH]; [by intros ?%not_elem_of_nil|]. cbn [foldr]. rewrite !zstrlen_app.
  pose proof (zstrlen_nonneg (to_string_u (zstrlen x))). pose proof (zstrlen_nonneg ":").
  pose proof (zstrlen_nonneg x).
  intros [->|Hin]%elem_of_cons; [|specialize (IH Hin); lia].
  match goal with |- context [zstrlen (foldr ?f ?a ?b)] => pose proof (zstrlen_nonneg (foldr f a b)) end. lia.
Qed.

Lemma ascii_lower_idemp s : ascii_lower (ascii_lower s) = ascii_lower s.
Proof using Type.
  assert (Hc : forall c, ascii_lower_char (ascii_lower_char c) = ascii_lower_char c)
    by (intros [[] [] [] [] [] [] [] []]; vm_compute; reflexivity).
  unfold ascii_lower. induction s as [|c s IH]; [done|]. cbn. by rewrite Hc, IH.
Qed.

Lemma set_map_lower_idemp words :
  StandardAnalyzer.make_stop_words (StandardAnalyzer.make_stop_words words) =
  StandardAnalyzer.make_stop_words words.
Proof using Type.
  unfold StandardAnalyzer.make_stop_words. apply set_eq. intros w. rewrite !elem_of_map. split.
  - intros (u & -> & (x & -> & Hx)%elem_of_map). exists x. split; [apply ascii_lower_idemp|done].
  - intros (x & -> & Hx). exists (ascii_lower x). split; [symmetry; apply ascii_lower_idemp|].
    apply elem_of_map. eauto.
Qed.

Lemma analyzer_from_ok a : builtin_analyzer a ->
  text_fits (match a with Some a => descriptor a | None => "" end) ->
  analyzer_from (match a with Some a => descriptor a | None => "" end) = Ok a.
Proof using Hlimits.
  intros Ha Hfit. destruct a as [a|]; [|done]. destruct Ha as [->|[words ->]]; [done|].
  cbn [descriptor StandardAnalyzer.make] in *. set (stop := StandardAnalyzer.make_stop_words words) in *.
  unfold analyzer_from, StandardAnalyzer.descriptor in *.
  set (items := foldr _ "" (set_items stop)) in *.
  assert (Hlen : Z.of_nat (size stop) <= zstrlen items /\ zstrlen items <= u64_max).
  { unfold text_fits in Hfit. rewrite !zstrlen_app in Hfit. unfold limits_ok in Hlimits.
    pose proof (zstrlen_nonneg "standard-v1:"). pose proof (zstrlen_nonneg ":").
    pose proof (zstrlen_nonneg (to_string_u (Z.of_nat (size stop)))). split; [|lia].
    rewrite <- (length_set_items stop). clear. subst items. induction (set_items stop) as [|w l IH]; [done|].
    cbn [foldr length]. rewrite !zstrlen_app. pose proof (zstrlen_nonneg (to_string_u (zstrlen w))).
    pose proof (zstrlen_nonneg w). change (zstrlen ":") with 1. lia. }
  rewrite (proj2 (strip_prefix_Some _ _ _) eq_refl).
  rewrite descriptor_number_ok by (unfold is_u64; lia).
  rewrite Nat2Z.id, <- (length_set_items stop), <- (str_app_nil_r items). unfold items.
  rewrite descriptor_words_ok.
  2:{ apply Forall_forall. intros w Hw. apply zstrlen_foldr_words in Hw. fold items in Hw.
      unfold is_u64. pose proof (zstrlen_nonneg w). lia. }
  cbn [mbind expected_bind]. rewrite union_empty_l_L, list_to_set_items.
  unfold StandardAnalyzer.make. fold stop. subst stop. by rewrite set_map_lower_idemp.
Qed.

(** ** Primitive reads *)

Lemma reads_u8 v : 0 <= v < 256 -> reads read_u8 (put_u8 v) v.
Proof using Type.
  intros Hv. assert (put_u8 v = put_int 1 v) as -> by (by rewrite put_int_S).
  apply reads_int. cbn. lia.
Qed.
Lemma reads_u16 v : 0 <= v < 65536 -> reads read_u16 (put_u16 v) v.
Proof using Type. intros Hv. apply reads_int. cbn. lia. Qed.
Lemma reads_u32 v : is_u32 v -> reads read_u32 (put_u32 v) v.
Proof using Type. unfold is_u32, u32_max. intros Hv. apply reads_int. cbn. lia. Qed.
Lemma reads_u64 v : is_u64 v -> reads read_u64 (put_u64 v) v.
Proof using Type. unfold is_u64, u64_max. intros Hv. apply reads_int. cbn. lia. Qed.
Lemma reads_bool b : reads read_u8 (put_bool b) (if b then 1 else 0).
Proof using Type. unfold put_bool. destruct b; apply reads_u8; lia. Qed.

Lemma reads_text s : text_fits s -> reads (read_text limits) (put_string s) s.
Proof using Hlimits.
  unfold text_fits. intros Hs. apply reads_string; [|done]. unfold limits_ok in Hlimits.
  unfold is_u64. pose proof (zstrlen_nonneg s). lia.
Qed.

End limits.

Section sections.
Context (limits : SegmentReadLimits) (Hlimits : limits_ok limits).

(** ** The schema *)

Lemma field_type_ok t : field_type_of (field_type_code t) = Some t /\ 0 <= field_type_code t <= 3.
Proof using Type. by destruct t. Qed.

Lemma reads_field name field : fd_name field = name -> field_fits limits name field ->
  reads (read_field limits) (encode_field (name, field)) field.
Proof using Hlimits.
  intros Hn (Hname & Hboost & Ha & Hdesc). destruct (field_type_ok (fd_type field)) as [Ht Hr].
  unfold read_field, encode_field. eapply reads_bind_nil.
  - apply reads_or. pose proof (d_bits_range _ Hboost).
    eapply reads_bind; [by apply reads_text|]. eapply reads_bind; [apply reads_u8; lia|].
    do 2 (eapply reads_bind; [apply reads_bool|]). eapply reads_bind; [apply reads_u8; lia|].
    eapply reads_bind; [by apply reads_u64|]. eapply reads_bind_nil; [by apply reads_text|].
    apply reads_ensure; [|apply reads_ret].
    destruct (fd_indexed field), (fd_stored field), (Z.leb_spec (field_type_code (fd_type field)) 3); done || lia.
  - cbn beta iota. intros rest. unfold mbind, reader_bind, read_lift.
    rewrite (analyzer_from_ok limits Hlimits _ Ha Hdesc), Ht, d_of_bits_bits by done.
    unfold mret, reader_ret. cbn [app]. do 2 f_equal. destruct field. cbn in *. subst. f_equal.
    + by destruct fd_indexed.
    + by destruct fd_stored.
Qed.

Lemma create_of_map schema : schema_ok schema ->
  IndexSchema.create (map_items (IndexSchema.fields_ schema)).*2 = Ok schema.
Proof using Type.
  intros Hok. set (definitions := (map_items (IndexSchema.fields_ schema)).*2).
  assert (Hin : forall name field, field ∈ definitions /\ fd_name field = name <->
            IndexSchema.fields_ schema !! name = Some field).
  { intros name field. unfold definitions. rewrite list_elem_of_fmap. split.
    - intros [([k f] & -> & Hf%elem_of_map_items) <-]. cbn. by destruct (Hok k f Hf) as [-> _].
    - intros Hf. split; [exists (name, field); split; [done|by apply elem_of_map_items]|].
      by destruct (Hok name field Hf). }
  assert (Hnames : fd_name <$> definitions = (map_items (IndexSchema.fields_ schema)).*1).
  { unfold definitions. rewrite <- list_fmap_compose. apply list_fmap_ext.
    intros i [k f] Hi. apply list_elem_of_lookup_2, elem_of_map_items in Hi. cbn.
    by destruct (Hok k f Hi). }
  assert (H : is_Ok (IndexSchema.create definitions) = true).
  { apply create_Ok_iff. rewrite Hnames. split; [|apply NoDup_fst_map_items].
    apply Forall_forall. intros f Hf. destruct (proj1 (Hin _ f) (conj Hf eq_refl)).
    by destruct (Hok (fd_name f) f (proj1 (Hin _ f) (conj Hf eq_refl))). }
  destruct (IndexSchema.create definitions) as [schema'|] eqn:E; [|done]. f_equal.
  destruct schema as [fields], schema' as [fields']. f_equal. apply map_eq. intros name.
  apply option_eq. intros field. rewrite <- (Hin name field). symmetry.
  rewrite <- (create_find _ _ name field E). done.
Qed.

Lemma fingerprint_u64 schema : is_u64 (schema_fingerprint schema).
Proof using Type.
  unfold schema_fingerprint. set (f := fun hash _ => _).
  assert (H : forall l h, is_u64 h -> is_u64 (foldl f h l)).
  { induction l as [|[name field] l IH]; intros h Hh; [done|]. cbn [foldl]. apply IH. apply wrap64_range. }
  apply H. split; vm_compute; discriminate.
Qed.

Lemma open_schema_ok schema : schema_fits limits schema ->
  open_schema limits {| section_bytes := encode_schema schema;
                        section_count := Z.of_nat (size (IndexSchema.fields_ schema)) |} = Ok schema.
Proof using Hlimits.
  intros [[Hsize Hfields] Hok]. unfold open_schema. cbn [section_bytes section_count].
  rewrite (read_all_reads _ _ _ (schema_fingerprint schema, (map_items (IndexSchema.fields_ schema)).*2)).
  - cbn [mbind expected_bind]. rewrite create_of_map by done. cbn [map_err mbind expected_bind]. by rewrite Z.eqb_refl.
  - unfold read_schema, encode_schema. rewrite app_assoc. eapply reads_bind.
    + apply reads_or. eapply reads_bind; [apply reads_u64, fingerprint_u64|].
      eapply reads_bind_nil; [apply reads_u64; unfold limits_ok in Hlimits; unfold is_u64; lia|].
      apply reads_ensure; [apply Z.eqb_refl|apply reads_ret].
    + cbn beta iota. apply reads_ensure; [by apply Z.leb_le|]. eapply reads_bind_nil; [|apply reads_ret].
      assert (Hbytes : map_items (IndexSchema.fields_ schema) ≫= encode_field =
              (map_items (IndexSchema.fields_ schema)).*2 ≫= (fun f => encode_field (fd_name f, f))).
      { apply bind_fmap_ext. intros [k f] Hi%elem_of_map_items. cbn. by destruct (Hok k f Hi) as [-> _]. }
      rewrite Hbytes. apply (reads_many _ (fun f => encode_field (fd_name f, f))).
      * by rewrite Nat2Z.id, length_fmap, length_map_items.
      * apply Forall_fmap, Forall_forall. intros [k f] Hi%elem_of_map_items. cbn.
        destruct (Hok k f Hi) as [E _]. apply reads_field; [done|]. rewrite E. by apply Hfields.
Qed.

(** ** The documents *)

Lemma size_u64 {A} (P : string -> A -> Prop) (m : gmap string A) : map_fits limits P m ->
  is_u64 (Z.of_nat (size m)) /\ Z.of_nat (size m) <= maximum_fields limits.
Proof using Hlimits. intros [Hs _]. unfold limits_ok in Hlimits. unfold is_u64. lia. Qed.

Lemma reads_string_map m : map_fits limits (fun k v => text_fits limits k /\ text_fits limits v) m ->
  reads (read_string_map limits) (encode_string_map m) m.
Proof using Hlimits.
  intros Hm. destruct (size_u64 _ _ Hm) as [Hu Hs]. unfold read_string_map, encode_string_map.
  eapply reads_bind; [by apply reads_u64|]. apply reads_ensure; [by apply Z.leb_le|].
  apply reads_entries; [by rewrite Nat2Z.id|]. intros k v Hk. destruct Hm as [_ Hm].
  destruct (Hm _ _ Hk) as [Hkf Hvf]. unfold encode_string_pair. cbn [fst snd].
  eapply reads_bind; [by apply reads_text|]. eapply reads_bind_nil; [by apply reads_text|]. apply reads_ret.
Qed.

Lemma reads_lengths m : map_fits limits (fun k n => text_fits limits k /\ is_u32 n) m ->
  reads (read_lengths limits) (put_u64 (Z.of_nat (size m)) ++ (map_items m ≫= encode_length)) m.
Proof using Hlimits.
  intros Hm. destruct (size_u64 _ _ Hm) as [Hu Hs]. unfold read_lengths.
  eapply reads_bind; [apply reads_or, reads_such; [by apply Z.leb_le|by apply reads_u64]|].
  apply reads_entries; [by rewrite Nat2Z.id|]. intros k v Hk. destruct Hm as [_ Hm].
  destruct (Hm _ _ Hk) as [Hkf Hvf]. unfold encode_length. cbn [fst snd]. apply reads_or.
  eapply reads_bind; [by apply reads_text|]. eapply reads_bind_nil; [by apply reads_u32|]. apply reads_ret.
Qed.

Lemma reads_terms m :
  map_fits limits (fun k terms => text_fits limits k /\ zlen terms <= maximum_terms limits /\
                                  Forall (text_fits limits) terms) m ->
  reads (read_terms limits) (put_u64 (Z.of_nat (size m)) ++ (map_items m ≫= encode_terms)) m.
Proof using Hlimits.
  intros Hm. destruct (size_u64 _ _ Hm) as [Hu Hs]. unfold read_terms.
  eapply reads_bind; [apply reads_or, reads_such; [by apply Z.leb_le|by apply reads_u64]|].
  apply reads_entries; [by rewrite Nat2Z.id|]. intros k v Hk. destruct Hm as [_ Hm].
  destruct (Hm _ _ Hk) as (Hkf & Hn & Hvf). unfold encode_terms. cbn [fst snd]. rewrite app_assoc.
  eapply reads_bind.
  - apply reads_or. eapply reads_bind; [by apply reads_text|]. eapply reads_bind_nil; [|apply reads_ret].
    apply reads_such; [by apply Z.leb_le|]. apply reads_u64. unfold limits_ok in Hlimits. unfold is_u64.
    pose proof (zlen_nonneg v). lia.
  - cbn beta iota. eapply reads_bind_nil; [|apply reads_ret].
    apply reads_many; [unfold zlen; by rewrite Nat2Z.id|]. eapply Forall_impl; [exact Hvf|].
    intros t Ht. by apply reads_text.
Qed.

Lemma reads_document id r : record_fits limits id r ->
  reads (read_document limits) (encode_document (id, r)) (id, r).
Proof using Hlimits.
  intros (Hi & Hne & Hid & Hdoc & Hv & Hf & Hmeta & Hl & Ht). unfold read_document, encode_document.
  assert (Hassoc : forall a b c d e f g h i j : list byte, a ++ b ++ c ++ d ++ e ++ f ++ g ++ h ++ i ++ j =
    (a ++ b ++ c ++ d) ++ e ++ f ++ (g ++ h) ++ (i ++ j)) by (intros; by rewrite <- !app_assoc).
  rewrite Hassoc. eapply reads_bind.
  - apply reads_or. eapply reads_bind; [apply reads_u32; unfold is_u32, u32_max in *; lia|].
    eapply reads_bind; [by apply reads_text|]. eapply reads_bind; [by apply reads_u64|].
    eapply reads_bind_nil; [by apply reads_bool|]. apply reads_ensure; [|apply reads_ret].
    destruct (Z.eqb_spec (internal_id r) 0); [lia|]. unfold str_eqb. rewrite bool_decide_eq_false_2 by done.
    by destruct (doc_deleted (document r)).
  - cbn beta iota. eapply reads_bind; [by apply reads_string_map|].
    eapply reads_bind; [by apply reads_string_map|]. eapply reads_bind; [by apply reads_lengths|].
    eapply reads_bind_nil; [by apply reads_terms|].
    assert (negb ((if doc_deleted (document r) then 1 else 0) =? 0) = doc_deleted (document r)) as ->
      by by destruct (doc_deleted (document r)).
    destruct r as [i [did df dm dv dd] fl it]. cbn in *. subst did. apply reads_ret.
Qed.

Lemma open_documents_ok snapshot : documents_fit limits (snap_documents snapshot) (snap_external_ids snapshot) ->
  open_documents limits {| section_bytes := encode_documents snapshot;
                           section_count := Z.of_nat (size (snap_documents snapshot)) |} =
  Ok (snap_external_ids snapshot, snap_documents snapshot).
Proof using Hlimits.
  intros (Hs & Hall & Hext). set (documents := snap_documents snapshot) in *.
  unfold open_documents. cbn [section_bytes section_count]. apply read_all_reads.
  unfold read_documents, encode_documents. fold documents.
  eapply reads_bind; [apply reads_or, reads_such; [|apply reads_u64]|].
  { rewrite Z.eqb_refl. by apply Z.leb_le. }
  { unfold limits_ok in Hlimits. unfold is_u64. lia. }
  set (step := fun (maps : ExternalIdMap * DocumentRecords) (x : DocumentId * DocumentRecord) =>
    (<[internal_id x.2 := x.1]> maps.1, <[x.1 := x.2]> maps.2)).
  assert (Hids : NoDup ((fun x : DocumentId * DocumentRecord => internal_id x.2) <$> map_items documents)).
  { apply NoDup_fmap_2_strong; [|apply NoDup_fmap_1 with fst, NoDup_fst_map_items].
    intros [id r] [id' r'] Hr%elem_of_map_items Hr'%elem_of_map_items E. cbn in E.
    assert (snap_external_ids snapshot !! internal_id r = Some id) as H1 by (apply Hext; eauto).
    assert (snap_external_ids snapshot !! internal_id r = Some id') as H2 by (apply Hext; eauto). congruence. }
  assert (Hfold : foldl step (∅, ∅) (map_items documents) = (snap_external_ids snapshot, documents)).
  { assert (Hpair : forall l a b, foldl step (a, b) l =
      (foldl (fun m x => <[internal_id x.2 := x.1]> m) a l, foldl (fun m x => <[x.1 := x.2]> m) b l)).
    { induction l as [|x l IH]; intros a b; [done|]. cbn [foldl]. by rewrite <- IH. }
    rewrite Hpair. f_equal.
    - rewrite foldl_insert_keys by done. apply map_eq. intros i. apply option_eq. intros id.
      rewrite <- elem_of_list_to_map; [|by rewrite <- list_fmap_compose].
      rewrite list_elem_of_fmap, Hext. split.
      + intros ([id' r] & [= -> ->] & Hr%elem_of_map_items). by exists r.
      + intros (r & Hr & <-). exists (id, r). split; [done|by apply elem_of_map_items].
    - rewrite foldl_insert_keys by apply NoDup_fst_map_items. rewrite <- (list_to_map_items documents) at 2.
      f_equal. rewrite <- (list_fmap_id (map_items documents)) at 2. apply list_fmap_ext. by intros ? [? ?] _. }
  rewrite <- Hfold. rewrite Nat2Z.id.
  apply (reads_fold _ encode_document step (fun maps xs =>
    NoDup ((fun x : DocumentId * DocumentRecord => internal_id x.2) <$> xs) /\ NoDup xs.*1 /\
    (forall x, x ∈ xs -> maps.1 !! internal_id x.2 = None /\ maps.2 !! x.1 = None /\
                         record_fits limits x.1 x.2))).
  - by rewrite length_map_items.
  - split_and!; [done|apply NoDup_fst_map_items|]. intros [id r] Hr%elem_of_map_items.
    split_and!; [apply lookup_empty..|]. by apply Hall.
  - intros [ext docs] [id r] xs (Hnd1 & Hnd2 & Hxs). rewrite fmap_cons in Hnd1. rewrite fmap_cons in Hnd2.
    apply NoDup_cons in Hnd1 as [Hk1 Hnd1], Hnd2 as [Hk2 Hnd2].
    destruct (Hxs _ (list_elem_of_here _ _)) as (He & Hd & Hfit). cbn in He, Hd, Hfit. split.
    + eapply reads_bind_nil; [by apply reads_document|]. cbn beta iota. unfold add_document. cbn [fst snd].
      eapply reads_bind_nil; [by apply reads_emplace|]. eapply reads_bind_nil; [by apply reads_emplace|].
      apply reads_ret.
    + split_and!; [done..|]. intros [id' r'] Hx. destruct (Hxs _ (list_elem_of_further _ _ _ Hx)) as (He' & Hd' & ?).
      cbn in *. split_and!; [| |done].
      * rewrite lookup_insert_ne; [done|]. intros E. apply Hk1. rewrite E.
        apply list_elem_of_fmap. by exists (id', r').
      * rewrite lookup_insert_ne; [done|]. intros E. apply Hk2. rewrite E. apply list_elem_of_fmap. by exists (id', r').
Qed.

(** ** The statistics *)

Lemma open_statistics_ok snapshot : map_fits limits (statistic_fits limits) (snap_statistics snapshot) ->
  open_statistics limits {| section_bytes := encode_statistics snapshot;
                            section_count := Z.of_nat (size (snap_statistics snapshot)) |} =
  Ok (snap_statistics snapshot).
Proof using Hlimits.
  intros Hm. destruct (size_u64 _ _ Hm) as [Hu Hs]. destruct Hm as [_ Hm].
  unfold open_statistics. cbn [section_bytes section_count]. apply read_all_reads.
  unfold read_statistics, encode_statistics.
  eapply reads_bind; [apply reads_or, reads_such; [|by apply reads_u64]|].
  { rewrite Z.eqb_refl. by apply Z.leb_le. }
  apply reads_entries; [by rewrite Nat2Z.id|]. intros field s Hf. destruct (Hm _ _ Hf) as (Hk & Hc & Ht & Ha).
  unfold read_statistic, encode_statistic. apply reads_or.
  eapply reads_bind; [by apply reads_text|]. eapply reads_bind; [apply reads_u64; unfold is_u64; lia|].
  eapply reads_bind_nil; [by apply reads_u64|]. apply reads_ensure.
  - destruct (Z.eqb_spec (fs_document_count s) 0); [lia|done].
  - rewrite <- Ha. destruct s. apply reads_ret.
Qed.

(** ** Compressed postings *)

Import VariableByteCodec.

Lemma reads_delta {A} (e : SegmentError) (test : Z -> bool) (f : Z -> reader SegmentError A) d bs a :
  is_u32 d -> test d = true -> reads (f d) bs a ->
  reads (delta ← read_or e (delta ← decode; _ ← read_ensure (test delta)
           {| codec_code := codec_invalid_order; codec_message := "" |}; mret delta); f delta)
    (encode d ++ bs) a.
Proof using Type.
  intros Hd Ht Hf. eapply reads_bind; [|exact Hf]. apply reads_or.
  eapply reads_bind_nil; [by apply reads_vbyte|]. by apply reads_ensure; [|apply reads_ret].
Qed.

Lemma reads_position_deltas ps : forall (first : bool) prev, 0 <= prev <= u32_max ->
  (first = true -> prev = 0) -> increasing_from (if first then -1 else prev) ps ->
  reads (read_position_deltas first (length ps) prev) (encode_position_deltas prev ps) ps.
Proof using Type.
  induction ps as [|p ps IH]; intros first prev Hprev Hfirst Hinc; [apply reads_ret|].
  destruct Hinc as [Hp Hinc]. cbn [length read_position_deltas encode_position_deltas].
  assert (Hd : is_u32 (p - prev)) by (unfold is_u32; destruct first; [specialize (Hfirst eq_refl)|]; lia).
  rewrite wrap32_id by done. unfold is_u32 in Hd. eapply reads_delta; [done| |].
  - destruct (Z.leb_spec (p - prev) (u32_max - prev)); [|lia]. rewrite andb_true_r.
    destruct first; [done|]. destruct (Z.eqb_spec (p - prev) 0); [lia|done].
  - replace (prev + (p - prev)) with p by lia. eapply reads_bind_nil; [|apply reads_ret].
    apply IH; [lia|done|done].
Qed.

Definition posting_fits (p : Posting) : Prop :=
  term_frequency p = zlen (positions p) /\ 1 <= term_frequency p <= u32_max /\
  increasing_from (-1) (positions p).

Definition total_positions (ps : list Posting) : Z := sum_list_Z (zlen ∘ positions <$> ps).

Lemma total_positions_cons p ps : total_positions (p :: ps) = zlen (positions p) + total_positions ps.
Proof using Type. done. Qed.

Lemma total_positions_nonneg ps : 0 <= total_positions ps.
Proof using Type.
  induction ps as [|p ps IH]; [done|]. rewrite total_positions_cons. pose proof (zlen_nonneg (positions p)). lia.
Qed.

Lemma total_positions_app ps qs : total_positions (ps ++ qs) = total_positions ps + total_positions qs.
Proof using Type. induction ps as [|p ps IH]; [done|]. cbn [app]. rewrite !total_positions_cons. lia. Qed.

Lemma reads_compressed ps : forall prev decoded, 0 <= prev <= u32_max ->
  increasing_from prev (posting_document_id <$> ps) -> Forall posting_fits ps -> 0 <= decoded ->
  decoded + total_positions ps <= maximum_positions limits ->
  reads (read_compressed limits (length ps) prev decoded) (encode_compressed prev ps)
    (ps, decoded + total_positions ps).
Proof using Type.
  induction ps as [|p ps IH]; intros prev decoded Hprev Hinc Hps Hdec Hmax.
  { unfold total_positions. cbn. rewrite Z.add_0_r. apply reads_ret. }
  rewrite fmap_cons in Hinc. destruct Hinc as [Hid Hinc]. apply Forall_cons in Hps as [(Hf & Hfb & Hpos) Hps].
  rewrite total_positions_cons in Hmax. pose proof (total_positions_nonneg ps) as Hnn.
  cbn [length read_compressed encode_compressed].
  assert (Hd : is_u32 (posting_document_id p - prev)) by (unfold is_u32; lia).
  rewrite wrap32_id by done. rewrite app_assoc. eapply reads_bind.
  - apply reads_or. eapply reads_bind; [by apply reads_vbyte|].
    eapply reads_bind_nil; [apply reads_vbyte; unfold is_u32; lia|]. apply reads_ensure; [|apply reads_ret].
    unfold is_u32 in Hd. destruct (Z.eqb_spec (posting_document_id p - prev) 0); [lia|].
    destruct (Z.leb_spec (posting_document_id p - prev) (u32_max - prev)); [|lia].
    destruct (Z.eqb_spec (term_frequency p) 0); [lia|].
    destruct (Z.leb_spec decoded (maximum_positions limits)); [|lia].
    destruct (Z.leb_spec (term_frequency p) (maximum_positions limits - decoded)); [done|lia].
  - cbn beta iota. replace (prev + (posting_document_id p - prev)) with (posting_document_id p) by lia.
    eapply reads_bind.
    + replace (Z.to_nat (term_frequency p)) with (length (positions p)) by (rewrite Hf; unfold zlen; lia).
      apply reads_position_deltas; [done..|exact Hpos].
    + eapply reads_bind_nil; [apply IH; [lia|done|done|lia|lia]|]. cbn beta iota.
      rewrite total_positions_cons, Hf. destruct p. cbn in *. subst.
      replace (decoded + (zlen positions + total_positions ps)) with (decoded + zlen positions + total_positions ps) by lia.
      apply reads_ret.
Qed.

(** ** Raw postings *)

(** The records of postings whose positions start at [start] in the position
    section, and their bytes. *)
Fixpoint raws_of (start : Z) (ps : list Posting) : list RawPosting :=
  match ps with
  | [] => []
  | p :: rest =>
      {| raw_document := posting_document_id p; raw_frequency := term_frequency p; raw_start := start;
         raw_count := zlen (positions p) |} :: raws_of (start + zlen (positions p)) rest
  end.

Definition raw_bytes (raw : RawPosting) : list byte :=
  put_u32 (raw_document raw) ++ put_u32 (raw_frequency raw) ++ put_u64 (raw_start raw) ++
  put_u64 (raw_count raw).

Notation all_positions ps := (ps ≫= positions).

Lemma zlen_all_positions ps : zlen (all_positions ps) = total_positions ps.
Proof using Type.
  induction ps as [|p ps IH]; [done|]. cbn [mbind list_bind]. change (list_bind _ _ positions ps) with (all_positions ps).
  by rewrite zlen_app, IH, total_positions_cons.
Qed.

Lemma length_raws ps : forall start, length (raws_of start ps) = length ps.
Proof using Type. induction ps as [|p ps IH]; intros start; [done|]. cbn. by rewrite IH. Qed.

Lemma raws_app ps qs : forall start,
  raws_of start (ps ++ qs) = raws_of start ps ++ raws_of (start + total_positions ps) qs.
Proof using Type.
  induction ps as [|p ps IH]; intros start; cbn [app raws_of].
  - unfold total_positions. cbn. by rewrite Z.add_0_r.
  - rewrite IH, total_positions_cons. by replace (start + zlen (positions p) + total_positions ps)
      with (start + (zlen (positions p) + total_positions ps)) by lia.
Qed.

(** A record and the positions of everything give the posting back. *)
Lemma posting_of_raws ps : forall before after,
  posting_of_raw (before ++ all_positions ps ++ after) <$> raws_of (zlen before) ps = ps.
Proof using Type.
  induction ps as [|p ps IH]; intros before after; [done|]. cbn [raws_of mbind list_bind].
  change (list_bind _ _ positions ps) with (all_positions ps). rewrite fmap_cons, <- app_assoc. f_equal.
  - unfold posting_of_raw. cbn [raw_document raw_frequency raw_start raw_count]. unfold zlen.
    rewrite !Nat2Z.id, drop_app_length, take_app_length. by destruct p.
  - rewrite <- zlen_app, app_assoc. apply IH.
Qed.

Lemma foldl_encode_raw ps : forall w, foldl encode_raw w ps =
  {| encoded_terms := encoded_terms w;
     encoded_postings := encoded_postings w ++ (raws_of (position_count w) ps ≫= raw_bytes);
     encoded_positions := encoded_positions w ++ (all_positions ps ≫= put_u32);
     term_count := term_count w;
     posting_count := posting_count w + zlen ps;
     position_count := position_count w + total_positions ps |}.
Proof using Type.
  induction ps as [|p ps IH]; intros w; cbn [foldl].
  - destruct w. cbn. unfold total_positions. cbn. by rewrite !app_nil_r, !Z.add_0_r.
  - rewrite IH. cbn [encode_raw encoded_terms encoded_postings encoded_positions term_count posting_count
      position_count raws_of mbind list_bind]. change (list_bind _ _ positions ps) with (all_positions ps).
    rewrite zlen_cons, total_positions_cons. f_equal.
    + rewrite <- !app_assoc. reflexivity.
    + rewrite <- app_assoc. f_equal. symmetry. apply bind_app.
    + lia.
    + lia.
Qed.

Lemma foldl_position_count ps : forall n,
  foldl (fun n p => n + zlen (positions p)) n ps = n + total_positions ps.
Proof using Type.
  induction ps as [|p ps IH]; intros n; cbn [foldl]; [unfold total_positions; cbn; lia|].
  rewrite IH, total_positions_cons. lia.
Qed.

Lemma open_positions_ok ps : total_positions ps <= maximum_positions limits -> total_positions ps <= u64_max / 4 ->
  Forall posting_fits ps ->
  open_positions limits false {| section_bytes := all_positions ps ≫= put_u32;
                                 section_count := total_positions ps |} = Ok (all_positions ps).
Proof using Type.
  intros Hmax H64 Hps. unfold open_positions. cbn [section_bytes section_count].
  assert (Hlen : zlen (all_positions ps ≫= put_u32) = total_positions ps * 4).
  { rewrite <- zlen_all_positions. induction (all_positions ps) as [|x l IH]; [done|].
    cbn [mbind list_bind]. rewrite zlen_app, zlen_cons. change (zlen (put_u32 x)) with 4.
    change (list_bind _ _ put_u32 l) with (l ≫= put_u32). lia. }
  pose proof (total_positions_nonneg ps) as Hnn. rewrite Hlen, wrap64_id.
  2:{ change (u64_max / 4) with 4611686018427387903 in H64. unfold is_u64, u64_max. lia. }
  destruct (Z.gtb_spec (total_positions ps) (maximum_positions limits)); [lia|].
  destruct (Z.gtb_spec (total_positions ps) (u64_max / 4)); [lia|]. rewrite Z.eqb_refl. cbn [negb andb orb].
  assert (Hr : reads (read_many (Z.to_nat (total_positions ps)) read_u32) (all_positions ps ≫= put_u32) (all_positions ps)).
  { apply reads_many; [rewrite <- zlen_all_positions; unfold zlen; by rewrite Nat2Z.id|].
    apply Forall_forall. intros x (p & Hx & Hp)%list_elem_of_bind. rewrite Forall_forall in Hps.
    destruct (Hps p Hp) as (_ & _ & Hinc). apply reads_u32. clear -Hinc Hx.
    assert (forall l q, -1 <= q -> increasing_from q l -> x ∈ l -> is_u32 x) as Hall; [|by eapply Hall].
    clear. induction l as [|y l IH]; intros q Hq Hinc; [by intros ?%not_elem_of_nil|]. destruct Hinc as [Hy Hinc].
    intros [->|Hx]%elem_of_cons; [unfold is_u32; lia|]. apply (IH y); [lia|done|done]. }
  specialize (Hr []). rewrite app_nil_r in Hr. by rewrite Hr.
Qed.

Lemma open_postings_ok ps : zlen ps <= maximum_postings limits -> zlen ps <= u64_max / 24 ->
  total_positions ps <= u64_max -> Forall posting_fits ps ->
  Forall (fun p => is_u32 (posting_document_id p)) ps ->
  open_postings limits false (all_positions ps)
    {| section_bytes := raws_of 0 ps ≫= raw_bytes; section_count := zlen ps |} = Ok (raws_of 0 ps).
Proof using Type.
  intros Hmax H64 Htot Hps Hids. unfold open_postings. cbn [section_bytes section_count].
  assert (Hlen : zlen (raws_of 0 ps ≫= raw_bytes) = zlen ps * 24).
  { unfold zlen. rewrite <- (length_raws ps 0). induction (raws_of 0 ps) as [|x l IH]; [done|].
    cbn [mbind list_bind]. change (list_bind _ _ raw_bytes l) with (l ≫= raw_bytes). rewrite length_app.
    change (length (raw_bytes x)) with 24%nat. cbn [length]. lia. }
  pose proof (zlen_nonneg ps) as Hnn. rewrite Hlen, wrap64_id.
  2:{ change (u64_max / 24) with 768614336404564650 in H64. unfold is_u64, u64_max. lia. }
  destruct (Z.gtb_spec (zlen ps) (maximum_postings limits)); [lia|].
  destruct (Z.gtb_spec (zlen ps) (u64_max / 24)); [lia|]. rewrite Z.eqb_refl. cbn [negb andb orb].
  assert (Hr : reads (read_many (Z.to_nat (zlen ps)) (read_raw_posting (zlen (all_positions ps))))
                 (raws_of 0 ps ≫= raw_bytes) (raws_of 0 ps)).
  { apply reads_many; [by unfold zlen; rewrite Nat2Z.id, length_raws|].
    rewrite zlen_all_positions. clear -Hps Hids Htot.
    assert (Hgen : forall start, 0 <= start -> start + total_positions ps <= u64_max ->
      Forall (fun raw => reads (read_raw_posting (start + total_positions ps)) (raw_bytes raw) raw) (raws_of start ps));
      [|by apply (Hgen 0)].
    clear Htot. induction ps as [|p ps IH]; intros start Hs Ht; [constructor|].
    apply Forall_cons in Hps as [(Hf & Hfb & _) Hps], Hids as [Hid Hids].
    pose proof (total_positions_nonneg ps) as Hnn. rewrite total_positions_cons in *.
    pose proof (zlen_nonneg (positions p)). cbn [raws_of]. constructor.
    - unfold read_raw_posting, raw_bytes. cbn [raw_document raw_frequency raw_start raw_count].
      apply reads_or. eapply reads_bind; [by apply reads_u32|]. eapply reads_bind; [apply reads_u32; unfold is_u32; lia|].
      eapply reads_bind; [apply reads_u64; unfold is_u64; lia|].
      eapply reads_bind_nil; [apply reads_u64; unfold is_u64, u32_max, u64_max in *; lia|].
      apply reads_ensure; [|apply reads_ret]. rewrite Hf, Z.eqb_refl.
      destruct (Z.leb_spec start (start + (zlen (positions p) + total_positions ps))); [|lia].
      destruct (Z.leb_spec (zlen (positions p)) (start + (zlen (positions p) + total_positions ps) - start)); [done|lia].
    - replace (start + (zlen (positions p) + total_positions ps))
        with (start + zlen (positions p) + total_positions ps) by lia.
      apply IH; [done|done|lia|lia]. }
  specialize (Hr []). rewrite app_nil_r in Hr. by rewrite Hr.
Qed.

(** ** The term dictionary *)

(** The entries in the order they are written: by field, then by term. *)
Definition located : Type := string * (string * TermEntry).

Definition flatten (fields : FieldDictionaries) : list located :=
  map_items fields ≫= (fun '(field, dictionary) => pair field <$> map_items dictionary).

Definition entry_postings (e : located) : list Posting := postings e.2.2.

Definition add_entry (fields : FieldDictionaries) (e : located) : FieldDictionaries :=
  <[e.1 := <[e.2.1 := e.2.2]> (default ∅ (fields !! e.1))]> fields.

Definition step_term (compressed : bool) (w : EncodedIndex) (e : located) : EncodedIndex :=
  encode_term compressed e.1 w e.2.

Lemma foldl_bind {A B C} (f : C -> B -> C) (g : A -> list B) l : forall c,
  foldl f c (l ≫= g) = foldl (fun c x => foldl f c (g x)) c l.
Proof using Type.
  induction l as [|x l IH]; intros c; [done|]. cbn [mbind list_bind foldl].
  rewrite foldl_app. apply IH.
Qed.

Lemma foldl_fmap' {A B C} (f : C -> B -> C) (g : A -> B) l : forall c,
  foldl f c (g <$> l) = foldl (fun c x => f c (g x)) c l.
Proof using Type. induction l as [|x l IH]; intros c; [done|]. rewrite fmap_cons. cbn. apply IH. Qed.

Lemma encode_index_flat snapshot compressed :
  encode_index snapshot compressed = foldl (step_term compressed) empty_encoded (flatten (snap_fields snapshot)).
Proof using Type.
  unfold encode_index, flatten. rewrite foldl_bind.
  generalize (map_items (snap_fields snapshot)) empty_encoded. intros l.
  induction l as [|[field dictionary] l IH]; intros w; [done|]. cbn [foldl]. rewrite foldl_fmap'. apply IH.
Qed.

(** What one entry adds to each section. *)
Definition entry_bytes (compressed : bool) (w : EncodedIndex) (e : located) : list byte :=
  if compressed then encode_compressed 0 (entry_postings e)
  else raws_of (position_count w) (entry_postings e) ≫= raw_bytes.

Definition term_start (compressed : bool) (w : EncodedIndex) : Z :=
  if compressed then zlen (encoded_postings w) else posting_count w.

Definition term_extent (compressed : bool) (e : located) : Z :=
  if compressed then zlen (encode_compressed 0 (entry_postings e)) else zlen (entry_postings e).

Definition term_record (compressed : bool) (w : EncodedIndex) (e : located) : list byte :=
  put_string e.1 ++ put_string e.2.1 ++ put_u32 (document_frequency e.2.2) ++ put_u32 0 ++
  put_u64 (term_start compressed w) ++ put_u64 (term_extent compressed e).

Lemma step_term_eq compressed w e : step_term compressed w e =
  {| encoded_terms := encoded_terms w ++ term_record compressed w e;
     encoded_postings := encoded_postings w ++ entry_bytes compressed w e;
     encoded_positions := if compressed then encoded_positions w
                          else encoded_positions w ++ (all_positions (entry_postings e) ≫= put_u32);
     term_count := term_count w + 1;
     posting_count := posting_count w + zlen (entry_postings e);
     position_count := position_count w + total_positions (entry_postings e) |}.
Proof using Type.
  destruct e as [field [term entry]]. unfold step_term, encode_term, term_record, entry_bytes, term_start,
    term_extent, entry_postings. cbn [fst snd]. destruct compressed.
  - unfold count_compressed. cbn [encoded_terms encoded_postings encoded_positions term_count posting_count
      position_count]. by rewrite foldl_position_count, zlen_app, Z.add_simpl_l.
  - rewrite foldl_encode_raw. reflexivity.
Qed.

(** The record bytes of all entries, each with the state it was written in. *)
Fixpoint term_records (compressed : bool) (w : EncodedIndex) (es : list located) : list byte :=
  match es with
  | [] => []
  | e :: rest => term_record compressed w e ++ term_records compressed (step_term compressed w e) rest
  end.

Lemma encoded_terms_flat compressed es : forall w,
  encoded_terms (foldl (step_term compressed) w es) = encoded_terms w ++ term_records compressed w es.
Proof using Type.
  induction es as [|e es IH]; intros w; cbn [foldl term_records]; [by rewrite app_nil_r|].
  rewrite IH, step_term_eq. cbn [encoded_terms]. by rewrite <- app_assoc.
Qed.

Lemma counts_flat compressed es : forall w,
  term_count (foldl (step_term compressed) w es) = term_count w + zlen es /\
  posting_count (foldl (step_term compressed) w es) = posting_count w + zlen (es ≫= entry_postings) /\
  position_count (foldl (step_term compressed) w es) = position_count w + total_positions (es ≫= entry_postings).
Proof using Type.
  induction es as [|e es IH]; intros w; cbn [foldl].
  - unfold total_positions, zlen. cbn. lia.
  - destruct (IH (step_term compressed w e)) as (-> & -> & ->). rewrite step_term_eq.
    cbn [term_count posting_count position_count mbind list_bind].
    change (list_bind _ _ entry_postings es) with (es ≫= entry_postings).
    rewrite zlen_cons, zlen_app, total_positions_app. lia.
Qed.

Lemma encoded_positions_flat compressed es : forall w,
  encoded_positions (foldl (step_term compressed) w es) =
  if compressed then encoded_positions w
  else encoded_positions w ++ (all_positions (es ≫= entry_postings) ≫= put_u32).
Proof using Type.
  induction es as [|e es IH]; intros w; cbn [foldl].
  - destruct compressed; [done|]. cbn. by rewrite app_nil_r.
  - rewrite IH, step_term_eq. cbn [encoded_positions]. destruct compressed; [done|].
    cbn [mbind list_bind]. change (list_bind _ _ entry_postings es) with (es ≫= entry_postings).
    by rewrite !bind_app, app_assoc.
Qed.

Lemma encoded_postings_raw es : forall w,
  encoded_postings (foldl (step_term false) w es) =
  encoded_postings w ++ (raws_of (position_count w) (es ≫= entry_postings) ≫= raw_bytes).
Proof using Type.
  induction es as [|e es IH]; intros w; cbn [foldl]; [cbn; by rewrite app_nil_r|].
  rewrite IH, step_term_eq. cbn [encoded_postings position_count mbind list_bind].
  change (list_bind _ _ entry_postings es) with (es ≫= entry_postings).
  rewrite raws_app, bind_app. unfold entry_bytes. by rewrite app_assoc.
Qed.

Lemma encoded_postings_compressed es : forall w,
  encoded_postings (foldl (step_term true) w es) =
  encoded_postings w ++ (es ≫= fun e => encode_compressed 0 (entry_postings e)).
Proof using Type.
  induction es as [|e es IH]; intros w; cbn [foldl]; [cbn; by rewrite app_nil_r|].
  rewrite IH, step_term_eq. cbn [encoded_postings mbind list_bind]. unfold entry_bytes.
  by rewrite app_assoc.
Qed.

(** *** Reading the entries back *)

Definition entry_fits (e : located) : Prop :=
  text_fits limits e.1 /\ text_fits limits e.2.1 /\ e.2.1 <> "" /\
  document_frequency e.2.2 = zlen (entry_postings e) /\ 1 <= document_frequency e.2.2 <= u32_max /\
  increasing_from 0 (posting_document_id <$> entry_postings e) /\ Forall posting_fits (entry_postings e).

Lemma reads_term_header compressed w e : entry_fits e -> is_u64 (term_start compressed w) ->
  is_u64 (term_extent compressed e) ->
  reads (term_header limits) (term_record compressed w e)
    (e.1, e.2.1, document_frequency e.2.2, term_start compressed w, term_extent compressed e).
Proof using Hlimits.
  intros (Hf & Ht & Hne & _ & Hdf & _) Hs He. unfold term_header, term_record. apply reads_or.
  do 2 (eapply reads_bind; [by apply reads_text|]).
  eapply reads_bind; [apply reads_u32; unfold is_u32; lia|].
  eapply reads_bind; [apply reads_u32; split; [done|discriminate]|].
  eapply reads_bind; [by apply reads_u64|]. eapply reads_bind_nil; [by apply reads_u64|].
  apply reads_ensure; [|apply reads_ret]. unfold str_eqb. rewrite bool_decide_eq_false_2 by done.
  destruct (Z.eqb_spec (document_frequency e.2.2) 0); [lia|done].
Qed.

Definition fresh (fields : FieldDictionaries) (e : located) : Prop :=
  (default ∅ (fields !! e.1) : TermDictionary) !! e.2.1 = None.

(** One round of the loop, given what the format-specific part returns. *)
Lemma reads_term compressed w e state state' posting_bytes poss raws :
  entry_fits e -> is_u64 (term_start compressed w) -> is_u64 (term_extent compressed e) ->
  fresh (read_fields state) e -> read_fields state' = read_fields state ->
  (if compressed then compressed_entry limits posting_bytes state (document_frequency e.2.2)
                        (term_start compressed w) (term_extent compressed e)
   else raw_entry poss raws state (document_frequency e.2.2) (term_start compressed w)
          (term_extent compressed e)) = Ok (entry_postings e, state') ->
  reads (read_term limits compressed posting_bytes poss raws state) (term_record compressed w e)
    {| read_fields := add_entry (read_fields state) e;
       decoded_posting_count := decoded_posting_count state';
       decoded_position_count := decoded_position_count state';
       expected_compressed_offset := expected_compressed_offset state' |}.
Proof using Hlimits.
  intros He Hs Hx Hfresh Hsame Hentry. unfold read_term.
  eapply reads_bind_nil; [by apply reads_term_header|]. cbn beta iota.
  apply (reads_bind' _ _ [] [] [] (entry_postings e, state')); [done| |cbn beta iota; eapply reads_bind_nil].
  - intros rest. unfold read_lift. rewrite Hentry. done.
  - apply reads_emplace. by rewrite Hsame.
  - rewrite Hsame. unfold add_entry.
    assert ({| document_frequency := document_frequency e.2.2; postings := entry_postings e |} = e.2.2) as ->
      by (unfold entry_postings; by destruct (e.2.2)). apply reads_ret.
Qed.

(** The entries have distinct keys, so each is new when it is read. *)
Definition entry_key (e : located) : string * string := (e.1, e.2.1).

Lemma fresh_step fields e es : NoDup (entry_key <$> e :: es) ->
  (forall x, x ∈ e :: es -> fresh fields x) -> forall x, x ∈ es -> fresh (add_entry fields e) x.
Proof using Type.
  rewrite fmap_cons. intros [Hk _]%NoDup_cons Hfresh x Hx.
  pose proof (Hfresh x (list_elem_of_further _ _ _ Hx)) as Hold. unfold fresh, add_entry in *.
  destruct (decide (x.1 = e.1)) as [E|E].
  - rewrite E in *. rewrite lookup_insert_eq. cbn. rewrite lookup_insert_ne; [done|].
    intros E'. apply Hk. apply list_elem_of_fmap. exists x. split; [|done]. unfold entry_key. congruence.
  - by rewrite lookup_insert_ne.
Qed.

Lemma read_terms_compressed es : forall w state bytes tail,
  Forall entry_fits es -> NoDup (entry_key <$> es) -> (forall x, x ∈ es -> fresh (read_fields state) x) ->
  bytes = encoded_postings w ++ (es ≫= fun e => encode_compressed 0 (entry_postings e)) ++ tail ->
  expected_compressed_offset state = zlen (encoded_postings w) ->
  0 <= decoded_position_count state ->
  decoded_position_count state + total_positions (es ≫= entry_postings) <= maximum_positions limits ->
  zlen bytes <= u64_max ->
  reads (read_fold (length es) (read_term limits true bytes [] []) state) (term_records true w es)
    {| read_fields := foldl add_entry (read_fields state) es;
       decoded_posting_count := decoded_posting_count state + zlen (es ≫= entry_postings);
       decoded_position_count := decoded_position_count state + total_positions (es ≫= entry_postings);
       expected_compressed_offset := expected_compressed_offset state +
         zlen (es ≫= fun e => encode_compressed 0 (entry_postings e)) |}.
Proof using Hlimits.
  induction es as [|e es IH]; intros w state bytes tail Hfit Hnd Hfresh Hbytes Hoff Hdec Hmax H64.
  { cbn. unfold total_positions, zlen. cbn. rewrite !Z.add_0_r. destruct state. apply reads_ret. }
  apply Forall_cons in Hfit as [He Hfit]. pose proof He as (_ & _ & _ & Hdf & Hdfb & Hinc & Hps).
  cbn [length read_fold term_records foldl]. cbn [mbind list_bind] in Hbytes, Hmax |- *.
  set (own := encode_compressed 0 (entry_postings e)) in *.
  change (list_bind _ _ entry_postings es) with (es ≫= entry_postings) in *.
  change (list_bind _ _ _ es) with (es ≫= fun e => encode_compressed 0 (entry_postings e)) in *.
  rewrite total_positions_app in Hmax. pose proof (total_positions_nonneg (es ≫= entry_postings)) as Hnn.
  pose proof (total_positions_nonneg (entry_postings e)) as Hnn'.
  set (rest_bytes := es ≫= fun e => encode_compressed 0 (entry_postings e)) in *.
  assert (Hlen : zlen bytes = zlen (encoded_postings w) + zlen own + zlen rest_bytes + zlen tail)
    by (rewrite Hbytes, !zlen_app; lia).
  pose proof (zlen_nonneg (encoded_postings w)). pose proof (zlen_nonneg own).
  pose proof (zlen_nonneg rest_bytes). pose proof (zlen_nonneg tail).
  set (state1 := {| read_fields := read_fields state;
    decoded_posting_count := decoded_posting_count state + document_frequency e.2.2;
    decoded_position_count := decoded_position_count state + total_positions (entry_postings e);
    expected_compressed_offset := expected_compressed_offset state + zlen own |}).
  eapply reads_bind.
  - apply (reads_term true w e state state1); [done|unfold is_u64, term_start; lia|unfold is_u64, term_extent; fold own; lia
      |apply Hfresh; by left|done|].
    unfold compressed_entry, term_start, term_extent. fold own. rewrite Hoff, Z.eqb_refl.
    destruct (Z.gtb_spec (zlen (encoded_postings w)) (zlen bytes)); [lia|].
    destruct (Z.gtb_spec (zlen own) (zlen bytes - zlen (encoded_postings w))); [lia|]. cbn [negb orb].
    assert (take (Z.to_nat (zlen own)) (drop (Z.to_nat (zlen (encoded_postings w))) bytes) = own) as ->.
    { rewrite Hbytes. unfold zlen. rewrite !Nat2Z.id, drop_app_length, <- app_assoc. apply take_app_length. }
    rewrite (read_all_reads _ _ own (entry_postings e, decoded_position_count state + total_positions (entry_postings e))).
    + cbn [mbind expected_bind]. destruct (Z.gtb_spec (zlen own) (u64_max - zlen (encoded_postings w))); [lia|].
      unfold state1. by rewrite Hoff.
    + replace (Z.to_nat (document_frequency e.2.2)) with (length (entry_postings e)) by (rewrite Hdf; unfold zlen; lia).
      apply reads_compressed; [unfold u32_max; lia|done|done|done|lia].
  - specialize (IH (step_term true w e)
      {| read_fields := add_entry (read_fields state) e;
         decoded_posting_count := decoded_posting_count state1;
         decoded_position_count := decoded_position_count state1;
         expected_compressed_offset := expected_compressed_offset state1 |} bytes tail Hfit).
    cbn [read_fields decoded_posting_count decoded_position_count expected_compressed_offset state1] in IH.
    rewrite zlen_app, total_positions_app, zlen_app.
    replace (decoded_posting_count state + (zlen (entry_postings e) + zlen (es ≫= entry_postings)))
      with (decoded_posting_count state + document_frequency e.2.2 + zlen (es ≫= entry_postings)) by lia.
    rewrite !Z.add_assoc. apply IH.
    + rewrite fmap_cons in Hnd. by apply NoDup_cons in Hnd as [_ Hnd].
    + by eapply fresh_step.
    + rewrite step_term_eq. cbn [encoded_postings]. unfold entry_bytes. fold own. by rewrite <- !app_assoc in *.
    + rewrite step_term_eq. cbn [encoded_postings]. unfold entry_bytes. fold own. rewrite zlen_app. lia.
    + lia.
    + lia.
    + done.
Qed.

(** In the raw format an entry is the slice of the records that is its own. *)
Lemma raw_slice before own after :
  posting_of_raw (all_positions (before ++ own ++ after)) <$>
    take (length own) (drop (length before) (raws_of 0 (before ++ own ++ after))) = own.
Proof using Type.
  rewrite !raws_app, <- (length_raws before 0), drop_app_length.
  rewrite <- (length_raws own (0 + total_positions before)) at 1. rewrite take_app_length, !bind_app.
  rewrite Z.add_0_l, <- zlen_all_positions. apply posting_of_raws.
Qed.

Lemma read_terms_raw bytes es : forall w state before,
  Forall entry_fits es -> NoDup (entry_key <$> es) -> (forall x, x ∈ es -> fresh (read_fields state) x) ->
  posting_count w = zlen before -> zlen before + zlen (es ≫= entry_postings) <= u64_max ->
  let all := before ++ (es ≫= entry_postings) in
  reads (read_fold (length es) (read_term limits false bytes (all_positions all) (raws_of 0 all)) state)
    (term_records false w es)
    {| read_fields := foldl add_entry (read_fields state) es;
       decoded_posting_count := decoded_posting_count state;
       decoded_position_count := decoded_position_count state;
       expected_compressed_offset := expected_compressed_offset state |}.
Proof using Hlimits.
  induction es as [|e es IH]; intros w state before Hfit Hnd Hfresh Hw H64 all.
  { destruct state. apply reads_ret. }
  apply Forall_cons in Hfit as [He Hfit]. pose proof He as (_ & _ & _ & Hdf & Hdfb & _).
  cbn [length read_fold term_records foldl]. subst all. cbn [mbind list_bind] in H64 |- *.
  change (list_bind _ _ entry_postings es) with (es ≫= entry_postings) in *.
  rewrite zlen_app in H64. pose proof (zlen_nonneg before). pose proof (zlen_nonneg (es ≫= entry_postings)).
  eapply reads_bind.
  - apply (reads_term false w e state state); [done|unfold is_u64, term_start; lia|unfold is_u64, term_extent; lia
      |apply Hfresh; by left|done|].
    unfold raw_entry, term_start, term_extent. rewrite Hw, Hdf, Z.eqb_refl.
    replace (zlen (raws_of 0 (before ++ entry_postings e ++ (es ≫= entry_postings))))
      with (zlen before + zlen (entry_postings e) + zlen (es ≫= entry_postings))
      by (unfold zlen; rewrite length_raws, !length_app; lia).
    destruct (Z.gtb_spec (zlen before) (zlen before + zlen (entry_postings e) + zlen (es ≫= entry_postings))); [lia|].
    destruct (Z.gtb_spec (zlen (entry_postings e))
      (zlen before + zlen (entry_postings e) + zlen (es ≫= entry_postings) - zlen before)); [lia|].
    cbn [negb orb]. do 2 f_equal. unfold zlen. rewrite !Nat2Z.id. apply raw_slice.
  - rewrite (app_assoc before).
    apply (IH (step_term false w e)
      {| read_fields := add_entry (read_fields state) e;
         decoded_posting_count := decoded_posting_count state;
         decoded_position_count := decoded_position_count state;
         expected_compressed_offset := expected_compressed_offset state |}); [done| | | |].
    + rewrite fmap_cons in Hnd. by apply NoDup_cons in Hnd as [_ Hnd].
    + by eapply fresh_step.
    + rewrite step_term_eq. cbn [posting_count]. rewrite zlen_app. lia.
    + rewrite zlen_app. lia.
Qed.

(** The entries put back under their fields are the dictionaries. *)
Lemma add_entries field l : forall fields, l <> [] ->
  foldl add_entry fields (pair field <$> l) =
  <[field := foldl (fun m x => <[x.1 := x.2]> m) (default ∅ (fields !! field)) l]> fields.
Proof using Type.
  induction l as [|x l IH]; intros fields Hl; [done|]. cbn [fmap list_fmap foldl].
  change (list_fmap _ _ (pair field) l) with (pair field <$> l).
  destruct l as [|y l]; [done|]. rewrite IH by done. unfold add_entry. cbn [fst snd].
  rewrite lookup_insert_eq. cbn [default]. by rewrite insert_insert_eq.
Qed.

Lemma foldl_insert_items (m : TermDictionary) :
  foldl (fun m x => <[x.1 := x.2]> m) ∅ (map_items m) = m.
Proof using Type.
  rewrite foldl_insert_keys by apply NoDup_fst_map_items. rewrite <- (list_to_map_items m) at 2.
  f_equal. rewrite <- (list_fmap_id (map_items m)) at 2. apply list_fmap_ext. by intros ? [? ?] _.
Qed.

Definition no_empty_dictionary (fields : FieldDictionaries) : Prop :=
  map_Forall (fun _ d => d <> ∅) fields.

Lemma map_items_nil {V} (m : gmap string V) : map_items m = [] -> m = ∅.
Proof using Type. intros H. rewrite <- (list_to_map_items m), H. done. Qed.

Lemma unflatten (fields : FieldDictionaries) : no_empty_dictionary fields ->
  foldl add_entry ∅ (flatten fields) = fields.
Proof using Type.
  intros Hne. unfold flatten. rewrite foldl_bind.
  transitivity (foldl (fun m (x : string * TermDictionary) => <[x.1 := x.2]> m) (∅ : FieldDictionaries) (map_items fields)).
  - assert (Hgen : forall l (m : FieldDictionaries), NoDup l.*1 -> (forall x, x ∈ l -> x.2 <> ∅ /\ m !! x.1 = None) ->
      foldl (fun c x => foldl add_entry c (let '(field, dictionary) := x in pair field <$> map_items dictionary)) m l =
      foldl (fun m (x : string * TermDictionary) => <[x.1 := x.2]> m) m l).
    { induction l as [|[field d] l IH]; intros m Hnd Hx; [done|]. cbn [foldl fst snd].
      destruct (Hx (field, d)) as [Hd Hm]; [by left|]. cbn [fst snd] in Hd, Hm.
      rewrite fmap_cons in Hnd. apply NoDup_cons in Hnd as [Hk Hnd].
      rewrite add_entries by (intros E%map_items_nil; done). rewrite Hm. cbn [default].
      rewrite foldl_insert_items. apply IH; [done|]. intros x Hin. split; [apply Hx; by right|].
      rewrite lookup_insert_ne; [apply Hx; by right|]. intros E. apply Hk. cbn [fst]. rewrite E.
      by apply list_elem_of_fmap_2. }
    rewrite <- Hgen; [done| |].
    + apply NoDup_fst_map_items.
    + intros [k d] Hin%elem_of_map_items. split; [by eapply Hne|apply lookup_empty].
  - rewrite foldl_insert_keys by apply NoDup_fst_map_items. rewrite <- (list_to_map_items fields) at 2.
    f_equal. rewrite <- (list_fmap_id (map_items fields)) at 2. apply list_fmap_ext. by intros ? [? ?] _.
Qed.

Lemma NoDup_flatten (fields : FieldDictionaries) : NoDup (entry_key <$> flatten fields).
Proof using Type.
  unfold flatten. pose proof (NoDup_fst_map_items fields) as Hnd. induction (map_items fields) as [|[f d] l IH]; [constructor|].
  rewrite fmap_cons in Hnd. apply NoDup_cons in Hnd as [Hf Hnd]. cbn [mbind list_bind].
  rewrite fmap_app, <- (list_fmap_compose (pair f) entry_key). apply NoDup_app. split_and!.
  - rewrite (list_fmap_ext _ (pair f ∘ (fst : string * TermEntry -> string)) (map_items d)) by done.
    rewrite list_fmap_compose. apply (NoDup_fmap_2 _). apply NoDup_fst_map_items.
  - intros k (x & -> & Hx)%list_elem_of_fmap (y & E & Hy)%list_elem_of_fmap.
    apply list_elem_of_bind in Hy as ([f' d'] & Hy & Hin). apply list_elem_of_fmap in Hy as (z & -> & _).
    unfold entry_key in E. cbn in E. injection E as E _. apply Hf. cbn. rewrite E.
    change f' with (f', d').1. by apply list_elem_of_fmap_2.
  - by apply IH.
Qed.

Lemma elem_of_flatten (fields : FieldDictionaries) f t entry :
  (f, (t, entry)) ∈ flatten fields <-> exists d, fields !! f = Some d /\ d !! t = Some entry.
Proof using Type.
  unfold flatten. rewrite list_elem_of_bind. split.
  - intros ([f' d] & Hin & Hf). apply elem_of_map_items in Hf.
    apply list_elem_of_fmap in Hin as (z & [= -> <-] & Hz). apply elem_of_map_items in Hz. eauto.
  - intros (d & Hf & Ht). exists (f, d). split; [|by apply elem_of_map_items].
    apply list_elem_of_fmap. exists (t, entry). split; [done|]. by apply elem_of_map_items.
Qed.
End sections.
