(* ===== verification/SegmentFile.v ===== *)
(** * Segment files: a snapshot survives the disk

    The sections, the directory and the header together: [SegmentReader.open]
    on the bytes of [encode_segment] returns a reader of the same index, for
    every index that puts and erases can build within the reader's limits; the
    reader keeps the contract of [IndexViewLaws]; a changed byte is noticed;
    and what [open] accepts is consistent, whatever the bytes. *)

From S2P Require Import Prelude Bytes Codec Text Cursor Doubles Analysis Schema Types Index IndexSpec IndexChecks ViewSpec Segment SegmentSpec.
From Stdlib Require Import Ascii SpecFloat.
Import SegmentReader VariableByteCodec.

Notation all_positions ps := (ps ≫= positions).

Lemma increasing_u32 l : forall q, -1 <= q -> increasing_from q l -> Forall is_u32 l.
Proof.
  induction l as [|y l IH]; intros q Hq Hinc; constructor; destruct Hinc as [Hy Hinc].
  - unfold is_u32. lia.
  - apply (IH y); [lia|done].
Qed.

(** ** Terms, postings and positions *)

Section file.
Context (limits : SegmentReadLimits) (Hlimits : limits_ok limits).

Record dictionaries_fit (fields : FieldDictionaries) : Prop := {
  fit_dictionaries : no_empty_dictionary fields;
  fit_entries : Forall (entry_fits limits) (flatten fields);
  fit_terms : zlen (flatten fields) <= maximum_terms limits;
  fit_postings : zlen (flatten fields ≫= entry_postings) <= maximum_postings limits;
  fit_positions : total_positions (flatten fields ≫= entry_postings) <= maximum_positions limits
}.

Definition term_sections (encoded : EncodedIndex) : SectionData * SectionData * SectionData :=
  ({| section_bytes := encoded_terms encoded; section_count := term_count encoded |},
   {| section_bytes := encoded_postings encoded; section_count := posting_count encoded |},
   {| section_bytes := encoded_positions encoded; section_count := position_count encoded |}).

(** The three sections, opened in the order of the source. *)
Definition open_dictionaries (compressed : bool) (sections : SectionData * SectionData * SectionData)
    : expected SegmentError FieldDictionaries :=
  let '(terms, postings, positions) := sections in
  all ← open_positions limits compressed positions;
  raws ← open_postings limits compressed all postings;
  open_terms limits compressed terms postings positions all raws.

Lemma fresh_empty e : fresh ∅ e.
Proof using Type. unfold fresh. rewrite lookup_empty. apply lookup_empty. Qed.

Lemma fit_all_postings fields : dictionaries_fit fields ->
  Forall posting_fits (flatten fields ≫= entry_postings) /\
  Forall (fun p => is_u32 (posting_document_id p)) (flatten fields ≫= entry_postings).
Proof using Type.
  intros [_ He _ _ _]. rewrite Forall_forall in He.
  split; apply Forall_forall; intros p (e & Hp & Hin)%list_elem_of_bind;
    destruct (He _ Hin) as (_ & _ & _ & _ & _ & Hinc & Hps).
  - rewrite Forall_forall in Hps. by apply Hps.
  - apply increasing_u32 in Hinc; [|lia]. rewrite Forall_fmap, Forall_forall in Hinc. by apply Hinc.
Qed.

Lemma open_dictionaries_raw fields : dictionaries_fit fields ->
  open_dictionaries false (term_sections (foldl (step_term false) empty_encoded (flatten fields))) = Ok fields.
Proof using Hlimits.
  intros F. destruct (fit_all_postings _ F) as [Hps Hids]. destruct F as [Hne He Ht Hp Hq].
  set (es := flatten fields) in *. set (all := es ≫= entry_postings) in *.
  unfold open_dictionaries, term_sections.
  destruct (counts_flat false es empty_encoded) as (Htc & Hpc & Hqc).
  rewrite Htc, Hpc, Hqc, encoded_terms_flat, encoded_postings_raw, encoded_positions_flat.
  cbn [empty_encoded encoded_terms encoded_postings encoded_positions term_count posting_count
    position_count app]. rewrite !Z.add_0_l. fold all.
  destruct Hlimits as (_ & _ & _ & Hlt & Hlp & Hlq & _).
  pose proof (total_positions_nonneg all). pose proof (zlen_nonneg all).
  rewrite open_positions_ok by (done || lia). cbn [mbind expected_bind].
  rewrite open_postings_ok; [|done|lia| |done|done].
  2:{ change (u64_max / 4) with 4611686018427387903 in Hlq. unfold u64_max. lia. }
  cbn [mbind expected_bind]. unfold open_terms. cbn [section_bytes section_count].
  destruct (Z.gtb_spec (zlen es) (maximum_terms limits)); [lia|].
  replace (Z.to_nat (zlen es)) with (length es) by (unfold zlen; lia).
  pose proof (read_terms_raw limits Hlimits (raws_of 0 all ≫= raw_bytes) es empty_encoded
    {| read_fields := ∅; decoded_posting_count := 0; decoded_position_count := 0;
       expected_compressed_offset := 0 |} [] He (NoDup_flatten fields)
    (fun x _ => fresh_empty x) eq_refl) as Hr. cbn [app] in Hr. fold all in Hr.
  change (zlen []) with 0 in Hr. assert (Hb : 0 + zlen all <= u64_max).
  { change (u64_max / 24) with 768614336404564650 in Hlp. unfold u64_max. lia. }
  specialize (Hr Hb []). rewrite app_nil_r in Hr. rewrite Hr. cbn [mbind expected_bind andb read_fields].
  f_equal. by apply unflatten.
Qed.

Lemma open_dictionaries_compressed fields : dictionaries_fit fields ->
  zlen (flatten fields ≫= fun e => encode_compressed 0 (entry_postings e)) <= u64_max ->
  open_dictionaries true (term_sections (foldl (step_term true) empty_encoded (flatten fields))) = Ok fields.
Proof using Hlimits.
  intros [Hne He Ht Hp Hq] H64. set (es := flatten fields) in *. set (all := es ≫= entry_postings) in *.
  set (bytes := es ≫= fun e => encode_compressed 0 (entry_postings e)) in *.
  unfold open_dictionaries, term_sections.
  destruct (counts_flat true es empty_encoded) as (Htc & Hpc & Hqc).
  rewrite Htc, Hpc, Hqc, encoded_terms_flat, encoded_postings_compressed, encoded_positions_flat.
  cbn [empty_encoded encoded_terms encoded_postings encoded_positions term_count posting_count
    position_count app]. rewrite !Z.add_0_l. fold all. fold bytes.
  unfold open_positions, open_postings. cbn [section_bytes section_count negb andb orb].
  destruct (Z.gtb_spec (total_positions all) (maximum_positions limits)); [lia|].
  destruct (Z.gtb_spec (zlen all) (maximum_postings limits)); [lia|].
  change (zlen [] =? 0) with true. cbn [negb andb orb mbind expected_bind].
  unfold open_terms. cbn [section_bytes section_count].
  destruct (Z.gtb_spec (zlen es) (maximum_terms limits)); [lia|].
  replace (Z.to_nat (zlen es)) with (length es) by (unfold zlen; lia).
  pose proof (read_terms_compressed limits Hlimits es empty_encoded
    {| read_fields := ∅; decoded_posting_count := 0; decoded_position_count := 0;
       expected_compressed_offset := 0 |} bytes [] He (NoDup_flatten fields)
    (fun x _ => fresh_empty x)) as Hr. rewrite app_nil_r in Hr.
  specialize (Hr eq_refl eq_refl (Z.le_refl 0) Hq H64 []). rewrite app_nil_r in Hr. rewrite Hr.
  cbn [mbind expected_bind andb read_fields decoded_posting_count decoded_position_count
    expected_compressed_offset]. fold all. fold bytes.
  rewrite !Z.add_0_l, !Z.eqb_refl. cbn [negb orb]. f_equal. by apply unflatten.
Qed.

Lemma open_dictionaries_ok compressed snapshot : dictionaries_fit (snap_fields snapshot) ->
  zlen (encoded_postings (encode_index snapshot compressed)) <= u64_max ->
  open_dictionaries compressed (term_sections (encode_index snapshot compressed)) = Ok (snap_fields snapshot).
Proof using Hlimits.
  rewrite encode_index_flat. intros F H. destruct compressed.
  - apply open_dictionaries_compressed; [done|]. by rewrite encoded_postings_compressed in H.
  - by apply open_dictionaries_raw.
Qed.

(** ** The directory *)

Definition section_fits (section : SectionData) : Prop := is_u64 (section_count section).

Lemma reads_directory sections : forall bytes pre post number,
  Forall section_fits sections -> 0 <= number -> number + zlen sections <= u32_max ->
  bytes = pre ++ (sections ≫= section_bytes) ++ post -> zlen bytes <= u64_max ->
  reads (read_directory (length sections) bytes number (zlen pre))
    (encode_directory number (zlen pre) sections) (sections, zlen pre + zlen (sections ≫= section_bytes)).
Proof using Type.
  induction sections as [|section sections IH]; intros bytes pre post number Hs Hn Hn' -> H64.
  { cbn. rewrite Z.add_0_r. apply reads_ret. }
  apply Forall_cons in Hs as [Hc Hs]. cbn [length read_directory encode_directory mbind list_bind] in *.
  change (list_bind _ _ section_bytes sections) with (sections ≫= section_bytes) in *.
  rewrite zlen_cons in Hn'. rewrite !zlen_app in H64 |- *.
  pose proof (zlen_nonneg pre). pose proof (zlen_nonneg (section_bytes section)).
  pose proof (zlen_nonneg (sections ≫= section_bytes)). pose proof (zlen_nonneg post).
  pose proof (zlen_nonneg sections).
  rewrite !app_assoc. eapply reads_bind.
  - apply reads_or. rewrite <- !app_assoc.
    eapply reads_bind; [apply reads_u32; unfold is_u32; lia|].
    eapply reads_bind; [apply reads_u32; split; [done|discriminate]|].
    eapply reads_bind; [apply reads_u64; unfold is_u64; lia|].
    eapply reads_bind; [apply reads_u64; unfold is_u64; lia|].
    eapply reads_bind_nil; [by apply reads_u64|].
    apply reads_ensure; [|apply reads_ret]. rewrite !Z.eqb_refl. cbn [andb].
    apply Z.leb_le. lia.
  - cbn beta iota. eapply reads_bind_nil.
    + rewrite <- zlen_app, <- (app_assoc (pre ++ _)).
      eapply IH; [done|lia|lia|done|]. rewrite !zlen_app. lia.
    + cbn beta iota. rewrite <- !app_assoc. unfold zlen at 1 2. rewrite !Nat2Z.id, drop_app_length, take_app_length.
      rewrite zlen_app, Z.add_assoc. destruct section. apply reads_ret.
Qed.

Lemma length_encode_directory sections : forall number offset,
  length (encode_directory number offset sections) = (32 * length sections)%nat.
Proof using Type.
  induction sections as [|section sections IH]; intros number offset; [done|].
  cbn [encode_directory length]. rewrite !length_app, IH. cbn. lia.
Qed.

(** ** The header *)

Definition header_bytes (compressed : bool) (size id checksum : Z) : list byte :=
  put_u16 kMajor ++ put_u16 (if compressed then 1 else 0) ++ put_u32 kHeaderBytes ++ put_u64 size ++
  put_u64 id ++ put_u32 kSectionCount ++ put_u32 (if compressed then kCompressedPostings else 0) ++
  put_u32 checksum.

Lemma reads_header compressed size id checksum : is_u64 size -> 1 <= id <= u64_max -> is_u32 checksum ->
  reads (read_header size) (header_bytes compressed size id checksum)
    {| header_segment_id := id; header_compressed := compressed; header_checksum := checksum |}.
Proof using Type.
  intros Hs Hi Hc. unfold read_header, header_bytes. eapply reads_bind_nil.
  - apply reads_or.
    eapply reads_bind; [by apply reads_u16|]. eapply reads_bind; [by apply reads_u16; destruct compressed|].
    eapply reads_bind; [by apply reads_u32|]. eapply reads_bind; [by apply reads_u64|].
    eapply reads_bind; [apply reads_u64; unfold is_u64; lia|]. eapply reads_bind; [by apply reads_u32|].
    eapply reads_bind; [by apply reads_u32; destruct compressed|].
    eapply reads_bind_nil; [by apply reads_u32|]. apply reads_ret.
  - cbn beta iota. apply reads_ensure; [done|]. apply reads_ensure; [by destruct compressed|].
    apply reads_ensure.
    + rewrite !Z.eqb_refl. destruct (Z.eqb_spec id 0); [lia|done].
    + assert (negb (Z.land (if compressed then kCompressedPostings else 0) kCompressedPostings =? 0) = compressed)
        as -> by by destruct compressed. apply reads_ret.
Qed.

Definition kBodyStart : Z := kHeaderBytes + kSectionCount * kDirectoryEntryBytes.

(** The file: magic, header, zeros, directory and sections. *)
Definition file_bytes (compressed : bool) (id : Z) (sections : list SectionData) : list byte :=
  let body := encode_directory 1 kBodyStart sections ++ (sections ≫= section_bytes) in
  kMagic ++ header_bytes compressed (kHeaderBytes + zlen body) id (crc32c body) ++ zero_bytes 20 ++ body.

Lemma encode_segment_file snapshot options :
  encode_segment snapshot options =
  file_bytes (compressed_postings options) (write_segment_id options)
    (sections_of snapshot (compressed_postings options)).
Proof using Type. unfold encode_segment, file_bytes, header_bytes. by rewrite <- !app_assoc. Qed.

Lemma open_sections_ok head sections :
  length head = 64%nat -> length sections = 6%nat -> Forall section_fits sections ->
  kHeaderBytes + zlen (encode_directory 1 kBodyStart sections ++ (sections ≫= section_bytes)) <= u64_max ->
  open_sections (head ++ encode_directory 1 kBodyStart sections ++ (sections ≫= section_bytes)) = Ok sections.
Proof using Type.
  intros Hh Hlen Hs H64. set (directory := encode_directory 1 kBodyStart sections) in *.
  set (rest := sections ≫= section_bytes) in *.
  assert (Hpre : zlen (head ++ directory) = kBodyStart).
  { unfold directory, zlen. by rewrite length_app, length_encode_directory, Hlen, Hh. }
  assert (Hall : zlen (head ++ directory ++ rest) = kBodyStart + zlen rest) by by rewrite app_assoc, zlen_app, Hpre.
  unfold open_sections. change (Z.to_nat kHeaderBytes) with 64%nat. rewrite drop_app_length' by done.
  change (kHeaderBytes + kSectionCount * kDirectoryEntryBytes) with kBodyStart.
  change (Z.to_nat kSectionCount) with 6%nat.
  pose proof (reads_directory sections (head ++ directory ++ rest) (head ++ directory) [] 1 Hs) as Hr.
  rewrite Hlen, Hpre in Hr. unfold directory at 2. rewrite Hr.
  - cbn [fmap expected_fmap mbind expected_bind]. fold rest. by rewrite Hall, Z.eqb_refl.
  - done.
  - unfold zlen. by rewrite Hlen.
  - rewrite app_nil_r. fold rest. by rewrite <- app_assoc.
  - rewrite Hall. rewrite zlen_app in H64. unfold zlen at 1 in H64. unfold directory in H64.
    rewrite length_encode_directory, Hlen in H64. unfold kHeaderBytes in H64.
    change kBodyStart with 256. change (Z.of_nat (32 * 6)) with 192 in H64. lia.
Qed.

(** Where the four parts of a file are found. *)
Lemma file_layout (magic header zeros body : list byte) :
  length magic = 8%nat -> length header = 36%nat -> length zeros = 20%nat ->
  let bytes := magic ++ header ++ zeros ++ body in
  take 8 bytes = magic /\ take 56 (drop 8 bytes) = header ++ zeros /\
  take 20 (drop 44 bytes) = zeros /\ drop 64 bytes = body.
Proof using Type.
  intros Hm Hh Hz bytes. unfold bytes. split_and!.
  - by rewrite take_app_length'.
  - rewrite drop_app_length', app_assoc by done. rewrite take_app_length'; [done|]. rewrite length_app. lia.
  - rewrite app_assoc, drop_app_length' by (rewrite length_app; lia). by rewrite take_app_length'.
  - rewrite !app_assoc. apply drop_app_length'. rewrite !length_app. lia.
Qed.

Lemma open_file compressed id sections :
  length sections = 6%nat -> Forall section_fits sections -> 1 <= id <= u64_max ->
  zlen (file_bytes compressed id sections) <= maximum_file_bytes limits ->
  open (file_bytes compressed id sections) limits =
  decode_body limits {| header_segment_id := id; header_compressed := compressed;
    header_checksum := crc32c (encode_directory 1 kBodyStart sections ++ (sections ≫= section_bytes)) |} sections.
Proof using Hlimits.
  intros Hlen Hs Hid Hmax.
  set (directory := encode_directory 1 kBodyStart sections) in *. set (rest := sections ≫= section_bytes) in *.
  assert (Hd : length directory = 192%nat) by (unfold directory; rewrite length_encode_directory, Hlen; done).
  assert (Hsize : zlen (file_bytes compressed id sections) = kHeaderBytes + zlen (directory ++ rest)).
  { unfold file_bytes. rewrite !zlen_app. change (zlen kMagic) with 8. change (zlen (zero_bytes 20)) with 20.
    change (zlen (header_bytes _ _ _ _)) with 36. unfold kHeaderBytes. fold directory rest. lia. }
  assert (Hrest : zlen (directory ++ rest) = 192 + zlen rest) by (rewrite zlen_app; unfold zlen at 1; rewrite Hd; done).
  pose proof (zlen_nonneg rest) as Hnn. unfold limits_ok in Hlimits.
  unfold open. rewrite Hsize in *. unfold kHeaderBytes in Hmax.
  rewrite (proj2 (Z.leb_le (kHeaderBytes + zlen (directory ++ rest)) (maximum_file_bytes limits))) by (unfold kHeaderBytes; lia).
  cbn [ensure mbind expected_bind].
  destruct (Z.ltb_spec (kHeaderBytes + zlen (directory ++ rest)) (kHeaderBytes + kSectionCount * kDirectoryEntryBytes));
    [unfold kSectionCount, kDirectoryEntryBytes in *; lia|].
  cbn [negb ensure mbind expected_bind].
  set (header := header_bytes compressed (kHeaderBytes + zlen (directory ++ rest)) id (crc32c (directory ++ rest))).
  assert (Hbytes : file_bytes compressed id sections = kMagic ++ header ++ zero_bytes 20 ++ directory ++ rest) by done.
  rewrite Hbytes in *. destruct (file_layout kMagic header (zero_bytes 20) (directory ++ rest)) as (E1 & E2 & E3 & E4); try done.
  rewrite E1, (bool_decide_eq_true_2 (kMagic = kMagic)) by done. cbn [ensure mbind expected_bind].
  change (Z.to_nat (kHeaderBytes - 8)) with 56%nat. change (Z.to_nat kHeaderBytes) with 64%nat.
  assert (Hread : reads (read_header (kHeaderBytes + zlen (directory ++ rest))) header
    {| header_segment_id := id; header_compressed := compressed; header_checksum := crc32c (directory ++ rest) |}).
  { apply reads_header; [unfold is_u64, kHeaderBytes; lia|done|apply crc32c_range]. }
  rewrite E2, E3, E4, Hread.
  cbn [mbind expected_bind]. rewrite bool_decide_eq_true_2 by done. cbn [ensure mbind expected_bind header_checksum].
  rewrite Z.eqb_refl. cbn [ensure mbind expected_bind].
  rewrite !app_assoc, <- app_assoc, <- (app_assoc kMagic). unfold directory, rest.
  rewrite open_sections_ok; [done|by rewrite !length_app|done|done|fold directory rest; unfold kHeaderBytes in *; lia].
Qed.

(** ** The whole file *)

Record snapshot_fits (snapshot : IndexSnapshot) : Prop := {
  fits_schema : schema_fits limits (snap_schema snapshot);
  fits_documents : documents_fit limits (snap_documents snapshot) (snap_external_ids snapshot);
  fits_statistics : map_fits limits (statistic_fits limits) (snap_statistics snapshot);
  fits_dictionaries : dictionaries_fit (snap_fields snapshot)
}.

Definition reader_of (id : SegmentId) (snapshot : IndexSnapshot) : SegmentReader :=
  {| segment_id_ := id; schema_ := snap_schema snapshot; fields_ := snap_fields snapshot;
     documents_ := snap_documents snapshot; external_ids_ := snap_external_ids snapshot;
     statistics_ := snap_statistics snapshot |}.

Lemma sections_fit snapshot compressed : snapshot_fits snapshot ->
  Forall section_fits (sections_of snapshot compressed).
Proof using Hlimits.
  intros [[[Hs _] _] (Hd & _) [Hst _] F]. destruct F as [_ _ Ht Hp Hq].
  destruct (counts_flat compressed (flatten (snap_fields snapshot)) empty_encoded) as (Htc & Hpc & Hqc).
  rewrite <- encode_index_flat in Htc, Hpc, Hqc. cbn [empty_encoded term_count posting_count position_count] in *.
  destruct Hlimits as (_ & Hlf & Hld & Hlt & Hlp & Hlq & _).
  change (u64_max / 24) with 768614336404564650 in Hlp. change (u64_max / 4) with 4611686018427387903 in Hlq.
  pose proof (zlen_nonneg (flatten (snap_fields snapshot))).
  pose proof (zlen_nonneg (flatten (snap_fields snapshot) ≫= entry_postings)).
  pose proof (total_positions_nonneg (flatten (snap_fields snapshot) ≫= entry_postings)).
  unfold sections_of. repeat constructor; unfold section_fits, is_u64; cbn [section_count]; try lia;
    rewrite ?Htc, ?Hpc, ?Hqc; unfold u64_max; lia.
Qed.

Lemma zlen_bind_elem {A B} (f : A -> list B) l x : x ∈ l -> zlen (f x) <= zlen (l ≫= f).
Proof using Type.
  intros (l1 & l2 & ->)%list_elem_of_split. rewrite bind_app. cbn [mbind list_bind]. rewrite !zlen_app.
  pose proof (zlen_nonneg (l1 ≫= f)). pose proof (zlen_nonneg (l2 ≫= f)).
  change (list_bind _ _ f l2) with (l2 ≫= f). lia.
Qed.

Lemma postings_in_file snapshot options :
  zlen (encoded_postings (encode_index snapshot (compressed_postings options))) <=
  zlen (encode_segment snapshot options).
Proof using Type.
  rewrite encode_segment_file. unfold file_bytes. rewrite !zlen_app.
  set (sections := sections_of _ _).
  pose proof (zlen_bind_elem section_bytes sections
    {| section_bytes := encoded_postings (encode_index snapshot (compressed_postings options));
       section_count := posting_count (encode_index snapshot (compressed_postings options)) |}) as H.
  cbn [section_bytes] in H. pose proof (zlen_nonneg (encode_directory 1 kBodyStart sections)).
  pose proof (zlen_nonneg kMagic). pose proof (zlen_nonneg (zero_bytes 20)).
  match goal with |- context [header_bytes ?a ?b ?c ?d] => pose proof (zlen_nonneg (header_bytes a b c d)) end.
  assert (zlen (encoded_postings (encode_index snapshot (compressed_postings options))) <=
    zlen (sections ≫= section_bytes)); [|lia]. apply H.
  unfold sections, sections_of. do 4 right. left.
Qed.

Lemma open_snapshot snapshot options : snapshot_fits snapshot ->
  1 <= write_segment_id options <= u64_max ->
  zlen (encode_segment snapshot options) <= maximum_file_bytes limits ->
  validate_invariants (reader_of (write_segment_id options) snapshot) = Ok tt ->
  open (encode_segment snapshot options) limits = Ok (reader_of (write_segment_id options) snapshot).
Proof using Hlimits.
  intros F Hid Hmax Hvalid. pose proof (postings_in_file snapshot options) as Hpostings.
  rewrite encode_segment_file in *. rewrite open_file; [|done|by apply sections_fit|done|done].
  pose proof F as [Hs Hd Hst Hf].
  pose proof (open_dictionaries_ok (compressed_postings options) snapshot Hf) as Ho.
  destruct Hlimits as (_ & _ & _ & _ & _ & _ & H64). specialize (Ho ltac:(lia)).
  unfold decode_body, sections_of. rewrite open_schema_ok by done. cbn [mbind expected_bind].
  rewrite open_documents_ok by done. cbn [mbind expected_bind].
  rewrite open_statistics_ok by done. cbn [mbind expected_bind header_compressed header_segment_id].
  unfold open_dictionaries, term_sections in Ho.
  apply bind_Ok in Ho as (all & Ha & Ho). apply bind_Ok in Ho as (raws & Hr & Ho).
  rewrite Ha. cbn [mbind expected_bind]. rewrite Hr. cbn [mbind expected_bind]. rewrite Ho. cbn [mbind expected_bind].
  unfold reader_of in Hvalid. rewrite Hvalid. done.
Qed.
End file.

(** ** The reader's checks accept the snapshots of the index *)

Definition segment_of (id : SegmentId) (index : InMemoryIndex) : SegmentReader :=
  reader_of id (InMemoryIndex.snapshot index).

(** The fields a document names are in the schema; puts check it. *)
Definition declared (schema : IndexSchema) (documents : DocumentRecords) : Prop :=
  map_Forall (fun _ r =>
    (forall k, is_Some (doc_fields (document r) !! k) -> is_Some (IndexSchema.find schema k)) /\
    (forall k, is_Some (doc_stored_metadata (document r) !! k) -> is_Some (IndexSchema.find schema k)) /\
    doc_id (document r) <> "") documents.

Lemma put_declared index d index' : declared (InMemoryIndex.schema_ index) (InMemoryIndex.documents_ index) ->
  InMemoryIndex.put index d = Ok index' ->
  declared (InMemoryIndex.schema_ index') (InMemoryIndex.documents_ index').
Proof.
  intros Hd Hput. rewrite (put_schema _ _ _ Hput).
  apply put_Ok in Hput as (Hid & _ & Hf & Hm & record & p & <- & _ & _ & _ & ->).
  unfold declared. rewrite publish_documents. apply map_Forall_insert_2; [|done].
  split_and!; [| |done]; intros k [value Hv].
  - destruct (Hf _ _ Hv) as (_ & definition & -> & _). by eauto.
  - destruct (Hm _ _ Hv) as (_ & definition & -> & _). by eauto.
Qed.

Lemma reachable_declared schema maximum index : is_u32 maximum -> reachable schema maximum index ->
  declared schema (InMemoryIndex.documents_ index).
Proof.
  intros Hm Hr. destruct (reachable_wf _ _ _ Hm Hr) as [_ Hs]. rewrite <- Hs. clear Hs.
  induction Hr as [|index d index' _ IH Hput|index id v index' _ IH Her].
  - unfold declared. cbn. apply map_Forall_empty.
  - by eapply put_declared.
  - apply erase_put in Her. by eapply put_declared.
Qed.

Lemma contains_sorted_ok {A} (R : A -> A -> Prop) (lt eq : A -> bool) l x :
  StronglySorted R l -> x ∈ l -> eq x = true -> lt x = false -> (forall y, R y x -> lt y = true) ->
  contains_sorted lt eq l = true.
Proof.
  intros Hs Hx Heq Hlt Hbefore. unfold contains_sorted.
  induction Hs as [|y l Hs IH Hy]; [by apply not_elem_of_nil in Hx|].
  apply elem_of_cons in Hx as [->|Hx]; cbn [lower_bound]; [by rewrite Hlt|].
  rewrite Forall_forall in Hy. rewrite (Hbefore y (Hy _ Hx)). by apply IH.
Qed.

Lemma sorted_unique_ok {A} (le eq : A -> A -> bool) (R : A -> A -> Prop) l :
  StronglySorted R l -> (forall x y, R x y -> le x y = true /\ eq x y = false) ->
  sorted_unique le eq l = true.
Proof.
  intros Hs HR. unfold sorted_unique. apply andb_true_intro. split.
  - apply (adjacent_all_Sorted _ (fun x y => le x y = true)); [done|]. apply StronglySorted_Sorted.
    induction Hs; constructor; [done|]. eapply Forall_impl; [done|]. intros ?. by apply HR.
  - apply (adjacent_all_Sorted _ (fun x y => negb (eq x y) = true)); [done|]. apply StronglySorted_Sorted.
    induction Hs as [|x l Hs IH Hx]; constructor; [done|]. eapply Forall_impl; [done|]. intros y Hxy.
    cbn. by destruct (HR _ _ Hxy) as [_ ->].
Qed.

Section valid.
Context (schema : IndexSchema) (maximum : Z) (index : InMemoryIndex) (id : SegmentId).
Context (Hmaximum : is_u32 maximum) (Hlaws : schema_analyzers schema).
Context (Hreach : reachable schema maximum index).

Notation documents := (InMemoryIndex.documents_ index).

Lemma reach_wf : wf index.
Proof using Hmaximum Hreach. by destruct (reachable_wf _ _ _ Hmaximum Hreach). Qed.

Lemma reach_schema : InMemoryIndex.schema_ index = schema.
Proof using Hmaximum Hreach. by destruct (reachable_wf _ _ _ Hmaximum Hreach). Qed.

Lemma reach_view : IndexViewLaws (InMemoryIndex.view index) schema documents.
Proof using Hmaximum Hlaws Hreach. by eapply in_memory_view_laws. Qed.

Lemma str_ltb_props s t : str_ltb s t = true -> str_leb s t = true /\ str_eqb s t = false.
Proof using Type.
  unfold str_ltb, str_leb, str_eqb. intros H%negb_true_iff%bool_decide_eq_false.
  destruct (total String.le s t) as [Hle|Hle]; [|done]. rewrite bool_decide_eq_true_2 by done. split; [done|].
  apply bool_decide_eq_false_2. intros ->. by apply H.
Qed.

Lemma segment_document_internal i :
  document_internal (segment_of id index) i = InMemoryIndex.document_internal index i.
Proof using Type. reflexivity. Qed.

Lemma segment_posting_Ok field t key r p : documents !! key = Some r ->
  posting_of schema field t r = Some p -> validate_posting (segment_of id index) field t p = Ok tt.
Proof using Hmaximum Hlaws Hreach.
  intros Hr Hp. pose proof reach_wf as W. pose proof (wf_records _ W _ _ Hr) as Hok. rewrite reach_schema in Hok.
  apply posting_of_inv in Hp as (Hl & tokens & Ht & Hne & ->).
  destruct (analysed_laws _ _ _ _ Hlaws Ht) as [Hpos Hterms].
  unfold validate_posting. cbn [posting_document_id term_frequency positions].
  rewrite segment_document_internal, (document_internal_Some _ W _ _ Hr), Hl.
  rewrite (ro_lengths _ _ _ Hok), (ro_terms _ _ _ Hok), !lookup_fmap, Ht.
  cbn [fmap option_fmap option_map]. rewrite bool_decide_eq_true_2 by eauto. rewrite Z.eqb_refl.
  rewrite (sorted_unique_ok Z.leb Z.eqb Z.lt).
  2:{ by apply occurrences_sorted. } 2:{ intros x y Hxy. split; [apply Z.leb_le; lia|apply Z.eqb_neq; lia]. }
  destruct (Z.eqb_spec (zlen (occurrences t tokens)) 0) as [E|_].
  { destruct (occurrences t tokens); [done|]. rewrite zlen_cons in E. pose proof (zlen_nonneg l). lia. }
  cbn [negb andb ensure mbind expected_bind]. apply ensure_Ok.
  apply (contains_sorted_ok (fun s t => str_ltb s t = true) _ _ _ t); [apply term_list_sorted| | | |done].
  - by apply elem_of_term_list.
  - unfold str_eqb. by rewrite bool_decide_eq_true_2.
  - apply str_ltb_irrefl.
Qed.

Lemma segment_entry field t entry : lookup (segment_of id index) field t = Some entry ->
  inverted schema documents field t = Some entry.
Proof using Hmaximum Hreach.
  intros H. rewrite <- reach_schema, <- (wf_fields _ reach_wf). exact H.
Qed.

(** An entry of the dictionary is there for a posting of some document. *)
Lemma entry_posting field t entry : inverted schema documents field t = Some entry ->
  exists key r p tokens, documents !! key = Some r /\ p ∈ postings entry /\ analysed schema r !! field = Some tokens /\
    posting_of schema field t r = Some p /\ t ∈ term_list tokens.
Proof using Type.
  intros He. pose proof He as (Hne & E)%entry_of_Some.
  assert (exists p, p ∈ postings entry) as [p Hp].
  { rewrite E. cbn [postings]. destruct (merge_sort _ _) as [|p l] eqn:Es; [done|]. exists p. left. }
  pose proof Hp as (key & r & Hr & Hpr)%(elem_of_inverted _ _ _ _ _ _ He).
  pose proof Hpr as (_ & tokens & Ht & Ho & _)%posting_of_inv. exists key, r, p, tokens. split_and!; try done.
  by apply elem_of_term_list.
Qed.

Lemma segment_term_Ok field t entry : lookup (segment_of id index) field t = Some entry ->
  validate_term (segment_of id index) field (t, entry) = Ok tt.
Proof using Hmaximum Hlaws Hreach.
  intros He%segment_entry. pose proof reach_view as L. unfold validate_term.
  destruct (entry_posting _ _ _ He) as (key & r & p & tokens & Hr & Hp & Ht & Hpo & Hin).
  pose proof (analysed_inv _ _ _ _ Ht) as (_ & definition & _ & _ & Hf & _).
  assert (IndexSchema.find (schema_ (segment_of id index)) field = Some definition) as -> by (by rewrite <- reach_schema in Hf).
  rewrite bool_decide_eq_true_2 by eauto.
  assert (t <> "") as Hne.
  { apply elem_of_term_list, occurrences_nonempty in Hin as (token & Htok & <-).
    destruct (analysed_laws _ _ _ _ Hlaws Ht) as [_ Hterms]. rewrite Forall_forall in Hterms. by apply Hterms. }
  unfold str_eqb. rewrite bool_decide_eq_false_2 by done.
  assert (document_frequency entry = zlen (postings entry)) as -> by by apply entry_of_Some in He as (_ & ->).
  rewrite Z.eqb_refl, (sorted_unique_ok Z.leb Z.eqb Z.lt).
  - cbn [negb andb ensure mbind expected_bind]. apply check_each_Ok. intros q Hq.
    apply (elem_of_inverted _ _ _ _ _ _ He) in Hq as (key' & r' & Hr' & Hq). by eapply segment_posting_Ok.
  - apply (view_postings_sorted (L := L) field t). by rewrite (whole_lookup _ _ _ L).
  - intros x y Hxy. split; [apply Z.leb_le; lia|apply Z.eqb_neq; lia].
Qed.

Lemma segment_reference_Ok key r field tokens t : documents !! key = Some r ->
  analysed schema r !! field = Some tokens -> t ∈ term_list tokens ->
  validate_reference (segment_of id index) r field t = Ok tt.
Proof using Hmaximum Hlaws Hreach.
  intros Hr Ht Hin%elem_of_term_list. pose proof reach_view as L.
  assert (exists p, posting_of schema field t r = Some p) as [p Hp].
  { unfold posting_of. rewrite Ht. cbn. destruct (occurrences t tokens); by eauto. }
  destruct (inverted_is_Some _ _ _ _ _ _ _ Hr Hp) as (entry & He & Hpe).
  assert (lookup (segment_of id index) field t = Some entry) as Hl.
  { pose proof (wf_fields _ reach_wf field t) as E. rewrite reach_schema, He in E. exact E. }
  unfold validate_reference. rewrite Hl. apply ensure_Ok.
  apply (contains_sorted_ok (fun p q => posting_document_id p < posting_document_id q) _ _ _ p).
  - pose proof (view_postings_sorted (L := L) field t entry) as Hs. rewrite (whole_lookup _ _ _ L) in Hs. specialize (Hs He).
    clear -Hs. induction (postings entry) as [|q l IH]; [constructor|]. rewrite fmap_cons in Hs.
    apply StronglySorted_inv in Hs as [Hs Hq]. constructor; [by apply IH|]. by rewrite Forall_fmap in Hq.
  - done.
  - rewrite (posting_of_id _ _ _ _ _ Hp). apply Z.eqb_refl.
  - rewrite (posting_of_id _ _ _ _ _ Hp). apply Z.ltb_irrefl.
  - intros q Hq. rewrite (posting_of_id _ _ _ _ _ Hp) in Hq. by apply Z.ltb_lt.
Qed.

Lemma segment_references_Ok key r field terms : documents !! key = Some r ->
  indexed_terms r !! field = Some terms ->
  validate_references (segment_of id index) r (field, terms) = Ok tt.
Proof using Hmaximum Hlaws Hreach.
  intros Hr Hterms. pose proof (wf_records _ reach_wf _ _ Hr) as Hok. rewrite reach_schema in Hok.
  rewrite (ro_terms _ _ _ Hok), lookup_fmap_Some in Hterms. destruct Hterms as (tokens & <- & Ht).
  unfold validate_references.
  rewrite (sorted_unique_ok str_leb str_eqb (fun s t => str_ltb s t = true));
    [|apply term_list_sorted|intros; by apply str_ltb_props].
  cbn [ensure mbind expected_bind]. apply check_each_Ok. intros t Hin. by eapply segment_reference_Ok.
Qed.

Definition count_lengths (statistics : gmap string FieldAccumulator) (item : string * DocumentRecord)
    : gmap string FieldAccumulator :=
  if InMemoryIndex.is_live item.2
  then foldl InMemoryIndex.add_statistic statistics (map_items (field_lengths item.2)) else statistics.

Context (Hdeclared : declared schema documents).

Lemma segment_document_Ok statistics key r : documents !! key = Some r ->
  validate_document (segment_of id index) statistics (key, r) = Ok (count_lengths statistics (key, r)).
Proof using Hmaximum Hlaws Hreach Hdeclared.
  intros Hr. pose proof (wf_records _ reach_wf _ _ Hr) as Hok. rewrite reach_schema in Hok.
  destruct (Hdeclared _ _ Hr) as (Hf & Hm & _). unfold validate_document, count_lengths. cbn [snd].
  unfold str_eqb. rewrite (ro_id _ _ _ Hok), (bool_decide_eq_true_2 (key = key)) by done.
  rewrite (bool_decide_eq_true_2 (external_ids_ _ !! _ = _)) by (apply (wf_external _ reach_wf); by eauto).
  assert (InMemoryIndex.is_live r || (bool_decide (field_lengths r = ∅) && bool_decide (indexed_terms r = ∅)) = true) as ->.
  { destruct (InMemoryIndex.is_live r) eqn:El; [done|].
    assert (analysed schema r = ∅) as E by (unfold analysed; by rewrite El).
    rewrite (ro_lengths _ _ _ Hok), (ro_terms _ _ _ Hok), E, !fmap_empty. by rewrite !bool_decide_eq_true_2. }
  cbn [andb ensure mbind expected_bind].
  assert (Hknown : forall reason m, (forall k, is_Some (m !! k) -> is_Some (IndexSchema.find schema k)) ->
    check_each (known_field (segment_of id index) reason) (map_items m) = Ok tt).
  { intros reason m Hk. apply check_each_Ok. intros [k v] Hin%elem_of_map_items. apply ensure_Ok, bool_decide_eq_true_2.
    change (is_Some (IndexSchema.find (InMemoryIndex.schema_ index) k)). rewrite reach_schema. apply Hk. by eauto. }
  rewrite !Hknown by done. cbn [mbind expected_bind].
  destruct (InMemoryIndex.is_live r) eqn:El; [|done].
  rewrite (fold_each_Ok _ InMemoryIndex.add_statistic).
  - cbn [mbind expected_bind]. rewrite (proj2 (check_each_Ok _ _)); [done|].
    intros [field terms] Hin%elem_of_map_items. by eapply segment_references_Ok.
  - intros s [field n] Hin%elem_of_map_items. unfold expect_length. cbn [fst].
    rewrite (ro_lengths _ _ _ Hok), lookup_fmap_Some in Hin. destruct Hin as (tokens & <- & Ht).
    pose proof (analysed_inv _ _ _ _ Ht) as (_ & definition & _ & _ & Hfind & _).
    rewrite bool_decide_eq_true_2; [done|].
    change (is_Some (IndexSchema.find (InMemoryIndex.schema_ index) field)). rewrite reach_schema. by eauto.
Qed.

Lemma count_lengths_eq statistics key r : documents !! key = Some r ->
  count_lengths statistics (key, r) = count_document index statistics (key, r).
Proof using Hmaximum Hreach.
  intros Hr. apply map_eq. intros field. rewrite (count_document_lookup _ reach_wf _ _ _ _ Hr).
  pose proof (wf_records _ reach_wf _ _ Hr) as Hok. unfold count_lengths. cbn [snd].
  destruct (InMemoryIndex.is_live r) eqn:El.
  - rewrite add_statistics_lookup, (ro_lengths _ _ _ Hok), lookup_fmap. by destruct (analysed _ r !! field).
  - unfold analysed. rewrite El. by rewrite lookup_empty.
Qed.

Lemma segment_valid : validate_invariants (segment_of id index) = Ok tt.
Proof using Hmaximum Hlaws Hreach Hdeclared.
  unfold validate_invariants. rewrite (proj2 (check_each_Ok _ _)).
  2:{ intros [field dictionary] Hd%elem_of_map_items. apply check_each_Ok. intros [t entry] Ht%elem_of_map_items.
      apply segment_term_Ok. unfold lookup. by rewrite Hd. }
  cbn [mbind expected_bind].
  change (size (external_ids_ (segment_of id index))) with (size (InMemoryIndex.external_ids_ index)).
  rewrite (wf_external_size _ reach_wf).
  change (documents_ (segment_of id index)) with documents. rewrite Nat.eqb_refl. cbn [ensure mbind expected_bind].
  rewrite (fold_each_Ok _ (count_document index)).
  2:{ intros s [key r] Hr%elem_of_map_items. rewrite segment_document_Ok by done. by rewrite count_lengths_eq. }
  cbn [mbind expected_bind]. rewrite (counted_statistics _ reach_wf).
  change (statistics_ (segment_of id index)) with (InMemoryIndex.statistics_of <$> InMemoryIndex.field_statistics_ index).
  rewrite map_size_fmap, Nat.eqb_refl. cbn [ensure mbind expected_bind]. apply check_each_Ok.
  intros [field s] Hs%elem_of_map_items. unfold validate_statistic.
  change (statistics_ (segment_of id index)) with (InMemoryIndex.statistics_of <$> InMemoryIndex.field_statistics_ index).
  rewrite lookup_fmap, Hs. cbn. by rewrite !Z.eqb_refl.
Qed.
End valid.
