(* ===== verification/SegmentRoundtrip.v ===== *)
(** * Every index within the reader's limits round-trips through a segment

    What the limits ask of an index; the theorems about writing and opening
    its snapshot, about changed bytes, and about every file that opens. *)

From S2P Require Import Prelude Bytes Codec Text Cursor Doubles Analysis Schema Types Ranking Plan Executor ExecutorSpec SearchSpec Index IndexSpec IndexChecks ViewSpec Segment SegmentSpec SegmentFile.
From Stdlib Require Import Ascii SpecFloat FunctionalExtensionality.
Import SegmentReader VariableByteCodec.

Section storable.
Context (limits : SegmentReadLimits).

(** Texts of the document within the limit; all the rest follows. *)
Definition document_storable (key : DocumentId) (r : DocumentRecord) : Prop :=
  text_fits limits key /\ is_u64 (doc_version (document r)) /\
  map_Forall (fun _ v => text_fits limits v) (doc_fields (document r)) /\
  map_Forall (fun _ v => text_fits limits v) (doc_stored_metadata (document r)) /\
  map_Forall (fun _ terms => zlen terms <= maximum_terms limits /\ Forall (text_fits limits) terms)
    (indexed_terms r).

Record storable (index : InMemoryIndex) : Prop := {
  storable_schema : schema_fits limits (InMemoryIndex.schema_ index);
  storable_count : Z.of_nat (size (InMemoryIndex.documents_ index)) <= maximum_documents limits;
  storable_documents : map_Forall document_storable (InMemoryIndex.documents_ index);
  storable_terms : zlen (flatten (InMemoryIndex.fields_ index)) <= maximum_terms limits;
  storable_postings :
    zlen (flatten (InMemoryIndex.fields_ index) ≫= entry_postings) <= maximum_postings limits;
  storable_positions :
    total_positions (flatten (InMemoryIndex.fields_ index) ≫= entry_postings) <= maximum_positions limits
}.

Lemma builtin_schema_analyzers schema : schema_fits limits schema -> schema_analyzers schema.
Proof.
  intros [[_ Hf] _] field definition analyzer Hfind _ Ha.
  destruct (Hf _ _ Hfind) as (_ & _ & Hb & _). rewrite Ha in Hb.
  destruct Hb as [->|[words ->]]; apply _.
Qed.

Lemma increasing_from_sorted l : forall q, StronglySorted Z.lt l -> Forall (fun x => q < x <= u32_max) l ->
  increasing_from q l.
Proof.
  induction l as [|x l IH]; intros q Hs Hall; [done|].
  apply StronglySorted_inv in Hs as [Hs Hx]. apply Forall_cons in Hall as [Hq Hall]. split; [done|].
  apply IH; [done|]. rewrite Forall_forall in *. intros y Hy. specialize (Hx y Hy). specialize (Hall y Hy).
  cbn in *. lia.
Qed.

(** *** From the index to what the reader asks *)

Context (schema : IndexSchema) (maximum : Z) (index : InMemoryIndex).
Context (Hmaximum : is_u32 maximum) (Hreach : reachable schema maximum index).
Context (S : storable index).

Notation documents := (InMemoryIndex.documents_ index).

Lemma storable_wf : wf index /\ InMemoryIndex.schema_ index = schema /\ schema_analyzers schema /\
  declared schema documents /\ map_Forall (record_ok schema) documents.
Proof using Hmaximum Hreach S.
  destruct (reachable_wf _ _ _ Hmaximum Hreach) as [W E]. split_and!; [done|done| | |].
  - rewrite <- E. apply builtin_schema_analyzers, S.
  - by eapply reachable_declared.
  - rewrite <- E. apply (wf_records _ W).
Qed.

Lemma field_name_fits k : is_Some (IndexSchema.find schema k) -> text_fits limits k.
Proof using Hmaximum Hreach S.
  destruct storable_wf as (_ & E & _). intros [definition Hf]. destruct (storable_schema _ S) as [[_ H] _].
  rewrite E in H. by destruct (H _ _ Hf).
Qed.

(** A map keyed by fields of the schema is small and has short keys. *)
Lemma declared_map_fits {A} (P : A -> Prop) (m : gmap string A) :
  (forall k, is_Some (m !! k) -> is_Some (IndexSchema.find schema k)) -> map_Forall (fun _ v => P v) m ->
  map_fits limits (fun k v => text_fits limits k /\ P v) m.
Proof using Hmaximum Hreach S.
  intros Hk HP. destruct storable_wf as (_ & E & _). split.
  - destruct (storable_schema _ S) as [[Hsize _] _]. rewrite E in Hsize.
    assert (size m <= size (IndexSchema.fields_ schema))%nat; [|lia].
    rewrite <- !size_dom. apply subseteq_size. intros k. rewrite !elem_of_dom. apply Hk.
  - intros k v Hv. split; [apply field_name_fits, Hk; by eauto|by eapply HP].
Qed.

Lemma analysed_declared r field : is_Some (analysed schema r !! field) -> is_Some (IndexSchema.find schema field).
Proof using Type. intros [tokens (_ & definition & _ & _ & Hf & _)%analysed_inv]. by eauto. Qed.

Lemma storable_record key r : documents !! key = Some r -> record_fits limits key r.
Proof using Hmaximum Hreach S.
  intros Hr. destruct storable_wf as (W & E & _ & Hd & Hok). specialize (Hok _ _ Hr). cbn in Hok.
  destruct (Hd _ _ Hr) as (Hdf & Hdm & Hne). rewrite (ro_id _ _ _ Hok) in Hne.
  destruct (storable_documents _ S _ _ Hr) as (Hk & Hv & Hf & Hm & Ht).
  pose proof (wf_ids _ W _ _ Hr) as Hi. pose proof (wf_maximum _ W) as Hmax. cbn in Hi.
  unfold record_fits. split_and!; try done; try lia; try apply Hok.
  - by apply declared_map_fits.
  - by apply declared_map_fits.
  - apply declared_map_fits.
    + intros k. rewrite (ro_lengths _ _ _ Hok), lookup_fmap, fmap_is_Some. apply analysed_declared.
    + intros k n. rewrite (ro_lengths _ _ _ Hok), lookup_fmap_Some. intros (tokens & <- & Hana).
      pose proof (ro_small _ _ _ Hok _ _ Hana) as Hs. cbn in Hs. pose proof (zlen_nonneg tokens). unfold is_u32. lia.
  - apply (declared_map_fits (fun terms => zlen terms <= maximum_terms limits /\ Forall (text_fits limits) terms)); [|done].
    intros k. rewrite (ro_terms _ _ _ Hok), lookup_fmap, fmap_is_Some. apply analysed_declared.
Qed.

Lemma storable_statistics : map_fits limits (statistic_fits limits) (InMemoryIndex.statistics_of <$> InMemoryIndex.field_statistics_ index).
Proof using Hmaximum Hreach S.
  destruct storable_wf as (W & E & _ & _ & Hok).
  assert (Htotal : forall k s, InMemoryIndex.field_statistics_ index !! k = Some s ->
    accumulate (lengths_of schema documents k) = Some s).
  { intros k s. by rewrite (wf_statistics _ W), E. }
  assert (Hfits : map_fits limits (fun k (s : FieldStatistics) => text_fits limits k /\
      (1 <= fs_document_count s <= u64_max /\ is_u64 (fs_total_length s) /\
       fs_average_length s = d_div (d_of_Z (fs_total_length s)) (d_of_Z (fs_document_count s))))
      (InMemoryIndex.statistics_of <$> InMemoryIndex.field_statistics_ index)); [|exact Hfits].
  apply declared_map_fits.
  - intros k. rewrite lookup_fmap, fmap_is_Some. intros [s Hs%Htotal].
    destruct (lengths_of schema documents k) as [|n l] eqn:El; [done|].
    assert (n ∈ lengths_of schema documents k) as Hin by (rewrite El; left).
    unfold lengths_of in Hin. apply list_elem_of_omap in Hin as (r & _ & Hn). apply (analysed_declared r).
    destruct (analysed schema r !! k); [by eauto|done].
  - intros k s'. rewrite lookup_fmap_Some. intros (s & <- & Hs%Htotal).
    pose proof (length_lengths_of schema documents k) as Hlen. pose proof (wf_maximum _ W) as Hmax.
    assert (Forall is_u32 (lengths_of schema documents k)) as Hu.
    { apply lengths_of_u32. eapply map_Forall_impl; [exact Hok|]. intros ? ? H. apply (ro_small _ _ _ H). }
    pose proof (sum_list_Z_bounds _ Hu) as Hb. destruct (lengths_of schema documents k) as [|n l]; [done|].
    injection Hs as <-. unfold InMemoryIndex.statistics_of. cbn [acc_document_count acc_total_length fs_document_count
      fs_total_length fs_average_length]. rewrite zlen_cons in *. pose proof (zlen_nonneg l).
    unfold u32_max in *. split_and!; [lia|unfold u64_max; lia| |done].
    change (n + sum_list_Z l) with (sum_list_Z (n :: l)). unfold is_u64, u64_max. lia.
Qed.

Lemma posting_fits_of r field t p key : documents !! key = Some r -> posting_of schema field t r = Some p ->
  posting_fits p /\ 1 <= posting_document_id p <= u32_max.
Proof using Hmaximum Hreach S.
  intros Hr Hp. destruct storable_wf as (W & E & Hlaws & _ & Hok). specialize (Hok _ _ Hr). cbn in Hok.
  pose proof (posting_of_frequency _ _ _ _ _ (ro_small _ _ _ Hok) Hp) as [Ep Hq].
  pose proof Hp as (_ & tokens & Ht & Hne & Ep')%posting_of_inv.
  destruct (analysed_laws _ _ _ _ Hlaws Ht) as [Hpos Hterms].
  pose proof (wf_ids _ W _ _ Hr) as Hi. pose proof (wf_maximum _ W) as Hmax. cbn in Hi. rewrite Ep' in *.
  unfold posting_fits. cbn [term_frequency positions posting_document_id] in *. split; [|lia].
  split_and!; [done| |done|].
  - destruct (occurrences t tokens) as [|x l]; [done|]. rewrite zlen_cons. pose proof (zlen_nonneg l). lia.
  - apply increasing_from_sorted; [by apply occurrences_sorted|].
    apply Forall_forall. intros x Hx. unfold occurrences in Hx. apply list_elem_of_fmap in Hx as (token & -> & Hin).
    apply list_elem_of_filter in Hin as [_ Hin]. rewrite Forall_forall in Hterms. destruct (Hterms _ Hin) as [Hu _].
    unfold is_u32 in Hu. lia.
Qed.

Lemma storable_entry e : e ∈ flatten (InMemoryIndex.fields_ index) -> entry_fits limits e.
Proof using Hmaximum Hreach S.
  destruct storable_wf as (W & E & Hlaws & _ & Hok). destruct e as [field [t entry]].
  intros (dictionary & Hd & Ht)%elem_of_flatten.
  assert (He : inverted schema documents field t = Some entry).
  { rewrite <- E, <- (wf_fields _ W). unfold InMemoryIndex.lookup. by rewrite Hd. }
  destruct (entry_posting schema index _ _ _ He) as (key & r & p & tokens & Hr & Hp & Hana & Hpo & Hin).
  pose proof (elem_of_inverted _ _ _ _ _ p He) as Hmember.
  pose proof (in_memory_view_laws _ _ _ Hmaximum Hlaws Hreach) as L.
  pose proof (view_postings_sorted (L := L) field t entry) as Hsorted. rewrite (whole_lookup _ _ _ L) in Hsorted. specialize (Hsorted He).
  unfold entry_fits, entry_postings. cbn [fst snd].
  pose proof (length_sorted schema field t documents) as Hlen. pose proof (wf_maximum _ W) as Hmax.
  pose proof He as (Hne & Ee)%entry_of_Some.
  assert (document_frequency entry = zlen (postings entry)) as Hdf by by rewrite Ee.
  split_and!.
  - apply field_name_fits, (analysed_declared r). by eauto.
  - destruct (storable_documents _ S _ _ Hr) as (_ & _ & _ & _ & Hterms).
    assert (indexed_terms r !! field = Some (term_list tokens)) as Hi.
    { by rewrite (ro_terms _ _ _ (Hok _ _ Hr)), lookup_fmap, Hana. }
    destruct (Hterms _ _ Hi) as [_ Hall]. rewrite Forall_forall in Hall. by apply Hall.
  - apply elem_of_term_list, occurrences_nonempty in Hin as (token & Htok & <-).
    destruct (analysed_laws _ _ _ _ Hlaws Hana) as [_ Hterms]. rewrite Forall_forall in Hterms. by apply Hterms.
  - done.
  - rewrite Hdf. destruct (postings entry) as [|q l]; [by apply not_elem_of_nil in Hp|].
    rewrite zlen_cons. pose proof (zlen_nonneg l). lia.
  - rewrite Hdf. apply (f_equal postings) in Ee. cbn in Ee. rewrite Ee. lia.
  - apply increasing_from_sorted; [done|]. rewrite Forall_fmap, Forall_forall. intros q Hq.
    apply (elem_of_inverted _ _ _ _ _ _ He) in Hq as (key' & r' & Hr' & Hq).
    cbn. destruct (posting_fits_of _ _ _ _ _ Hr' Hq). lia.
  - apply Forall_forall. intros q Hq. apply (elem_of_inverted _ _ _ _ _ _ He) in Hq as (key' & r' & Hr' & Hq).
    by destruct (posting_fits_of _ _ _ _ _ Hr' Hq).
Qed.

Lemma storable_fits : snapshot_fits limits (InMemoryIndex.snapshot index).
Proof using Hmaximum Hreach S.
  destruct storable_wf as (W & E & _). split; cbn.
  - apply S.
  - split_and!; [apply S| |apply (wf_external _ W)]. intros key r Hr. by apply storable_record.
  - apply storable_statistics.
  - split; [apply (wf_dictionaries _ W)| |apply S|apply S|apply S].
    apply Forall_forall. apply storable_entry.
Qed.
End storable.

(** ** The reader's answers are those of the index *)

(** The two views are the same functions. *)
Lemma segment_view id index : view (segment_of id index) = InMemoryIndex.view index.
Proof.
  assert (Hid : internal_id_of (segment_of id index) = InMemoryIndex.internal_id_of index).
  { apply functional_extensionality. intros key. unfold internal_id_of, find_document, InMemoryIndex.internal_id_of. cbn.
    by destruct (InMemoryIndex.documents_ index !! key). }
  assert (Hstat : field_statistics (segment_of id index) = InMemoryIndex.field_statistics index).
  { apply functional_extensionality. intros field. unfold field_statistics, InMemoryIndex.field_statistics. cbn.
    rewrite lookup_fmap. by destruct (InMemoryIndex.field_statistics_ index !! field). }
  unfold view. by rewrite Hid, Hstat.
Qed.

Lemma open_index limits schema maximum index options :
  limits_ok limits -> is_u32 maximum -> reachable schema maximum index -> storable limits index ->
  1 <= write_segment_id options <= u64_max ->
  zlen (encode_segment (InMemoryIndex.snapshot index) options) <= maximum_file_bytes limits ->
  open (encode_segment (InMemoryIndex.snapshot index) options) limits =
    Ok (segment_of (write_segment_id options) index) /\
  IndexViewLaws (view (segment_of (write_segment_id options) index)) schema (InMemoryIndex.documents_ index).
Proof.
  intros Hl Hm Hr Hs Hid Hmax. destruct (storable_wf _ _ _ _ Hm Hr Hs) as (_ & _ & Ha & Hd & _). split.
  - apply open_snapshot; [done|by eapply storable_fits|done|done|by eapply segment_valid].
  - rewrite segment_view. by eapply in_memory_view_laws.
Qed.

(** ** What every opened segment satisfies *)

Record posting_consistent (reader : SegmentReader) (field t : string) (p : Posting) : Prop := {
  pc_positions : term_frequency p = zlen (positions p) /\ 1 <= term_frequency p /\
    StronglySorted Z.lt (positions p);
  pc_document : exists key r terms,
    external_id reader (posting_document_id p) = Some key /\ find_document reader key = Some r /\
    internal_id r = posting_document_id p /\ InMemoryIndex.is_live r = true /\
    is_Some (field_lengths r !! field) /\ indexed_terms r !! field = Some terms /\ t ∈ terms
}.

Record reader_consistent (reader : SegmentReader) : Prop := {
  rc_entries field t entry : lookup reader field t = Some entry ->
    is_Some (IndexSchema.find (schema_ reader) field) /\ t <> "" /\
    document_frequency entry = zlen (postings entry) /\
    StronglySorted Z.lt (posting_document_id <$> postings entry) /\
    Forall (posting_consistent reader field t) (postings entry);
  rc_external i key : external_id reader i = Some key <->
    exists r, find_document reader key = Some r /\ internal_id r = i;
  rc_documents key r : find_document reader key = Some r ->
    doc_id (document r) = key /\
    (InMemoryIndex.is_live r = false -> field_lengths r = ∅ /\ indexed_terms r = ∅);
  rc_references key r field terms t : find_document reader key = Some r -> InMemoryIndex.is_live r = true ->
    indexed_terms r !! field = Some terms -> t ∈ terms ->
    exists entry p, lookup reader field t = Some entry /\ p ∈ postings entry /\
      posting_document_id p = internal_id r
}.

Lemma sorted_unique_inv l : sorted_unique Z.leb Z.eqb l = true -> StronglySorted Z.lt l.
Proof.
  unfold sorted_unique. intros [Hle Hne]%andb_prop. apply Sorted_StronglySorted; [intros ???; lia|].
  induction l as [|x l IH]; [constructor|]. destruct l as [|y l]; [by repeat constructor|].
  cbn [adjacent_all] in *. apply andb_prop in Hle as [Hxy Hle], Hne as [Hxy' Hne].
  constructor; [by apply IH|]. constructor. apply Z.leb_le in Hxy. apply negb_true_iff, Z.eqb_neq in Hxy'. lia.
Qed.

Lemma contains_sorted_inv {A} (lt eq : A -> bool) l : contains_sorted lt eq l = true ->
  exists x, x ∈ l /\ eq x = true.
Proof.
  unfold contains_sorted. induction l as [|y l IH]; [done|]. cbn [lower_bound].
  destruct (lt y).
  - intros (x & Hx & He)%IH. exists x. split; [by right|done].
  - intros He. exists y. split; [left|done].
Qed.

Lemma fold_each_inv {E A S} (f : S -> A -> expected E S) (P : A -> Prop) l : forall s s',
  (forall s x s', f s x = Ok s' -> P x) -> fold_each f s l = Ok s' -> Forall P l.
Proof.
  induction l as [|x l IH]; intros s s' HP H; [constructor|]. cbn in H.
  apply bind_Ok in H as (s1 & Hx & H). constructor; [by eapply HP|by eapply IH].
Qed.

Section accepted.
Context (reader : SegmentReader) (Hvalid : validate_invariants reader = Ok tt).

(** The five checks of [validate_invariants], taken apart. *)
Lemma accepted_checks :
  (forall field t entry, lookup reader field t = Some entry -> validate_term reader field (t, entry) = Ok tt) /\
  size (external_ids_ reader) = size (documents_ reader) /\
  (forall key r, documents_ reader !! key = Some r ->
     exists s s', validate_document reader s (key, r) = Ok s').
Proof using Hvalid.
  unfold validate_invariants in Hvalid. apply bind_Ok in Hvalid as ([] & Hterms & H).
  apply bind_Ok in H as ([] & Hsize & H). apply bind_Ok in H as (s & Hdocs & _). split_and!.
  - intros field t entry He. unfold lookup in He.
    destruct (fields_ reader !! field) as [dictionary|] eqn:Ef; [|done].
    rewrite check_each_Ok in Hterms. specialize (Hterms (field, dictionary)).
    rewrite elem_of_map_items in Hterms. specialize (Hterms Ef). cbn in Hterms.
    rewrite check_each_Ok in Hterms. apply Hterms. by apply elem_of_map_items.
  - by apply ensure_Ok, Nat.eqb_eq in Hsize.
  - intros key r Hr. apply (fold_each_inv _ (fun item => exists s s', validate_document reader s item = Ok s')) in Hdocs.
    + rewrite Forall_forall in Hdocs. apply Hdocs. by apply elem_of_map_items.
    + eauto.
Qed.

Lemma accepted_document key r : documents_ reader !! key = Some r ->
  doc_id (document r) = key /\ external_ids_ reader !! internal_id r = Some key /\
  (InMemoryIndex.is_live r = false -> field_lengths r = ∅ /\ indexed_terms r = ∅) /\
  (InMemoryIndex.is_live r = true -> forall field terms, indexed_terms r !! field = Some terms ->
     validate_references reader r (field, terms) = Ok tt).
Proof using Hvalid.
  destruct accepted_checks as (_ & _ & Hd). intros Hr. destruct (Hd _ _ Hr) as (s & s' & H).
  unfold validate_document in H. apply bind_Ok in H as ([] & Hid & H).
  apply ensure_Ok, andb_prop in Hid as [[Hid%bool_decide_eq_true Hext%bool_decide_eq_true]%andb_prop Hlive].
  apply bind_Ok in H as ([] & _ & H). apply bind_Ok in H as ([] & _ & H).
  split_and!; [by symmetry|done| |].
  - intros Hl. rewrite Hl in Hlive. cbn in Hlive.
    by apply andb_prop in Hlive as [?%bool_decide_eq_true ?%bool_decide_eq_true].
  - intros Hl field terms Ht. rewrite Hl in H. apply bind_Ok in H as (s'' & _ & H).
    apply bind_Ok in H as ([] & H & _). rewrite check_each_Ok in H. apply (H (field, terms)).
    by apply elem_of_map_items.
Qed.

(** As many ids as documents, and each document under its own: the two maps
    are inverse to each other. *)
Lemma accepted_external i key : external_ids_ reader !! i = Some key <->
  exists r, documents_ reader !! key = Some r /\ internal_id r = i.
Proof using Hvalid.
  destruct accepted_checks as (_ & Hsize & _).
  set (pairs := (fun item : string * DocumentRecord => (internal_id item.2, item.1)) <$> map_to_list (documents_ reader)).
  assert (Hin : forall x, x ∈ pairs -> x ∈ map_to_list (external_ids_ reader)).
  { intros x ([k r] & -> & Hr)%list_elem_of_fmap. apply elem_of_map_to_list in Hr. apply elem_of_map_to_list. cbn.
    by apply accepted_document in Hr as (_ & ? & _). }
  assert (Hnd : NoDup pairs).
  { apply (NoDup_fmap_1 snd). unfold pairs. rewrite <- list_fmap_compose.
    change (NoDup (fst <$> map_to_list (documents_ reader))). apply NoDup_fst_map_to_list. }
  assert (Hperm : pairs ≡ₚ map_to_list (external_ids_ reader)).
  { apply submseteq_length_Permutation.
    - by apply NoDup_submseteq.
    - unfold pairs. rewrite length_fmap, !length_map_to_list. lia. }
  rewrite <- elem_of_map_to_list, <- Hperm. unfold pairs. rewrite list_elem_of_fmap. split.
  - intros ([k r] & [= -> ->] & Hr%elem_of_map_to_list). by eauto.
  - intros (r & Hr & <-). exists (key, r). split; [done|]. by apply elem_of_map_to_list.
Qed.

Lemma accepted_posting field t p : validate_posting reader field t p = Ok tt -> posting_consistent reader field t p.
Proof using Hvalid.
  unfold validate_posting, document_internal, external_id.
  destruct (external_ids_ reader !! posting_document_id p) as [key|] eqn:Ee; [|done].
  destruct (find_document reader key) as [r|] eqn:Er; [|done]. intros H. apply bind_Ok in H as ([] & Hc & H).
  apply ensure_Ok in Hc. rewrite !andb_true_iff in Hc.
  destruct Hc as ((((Hl & Hnz%negb_true_iff%Z.eqb_neq) & Hf%Z.eqb_eq) & Hs%sorted_unique_inv) & Hlen%bool_decide_eq_true).
  destruct (indexed_terms r !! field) as [terms|] eqn:Et; [|done]. apply ensure_Ok, contains_sorted_inv in H as (t' & Hin & Heq).
  apply bool_decide_eq_true in Heq as <-. split.
  - split_and!; [done| |done]. rewrite Hf in *. pose proof (zlen_nonneg (positions p)). lia.
  - exists key, r, terms. apply accepted_external in Ee as (r' & Hr' & Hi). unfold find_document in Er.
    split_and!; try done; [|congruence]. unfold external_id. apply accepted_external. eauto.
Qed.

Lemma validate_consistent : reader_consistent reader.
Proof using Hvalid.
  destruct accepted_checks as (Hterms & _ & _). split.
  - intros field t entry He. specialize (Hterms _ _ _ He). unfold validate_term in Hterms.
    apply bind_Ok in Hterms as ([] & Hc & Hps). apply ensure_Ok in Hc. rewrite !andb_true_iff in Hc.
    destruct Hc as (((Hfind%bool_decide_eq_true & Hne%negb_true_iff%bool_decide_eq_false) & Hdf%Z.eqb_eq) & Hs%sorted_unique_inv).
    split_and!; try done. apply Forall_forall. intros p Hp. apply accepted_posting.
    rewrite check_each_Ok in Hps. by apply Hps.
  - apply accepted_external.
  - intros key r Hr. by apply accepted_document in Hr as (? & _ & ? & _).
  - intros key r field terms t Hr Hl Hi Ht. apply accepted_document in Hr as (_ & _ & _ & H).
    specialize (H Hl _ _ Hi). unfold validate_references in H. apply bind_Ok in H as ([] & _ & H).
    rewrite check_each_Ok in H. specialize (H _ Ht). unfold validate_reference in H.
    destruct (lookup reader field t) as [entry|]; [|done].
    apply ensure_Ok, contains_sorted_inv in H as (p & Hp & E%Z.eqb_eq). by exists entry, p.
Qed.
End accepted.

Lemma decode_accepted limits header sections reader : decode_body limits header sections = Ok reader ->
  validate_invariants reader = Ok tt.
Proof.
  unfold decode_body. destruct sections as [|s1 [|s2 [|s3 [|s4 [|s5 [|s6 [|? ?]]]]]]]; try done. intros H.
  apply bind_Ok in H as (schema & _ & H). apply bind_Ok in H as ([ids documents] & _ & H).
  apply bind_Ok in H as (statistics & _ & H). apply bind_Ok in H as (positions & _ & H).
  apply bind_Ok in H as (raws & _ & H). apply bind_Ok in H as (fields & _ & H).
  apply bind_Ok in H as ([] & Hv%map_err_Ok & H). by injection H as <-.
Qed.

(** What [open] has checked when it returns a reader. *)
Lemma open_inv bytes limits reader : open bytes limits = Ok reader ->
  zlen bytes <= maximum_file_bytes limits /\ kBodyStart <= zlen bytes /\ validate_invariants reader = Ok tt.
Proof.
  unfold open. intros H. apply bind_Ok in H as ([] & Hmax%ensure_Ok & H).
  apply bind_Ok in H as ([] & Hmin%ensure_Ok & H). apply bind_Ok in H as ([] & _ & H).
  apply bind_Ok in H as ([header rest] & _ & H). apply bind_Ok in H as ([] & _ & H).
  apply bind_Ok in H as ([] & _ & H). apply bind_Ok in H as (sections & _ & H).
  split_and!; [by apply Z.leb_le| |by eapply decode_accepted].
  unfold kBodyStart. apply negb_true_iff, Z.ltb_ge in Hmin. exact Hmin.
Qed.

(** ** Properties *)

(** C14.  An index that puts and erases have built, within the reader's limits,
    survives the disk in both posting formats: [open] on the written bytes
    returns the reader of exactly that index, and the reader answers every
    query the way the contract of an index demands. *)
Theorem segment_roundtrip limits schema maximum index options :
  limits_ok limits -> is_u32 maximum -> reachable schema maximum index -> storable limits index ->
  1 <= write_segment_id options <= u64_max ->
  let bytes := encode_segment (InMemoryIndex.snapshot index) options in
  zlen bytes <= maximum_file_bytes limits ->
  exists reader, open bytes limits = Ok reader /\
    reader = segment_of (write_segment_id options) index /\
    IndexViewLaws (view reader) schema (InMemoryIndex.documents_ index).
Proof.
  intros Hl Hm Hr Hs Hid bytes Hmax.
  destruct (open_index limits schema maximum index options Hl Hm Hr Hs Hid Hmax) as [Ho L]. by eexists.
Qed.

(**  Searching and explaining over the reopened segment gives the same
    answers, errors included and to the last bit of the scores, as over the
    index in memory. *)
Theorem reopened_search log1p limits schema maximum index options reader parameters :
  limits_ok limits -> is_u32 maximum -> reachable schema maximum index -> storable limits index ->
  1 <= write_segment_id options <= u64_max ->
  zlen (encode_segment (InMemoryIndex.snapshot index) options) <= maximum_file_bytes limits ->
  open (encode_segment (InMemoryIndex.snapshot index) options) limits = Ok reader ->
  let on_disk := make_executor (view reader) parameters in
  let in_memory := make_executor (InMemoryIndex.view index) parameters in
  (forall query settings, search log1p on_disk query settings = search log1p in_memory query settings) /\
  (forall p id, explain log1p on_disk p id = explain log1p in_memory p id).
Proof.
  intros Hl Hm Hr Hs Hid Hmax Hopen. destruct (open_index limits schema maximum index options Hl Hm Hr Hs Hid Hmax) as [Ho _].
  rewrite Hopen in Ho. injection Ho as ->. by rewrite segment_view.
Qed.

(** C31.  A segment file that opens no longer opens when any byte after its
    header is replaced by another: the checksum always notices one changed
    byte, wherever it is and whatever the file holds. *)
Theorem changed_byte_rejected limits pre b b' post reader :
  (64 <= length pre)%nat -> b <> b' -> open (pre ++ b :: post) limits = Ok reader ->
  open (pre ++ b' :: post) limits = Err (corrupt "segment checksum mismatch").
Proof.
  intros Hpre Hb H. unfold open in *.
  assert (Hlen : zlen (pre ++ b' :: post) = zlen (pre ++ b :: post)) by (unfold zlen; by rewrite !length_app).
  assert (Htake : forall n k, (n + k <= 64)%nat -> take n (drop k (pre ++ b' :: post)) = take n (drop k (pre ++ b :: post))).
  { intros n k Hn. rewrite !drop_app_le by lia. rewrite !take_app_le; [done|rewrite length_drop; lia|rewrite length_drop; lia]. }
  assert (Hdrop : forall c, drop 64 (pre ++ c :: post) = drop 64 pre ++ c :: post) by (intros c; by rewrite drop_app_le by lia).
  rewrite Hlen. change (take 8 (pre ++ b' :: post)) with (take 8 (drop 0 (pre ++ b' :: post))).
  change (take 8 (pre ++ b :: post)) with (take 8 (drop 0 (pre ++ b :: post))) in H.
  change (Z.to_nat (kHeaderBytes - 8)) with 56%nat in *. change (Z.to_nat kHeaderBytes) with 64%nat in *.
  rewrite !Htake by lia. rewrite !Hdrop in *.
  apply bind_Ok in H as ([] & -> & H). cbn [mbind expected_bind]. apply bind_Ok in H as ([] & -> & H). cbn [mbind expected_bind].
  apply bind_Ok in H as ([] & -> & H). cbn [mbind expected_bind]. apply bind_Ok in H as ([header rest] & -> & H). cbn [mbind expected_bind].
  apply bind_Ok in H as ([] & -> & H). cbn [mbind expected_bind]. apply bind_Ok in H as ([] & Hcrc%ensure_Ok%Z.eqb_eq & _).
  destruct (Z.eqb_spec (crc32c (drop 64 pre ++ b' :: post)) (header_checksum header)) as [E|]; [|done].
  rewrite <- Hcrc in E. apply crc32c_one_byte in E. congruence.
Qed.

(** C30.  Whatever bytes a file holds, a reader that [open] returns is
    consistent: entries are of declared fields, with the right document
    frequency and strictly increasing ids; every posting is that of a live
    document which lists the term, and every listed term has its posting; the
    two document maps are inverse to each other. *)
Theorem opened_segment_consistent bytes limits reader :
  open bytes limits = Ok reader -> reader_consistent reader.
Proof. intros H. apply validate_consistent. by apply open_inv in H as (_ & _ & ?). Qed.

(** ** Witnesses *)

Lemma default_limits_ok : limits_ok default_read_limits.
Proof. repeat split; vm_compute; discriminate. Qed.

Lemma default_schema_fits : schema_fits default_read_limits IndexSchema.default_schema.
Proof.
  split; [split; [vm_compute; discriminate|]|apply default_schema_is_ok].
  intros name field Hf. apply (create_find _ _ _ _ default_schema_ok) in Hf as [Hin <-].
  unfold IndexSchema.default_definitions in Hin. rewrite !elem_of_cons in Hin.
  destruct Hin as [->|[->|[->|[->|Hin]]]]; [| | | |by apply not_elem_of_nil in Hin];
    (split_and!; [by vm_compute|by vm_compute| |by vm_compute]); cbn; try done.
  - right. by exists ∅.
  - right. by exists ∅.
  - by left.
Qed.

Definition storable_data (limits : SegmentReadLimits) (index : InMemoryIndex) : Prop :=
  Z.of_nat (size (InMemoryIndex.documents_ index)) <= maximum_documents limits /\
  map_Forall (document_storable limits) (InMemoryIndex.documents_ index) /\
  zlen (flatten (InMemoryIndex.fields_ index)) <= maximum_terms limits /\
  zlen (flatten (InMemoryIndex.fields_ index) ≫= entry_postings) <= maximum_postings limits /\
  total_positions (flatten (InMemoryIndex.fields_ index) ≫= entry_postings) <= maximum_positions limits.

#[export] Instance storable_data_dec limits index : Decision (storable_data limits index).
Proof. unfold storable_data, document_storable, is_u64. apply _. Defined.

Definition sample_options : SegmentWriteOptions := {| write_segment_id := 7; compressed_postings := true |}.

(** The sample index satisfies every hypothesis of the theorems. *)
Lemma sample_storable (test : InMemoryIndex -> bool) :
  ok_and (InMemoryIndex.put (InMemoryIndex.make IndexSchema.default_schema 10) sample_document)
    (fun index => bool_decide (storable_data default_read_limits index) &&
       (zlen (encode_segment (InMemoryIndex.snapshot index) sample_options) <=? 2 ^ 30) && test index) = true ->
  exists index, InMemoryIndex.put (InMemoryIndex.make IndexSchema.default_schema 10) sample_document = Ok index /\
    storable default_read_limits index /\
    zlen (encode_segment (InMemoryIndex.snapshot index) sample_options) <= maximum_file_bytes default_read_limits /\
    test index = true /\ reachable IndexSchema.default_schema 10 index.
Proof.
  intros (index & E & H & Hreach)%sample_put. exists index.
  apply andb_prop in H as [[Hs%bool_decide_eq_true_1 Hz%Z.leb_le]%andb_prop Ht].
  destruct Hs as (H1 & H2 & H3 & H4 & H5). split_and!; try assumption. split; try assumption.
  rewrite (put_schema _ _ _ E). exact default_schema_fits.
Qed.

Lemma segment_roundtrip_witness :
  exists index reader,
    InMemoryIndex.put (InMemoryIndex.make IndexSchema.default_schema 10) sample_document = Ok index /\
    open (encode_segment (InMemoryIndex.snapshot index) sample_options) default_read_limits = Ok reader /\
    lookup reader "title" "one" = InMemoryIndex.lookup index "title" "one".
Proof.
  assert (H : ok_and (InMemoryIndex.put (InMemoryIndex.make IndexSchema.default_schema 10) sample_document)
    (fun index => bool_decide (storable_data default_read_limits index) &&
       (zlen (encode_segment (InMemoryIndex.snapshot index) sample_options) <=? 2 ^ 30) && true) = true)
    by (vm_compute; reflexivity).
  apply sample_storable in H as (index & E & Hs & Hz & _ & Hreach). exists index.
  destruct (segment_roundtrip default_read_limits IndexSchema.default_schema 10 index sample_options
    default_limits_ok ltac:(split; vm_compute; discriminate) Hreach Hs ltac:(split; vm_compute; discriminate) Hz)
    as (reader & Ho & -> & _).
  eexists. split; [exact E|]. split; [exact Ho|]. reflexivity.
Defined.

Lemma reopened_search_witness :
  exists index reader,
    InMemoryIndex.put (InMemoryIndex.make IndexSchema.default_schema 10) sample_document = Ok index /\
    open (encode_segment (InMemoryIndex.snapshot index) sample_options) default_read_limits = Ok reader /\
    explain (fun x => x) (make_executor (view reader) default_parameters) sample_plan "a" =
    explain (fun x => x) (make_executor (InMemoryIndex.view index) default_parameters) sample_plan "a".
Proof.
  assert (H : ok_and (InMemoryIndex.put (InMemoryIndex.make IndexSchema.default_schema 10) sample_document)
    (fun index => bool_decide (storable_data default_read_limits index) &&
       (zlen (encode_segment (InMemoryIndex.snapshot index) sample_options) <=? 2 ^ 30) && true) = true)
    by (vm_compute; reflexivity).
  apply sample_storable in H as (index & E & Hs & Hz & _ & Hreach). exists index.
  destruct (open_index default_read_limits IndexSchema.default_schema 10 index sample_options
    default_limits_ok ltac:(split; vm_compute; discriminate) Hreach Hs ltac:(split; vm_compute; discriminate) Hz)
    as [Ho _].
  eexists. split; [exact E|]. split; [exact Ho|].
  apply (reopened_search (fun x => x) default_read_limits IndexSchema.default_schema 10 index sample_options _ default_parameters
    default_limits_ok ltac:(split; vm_compute; discriminate) Hreach Hs ltac:(split; vm_compute; discriminate) Hz Ho).
Defined.

(** The segment of an empty index of the default schema. *)
Definition empty_segment : list byte :=
  encode_segment (InMemoryIndex.snapshot (InMemoryIndex.make IndexSchema.default_schema 10)) sample_options.

Lemma changed_byte_rejected_witness :
  exists reader, open empty_segment default_read_limits = Ok reader /\
    open (take 300 empty_segment ++ byte_of 255 :: drop 301 empty_segment) default_read_limits =
      Err (corrupt "segment checksum mismatch").
Proof.
  assert (H : ok_and (open empty_segment default_read_limits) (fun _ => true) = true) by (vm_compute; reflexivity).
  apply ok_and_true in H as (reader & E & _). exists reader. split; [exact E|].
  apply (changed_byte_rejected default_read_limits (take 300 empty_segment)
    (nth 300 empty_segment (byte_of 0)) (byte_of 255) (drop 301 empty_segment) reader).
  - vm_compute. lia.
  - vm_compute. discriminate.
  - assert (Hsplit : take 300 empty_segment ++ nth 300 empty_segment (byte_of 0) :: drop 301 empty_segment = empty_segment)
      by (vm_compute; reflexivity).
    rewrite Hsplit. exact E.
Defined.

Lemma opened_segment_consistent_witness :
  exists reader, open empty_segment default_read_limits = Ok reader /\ reader_consistent reader.
Proof.
  assert (H : ok_and (open empty_segment default_read_limits) (fun _ => true) = true) by (vm_compute; reflexivity).
  apply ok_and_true in H as (reader & E & _). exists reader. split; [exact E|].
  exact (opened_segment_consistent empty_segment default_read_limits reader E).
Defined.
