(* ===== verification/Store.v ===== *)
(** * The index directory: files, durability and crashes

    The operations of the standard library and of POSIX that the storage code
    uses on its directory (ofstream, rename, fsync, remove, resize_file), as
    functions on an explicit disk; a small monad of programs that call them,
    may fail at each call and leave a record of the disks they passed through;
    and what a crash can leave of a disk.

    A file is an inode with the bytes a reader sees and the bytes known to be
    on the medium.  The directory maps names to inodes; [older] are the
    directories since it was last synced.  After a crash the directory is one
    of these, and each file holds its durable bytes or a prefix of its current
    ones, never less than the durable bytes that have not been cut off.  Sub-directories are not modelled: every name the code uses is
    checked to have no separator. *)

From S2P Require Import Prelude Bytes Text.

(** [kept]: how many leading bytes of [current] were on the medium and have not
    been touched since. *)
Record Inode := { durable : list byte; current : list byte; kept : nat }.

Definition synced (bs : list byte) : Inode := {| durable := bs; current := bs; kept := length bs |}.

Record Disk := {
  inodes : gmap Z Inode;
  dir : gmap string Z;
  older : list (gmap string Z);
  fresh : Z
}.

Definition empty_disk : Disk := {| inodes := ∅; dir := ∅; older := []; fresh := 0 |}.

(** What [file_size] and [ifstream] see. *)
Definition content (d : Disk) (name : string) : option (list byte) :=
  i ← dir d !! name; current <$> inodes d !! i.

(** ** The operations *)

Definition set_inode (d : Disk) (i : Z) (f : Inode -> Inode) : Disk :=
  {| inodes := alter f i (inodes d); dir := dir d; older := older d; fresh := fresh d |}.

Definition on_file (d : Disk) (name : string) (f : Inode -> Inode) : Disk :=
  match dir d !! name with Some i => set_inode d i f | None => d end.

Definition set_dir (d : Disk) (m : gmap string Z) : Disk :=
  {| inodes := inodes d; dir := m; older := dir d :: older d; fresh := fresh d |}.

(** A new empty file, known to the directory but not yet to the medium. *)
Definition d_create (d : Disk) (name : string) : Disk :=
  {| inodes := <[fresh d := synced []]> (inodes d);
     dir := <[name := fresh d]> (dir d); older := dir d :: older d; fresh := fresh d + 1 |}.

(** [ofstream(name, trunc)] *)
Definition d_truncate (name : string) (d : Disk) : Disk :=
  match dir d !! name with
  | Some i => set_inode d i (fun ino => {| durable := durable ino; current := []; kept := 0 |})
  | None => d_create d name
  end.

(** [ofstream(name, app)]: created when missing. *)
Definition d_open_append (name : string) (d : Disk) : Disk :=
  match dir d !! name with Some _ => d | None => d_create d name end.

Definition d_write (name : string) (bs : list byte) (d : Disk) : Disk :=
  on_file d name (fun ino => {| durable := durable ino; current := current ino ++ bs; kept := kept ino |}).

(** [fsync] of the file *)
Definition d_sync (name : string) (d : Disk) : Disk :=
  on_file d name (fun ino => synced (current ino)).

Definition d_resize (name : string) (size : Z) (d : Disk) : Disk :=
  on_file d name (fun ino => {| durable := durable ino; current := take (Z.to_nat size) (current ino);
                                kept := Nat.min (kept ino) (Z.to_nat size) |}).

Definition d_rename (from to : string) (d : Disk) : Disk :=
  match dir d !! from with
  | Some i => set_dir d (<[to := i]> (delete from (dir d)))
  | None => d
  end.

Definition d_remove (name : string) (d : Disk) : Disk := set_dir d (delete name (dir d)).

(** [fsync] of the directory *)
Definition d_sync_dir (d : Disk) : Disk :=
  {| inodes := inodes d; dir := dir d; older := []; fresh := fresh d |}.

(** ** Crashes *)

Definition survives (ino : Inode) (bs : list byte) : Prop :=
  bs = durable ino \/
  (bs `prefix_of` current ino /\ (kept ino <= length bs)%nat).

Definition survives_opt (before after : option Inode) : Prop :=
  match before, after with
  | Some ino, Some ino' => ino' = synced (current ino') /\ survives ino (current ino')
  | None, None => True
  | _, _ => False
  end.

Record crash (d d' : Disk) : Prop := {
  crash_dir : dir d' = dir d \/ dir d' ∈ older d;
  crash_older : older d' = [];
  crash_inodes i : survives_opt (inodes d !! i) (inodes d' !! i);
  crash_fresh : fresh d' = fresh d
}.

(** ** Programs over the disk

    Each call takes the next entry of the script: [None] and it succeeds,
    [Some n] and it fails (a write after [n] bytes).  An empty script is a
    system without failures.  [passed] lists the disks the program has been
    through, the latest first. *)

Record World := { disk : Disk; script : list (option nat); passed : list Disk }.

Definition IO (E A : Type) : Type := World -> expected E A * World.

#[export] Instance io_ret {E} : MRet (IO E) := fun _ a w => (Ok a, w).
#[export] Instance io_bind {E} : MBind (IO E) := fun _ _ f m w =>
  match m w with
  | (Ok a, w') => f a w'
  | (Err e, w') => (Err e, w')
  end.

Definition io_fail {E A} (e : E) : IO E A := fun w => (Err e, w).
Definition io_lift {E A} (m : expected E A) : IO E A := fun w => (m, w).
Definition io_ensure {E} (b : bool) (e : E) : IO E unit := io_lift (ensure b e).

(** [if (!m) return other(error)] *)
Definition io_map_err {E E' A} (f : E -> E') (m : IO E A) : IO E' A := fun w =>
  let '(r, w') := m w in (map_err f r, w').

(** Errors ignored: [std::error_code ignored] *)
Definition io_ignore {E E' A} (m : IO E A) : IO E' unit := fun w => (Ok tt, (m w).2).

(** On an error, first clean up. *)
Definition io_on_error {E A} (m : IO E A) (cleanup : IO E unit) : IO E A := fun w =>
  match m w with
  | (Ok a, w') => (Ok a, w')
  | (Err e, w') => (Err e, (cleanup w').2)
  end.

Definition set_script (w : World) (s : list (option nat)) : World :=
  {| disk := disk w; script := s; passed := passed w |}.

Definition next_fault (w : World) : option nat * World :=
  match script w with
  | [] => (None, w)
  | f :: rest => (f, set_script w rest)
  end.

Definition step_disk (w : World) (d : Disk) : World :=
  {| disk := d; script := script w; passed := d :: passed w |}.

(** A call that changes the disk, or fails and leaves it alone. *)
Definition call {E} (e : E) (op : Disk -> Disk) : IO E unit := fun w =>
  let '(fault, w') := next_fault w in
  match fault with
  | None => (Ok tt, step_disk w' (op (disk w')))
  | Some _ => (Err e, w')
  end.

(** A write may stop half-way. *)
Definition call_write {E} (e : E) (name : string) (bs : list byte) : IO E unit := fun w =>
  let '(fault, w') := next_fault w in
  match fault with
  | None => (Ok tt, step_disk w' (d_write name bs (disk w')))
  | Some n => (Err e, step_disk w' (d_write name (take n bs) (disk w')))
  end.

(** A call that reads. *)
Definition call_read {E A} (e : E) (f : Disk -> option A) : IO E A := fun w =>
  let '(fault, w') := next_fault w in
  match fault, f (disk w') with
  | None, Some a => (Ok a, w')
  | _, _ => (Err e, w')
  end.

Definition file_exists {E} (e : E) (name : string) : IO E bool :=
  call_read e (fun d => Some (bool_decide (is_Some (dir d !! name)))).

(** A rename of a missing file fails. *)
Definition call_rename {E} (e : E) (from to : string) : IO E unit := fun w =>
  match next_fault w with
  | (None, w') =>
      match dir (disk w') !! from with
      | Some _ => (Ok tt, step_disk w' (d_rename from to (disk w')))
      | None => (Err e, w')
      end
  | (Some _, w') => (Err e, w')
  end.

(** The world a program starts in. *)
Definition world (d : Disk) (s : list (option nat)) : World :=
  {| disk := d; script := s; passed := [d] |}.
