(* ===== verification/StoreSpec.v ===== *)
(** * Reasoning about programs over the disk

    Invariants of disks, how the operations on temporary files keep them, what
    a crash leaves, and a Hoare triple that also speaks of every disk passed
    through on the way: the states a crash can hit. *)

From S2P Require Import Prelude Bytes Text Store.

Definition history (d : Disk) : list (gmap string Z) := dir d :: older d.

(** [name.ends_with(".tmp")] *)
Definition temporary (name : string) : bool :=
  str_eqb (str_drop (String.length name - 4) name) ".tmp" && Nat.leb 4 (String.length name).

(** No two names of a directory share a file, and the file of a temporary name
    was never the file of another. *)
Record disk_ok (d : Disk) : Prop := {
  ok_known m n i : m ∈ history d -> m !! n = Some i -> i < fresh d /\ is_Some (inodes d !! i);
  ok_injective m a b i : m ∈ history d -> m !! a = Some i -> m !! b = Some i -> a = b;
  ok_temporary n i : dir d !! n = Some i -> temporary n = true ->
    forall m b, m ∈ history d -> m !! b = Some i -> temporary b = true
}.

Notation Files := (gmap string (list byte)).

(** The files of [P] are in the directory [m], entirely on the medium. *)
Definition settled (m : gmap string Z) (nodes : gmap Z Inode) (P : Files) : Prop :=
  forall n bs, P !! n = Some bs -> exists i, m !! n = Some i /\
    nodes !! i = Some (synced bs).

(** [P] is settled now, and every directory a crash can go back to settles one
    of [Q]. *)
Definition holds (d : Disk) (P : Files) (Q : list Files) : Prop :=
  settled (dir d) (inodes d) P /\
  forall m, m ∈ older d -> exists P', P' ∈ Q /\ settled m (inodes d) P'.

Definition lasting (P : Files) : Prop := forall n, is_Some (P !! n) -> temporary n = false.

Lemma settled_subseteq m nodes P P' : P' ⊆ P -> settled m nodes P -> settled m nodes P'.
Proof. intros Hsub H n bs Hn. apply H. by eapply lookup_weaken. Qed.

Lemma holds_content d P Q n bs : holds d P Q -> P !! n = Some bs -> content d n = Some bs.
Proof. intros [H _] Hn. destruct (H _ _ Hn) as (i & Hi & E). unfold content. by rewrite Hi; cbn; rewrite E. Qed.

Lemma holds_weaken d P P' Q Q' : P' ⊆ P -> (forall R, R ∈ Q -> exists R', R' ∈ Q' /\ R' ⊆ R) ->
  holds d P Q -> holds d P' Q'.
Proof.
  intros HP HQ [H Ho]. split; [by eapply settled_subseteq|]. intros m Hm.
  destruct (Ho m Hm) as (R & HR & Hset). destruct (HQ R HR) as (R' & HR' & Hsub).
  exists R'. split; [done|by eapply settled_subseteq].
Qed.

(** ** The operations keep the invariants *)

Lemma set_inode_ok d i f : disk_ok d -> disk_ok (set_inode d i f).
Proof.
  intros [Hk Hi Ht]. split; cbn; [|exact Hi|exact Ht].
  intros m n j Hm Hn. destruct (Hk m n j Hm Hn) as [Hlt Hs]. split; [done|].
  destruct (decide (i = j)) as [->|]; [by rewrite lookup_alter_eq, fmap_is_Some|by rewrite lookup_alter_ne].
Qed.

(** A file no lasting name refers to. *)
Definition unreferenced (d : Disk) (i : Z) : Prop :=
  forall m n, m ∈ history d -> m !! n = Some i -> temporary n = true.

Lemma settled_set_inode d i f m P : unreferenced d i -> lasting P -> m ∈ history d ->
  settled m (inodes d) P -> settled m (alter f i (inodes d)) P.
Proof.
  intros Hu HP Hm H n bs Hn. destruct (H n bs Hn) as (j & Hj & E). exists j. split; [done|].
  destruct (decide (i = j)) as [->|Hne]; [|by rewrite lookup_alter_ne].
  specialize (Hu m n Hm Hj). rewrite (HP n) in Hu; [done|by eauto].
Qed.

Lemma holds_set_inode d i f P Q : unreferenced d i -> lasting P -> Forall lasting Q ->
  holds d P Q -> holds (set_inode d i f) P Q.
Proof.
  intros Hu HP HQ [H Ho]. split; cbn.
  - apply (settled_set_inode d); [done|done|by left|done].
  - intros m Hm. destruct (Ho m Hm) as (P' & HP' & Hs). exists P'. split; [done|].
    rewrite Forall_forall in HQ. apply (settled_set_inode d); [done|by apply HQ|by right|done].
Qed.

Lemma on_temporary d name f P Q : disk_ok d -> temporary name = true -> lasting P -> Forall lasting Q ->
  holds d P Q -> disk_ok (on_file d name f) /\ holds (on_file d name f) P Q.
Proof.
  intros Hok Ht HP HQ H. unfold on_file. destruct (dir d !! name) as [i|] eqn:E; [|done].
  split; [by apply set_inode_ok|]. apply holds_set_inode; [|done..].
  intros m n Hm Hn. by eapply (ok_temporary _ Hok).
Qed.

(** A directory with one more name, for a file that the others do not have. *)
Lemma d_create_ok d name P Q : disk_ok d -> holds d P Q -> dir d !! name = None ->
  disk_ok (d_create d name) /\ holds (d_create d name) P (P :: Q).
Proof.
  intros [Hk Hi Ht] [Hd Ho] Hnone.
  assert (Hnew : forall m n, m ∈ history d -> m !! n <> Some (fresh d)).
  { intros m n Hm Hn. destruct (Hk m n _ Hm Hn). lia. }
  assert (Hhist : forall m, m ∈ history (d_create d name) -> m = <[name := fresh d]> (dir d) \/ m ∈ history d).
  { intros m. unfold history. cbn. rewrite !elem_of_cons. tauto. }
  assert (Hkeep : forall m P', m ∈ history d -> settled m (inodes d) P' ->
    settled m (<[fresh d := synced []]> (inodes d)) P').
  { intros m P' Hm H n bs Hn. destruct (H n bs Hn) as (i & Hmn & E). exists i. split; [done|].
    rewrite lookup_insert_ne; [done|]. intros <-. by apply (Hnew m n). }
  split; [split|].
  - intros m n i [->|Hm]%Hhist; cbn.
    + destruct (decide (n = name)) as [->|Hne].
      * rewrite lookup_insert_eq. intros [= <-]. rewrite lookup_insert_eq. split; [lia|by eauto].
      * rewrite lookup_insert_ne by done. intros Hn. destruct (Hk _ n i (list_elem_of_here _ _) Hn). split; [lia|].
        rewrite lookup_insert_is_Some. destruct (decide (fresh d = i)); auto.
    + intros Hn. destruct (Hk m n i Hm Hn). split; [lia|]. rewrite lookup_insert_is_Some. destruct (decide (fresh d = i)); auto.
  - intros m a b i [->|Hm]%Hhist; [|by apply Hi].
    rewrite !lookup_insert_Some. intros [[<- <-]|[Hna Ha]] [[<- E]|[Hnb Hb]]; try done.
    + by destruct (Hnew (dir d) b (list_elem_of_here _ _)).
    + subst. by destruct (Hnew (dir d) a (list_elem_of_here _ _)).
    + by apply (Hi (dir d) a b i (list_elem_of_here _ _)).
  - intros n i. cbn. rewrite lookup_insert_Some. intros [[<- <-]|[Hn Hd']] Htmp m b [->|Hm]%Hhist Hb.
    + rewrite lookup_insert_Some in Hb. destruct Hb as [[<- _]|[_ Hb]]; [done|].
      by destruct (Hnew (dir d) b (list_elem_of_here _ _)).
    + by destruct (Hnew m b).
    + rewrite lookup_insert_Some in Hb. destruct Hb as [[<- E]|[_ Hb]].
      * subst. by destruct (Hnew (dir d) n (list_elem_of_here _ _)).
      * by apply (Ht n i Hd' Htmp (dir d) b (list_elem_of_here _ _)).
    + by apply (Ht n i Hd' Htmp m b).
  - split; cbn.
    + intros n bs Hn. destruct (Hkeep (dir d) P (list_elem_of_here _ _) Hd n bs Hn) as (i & Hmn & E).
      exists i. split; [|done]. rewrite lookup_insert_ne; [done|]. intros ->. congruence.
    + intros m [->|Hm]%elem_of_cons.
      * exists P. split; [by left|]. by apply Hkeep; [left|].
      * destruct (Ho m Hm) as (P' & HP' & Hs). exists P'. split; [by right|]. apply Hkeep; [by right|done].
Qed.

Lemma d_truncate_ok d name P Q : disk_ok d -> temporary name = true -> lasting P -> Forall lasting Q ->
  holds d P Q -> disk_ok (d_truncate name d) /\ holds (d_truncate name d) P (P :: Q).
Proof.
  intros Hok Ht HP HQ H. unfold d_truncate. destruct (dir d !! name) as [i|] eqn:E.
  - pose proof (on_temporary d name (fun ino => {| durable := durable ino; current := []; kept := 0 |}) P Q Hok Ht HP HQ H) as [H1 H2].
    unfold on_file in H1, H2. rewrite E in H1, H2. split; [done|]. eapply holds_weaken; [..|exact H2]; [done|].
    intros R HR. exists R. split; [by right|done].
  - by apply d_create_ok.
Qed.

(** Renaming a temporary file that is entirely on the medium. *)
Lemma d_rename_ok d from to bs i P Q : disk_ok d -> holds d P Q ->
  temporary from = true -> temporary to = false -> lasting P ->
  dir d !! from = Some i -> inodes d !! i = Some (synced bs) ->
  disk_ok (d_rename from to d) /\ holds (d_rename from to d) (<[to := bs]> P) (P :: Q).
Proof.
  intros [Hk Hi Ht] [Hd Ho] Hfrom Hto HP Hdi Hin. unfold d_rename. rewrite Hdi.
  set (m' := <[to := i]> (delete from (dir d))).
  assert (Hhist : forall m, m ∈ history (set_dir d m') -> m = m' \/ m ∈ history d).
  { intros m. unfold history. cbn. rewrite !elem_of_cons. tauto. }
  assert (Hsub : forall n j, m' !! n = Some j -> (n = to /\ j = i) \/ (n <> to /\ n <> from /\ dir d !! n = Some j)).
  { intros n j. unfold m'. rewrite lookup_insert_Some, lookup_delete_Some. intros [[<- <-]|[? [? ?]]]; auto. }
  split; [split|].
  - intros m n j [->|Hm]%Hhist Hn; [|by apply (Hk m n)]. cbn.
    destruct (Hsub _ _ Hn) as [[-> ->]|(_ & _ & Hn')]; [by apply (Hk _ _ _ (list_elem_of_here _ _) Hdi)|].
    by apply (Hk _ _ _ (list_elem_of_here _ _) Hn').
  - intros m a b j [->|Hm]%Hhist Ha Hb; [|by apply (Hi m a b j)].
    destruct (Hsub _ _ Ha) as [[-> ->]|(Ha1 & Ha2 & Ha')], (Hsub _ _ Hb) as [[-> E]|(Hb1 & Hb2 & Hb')]; try done.
    + by destruct Hb2; apply (Hi (dir d) b from i (list_elem_of_here _ _)).
    + subst. by destruct Ha2; apply (Hi (dir d) a from i (list_elem_of_here _ _)).
    + by apply (Hi (dir d) a b j (list_elem_of_here _ _)).
  - intros n j Hn Htmp m b. cbn in Hn. destruct (Hsub _ _ Hn) as [[-> ->]|(Hn1 & Hn2 & Hn')]; [congruence|].
    intros [->|Hm]%Hhist Hb; [|by apply (Ht n j Hn' Htmp m b)].
    destruct (Hsub _ _ Hb) as [[-> ->]|(_ & _ & Hb')]; [|by apply (Ht n j Hn' Htmp (dir d) b (list_elem_of_here _ _))].
    by destruct Hn2; apply (Hi (dir d) n from i (list_elem_of_here _ _)).
  - split; cbn.
    + intros n bs'. rewrite lookup_insert_Some. intros [[<- <-]|[Hne Hn]].
      * exists i. split; [by unfold m'; rewrite lookup_insert_eq|done].
      * destruct (Hd n bs' Hn) as (j & Hj & E). exists j. split; [|done]. unfold m'.
        rewrite lookup_insert_ne, lookup_delete_ne by (congruence || (intros ->; rewrite (HP n) in Hfrom; [done|by eauto])). done.
    + intros m [->|Hm]%elem_of_cons; [exists P; split; [by left|done]|].
      destruct (Ho m Hm) as (P' & HP' & Hs). exists P'. split; [by right|done].
Qed.

Lemma d_sync_dir_ok d P Q : disk_ok d -> holds d P Q -> disk_ok (d_sync_dir d) /\ holds (d_sync_dir d) P [].
Proof.
  intros [Hk Hi Ht] [Hd _]. split; [split|split; [exact Hd|]].
  - intros m n i Hm%list_elem_of_singleton. subst. apply (Hk (dir d)). left.
  - intros m a b i Hm%list_elem_of_singleton. subst. apply (Hi (dir d)). left.
  - intros n i Hn Htmp m b Hm%list_elem_of_singleton. subst. apply (Ht n i Hn Htmp (dir d)). left.
  - intros m Hm. by apply not_elem_of_nil in Hm.
Qed.

Lemma d_remove_ok d name P Q : disk_ok d -> holds d P Q ->
  disk_ok (d_remove name d) /\ holds (d_remove name d) (delete name P) (P :: Q).
Proof.
  intros [Hk Hi Ht] [Hd Ho]. unfold d_remove.
  assert (Hhist : forall m, m ∈ history (set_dir d (delete name (dir d))) ->
    m = delete name (dir d) \/ m ∈ history d).
  { intros m. unfold history. cbn. rewrite !elem_of_cons. tauto. }
  split; [split|].
  - intros m n j [->|Hm]%Hhist Hn; [|by apply (Hk m n)].
    apply lookup_delete_Some in Hn as [_ Hn]. by apply (Hk _ _ _ (list_elem_of_here _ _) Hn).
  - intros m a b j [->|Hm]%Hhist Ha Hb; [|by apply (Hi m a b j)].
    apply lookup_delete_Some in Ha as [_ Ha], Hb as [_ Hb]. by apply (Hi (dir d) a b j (list_elem_of_here _ _)).
  - intros n j Hn Htmp m b. cbn in Hn. apply lookup_delete_Some in Hn as [_ Hn].
    intros [->|Hm]%Hhist Hb; [|by apply (Ht n j Hn Htmp m b)].
    apply lookup_delete_Some in Hb as [_ Hb]. by apply (Ht n j Hn Htmp (dir d) b (list_elem_of_here _ _)).
  - split; cbn.
    + intros n bs (Hne & Hn)%lookup_delete_Some. destruct (Hd n bs Hn) as (j & Hj & E). exists j.
      split; [by rewrite lookup_delete_ne|done].
    + intros m [->|Hm]%elem_of_cons; [exists P; split; [by left|done]|].
      destruct (Ho m Hm) as (P' & HP' & Hs). exists P'. split; [by right|done].
Qed.

Lemma d_remove_temporary d name P Q : disk_ok d -> temporary name = true -> lasting P -> holds d P Q ->
  disk_ok (d_remove name d) /\ holds (d_remove name d) P (P :: Q).
Proof.
  intros Hok Ht HP H. destruct (d_remove_ok d name P Q Hok H) as [? Hh]. split; [done|].
  rewrite delete_id in Hh; [done|]. destruct (P !! name) eqn:E; [|done]. rewrite (HP name) in Ht; [done|by eauto].
Qed.

(** ** Crashes *)

Lemma survives_synced bs c : survives (synced bs) c -> c = bs.
Proof.
  intros [H|[H1 H2]]; [done|]. cbn in *. destruct H1 as [k ->]. rewrite length_app in H2. destruct k; [by rewrite app_nil_r|cbn in H2; lia].
Qed.

Lemma crash_settled d d' P : crash d d' -> settled (dir d') (inodes d) P -> settled (dir d') (inodes d') P.
Proof.
  intros C H n bs Hn. destruct (H n bs Hn) as (i & Hi & E). exists i. split; [done|].
  pose proof (crash_inodes _ _ C i) as Hs. rewrite E in Hs. unfold survives_opt in Hs.
  destruct (inodes d' !! i) as [node|]; [|done]. destruct Hs as [Hdc Hs].
  apply survives_synced in Hs. by rewrite Hdc, Hs.
Qed.

(** After a crash the directory is one the disk had since the last sync, and
    the files it settled are all there. *)
Lemma crash_holds d d' P Q : disk_ok d -> holds d P Q -> crash d d' ->
  disk_ok d' /\ exists P', P' ∈ P :: Q /\ holds d' P' [].
Proof.
  intros [Hk Hi Ht] [Hd Ho] C.
  assert (Hdir : dir d' ∈ history d) by (unfold history; rewrite elem_of_cons; apply C).
  assert (Hone : forall m, m ∈ history d' -> m = dir d').
  { intros m. unfold history. rewrite (crash_older _ _ C). apply list_elem_of_singleton. }
  split; [split|].
  - intros m n i ->%Hone Hn. destruct (Hk _ n i Hdir Hn) as [Hlt [ino E]]. rewrite (crash_fresh _ _ C). split; [done|].
    pose proof (crash_inodes _ _ C i) as Hs. rewrite E in Hs. unfold survives_opt in Hs.
    destruct (inodes d' !! i); [by eauto|done].
  - intros m a b i ->%Hone. by apply Hi.
  - intros n i Hn Htmp m b ->%Hone Hb. by rewrite <- (Hi _ n b i Hdir Hn Hb).
  - assert (exists P', P' ∈ P :: Q /\ settled (dir d') (inodes d) P') as (P' & HP' & Hs).
    { unfold history in Hdir. apply elem_of_cons in Hdir as [->|Hm]; [exists P; split; [by left|done]|].
      destruct (Ho _ Hm) as (P' & ? & ?). exists P'. split; [by right|done]. }
    exists P'. split; [done|]. split; [by apply crash_settled with d|].
    rewrite (crash_older _ _ C). intros m Hm. by apply not_elem_of_nil in Hm.
Qed.

(** ** Triples

    From a world whose disk satisfies [pre] and whose passed disks are [safe],
    the program leaves passed disks that are [safe], and either returns with
    [post], or gives an error allowed by [err], or was failed by a call. *)

Definition clean (w : World) : Prop := Forall (eq None) (script w).

Definition triple {E A} (safe : Disk -> Prop) (pre : Disk -> Prop) (m : IO E A)
    (post : A -> Disk -> Prop) (err : E -> Disk -> Prop) : Prop :=
  forall w, pre (disk w) -> safe (disk w) -> Forall safe (passed w) ->
    let '(r, w') := m w in
    safe (disk w') /\ Forall safe (passed w') /\ (clean w -> clean w') /\
    match r with
    | Ok a => post a (disk w')
    | Err e => ~ clean w \/ err e (disk w')
    end.

Section triples.
Context {E : Type} (safe : Disk -> Prop).

Lemma triple_ret {A} (a : A) (pre : Disk -> Prop) (post : A -> Disk -> Prop) (err : E -> Disk -> Prop) :
  (forall d, pre d -> post a d) -> triple safe pre (mret a : IO E A) post err.
Proof. intros H w Hp Hs Hall. cbn. by split_and!; try apply H. Qed.

Lemma triple_bind {A B} (pre : Disk -> Prop) (m : IO E A) mid (f : A -> IO E B) post err :
  triple safe pre m mid err -> (forall a, triple safe (mid a) (f a) post err) ->
  triple safe pre (m ≫= f) post err.
Proof.
  intros Hm Hf w Hp Hs Hall. specialize (Hm w Hp Hs Hall). unfold mbind, io_bind.
  destruct (m w) as [[a|e] w']; destruct Hm as (Hs' & Hall' & Hc & Hpost); [|by split_and!].
  specialize (Hf a w' Hpost Hs' Hall'). destruct (f a w') as [r w'']. destruct Hf as (? & ? & Hc' & Hr).
  split_and!; [done|done|by auto|]. destruct r; [done|]. destruct Hr as [Hr|Hr]; [left|by right].
  intros Hcl. by apply Hr, Hc.
Qed.

Lemma triple_weaken {A} (pre pre' : Disk -> Prop) (m : IO E A) post post' err err' :
  triple safe pre m post err -> (forall d, pre' d -> pre d) -> (forall a d, post a d -> post' a d) ->
  (forall e d, err e d -> err' e d) -> triple safe pre' m post' err'.
Proof.
  intros H Hpre Hpost Herr w Hp Hs Hall. specialize (H w (Hpre _ Hp) Hs Hall).
  destruct (m w) as [[a|e] w']; destruct H as (? & ? & ? & Hr); split_and!; auto.
  destruct Hr; [by left|right; auto].
Qed.

Lemma triple_pre {A} (pre : Disk -> Prop) (m : IO E A) post err :
  (forall d, pre d -> triple safe (eq d) m post err) -> triple safe pre m post err.
Proof. intros H w Hp Hs Hall. by apply (H (disk w) Hp w). Qed.

(** What does not speak of the disk is assumed outside. *)
Lemma triple_given {A} (fact : Prop) (pre : Disk -> Prop) (m : IO E A) post err :
  (fact -> triple safe pre m post err) -> triple safe (fun d => pre d /\ fact) m post err.
Proof. intros H w [Hp Hf] Hs Hall. by apply (H Hf w). Qed.

Lemma next_fault_world w : let '(f, w') := next_fault w in
  disk w' = disk w /\ passed w' = passed w /\ (clean w -> clean w' /\ f = None).
Proof.
  unfold next_fault, clean. destruct w as [d [|f s] p]; cbn; [done|]. split_and!; [done|done|].
  intros H. apply Forall_cons in H as [<- H]. done.
Qed.

Lemma triple_call (e : E) op (pre : Disk -> Prop) (post : unit -> Disk -> Prop) (err : E -> Disk -> Prop) :
  (forall d, pre d -> safe d -> safe (op d) /\ post tt (op d)) -> triple safe pre (call e op) post err.
Proof.
  intros H w Hp Hs Hall. unfold call. pose proof (next_fault_world w) as Hn.
  destruct (next_fault w) as [[n|] w']; destruct Hn as (Hd & Hpa & Hc).
  - rewrite Hd, Hpa. split_and!; [done|done|by intros []%Hc|]. left. by intros [_ ?]%Hc.
  - rewrite Hd. destruct (H (disk w) Hp Hs) as [H1 H2]. cbn. split_and!; [done| |by intros []%Hc|done].
    rewrite Hpa. by constructor.
Qed.

Lemma triple_write (e : E) name bs (pre : Disk -> Prop) (post : unit -> Disk -> Prop) (err : E -> Disk -> Prop) :
  (forall d bs', pre d -> safe d -> bs' `prefix_of` bs -> safe (d_write name bs' d)) ->
  (forall d, pre d -> post tt (d_write name bs d)) ->
  triple safe pre (call_write e name bs) post err.
Proof.
  intros H H' w Hp Hs Hall. unfold call_write. pose proof (next_fault_world w) as Hn.
  destruct (next_fault w) as [[n|] w']; destruct Hn as (Hd & Hpa & Hc); rewrite Hd; cbn; rewrite ?Hpa.
  - pose proof (H (disk w) (take n bs) Hp Hs (prefix_take _ _)).
    split_and!; [done|by constructor|by intros []%Hc|]. left. by intros [_ ?]%Hc.
  - pose proof (H (disk w) bs Hp Hs (reflexivity _)). split_and!; [done|by constructor|by intros []%Hc|by apply H'].
Qed.

Lemma triple_read {A} (e : E) (f : Disk -> option A) (pre : Disk -> Prop) (post : A -> Disk -> Prop)
    (err : E -> Disk -> Prop) :
  (forall d, pre d -> match f d with Some a => post a d | None => err e d end) ->
  triple safe pre (call_read e f) post err.
Proof.
  intros H w Hp Hs Hall. unfold call_read. pose proof (next_fault_world w) as Hn.
  destruct (next_fault w) as [[n|] w']; destruct Hn as (Hd & Hpa & Hc).
  - rewrite Hd, Hpa. split_and!; [done|done|by intros []%Hc|]. left. by intros [_ ?]%Hc.
  - specialize (H _ Hp). rewrite Hd. destruct (f (disk w)) as [a|]; rewrite Hd, Hpa; split_and!; try done.
    + by intros []%Hc.
    + by intros []%Hc.
    + by right.
Qed.

Lemma triple_rename (e : E) from to (pre : Disk -> Prop) (post : unit -> Disk -> Prop) (err : E -> Disk -> Prop) :
  (forall d, pre d -> safe d -> match dir d !! from with
     | Some _ => safe (d_rename from to d) /\ post tt (d_rename from to d)
     | None => err e d
     end) ->
  triple safe pre (call_rename e from to) post err.
Proof.
  intros H w Hp Hs Hall. unfold call_rename. pose proof (next_fault_world w) as Hn.
  destruct (next_fault w) as [[n|] w']; destruct Hn as (Hd & Hpa & Hc).
  - rewrite Hd, Hpa. split_and!; [done|done|by intros []%Hc|]. left. by intros [_ ?]%Hc.
  - specialize (H _ Hp Hs). rewrite Hd. destruct (dir (disk w) !! from).
    + destruct H as [H1 H2]. cbn. rewrite Hpa. split_and!; [done|by constructor|by intros []%Hc|done].
    + rewrite Hd, Hpa. split_and!; [done|done|by intros []%Hc|by right].
Qed.

Lemma triple_lift {A} (m : expected E A) (pre : Disk -> Prop) (post : A -> Disk -> Prop) (err : E -> Disk -> Prop) :
  (forall d, pre d -> match m with Ok a => post a d | Err e => err e d end) ->
  triple safe pre (io_lift m) post err.
Proof.
  intros H w Hp Hs Hall. unfold io_lift. specialize (H _ Hp). destruct m; split_and!; try done. by right.
Qed.
End triples.

Lemma triple_map_err {E E' A} (safe : Disk -> Prop) (f : E -> E') (m : IO E A) pre post err err' :
  triple safe pre m post err -> (forall e d, err e d -> err' (f e) d) ->
  triple safe pre (io_map_err f m) post err'.
Proof.
  intros H Herr w Hp Hs Hall. specialize (H w Hp Hs Hall). unfold io_map_err.
  destruct (m w) as [[a|e] w']; cbn; destruct H as (? & ? & ? & Hr); split_and!; try done.
  destruct Hr as [|Hr]; [by left|right; by apply Herr].
Qed.

Lemma triple_ignore {E E' A} (safe : Disk -> Prop) (m : IO E A) pre post err (Q : Disk -> Prop) (err' : E' -> Disk -> Prop) :
  triple safe pre m post err -> (forall d, safe d -> Q d) ->
  triple safe pre (io_ignore m : IO E' unit) (fun _ => Q) err'.
Proof.
  intros H HQ w Hp Hs Hall. specialize (H w Hp Hs Hall). unfold io_ignore.
  destruct (m w) as [r w']; cbn. destruct H as (? & ? & ? & _). by split_and!; auto.
Qed.

(** ** Good disks

    A disk is good for a property of file sets when a crash at this moment
    leaves settled files with that property. *)

Section good.
Context (good : Files -> Prop).

Record inv (P : Files) (Q : list Files) (d : Disk) : Prop := {
  inv_ok : disk_ok d;
  inv_holds : holds d P Q;
  inv_lasting : lasting P;
  inv_lasting_older : Forall lasting Q;
  inv_good : good P;
  inv_good_older : Forall good Q
}.

Definition safe (d : Disk) : Prop := exists P Q, inv P Q d.

Lemma inv_safe P Q d : inv P Q d -> safe d.
Proof using Type. intros H. by exists P, Q. Qed.

Lemma safe_crash d d' : safe d -> crash d d' -> exists P, good P /\ inv P [] d'.
Proof using Type.
  intros (P & Q & [Hok Hh Hl Hl' Hg Hg']) C. destruct (crash_holds _ _ _ _ Hok Hh C) as [Hok' (P' & HP' & Hh')].
  assert (good P' /\ lasting P') as [? ?].
  { rewrite Forall_forall in Hl', Hg'. apply elem_of_cons in HP' as [->|HP']; split; auto. }
  exists P'. split; [done|]. by split.
Qed.

(** A temporary file being written: what a reader sees of it. *)
Definition seen (name : string) (ino : Inode -> Prop) (d : Disk) : Prop :=
  exists i node, dir d !! name = Some i /\ inodes d !! i = Some node /\ ino node.

Lemma inv_truncate P Q d name : temporary name = true -> inv P Q d ->
  inv P (P :: Q) (d_truncate name d) /\ seen name (fun node => current node = []) (d_truncate name d).
Proof using Type.
  intros Ht [Hok Hh Hl Hl' Hg Hg']. destruct (d_truncate_ok d name P Q Hok Ht Hl Hl' Hh) as [H1 H2].
  split; [split; try done; by constructor|]. unfold seen, d_truncate. destruct (dir d !! name) as [i|] eqn:E.
  - destruct (ok_known _ Hok (dir d) name i (list_elem_of_here _ _) E) as [_ [node En]].
    exists i, {| durable := durable node; current := []; kept := 0 |}. cbn. by rewrite lookup_alter_eq, En.
  - exists (fresh d), (synced []). cbn. by rewrite !lookup_insert_eq.
Qed.

Lemma inv_on_file P Q d name f : temporary name = true -> inv P Q d -> inv P Q (on_file d name f).
Proof using Type.
  intros Ht [Hok Hh Hl Hl' Hg Hg']. destruct (on_temporary d name f P Q Hok Ht Hl Hl' Hh). by split.
Qed.

Lemma seen_on_file d name (f : Inode -> Inode) (p q : Inode -> Prop) : seen name p d ->
  (forall node, p node -> q (f node)) -> seen name q (on_file d name f).
Proof using Type.
  intros (i & node & Hi & Hn & Hp) Hf. exists i, (f node). unfold on_file. rewrite Hi. cbn.
  rewrite lookup_alter_eq, Hn. by auto.
Qed.

Lemma inv_remove P Q d name : temporary name = true -> inv P Q d -> inv P (P :: Q) (d_remove name d).
Proof using Type.
  intros Ht [Hok Hh Hl Hl' Hg Hg']. destruct (d_remove_temporary d name P Q Hok Ht Hl Hh). split; try done; by constructor.
Qed.

Lemma inv_rename P Q d from to bs : temporary from = true -> temporary to = false -> good (<[to := bs]> P) ->
  inv P Q d -> seen from (eq (synced bs)) d ->
  inv (<[to := bs]> P) (P :: Q) (d_rename from to d).
Proof using Type.
  intros Hf Ht Hgood [Hok Hh Hl Hl' Hg Hg'] (i & node & Hi & Hn & <-).
  destruct (d_rename_ok d from to bs i P Q Hok Hh Hf Ht Hl Hi Hn). split; try done; try by constructor.
  intros n. rewrite lookup_insert_is_Some. intros [<-|[_ Hs]]; [done|by apply Hl].
Qed.

Lemma inv_sync_dir P Q d : inv P Q d -> inv P [] (d_sync_dir d).
Proof using Type. intros [Hok Hh Hl Hl' Hg Hg']. destruct (d_sync_dir_ok d P Q Hok Hh). by split. Qed.

(** What is held does not depend on how much of the past is remembered. *)
Definition held (P : Files) (d : Disk) : Prop := exists Q, inv P Q d.

Lemma held_safe P d : held P d -> safe d.
Proof using Type. intros [Q H]. by exists P, Q. Qed.

Lemma held_content P d n bs : held P d -> P !! n = Some bs -> content d n = Some bs.
Proof using Type. intros [Q [_ H _ _ _ _]]. by eapply holds_content. Qed.
End good.

(** ** Runs without failures *)

Definition quiet (d : Disk) (p : list Disk) : World := {| disk := d; script := []; passed := p |}.

Lemma bind_run {E A B} (m : IO E A) (f : A -> IO E B) w a w' : m w = (Ok a, w') -> (m ≫= f) w = f a w'.
Proof. unfold mbind, io_bind. by intros ->. Qed.

Lemma call_run {E} (e : E) op d p : call e op (quiet d p) = (Ok tt, quiet (op d) (op d :: p)).
Proof. done. Qed.

Lemma write_run {E} (e : E) name bs d p :
  call_write e name bs (quiet d p) = (Ok tt, quiet (d_write name bs d) (d_write name bs d :: p)).
Proof. done. Qed.

Lemma read_run {E A} (e : E) (f : Disk -> option A) a d p : f d = Some a -> call_read e f (quiet d p) = (Ok a, quiet d p).
Proof. intros H. unfold call_read. cbn. by rewrite H. Qed.
