(* ===== verification/SegmentStore.v ===== *)
(** * Segments in the directory

    [SegmentReader::open] and [SegmentWriter::write] of src/storage/segment.cpp
    as programs over the disk of Store.v.  The text that the system appends to
    an error message is left out. *)

From S2P Require Import Prelude Bytes Text Cursor Analysis Schema Types Index Segment Store.

Section names.
Context {E : Type}.

(** [sync_path(path, false)]: open, then [fsync]. *)
Definition sync_file (cannot_open failed : E) (name : string) : IO E unit :=
  _ ← call_read cannot_open (fun d => dir d !! name); call failed (d_sync name).

(** [sync_path(path, true)] *)
Definition sync_directory (cannot_open failed : E) : IO E unit :=
  _ ← call cannot_open (fun d => d); call failed d_sync_dir.

(** Stat, check the size, read. *)
Definition read_checked (cannot_stat cannot_read : E) (check : Z -> expected E unit) (name : string)
    : IO E (list byte) :=
  size ← call_read cannot_stat (fun d => zlen <$> content d name);
  _ ← io_lift (check size);
  call_read cannot_read (fun d => content d name).
End names.

Definition check_segment_size (limits : SegmentReadLimits) (file_size : Z) : expected SegmentError unit :=
  _ ← ensure (file_size <=? maximum_file_bytes limits) (exceeded "segment file size limit exceeded");
  ensure (negb (file_size <? kHeaderBytes + kSectionCount * kDirectoryEntryBytes))
    (corrupt "segment is shorter than its header").

Definition open_segment (name : string) (limits : SegmentReadLimits) : IO SegmentError SegmentReader :=
  bytes ← read_checked (segment_fail segment_io_error "cannot stat segment")
    (segment_fail segment_io_error "cannot read segment") (check_segment_size limits) name;
  io_lift (SegmentReader.open bytes limits).

Definition temporary_name (name : string) : string := name +:+ ".tmp".

(** [std::filesystem::remove(temporary, ignored)] on the way out *)
Definition cleanup {E} (name : string) : IO E unit :=
  io_ignore (E' := E) (call tt (d_remove name) : IO unit unit).

Definition sync_path (name : string) (directory : bool) : IO SegmentError unit :=
  let cannot_open := segment_fail segment_io_error "cannot open path for fsync" in
  let failed := segment_fail segment_io_error "fsync failed" in
  if directory then sync_directory cannot_open failed else sync_file cannot_open failed name.

Definition write_segment (name : string) (snapshot : IndexSnapshot) (options : SegmentWriteOptions)
    : IO SegmentError unit :=
  let io := segment_fail segment_io_error in
  _ ← io_ensure (negb (str_eqb name "") && negb (write_segment_id options =? 0))
        (segment_fail segment_invalid_snapshot "segment path and ID must be non-empty");
  let bytes := encode_segment snapshot options in
  let temp := temporary_name name in
  _ ← call (io "cannot create temporary segment") (d_truncate temp);
  _ ← io_on_error (call_write (io "cannot write temporary segment") temp bytes) (cleanup temp);
  _ ← io_on_error (sync_path temp false) (cleanup temp);
  _ ← io_on_error
        (io_map_err (fun e => segment_fail segment_invalid_snapshot
                                ("serialized snapshot failed validation: " +:+ segment_message e))
           (open_segment temp default_read_limits)) (cleanup temp);
  _ ← io_on_error (call_rename (io "cannot publish segment") temp name) (cleanup temp);
  sync_path "." true.
