(* ===== verification/Manifest.v ===== *)
(** * The manifest store

    src/storage/manifest.cpp: the manifest and CURRENT files, their encoding
    and checks, and the publication and loading of a generation as programs
    over the disk of Store.v. *)

From S2P Require Import Prelude Bytes Text Cursor Analysis Schema Types Index Segment Store SegmentStore.
From Stdlib Require Import Ascii.

Record ManifestSegment := { manifest_segment_id : SegmentId; filename : string }.

#[export] Instance ManifestSegment_eq_dec : EqDecision ManifestSegment.
Proof. solve_decision. Defined.

Record IndexManifest := { generation : Z; segments : list ManifestSegment }.

#[export] Instance IndexManifest_eq_dec : EqDecision IndexManifest.
Proof. solve_decision. Defined.

Inductive ManifestErrorCode :=
| manifest_io_error | manifest_corruption | manifest_unsupported_version | manifest_resource_limit
| invalid_manifest | injected_failure.

#[export] Instance ManifestErrorCode_eq_dec : EqDecision ManifestErrorCode.
Proof. solve_decision. Defined.

Record ManifestError := { manifest_code : ManifestErrorCode; manifest_message : string }.

Definition manifest_fail (code : ManifestErrorCode) (message : string) : ManifestError :=
  {| manifest_code := code; manifest_message := message |}.

(** [ManifestPublishOptions]: whether to stop after the manifest. *)
Inductive ManifestFaultPoint := no_fault | after_manifest_publish.

Record OpenGeneration := {
  open_manifest : IndexManifest;
  open_readers : list SegmentReader
}.

Module ManifestStore.

Definition kManifestMagic : list byte := string_bytes "DSEMAN01".
Definition kCurrentMagic : list byte := string_bytes "DSECUR01".
Definition kMajor : Z := 1.
Definition kMinor : Z := 0.
Definition kMaximumManifestBytes : Z := 16 * 2 ^ 20.
Definition kMaximumSegments : Z := 1000000.

Notation corruption := (manifest_fail manifest_corruption).

(** ** The two files *)

Definition manifest_name (generation : Z) : string := "MANIFEST-" +:+ to_string_u generation.

(** [std::filesystem::path(name).is_absolute()] *)
Definition is_absolute (name : string) : bool :=
  match name with String c _ => bool_decide (c = "/"%char) | EmptyString => false end.

(** [name.find(c) != npos] *)
Fixpoint contains_char (c : ascii) (s : string) : bool :=
  match s with EmptyString => false | String a rest => bool_decide (a = c) || contains_char c rest end.

Definition plain_name (name : string) : bool :=
  negb (str_eqb name "") && negb (is_absolute name) && negb (contains_char "/"%char name).

Definition segment_name (name : string) : bool := plain_name name && negb (contains_char "\"%char name).

Definition encode_manifest_segment (segment : ManifestSegment) : list byte :=
  put_u64 (manifest_segment_id segment) ++ put_string (filename segment).

Definition encode_manifest (manifest : IndexManifest) : list byte :=
  let payload := segments manifest ≫= encode_manifest_segment in
  kManifestMagic ++ put_u16 kMajor ++ put_u16 kMinor ++ put_u64 (generation manifest) ++
  put_u64 (zlen (segments manifest)) ++ put_u32 (crc32c payload) ++ payload.

Definition encode_current (name : string) : list byte :=
  let payload := put_string name in kCurrentMagic ++ put_u32 (crc32c payload) ++ payload.

Notation truncated := (corruption "truncated manifest integer").

Definition read_text : reader ManifestError string :=
  read_string truncated (corruption "truncated manifest string") truncated None.

(** The sets [ids] and [names] of the loop. *)
Definition read_segment (seen : gset Z * gset string) : reader ManifestError (ManifestSegment * (gset Z * gset string)) :=
  let e := manifest_fail invalid_manifest "invalid or duplicate manifest segment" in
  '(id, name) ← read_or e
    (id ← read_int truncated 8; name ← read_text;
     _ ← read_ensure (negb (id =? 0) && segment_name name && negb (bool_decide (id ∈ seen.1)) &&
                      negb (bool_decide (name ∈ seen.2))) e;
     mret (id, name));
  mret ({| manifest_segment_id := id; filename := name |}, ({[id]} ∪ seen.1, {[name]} ∪ seen.2)).

Fixpoint read_segments (n : nat) (seen : gset Z * gset string) : reader ManifestError (list ManifestSegment) :=
  match n with
  | O => mret []
  | S n' =>
      '(segment, seen') ← read_segment seen;
      rest ← read_segments n' seen';
      mret (segment :: rest)
  end.

Definition read_manifest (bytes : list byte) : reader ManifestError IndexManifest :=
  '(major, minor, generation, count, checksum) ← read_or (corruption "truncated manifest header")
    (major ← read_int truncated 2; minor ← read_int truncated 2; generation ← read_int truncated 8;
     count ← read_int truncated 8; checksum ← read_int truncated 4;
     mret (major, minor, generation, count, checksum));
  _ ← read_ensure ((major =? kMajor) && negb (minor >? kMinor))
        (manifest_fail manifest_unsupported_version "unsupported manifest version");
  _ ← read_ensure (negb (generation =? 0) && negb (count =? 0))
        (manifest_fail invalid_manifest "manifest generation and segments must be nonzero");
  _ ← read_ensure (negb (count >? kMaximumSegments))
        (manifest_fail manifest_resource_limit "manifest segment limit exceeded");
  _ ← read_ensure (crc32c (drop 32 bytes) =? checksum) (corruption "manifest checksum mismatch");
  segments ← read_segments (Z.to_nat count) (∅, ∅);
  mret {| generation := generation; segments := segments |}.

Definition decode_manifest (bytes : list byte) : expected ManifestError IndexManifest :=
  if (zlen bytes <? 32) || negb (bool_decide (take 8 bytes = kManifestMagic))
  then Err (corruption "invalid manifest magic")
  else read_all (corruption "trailing manifest data") (read_manifest bytes) (drop 8 bytes).

Definition decode_current (bytes : list byte) : expected ManifestError string :=
  if (zlen bytes <? 20) || negb (bool_decide (take 8 bytes = kCurrentMagic))
  then Err (corruption "invalid CURRENT magic")
  else
    '(checksum, rest) ← map_err (fun _ => corruption "CURRENT checksum mismatch")
      (read_int truncated 4 (drop 8 bytes));
    _ ← ensure (crc32c (drop 12 bytes) =? checksum) (corruption "CURRENT checksum mismatch");
    name ← map_err (fun _ => corruption "invalid CURRENT target")
      (read_all (corruption "invalid CURRENT target") read_text rest);
    _ ← ensure (plain_name name) (corruption "invalid CURRENT target");
    Ok name.

(** ** The programs *)

Notation io_error := (manifest_fail manifest_io_error).

Definition durable_replace (temporary target : string) (bytes : list byte) : IO ManifestError unit :=
  _ ← call (io_error "cannot create metadata temporary file") (d_truncate temporary);
  _ ← call_write (io_error "cannot write metadata temporary file") temporary bytes;
  _ ← sync_file (io_error "cannot open file for fsync") (io_error "file fsync failed") temporary;
  _ ← call_rename (io_error "cannot publish metadata") temporary target;
  sync_directory (io_error "cannot open directory for fsync") (io_error "directory fsync failed").

Definition read_file (name : string) : IO ManifestError (list byte) :=
  read_checked (io_error "cannot stat metadata") (io_error "cannot read metadata")
    (fun size => ensure (size <=? kMaximumManifestBytes)
                   (manifest_fail manifest_resource_limit "metadata file limit exceeded")) name.

Definition load_current : IO ManifestError IndexManifest :=
  current_bytes ← read_file "CURRENT";
  name ← io_lift (decode_current current_bytes);
  manifest_bytes ← read_file name;
  io_lift (decode_manifest manifest_bytes).

(** One round of the loop of [publish]. *)
Definition check_segment (seen : gset Z * gset string) (segment : ManifestSegment)
    : IO ManifestError (gset Z * gset string) :=
  let id := manifest_segment_id segment in
  let name := filename segment in
  _ ← io_ensure (negb (id =? 0) && segment_name name && negb (bool_decide (id ∈ seen.1)) &&
                 negb (bool_decide (name ∈ seen.2)))
        (manifest_fail invalid_manifest "manifest contains invalid or duplicate segment");
  opened ← io_map_err (fun e => manifest_fail invalid_manifest
                                  ("manifest segment cannot be opened: " +:+ segment_message e))
             (open_segment name default_read_limits);
  _ ← io_ensure (SegmentReader.segment_id_ opened =? id)
        (manifest_fail invalid_manifest "manifest segment ID mismatch");
  mret ({[id]} ∪ seen.1, {[name]} ∪ seen.2).

Fixpoint check_segments (seen : gset Z * gset string) (l : list ManifestSegment) : IO ManifestError unit :=
  match l with
  | [] => mret tt
  | segment :: rest => seen' ← check_segment seen segment; check_segments seen' rest
  end.

(** The generation must grow. *)
Definition check_generation (manifest : IndexManifest) : IO ManifestError unit :=
  has_current ← file_exists (io_error "cannot inspect current generation") "CURRENT";
  if has_current : bool then
    current ← load_current;
    io_ensure (negb (generation manifest <=? generation current))
      (manifest_fail invalid_manifest "generation must increase monotonically")
  else mret tt.

Definition publish (manifest : IndexManifest) (fault_point : ManifestFaultPoint) : IO ManifestError unit :=
  _ ← io_ensure (negb (generation manifest =? 0) && negb (bool_decide (segments manifest = [])))
        (manifest_fail invalid_manifest "manifest generation and segments must be nonzero");
  _ ← check_generation manifest;
  _ ← check_segments (∅, ∅) (segments manifest);
  _ ← call (io_error "cannot create index directory") (fun d => d);
  let name := manifest_name (generation manifest) in
  _ ← durable_replace (temporary_name name) name (encode_manifest manifest);
  _ ← io_ensure (match fault_point with after_manifest_publish => false | no_fault => true end)
        (manifest_fail injected_failure "injected failure after manifest publication");
  durable_replace (temporary_name "CURRENT") "CURRENT" (encode_current name).

Definition open_one (limits : SegmentReadLimits) (segment : ManifestSegment) : IO ManifestError SegmentReader :=
  reader ← io_map_err (fun e => corruption ("cannot open manifest segment: " +:+ segment_message e))
             (open_segment (filename segment) limits);
  _ ← io_ensure (SegmentReader.segment_id_ reader =? manifest_segment_id segment)
        (corruption "manifest segment ID mismatch");
  mret reader.

Fixpoint open_each (limits : SegmentReadLimits) (l : list ManifestSegment) : IO ManifestError (list SegmentReader) :=
  match l with
  | [] => mret []
  | segment :: rest =>
      reader ← open_one limits segment; readers ← open_each limits rest; mret (reader :: readers)
  end.

Definition open_current (limits : SegmentReadLimits) : IO ManifestError OpenGeneration :=
  manifest ← load_current;
  readers ← open_each limits (segments manifest);
  mret {| open_manifest := manifest; open_readers := readers |}.

End ManifestStore.
