(* ===== verification/ManifestSpec.v ===== *)
(** * The manifest store: encodings

    The two metadata files are decoded exactly when they were encoded: what
    the decoders accept is the encoding of a valid manifest or name, and
    nothing else. *)

From S2P Require Import Prelude Bytes Text Cursor Analysis Schema Types Index Segment Store SegmentStore Manifest.
From Stdlib Require Import Ascii.
Import ManifestStore.

Definition segment_ok (s : ManifestSegment) : Prop :=
  1 <= manifest_segment_id s <= u64_max /\ segment_name (filename s) = true /\ is_u64 (zstrlen (filename s)).

Record manifest_ok (m : IndexManifest) : Prop := {
  mo_generation : 1 <= generation m <= u64_max;
  mo_count : 1 <= zlen (segments m) <= kMaximumSegments;
  mo_segments : Forall segment_ok (segments m);
  mo_ids : NoDup (manifest_segment_id <$> segments m);
  mo_names : NoDup (filename <$> segments m)
}.

Lemma read_text_Ok bs name rest : read_text bs = Ok (name, rest) <->
  is_u64 (zstrlen name) /\ bs = put_string name ++ rest.
Proof. unfold read_text. rewrite read_string_Ok. tauto. Qed.

Lemma read_segment_Ok seen bs s seen' rest : read_segment seen bs = Ok ((s, seen'), rest) <->
  segment_ok s /\ manifest_segment_id s ∉ seen.1 /\ filename s ∉ seen.2 /\
  seen' = ({[manifest_segment_id s]} ∪ seen.1, {[filename s]} ∪ seen.2) /\ bs = encode_manifest_segment s ++ rest.
Proof.
  unfold read_segment. rewrite reader_bind_Ok. setoid_rewrite read_or_Ok. split.
  - intros ([id name] & bs' & H & Hret). apply read_ret_Ok in Hret as [[= -> ->] ->].
    apply reader_bind_Ok in H as (id' & bs1 & [Hid ->]%read_int_Ok & H).
    apply reader_bind_Ok in H as (name' & bs2 & [Hname ->]%read_text_Ok & H).
    apply reader_bind_Ok in H as ([] & bs3 & [Hc ->]%read_ensure_Ok & H). apply read_ret_Ok in H as [[= -> ->] ->].
    rewrite !andb_true_iff in Hc. destruct Hc as (((Hz%negb_true_iff%Z.eqb_neq & Hs) & Hi%negb_true_iff%bool_decide_eq_false)
      & Hn%negb_true_iff%bool_decide_eq_false). cbn in Hid.
    unfold segment_ok, encode_manifest_segment. cbn [manifest_segment_id filename].
    split_and!; try done; unfold u64_max; lia.
  - destruct s as [id name]. unfold segment_ok, encode_manifest_segment. cbn [manifest_segment_id filename].
    intros ((Hid & Hs & Hu) & Hi & Hn & -> & ->). rewrite <- app_assoc. exists (id, name), rest.
    split; [|by apply read_ret_Ok]. apply reader_bind_Ok. exists id, (put_string name ++ rest).
    unfold u64_max in Hid. split; [apply read_int_Ok; split; [cbn; lia|done]|].
    apply reader_bind_Ok. exists name, rest. split; [by apply read_text_Ok|].
    apply reader_bind_Ok. exists tt, rest. split; [|by apply read_ret_Ok]. apply read_ensure_Ok. split; [|done].
    rewrite Hs, !bool_decide_eq_false_2 by done. destruct (Z.eqb_spec id 0); [lia|done].
Qed.

Lemma read_segments_Ok n : forall seen bs l rest, read_segments n seen bs = Ok (l, rest) <->
  length l = n /\ Forall segment_ok l /\ NoDup (manifest_segment_id <$> l) /\ NoDup (filename <$> l) /\
  (forall s, s ∈ l -> manifest_segment_id s ∉ seen.1 /\ filename s ∉ seen.2) /\
  bs = (l ≫= encode_manifest_segment) ++ rest.
Proof.
  induction n as [|n IH]; intros seen bs l rest; cbn [read_segments].
  - rewrite read_ret_Ok. split.
    + intros [-> ->]. split_and!; try done; try constructor; intros; by match goal with H : _ ∈ [] |- _ => apply not_elem_of_nil in H end.
    + intros (Hl & _ & _ & _ & _ & ->). apply nil_length_inv in Hl as ->. done.
  - rewrite reader_bind_Ok. split.
    + intros ([s seen'] & bs1 & (Hs & Hi & Hn & -> & ->)%read_segment_Ok & H).
      apply reader_bind_Ok in H as (l' & bs2 & (Hl & Hall & Hids & Hnames & Hfresh & ->)%IH & H).
      apply read_ret_Ok in H as [-> ->]. rewrite !fmap_cons, !NoDup_cons. cbn [length mbind list_bind]. split_and!.
      * by rewrite Hl.
      * by constructor.
      * intros (x & E & Hx)%list_elem_of_fmap. destruct (Hfresh x Hx) as [Hx1 _]. cbn in Hx1. set_solver.
      * done.
      * intros (x & E & Hx)%list_elem_of_fmap. destruct (Hfresh x Hx) as [_ Hx2]. cbn in Hx2. set_solver.
      * done.
      * intros x [->|Hx]%elem_of_cons; [done|]. destruct (Hfresh x Hx). cbn in *. set_solver.
      * by rewrite <- app_assoc.
    + intros (Hl & Hall & Hids & Hnames & Hfresh & ->). destruct l as [|s l]; [done|]. injection Hl as Hl.
      apply Forall_cons in Hall as [Hs Hall]. rewrite !fmap_cons, !NoDup_cons in *.
      destruct Hids as [Hi Hids], Hnames as [Hn Hnames]. destruct (Hfresh s) as [Hs1 Hs2]; [by left|].
      exists (s, ({[manifest_segment_id s]} ∪ seen.1, {[filename s]} ∪ seen.2)), ((l ≫= encode_manifest_segment) ++ rest).
      cbn [mbind list_bind]. change (list_bind _ _ encode_manifest_segment l) with (l ≫= encode_manifest_segment).
      split; [apply read_segment_Ok; by rewrite <- app_assoc|]. apply reader_bind_Ok. exists l, rest.
      split; [|by apply read_ret_Ok]. apply IH. split_and!; try done. intros x Hx. cbn.
      destruct (Hfresh x) as [Hx1 Hx2]; [by right|].
      assert (manifest_segment_id x <> manifest_segment_id s).
      { intros E. apply Hi. rewrite <- E. by apply list_elem_of_fmap_2. }
      assert (filename x <> filename s).
      { intros E. apply Hn. rewrite <- E. by apply list_elem_of_fmap_2. }
      set_solver.
Qed.

(** A prefix of known length can be cut off. *)
Lemma drop_put n (bs rest : list byte) : length bs = n -> drop n (bs ++ rest) = rest.
Proof. intros <-. apply drop_app_length. Qed.

Definition manifest_header (m : IndexManifest) (checksum : Z) : list byte :=
  put_u16 kMajor ++ put_u16 kMinor ++ put_u64 (generation m) ++ put_u64 (zlen (segments m)) ++ put_u32 checksum.

Lemma encode_manifest_parts m :
  encode_manifest m = kManifestMagic ++ manifest_header m (crc32c (segments m ≫= encode_manifest_segment)) ++
                      (segments m ≫= encode_manifest_segment).
Proof. unfold encode_manifest, manifest_header. by rewrite <- !app_assoc. Qed.

Lemma read_manifest_Ok bytes rest m : read_manifest bytes rest = Ok (m, []) <->
  manifest_ok m /\ is_u32 (crc32c (drop 32 bytes)) /\
  rest = manifest_header m (crc32c (drop 32 bytes)) ++ (segments m ≫= encode_manifest_segment).
Proof.
  unfold read_manifest. generalize (crc32c (drop 32 bytes)). intros crc. split.
  - intros H0. apply reader_bind_Ok in H0 as ([[[[major minor] gen] count] crc'] & bs5 & H1 & H0). apply read_or_Ok in H1.
    apply reader_bind_Ok in H1 as (? & bs1 & [Hmajor ->]%read_int_Ok & H1).
    apply reader_bind_Ok in H1 as (? & bs2 & [Hminor ->]%read_int_Ok & H1).
    apply reader_bind_Ok in H1 as (? & bs3 & [Hgen ->]%read_int_Ok & H1).
    apply reader_bind_Ok in H1 as (? & bs4 & [Hcount ->]%read_int_Ok & H1).
    apply reader_bind_Ok in H1 as (? & bs6 & [Hcrc ->]%read_int_Ok & H1).
    apply read_ret_Ok in H1 as [[= <- <- <- <- <-] ->].
    apply reader_bind_Ok in H0 as ([] & ? & [Hv ->]%read_ensure_Ok & H0).
    apply andb_prop in Hv as [->%Z.eqb_eq Hv]. rewrite Z.gtb_ltb, negb_true_iff, Z.ltb_ge in Hv.
    apply reader_bind_Ok in H0 as ([] & ? & [Hz ->]%read_ensure_Ok & H0).
    apply andb_prop in Hz as [Hg%negb_true_iff%Z.eqb_neq Hc%negb_true_iff%Z.eqb_neq].
    apply reader_bind_Ok in H0 as ([] & ? & [Hmax ->]%read_ensure_Ok & H0). rewrite Z.gtb_ltb, negb_true_iff, Z.ltb_ge in Hmax.
    apply reader_bind_Ok in H0 as ([] & ? & [->%Z.eqb_eq ->]%read_ensure_Ok & H0).
    apply reader_bind_Ok in H0 as (l & ? & (Hl & Hall & Hids & Hnames & _ & ->)%read_segments_Ok & H0).
    apply read_ret_Ok in H0 as [-> <-]. rewrite app_nil_r. cbn in Hminor, Hgen, Hcount, Hcrc.
    assert (zlen l = count) as Hcl by (unfold zlen; lia). assert (minor = 0) as -> by (unfold kMinor in Hv; lia).
    split_and!.
    + split; cbn [generation segments]; try assumption; [unfold u64_max|]; lia.
    + unfold is_u32, u32_max. lia.
    + unfold manifest_header. cbn [generation segments]. rewrite Hcl, <- !app_assoc. reflexivity.
  - intros ([Hg Hc Hs Hi Hn] & Hcrc & ->). destruct m as [gen l]. cbn [generation segments] in *.
    unfold u64_max, kMaximumSegments, is_u32, u32_max in *.
    assert (Hread : reads (read_segments (Z.to_nat (zlen l)) (∅, ∅)) (l ≫= encode_manifest_segment) l).
    { intros tail. apply read_segments_Ok. split_and!; try assumption; [unfold zlen; lia| |reflexivity].
      intros x _. cbn. split; apply not_elem_of_empty. }
    assert (Hheader : reads (E := ManifestError) (major ← read_int truncated 2; minor ← read_int truncated 2; generation ← read_int truncated 8;
       count ← read_int truncated 8; checksum ← read_int truncated 4; mret (major, minor, generation, count, checksum))
       (manifest_header {| generation := gen; segments := l |} crc) (kMajor, kMinor, gen, zlen l, crc)).
    { unfold manifest_header. cbn [generation segments].
      eapply reads_bind; [by apply reads_int|]. eapply reads_bind; [by apply reads_int|].
      eapply reads_bind; [apply reads_int; cbn; lia|]. eapply reads_bind; [apply reads_int; cbn; lia|].
      eapply reads_bind_nil; [apply reads_int; cbn; lia|]. apply reads_ret. }
    rewrite <- (app_nil_r (l ≫= encode_manifest_segment)), app_assoc.
    eapply reads_bind; [apply reads_or; exact Hheader|]. cbn beta iota.
    apply reads_ensure; [done|]. apply reads_ensure.
    { destruct (Z.eqb_spec gen 0); [lia|]. destruct (Z.eqb_spec (zlen l) 0); [lia|done]. }
    apply reads_ensure; [destruct (Z.gtb_spec (zlen l) 1000000); [lia|done]|].
    apply reads_ensure; [apply Z.eqb_refl|]. eapply reads_bind_nil; [exact Hread|]. apply reads_ret.
Qed.

Lemma drop_magic n (magic rest : list byte) k : length magic = k -> (k <= n)%nat ->
  drop n (magic ++ rest) = drop (n - k) rest.
Proof. intros <- Hn. by rewrite drop_app_ge. Qed.

Lemma drop_header m crc payload : drop 32 (kManifestMagic ++ manifest_header m crc ++ payload) = payload.
Proof. by rewrite (drop_magic 32 kManifestMagic _ 8), (drop_magic (32 - 8) (manifest_header m crc) _ 24) by (done || lia). Qed.

Lemma magic_split (magic bytes : list byte) : take (length magic) bytes = magic ->
  exists rest, bytes = magic ++ rest.
Proof. intros E. exists (drop (length magic) bytes). by rewrite <- E at 1; rewrite take_drop. Qed.

Lemma decode_manifest_Ok bytes m : decode_manifest bytes = Ok m <-> manifest_ok m /\ bytes = encode_manifest m.
Proof.
  unfold decode_manifest. rewrite encode_manifest_parts. split.
  - destruct (Z.ltb_spec (zlen bytes) 32); [done|]. destruct (bool_decide (take 8 bytes = kManifestMagic)) eqn:Em; [|done].
    apply bool_decide_eq_true in Em. apply (magic_split kManifestMagic) in Em as [rest ->]. cbn [orb negb].
    rewrite read_all_Ok, (drop_put 8 kManifestMagic rest) by done. intros (Hok & _ & E)%read_manifest_Ok.
    split; [done|]. rewrite E at 1. rewrite E, drop_header. done.
  - intros [Hok ->]. set (payload := segments m ≫= encode_manifest_segment).
    assert (zlen (kManifestMagic ++ manifest_header m (crc32c payload) ++ payload) = 32 + zlen payload) as ->.
    { rewrite !zlen_app. change (zlen kManifestMagic) with 8. change (zlen (manifest_header _ _)) with 24. lia. }
    pose proof (zlen_nonneg payload). destruct (Z.ltb_spec (32 + zlen payload) 32); [lia|].
    rewrite (take_app_length' kManifestMagic), bool_decide_eq_true_2 by done. cbn [orb negb].
    rewrite read_all_Ok, (drop_put 8 kManifestMagic) by done. apply read_manifest_Ok.
    rewrite drop_header. split_and!; [done|apply crc32c_range|done].
Qed.

Lemma decode_current_Ok bytes name : decode_current bytes = Ok name <->
  is_u64 (zstrlen name) /\ plain_name name = true /\ bytes = encode_current name.
Proof.
  unfold decode_current, encode_current.
  assert (H12 : forall crc payload, drop 12 (kCurrentMagic ++ put_u32 crc ++ payload) = payload).
  { intros crc payload. by rewrite (drop_magic 12 kCurrentMagic _ 8), (drop_magic (12 - 8) (put_u32 crc) _ 4) by (done || lia). }
  split.
  - destruct (Z.ltb_spec (zlen bytes) 20); [done|]. destruct (bool_decide (take 8 bytes = kCurrentMagic)) eqn:Em; [|done].
    apply bool_decide_eq_true in Em. apply (magic_split kCurrentMagic) in Em as [rest ->]. cbn [orb negb].
    rewrite (drop_put 8 kCurrentMagic rest) by done. intros H0.
    apply bind_Ok in H0 as ([crc payload] & [Hcrc ->]%map_err_Ok%read_int_Ok & H0). rewrite H12 in H0.
    apply bind_Ok in H0 as ([] & <-%ensure_Ok%Z.eqb_eq & H0).
    apply bind_Ok in H0 as (n & Hn%map_err_Ok & H0). apply read_all_Ok, read_text_Ok in Hn as [Hu ->].
    apply bind_Ok in H0 as ([] & Hp%ensure_Ok & [= <-]). rewrite app_nil_r. done.
  - intros (Hu & Hp & ->).
    assert (zlen (kCurrentMagic ++ put_u32 (crc32c (put_string name)) ++ put_string name) = 20 + zstrlen name) as ->.
    { unfold put_string. rewrite !zlen_app, zlen_string_bytes. change (zlen kCurrentMagic) with 8.
      change (zlen (put_u32 _)) with 4. change (zlen (put_u64 _)) with 8. lia. }
    pose proof (zstrlen_nonneg name). destruct (Z.ltb_spec (20 + zstrlen name) 20); [lia|].
    rewrite (take_app_length' kCurrentMagic), bool_decide_eq_true_2 by done. cbn [orb negb].
    rewrite H12, (drop_put 8 kCurrentMagic) by done.
    pose proof (crc32c_range (put_string name)) as Hcrc. unfold is_u32, u32_max in Hcrc.
    rewrite (proj2 (read_int_Ok truncated 4 _ (crc32c (put_string name)) (put_string name)))
      by (split; [change (2 ^ (Z.of_nat 4 * 8)) with 4294967296; lia|reflexivity]).
    cbn [map_err mbind expected_bind]. rewrite Z.eqb_refl. cbn [ensure mbind expected_bind].
    rewrite (proj2 (read_all_Ok _ read_text (put_string name) name)).
    2:{ apply read_text_Ok. by rewrite app_nil_r. }
    cbn [map_err mbind expected_bind]. by rewrite Hp.
Qed.

(** C33. The metadata decoders accept exactly what the encoders write: the
    encoding of a valid manifest, of a plain file name, and no other bytes. *)
Theorem metadata_bijection bytes :
  (forall m, decode_manifest bytes = Ok m <-> manifest_ok m /\ bytes = encode_manifest m) /\
  (forall name, decode_current bytes = Ok name <->
     is_u64 (zstrlen name) /\ plain_name name = true /\ bytes = encode_current name).
Proof. split; [intros m; apply decode_manifest_Ok|intros name; apply decode_current_Ok]. Qed.
