(* ===== verification/Durability.v ===== *)
(** * Durability: publishing a generation is atomic

    The programs of SegmentStore.v and Manifest.v against the triples of
    StoreSpec.v: which files are settled on the medium at every moment, hence
    what a crash or a failing call can leave behind. *)

From S2P Require Import Prelude Bytes Text Cursor Analysis Schema Types Index PlanSpec Segment Store StoreSpec SegmentStore Manifest ManifestSpec.
From Stdlib Require Import Ascii.
Import ManifestStore.

(** ** Syncing and replacing *)

Section programs.
Context {E : Type} (good : Files -> Prop).
#[local] Notation triple := (triple (safe good)).

(** [fsync] of a temporary file puts on the medium what a reader sees. *)
Lemma triple_sync_file (e1 e2 : E) P name bs : temporary name = true ->
  triple (fun d => held good P d /\ seen name (fun node => current node = bs) d)
    (sync_file e1 e2 name)
    (fun _ d => held good P d /\ seen name (eq (synced bs)) d) (fun _ _ => False).
Proof.
  intros Ht. unfold sync_file. eapply triple_bind.
  - apply triple_read with (post := fun _ d => held good P d /\ seen name (fun node => current node = bs) d).
    intros d [Hh (i & node & Hi & Hrest)]. rewrite Hi. split; [done|]. by exists i, node.
  - intros ?. cbn beta. apply triple_call. intros d [[Q Hinv] Hseen] _.
    assert (Hnew : inv good P Q (d_sync name d)) by by apply inv_on_file.
    split; [by eapply inv_safe|]. split; [by exists Q|].
    eapply seen_on_file; [exact Hseen|]. by intros node <-.
Qed.

Lemma triple_sync_directory (e1 e2 : E) P : 
  triple (held good P) (sync_directory e1 e2) (fun _ => inv good P []) (fun _ _ => False).
Proof.
  unfold sync_directory. eapply triple_bind.
  - apply triple_call with (post := fun _ => held good P). intros d H Hs. done.
  - intros ?. cbn beta. apply triple_call. intros d [Q H] _. apply inv_sync_dir in H. split; [by eapply inv_safe|done].
Qed.

End programs.

(** [durable_replace]: the target holds what it held, or the new bytes. *)
Lemma triple_durable_replace (good : Files -> Prop) P temp target bytes :
  temporary temp = true -> temporary target = false -> good (<[target := bytes]> P) ->
  triple (safe good) (held good P) (durable_replace temp target bytes)
    (fun _ => inv good (<[target := bytes]> P) []) (fun _ _ => False).
Proof.
  intros Htemp Htarget Hgood. unfold durable_replace.
  set (writing := fun (p : Inode -> Prop) d => held good P d /\ seen temp p d).
  eapply triple_bind with (mid := fun _ => writing (fun node => current node = [])).
  { apply triple_call. intros d [Q Hinv] _. destruct (inv_truncate good P Q d temp Htemp Hinv) as [H1 H2].
    split; [by eapply inv_safe|]. split; [by exists (P :: Q)|done]. }
  intros ?. eapply triple_bind with (mid := fun _ => writing (fun node => current node = bytes)).
  { apply triple_write.
    - intros d bs' [[Q Hinv] _] _ _. apply (inv_safe good P Q). by apply inv_on_file.
    - intros d [[Q Hinv] Hseen]. split; [exists Q; by apply inv_on_file|].
      eapply seen_on_file; [exact Hseen|]. by intros node ->. }
  intros ?. eapply triple_bind; [by apply triple_sync_file|]. intros ?. cbn beta.
  eapply triple_bind with (mid := fun _ => held good (<[target := bytes]> P)); [|intros ?; apply triple_sync_directory].
  apply triple_rename. intros d [[Q Hinv] Hseen] _. pose proof Hseen as (i & node & -> & _).
  pose proof (inv_rename good P Q d temp target bytes Htemp Htarget Hgood Hinv Hseen) as H.
  split; [by eapply inv_safe|by eexists].
Qed.

(** ** Reading what is held *)

Section reading.
Context (good : Files -> Prop) (P : Files).

Lemma triple_read_checked {E} (e1 e2 : E) check name bs : P !! name = Some bs ->
  triple (safe good) (held good P) (read_checked e1 e2 check name)
    (fun r d => held good P d /\ r = bs /\ check (zlen bs) = Ok tt) (fun e _ => check (zlen bs) = Err e).
Proof.
  intros Hn. unfold read_checked.
  eapply triple_bind with (mid := fun size d => held good P d /\ size = zlen bs).
  { apply triple_read. intros d Hd. by rewrite (held_content good P d name bs Hd Hn). }
  intros size. cbn beta. eapply triple_bind with (mid := fun _ d => held good P d /\ check (zlen bs) = Ok tt).
  { apply triple_lift. intros d [Hd ->]. by destruct (check (zlen bs)) as [[]|]. }
  intros []. cbn beta. apply triple_read. intros d [Hd Hc]. by rewrite (held_content good P d name bs Hd Hn).
Qed.

Lemma open_size bs limits r : SegmentReader.open bs limits = Ok r -> check_segment_size limits (zlen bs) = Ok tt.
Proof.
  unfold SegmentReader.open, check_segment_size. intros H0.
  apply bind_Ok in H0 as ([] & -> & H0). apply bind_Ok in H0 as ([] & -> & _). done.
Qed.

Lemma triple_open_segment name bs limits : P !! name = Some bs ->
  triple (safe good) (held good P) (open_segment name limits)
    (fun r d => held good P d /\ SegmentReader.open bs limits = Ok r)
    (fun _ _ => forall r, SegmentReader.open bs limits <> Ok r).
Proof.
  intros Hn. unfold open_segment. eapply triple_bind.
  { eapply triple_weaken; [by apply triple_read_checked|done| |].
    - intros a d H. exact H.
    - intros e d He r Hr%open_size. cbn beta in He. congruence. }
  intros bytes. cbn beta. apply triple_lift. intros d (Hd & -> & _).
  destruct (SegmentReader.open bs limits); [done|]. by intros r.
Qed.
End reading.

(** Without failing calls. *)
Lemma read_checked_quiet {E} (e1 e2 : E) check name d p bytes : content d name = Some bytes -> check (zlen bytes) = Ok tt ->
  read_checked e1 e2 check name (quiet d p) = (Ok bytes, quiet d p).
Proof.
  intros Hc Hk. unfold read_checked. erewrite bind_run by (apply read_run; by rewrite Hc).
  erewrite bind_run by (unfold io_lift; by rewrite Hk). by apply read_run.
Qed.

Lemma open_segment_quiet name limits d p bytes reader : content d name = Some bytes ->
  SegmentReader.open bytes limits = Ok reader -> open_segment name limits (quiet d p) = (Ok reader, quiet d p).
Proof.
  intros Hc Ho. unfold open_segment.
  erewrite bind_run by (apply read_checked_quiet; [exact Hc|by eapply open_size]). unfold io_lift. by rewrite Ho.
Qed.

(** A segment of a manifest is there and opens under its identifier. *)
Definition opens (P : Files) (s : ManifestSegment) : Prop :=
  exists bs r, P !! filename s = Some bs /\ SegmentReader.open bs default_read_limits = Ok r /\
    SegmentReader.segment_id_ r = manifest_segment_id s.

(** The files serve a manifest: CURRENT names it and its segments open. *)
Record serving (P : Files) (m : IndexManifest) : Prop := {
  sv_current : P !! "CURRENT" = Some (encode_current (manifest_name (generation m)));
  sv_manifest : P !! manifest_name (generation m) = Some (encode_manifest m);
  sv_ok : manifest_ok m;
  sv_size : zlen (encode_manifest m) <= kMaximumManifestBytes;
  sv_segments : Forall (opens P) (segments m)
}.

(** *** The names of manifests *)

Definition name_char (c : ascii) : bool :=
  negb (bool_decide (c = "/"%char)) && negb (bool_decide (c = "\"%char)) && negb (bool_decide (c = "."%char)).

Lemma digit_name_char c : is_digit c = true -> name_char c = true.
Proof. by destruct c as [[] [] [] [] [] [] [] []]; vm_compute. Qed.

Lemma forallb_contains p c s : str_forallb p s = true -> p c = false -> contains_char c s = false.
Proof.
  intros Hs Hc. induction s as [|a s IH]; [done|]. cbn in *. apply andb_prop in Hs as [Ha Hs].
  rewrite IH by done. rewrite bool_decide_eq_false_2; [done|]. intros ->. congruence.
Qed.

Lemma forallb_not_temporary p s : str_forallb p s = true -> p "."%char = false -> temporary s = false.
Proof.
  intros Hs Hc. unfold temporary. destruct (str_eqb _ ".tmp") eqn:E; [|done]. apply bool_decide_eq_true in E.
  rewrite <- (str_take_drop (String.length s - 4) s), E, str_forallb_app in Hs. cbn in Hs.
  rewrite Hc in Hs. by rewrite andb_false_r in Hs.
Qed.

Lemma decimal_loop_length fuel : forall n acc, zstrlen (decimal_loop fuel n acc) <= Z.of_nat fuel + zstrlen acc.
Proof.
  induction fuel as [|fuel IH]; intros n acc; cbn [decimal_loop]; [lia|].
  destruct (n / 10 =? 0); [|rewrite IH]; unfold zstrlen; cbn; lia.
Qed.

Lemma to_string_u_length n : is_u64 n -> zstrlen (to_string_u n) <= 65.
Proof.
  intros Hn. unfold to_string_u. rewrite decimal_loop_length. unfold is_u64, u64_max in Hn.
  assert (Z.log2 n <= 63); [|change (zstrlen "") with 0; lia].
  destruct (Z.eq_dec n 0) as [->|]; [done|]. apply Z.lt_succ_r, Z.log2_lt_pow2; cbn; lia.
Qed.

Lemma manifest_name_ok g : is_u64 g ->
  is_u64 (zstrlen (manifest_name g)) /\ plain_name (manifest_name g) = true /\
  temporary (manifest_name g) = false /\ zstrlen (manifest_name g) <= 74.
Proof.
  intros Hg. assert (Hc : str_forallb name_char (manifest_name g) = true).
  { unfold manifest_name. rewrite str_forallb_app.
    destruct (to_string_u_spec g) as (Hd & _ & _); [unfold is_u64 in Hg; lia|].
    by rewrite (str_forallb_impl is_digit name_char (to_string_u g) digit_name_char Hd). }
  assert (Hl : zstrlen (manifest_name g) <= 74).
  { unfold manifest_name. rewrite zstrlen_app. pose proof (to_string_u_length g Hg). change (zstrlen "MANIFEST-") with 9. lia. }
  pose proof (zstrlen_nonneg (manifest_name g)). split_and!.
  - unfold is_u64, u64_max. lia.
  - unfold plain_name. rewrite (forallb_contains name_char) by done. done.
  - by apply (forallb_not_temporary name_char).
  - done.
Qed.

Lemma manifest_name_inj g h : is_u64 g -> is_u64 h -> manifest_name g = manifest_name h -> g = h.
Proof.
  unfold is_u64, manifest_name. intros Hg Hh E. apply (to_string_u_inj g h); [lia..|].
  cbn in E. by injection E.
Qed.

Lemma decode_encode_current g : is_u64 g -> decode_current (encode_current (manifest_name g)) = Ok (manifest_name g).
Proof. intros Hg. destruct (manifest_name_ok g Hg) as (? & ? & _ & _). by apply decode_current_Ok. Qed.

Lemma current_fits g : is_u64 g -> zlen (encode_current (manifest_name g)) <= kMaximumManifestBytes.
Proof.
  intros Hg. destruct (manifest_name_ok g Hg) as (_ & _ & _ & Hl). unfold encode_current, put_string.
  rewrite !zlen_app, zlen_string_bytes. change (zlen kCurrentMagic) with 8.
  change (zlen (put_u32 _)) with 4. change (zlen (put_u64 _)) with 8. unfold kMaximumManifestBytes. lia.
Qed.

(** ** Loading *)

Section loading.
Context (good : Files -> Prop) (P : Files) (m : IndexManifest).
Context (Hserving : serving P m).

Lemma generation_u64 : is_u64 (generation m).
Proof using Hserving. pose proof (mo_generation _ (sv_ok _ _ Hserving)). unfold is_u64. lia. Qed.

Lemma triple_read_file name bs : P !! name = Some bs -> zlen bs <= kMaximumManifestBytes ->
  triple (safe good) (held good P) (read_file name) (fun r d => held good P d /\ r = bs) (fun _ _ => False).
Proof using Type.
  intros Hn Hl. unfold read_file. eapply triple_weaken; [by apply triple_read_checked|done| |].
  - by intros a d (H & -> & _).
  - intros e d. cbn beta. destruct (Z.leb_spec (zlen bs) kMaximumManifestBytes); [done|lia].
Qed.

Lemma triple_load_current :
  triple (safe good) (held good P) load_current (fun r d => held good P d /\ r = m) (fun _ _ => False).
Proof using Hserving.
  pose proof generation_u64 as Hg. unfold load_current.
  eapply triple_bind; [by apply triple_read_file; [apply Hserving|apply current_fits]|]. intros ?. cbn beta.
  eapply triple_bind with (mid := fun name d => held good P d /\ name = manifest_name (generation m)).
  { apply triple_lift. intros d [Hd ->]. by rewrite decode_encode_current. }
  intros name. cbn beta. apply triple_given. intros ->.
  eapply triple_bind; [apply triple_read_file; apply Hserving|]. intros ?. cbn beta.
  apply triple_lift. intros d' [Hd' ->]. pose proof (sv_ok _ _ Hserving) as Hok.
  by rewrite (proj2 (decode_manifest_Ok (encode_manifest m) m) (conj Hok eq_refl)).
Qed.

Lemma triple_open_each l : Forall (opens P) l ->
  triple (safe good) (held good P) (open_each default_read_limits l) (fun _ => held good P) (fun _ _ => False).
Proof using Type.
  induction 1 as [|s l (bs & r & Hb & Hr & Hid) _ IH]; cbn [open_each]; [by apply triple_ret|].
  eapply triple_bind with (mid := fun _ => held good P).
  - unfold open_one. eapply triple_bind with (mid := fun r' d => held good P d /\ r' = r).
    { eapply triple_map_err with (err := fun _ _ => False); [|done].
      eapply triple_weaken; [by apply triple_open_segment|done| |].
      - intros a d [Hd Ha]. split; [done|congruence].
      - intros e d H. by apply (H r). }
    intros r'. cbn beta. eapply triple_bind with (mid := fun _ => held good P); [|intros ?; by apply triple_ret].
    apply triple_lift. intros d [Hd ->]. by rewrite Hid, Z.eqb_refl.
  - intros ?. eapply triple_bind; [apply IH|]. intros ?. by apply triple_ret.
Qed.

Lemma triple_open_current :
  triple (safe good) (held good P) (open_current default_read_limits)
    (fun o d => open_manifest o = m) (fun _ _ => False).
Proof using Hserving.
  unfold open_current. eapply triple_bind; [apply triple_load_current|]. intros m'. cbn beta.
  apply triple_given. intros ->.
  eapply triple_bind; [apply triple_open_each; apply Hserving|]. intros ?. by apply triple_ret.
Qed.
End loading.

(** ** Checking the segments of a new manifest *)

(** What the loop of [publish] establishes, given what it has seen. *)
Record checked (P : Files) (seen : gset Z * gset string) (l : list ManifestSegment) : Prop := {
  ck_opens : Forall (opens P) l;
  ck_names : Forall (fun s => manifest_segment_id s <> 0 /\ segment_name (filename s) = true) l;
  ck_ids_nodup : NoDup (manifest_segment_id <$> l);
  ck_names_nodup : NoDup (filename <$> l);
  ck_fresh : Forall (fun s => manifest_segment_id s ∉ seen.1 /\ filename s ∉ seen.2) l
}.

Definition fresh_segment (P : Files) (seen : gset Z * gset string) (s : ManifestSegment) : Prop :=
  opens P s /\ (manifest_segment_id s <> 0 /\ segment_name (filename s) = true) /\
  manifest_segment_id s ∉ seen.1 /\ filename s ∉ seen.2.

Lemma checked_cons P seen s l : checked P seen (s :: l) <->
  fresh_segment P seen s /\ checked P ({[manifest_segment_id s]} ∪ seen.1, {[filename s]} ∪ seen.2) l.
Proof.
  unfold fresh_segment. split.
  - intros [Ho Hn Hi Hf Hs]. rewrite fmap_cons in Hi. rewrite fmap_cons in Hf.
    apply Forall_cons in Ho as [? ?], Hn as [? ?], Hs as [[??] Hs]. apply NoDup_cons in Hi as [Hi ?], Hf as [Hf ?].
    split; [done|]. split; [done..|]. rewrite Forall_forall in Hs |- *. intros t Ht. destruct (Hs t Ht) as [??]. cbn.
    rewrite !elem_of_union, !elem_of_singleton. split.
    + intros [E|]; [|done]. apply Hi. rewrite <- E. by apply list_elem_of_fmap_2.
    + intros [E|]; [|done]. apply Hf. rewrite <- E. by apply list_elem_of_fmap_2.
  - intros [(? & ? & ?) [Ho Hn Hi Hf Hs]]. rewrite Forall_forall in Hs. cbn in Hs.
    setoid_rewrite elem_of_union in Hs. setoid_rewrite elem_of_singleton in Hs.
    split; rewrite ?fmap_cons; try (by constructor).
    + constructor; [|done]. intros (t & E & Ht)%list_elem_of_fmap. destruct (Hs t Ht). intuition.
    + constructor; [|done]. intros (t & E & Ht)%list_elem_of_fmap. destruct (Hs t Ht). intuition.
    + constructor; [done|]. rewrite Forall_forall. intros t Ht. destruct (Hs t Ht). intuition.
Qed.

Section checking.
Context (good : Files -> Prop) (P : Files).

Lemma triple_check_segment seen s : is_Some (P !! filename s) ->
  triple (safe good) (held good P) (check_segment seen s)
    (fun seen' d => held good P d /\ fresh_segment P seen s /\
       seen' = ({[manifest_segment_id s]} ∪ seen.1, {[filename s]} ∪ seen.2))
    (fun _ _ => ~ fresh_segment P seen s).
Proof.
  intros [bs Hb]. unfold check_segment, fresh_segment.
  eapply triple_bind with (mid := fun _ d => held good P d /\ (manifest_segment_id s <> 0 /\
    segment_name (filename s) = true) /\ manifest_segment_id s ∉ seen.1 /\ filename s ∉ seen.2).
  { apply triple_lift. intros d Hd. destruct (Z.eqb_spec (manifest_segment_id s) 0); [cbn; tauto|].
    destruct (segment_name (filename s)); [|cbn; intros (_ & [_ ?] & _); done].
    case_bool_decide; [cbn; tauto|]. case_bool_decide; cbn; tauto. }
  intros ?. cbn beta. apply triple_given. intros Hfresh.
  eapply triple_bind with (mid := fun r d => held good P d /\ SegmentReader.open bs default_read_limits = Ok r).
  { eapply triple_map_err; [by apply triple_open_segment|]. cbn. intros _ _ H ((bs' & r & Hb' & Hr & _) & _).
    rewrite Hb in Hb'. injection Hb' as <-. by apply (H r). }
  intros r. cbn beta. apply triple_given. intros Hr.
  eapply triple_bind with (mid := fun _ d => held good P d /\ SegmentReader.segment_id_ r = manifest_segment_id s).
  { apply triple_lift. intros d Hd. destruct (Z.eqb_spec (SegmentReader.segment_id_ r) (manifest_segment_id s)) as [|Hne];
      [done|]. cbn. intros ((bs' & r' & Hb' & Hr' & Hid) & _). rewrite Hb in Hb'. injection Hb' as <-. congruence. }
  intros ?. cbn beta. apply triple_given. intros Hid. apply triple_ret. intros d Hd.
  split; [done|]. split; [|done]. split; [|done]. by exists bs, r.
Qed.

Lemma triple_check_segments l : forall seen, Forall (fun s => is_Some (P !! filename s)) l ->
  triple (safe good) (held good P) (check_segments seen l)
    (fun _ d => held good P d /\ checked P seen l) (fun _ _ => ~ checked P seen l).
Proof.
  induction l as [|s l IH]; intros seen Hl; cbn [check_segments].
  { apply triple_ret. intros d Hd. split; [done|]. by split; try constructor. }
  apply Forall_cons in Hl as [Hs Hl]. eapply triple_bind.
  { eapply triple_weaken; [by apply triple_check_segment|done|intros a d H; exact H|].
    cbn. intros _ _ H [? _]%checked_cons. done. }
  intros seen'. cbn beta. apply triple_given. intros [Hf ->].
  eapply triple_weaken; [by apply IH|done| |].
  - intros a d [Hd Hc]. split; [done|]. by apply checked_cons.
  - cbn. intros _ _ H [_ ?]%checked_cons. done.
Qed.
End checking.

(** ** Publishing *)

(** The sizes of a manifest that the types and the limits of [load_current]
    allow; [publish] itself does not check the limits. *)
Record manifest_fits (m : IndexManifest) : Prop := {
  mf_generation : is_u64 (generation m);
  mf_count : zlen (segments m) <= kMaximumSegments;
  mf_segments : Forall (fun s => is_u64 (manifest_segment_id s) /\ is_u64 (zstrlen (filename s))) (segments m);
  mf_size : zlen (encode_manifest m) <= kMaximumManifestBytes
}.

(** What [publish] demands of the new manifest. *)
Record acceptable (P : Files) (old new : IndexManifest) : Prop := {
  ac_nonempty : segments new <> [];
  ac_grows : generation old < generation new;
  ac_checked : checked P (∅, ∅) (segments new)
}.

Lemma acceptable_ok P old new : 0 <= generation old -> manifest_fits new -> acceptable P old new -> manifest_ok new.
Proof.
  intros Hold [Hg Hc Hs _] [Hne Hlt [_ Hn Hi Hf _]]. unfold is_u64 in *. split; try done; [lia| |].
  - destruct (segments new); [done|]. rewrite zlen_cons in *. pose proof (zlen_nonneg l). lia.
  - rewrite Forall_forall in Hs, Hn |- *. intros s Hin. destruct (Hs s Hin), (Hn s Hin). unfold segment_ok, is_u64 in *.
    split; [lia|done].
Qed.

Lemma current_not_segment n limits r : SegmentReader.open (encode_current n) limits <> Ok r.
Proof.
  unfold SegmentReader.open. intros H0. apply bind_Ok in H0 as (_ & _ & H0). apply bind_Ok in H0 as (_ & _ & H0).
  apply bind_Ok in H0 as ([] & E%ensure_Ok & _). unfold encode_current in E.
  rewrite (take_app_length' kCurrentMagic) in E by done. done.
Qed.

Lemma opens_insert P n bs s : opens P s -> filename s <> n -> opens (<[n := bs]> P) s.
Proof. intros (b & r & Hb & H) Hne. exists b, r. by rewrite lookup_insert_ne. Qed.

Lemma opens_not_current P s m : serving P m -> opens P s -> filename s <> "CURRENT".
Proof.
  intros Hm (b & r & Hb & Hr & _) E. rewrite E, (sv_current _ _ Hm) in Hb. injection Hb as <-.
  by apply current_not_segment in Hr.
Qed.

Lemma opens_not_missing P s n : P !! n = None -> opens P s -> filename s <> n.
Proof. intros Hn (b & r & Hb & _) E. congruence. Qed.

Section publish.
Context (P : Files) (old new : IndexManifest).
Context (Hold : serving P old) (Hfits : manifest_fits new).
Context (Hmissing : P !! manifest_name (generation new) = None).

Definition published (P' : Files) : Prop := serving P' old \/ serving P' new.

(** The files after the first and after the second replacement. *)
Definition with_manifest : Files := <[manifest_name (generation new) := encode_manifest new]> P.
Definition with_current : Files :=
  <["CURRENT" := encode_current (manifest_name (generation new))]> with_manifest.

Lemma published_manifest : serving with_manifest old.
Proof using Hold Hmissing.
  pose proof Hold as [Hc Hm Hok Hsz Hs]. unfold with_manifest. split; try done.
  - rewrite lookup_insert_ne; [done|]. intros E. rewrite E in Hmissing. congruence.
  - rewrite lookup_insert_ne; [done|]. intros E. rewrite E in Hmissing. congruence.
  - eapply Forall_impl; [exact Hs|]. intros s Ho. apply opens_insert; [done|by eapply opens_not_missing].
Qed.

Lemma published_current : acceptable P old new -> serving with_current new.
Proof using Hold Hfits Hmissing.
  intros Hacc. unfold with_current, with_manifest.
  assert (Hne : manifest_name (generation new) <> "CURRENT") by done. split.
  - by rewrite lookup_insert_eq.
  - by rewrite lookup_insert_ne, lookup_insert_eq.
  - apply (acceptable_ok P old); try done. pose proof (mo_generation _ (sv_ok _ _ Hold)). lia.
  - apply Hfits.
  - eapply Forall_impl; [apply (ck_opens _ _ _ (ac_checked _ _ _ Hacc))|]. intros s Ho.
    apply opens_insert; [|by eapply opens_not_current].
    apply opens_insert; [done|by eapply opens_not_missing].
Qed.

Lemma temporary_temporary_name n : temporary (temporary_name n) = true.
Proof using Type.
  unfold temporary, temporary_name.
  assert (String.length (n +:+ ".tmp") = String.length n + String.length ".tmp")%nat as ->.
  { pose proof (zstrlen_app n ".tmp"). unfold zstrlen in *. lia. }
  change (String.length ".tmp") with 4%nat.
  rewrite Nat.add_sub, str_drop_app. unfold str_eqb. rewrite bool_decide_eq_true_2 by done.
  apply Nat.leb_le. lia.
Qed.

Lemma triple_check_generation :
  triple (safe published) (held published P) (check_generation new)
    (fun _ d => held published P d /\ generation old < generation new)
    (fun _ _ => ~ generation old < generation new).
Proof using Hold.
  unfold check_generation. eapply triple_bind with (mid := fun b d => held published P d /\ b = true).
  { apply triple_read. intros d Hd. split; [done|]. apply bool_decide_eq_true_2.
    pose proof (held_content _ _ _ _ _ Hd (sv_current _ _ Hold)) as Hc. unfold content in Hc.
    destruct (dir d !! "CURRENT"); [done|discriminate]. }
  intros b. cbn beta. apply triple_given. intros ->. cbn iota.
  eapply triple_bind.
  { eapply triple_weaken; [by apply (triple_load_current published P old)|done|intros m d H; exact H|done]. }
  intros m. cbn beta. apply triple_given. intros ->. apply triple_lift. intros d Hd.
  destruct (Z.leb_spec (generation new) (generation old)); cbn; [lia|by split].
Qed.

Lemma triple_publish fault : Forall (fun s => is_Some (P !! filename s)) (segments new) ->
  triple (safe published) (held published P) (publish new fault)
    (fun _ d => held published with_current d /\ inv published with_current [] d /\ acceptable P old new)
    (fun _ _ => fault = after_manifest_publish \/ ~ acceptable P old new).
Proof using Hold Hfits Hmissing.
  intros Hpresent. unfold publish.
  assert (Hu : is_u64 (generation new)) by apply Hfits.
  destruct (manifest_name_ok _ Hu) as (_ & _ & Hnt & _).
  eapply triple_bind with (mid := fun _ d => held published P d /\ segments new <> []).
  { apply triple_lift. intros d Hd. case_bool_decide; [rewrite andb_false_r; cbn; right; by intros []|].
    destruct (Z.eqb_spec (generation new) 0) as [E|]; [|done]. cbn. right. intros [_ Hlt _].
    pose proof (mo_generation _ (sv_ok _ _ Hold)). lia. }
  intros ?. cbn beta. apply triple_given. intros Hne.
  eapply triple_bind.
  { eapply triple_weaken; [apply triple_check_generation|done|intros m d H; exact H|].
    cbn. intros _ _ H. right. by intros []. }
  intros ?. cbn beta. apply triple_given. intros Hlt.
  eapply triple_bind.
  { eapply triple_weaken; [by apply triple_check_segments|done|intros m d H; exact H|].
    cbn. intros _ _ H. right. by intros []. }
  intros ?. cbn beta. apply triple_given. intros Hck. assert (Hacc : acceptable P old new) by done.
  eapply triple_bind with (mid := fun _ => held published P); [by apply triple_call|]. intros ?. cbn beta.
  eapply triple_bind.
  { eapply triple_weaken; [apply (triple_durable_replace published P)| | |].
    - apply temporary_temporary_name.
    - done.
    - left. apply published_manifest.
    - done.
    - intros ? d H. exact (ex_intro _ [] H : held published with_manifest d).
    - done. }
  intros ?. cbn beta. eapply triple_bind with (mid := fun _ => held published with_manifest).
  { apply triple_lift. intros d Hd. destruct fault; [done|]. by left. }
  intros ?. cbn beta. eapply triple_weaken; [apply (triple_durable_replace published with_manifest)|done| |done].
  - by apply temporary_temporary_name.
  - done.
  - right. by apply published_current.
  - intros ? d H. split_and!; [by exists []|done|done].
Qed.
End publish.

(** ** The theorem *)

(** The disk holds the files of [P], all of them on the medium. *)
Definition stored (P : Files) (d : Disk) : Prop := disk_ok d /\ lasting P /\ holds d P [].

(** Reopening the index without failures gives this manifest, every segment of
    it included. *)
Definition serves (d : Disk) (m : IndexManifest) : Prop :=
  exists o, (open_current default_read_limits (world d [])).1 = Ok o /\ open_manifest o = m.

Lemma held_serves (good : Files -> Prop) P m d : held good P d -> serving P m -> serves d m.
Proof.
  intros Hd Hm. pose proof (triple_open_current good P m Hm (world d []) Hd) as H.
  specialize (H (held_safe _ _ _ Hd)). cbn [passed world] in H.
  specialize (H ltac:(constructor; [by apply (held_safe good P)|done])). unfold serves.
  destruct (open_current default_read_limits (world d [])) as [[o|e] w']; cbn; destruct H as (_ & _ & _ & H).
  - by exists o.
  - destruct H as [H|[]]. destruct H. by constructor.
Qed.

(** C12. Publication is atomic and durable.  Whatever calls fail, a crash at any
    moment leaves an index that reopens with the old manifest or with the new
    one; once [publish] has returned without error, with the new one; and
    without failing calls it returns without error exactly when the new
    manifest is acceptable. *)
Theorem publish_atomic (P : Files) (old new : IndexManifest) (d : Disk) (calls : list (option nat))
    (fault : ManifestFaultPoint) :
  stored P d -> serving P old -> manifest_fits new ->
  P !! manifest_name (generation new) = None ->
  Forall (fun s => is_Some (P !! filename s)) (segments new) ->
  let '(r, w) := publish new fault (world d calls) in
  (forall moment after, moment ∈ disk w :: passed w -> crash moment after -> serves after old \/ serves after new) /\
  (r = Ok tt -> serves (disk w) new /\ forall after, crash (disk w) after -> serves after new) /\
  (Forall (eq None) calls -> fault = no_fault -> (r = Ok tt <-> acceptable P old new)).
Proof.
  intros (Hok & Hl & Hh) Hold Hfits Hmissing Hpresent.
  set (good := published old new).
  assert (Hinv : inv good P [] d) by (split; [done|done|done|apply Forall_nil_2|left; exact Hold|apply Forall_nil_2]).
  pose proof (triple_publish P old new Hold Hfits Hmissing fault Hpresent (world d calls)) as H.
  specialize (H (ex_intro _ [] Hinv) (inv_safe _ _ _ _ Hinv)). cbn [passed disk world] in H.
  specialize (H ltac:(constructor; [by eapply inv_safe|done])).
  destruct (publish new fault (world d calls)) as [r w]. destruct H as (Hs & Hall & Hclean & Hr). split_and!.
  - intros moment after Hm C. assert (safe good moment) as Hsm.
    { apply elem_of_cons in Hm as [->|Hm]; [done|]. rewrite Forall_forall in Hall. by apply Hall. }
    destruct (safe_crash _ _ _ Hsm C) as (P' & [Hg|Hg] & Hi); [left|right];
      (eapply held_serves; [by exists []|exact Hg]).
  - intros ->. destruct Hr as (Hheld & Hi & Hacc).
    pose proof (published_current P old new Hold Hfits Hmissing Hacc) as Hserv.
    split; [by eapply held_serves|]. intros after C.
    destruct (crash_holds _ _ _ _ (inv_ok _ _ _ _ Hi) (inv_holds _ _ _ _ Hi) C) as (Hok' & P' & ->%list_elem_of_singleton & Hh').
    apply (held_serves good (with_current P new) new); [|done]. exists [].
      split; [done|done|apply Hi|by constructor|by right|by constructor].
  - intros Hcl ->. split.
    + intros ->. by destruct Hr as (_ & _ & ?).
    + intros Hacc. destruct r as [[]|e]; [done|]. exfalso. destruct Hr as [Hr|[Hr|Hr]]; [|done|done].
      by apply Hr.
Qed.

(** ** Writing a segment *)

Lemma triple_cleanup {E A} (good : Files -> Prop) name (pre : Disk -> Prop) (m : IO E A) post (err : E -> Prop) :
  temporary name = true -> triple (safe good) pre m post (fun e _ => err e) ->
  triple (safe good) pre (io_on_error m (cleanup name)) post (fun e _ => err e).
Proof.
  intros Ht H w Hp Hs Hall. specialize (H w Hp Hs Hall). unfold io_on_error.
  destruct (m w) as [[a|e] w']; [done|]. destruct H as (Hs' & Hall' & Hc & Hr).
  assert (Hclean : triple (safe good) (safe good) (cleanup name : IO E unit) (fun _ _ => True) (fun _ _ => True)).
  { apply triple_ignore with (post := fun _ _ => True) (err := fun _ _ => True); [|done].
    apply triple_call. intros d _ (P & Q & Hi). split; [|done]. by eapply inv_safe, inv_remove. }
  specialize (Hclean w' Hs' Hs' Hall'). destruct (cleanup name w') as [? w'']. cbn.
  destruct Hclean as (? & ? & ? & _). split_and!; auto. 
Qed.

Section write_segment.
Context (P : Files) (name : string) (snapshot : IndexSnapshot) (options : SegmentWriteOptions).
Notation bytes := (encode_segment snapshot options).
Context (Hname : temporary name = false).

Definition written (P' : Files) : Prop := P' = P \/ P' = <[name := bytes]> P.

(** Why a write is refused: no name, no identifier, or bytes that do not open. *)
Definition writable : Prop :=
  name <> "" /\ write_segment_id options <> 0 /\ exists r, SegmentReader.open bytes default_read_limits = Ok r.

Lemma triple_reopen temp limits : temporary temp = true ->
  let pre d := held written P d /\ seen temp (eq (synced bytes)) d in
  triple (safe written) pre (open_segment temp limits)
    (fun r d => pre d /\ SegmentReader.open bytes limits = Ok r)
    (fun _ _ => forall r, SegmentReader.open bytes limits <> Ok r).
Proof using Type.
  intros Ht pre. unfold open_segment, read_checked.
  assert (Hc : forall d, pre d -> content d temp = Some bytes).
  { intros d (_ & i & node & Hi & Hn & <-). unfold content. rewrite Hi. cbn [mbind option_bind]. by rewrite Hn. }
  eapply triple_bind with (mid := fun bs d => pre d /\ bs = bytes).
  - eapply triple_bind with (mid := fun size d => pre d /\ size = zlen bytes).
    { apply triple_read. intros d Hd. by rewrite (Hc d Hd). }
    intros size. cbn beta. apply triple_given. intros ->.
    eapply triple_bind with (mid := fun _ => pre).
    { apply triple_lift. intros d Hd. destruct (check_segment_size limits (zlen bytes)) as [[]|] eqn:E; [done|].
      intros r Hr%open_size. congruence. }
    intros []. cbn beta. apply triple_read. intros d Hd. by rewrite (Hc d Hd).
  - intros bs. cbn beta. apply triple_given. intros ->. apply triple_lift. intros d Hd.
    destruct (SegmentReader.open bytes limits); [done|]. by intros r.
Qed.

Lemma triple_write_segment :
  triple (safe written) (held written P) (write_segment name snapshot options)
    (fun _ d => inv written (<[name := bytes]> P) [] d /\ writable) (fun _ _ => ~ writable).
Proof using Hname.
  unfold write_segment. set (temp := temporary_name name).
  assert (Ht : temporary temp = true) by apply temporary_temporary_name.
  set (writing := fun (p : Inode -> Prop) d => held written P d /\ seen temp p d).
  set (done_writing := writing (eq (synced bytes))).
  eapply triple_bind with (mid := fun _ d => held written P d /\ name <> "" /\ write_segment_id options <> 0).
  { apply triple_lift. intros d Hd. unfold str_eqb. case_bool_decide; [cbn; by intros []|].
    destruct (Z.eqb_spec (write_segment_id options) 0); [cbn; by intros (_ & ? & _)|done]. }
  intros ?. cbn beta. apply triple_given. intros [Hne Hid].
  eapply triple_bind with (mid := fun _ => writing (fun node => current node = [])).
  { apply triple_call. intros d [Q Hinv] _. destruct (inv_truncate written P Q d temp Ht Hinv) as [H1 H2].
    split; [by eapply inv_safe|]. split; [by exists (P :: Q)|done]. }
  intros ?. cbn beta. eapply triple_bind with (mid := fun _ => writing (fun node => current node = bytes)).
  { apply triple_cleanup; [done|]. apply triple_write.
    - intros d bs' [[Q Hinv] _] _ _. apply (inv_safe written P Q). by apply inv_on_file.
    - intros d [[Q Hinv] Hseen]. split; [exists Q; by apply inv_on_file|].
      eapply seen_on_file; [exact Hseen|]. by intros node ->. }
  intros ?. cbn beta. eapply triple_bind with (mid := fun _ => done_writing).
  { apply triple_cleanup; [done|]. eapply triple_weaken; [by apply triple_sync_file|done|done|done]. }
  intros ?. cbn beta. eapply triple_bind with (mid := fun r d => done_writing d /\ SegmentReader.open bytes default_read_limits = Ok r).
  { apply triple_cleanup; [done|]. eapply triple_map_err; [by apply triple_reopen|].
    cbn beta. intros _ _ H (_ & _ & r & Hr). exact (H r Hr). }
  intros r. cbn beta. apply triple_given. intros Hr. assert (Hw : writable) by (split_and!; eauto).
  eapply triple_bind with (mid := fun _ => held written (<[name := bytes]> P)).
  { apply triple_cleanup; [done|]. apply triple_rename. intros d [[Q Hinv] Hseen] _.
    pose proof Hseen as (i & node & -> & _).
    pose proof (inv_rename written P Q d temp name bytes Ht Hname (or_intror eq_refl) Hinv Hseen) as H.
    split; [by eapply inv_safe|by eexists]. }
  intros ?. cbn beta. eapply triple_weaken; [by apply triple_sync_directory|done|by intros ? d H|done].
Qed.
End write_segment.

(** Writing a segment file touches no other settled file: whatever calls
    fail, a crash at any moment leaves the files as they were or with the whole
    segment under its name; once [write_segment] has returned without error
    the segment is there and opens; without failing calls it returns without
    error exactly when the name and identifier are given and the encoding
    opens. *)
Theorem write_segment_durable (P : Files) (name : string) (snapshot : IndexSnapshot) (options : SegmentWriteOptions)
    (d : Disk) (calls : list (option nat)) :
  stored P d -> temporary name = false ->
  let bytes := encode_segment snapshot options in
  let '(r, w) := write_segment name snapshot options (world d calls) in
  (forall moment after, moment ∈ disk w :: passed w -> crash moment after ->
     stored P after \/ stored (<[name := bytes]> P) after) /\
  (r = Ok tt -> (forall after, crash (disk w) after -> stored (<[name := bytes]> P) after) /\
     exists reader, SegmentReader.open bytes default_read_limits = Ok reader) /\
  (Forall (eq None) calls -> (r = Ok tt <-> writable name snapshot options)).
Proof.
  intros (Hok & Hl & Hh) Hname bytes. set (good := written P name snapshot options).
  assert (Hinv : inv good P [] d) by (split; [done..|by constructor|by left|by constructor]).
  pose proof (triple_write_segment P name snapshot options Hname (world d calls)
    (ex_intro _ [] Hinv) (inv_safe _ _ _ _ Hinv)) as H.
  specialize (H ltac:(constructor; [by eapply inv_safe|done])).
  destruct (write_segment name snapshot options (world d calls)) as [r w].
  destruct H as (Hs & Hall & Hclean & Hr). split_and!.
  - intros moment after Hm C. assert (safe good moment) as Hsm.
    { apply elem_of_cons in Hm as [->|Hm]; [done|]. rewrite Forall_forall in Hall. by apply Hall. }
    destruct (safe_crash _ _ _ Hsm C) as (P' & [->| ->] & [? ? ? _ _ _]); [left|right]; done.
  - intros ->. destruct Hr as ([Hok' Hh' Hl' _ _ _] & _ & _ & Hopen). split; [|done]. intros after C.
    destruct (crash_holds _ _ _ _ Hok' Hh' C) as (? & P' & ->%list_elem_of_singleton & ?). done.
  - intros Hcl. split; [intros ->; apply Hr|]. intros Hw. destruct r as [[]|e]; [done|].
    destruct Hr as [Hr|Hr]; [exfalso; exact (Hr Hcl)|done].
Qed.

(** ** Samples *)

(** An empty disk after the durable replacement of some files. *)
Fixpoint setup (files : list (string * list byte)) : IO ManifestError unit :=
  match files with
  | [] => mret tt
  | (name, bs) :: rest => _ ← durable_replace (temporary_name name) name bs; setup rest
  end.

Definition disk_with (files : list (string * list byte)) : Disk := disk (setup files (world empty_disk [])).2.

Definition files_with (P : Files) (files : list (string * list byte)) : Files :=
  fold_left (fun P '(name, bs) => <[name := bs]> P) files P.

Lemma empty_stored : stored ∅ empty_disk.
Proof.
  split_and!.
  - split; [intros m n i ->%list_elem_of_singleton|intros m a b i ->%list_elem_of_singleton|intros n i]; cbn;
      by rewrite lookup_empty.
  - intros n [? Hn]. by rewrite lookup_empty in Hn.
  - split; [intros n bs Hn; by rewrite lookup_empty in Hn|]. intros m Hm. by apply not_elem_of_nil in Hm.
Qed.

Lemma triple_setup files : forall P, Forall (fun f => temporary f.1 = false) files ->
  triple (safe (fun _ => True)) (inv (fun _ => True) P []) (setup files)
    (fun _ => inv (fun _ => True) (files_with P files) []) (fun _ _ => False).
Proof.
  induction files as [|[name bs] files IH]; intros P Hf; cbn [setup files_with]; [by apply triple_ret|].
  apply Forall_cons in Hf as [Hn Hf]. eapply triple_bind.
  - eapply triple_weaken with (pre := held _ P).
    + apply triple_durable_replace; [apply temporary_temporary_name|exact Hn|done].
    + intros d H. by exists [].
    + intros ? d H. exact H.
    + done.
  - intros ?. cbn beta. by apply IH.
Qed.

Lemma disk_with_stored files : forallb (fun f => negb (temporary f.1)) files = true ->
  stored (files_with ∅ files) (disk_with files).
Proof.
  intros Hf. assert (Hf' : Forall (fun f => temporary f.1 = false) files).
  { rewrite forallb_forall in Hf. rewrite Forall_forall. intros f Hin%list_elem_of_In%Hf. by destruct (temporary f.1). }
  destruct empty_stored as (Hok & Hl & Hh).
  assert (Hinv : inv (fun _ => True) ∅ [] empty_disk)
    by (split; [done..|by constructor|exact I|by constructor]).
  pose proof (triple_setup files ∅ Hf' (world empty_disk []) Hinv (inv_safe _ _ _ _ Hinv)
    ltac:(constructor; [by eapply inv_safe|done])) as H.
  unfold disk_with. destruct (setup files (world empty_disk [])) as [[[]|e] w]; destruct H as (_ & _ & _ & H).
  - by destruct H.
  - destruct H as [H|[]]. exfalso. apply H. by constructor.
Qed.

Lemma opens_by P s bs : P !! filename s = Some bs ->
  ok_and (SegmentReader.open bs default_read_limits)
    (fun r => SegmentReader.segment_id_ r =? manifest_segment_id s) = true -> opens P s.
Proof. intros Hb (r & Hr & Hid)%ok_and_true. exists bs, r. split_and!; [done|done|by apply Z.eqb_eq]. Qed.

Definition sample_segment (id : Z) : list byte :=
  encode_segment (InMemoryIndex.snapshot (InMemoryIndex.make IndexSchema.default_schema 10))
    {| write_segment_id := id; compressed_postings := true |}.

Definition sample_old : IndexManifest :=
  {| generation := 1; segments := [{| manifest_segment_id := 1; filename := "segment-1" |}] |}.
Definition sample_new : IndexManifest :=
  {| generation := 2; segments := [{| manifest_segment_id := 1; filename := "segment-1" |};
                                   {| manifest_segment_id := 2; filename := "segment-2" |}] |}.

Definition sample_files : list (string * list byte) :=
  [("segment-1", sample_segment 1); ("segment-2", sample_segment 2);
   (manifest_name 1, encode_manifest sample_old); ("CURRENT", encode_current (manifest_name 1))].

Lemma sample_serving : serving (files_with ∅ sample_files) sample_old.
Proof.
  split.
  - vm_compute; reflexivity.
  - vm_compute; reflexivity.
  - split; [vm_compute; split; discriminate|vm_compute; split; discriminate| | |].
    + apply Forall_cons_2; [|apply Forall_nil_2]. split; [split; vm_compute; discriminate|].
      split; [vm_compute; reflexivity|split; vm_compute; discriminate].
    + apply (bool_decide_eq_true_1 (NoDup _)). vm_compute. reflexivity.
    + apply (bool_decide_eq_true_1 (NoDup _)). vm_compute. reflexivity.
  - vm_compute. discriminate.
  - constructor; [|constructor]. apply opens_by with (bs := sample_segment 1); vm_compute; reflexivity.
Qed.

Lemma publish_atomic_witness :
  (publish sample_new no_fault (world (disk_with sample_files) [])).1 = Ok tt /\
  forall after, crash (disk (publish sample_new no_fault (world (disk_with sample_files) [])).2) after ->
    serves after sample_new.
Proof.
  assert (Hr : (publish sample_new no_fault (world (disk_with sample_files) [])).1 = Ok tt) by (vm_compute; reflexivity).
  split; [exact Hr|].
  pose proof (publish_atomic (files_with ∅ sample_files) sample_old sample_new (disk_with sample_files) [] no_fault
    (disk_with_stored sample_files ltac:(vm_compute; reflexivity)) sample_serving) as H.
  assert (Hfits : manifest_fits sample_new).
  { split; [split; vm_compute; discriminate|vm_compute; discriminate| |vm_compute; discriminate].
    apply Forall_cons_2; [|apply Forall_cons_2; [|apply Forall_nil_2]];
      (split; split; vm_compute; discriminate). }
  specialize (H Hfits ltac:(vm_compute; reflexivity)
    ltac:(apply Forall_cons_2; [|apply Forall_cons_2; [|apply Forall_nil_2]]; vm_compute; eexists; reflexivity)).
  destruct (publish sample_new no_fault (world (disk_with sample_files) [])) as [r w].
  cbn [fst snd] in *. destruct H as (_ & H & _). exact (proj2 (H Hr)).
Defined.

Lemma write_segment_durable_witness :
  let snapshot := InMemoryIndex.snapshot (InMemoryIndex.make IndexSchema.default_schema 10) in
  let options := {| write_segment_id := 3; compressed_postings := true |} in
  let ran := write_segment "segment-3" snapshot options (world (disk_with sample_files) []) in
  ran.1 = Ok tt /\
  forall after, crash (disk ran.2) after ->
    stored (<["segment-3" := encode_segment snapshot options]> (files_with ∅ sample_files)) after.
Proof.
  intros snapshot options ran. assert (Hr : ran.1 = Ok tt) by (vm_compute; reflexivity). split; [exact Hr|].
  pose proof (write_segment_durable (files_with ∅ sample_files) "segment-3" snapshot options (disk_with sample_files) []
    (disk_with_stored sample_files ltac:(vm_compute; reflexivity)) ltac:(vm_compute; reflexivity)) as H.
  cbn zeta in H. fold ran in H. destruct ran as [r w]. cbn [fst snd] in *. destruct H as (_ & H & _).
  exact (proj1 (H Hr)).
Defined.
