(* ===== verification/Wal.v ===== *)
(** * The write-ahead log

    src/storage/write_ahead_log.cpp: the encoding of documents, the scan of a
    log with its torn tail, and append, replay and reset as programs over the
    disk of Store.v.  Texts that come from the system are left empty. *)

From S2P Require Import Prelude Bytes Text Cursor Analysis Schema Types Index Segment Store SegmentStore.

Inductive WalErrorCode := wal_io_error | wal_corruption | wal_resource_limit.

#[export] Instance WalErrorCode_eq_dec : EqDecision WalErrorCode.
Proof. solve_decision. Defined.

Record WalError := { wal_code : WalErrorCode; wal_message : string }.

Record WalLimits := {
  wal_maximum_file_bytes : Z;
  wal_maximum_record_bytes : Z;
  wal_maximum_records : Z;
  wal_maximum_string_bytes : Z
}.

Definition default_wal_limits : WalLimits :=
  {| wal_maximum_file_bytes := 2 ^ 30; wal_maximum_record_bytes := 64 * 2 ^ 20;
     wal_maximum_records := 10000000; wal_maximum_string_bytes := 16 * 2 ^ 20 |}.

Module WriteAheadLog.

Definition magic : list byte := string_bytes "DWAL".

Definition fail (code : WalErrorCode) (message : string) : WalError :=
  {| wal_code := code; wal_message := message |}.

Notation io_error := (fail wal_io_error).
Notation corruption := (fail wal_corruption).
Notation exceeded := (fail wal_resource_limit).

(** ** Documents *)

Definition add_string (s : string) : option (list byte) :=
  if zstrlen s >? u32_max then None else Some (put_string32 s).

(** The pairs of a map, one after the other. *)
Fixpoint add_pairs (l : list (string * string)) : option (list byte) :=
  match l with
  | [] => Some []
  | (k, v) :: rest => k ← add_string k; v ← add_string v; more ← add_pairs rest; Some (k ++ v ++ more)
  end.

Definition add_map (values : gmap string string) : option (list byte) :=
  if Z.of_nat (size values) >? u32_max then None
  else pairs ← add_pairs (map_items values); Some (put_u32 (Z.of_nat (size values)) ++ pairs).

Definition encode (d : Document) : expected WalError (list byte) :=
  match add_string (doc_id d) with
  | None => Err (exceeded "document ID is too large")
  | Some id =>
      match (fields ← add_map (doc_fields d); metadata ← add_map (doc_stored_metadata d); Some (fields ++ metadata)) with
      | None => Err (exceeded "document value is too large")
      | Some maps => Ok (id ++ put_u64 (doc_version d) ++ put_bool (doc_deleted d) ++ maps)
      end
  end.

Section decode.
Context (limits : WalLimits).

(** [Cursor::text]; every failed read gives an empty optional. *)
Definition text : reader unit string := read_string32 tt (wal_maximum_string_bytes limits).

Definition read_pair : reader unit (string * string) :=
  key ← text; value ← text; _ ← read_ensure (negb (str_eqb key "")) tt; mret (key, value).

Definition read_map : reader unit (gmap string string) :=
  count ← read_int tt 4;
  _ ← read_ensure (negb (count >? 1000000)) tt;
  read_entries tt (Z.to_nat count) read_pair.

Definition read_header : reader unit (string * Z * Z) :=
  id ← text; version ← read_int tt 8; deleted ← read_int tt 1;
  _ ← read_ensure (negb (str_eqb id "") && negb (deleted >? 1)) tt;
  mret (id, version, deleted).

Definition read_body : reader unit (gmap string string * gmap string string) :=
  fields ← read_map; metadata ← read_map; mret (fields, metadata).

Definition decode (payload : list byte) : expected WalError Document :=
  '(id, version, deleted, rest) ← match read_header payload with
    | Ok (id, version, deleted, rest) => Ok (id, version, deleted, rest)
    | Err _ => Err (corruption "invalid WAL document header")
    end;
  '(fields, metadata) ← map_err (fun _ => corruption "invalid WAL document body") (read_all tt read_body rest);
  Ok {| doc_id := id; doc_fields := fields; doc_stored_metadata := metadata; doc_version := version;
        doc_deleted := deleted =? 1 |}.

(** ** The scan of [replay] *)

(** One round of the loop: a document and what follows it, or a torn tail. *)
Definition scan_record (count : Z) (bytes : list byte) : expected WalError (option (Document * list byte)) :=
  if zlen bytes <? 12 then Ok None
  else
    _ ← ensure (bool_decide (take 4 bytes = magic)) (corruption "invalid WAL magic");
    let length := get_int 0 0 (take 4 (drop 4 bytes)) in
    let checksum := get_int 0 0 (take 4 (drop 8 bytes)) in
    let rest := drop 12 bytes in
    _ ← ensure (negb (length >? wal_maximum_record_bytes limits)) (exceeded "WAL record exceeds limit");
    if length >? zlen rest then Ok None
    else
      _ ← ensure (negb (count >=? wal_maximum_records limits)) (exceeded "WAL record count exceeds limit");
      let payload := take (Z.to_nat length) rest in
      _ ← ensure (crc32c payload =? checksum) (corruption "WAL checksum mismatch");
      document ← decode payload;
      Ok (Some (document, drop (Z.to_nat length) rest)).

(** The documents and the torn tail.  Every record takes twelve bytes, so the
    length of the log is enough fuel. *)
Fixpoint scan (fuel : nat) (count : Z) (bytes : list byte) : expected WalError (list Document * list byte) :=
  match fuel with
  | O => Ok ([], bytes)
  | S fuel' =>
      found ← scan_record count bytes;
      match found with
      | None => Ok ([], bytes)
      | Some (document, rest) =>
          '(documents, tail) ← scan fuel' (count + 1) rest; Ok (document :: documents, tail)
      end
  end.

Definition scan_log (bytes : list byte) : expected WalError (list Document * list byte) :=
  scan (length bytes) 0 bytes.
End decode.

(** ** The programs *)

(** [sync_file] of this file closes with a check as well. *)
Definition wal_sync (name : string) : IO WalError unit :=
  _ ← sync_file (io_error "") (io_error "") name; call (io_error "") (fun d => d).

Definition record (payload : list byte) : list byte :=
  magic ++ put_u32 (zlen payload) ++ put_u32 (crc32c payload) ++ payload.

Definition append (name : string) (document : Document) : IO WalError unit :=
  payload ← io_lift (encode document);
  _ ← io_ensure (negb ((zlen payload >? u32_max) || (zlen payload >? i64_max - 12)))
        (exceeded "WAL record is too large");
  _ ← call (io_error "cannot open WAL") (d_open_append name);
  _ ← call_write (io_error "cannot write WAL") name (record payload);
  wal_sync name.

(** [exists(path, ec)]: an error counts as a missing file. *)
Definition exists_quietly (name : string) : IO WalError bool := fun w =>
  match file_exists (E := unit) tt name w with
  | (Ok b, w') => (Ok b, w')
  | (Err _, w') => (Ok false, w')
  end.

Definition read_log (limits : WalLimits) (name : string) : IO WalError (list byte) :=
  size ← call_read (io_error "") (fun d => zlen <$> content d name);
  _ ← io_ensure (negb (size >? wal_maximum_file_bytes limits)) (exceeded "WAL exceeds file limit");
  _ ← call_read (io_error "cannot open WAL") (fun d => content d name);
  if size =? 0 then mret [] else call_read (io_error "cannot read WAL") (fun d => content d name).

Definition replay (name : string) (limits : WalLimits) : IO WalError (list Document) :=
  exists_ ← exists_quietly name;
  if negb exists_ then mret []
  else
    bytes ← read_log limits name;
    '(documents, tail) ← io_lift (scan_log limits bytes);
    let valid_end := zlen bytes - zlen tail in
    if valid_end <? zlen bytes then
      _ ← call (io_error "cannot truncate torn WAL tail: ") (d_resize name valid_end);
      _ ← wal_sync name;
      mret documents
    else mret documents.

Definition reset (name : string) : IO WalError unit :=
  _ ← call (io_error "cannot reset WAL") (d_truncate name);
  wal_sync name.

End WriteAheadLog.
