(* ===== verification/WalSpec.v ===== *)
(** * The write-ahead log: records

    What a record holds, when it is read back, and the scan of a log that ends
    in a torn record. *)

From S2P Require Import Prelude Bytes Text Cursor Analysis Schema Types Index Segment SegmentSpec Store SegmentStore Wal.
Import WriteAheadLog.

(** ** Payloads *)

Definition put_pair (x : string * string) : list byte := put_string32 x.1 ++ put_string32 x.2.

Definition put_map (m : gmap string string) : list byte := put_u32 (Z.of_nat (size m)) ++ (map_items m ≫= put_pair).

Definition payload (d : Document) : list byte :=
  put_string32 (doc_id d) ++ put_u64 (doc_version d) ++ put_bool (doc_deleted d) ++
  put_map (doc_fields d) ++ put_map (doc_stored_metadata d).

Definition short (s : string) : Prop := is_u32 (zstrlen s).

Definition map_encodable (m : gmap string string) : Prop :=
  is_u32 (Z.of_nat (size m)) /\ forall k v, m !! k = Some v -> short k /\ short v.

Definition encodable (d : Document) : Prop :=
  short (doc_id d) /\ map_encodable (doc_fields d) /\ map_encodable (doc_stored_metadata d).

Lemma add_string_Some s p : add_string s = Some p <-> short s /\ p = put_string32 s.
Proof.
  unfold add_string, short, is_u32. pose proof (zstrlen_nonneg s).
  destruct (Z.gtb_spec (zstrlen s) u32_max); split; intros H'; try done; [lia| |].
  - injection H' as <-. split; [lia|done].
  - by destruct H' as [_ ->].
Qed.

Lemma add_pairs_Some l : forall p, add_pairs l = Some p <->
  Forall (fun x => short x.1 /\ short x.2) l /\ p = l ≫= put_pair.
Proof.
  induction l as [|[k v] l IH]; intros p; cbn [add_pairs].
  - split; [intros [= <-]; by split|by intros [_ ->]].
  - split.
    + intros H. apply bind_Some in H as (k' & [Hk ->]%add_string_Some & H).
      apply bind_Some in H as (v' & [Hv ->]%add_string_Some & H). apply bind_Some in H as (m & [Hl ->]%IH & [= <-]).
      split; [by constructor|]. rewrite bind_cons. unfold put_pair at 2. by rewrite <- app_assoc.
    + intros [[[Hk Hv] Hl]%Forall_cons ->].
      rewrite (proj2 (add_string_Some k _) (conj Hk eq_refl)). cbn [mbind option_bind].
      rewrite (proj2 (add_string_Some v _) (conj Hv eq_refl)). cbn [mbind option_bind].
      rewrite (proj2 (IH _) (conj Hl eq_refl)). cbn [mbind option_bind]. rewrite bind_cons. unfold put_pair at 2. by rewrite <- app_assoc.
Qed.

Lemma add_map_Some m p : add_map m = Some p <-> map_encodable m /\ p = put_map m.
Proof.
  unfold add_map, map_encodable, is_u32.
  assert (Hall : Forall (fun x => short x.1 /\ short x.2) (map_items m) <->
    forall k v, m !! k = Some v -> short k /\ short v).
  { rewrite Forall_forall. split; [intros H k v Hk%elem_of_map_items; by apply (H (k, v))|].
    intros H [k v] Hk%elem_of_map_items. by apply H. }
  destruct (Z.gtb_spec (Z.of_nat (size m)) u32_max); [split; [done|lia]|]. rewrite bind_Some. split.
  - intros (ps & [Hps ->]%add_pairs_Some & [= <-]). split; [|done]. split; [lia|by apply Hall].
  - intros [[_ H'] ->]. eexists. split; [apply add_pairs_Some; split; [by apply Hall|done]|done].
Qed.

#[local] Instance Ok_inj {E A} : Inj (=) (=) (@Ok E A).
Proof. by intros a b [=]. Qed.

Lemma encode_Ok d p : encode d = Ok p <-> encodable d /\ p = payload d.
Proof.
  unfold encode, encodable. destruct (add_string (doc_id d)) as [id|] eqn:Hid.
  - apply add_string_Some in Hid as [Hid ->]. split.
    + destruct (f ← add_map (doc_fields d); _) as [maps|] eqn:E; [|done]. intros Hp%(inj Ok).
      apply bind_Some in E as (f & [Hf ->]%add_map_Some & E). apply bind_Some in E as (g & [Hg ->]%add_map_Some & E).
      apply (inj Some) in E. split; [done|]. subst. done.
    + intros [(_ & Hf & Hg) ->]. rewrite (proj2 (add_map_Some _ _) (conj Hf eq_refl)). cbn [mbind option_bind].
      rewrite (proj2 (add_map_Some _ _) (conj Hg eq_refl)). done.
  - split; [done|]. intros [(Hs & _) _]. assert (add_string (doc_id d) = Some (put_string32 (doc_id d))) as E
      by by apply add_string_Some. congruence.
Qed.

(** ** Reading payloads *)

Section decode.
Context (limits : WalLimits).

Definition allowed (s : string) : Prop := zstrlen s <= wal_maximum_string_bytes limits.

Definition map_allowed (m : gmap string string) : Prop :=
  Z.of_nat (size m) <= 1000000 /\ forall k v, m !! k = Some v -> k <> "" /\ allowed k /\ allowed v.

(** What [decode] accepts of the documents that [encode] accepts. *)
Record recoverable (d : Document) : Prop := {
  rc_id : doc_id d <> "";
  rc_id_size : allowed (doc_id d);
  rc_fields : map_allowed (doc_fields d);
  rc_metadata : map_allowed (doc_stored_metadata d)
}.

Lemma text_put s rest : short s -> text limits (put_string32 s ++ rest) = (if zstrlen s <=? wal_maximum_string_bytes limits then Ok (s, rest) else Err tt).
Proof using Type.
  intros Hs. unfold text. destruct (Z.leb_spec (zstrlen s) (wal_maximum_string_bytes limits)).
  - by apply read_string32_Ok.
  - unfold read_string32, put_string32, short, is_u32, u32_max in *. rewrite <- app_assoc.
    rewrite (reads_int tt 4 (zstrlen s)) by (change (2 ^ (Z.of_nat 4 * 8)) with 4294967296; lia).
    destruct (Z.gtb_spec (zstrlen s) (wal_maximum_string_bytes limits)); [done|lia].
Qed.

Definition pair_allowed (x : string * string) : Prop := x.1 <> "" /\ allowed x.1 /\ allowed x.2.

Lemma read_pair_put x rest : short x.1 -> short x.2 -> pair_allowed x ->
  read_pair limits (put_pair x ++ rest) = Ok (x, rest).
Proof using Type.
  destruct x as [k v]. cbn [fst snd]. unfold pair_allowed, allowed, read_pair, put_pair. cbn [fst snd].
  intros Hk Hv (Hne & Hak & Hav). rewrite <- app_assoc. unfold mbind, reader_bind.
  rewrite text_put by done. destruct (Z.leb_spec (zstrlen k) (wal_maximum_string_bytes limits)); [|lia].
  rewrite text_put by done. destruct (Z.leb_spec (zstrlen v) (wal_maximum_string_bytes limits)); [|lia].
  unfold read_ensure, str_eqb. by rewrite bool_decide_eq_false_2.
Qed.

Lemma read_pair_refused x rest y : short x.1 -> short x.2 -> read_pair limits (put_pair x ++ rest) = Ok y ->
  y = (x, rest) /\ pair_allowed x.
Proof using Type.
  destruct x as [k v]. unfold pair_allowed, allowed, read_pair, put_pair. cbn [fst snd].
  intros Hk Hv. rewrite <- app_assoc. unfold mbind, reader_bind. rewrite text_put by done.
  destruct (Z.leb_spec (zstrlen k) (wal_maximum_string_bytes limits)); [|done]. rewrite text_put by done.
  destruct (Z.leb_spec (zstrlen v) (wal_maximum_string_bytes limits)); [|done].
  unfold read_ensure, str_eqb. case_bool_decide; [done|]. cbn. by intros [= <-].
Qed.

Lemma read_pairs_refused l : forall (m : gmap string string) rest y, Forall (fun x => short x.1 /\ short x.2) l ->
  read_fold (length l) (fun m => '(key, value) ← read_pair limits; read_emplace tt m key value) m
    ((l ≫= put_pair) ++ rest) = Ok y -> Forall pair_allowed l /\ y.2 = rest.
Proof using Type.
  induction l as [|x l IH]; intros m rest [m' rest'] Hl; cbn [length read_fold].
  - intros [_ ->]%read_ret_Ok. done.
  - apply Forall_cons in Hl as [[Hk Hv] Hl]. rewrite bind_cons, <- app_assoc.
    intros (s & bs1 & H1 & H2)%reader_bind_Ok. apply reader_bind_Ok in H1 as (z & bs2 & Hz & H1).
    apply read_pair_refused in Hz as [Hz Hx]; [|done..]. injection Hz as -> ->.
    destruct x as [k v]. unfold read_emplace in H1. destruct (m !! k); [done|].
    apply read_ret_Ok in H1 as [-> ->]. apply IH in H2 as [Hall Hr]; [|done]. split; [by constructor|done].
Qed.

Lemma map_items_shorts m : map_encodable m -> Forall (fun x => short x.1 /\ short x.2) (map_items m).
Proof using Type. intros [_ H]. rewrite Forall_forall. intros [k v] Hk%elem_of_map_items. by apply H. Qed.

Lemma read_map_put m : map_encodable m -> map_allowed m -> reads (read_map limits) (put_map m) m.
Proof using Type.
  intros [Hu Hs] [Hc Ha]. unfold read_map, put_map. unfold is_u32, u32_max in Hu.
  eapply reads_bind; [apply reads_int; change (2 ^ (Z.of_nat 4 * 8)) with 4294967296; lia|].
  apply reads_ensure; [destruct (Z.gtb_spec (Z.of_nat (size m)) 1000000); [lia|done]|].
  apply reads_entries; [by rewrite Nat2Z.id|]. intros k v Hk rest. destruct (Hs k v Hk). apply read_pair_put; try done.
  by apply Ha.
Qed.

Lemma read_map_refused m rest y : map_encodable m -> read_map limits (put_map m ++ rest) = Ok y ->
  map_allowed m /\ y.2 = rest.
Proof using Type.
  intros Hm. pose proof Hm as [Hu _]. unfold read_map, put_map, is_u32, u32_max in *. rewrite <- app_assoc.
  unfold mbind, reader_bind. rewrite (reads_int tt 4) by (change (2 ^ (Z.of_nat 4 * 8)) with 4294967296; lia).
  unfold read_ensure. destruct (Z.gtb_spec (Z.of_nat (size m)) 1000000) as [|Hc]; [done|]. cbn [negb].
  unfold read_entries. rewrite Nat2Z.id, <- length_map_items. intros H.
  apply read_pairs_refused in H as [Hall Hr]; [|by apply map_items_shorts]. split; [|done]. split; [done|].
  intros k v Hk%elem_of_map_items. rewrite Forall_forall in Hall. by apply (Hall (k, v)).
Qed.

Lemma read_header_put d rest : encodable d -> is_u64 (doc_version d) ->
  read_header limits (put_string32 (doc_id d) ++ put_u64 (doc_version d) ++ put_bool (doc_deleted d) ++ rest) =
  (if bool_decide (doc_id d <> "" /\ allowed (doc_id d))
   then Ok (doc_id d, doc_version d, if doc_deleted d then 1 else 0, rest) else Err tt).
Proof using Type.
  intros (Hs & _) Hv. unfold read_header, is_u64, u64_max, allowed in *.
  unfold mbind, reader_bind. rewrite text_put by done.
  destruct (Z.leb_spec (zstrlen (doc_id d)) (wal_maximum_string_bytes limits)).
  2:{ rewrite bool_decide_eq_false_2; [done|]. lia. }
  rewrite (reads_int tt 8) by (cbn; lia). unfold put_bool.
  rewrite (reads_int tt 1) by (destruct (doc_deleted d); cbn; lia).
  unfold read_ensure, str_eqb. case_bool_decide as E; [rewrite bool_decide_eq_false_2 by tauto; done|].
  rewrite bool_decide_eq_true_2 by done. by destruct (doc_deleted d).
Qed.

Lemma decode_payload d : encodable d -> is_u64 (doc_version d) ->
  (decode limits (payload d) = Ok d <-> recoverable d) /\
  (~ recoverable d -> exists message, decode limits (payload d) = Err (fail wal_corruption message)).
Proof using Type.
  intros He Hv. pose proof He as (_ & Hf & Hg). unfold decode, payload. rewrite read_header_put by done.
  case_bool_decide as Hid.
  2:{ split; [split; [done|]|]; [intros [? ? _ _]; tauto|]. intros _. by eexists. }
  cbn [mbind expected_bind]. unfold read_body.
  destruct (read_all tt _ (put_map (doc_fields d) ++ put_map (doc_stored_metadata d))) as [[f g]|e] eqn:E.
  - pose proof E as E'. apply read_all_Ok, reader_bind_Ok in E' as (f' & bs & Hbs & E'). 
    apply read_map_refused in Hbs as Hbs'; [|done]. destruct Hbs' as [Haf Hrest]. cbn [snd] in Hrest. subst bs.
    apply reader_bind_Ok in E' as (g' & bs & Hbs' & E'). rewrite <- (app_nil_r (put_map _)) in Hbs'.
    apply read_map_refused in Hbs' as [Hag _]; [|done].
    assert (Hr : recoverable d) by (split; try done; apply Hid). split; [|done]. split; [done|]. intros _.
    rewrite (read_all_reads _ _ _ (doc_fields d, doc_stored_metadata d)) in E.
    + injection E as <- <-. cbn. destruct d as [? ? ? ? []]; done.
    + eapply reads_bind; [by apply read_map_put|]. eapply reads_bind_nil; [by apply read_map_put|]. apply reads_ret.
  - cbn [map_err mbind expected_bind]. split; [|intros _; by eexists]. split; [done|]. intros [_ _ Haf Hag].
    rewrite (read_all_reads _ _ _ (doc_fields d, doc_stored_metadata d)) in E; [done|].
    eapply reads_bind; [by apply read_map_put|]. eapply reads_bind_nil; [by apply read_map_put|]. apply reads_ret.
Qed.
End decode.

(** ** Logs *)

Definition entry (d : Document) : list byte := record (payload d).

Definition log (docs : list Document) : list byte := docs ≫= entry.

Lemma zlen_record p : zlen (record p) = 12 + zlen p.
Proof. unfold record. rewrite !zlen_app. change (zlen magic) with 4. change (zlen (put_u32 _)) with 4. lia. Qed.

Section scan.
Context (limits : WalLimits).

(** A document that [append] logs and [replay] reads back. *)
Record loggable (d : Document) : Prop := {
  lg_encodable : encodable d;
  lg_version : is_u64 (doc_version d);
  lg_recoverable : recoverable limits d;
  lg_size : is_u32 (zlen (payload d));
  lg_record : zlen (payload d) <= wal_maximum_record_bytes limits
}.

Lemma record_parts p rest : is_u32 (zlen p) -> 
  take 4 (record p ++ rest) = magic /\ get_int 0 0 (take 4 (drop 4 (record p ++ rest))) = zlen p /\
  get_int 0 0 (take 4 (drop 8 (record p ++ rest))) = crc32c p /\ drop 12 (record p ++ rest) = p ++ rest.
Proof using Type.
  intros Hp. unfold record. rewrite <- !app_assoc.
  assert (Hword : forall v tail, is_u32 v -> get_int 0 0 (take 4 (put_u32 v ++ tail)) = v).
  { intros v tail Hv. rewrite (take_app_length' (put_u32 v)) by done. rewrite (get_put_int 4).
    unfold is_u32, u32_max in Hv. change (2 ^ (Z.of_nat 4 * 8)) with 4294967296. apply Z.mod_small. lia. }
  assert (Hdrop : forall v tail n, drop (4 + n) (put_u32 v ++ tail) = drop n tail) by done.
  assert (Hmagic : forall tail n, drop (4 + n) (magic ++ tail) = drop n tail) by done.
  split_and!.
  - done.
  - rewrite (Hmagic _ 0%nat). by apply Hword.
  - rewrite (Hmagic _ 4%nat), (Hdrop _ _ 0%nat). apply Hword, crc32c_range.
  - rewrite (Hmagic _ 8%nat), (Hdrop _ _ 4%nat), (Hdrop _ _ 0%nat). done.
Qed.

Lemma scan_entry count d rest : loggable d -> count < wal_maximum_records limits ->
  scan_record limits count (entry d ++ rest) = Ok (Some (d, rest)).
Proof using Type.
  intros [He Hv Hr Hs Hl] Hc. unfold scan_record, entry.
  pose proof (zlen_nonneg (payload d)). pose proof (zlen_nonneg rest).
  assert (zlen (record (payload d) ++ rest) = 12 + zlen (payload d) + zlen rest) as -> by (rewrite zlen_app, zlen_record; lia).
  destruct (Z.ltb_spec (12 + zlen (payload d) + zlen rest) 12); [lia|].
  destruct (record_parts (payload d) rest Hs) as (-> & -> & -> & ->).
  rewrite bool_decide_eq_true_2 by done. cbn [ensure mbind expected_bind].
  destruct (Z.gtb_spec (zlen (payload d)) (wal_maximum_record_bytes limits)); [lia|]. cbn [negb ensure mbind expected_bind].
  rewrite zlen_app. destruct (Z.gtb_spec (zlen (payload d)) (zlen (payload d) + zlen rest)); [lia|].
  destruct (Z.geb_spec count (wal_maximum_records limits)); [lia|]. cbn [negb ensure mbind expected_bind].
  unfold zlen. rewrite Nat2Z.id, (take_app_length' (payload d)), (drop_app_length' (payload d)) by done.
  rewrite Z.eqb_refl. cbn [ensure mbind expected_bind].
  by rewrite (proj2 (proj1 (decode_payload limits d He Hv)) Hr).
Qed.

(** The beginning of a record, not all of it. *)
Definition torn (tail : list byte) : Prop :=
  exists d k, loggable d /\ (k < length (entry d))%nat /\ tail = take k (entry d).

Lemma scan_torn count tail : torn tail -> scan_record limits count tail = Ok None.
Proof using Type.
  intros (d & k & [_ _ _ Hs Hl] & Hk & ->). unfold scan_record, entry in *.
  assert (Hlen : zlen (take k (record (payload d))) = Z.of_nat k) by (unfold zlen; rewrite length_take; lia).
  pose proof (zlen_record (payload d)) as Hz. rewrite Hlen. destruct (Z.ltb_spec (Z.of_nat k) 12); [done|].
  destruct (record_parts (payload d) [] Hs) as (Hm & Hn & _ & _). rewrite app_nil_r in Hm, Hn.
  rewrite take_take, Nat.min_l, Hm, bool_decide_eq_true_2 by (done || lia). cbn [ensure mbind expected_bind].
  rewrite skipn_firstn_comm, take_take, Nat.min_l, Hn by lia.
  destruct (Z.gtb_spec (zlen (payload d)) (wal_maximum_record_bytes limits)); [lia|]. cbn [negb ensure mbind expected_bind].
  assert (zlen (drop 12 (take k (record (payload d)))) = Z.of_nat k - 12) as ->.
  { unfold zlen in *. rewrite length_drop. lia. }
  destruct (Z.gtb_spec (zlen (payload d)) (Z.of_nat k - 12)); [done|]. unfold zlen in *. lia.
Qed.

Lemma torn_nonempty_or tail : torn tail -> forall count fuel, scan limits fuel count tail = Ok ([], tail).
Proof using Type. intros Ht count [|fuel]; [done|]. cbn [scan]. by rewrite scan_torn. Qed.

(** The scan of a log: its documents, and the torn record at its end. *)
Lemma scan_documents docs : forall count tail fuel,
  Forall loggable docs -> count + zlen docs <= wal_maximum_records limits -> torn tail \/ tail = [] ->
  (length docs <= fuel)%nat -> scan limits fuel count (log docs ++ tail) = Ok (docs, tail).
Proof using Type.
  induction docs as [|d docs IH]; intros count tail fuel Hd Hc Ht Hf.
  - destruct Ht as [Ht| ->]; [by apply torn_nonempty_or|]. destruct fuel; done.
  - apply Forall_cons in Hd as [Hd Hds]. rewrite zlen_cons in Hc. pose proof (zlen_nonneg docs).
    destruct fuel as [|fuel]; [cbn in Hf; lia|]. cbn [scan]. unfold log. rewrite bind_cons, <- app_assoc.
    rewrite scan_entry by (done || lia). cbn [mbind expected_bind]. fold (log docs).
    rewrite IH; [done|done|lia|done|cbn in Hf; lia].
Qed.

Lemma length_log docs : (length docs <= length (log docs))%nat.
Proof using Type.
  induction docs as [|d docs IH]; [done|]. unfold log. rewrite bind_cons, length_app. fold (log docs). cbn.
  pose proof (zlen_record (payload d)) as H. pose proof (zlen_nonneg (payload d)). unfold entry, zlen in *. lia.
Qed.

Lemma scan_log_documents docs tail : Forall loggable docs -> zlen docs <= wal_maximum_records limits ->
  torn tail \/ tail = [] -> scan_log limits (log docs ++ tail) = Ok (docs, tail).
Proof using Type.
  intros Hd Hc Ht. unfold scan_log. apply scan_documents; [done|lia|done|].
  rewrite length_app. pose proof (length_log docs). lia.
Qed.
End scan.

Lemma log_app docs docs' : log (docs ++ docs') = log docs ++ log docs'.
Proof. apply bind_app. Qed.
