(* ===== verification/WalDurability.v ===== *)
(** * The write-ahead log: durability and recovery

    [append], [replay] and [reset] under failing calls and crashes: what the
    log file holds at every moment, and what a later replay finds.  The log's
    entry in the directory is never synced, so it may be lost in a crash. *)

From S2P Require Import Prelude Bytes Text Cursor Analysis Schema Types Index Segment SegmentSpec Store StoreSpec SegmentStore Wal WalSpec.
Import WriteAheadLog.

(** The file of a name is in the directory, and in every one a crash can go back
    to, unless its entry may be [lost]. *)
Definition log_file (lost : Prop) (name : string) (p : Inode -> Prop) (d : Disk) : Prop :=
  exists i node, dir d !! name = Some i /\ (forall m, m ∈ older d -> m !! name = Some i \/ (lost /\ m !! name = None)) /\
    inodes d !! i = Some node /\ p node.

(** The log is on the medium. *)
Definition log_at (name : string) (bs : list byte) : Disk -> Prop := log_file False name (eq (synced bs)).

(** No directory that a crash can go back to has the name. *)
Definition missing (name : string) (d : Disk) : Prop := forall m, m ∈ history d -> m !! name = None.

(** The log is on the medium up to its entry, or it is empty and does not exist. *)
Definition log_held (lost : Prop) (name : string) (bs : list byte) (d : Disk) : Prop :=
  log_file lost name (eq (synced bs)) d \/ (lost /\ bs = [] /\ missing name d).

(** More is being appended to it. *)
Definition growing (a r : list byte) (node : Inode) : Prop :=
  exists p, p `prefix_of` r /\ node = {| durable := a; current := a ++ p; kept := length a |}.

(** It has been cut to its first bytes. *)
Definition shrinking (a t : list byte) (node : Inode) : Prop :=
  node = {| durable := a ++ t; current := a; kept := length a |}.

Section file.
Context (lost : Prop) (name : string).

Lemma log_file_weaken (p q : Inode -> Prop) d : (forall node, p node -> q node) ->
  log_file lost name p d -> log_file lost name q d.
Proof using Type. intros H (i & node & ? & ? & ? & ?). exists i, node. auto. Qed.

Lemma log_file_content p d : log_file lost name p d -> exists node, p node /\ content d name = Some (current node) /\
  exists i, dir d !! name = Some i.
Proof using Type.
  intros (i & node & Hi & _ & Hn & Hp). exists node. unfold content. rewrite Hi.
  cbn [mbind option_bind]. rewrite Hn. eauto.
Qed.

Lemma log_file_on_file (p q : Inode -> Prop) f d : (forall node, p node -> q (f node)) ->
  log_file lost name p d -> log_file lost name q (on_file d name f).
Proof using Type.
  intros Hf (i & node & Hi & Ho & Hn & Hp). unfold on_file. rewrite Hi.
  exists i, (f node). split_and!; [exact Hi|exact Ho| |by apply Hf]. cbn. by rewrite lookup_alter_eq, Hn.
Qed.

Lemma log_file_truncate (p q : Inode -> Prop) d :
  (forall node, p node -> q {| durable := durable node; current := []; kept := 0 |}) ->
  log_file lost name p d -> log_file lost name q (d_truncate name d).
Proof using Type.
  intros Hf Hl. pose proof (log_file_on_file p q _ d Hf Hl) as H. destruct Hl as (i & node & Hi & _).
  unfold d_truncate. unfold on_file in H. by rewrite Hi in *.
Qed.

Lemma log_file_open p d : log_file lost name p d -> d_open_append name d = d.
Proof using Type. intros (i & node & Hi & _). unfold d_open_append. by rewrite Hi. Qed.

(** A new log; its entry can be lost. *)
Lemma missing_create d : lost -> missing name d -> log_file lost name (eq (synced [])) (d_create d name).
Proof using Type.
  intros Hlost Hm. exists (fresh d), (synced []). cbn. rewrite !lookup_insert_eq. split_and!; [done| |done|done].
  intros m Hin. right. split; [done|]. by apply Hm.
Qed.

Lemma missing_open d : missing name d -> d_open_append name d = d_create d name.
Proof using Type. intros Hm. unfold d_open_append. by rewrite (Hm (dir d)) by left. Qed.

(** What a crash leaves of the file. *)
Lemma log_file_crash (p : Inode -> Prop) d d' : log_file lost name p d -> crash d d' ->
  (exists node bs, p node /\ survives node bs /\ log_at name bs d') \/ (lost /\ missing name d').
Proof using Type.
  intros (i & node & Hi & Ho & Hn & Hp) C. pose proof (crash_inodes _ _ C i) as Hs. rewrite Hn in Hs. unfold survives_opt in Hs.
  destruct (inodes d' !! i) as [node'|] eqn:Hn'; [|done]. destruct Hs as [E Hs].
  assert (Hentry : dir d' !! name = Some i \/ (lost /\ dir d' !! name = None)).
  { destruct (crash_dir _ _ C) as [->|Hin]; [by left|by apply Ho]. }
  destruct Hentry as [Hi'|[Hlost Hnone]]; [left|right].
  - exists node, (current node'). split_and!; [done|done|]. exists i, node'. split_and!; [done| |done|done].
    intros m. by rewrite (crash_older _ _ C), elem_of_nil.
  - split; [done|]. intros m. unfold history. rewrite (crash_older _ _ C), list_elem_of_singleton. by intros ->.
Qed.

Lemma missing_crash d d' : missing name d -> crash d d' -> missing name d'.
Proof using Type.
  intros Hm C m. unfold history. rewrite (crash_older _ _ C), list_elem_of_singleton. intros ->. apply Hm.
  unfold history. rewrite elem_of_cons. apply C.
Qed.
End file.

(** A log whose entry cannot be lost. *)
Lemma log_at_crash name (p : Inode -> Prop) d d' : log_file False name p d -> crash d d' ->
  exists node bs, p node /\ survives node bs /\ log_at name bs d'.
Proof. intros Hl C. by destruct (log_file_crash False name p d d' Hl C) as [?|[[] _]]. Qed.

Lemma log_file_lost (lost : Prop) name p d : log_file False name p d -> log_file lost name p d.
Proof. intros (i & node & Hi & Ho & Hn & Hp). exists i, node. split_and!; [done| |done|done]. intros m Hm. destruct (Ho m Hm) as [?|[[] _]]. by left. Qed.

Lemma growing_survives a r node bs : growing a r node -> survives node bs -> exists p, p `prefix_of` r /\ bs = a ++ p.
Proof.
  intros (p & Hp & ->) [->|[[k E] Hk]]; cbn in *.
  - exists []. split; [apply prefix_nil|]. by rewrite app_nil_r.
  - assert (Htake : bs = take (length bs) (a ++ p)) by (rewrite E; by rewrite take_app_length).
    rewrite take_app, take_ge in Htake by done. exists (take (length bs - length a) p). split; [|done].
    trans p; [apply prefix_take|done].
Qed.

Lemma shrinking_survives a t node bs : shrinking a t node -> survives node bs -> bs = a ++ t \/ bs = a.
Proof.
  intros -> [->|[[k E] Hk]]; cbn in *; [by left|right]. rewrite E in Hk. rewrite length_app in Hk.
  destruct k; [by rewrite app_nil_r in E|cbn in Hk; lia].
Qed.

(** ** Syncing *)

(** What a program needs that changes only the file of one name: [safe] holds
    of the disks it goes through, where [extra] keeps holding. *)
Definition kept_by_file (lost : Prop) (name : string) (extra : Disk -> Prop) : Prop :=
  forall d f, log_file lost name (fun _ => True) d -> extra d -> extra (on_file d name f).

Definition kept_by_create (lost : Prop) (name : string) (extra : Disk -> Prop) : Prop :=
  forall d, lost -> missing name d -> extra d -> extra (d_create d name).

Lemma kept_file lost name extra p d f : kept_by_file lost name extra -> log_file lost name p d -> extra d -> extra (on_file d name f).
Proof. intros H Hl. apply H. by eapply log_file_weaken. Qed.

Lemma triple_wal_sync_within (safe extra : Disk -> Prop) lost name (p q : Inode -> Prop) :
  (forall d, log_file lost name q d -> extra d -> safe d) -> kept_by_file lost name extra -> (forall node, p node -> q (synced (current node))) ->
  triple safe (fun d => log_file lost name p d /\ extra d) (wal_sync name) (fun _ d => log_file lost name q d /\ extra d) (fun _ _ => False).
Proof.
  intros Hsafe Hextra Hq. unfold wal_sync, sync_file.
  eapply triple_bind with (mid := fun _ d => log_file lost name q d /\ extra d).
  - eapply triple_bind with (mid := fun _ d => log_file lost name p d /\ extra d).
    + apply triple_read. intros d [Hd He]. pose proof (log_file_content _ _ _ _ Hd) as (node & _ & _ & i & ->). done.
    + intros ?. cbn beta. apply triple_call. intros d [Hd He] _.
      assert (log_file lost name q (d_sync name d)) by (by eapply log_file_on_file).
      assert (extra (d_sync name d)) by (by apply (kept_file lost name extra p)). auto.
  - intros ?. cbn beta. apply triple_call. intros d [? ?]. auto.
Qed.

Lemma triple_wal_sync (safe : Disk -> Prop) name (p q : Inode -> Prop) :
  (forall d, log_file False name q d -> safe d) -> (forall node, p node -> q (synced (current node))) ->
  triple safe (log_file False name p) (wal_sync name) (fun _ => log_file False name q) (fun _ _ => False).
Proof.
  intros Hsafe Hq. eapply triple_weaken.
  - apply (triple_wal_sync_within safe (fun _ => True) False name p q); by auto.
  - by intros d ?.
  - by intros ? d [? _].
  - done.
Qed.

(** ** Append *)

Section append.
Context (lost : Prop) (name : string) (a : list byte) (document : Document).
Let r := record (payload document).

(** The disks an append goes through. *)
Definition appending (d : Disk) : Prop :=
  log_held lost name a d \/ log_file lost name (growing a r) d \/ log_file lost name (eq (synced (a ++ r))) d.

Lemma appending_crash d d' : appending d -> crash d d' ->
  (exists p, p `prefix_of` r /\ log_at name (a ++ p) d') \/ (lost /\ missing name d').
Proof using Type.
  intros [[H|(Hlost & _ & H)]|[H|H]] C; [|right; split; [done|by eapply missing_crash]|..];
    (destruct (log_file_crash _ _ _ _ _ H C) as [(node & bs & Hp & Hs & Hl)|?]; [left|by right]).
  - subst node. apply survives_synced in Hs as ->. exists []. split; [apply prefix_nil|by rewrite app_nil_r].
  - destruct (growing_survives _ _ _ _ Hp Hs) as (p & ? & ->). by exists p.
  - subst node. apply survives_synced in Hs as ->. by exists r.
Qed.

(** What [append] accepts. *)
Definition appendable : Prop := encodable document /\ is_u32 (zlen (payload document)).

Lemma triple_append_within (safe extra : Disk -> Prop) :
  (forall d, appending d -> extra d -> safe d) -> kept_by_file lost name extra -> kept_by_create lost name extra ->
  triple safe (fun d => log_held lost name a d /\ extra d) (append name document)
    (fun _ d => (log_file lost name (eq (synced (a ++ r))) d /\ extra d) /\ appendable) (fun _ _ => ~ appendable).
Proof using Type.
  intros Hsafe Hextra Hcreate. set (full := fun node => node = {| durable := a; current := a ++ r; kept := length a |}).
  set (start := fun d => log_held lost name a d /\ extra d).
  set (opened := fun d => log_file lost name (eq (synced a)) d /\ extra d).
  unfold append. eapply triple_bind with (mid := fun p d => start d /\ encodable document /\ p = payload document).
  { apply triple_lift. intros d Hd. destruct (encode document) as [p|e] eqn:E; [by apply encode_Ok in E|].
    unfold appendable. intros [He _]. assert (encode document = Ok (payload document)) by by apply encode_Ok. congruence. }
  intros p. cbn beta. apply triple_given. intros [He ->].
  eapply triple_bind with (mid := fun _ d => start d /\ is_u32 (zlen (payload document))).
  { apply triple_lift. intros d Hd. unfold appendable, is_u32.
    pose proof (zlen_nonneg (payload document)).
    destruct (Z.gtb_spec (zlen (payload document)) u32_max); [cbn [orb negb ensure]; intros [_ ?]; lia|].
    destruct (Z.gtb_spec (zlen (payload document)) (i64_max - 12)); [unfold u32_max, i64_max in *; lia|]. split; [done|lia]. }
  intros ?. cbn beta. apply triple_given. intros Hs.
  eapply triple_bind with (mid := fun _ => opened).
  { apply triple_call. intros d [[Hd|(Hlost & Ea & Hd)] He'] Hsd; [by rewrite (log_file_open _ _ _ _ Hd)|].
    rewrite (missing_open _ _ Hd). unfold opened. rewrite Ea.
    pose proof (missing_create lost name d Hlost Hd) as Hnew. pose proof (Hcreate d Hlost Hd He') as Hnew'.
    split; [|done]. apply Hsafe; [|done]. left. left. by rewrite Ea. }
  intros ?. cbn beta. eapply triple_bind with (mid := fun _ d => log_file lost name full d /\ extra d).
  { apply triple_write.
    - intros d bs [Hd He'] _ Hbs. apply Hsafe; [|by apply (kept_file lost name extra (eq (synced a)))]. right. left. eapply log_file_on_file; [|exact Hd].
      intros node <-. exists bs. by split.
    - intros d [Hd He']. split; [|by apply (kept_file lost name extra (eq (synced a)))]. eapply log_file_on_file; [|exact Hd]. by intros node <-. }
  intros ?. cbn beta. eapply triple_weaken.
  - apply (triple_wal_sync_within _ extra lost name full (eq (synced (a ++ r)))); [|done|].
    + intros d H. apply Hsafe. right. by right.
    + intros node H. by rewrite H.
  - intros d H. exact H.
  - intros ? d H. by split.
  - done.
Qed.
End append.

(** ** Replay *)

Section replay.
Context (name : string) (limits : WalLimits) (docs : list Document) (tail : list byte).
Context (Hdocs : Forall (loggable limits) docs) (Hcount : zlen docs <= wal_maximum_records limits).
Context (Htail : torn limits tail \/ tail = []) (Hsize : zlen (log docs ++ tail) <= wal_maximum_file_bytes limits).

Definition replaying (d : Disk) : Prop :=
  log_at name (log docs ++ tail) d \/ log_file False name (shrinking (log docs) tail) d \/ log_at name (log docs) d.

Lemma replaying_crash d d' : replaying d -> crash d d' -> exists t, (t = [] \/ t = tail) /\ log_at name (log docs ++ t) d'.
Proof using Type.
  intros [H|[H|H]] C; destruct (log_at_crash _ _ _ _ H C) as (node & bs & Hp & Hs & Hl).
  - subst node. apply survives_synced in Hs as ->. exists tail. split; [by right|done].
  - destruct (shrinking_survives _ _ _ _ Hp Hs) as [-> | ->]; [exists tail; split; [by right|done]|].
    exists []. rewrite app_nil_r. split; [by left|done].
  - subst node. apply survives_synced in Hs as ->. exists []. rewrite app_nil_r. split; [by left|done].
Qed.

(** [replay] after it has found the file. *)
Definition replay_found : IO WalError (list Document) :=
  bytes ← read_log limits name;
  '(documents, tail) ← io_lift (scan_log limits bytes);
  let valid_end := zlen bytes - zlen tail in
  if valid_end <? zlen bytes then
    _ ← call (io_error "cannot truncate torn WAL tail: ") (d_resize name valid_end);
    _ ← wal_sync name;
    mret documents
  else mret documents.

Lemma triple_read_log bs : zlen bs <= wal_maximum_file_bytes limits ->
  triple replaying (log_at name bs) (read_log limits name) (fun r d => log_at name bs d /\ r = bs) (fun _ _ => False).
Proof using Type.
  intros Hle. unfold read_log.
  assert (Hc : forall d, log_at name bs d -> content d name = Some bs).
  { intros d Hd. destruct (log_file_content _ _ _ _ Hd) as (node & <- & -> & _). done. }
  eapply triple_bind with (mid := fun size d => log_at name bs d /\ size = zlen bs).
  { apply triple_read. intros d Hd. by rewrite (Hc d Hd). }
  intros size. cbn beta. apply triple_given. intros ->.
  eapply triple_bind with (mid := fun _ => log_at name bs).
  { apply triple_lift. intros d Hd. by destruct (Z.gtb_spec (zlen bs) (wal_maximum_file_bytes limits)); [lia|]. }
  intros ?. cbn beta. eapply triple_bind with (mid := fun _ => log_at name bs).
  { apply triple_read. intros d Hd. by rewrite (Hc d Hd). }
  intros ?. cbn beta. destruct (Z.eqb_spec (zlen bs) 0) as [E|].
  - apply triple_ret. intros d Hd. split; [done|]. by destruct bs.
  - apply triple_read. intros d Hd. by rewrite (Hc d Hd).
Qed.

Lemma triple_replay_found :
  triple replaying (log_at name (log docs ++ tail)) replay_found
    (fun r d => log_at name (log docs) d /\ r = docs) (fun _ _ => False).
Proof using Hdocs Hcount Htail Hsize.
  unfold replay_found. eapply triple_bind; [by apply triple_read_log|]. intros bytes. cbn beta.
  apply triple_given. intros ->.
  eapply triple_bind with (mid := fun r d => log_at name (log docs ++ tail) d /\ r = (docs, tail)).
  { apply triple_lift. intros d Hd. by rewrite scan_log_documents. }
  intros [documents t]. cbn beta. apply triple_given. intros [= -> ->].
  rewrite zlen_app. pose proof (zlen_nonneg tail). destruct (Z.ltb_spec (zlen (log docs) + zlen tail - zlen tail) (zlen (log docs) + zlen tail)).
  - eapply triple_bind with (mid := fun _ => log_file False name (shrinking (log docs) tail)).
    { apply triple_call. intros d Hd _.
      assert (log_file False name (shrinking (log docs) tail) (d_resize name (zlen (log docs) + zlen tail - zlen tail) d)).
      { eapply log_file_on_file; [|exact Hd]. intros node <-. unfold shrinking, synced. cbn [durable current kept].
        replace (Z.to_nat (zlen (log docs) + zlen tail - zlen tail)) with (length (log docs)) by (unfold zlen; lia).
        rewrite take_app_length, length_app. f_equal. lia. }
      split; [right; by left|done]. }
    intros ?. cbn beta. eapply triple_bind with (mid := fun _ => log_at name (log docs)).
    { apply triple_wal_sync; [intros d H'; right; by right|]. by intros node ->. }
    intros ?. cbn beta. by apply triple_ret.
  - destruct tail as [|b t]; [|rewrite zlen_cons in *; pose proof (zlen_nonneg t); lia].
    rewrite app_nil_r in *. by apply triple_ret.
Qed.

Lemma replay_unfold d calls : (exists i, dir d !! name = Some i) ->
  replay name limits (world d calls) =
  match calls with
  | [] => replay_found (world d [])
  | None :: calls' => replay_found (world d calls')
  | Some _ :: calls' => (Ok [], world d calls')
  end.
Proof using Type.
  intros [i Hi]. unfold replay, exists_quietly, file_exists, call_read, mbind, io_bind, next_fault.
  assert (Hb : bool_decide (is_Some (dir d !! name)) = true) by (rewrite Hi; by apply bool_decide_eq_true_2).
  destruct calls as [|[n|] calls]; cbn [script world disk set_script]; rewrite ?Hb; reflexivity.
Qed.
End replay.

(** Replaying the log without failures gives these documents. *)
Definition recovers (limits : WalLimits) (name : string) (d : Disk) (docs : list Document) : Prop :=
  (replay name limits (world d [])).1 = Ok docs.

Lemma log_recovers limits name docs tail d : Forall (loggable limits) docs -> zlen docs <= wal_maximum_records limits ->
  torn limits tail \/ tail = [] -> zlen (log docs ++ tail) <= wal_maximum_file_bytes limits ->
  log_at name (log docs ++ tail) d -> recovers limits name d docs.
Proof.
  intros Hd Hc Ht Hs Hl. unfold recovers. rewrite replay_unfold.
  2:{ destruct (log_file_content _ _ _ _ Hl) as (_ & _ & _ & ?). done. }
  pose proof (triple_replay_found name limits docs tail Hd Hc Ht Hs (world d []) Hl (or_introl Hl)
    ltac:(constructor; [by left|done])) as H.
  destruct (replay_found name limits (world d [])) as [[r|e] w]; destruct H as (_ & _ & _ & H).
  - by destruct H as [_ ->].
  - destruct H as [H|[]]. destruct H. by constructor.
Qed.

(** ** The theorems *)

Lemma prefix_torn limits d p : loggable limits d -> p `prefix_of` entry d -> p = entry d \/ torn limits p.
Proof.
  intros Hd [k E]. destruct k as [|b k]; [left; by rewrite app_nil_r in E|right].
  exists d, (length p). split_and!; [done| |].
  - rewrite E, length_app. cbn. lia.
  - by rewrite E, take_app_length.
Qed.

Lemma torn_prefix_length limits t : torn limits t -> exists d, loggable limits d /\ zlen t < zlen (entry d).
Proof. intros (d & k & Hd & Hk & ->). exists d. split; [done|]. unfold zlen. rewrite length_take. lia. Qed.

(** A log that does not exist is replayed as an empty one. *)
Lemma missing_recovers limits name d : missing name d -> recovers limits name d [].
Proof.
  intros Hm. unfold recovers, replay, exists_quietly, file_exists. unfold mbind, io_bind.
  change (world ?x []) with (quiet x [x]). rewrite (read_run _ _ false); [done|].
  f_equal. apply bool_decide_eq_false_2. rewrite (Hm (dir d)) by left. by intros [].
Qed.

(** *** The entry of the log *)

(** Every directory a crash can go back to has the log. *)
Definition durable_entry (name : string) (d : Disk) : Prop := forall m, m ∈ history d -> is_Some (m !! name).

(** The log holds these bytes, all of them on the medium; its entry need not be:
    some directories a crash can go back to may not have it.  An empty log
    need not exist. *)
Definition log_holds (name : string) (bs : list byte) : Disk -> Prop := log_held True name bs.

Lemma log_holds_lost name bs d : log_holds name bs d -> log_held (~ durable_entry name d) name bs d.
Proof.
  assert (Hno : forall m, m ∈ history d -> m !! name = None -> ~ durable_entry name d).
  { intros m Hm E H. destruct (H m Hm) as [i Hi]. congruence. }
  intros [(i & node & Hi & Ho & Hn)|(_ & Hbs & Hm)]; [left|right].
  - exists i, node. split_and!; [done| |apply Hn..]. intros m Hin. destruct (Ho m Hin) as [?|[_ E]]; [by left|right].
    split; [|done]. apply (Hno m); [by right|done].
  - split_and!; [|done..]. apply (Hno (dir d)); [by left|]. apply Hm. by left.
Qed.

Lemma log_at_holds name bs d : log_at name bs d -> log_holds name bs d /\ durable_entry name d.
Proof.
  intros H. split; [left; by apply log_file_lost|]. destruct H as (i & node & Hi & Ho & _).
  intros m [->|Hm]%elem_of_cons; [by exists i|]. destruct (Ho m Hm) as [E|[[] _]]. by exists i.
Qed.

Lemma durable_entry_crash name d d' : durable_entry name d -> crash d d' -> durable_entry name d'.
Proof.
  intros H C m. unfold history. rewrite (crash_older _ _ C), list_elem_of_singleton. intros ->. apply H.
  unfold history. rewrite elem_of_cons. apply C.
Qed.

(** A crash can go back to any directory since the last sync. *)
Lemma crash_to d m : m ∈ history d -> exists after, crash d after /\ dir after = m.
Proof.
  intros Hm. exists {| inodes := synced ∘ durable <$> inodes d; dir := m; older := []; fresh := fresh d |}. split; [|done].
  split; cbn [dir older fresh]; try done; [by apply elem_of_cons in Hm|].
  intros i. cbn [inodes]. rewrite lookup_fmap. destruct (inodes d !! i) as [node|]; [|done]. cbn. split; [done|by left].
Qed.

(** The name is in the directory now, and the directories since the last sync
    that do not have it remain. *)
Lemma not_durable_missing name d : ~ durable_entry name d -> exists m, m ∈ history d /\ m !! name = None.
Proof.
  intros H. destruct (decide (Forall (fun m : gmap string Z => is_Some (m !! name)) (history d))) as [Hall|Hno].
  - destruct H. intros m Hm. rewrite Forall_forall in Hall. by apply Hall.
  - apply not_Forall_Exists in Hno; [|apply _]. apply Exists_exists in Hno as (m & Hm & E). exists m.
    split; [done|]. by apply eq_None_not_Some.
Qed.

(** *** Appending *)

(** Every crash during an append, and after it. *)
Lemma append_durable (limits : WalLimits) (name : string) (docs : list Document) (document : Document)
    (d : Disk) (calls : list (option nat)) :
  Forall (loggable limits) docs -> loggable limits document ->
  zlen docs < wal_maximum_records limits ->
  zlen (log (docs ++ [document])) <= wal_maximum_file_bytes limits ->
  log_holds name (log docs) d ->
  let gone after := ~ durable_entry name d /\ missing name after in
  let '(r, w) := append name document (world d calls) in
  (forall moment after, moment ∈ disk w :: passed w -> crash moment after ->
     recovers limits name after docs \/ recovers limits name after (docs ++ [document]) \/ gone after) /\
  (r = Ok tt -> log_holds name (log (docs ++ [document])) (disk w) /\
     (forall after, crash (disk w) after -> recovers limits name after (docs ++ [document]) \/ gone after) /\
     (~ durable_entry name d -> exists after, crash (disk w) after /\ missing name after)) /\
  (Forall (eq None) calls -> r = Ok tt).
Proof.
  intros Hdocs Hdoc Hcount Hsize Hholds gone. apply log_holds_lost in Hholds as Hat. fold (~ durable_entry name d) in *.
  assert (Hdocs' : Forall (loggable limits) (docs ++ [document])) by (apply Forall_app; split; [done|by constructor]).
  assert (Hlog : log (docs ++ [document]) = log docs ++ entry document)
    by (rewrite log_app; unfold log at 2; by rewrite bind_cons, app_nil_r).
  assert (Hcount' : zlen (docs ++ [document]) <= wal_maximum_records limits) by (rewrite zlen_app; change (zlen [document]) with 1; lia).
  assert (Hall : forall after, log_at name (log (docs ++ [document])) after -> recovers limits name after (docs ++ [document])).
  { intros after Hl. apply log_recovers with []; rewrite ?app_nil_r; auto. }
  rewrite Hlog in *. set (extra := fun d' => history d ⊆ history d').
  pose proof (triple_append_within (~ durable_entry name d) name (log docs) document (appending (~ durable_entry name d) name (log docs) document) extra
    ltac:(by auto) ltac:(intros d' f _; unfold extra, on_file; by destruct (dir d' !! name))
    ltac:(intros d' _ _; unfold extra, history; cbn; set_solver) (world d calls) (conj Hat (reflexivity _)) (or_introl Hat)
    ltac:(constructor; [by left|done])) as H.
  destruct (append name document (world d calls)) as [r w]. destruct H as (Hs & Hpassed & Hclean & Hr). split_and!.
  - intros moment after Hm C. assert (appending (~ durable_entry name d) name (log docs) document moment) as Ha.
    { apply elem_of_cons in Hm as [->|Hm]; [done|]. rewrite Forall_forall in Hpassed. by apply Hpassed. }
    destruct (appending_crash _ _ _ _ _ _ Ha C) as [(p & Hp & Hl)|Hgone]; [|by right; right].
    destruct (prefix_torn limits document p Hdoc Hp) as [->|Ht]; [right; left; by apply Hall|left].
    apply log_recovers with p; try done; [lia|by left|].
    destruct Hp as [k E]. fold (entry document) in E. rewrite E, !zlen_app in Hsize. rewrite zlen_app.
    pose proof (zlen_nonneg k). lia.
  - intros ->. destruct Hr as [[Hl Hhist] _]. split_and!.
    + left. destruct Hl as (i & node & Hi & Ho & Hn). exists i, node. split_and!; [done| |apply Hn..].
      intros m Hm. destruct (Ho m Hm) as [?|[_ ?]]; auto.
    + intros after C. destruct (log_file_crash _ _ _ _ _ Hl C) as [(node & bs & <- & Hsv & Hl')|Hgone]; [left|by right].
      apply survives_synced in Hsv as ->. by apply Hall.
    + intros (m & Hm & E)%not_durable_missing. destruct (crash_to (disk w) m) as (after & C & <-); [by apply Hhist|].
      exists after. split; [done|]. intros m'. unfold history. rewrite (crash_older _ _ C), list_elem_of_singleton. by intros ->.
  - intros Hcl. destruct r as [[]|e]; [done|]. exfalso. destruct Hr as [Hr|Hr]; [by apply Hr|].
    apply Hr. split; apply Hdoc.
Qed.

(** C13. Appending a document to a log, both within the limits of [replay].
    The records before it are on the medium, but the log's entry in the
    directory need not be: [append] syncs the file and never the directory, and
    the first append creates the file.  Whatever calls fail, after a crash at
    any moment a replay finds the logged documents, or these and the new one,
    or else the whole log is gone; once [append] has returned without error,
    the new document is found after any crash, or else the log is gone.  A
    crash takes the log only if its entry was not durable when [append]
    started, and if it was not one can do so after [append] has returned.
    Without failing calls [append] returns without error. *)
Theorem wal_append_durable (limits : WalLimits) (name : string) (docs : list Document) (document : Document)
    (d : Disk) (calls : list (option nat)) :
  Forall (loggable limits) docs -> loggable limits document ->
  zlen docs < wal_maximum_records limits ->
  zlen (log (docs ++ [document])) <= wal_maximum_file_bytes limits ->
  log_holds name (log docs) d ->
  let gone after := recovers limits name after [] /\ ~ durable_entry name d in
  let '(r, w) := append name document (world d calls) in
  (forall moment after, moment ∈ disk w :: passed w -> crash moment after ->
     recovers limits name after docs \/ recovers limits name after (docs ++ [document]) \/ gone after) /\
  (r = Ok tt -> log_holds name (log (docs ++ [document])) (disk w) /\
     (forall after, crash (disk w) after -> recovers limits name after (docs ++ [document]) \/ gone after) /\
     (~ durable_entry name d -> exists after, crash (disk w) after /\ recovers limits name after [])) /\
  (Forall (eq None) calls -> r = Ok tt).
Proof.
  intros H1 H2 H3 H4 H5 gone. pose proof (append_durable limits name docs document d calls H1 H2 H3 H4 H5) as H.
  destruct (append name document (world d calls)) as [r w]. destruct H as (Hmoment & Hdone & Hquiet). unfold gone. split_and!.
  - intros moment after Hm C. destruct (Hmoment moment after Hm C) as [?|[?|[? ?%(missing_recovers limits)]]]; auto.
  - intros Hr. destruct (Hdone Hr) as (Hh & Hafter & Hcan). split_and!; [done|..].
    + intros after C. destruct (Hafter after C) as [?|[? ?%(missing_recovers limits)]]; auto.
    + intros Hno. destruct (Hcan Hno) as (after & C & ?%(missing_recovers limits)). by exists after.
  - exact Hquiet.
Qed.

(** C32. Replaying a log that ends in a torn record: whatever calls fail, the
    log still recovers the same documents after a crash at any moment; when
    the first call ([exists]) is not the one that fails, a result is these
    documents, and the torn record is gone from the medium; when it is, the
    result is an empty list all the same. *)
Theorem wal_replay_recovers (limits : WalLimits) (name : string) (docs : list Document) (tail : list byte)
    (d : Disk) (calls : list (option nat)) :
  Forall (loggable limits) docs -> zlen docs <= wal_maximum_records limits ->
  torn limits tail \/ tail = [] -> zlen (log docs ++ tail) <= wal_maximum_file_bytes limits ->
  log_at name (log docs ++ tail) d ->
  let '(r, w) := replay name limits (world d calls) in
  (forall moment after, moment ∈ disk w :: passed w -> crash moment after -> recovers limits name after docs) /\
  match calls with
  | Some _ :: _ => r = Ok []
  | _ => (forall l, r = Ok l -> l = docs /\ log_at name (log docs) (disk w)) /\
         (Forall (eq None) calls -> r = Ok docs)
  end.
Proof.
  intros Hd Hc Ht Hs Hl.
  assert (Hmoment : forall moment after, replaying name docs tail moment -> crash moment after -> recovers limits name after docs).
  { intros moment after Hm C. destruct (replaying_crash _ _ _ _ _ Hm C) as (t & [->| ->] & Hl');
      (eapply log_recovers; [done|done| | |exact Hl']); [by right| |done|done].
    rewrite app_nil_r. rewrite zlen_app in Hs. pose proof (zlen_nonneg tail). lia. }
  assert (Hdir : exists i, dir d !! name = Some i) by (destruct (log_file_content _ _ _ _ Hl) as (_ & _ & _ & ?); done).
  rewrite (replay_unfold name limits d calls Hdir).
  assert (Hfound : forall calls', let '(r, w) := replay_found name limits (world d calls') in
    (forall moment after, moment ∈ disk w :: passed w -> crash moment after -> recovers limits name after docs) /\
    (forall l, r = Ok l -> l = docs /\ log_at name (log docs) (disk w)) /\ (Forall (eq None) calls' -> r = Ok docs)).
  { intros calls'. pose proof (triple_replay_found name limits docs tail Hd Hc Ht Hs (world d calls') Hl (or_introl Hl)
      ltac:(constructor; [by left|done])) as H.
    destruct (replay_found name limits (world d calls')) as [r w]. destruct H as (Hsafe & Hpassed & Hclean & Hr). split_and!.
    - intros moment after Hm. apply Hmoment. apply elem_of_cons in Hm as [->|Hm]; [done|].
      rewrite Forall_forall in Hpassed. by apply Hpassed.
    - intros l ->. by destruct Hr.
    - intros Hcl. destruct r as [l|e]; [by destruct Hr as [_ ->]|]. destruct Hr as [Hr|[]]. by destruct Hr. }
  destruct calls as [|[n|] calls].
  - specialize (Hfound []). by destruct (replay_found name limits (world d [])).
  - split; [|done]. intros moment after Hm. apply Hmoment. left.
    apply elem_of_cons in Hm as [->|Hm%list_elem_of_singleton]; [done|by subst].
  - specialize (Hfound calls). destruct (replay_found name limits (world d calls)) as [r w].
    destruct Hfound as (? & ? & Hok). split; [done|]. split; [done|]. intros Hcl. apply Hok. by inversion Hcl.
Qed.

(** What [append] accepts and what [replay] accepts differ: a document
    that can be encoded is decoded again exactly when its strings and maps are
    within the limits of [replay]; otherwise [replay] reports corruption. *)
Theorem wal_decode_encode (limits : WalLimits) (document : Document) (bytes : list byte) :
  is_u64 (doc_version document) -> encode document = Ok bytes ->
  (decode limits bytes = Ok document <-> recoverable limits document) /\
  (~ recoverable limits document -> exists message, decode limits bytes = Err (fail wal_corruption message)).
Proof. intros Hv [He ->]%encode_Ok. by apply decode_payload. Qed.

(** ** Samples *)

Definition log_disk (name : string) (bs : list byte) : Disk :=
  {| inodes := {[0 := synced bs]}; dir := {[name := 0]}; older := []; fresh := 1 |}.

Lemma log_disk_at name bs : log_at name bs (log_disk name bs).
Proof.
  exists 0, (synced bs). split_and!; [cbn; apply lookup_singleton_eq| |cbn; apply lookup_singleton_eq|done].
  by intros m ?%not_elem_of_nil.
Qed.

Lemma empty_disk_missing name : missing name empty_disk.
Proof. intros m ->%list_elem_of_singleton. apply lookup_empty. Qed.

Definition sample_logged (id : string) : Document :=
  {| doc_id := id; doc_fields := {["title" := "one"]}; doc_stored_metadata := ∅; doc_version := 3; doc_deleted := false |}.

Lemma sample_encodable id : short id -> encodable (sample_logged id).
Proof.
  intros Hid. split; [done|]. split; (split; [split; vm_compute; discriminate|]); cbn.
  - intros k v [<- <-]%lookup_singleton_Some. split; split; vm_compute; discriminate.
  - intros k v Hk. by rewrite lookup_empty in Hk.
Qed.

Lemma sample_recoverable id : id <> "" -> zstrlen id <= 16777216 -> recoverable default_wal_limits (sample_logged id).
Proof.
  intros Hne Hid. split; [done|done| |]; (split; [vm_compute; discriminate|]); cbn.
  - intros k v [<- <-]%lookup_singleton_Some. split_and!; vm_compute; discriminate.
  - intros k v Hk. by rewrite lookup_empty in Hk.
Qed.

Lemma sample_loggable id : bool_decide (id <> "" /\ zstrlen id <= 16777216 /\
    zlen (payload (sample_logged id)) <= 16777216) = true -> loggable default_wal_limits (sample_logged id).
Proof.
  intros (Hne & Hid & Hp)%bool_decide_eq_true_1. pose proof (zstrlen_nonneg id). pose proof (zlen_nonneg (payload (sample_logged id))).
  split.
  - apply sample_encodable. unfold short, is_u32, u32_max. lia.
  - split; vm_compute; discriminate.
  - by apply sample_recoverable.
  - unfold is_u32, u32_max. lia.
  - change (wal_maximum_record_bytes default_wal_limits) with 67108864. lia.
Qed.

(** A second record, whose write stops after seven bytes; and the first record
    of a new log. *)
Lemma wal_append_durable_witness :
  (let ran := append "LOG" (sample_logged "b") (world (log_disk "LOG" (log [sample_logged "a"])) [None; None; Some 7%nat]) in
   ran.1 <> Ok tt /\
   forall after, crash (disk ran.2) after ->
     recovers default_wal_limits "LOG" after [sample_logged "a"] \/
     recovers default_wal_limits "LOG" after [sample_logged "a"; sample_logged "b"]) /\
  (let ran := append "LOG" (sample_logged "a") (world empty_disk []) in
   ran.1 = Ok tt /\ exists after, crash (disk ran.2) after /\ recovers default_wal_limits "LOG" after []).
Proof.
  split; intros ran.
  - split; [vm_compute; discriminate|].
    destruct (log_at_holds _ _ _ (log_disk_at "LOG" (log [sample_logged "a"]))) as [Hheld Hentry].
    pose proof (wal_append_durable default_wal_limits "LOG" [sample_logged "a"] (sample_logged "b")
      (log_disk "LOG" (log [sample_logged "a"])) [None; None; Some 7%nat]
      ltac:(constructor; [apply sample_loggable; vm_compute; reflexivity|constructor])
      ltac:(apply sample_loggable; vm_compute; reflexivity) ltac:(vm_compute; reflexivity)
      ltac:(vm_compute; discriminate) Hheld) as H.
    fold ran in H. destruct ran as [r w]. intros after C.
    destruct (proj1 H (disk w) after ltac:(left) C) as [Ha|[Ha|[_ Hno]]]; [left; exact Ha|right; exact Ha|destruct (Hno Hentry)].
  - pose proof (wal_append_durable default_wal_limits "LOG" [] (sample_logged "a") empty_disk []
      ltac:(constructor) ltac:(apply sample_loggable; vm_compute; reflexivity) ltac:(vm_compute; reflexivity)
      ltac:(vm_compute; discriminate) (or_intror (conj I (conj eq_refl (empty_disk_missing "LOG"))))) as H.
    fold ran in H. destruct ran as [r w]. destruct H as (_ & Hdone & Hquiet). specialize (Hquiet (Forall_nil_2 _)).
    split; [exact Hquiet|]. destruct (Hdone Hquiet) as (_ & _ & Hcan). apply Hcan.
    intros Hentry. destruct (Hentry ∅ ltac:(left)) as [i Hi]. discriminate Hi.
Defined.

Lemma wal_replay_recovers_witness :
  let tail := take 20 (entry (sample_logged "b")) in
  let ran := replay "LOG" default_wal_limits (world (log_disk "LOG" (log [sample_logged "a"] ++ tail)) []) in
  ran.1 = Ok [sample_logged "a"] /\ log_at "LOG" (log [sample_logged "a"]) (disk ran.2).
Proof.
  intros tail ran.
  assert (Ht : torn default_wal_limits tail).
  { exists (sample_logged "b"), 20%nat. split; [apply sample_loggable; vm_compute; reflexivity|].
    split; [vm_compute; lia|reflexivity]. }
  pose proof (wal_replay_recovers default_wal_limits "LOG" [sample_logged "a"] tail
    (log_disk "LOG" (log [sample_logged "a"] ++ tail)) []
    ltac:(constructor; [apply sample_loggable; vm_compute; reflexivity|constructor])
    ltac:(vm_compute; discriminate) (or_introl Ht) ltac:(vm_compute; discriminate) (log_disk_at _ _)) as H.
  fold ran in H. destruct ran as [r w]. cbn [fst snd]. destruct H as (_ & H & Hr).
  assert (Hok : r = Ok [sample_logged "a"]) by (apply Hr; constructor). split; [exact Hok|]. exact (proj2 (H _ Hok)).
Defined.

Lemma wal_decode_encode_witness :
  exists bytes, encode (sample_logged "a") = Ok bytes /\
    (decode default_wal_limits bytes = Ok (sample_logged "a") <-> recoverable default_wal_limits (sample_logged "a")).
Proof.
  exists (payload (sample_logged "a")).
  assert (E : encode (sample_logged "a") = Ok (payload (sample_logged "a"))) by (vm_compute; reflexivity).
  split; [exact E|]. apply (wal_decode_encode default_wal_limits (sample_logged "a") _
    ltac:(split; vm_compute; discriminate) E).
Defined.
