(* ===== verification/Generation.v ===== *)
(** * Generations and merges

    src/storage/generation.cpp: the view of all segments of a generation, in
    which every document has its newest version, and the merge of segments
    into one. *)

From S2P Require Import Prelude Bytes Text Doubles Analysis Schema Types Index Segment Store SegmentStore Manifest.

Inductive GenerationErrorCode := empty_generation | schema_mismatch | invalid_document | generation_segment_error.

#[export] Instance GenerationErrorCode_eq_dec : EqDecision GenerationErrorCode.
Proof. solve_decision. Defined.

Record GenerationError := { generation_code : GenerationErrorCode; generation_message : string }.

Definition generation_fail (code : GenerationErrorCode) (message : string) : GenerationError :=
  {| generation_code := code; generation_message := message |}.

(** ** [same_schema] *)

Definition same_analyzer (x y : option Analyzer) : bool :=
  match x, y with
  | Some a, Some b => str_eqb (descriptor a) (descriptor b)
  | None, None => true
  | _, _ => false
  end.

Definition same_field (x y : FieldDefinition) : bool :=
  str_eqb (fd_name x) (fd_name y) && bool_decide (fd_type x = fd_type y) &&
  Bool.eqb (fd_indexed x) (fd_indexed y) && Bool.eqb (fd_stored x) (fd_stored y) &&
  d_eqb (fd_boost x) (fd_boost y) && same_analyzer (fd_analyzer x) (fd_analyzer y).

(** The two iterators of the loop. *)
Fixpoint same_fields (a b : list (string * FieldDefinition)) : bool :=
  match a, b with
  | (_, x) :: a', (_, y) :: b' => same_field x y && same_fields a' b'
  | _, _ => true
  end.

Definition same_schema (left right : IndexSchema) : bool :=
  Nat.eqb (size (IndexSchema.fields_ left)) (size (IndexSchema.fields_ right)) &&
  same_fields (map_items (IndexSchema.fields_ left)) (map_items (IndexSchema.fields_ right)).

(** ** Winners *)

Notation Winners := (gmap string Document).

Definition merge_record (winners : Winners) (item : DocumentId * DocumentRecord) : expected GenerationError Winners :=
  let '(id, record) := item in
  match winners !! id with
  | None => Ok (<[id := document record]> winners)
  | Some found =>
      if doc_version (document record) >? doc_version found then Ok (<[id := document record]> winners)
      else if (doc_version (document record) =? doc_version found) &&
              negb (Bool.eqb (doc_deleted (document record)) (doc_deleted found))
      then Err (generation_fail invalid_document "conflicting equal document versions")
      else Ok winners
  end.

Definition merge_segment (schema : IndexSchema) (winners : Winners) (segment : SegmentReader)
    : expected GenerationError Winners :=
  _ ← ensure (same_schema (SegmentReader.schema_ segment) schema)
        (generation_fail schema_mismatch "segment schemas differ");
  fold_each merge_record winners (map_items (SegmentReader.documents_ segment)).

Definition insert_winner (index : InMemoryIndex) (item : DocumentId * Document) : expected GenerationError InMemoryIndex :=
  map_err (fun e => generation_fail invalid_document (index_message e)) (InMemoryIndex.put index item.2).

(** What [GenerationView::open] and [merge_segments] both do. *)
Definition resolve (empty_message : string) (segments : list SegmentReader) : expected GenerationError InMemoryIndex :=
  match segments with
  | [] => Err (generation_fail empty_generation empty_message)
  | front :: _ =>
      let schema := SegmentReader.schema_ front in
      winners ← fold_each (merge_segment schema) ∅ segments;
      fold_each insert_winner (InMemoryIndex.make schema u32_max) (map_items winners)
  end.

Module GenerationView.

Record GenerationView := { generation_ : OpenGeneration; resolved_ : InMemoryIndex }.

Definition open (generation : OpenGeneration) : expected GenerationError GenerationView :=
  resolved ← resolve "generation has no segments" (open_readers generation);
  Ok {| generation_ := generation; resolved_ := resolved |}.

(** The queries are those of the resolved index. *)
Definition view (v : GenerationView) : SearchIndexView := InMemoryIndex.view (resolved_ v).

Definition snapshot (v : GenerationView) : IndexSnapshot := InMemoryIndex.snapshot (resolved_ v).

End GenerationView.

Notation GenerationView := GenerationView.GenerationView.

Module SegmentMerger.

Definition segment_filename (id : SegmentId) : string := "segment-" +:+ to_string_u id +:+ ".dseg".

Definition write_merged (snapshot : IndexSnapshot) (output_id : SegmentId) (compressed : bool)
    : IO GenerationError ManifestSegment :=
  let name := segment_filename output_id in
  _ ← io_map_err (fun e => generation_fail generation_segment_error (segment_message e))
        (write_segment name snapshot {| write_segment_id := output_id; compressed_postings := compressed |});
  mret {| manifest_segment_id := output_id; filename := name |}.

Definition merge (generation : GenerationView) (output_id : SegmentId) (compressed : bool)
    : IO GenerationError ManifestSegment :=
  write_merged (GenerationView.snapshot generation) output_id compressed.

Definition merge_segments (segments : list SegmentReader) (output_id : SegmentId) (compressed : bool)
    : IO GenerationError ManifestSegment :=
  resolved ← io_lift (resolve "merge has no segments" segments);
  write_merged (InMemoryIndex.snapshot resolved) output_id compressed.

End SegmentMerger.
