(* ===== verification/GenerationSpec.v ===== *)
(** * Generations: resolution and compaction

    A generation shows the newest version of every document, whatever segment
    holds it, and merging some of its segments changes nothing that can be
    seen. *)

From S2P Require Import Prelude Bytes Text Doubles Analysis Schema Types Index IndexSpec IndexChecks Contents ViewSpec Ranking Segment SegmentSpec SegmentFile SegmentRoundtrip Store StoreSpec SegmentStore Manifest ManifestSpec Durability Generation.
From Stdlib Require Import SpecFloat.
Import SegmentReader.

(** The document that a segment holds under an identifier. *)
Definition holds_document (s : SegmentReader) (id : DocumentId) : option Document := document <$> documents_ s !! id.

(** The newest version of a document in a set of segments. *)
Definition newest (segments : list SegmentReader) (id : DocumentId) (d : Document) : Prop :=
  (exists s, s ∈ segments /\ holds_document s id = Some d) /\
  forall s d', s ∈ segments -> holds_document s id = Some d' -> doc_version d' <= doc_version d.

(** Versions identify the contents of a document: what a writer that accepts
    only newer versions guarantees. *)
Definition coherent (segments : list SegmentReader) : Prop :=
  forall s s' id d d', s ∈ segments -> s' ∈ segments -> holds_document s id = Some d -> holds_document s' id = Some d' ->
    doc_version d = doc_version d' -> d = d'.

(** ** The same schema *)

Lemma d_eqb_refl x : d_not_nan x = true -> d_eqb x x = true.
Proof.
  destruct x as [[]|[]| |s m e]; try done. intros _. unfold d_eqb, SFeqb, SFcompare.
  destruct s; by rewrite Z.compare_refl, Pos.compare_cont_refl.
Qed.

Lemma same_field_refl x : d_not_nan (fd_boost x) = true -> same_field x x = true.
Proof.
  intros Hb. unfold same_field, same_analyzer, str_eqb. rewrite !bool_decide_eq_true_2, !eqb_reflx, d_eqb_refl by done.
  destruct (fd_analyzer x); [by rewrite bool_decide_eq_true_2|done].
Qed.

Definition schema_comparable (schema : IndexSchema) : Prop :=
  map_Forall (fun _ x => d_not_nan (fd_boost x) = true) (IndexSchema.fields_ schema).

Lemma same_schema_refl schema : schema_comparable schema -> same_schema schema schema = true.
Proof.
  intros Hc. unfold same_schema. rewrite Nat.eqb_refl. cbn [andb].
  assert (H : Forall (fun x => d_not_nan (fd_boost x.2) = true) (map_items (IndexSchema.fields_ schema))).
  { rewrite Forall_forall. intros [k x] Hx%elem_of_map_items. by apply (Hc k). }
  induction H as [|[k x] l Hx _ IH]; [done|]. cbn. by rewrite same_field_refl.
Qed.

(** ** Winners *)

Notation Entries := (list (DocumentId * DocumentRecord)).

Definition agree (entries : Entries) : Prop :=
  forall id r r', (id, r) ∈ entries -> (id, r') ∈ entries ->
    doc_version (document r) = doc_version (document r') -> document r = document r'.

(** What the loop keeps, of the entries it has been through. *)
Definition won (entries : Entries) (w : Winners) : Prop :=
  forall id, match w !! id with
             | None => forall r, (id, r) ∉ entries
             | Some d => (exists r, (id, r) ∈ entries /\ document r = d) /\
                         forall r, (id, r) ∈ entries -> doc_version (document r) <= doc_version d
             end.

Lemma won_step entries id r w : agree (entries ++ [(id, r)]) -> won entries w ->
  exists w', merge_record w (id, r) = Ok w' /\ won (entries ++ [(id, r)]) w'.
Proof.
  intros Ha Hw. unfold merge_record. pose proof (Hw id) as Hid.
  assert (Hmem : forall k x, (k, x) ∈ entries ++ [(id, r)] <-> (k, x) ∈ entries \/ k = id /\ x = r).
  { intros k x. rewrite elem_of_app, list_elem_of_singleton. split; (intros [?|H]; [by left|right]); [by injection H|].
    by destruct H as [-> ->]. }
  assert (Hother : forall (w' : Winners) k, k <> id -> w' !! k = w !! k ->
    match w' !! k with
    | None => forall x, (k, x) ∉ entries ++ [(id, r)]
    | Some d => (exists x, (k, x) ∈ entries ++ [(id, r)] /\ document x = d) /\
                forall x, (k, x) ∈ entries ++ [(id, r)] -> doc_version (document x) <= doc_version d
    end).
  { intros w' k Hk ->. specialize (Hw k). destruct (w !! k) as [d|].
    - destruct Hw as [(x & Hx & E) Hmax]. split; [exists x; split; [apply Hmem; by left|done]|].
      intros y [Hy|[? _]]%Hmem; [by apply Hmax|done].
    - intros x [Hx|[? _]]%Hmem; [by apply (Hw x)|done]. }
  assert (Hself : forall d, (exists x, (id, x) ∈ entries ++ [(id, r)] /\ document x = d) ->
    doc_version (document r) <= doc_version d ->
    (forall x, (id, x) ∈ entries -> doc_version (document x) <= doc_version d) ->
    (exists x, (id, x) ∈ entries ++ [(id, r)] /\ document x = d) /\
    forall x, (id, x) ∈ entries ++ [(id, r)] -> doc_version (document x) <= doc_version d).
  { intros d Hd Hr Hmax. split; [done|]. intros x [Hx|[_ ->]]%Hmem; [by apply Hmax|done]. }
  assert (Hnew : (id, r) ∈ entries ++ [(id, r)]) by (apply Hmem; by right).
  destruct (w !! id) as [d|] eqn:E.
  - destruct Hid as [(x & Hx & <-) Hmax]. assert (Hx' : (id, x) ∈ entries ++ [(id, r)]) by (apply Hmem; by left).
    destruct (Z.gtb_spec (doc_version (document r)) (doc_version (document x))) as [Hlt|Hge].
    + eexists. split; [done|]. intros k. destruct (decide (k = id)) as [->|Hk]; [|apply Hother; [done|by rewrite lookup_insert_ne]].
      rewrite lookup_insert_eq. apply Hself; [by exists r|lia|]. intros y Hy%Hmax. lia.
    + destruct (Z.eqb_spec (doc_version (document r)) (doc_version (document x))) as [Heq|].
      * rewrite (Ha id r x Hnew Hx' Heq), eqb_reflx. cbn [andb negb]. eexists. split; [done|].
        intros k. destruct (decide (k = id)) as [->|Hk]; [|by apply Hother]. rewrite E. apply Hself; [by exists x|lia|done].
      * cbn [andb]. eexists. split; [done|]. intros k. destruct (decide (k = id)) as [->|Hk]; [|by apply Hother].
        rewrite E. apply Hself; [by exists x|lia|done].
  - eexists. split; [done|]. intros k. destruct (decide (k = id)) as [->|Hk]; [|apply Hother; [done|by rewrite lookup_insert_ne]].
    rewrite lookup_insert_eq. apply Hself; [by exists r|lia|]. intros y Hy. by apply Hid in Hy.
Qed.

Lemma won_fold l : forall entries w, agree (entries ++ l) -> won entries w ->
  exists w', fold_each merge_record w l = Ok w' /\ won (entries ++ l) w'.
Proof.
  induction l as [|[id r] l IH]; intros entries w Ha Hw; [exists w; by rewrite app_nil_r|].
  replace (entries ++ (id, r) :: l) with ((entries ++ [(id, r)]) ++ l) in * by by rewrite <- app_assoc.
  destruct (won_step entries id r w) as (w' & E & Hw'); [|done|].
  { intros k x y Hx Hy. apply (Ha k x y); rewrite elem_of_app; by left. }
  cbn [fold_each]. rewrite E. by apply IH.
Qed.

Definition entries_of (segments : list SegmentReader) : Entries := segments ≫= (fun s => map_items (documents_ s)).

Lemma elem_of_entries segments id r : (id, r) ∈ entries_of segments <-> exists s, s ∈ segments /\ documents_ s !! id = Some r.
Proof.
  unfold entries_of. rewrite list_elem_of_bind. split; intros (s & H1 & H2); exists s.
  - split; [done|by apply elem_of_map_items].
  - split; [by apply elem_of_map_items|done].
Qed.

Lemma coherent_agree segments : coherent segments -> agree (entries_of segments).
Proof.
  intros Hc id r r' (s & Hs & Hr)%elem_of_entries (s' & Hs' & Hr')%elem_of_entries E.
  apply (Hc s s' id); try done; unfold holds_document; [by rewrite Hr|by rewrite Hr'].
Qed.

(** The winners are the newest documents. *)
Lemma won_newest segments w : coherent segments -> won (entries_of segments) w ->
  forall id d, w !! id = Some d <-> newest segments id d.
Proof.
  intros Hc Hw id d. specialize (Hw id).
  assert (Hholds : forall d', (exists r, (id, r) ∈ entries_of segments /\ document r = d') <->
    exists s, s ∈ segments /\ holds_document s id = Some d').
  { intros d'. unfold holds_document. split.
    - intros (r & (s & Hs & Hr)%elem_of_entries & <-). exists s. by rewrite Hr.
    - intros (s & Hs & H). destruct (documents_ s !! id) as [r|] eqn:Hr; [|done]. injection H as <-.
      exists r. split; [|done]. apply elem_of_entries. by exists s. }
  destruct (w !! id) as [d0|] eqn:E.
  - destruct Hw as [Hex Hmax]. assert (Hn : newest segments id d0).
    { split; [by apply Hholds|]. intros s d' Hs Hd'. destruct (proj2 (Hholds d')) as (r & Hr & <-); [by exists s|by apply Hmax]. }
    split; [intros [= <-]; done|]. intros [[s [Hs Hd]] Hmax']. destruct Hn as [[s0 [Hs0 Hd0]] Hmax0].
    f_equal. apply (Hc s0 s id); try done. pose proof (Hmax' s0 d0 Hs0 Hd0). pose proof (Hmax0 s d Hs Hd). lia.
  - split; [done|]. intros [Hex _]. apply Hholds in Hex as (r & Hr & _). by apply Hw in Hr.
Qed.

Lemma fold_segments schema segments : forall entries w,
  Forall (fun s => same_schema (schema_ s) schema = true) segments ->
  agree (entries ++ entries_of segments) -> won entries w ->
  exists w', fold_each (merge_segment schema) w segments = Ok w' /\ won (entries ++ entries_of segments) w'.
Proof.
  induction segments as [|s segments IH]; intros entries w Hs Ha Hw; [exists w; unfold entries_of; by rewrite app_nil_r|].
  apply Forall_cons in Hs as [Hs Hss]. unfold entries_of in *. rewrite bind_cons, app_assoc in *.
  destruct (won_fold (map_items (documents_ s)) entries w) as (w' & E & Hw'); [|done|].
  { intros k x y Hx Hy. apply (Ha k x y); rewrite elem_of_app; by left. }
  cbn [fold_each]. unfold merge_segment at 1. rewrite Hs. cbn [ensure mbind expected_bind]. rewrite E. by apply IH.
Qed.

(** ** Inserting the winners *)

(** A document that an index of this schema takes. *)
Definition insertable (schema : IndexSchema) (d : Document) : Prop :=
  exists index, InMemoryIndex.put (InMemoryIndex.make schema u32_max) d = Ok index.

Lemma put_schema_only index schema d : InMemoryIndex.schema_ index = schema ->
  InMemoryIndex.documents_ index !! doc_id d = None -> wf index ->
  Z.of_nat (size (InMemoryIndex.documents_ index)) < InMemoryIndex.maximum_internal_id_ index ->
  insertable schema d -> exists index', InMemoryIndex.put index d = Ok index'.
Proof.
  intros <- Hnone W Hroom [fresh_index Hput]. eapply put_agrees; [exact Hput|done| |done|].
  - rewrite contents_make, lookup_empty. unfold contents. by rewrite lookup_fmap, Hnone.
  - intros _. by rewrite contents_size.
Qed.

Definition keyed (l : list (DocumentId * Document)) : Prop := Forall (fun x => doc_id x.2 = x.1) l.

Lemma insert_winners_contents l : forall index index', keyed l -> NoDup l.*1 ->
  fold_each insert_winner index l = Ok index' -> (forall x, x ∈ l.*1 -> contents index !! x = None) ->
  contents index' = list_to_map l ∪ contents index.
Proof.
  induction l as [|[k d] l IH]; intros index index' Hk Hnd; cbn [fold_each].
  - intros [= <-] _. by rewrite list_to_map_nil, map_empty_union.
  - apply Forall_cons in Hk as [Hd Hk]. cbn in Hd. rewrite fmap_cons in Hnd. apply NoDup_cons in Hnd as [Hkl Hnd].
    destruct (insert_winner index (k, d)) as [index1|e] eqn:E; [|done]. unfold insert_winner in E. cbn [snd] in E.
    apply map_err_Ok, put_contents in E as [E _]. intros Hfold Hfresh.
    rewrite (IH index1 index' Hk Hnd Hfold).
    + rewrite E, Hd. cbn [list_to_map foldr]. rewrite <- insert_union_r; [|by apply not_elem_of_list_to_map_1].
      by rewrite insert_union_l.
    + intros x Hx. rewrite E, Hd, lookup_insert_ne by (intros ->; done). apply Hfresh. rewrite fmap_cons. by right.
Qed.

Lemma insert_winners_total schema l : forall index, keyed l -> NoDup l.*1 -> Forall (fun x => insertable schema x.2) l ->
  reachable schema u32_max index -> (forall x, x ∈ l.*1 -> contents index !! x = None) ->
  InMemoryIndex.maximum_internal_id_ index = u32_max ->
  Z.of_nat (size (contents index)) + zlen l <= u32_max ->
  exists index', fold_each insert_winner index l = Ok index' /\ reachable schema u32_max index'.
Proof.
  induction l as [|[k d] l IH]; intros index Hk Hnd Hi Hr Hfresh Hmax Hroom; cbn [fold_each]; [by exists index|].
  apply Forall_cons in Hk as [Hd Hk], Hi as [Hin Hi]. cbn in Hd, Hin. subst k.
  rewrite fmap_cons in Hnd. apply NoDup_cons in Hnd as [Hkl Hnd]. rewrite zlen_cons in Hroom. pose proof (zlen_nonneg l).
  destruct (reachable_wf schema u32_max index ltac:(by vm_compute) Hr) as [W Hs].
  assert (Hnone : contents index !! doc_id d = None) by (apply Hfresh; rewrite fmap_cons; left).
  destruct (put_schema_only index schema d Hs) as [index1 Hput]; [|done| |done|].
  { unfold contents in Hnone. rewrite lookup_fmap in Hnone. by destruct (InMemoryIndex.documents_ index !! doc_id d). }
  { rewrite Hmax. unfold contents in Hroom. rewrite map_size_fmap in Hroom. lia. }
  unfold insert_winner at 1. cbn [snd]. rewrite Hput. cbn [map_err].
  destruct (put_contents _ _ _ Hput) as [Hc Hm]. apply IH; try done.
  - by eapply reach_put.
  - intros x Hx. rewrite Hc, lookup_insert_ne by (intros <-; done). apply Hfresh. rewrite fmap_cons. by right.
  - by rewrite Hm.
  - rewrite Hc, map_size_insert_None by done. lia.
Qed.

(** ** Generations *)

(** What segments of one index agree on: the schema, keys that are the
    identifiers of the documents, and versions. *)
Record family (schema : IndexSchema) (segments : list SegmentReader) : Prop := {
  fam_comparable : schema_comparable schema;
  fam_schema : Forall (fun s => schema_ s = schema) segments;
  fam_keys : forall s id d, s ∈ segments -> holds_document s id = Some d -> doc_id d = id;
  fam_coherent : coherent segments
}.

Lemma family_winners schema segments : family schema segments ->
  exists w, fold_each (merge_segment schema) ∅ segments = Ok w /\
    (forall id d, w !! id = Some d <-> newest segments id d) /\ keyed (map_items w).
Proof.
  intros [Hc Hs Hk Hco]. destruct (fold_segments schema segments [] ∅) as (w & E & Hw).
  - eapply Forall_impl; [exact Hs|]. intros s ->. by apply same_schema_refl.
  - by apply coherent_agree.
  - intros id. rewrite lookup_empty. intros r Hr. by apply not_elem_of_nil in Hr.
  - exists w. assert (Hn : forall id d, w !! id = Some d <-> newest segments id d) by by apply won_newest.
    split_and!; [done|done|]. unfold keyed. rewrite Forall_forall. intros [id d] Hd%elem_of_map_items%Hn.
    destruct Hd as [(s & Hin & Hh) _]. by apply (Hk s).
Qed.

Lemma resolve_cons schema message segments : segments <> [] -> Forall (fun s => schema_ s = schema) segments ->
  resolve message segments = (winners ← fold_each (merge_segment schema) ∅ segments;
                              fold_each insert_winner (InMemoryIndex.make schema u32_max) (map_items winners)).
Proof. destruct segments as [|s segments]; [done|]. intros _ [<- _]%Forall_cons. done. Qed.

Lemma resolve_contents schema message segments index : family schema segments ->
  resolve message segments = Ok index -> forall id d, contents index !! id = Some d <-> newest segments id d.
Proof.
  intros Hf Hr id d. destruct segments as [|s0 segments0] eqn:Eseg; [done|]. rewrite <- Eseg in *.
  rewrite (resolve_cons schema) in Hr by (subst; done || apply Hf).
  destruct (family_winners schema segments Hf) as (w & Ew & Hw & Hk). rewrite Ew in Hr. cbn [mbind expected_bind] in Hr.
  apply insert_winners_contents in Hr; [|done|apply NoDup_fst_map_items|by rewrite contents_make].
  rewrite Hr, contents_make, map_union_empty, list_to_map_items. apply Hw.
Qed.

(** The newest documents decide the outcome. *)
Lemma resolve_newest schema message message' segments segments' : family schema segments -> family schema segments' ->
  segments <> [] -> segments' <> [] ->
  (forall id d, newest segments id d <-> newest segments' id d) -> resolve message segments = resolve message' segments'.
Proof.
  intros Hf Hf' Hne Hne' Heq. rewrite (resolve_cons schema message) by (done || apply Hf).
  rewrite (resolve_cons schema message') by (done || apply Hf').
  destruct (family_winners schema segments Hf) as (w & -> & Hw & _).
  destruct (family_winners schema segments' Hf') as (w' & -> & Hw' & _). cbn [mbind expected_bind].
  assert (w = w') as ->; [|done]. apply map_eq. intros id.
  destruct (w !! id) as [d|] eqn:E; symmetry.
  - apply Hw', Heq, Hw, E.
  - destruct (w' !! id) as [d|] eqn:E'; [|done]. apply Hw', Heq, Hw in E'. congruence.
Qed.

Lemma newest_exists segments s id d : coherent segments -> s ∈ segments -> holds_document s id = Some d ->
  exists d', newest segments id d' /\ doc_version d <= doc_version d'.
Proof.
  intros Hc Hs Hd. destruct (won_fold (entries_of segments) [] ∅) as (w & _ & Hw).
  { by apply coherent_agree. }
  { intros k. rewrite lookup_empty. intros r Hr. by apply not_elem_of_nil in Hr. }
  cbn [app] in Hw. pose proof (won_newest segments w Hc Hw id) as Hn. destruct (w !! id) as [d'|] eqn:E.
  - pose proof (proj1 (Hn d') eq_refl) as Hnew. exists d'. split; [done|]. by eapply Hnew.
  - specialize (Hw id). rewrite E in Hw. unfold holds_document in Hd.
    destruct (documents_ s !! id) as [r|] eqn:Er; [|done]. destruct (Hw r). apply elem_of_entries. by exists s.
Qed.

(** A segment that holds exactly the newest documents of some segments can
    replace them. *)
Lemma newest_merged all selected rest next merged :
  all ≡ₚ selected ++ rest -> next ≡ₚ merged :: rest -> coherent all ->
  (forall id d, holds_document merged id = Some d <-> newest selected id d) ->
  forall id d, newest all id d <-> newest next id d.
Proof.
  intros Hall Hnext Hco Hm id d.
  assert (Hin : forall s, s ∈ all <-> s ∈ selected \/ s ∈ rest) by (intros s; by rewrite Hall, elem_of_app).
  assert (Hin' : forall s, s ∈ next <-> s = merged \/ s ∈ rest) by (intros s; by rewrite Hnext, elem_of_cons).
  assert (Hco' : coherent selected).
  { intros s s' k x y Hs Hs'. apply Hco; apply Hin; by left. }
  split; intros [(s & Hs & Hd) Hmax].
  - split.
    + apply Hin in Hs as [Hs|Hs]; [|exists s; split; [apply Hin'; by right|done]].
      exists merged. split; [apply Hin'; by left|]. apply Hm. split; [by exists s|].
      intros s' d' Hs'. apply Hmax, Hin. by left.
    + intros s' d' [->|Hs']%Hin' Hd'; [|apply (Hmax s'); [apply Hin; by right|done]].
      apply Hm in Hd' as [(s'' & Hs'' & Hd'') _]. apply (Hmax s''); [apply Hin; by left|done].
  - split.
    + apply Hin' in Hs as [->|Hs]; [|exists s; split; [apply Hin; by right|done]].
      apply Hm in Hd as [(s' & Hs' & Hd') _]. exists s'. split; [apply Hin; by left|done].
    + intros s' d' [Hs'|Hs']%Hin Hd'; [|apply (Hmax s'); [apply Hin'; by right|done]].
      destruct (newest_exists selected s' id d' Hco' Hs' Hd') as (d'' & Hn & Hle). etrans; [exact Hle|].
      apply (Hmax merged); [apply Hin'; by left|by apply Hm].
Qed.

Lemma coherent_merged all selected rest next merged :
  all ≡ₚ selected ++ rest -> next ≡ₚ merged :: rest -> coherent all ->
  (forall id d, holds_document merged id = Some d <-> newest selected id d) -> coherent next.
Proof.
  intros Hall Hnext Hco Hm.
  assert (Hsrc : forall s id d, s ∈ next -> holds_document s id = Some d ->
    exists s', s' ∈ all /\ holds_document s' id = Some d).
  { intros s id d Hs Hd. rewrite Hnext, elem_of_cons in Hs. destruct Hs as [->|Hs].
    - apply Hm in Hd as [(s' & Hs' & Hd') _]. exists s'. rewrite Hall, elem_of_app. split; [by left|done].
    - exists s. rewrite Hall, elem_of_app. split; [by right|done]. }
  intros s s' id d d' Hs Hs' Hd Hd'. destruct (Hsrc s id d Hs Hd) as (t & Ht & Htd).
  destruct (Hsrc s' id d' Hs' Hd') as (t' & Ht' & Htd'). by apply (Hco t t' id).
Qed.

(** ** The resolved index *)

Lemma insert_winners_reachable schema l : forall index index', reachable schema u32_max index ->
  fold_each insert_winner index l = Ok index' -> reachable schema u32_max index'.
Proof.
  induction l as [|x l IH]; intros index index' Hr; cbn [fold_each]; [by intros [= <-]|].
  destruct (insert_winner index x) as [index1|e] eqn:E; [|done]. apply map_err_Ok in E. apply IH. by eapply reach_put.
Qed.

Lemma resolve_reachable schema message segments index : family schema segments ->
  resolve message segments = Ok index -> reachable schema u32_max index.
Proof.
  intros Hf Hr. destruct segments as [|s0 segments0] eqn:Eseg; [done|]. rewrite <- Eseg in *.
  rewrite (resolve_cons schema) in Hr by (subst; done || apply Hf). apply bind_Ok in Hr as (w & _ & Hr).
  eapply insert_winners_reachable; [|exact Hr]. apply reach_make.
Qed.

Lemma winners_size segments (w : Winners) : (forall id d, w !! id = Some d <-> newest segments id d) ->
  Z.of_nat (size w) <= zlen (entries_of segments).
Proof.
  intros Hw. unfold zlen. apply Nat2Z.inj_le. rewrite <- (length_map_items w), <- (length_fmap fst), <- (length_fmap fst (entries_of segments)).
  apply submseteq_length, NoDup_submseteq; [apply NoDup_fst_map_items|].
  intros id ([k d] & -> & Hd%elem_of_map_items)%list_elem_of_fmap. cbn. apply Hw in Hd as [(s & Hs & Hh) _].
  unfold holds_document in Hh. destruct (documents_ s !! k) as [r|] eqn:Er; [|done].
  apply list_elem_of_fmap. exists (k, r). split; [done|]. apply elem_of_entries. by exists s.
Qed.

Lemma resolve_total schema message segments : segments <> [] -> family schema segments ->
  Forall (fun x => insertable schema (document x.2)) (entries_of segments) -> zlen (entries_of segments) <= u32_max ->
  exists index, resolve message segments = Ok index.
Proof.
  intros Hne Hf Hi Hsize. rewrite (resolve_cons schema) by (done || apply Hf).
  destruct (family_winners schema segments Hf) as (w & -> & Hw & Hk). cbn [mbind expected_bind].
  destruct (insert_winners_total schema (map_items w) (InMemoryIndex.make schema u32_max)) as (index & E & _).
  - done.
  - apply NoDup_fst_map_items.
  - apply Forall_forall. intros [id d] Hd%elem_of_map_items%Hw. destruct Hd as [(s & Hs & Hh) _].
    unfold holds_document in Hh. destruct (documents_ s !! id) as [r|] eqn:Er; [|done]. injection Hh as <-.
    apply (proj1 (Forall_forall _ _) Hi (id, r)). apply elem_of_entries. by exists s.
  - apply reach_make.
  - intros x _. rewrite contents_make. apply lookup_empty.
  - done.
  - rewrite contents_make, map_size_empty. unfold zlen at 1. rewrite length_map_items. pose proof (winners_size segments w Hw). lia.
  - by exists index.
Qed.

(** ** The theorems *)

(** C16. Opening a generation: the index it shows holds, for every identifier,
    exactly the document with the highest version in any segment, tombstones
    included, and answers every query the way the contract of an index
    demands; and opening succeeds when the documents are ones that an index
    takes. *)
Theorem generation_resolution (schema : IndexSchema) (generation : OpenGeneration) :
  open_readers generation <> [] -> family schema (open_readers generation) -> schema_analyzers schema ->
  (forall v, GenerationView.open generation = Ok v ->
     IndexViewLaws (GenerationView.view v) schema (InMemoryIndex.documents_ (GenerationView.resolved_ v)) /\
     forall id d, document <$> view_document (GenerationView.view v) id = Some d <->
                  newest (open_readers generation) id d) /\
  (Forall (fun x => insertable schema (document x.2)) (entries_of (open_readers generation)) ->
   zlen (entries_of (open_readers generation)) <= u32_max ->
   exists v, GenerationView.open generation = Ok v).
Proof.
  intros Hne Hf Ha. unfold GenerationView.open. split.
  - intros v H. apply bind_Ok in H as (index & Hr & [= <-]). split.
    + apply (in_memory_view_laws schema u32_max); [by vm_compute|done|]. by eapply resolve_reachable.
    + intros id d. pose proof (resolve_contents _ _ _ _ Hf Hr id d) as H. unfold contents in H. by rewrite lookup_fmap in H.
  - intros Hi Hs. destruct (resolve_total schema "generation has no segments" _ Hne Hf Hi Hs) as [index ->]. by eexists.
Qed.

Lemma temporary_suffix a b : String.length b = 4%nat -> temporary (a +:+ b) = str_eqb b ".tmp".
Proof.
  intros Hb. unfold temporary.
  assert (String.length (a +:+ b) = String.length a + 4)%nat as ->.
  { pose proof (zstrlen_app a b). unfold zstrlen in *. lia. }
  rewrite Nat.add_sub, str_drop_app. destruct (Nat.leb_spec 4 (String.length a + 4)); [by rewrite andb_true_r|lia].
Qed.

Lemma segment_filename_lasting id : temporary (SegmentMerger.segment_filename id) = false.
Proof.
  unfold SegmentMerger.segment_filename. change ".dseg" with ("." +:+ "dseg"). rewrite <- !str_app_assoc.
  by rewrite temporary_suffix.
Qed.

(** C15. Compaction: merging some segments of a family writes, whenever it
    reports success, a segment file that is on the medium, opens under the new
    identifier, and can replace the merged segments in any order: the resolved
    index of the generation, hence every answer to every query, stays exactly
    the same. *)
Theorem compaction_transparent (schema : IndexSchema) (all selected rest : list SegmentReader) (id : SegmentId)
    (compressed : bool) (P : Files) (d : Disk) (calls : list (option nat)) :
  family schema all -> all ≡ₚ selected ++ rest -> 1 <= id <= u64_max -> stored P d ->
  let options := {| write_segment_id := id; compressed_postings := compressed |} in
  (forall index, resolve "merge has no segments" selected = Ok index -> storable default_read_limits index /\
     zlen (encode_segment (InMemoryIndex.snapshot index) options) <= maximum_file_bytes default_read_limits) ->
  let '(r, w) := SegmentMerger.merge_segments selected id compressed (world d calls) in
  forall segment, r = Ok segment ->
    exists bytes merged,
      manifest_segment_id segment = id /\ stored (<[filename segment := bytes]> P) (disk w) /\
      SegmentReader.open bytes default_read_limits = Ok merged /\ segment_id_ merged = id /\
      forall next message, next ≡ₚ merged :: rest -> resolve message next = resolve message all.
Proof.
  intros Hf Hall Hid Hst options Hstorable. unfold SegmentMerger.merge_segments, io_lift, mbind, io_bind.
  destruct (resolve "merge has no segments" selected) as [index|e] eqn:Er; [|done].
  destruct (Hstorable index eq_refl) as [Hs Hz]. unfold SegmentMerger.write_merged, io_map_err, mbind, io_bind.
  set (name := SegmentMerger.segment_filename id).
  assert (Hfsel : family schema selected).
  { destruct Hf as [H1 H2 H3 H4]. rewrite Hall in H2. apply Forall_app in H2 as [H2 _].
    assert (Hsub : forall s, s ∈ selected -> s ∈ all) by (intros s Hin; rewrite Hall, elem_of_app; by left).
    split; [done|done| |]; [intros s k x Hin; by apply H3, Hsub|].
    intros s s' k x y Hin Hin'. by apply H4; apply Hsub. }
  pose proof (resolve_reachable _ _ _ _ Hfsel Er) as Hreach. pose proof (resolve_contents _ _ _ _ Hfsel Er) as Hcont.
  destruct (open_index default_read_limits schema u32_max index options default_limits_ok ltac:(by vm_compute) Hreach Hs Hid Hz)
    as [Hopen _].
  destruct Hst as (Hok & Hl & Hh). set (good := written P name (InMemoryIndex.snapshot index) options).
  assert (Hinv : inv good P [] d) by (split; [done..|by constructor|by left|by constructor]).
  pose proof (triple_write_segment P name (InMemoryIndex.snapshot index) options (segment_filename_lasting id) (world d calls)
    (ex_intro _ [] Hinv) (inv_safe _ _ _ _ Hinv)) as H.
  specialize (H ltac:(constructor; [by eapply inv_safe|done])).
  fold options. destruct (write_segment name (InMemoryIndex.snapshot index) options (world d calls)) as [[[]|e] w].
  2:{ cbn [map_err]. intros segment [=]. }
  destruct H as (_ & _ & _ & [Hok' Hh' Hl' _ _ _] & _). cbn [map_err]. intros segment [= <-].
  set (merged := segment_of id index) in *.
  exists (encode_segment (InMemoryIndex.snapshot index) options), merged.
  split_and!; [done|by split_and!|done|done|]. intros next message Hnext.
  assert (Hm : forall k x, holds_document merged k = Some x <-> newest selected k x).
  { intros k x. rewrite <- Hcont. unfold contents. by rewrite lookup_fmap. }
  assert (Hne : selected <> []) by (intros ->; done).
  symmetry. apply (resolve_newest schema); [done| | | |].
  - destruct Hf as [H1 H2 H3 H4]. split; [done| | |by eapply coherent_merged].
    + rewrite Hnext. constructor; [|rewrite Hall in H2; apply Forall_app in H2 as [_ H2]; exact H2].
      by destruct (reachable_wf schema u32_max index ltac:(by vm_compute) Hreach).
    + intros s k x Hin. rewrite Hnext, elem_of_cons in Hin. destruct Hin as [->|Hin].
      * intros [(s' & Hs' & Hx) _]%Hm. apply (H3 s' k); [rewrite Hall, elem_of_app; by left|done].
      * intros Hx. apply (H3 s k); [rewrite Hall, elem_of_app; by right|done].
  - intros ->. symmetry in Hall. apply Permutation_nil_r in Hall. by apply app_eq_nil in Hall as [? _].
  - intros ->. symmetry in Hnext. by apply Permutation_nil_r in Hnext.
  - by eapply newest_merged; [| |apply Hf|].
Qed.

(** ** Samples *)

Notation fresh_put := (InMemoryIndex.put (InMemoryIndex.make IndexSchema.default_schema 10)).

Lemma sample_holds id d index k x : fresh_put d = Ok index ->
  holds_document (segment_of id index) k = Some x <-> k = doc_id d /\ x = d.
Proof.
  intros [Hc _]%put_contents. assert (holds_document (segment_of id index) k = contents index !! k) as ->
    by (unfold contents; by rewrite lookup_fmap).
  rewrite Hc, contents_make, lookup_insert_Some, lookup_empty. naive_solver.
Qed.

(** A document and, in another segment, its later deletion. *)
Lemma sample_family i1 i2 : fresh_put sample_document = Ok i1 -> fresh_put (tombstone "a" 9) = Ok i2 ->
  family IndexSchema.default_schema [segment_of 1 i1; segment_of 2 i2].
Proof.
  intros H1 H2. split.
  - apply (bool_decide_eq_true_1 (map_Forall (fun _ x => d_not_nan (fd_boost x) = true)
      (IndexSchema.fields_ IndexSchema.default_schema))). vm_compute. reflexivity.
  - constructor; [|constructor; [|constructor]]; [exact (put_schema _ _ _ H1)|exact (put_schema _ _ _ H2)].
  - intros s id d Hs Hd. apply elem_of_cons in Hs as [->|Hs]; [by apply (sample_holds _ _ _ _ _ H1) in Hd as [-> ->]|].
    apply list_elem_of_singleton in Hs as ->. by apply (sample_holds _ _ _ _ _ H2) in Hd as [-> ->].
  - intros s s' id d d' Hs Hs' Hd Hd' Hv.
    assert (Hcases : forall t y, t ∈ [segment_of 1 i1; segment_of 2 i2] -> holds_document t id = Some y ->
      y = sample_document \/ y = tombstone "a" 9).
    { intros t y Ht Hy. apply elem_of_cons in Ht as [->|Ht]; [left; by apply (sample_holds _ _ _ _ _ H1) in Hy as [_ ->]|].
      apply list_elem_of_singleton in Ht as ->. right. by apply (sample_holds _ _ _ _ _ H2) in Hy as [_ ->]. }
    destruct (Hcases s d Hs Hd) as [->| ->], (Hcases s' d' Hs' Hd') as [->| ->]; done.
Qed.

Lemma sample_puts (test : InMemoryIndex -> InMemoryIndex -> bool) :
  ok_and (fresh_put sample_document) (fun i1 => ok_and (fresh_put (tombstone "a" 9)) (test i1)) = true ->
  exists i1 i2, fresh_put sample_document = Ok i1 /\ fresh_put (tombstone "a" 9) = Ok i2 /\ test i1 i2 = true.
Proof. intros (i1 & H1 & (i2 & H2 & H)%ok_and_true)%ok_and_true. exists i1, i2. split; [exact H1|]. split; [exact H2|exact H]. Qed.

Definition sample_generation (i1 i2 : InMemoryIndex) : OpenGeneration :=
  {| open_manifest := sample_new; open_readers := [segment_of 1 i1; segment_of 2 i2] |}.

Lemma generation_resolution_witness :
  exists i1 i2 v, fresh_put sample_document = Ok i1 /\ fresh_put (tombstone "a" 9) = Ok i2 /\
    GenerationView.open (sample_generation i1 i2) = Ok v /\
    document <$> view_document (GenerationView.view v) "a" = Some (tombstone "a" 9).
Proof.
  assert (H : ok_and (fresh_put sample_document) (fun i1 => ok_and (fresh_put (tombstone "a" 9))
    (fun i2 => is_Ok (GenerationView.open (sample_generation i1 i2)))) = true) by (vm_compute; reflexivity).
  apply (sample_puts (fun i1 i2 => is_Ok (GenerationView.open (sample_generation i1 i2)))) in H as (i1 & i2 & H1 & H2 & H).
  destruct (GenerationView.open (sample_generation i1 i2)) as [v|] eqn:E; [|discriminate H].
  exists i1, i2, v. split; [exact H1|]. split; [exact H2|]. split; [exact E|].
  pose proof (generation_resolution IndexSchema.default_schema (sample_generation i1 i2) ltac:(discriminate)
    (sample_family i1 i2 H1 H2) default_schema_analyzers) as [Hres _].
  apply (Hres v E). split.
  - exists (segment_of 2 i2). split; [right; left|]. exact (proj2 (sample_holds 2 (tombstone "a" 9) i2 "a" (tombstone "a" 9) H2) (conj eq_refl eq_refl)).
  - intros s d' Hs Hd. apply elem_of_cons in Hs as [->|Hs].
    + apply (sample_holds _ _ _ _ _ H1) in Hd as [_ ->]. vm_compute. discriminate.
    + apply list_elem_of_singleton in Hs as ->. apply (sample_holds _ _ _ _ _ H2) in Hd as [_ ->]. vm_compute. discriminate.
Defined.

Lemma compaction_transparent_witness :
  exists i1 i2, fresh_put sample_document = Ok i1 /\ fresh_put (tombstone "a" 9) = Ok i2 /\
  let ran := SegmentMerger.merge_segments [segment_of 1 i1; segment_of 2 i2] 3 true (world empty_disk []) in
  exists segment bytes merged, ran.1 = Ok segment /\
    stored {[filename segment := bytes]} (disk ran.2) /\ SegmentReader.open bytes default_read_limits = Ok merged /\
    resolve "" [merged] = resolve "" [segment_of 1 i1; segment_of 2 i2].
Proof.
  set (options := {| write_segment_id := 3; compressed_postings := true |}).
  set (test := fun i1 i2 => ok_and (resolve "merge has no segments" [segment_of 1 i1; segment_of 2 i2])
    (fun index => bool_decide (storable_data default_read_limits index) &&
       (zlen (encode_segment (InMemoryIndex.snapshot index) options) <=? 2 ^ 30)) &&
    is_Ok (SegmentMerger.merge_segments [segment_of 1 i1; segment_of 2 i2] 3 true (world empty_disk [])).1).
  assert (H : ok_and (fresh_put sample_document) (fun i1 => ok_and (fresh_put (tombstone "a" 9)) (test i1)) = true)
    by (vm_compute; reflexivity).
  apply (sample_puts test) in H as (i1 & i2 & H1 & H2 & [Hres Hok]%andb_prop). exists i1, i2. split; [exact H1|]. split; [exact H2|].
  intros ran. pose proof (sample_family i1 i2 H1 H2) as Hf.
  assert (Hstor : forall index, resolve "merge has no segments" [segment_of 1 i1; segment_of 2 i2] = Ok index ->
    storable default_read_limits index /\
    zlen (encode_segment (InMemoryIndex.snapshot index) options) <= maximum_file_bytes default_read_limits).
  { intros index Hi. apply ok_and_true in Hres as (index' & Hi' & [Hs%bool_decide_eq_true_1 Hz%Z.leb_le]%andb_prop).
    rewrite Hi in Hi'. injection Hi' as <-. split; [|exact Hz]. destruct Hs as (A1 & A2 & A3 & A4 & A5).
    pose proof (resolve_reachable _ _ _ _ Hf Hi) as Hr.
    pose proof (proj2 (reachable_wf IndexSchema.default_schema u32_max index ltac:(split; vm_compute; discriminate) Hr)) as Hsch.
    split; [|exact A1|exact A2|exact A3|exact A4|exact A5].
    rewrite Hsch. exact default_schema_fits. }
  pose proof (compaction_transparent IndexSchema.default_schema [segment_of 1 i1; segment_of 2 i2]
    [segment_of 1 i1; segment_of 2 i2] [] 3 true ∅ empty_disk [] Hf ltac:(by rewrite app_nil_r)
    ltac:(split; vm_compute; discriminate) empty_stored Hstor) as H.
  fold ran in Hok, H. destruct ran as [[segment|e] w]; [|discriminate Hok].
  destruct (H segment eq_refl) as (bytes & merged & _ & Hst & Ho & _ & Hres').
  exists segment, bytes, merged. split; [reflexivity|]. split; [exact Hst|]. split; [exact Ho|].
  rewrite (Hres' [merged] "" (reflexivity _)). reflexivity.
Defined.
