(* ===== verification/Writer.v ===== *)
(** * The index writer

    src/storage/index_writer.cpp: the shared state of a writer and its atomic
    sections, the pieces of code that run under [mutex_] from one wait on the
    condition variable to the next, and the interleavings of client threads
    with the worker thread as steps.

    [publish_snapshot] and [compact_published] run under [publication_mutex_]
    and release [mutex_] while they work on files; they are one step each here.
    What they read and write meanwhile, [manifest_], [next_segment_id_] and the
    files of segments and manifests, is touched by no one else: other threads
    only use the write-ahead log then. *)

From S2P Require Import Prelude Bytes Text Doubles Analysis Schema Types Index Segment Store SegmentStore Manifest Wal Generation.
Import ManifestStore.

(** [filesystem_exception] is no code of the source: it marks an exception
    thrown by the file system library. *)
Inductive WriterErrorCode := index_error | storage_error | writer_stale_version | writer_closed | filesystem_exception.

#[export] Instance WriterErrorCode_eq_dec : EqDecision WriterErrorCode.
Proof. solve_decision. Defined.

Record WriterError := { writer_code : WriterErrorCode; writer_message : string }.

Record IndexWriterOptions := {
  maximum_buffered_mutations : Z;
  maximum_frozen_indexes : Z;
  automatic_merge_segment_count : Z;
  merge_width : Z;
  reclaim_obsolete_files : bool;
  compressed_segments : bool
}.

Definition default_writer_options : IndexWriterOptions :=
  {| maximum_buffered_mutations := 10000; maximum_frozen_indexes := 2; automatic_merge_segment_count := 8;
     merge_width := 4; reclaim_obsolete_files := true; compressed_segments := true |}.

Record IndexWriterStatistics := {
  stat_buffered_mutations : Z;
  stat_frozen_indexes : Z;
  stat_flush_in_progress : bool;
  stat_published_segments : Z;
  stat_generation : GenerationId
}.

Module IndexWriter.

Record IndexWriter := {
  schema_ : IndexSchema;
  options_ : IndexWriterOptions;
  active_ : InMemoryIndex;
  manifest_ : IndexManifest;
  versions_ : gmap string Z;
  buffered_mutations_ : Z;
  next_segment_id_ : Z;
  frozen_ : list IndexSnapshot;
  worker_busy_ : bool;
  refreshing_ : bool;
  stopping_ : bool;
  worker_error_ : option WriterError
}.

Definition failure (code : WriterErrorCode) (message : string) : WriterError :=
  {| writer_code := code; writer_message := message |}.

Definition wal_name : string := "WRITE-AHEAD.log".

(** ** Assignments *)

Definition set_active (active : InMemoryIndex) (s : IndexWriter) : IndexWriter :=
  {| schema_ := schema_ s; options_ := options_ s; active_ := active; manifest_ := manifest_ s; versions_ := versions_ s;
     buffered_mutations_ := buffered_mutations_ s; next_segment_id_ := next_segment_id_ s; frozen_ := frozen_ s;
     worker_busy_ := worker_busy_ s; refreshing_ := refreshing_ s; stopping_ := stopping_ s; worker_error_ := worker_error_ s |}.

Definition set_manifest (manifest : IndexManifest) (s : IndexWriter) : IndexWriter :=
  {| schema_ := schema_ s; options_ := options_ s; active_ := active_ s; manifest_ := manifest; versions_ := versions_ s;
     buffered_mutations_ := buffered_mutations_ s; next_segment_id_ := next_segment_id_ s; frozen_ := frozen_ s;
     worker_busy_ := worker_busy_ s; refreshing_ := refreshing_ s; stopping_ := stopping_ s; worker_error_ := worker_error_ s |}.

Definition set_versions (versions : gmap string Z) (s : IndexWriter) : IndexWriter :=
  {| schema_ := schema_ s; options_ := options_ s; active_ := active_ s; manifest_ := manifest_ s; versions_ := versions;
     buffered_mutations_ := buffered_mutations_ s; next_segment_id_ := next_segment_id_ s; frozen_ := frozen_ s;
     worker_busy_ := worker_busy_ s; refreshing_ := refreshing_ s; stopping_ := stopping_ s; worker_error_ := worker_error_ s |}.

Definition set_buffered (buffered : Z) (s : IndexWriter) : IndexWriter :=
  {| schema_ := schema_ s; options_ := options_ s; active_ := active_ s; manifest_ := manifest_ s; versions_ := versions_ s;
     buffered_mutations_ := buffered; next_segment_id_ := next_segment_id_ s; frozen_ := frozen_ s;
     worker_busy_ := worker_busy_ s; refreshing_ := refreshing_ s; stopping_ := stopping_ s; worker_error_ := worker_error_ s |}.

Definition set_next_segment_id (id : Z) (s : IndexWriter) : IndexWriter :=
  {| schema_ := schema_ s; options_ := options_ s; active_ := active_ s; manifest_ := manifest_ s; versions_ := versions_ s;
     buffered_mutations_ := buffered_mutations_ s; next_segment_id_ := id; frozen_ := frozen_ s;
     worker_busy_ := worker_busy_ s; refreshing_ := refreshing_ s; stopping_ := stopping_ s; worker_error_ := worker_error_ s |}.

Definition set_frozen (frozen : list IndexSnapshot) (s : IndexWriter) : IndexWriter :=
  {| schema_ := schema_ s; options_ := options_ s; active_ := active_ s; manifest_ := manifest_ s; versions_ := versions_ s;
     buffered_mutations_ := buffered_mutations_ s; next_segment_id_ := next_segment_id_ s; frozen_ := frozen;
     worker_busy_ := worker_busy_ s; refreshing_ := refreshing_ s; stopping_ := stopping_ s; worker_error_ := worker_error_ s |}.

Definition set_flags (busy refreshing stopping : bool) (s : IndexWriter) : IndexWriter :=
  {| schema_ := schema_ s; options_ := options_ s; active_ := active_ s; manifest_ := manifest_ s; versions_ := versions_ s;
     buffered_mutations_ := buffered_mutations_ s; next_segment_id_ := next_segment_id_ s; frozen_ := frozen_ s;
     worker_busy_ := busy; refreshing_ := refreshing; stopping_ := stopping; worker_error_ := worker_error_ s |}.

Definition set_busy (b : bool) (s : IndexWriter) : IndexWriter := set_flags b (refreshing_ s) (stopping_ s) s.
Definition set_refreshing (b : bool) (s : IndexWriter) : IndexWriter := set_flags (worker_busy_ s) b (stopping_ s) s.
Definition set_stopping (s : IndexWriter) : IndexWriter := set_flags (worker_busy_ s) (refreshing_ s) true s.

Definition set_error (e : WriterError) (s : IndexWriter) : IndexWriter :=
  {| schema_ := schema_ s; options_ := options_ s; active_ := active_ s; manifest_ := manifest_ s; versions_ := versions_ s;
     buffered_mutations_ := buffered_mutations_ s; next_segment_id_ := next_segment_id_ s; frozen_ := frozen_ s;
     worker_busy_ := worker_busy_ s; refreshing_ := refreshing_ s; stopping_ := stopping_ s; worker_error_ := Some e |}.

(** ** Sections: programs over the writer and the disk

    The writer keeps what a section did to it before an error. *)

Definition Section_ (A : Type) : Type := IndexWriter * World -> expected WriterError A * (IndexWriter * World).

#[export] Instance section_ret : MRet Section_ := fun _ a s => (Ok a, s).
#[export] Instance section_bind : MBind Section_ := fun _ _ f m s =>
  match m s with (Ok a, s') => f a s' | (Err e, s') => (Err e, s') end.

Definition get : Section_ IndexWriter := fun s => (Ok s.1, s).
Definition modify (f : IndexWriter -> IndexWriter) : Section_ unit := fun '(s, w) => (Ok tt, (f s, w)).
Definition check (b : bool) (e : WriterError) : Section_ unit := fun s => (ensure b e, s).
Definition lift {A} (m : expected WriterError A) : Section_ A := fun s => (m, s).
Definition io {E A} (f : E -> WriterError) (m : IO E A) : Section_ A := fun '(s, w) =>
  let '(r, w') := m w in (map_err f r, (s, w')).

(** The writer fails for good. *)
Definition poison {A} (m : Section_ A) : Section_ A := fun s =>
  match m s with
  | (Ok a, s') => (Ok a, s')
  | (Err e, (s', w')) => (Err e, (set_error e s', w'))
  end.

Definition storage {E} (message : E -> string) (e : E) : WriterError := failure storage_error (message e).

(** ** Freezing and mutations *)

Definition freeze_active_locked (s : IndexWriter) : IndexWriter :=
  if buffered_mutations_ s =? 0 then s
  else set_buffered 0 (set_active (InMemoryIndex.make (schema_ s) u32_max)
         (set_frozen (frozen_ s ++ [InMemoryIndex.snapshot (active_ s)]) s)).

(** From the version check to the counting of the mutation. *)
Definition put_document (document : Document) : Section_ unit :=
  s ← get;
  _ ← check (match versions_ s !! doc_id document with
             | Some version => negb (doc_version document <=? version)
             | None => true
             end) (failure writer_stale_version "document version is not newer");
  active ← lift (map_err (fun e => failure index_error (index_message e)) (InMemoryIndex.put (active_ s) document));
  _ ← modify (set_active active);
  _ ← poison (io (storage wal_message) (WriteAheadLog.append wal_name document));
  _ ← modify (fun s => set_versions (<[doc_id document := doc_version document]> (versions_ s)) s);
  modify (fun s => set_buffered (buffered_mutations_ s + 1) s).

(** ** Publication *)

Definition find_size (name : string) (d : Disk) : option Z := zlen <$> content d name.

(** [reclaim]: errors of [remove] are ignored. *)
Definition remove_quietly (name : string) : IO WriterError unit := io_ignore (call tt (d_remove name) : IO unit unit).

Fixpoint remove_all (names : list string) : IO WriterError unit :=
  match names with [] => mret tt | name :: rest => _ ← remove_quietly name; remove_all rest end.

Definition obsolete_files (obsolete replacement : IndexManifest) : list string :=
  filter (fun name => bool_decide (name ∈ (filename <$> segments replacement)) = false) (filename <$> segments obsolete) ++
  (if generation obsolete =? 0 then [] else [manifest_name (generation obsolete)]).

Definition reclaim (options : IndexWriterOptions) (obsolete replacement : IndexManifest) : IO WriterError unit :=
  if reclaim_obsolete_files options then remove_all (obsolete_files obsolete replacement) else mret tt.

(** [Candidate], and the two orders of the sorts. *)
Definition candidate_le (a b : Z * nat) : Prop := a.1 < b.1 \/ (a.1 = b.1 /\ (a.2 <= b.2)%nat).

#[export] Instance candidate_le_dec a b : Decision (candidate_le a b).
Proof. unfold candidate_le. apply _. Defined.

Definition segment_le (a b : ManifestSegment) : Prop := manifest_segment_id a <= manifest_segment_id b.

#[export] Instance segment_le_dec a b : Decision (segment_le a b).
Proof. unfold segment_le. apply _. Defined.

Fixpoint candidates_from (i : nat) (l : list ManifestSegment) : IO WriterError (list (Z * nat)) :=
  match l with
  | [] => mret []
  | segment :: rest =>
      bytes ← call_read (failure storage_error "") (find_size (filename segment));
      more ← candidates_from (S i) rest;
      mret ((bytes, i) :: more)
  end.

(** The indices that take part in a merge, smallest files first. *)
Definition select (options : IndexWriterOptions) (candidates : list (Z * nat)) : list nat :=
  (take (Z.to_nat (Z.min (merge_width options) (zlen candidates))) (merge_sort candidate_le candidates)).*2.

Definition remaining (selected : list nat) (l : list ManifestSegment) : list ManifestSegment :=
  snd <$> filter (fun x => bool_decide (x.1 ∈ selected) = false) (imap (fun i s => (i, s)) l).

Definition take_segment_id : Section_ SegmentId :=
  s ← get;
  _ ← modify (set_next_segment_id (wrap64 (next_segment_id_ s + 1)));
  mret (next_segment_id_ s).

Definition compact_published : Section_ unit :=
  s ← get;
  let obsolete := manifest_ s in
  if zlen (segments obsolete) <=? 1 then mret tt
  else
    opened ← io (storage manifest_message) (open_current default_read_limits);
    candidates ← io id (candidates_from 0 (segments obsolete));
    let selected := select (options_ s) candidates in
    let readers := omap (fun i => open_readers opened !! i) selected in
    output_id ← take_segment_id;
    merged ← io (storage generation_message)
               (SegmentMerger.merge_segments readers output_id (compressed_segments (options_ s)));
    let next := {| generation := wrap64 (generation obsolete + 1);
                   segments := merge_sort segment_le (remaining selected (segments obsolete) ++ [merged]) |} in
    _ ← io (storage manifest_message) (publish next no_fault);
    _ ← modify (set_manifest next);
    io id (reclaim (options_ s) obsolete next).

Definition publish_snapshot (snapshot : IndexSnapshot) : Section_ unit :=
  output_id ← take_segment_id;
  s ← get;
  let name := SegmentMerger.segment_filename output_id in
  _ ← io (storage segment_message)
        (write_segment name snapshot {| write_segment_id := output_id; compressed_postings := compressed_segments (options_ s) |});
  let next := {| generation := wrap64 (generation (manifest_ s) + 1);
                 segments := segments (manifest_ s) ++ [{| manifest_segment_id := output_id; filename := name |}] |} in
  _ ← io (storage manifest_message) (publish next no_fault);
  _ ← modify (set_manifest next);
  if negb (automatic_merge_segment_count (options_ s) =? 0) &&
     (automatic_merge_segment_count (options_ s) <=? zlen (segments next))
  then compact_published else mret tt.

Definition open_search_view : Section_ GenerationView :=
  s ← get;
  _ ← check (bool_decide (worker_error_ s = None))
        (match worker_error_ s with Some e => e | None => failure writer_closed "" end);
  opened ← io (storage manifest_message) (open_current default_read_limits);
  lift (map_err (storage generation_message) (GenerationView.open opened)).

Definition statistics (s : IndexWriter) : IndexWriterStatistics :=
  {| stat_buffered_mutations := buffered_mutations_ s; stat_frozen_indexes := zlen (frozen_ s);
     stat_flush_in_progress := worker_busy_ s; stat_published_segments := zlen (segments (manifest_ s));
     stat_generation := generation (manifest_ s) |}.

(** ** Opening *)

Definition starts_with (prefix name : string) : bool := str_eqb (str_take (String.length prefix) name) prefix.
Definition ends_with (suffix name : string) : bool :=
  Nat.leb (String.length suffix) (String.length name) &&
  str_eqb (str_drop (String.length name - String.length suffix) name) suffix.

(** Whether [cleanup_startup_files] removes a file. *)
Definition leftover (current : IndexManifest) (name : string) : bool :=
  if ends_with ".tmp" name then true
  else if starts_with "MANIFEST-" name && negb (str_eqb name (manifest_name (generation current))) then true
  else starts_with "segment-" name && ends_with ".dseg" name &&
       negb (bool_decide (name ∈ (filename <$> segments current))).

Fixpoint remove_each (names : list string) : IO WriterError unit :=
  match names with
  | [] => mret tt
  | name :: rest =>
      _ ← call (failure storage_error ("cannot reclaim " +:+ name +:+ ": ")) (d_remove name);
      remove_each rest
  end.

Definition cleanup_startup_files (current : IndexManifest) : IO WriterError unit :=
  names ← call_read (failure storage_error "cannot scan index directory: ") (fun d => Some (map_items (dir d)).*1);
  remove_each (filter (fun name => leftover current name = true) names).

Definition options_ok (options : IndexWriterOptions) : bool :=
  negb ((maximum_buffered_mutations options =? 0) || (maximum_frozen_indexes options =? 0) || (merge_width options <? 2) ||
        (negb (automatic_merge_segment_count options =? 0) && (automatic_merge_segment_count options <? 2))).

(** The constructor. *)
Definition make (schema : IndexSchema) (options : IndexWriterOptions) : IndexWriter :=
  {| schema_ := schema; options_ := options; active_ := InMemoryIndex.make schema u32_max;
     manifest_ := {| generation := 0; segments := [] |}; versions_ := ∅; buffered_mutations_ := 0;
     next_segment_id_ := 1; frozen_ := []; worker_busy_ := false; refreshing_ := false; stopping_ := false;
     worker_error_ := None |}.

(** [versions_[id] = max(versions_[id], version)] *)
Definition record_version (versions : gmap string Z) (item : DocumentId * DocumentRecord) : gmap string Z :=
  let '(id, record) := item in
  <[id := Z.max (default 0 (versions !! id)) (doc_version (document record))]> versions.

Definition adopt_segment (segment : SegmentReader) : Section_ unit :=
  s ← get;
  _ ← check (same_schema (SegmentReader.schema_ segment) (schema_ s))
        (failure storage_error "writer schema differs from persisted schema");
  _ ← modify (fun s => set_next_segment_id
                (Z.max (next_segment_id_ s) (wrap64 (SegmentReader.segment_id_ segment + 1))) s);
  modify (fun s => set_versions (foldl record_version (versions_ s) (map_items (SegmentReader.documents_ segment))) s).

(** A loop whose body may return an error. *)
Fixpoint each {A} (f : A -> Section_ unit) (l : list A) : Section_ unit :=
  match l with [] => mret tt | x :: rest => _ ← f x; each f rest end.

Definition adopt_generation : Section_ unit :=
  has_current ← io id (file_exists (failure filesystem_exception "") "CURRENT");
  if has_current : bool then
    opened ← io (storage manifest_message) (open_current default_read_limits);
    _ ← modify (set_manifest (open_manifest opened));
    each adopt_segment (open_readers opened)
  else mret tt.

(** One document of the log. *)
Definition restore (document : Document) : Section_ unit :=
  s ← get;
  if match versions_ s !! doc_id document with Some version => doc_version document <=? version | None => false end
  then mret tt
  else
    active ← lift (map_err (fun e => failure storage_error ("WAL replay failed: " +:+ index_message e))
                     (InMemoryIndex.put (active_ s) document));
    _ ← modify (set_active active);
    _ ← modify (fun s => set_versions (<[doc_id document := doc_version document]> (versions_ s)) s);
    modify (fun s => set_buffered (buffered_mutations_ s + 1) s).

Definition restore_log : Section_ unit :=
  documents ← io (storage wal_message) (WriteAheadLog.replay wal_name default_wal_limits);
  each restore documents.

(** Between the construction of the writer and the start of the worker thread. *)
Definition restore_writer : Section_ unit :=
  _ ← adopt_generation;
  s ← get;
  _ ← (if reclaim_obsolete_files (options_ s) then io id (cleanup_startup_files (manifest_ s)) else mret tt);
  restore_log.

(** An early return destroys the writer that was constructed, and the
    destructor refreshes: with buffered mutations it waits for a worker that
    was never started, without it resets the log. *)
Inductive OpenResult := opened (s : IndexWriter) | refused (e : WriterError) | hangs.

Definition abandon (e : WriterError) (s : IndexWriter) (w : World) : OpenResult * World :=
  if buffered_mutations_ s =? 0 then (refused e, (WriteAheadLog.reset wal_name w).2) else (hangs, w).

Definition open (schema : IndexSchema) (options : IndexWriterOptions) (w : World) : OpenResult * World :=
  if negb (options_ok options) then (refused (failure storage_error "invalid writer limits"), w)
  else
    match call (failure storage_error "") (fun d => d) w with
    | (Err e, w') => (refused e, w')
    | (Ok _, w') =>
        match restore_writer (make schema options, w') with
        | (Ok _, (s, w'')) => (opened s, w'')
        | (Err e, (s, w'')) => abandon e s w''
        end
    end.

(** ** Threads

    A client thread is at the start of a call, or waits on the condition
    variable inside one; the end of a call is its result. *)

(** What follows a refresh: nothing, the loop of [merge_all], or the rest of
    the destructor. *)
Inductive AfterRefresh := return_ | merge_loop | destroy.


Inductive Client :=
| client_put (document : Document)             (* put: wait for !refreshing_ *)
| client_put_capacity (document : Document)    (* put: first wait_for_capacity_locked *)
| client_put_full                              (* put: second wait_for_capacity_locked *)
| client_refresh (after : AfterRefresh)        (* refresh: wait for !refreshing_ *)
| client_refresh_capacity (after : AfterRefresh)
| client_refresh_idle (after : AfterRefresh)
| client_merge                                 (* merge_all: one round of its loop *)
| client_stop                                  (* ~IndexWriter: after its refresh *)
| client_done (result : expected WriterError unit).

Inductive Worker :=
| worker_waiting
| worker_publishing (snapshot : IndexSnapshot)
| worker_exited.

(** The predicates of the waits. *)
Definition failed (s : IndexWriter) : bool := match worker_error_ s with Some _ => true | None => false end.
Definition has_capacity (s : IndexWriter) : bool := zlen (frozen_ s) <? maximum_frozen_indexes (options_ s).
Definition put_may_start (s : IndexWriter) : bool := negb (refreshing_ s) || failed s || stopping_ s.
Definition capacity_wait_over (s : IndexWriter) : bool := failed s || stopping_ s || has_capacity s.
Definition refresh_may_start (s : IndexWriter) : bool := negb (refreshing_ s) || failed s.
Definition idle_wait_over (s : IndexWriter) : bool := failed s || (negb (worker_busy_ s) && bool_decide (frozen_ s = [])).
Definition worker_may_run (s : IndexWriter) : bool := stopping_ s || negb (bool_decide (frozen_ s = [])).

(** A wait is over at once when its predicate holds; else the thread waits. *)
Definition waiting (c : Client) (s : IndexWriter) : bool :=
  negb match c with
       | client_put _ => put_may_start s
       | client_put_capacity _ | client_put_full | client_refresh_capacity _ => capacity_wait_over s
       | client_refresh _ => refresh_may_start s
       | client_refresh_idle _ => idle_wait_over s
       | client_merge | client_stop => true
       | client_done _ => false
       end.

(** The tests after a wait. *)
Definition check_open (closed_too : bool) : Section_ unit :=
  s ← get;
  match worker_error_ s with
  | Some e => lift (Err e)
  | None => check (negb (closed_too && stopping_ s)) (failure writer_closed "writer is closed")
  end.

(** What a section does next: wait somewhere else, or return. *)
Notation Next := (Section_ (option Client)).

Definition after_insertion : Next :=
  s ← get;
  if maximum_buffered_mutations (options_ s) <=? buffered_mutations_ s then mret (Some client_put_full) else mret None.

Definition refresh_returns (after : AfterRefresh) : option Client :=
  match after with return_ => None | merge_loop => Some client_merge | destroy => Some client_stop end.

Definition section (c : Client) : Next :=
  match c with
  | client_put document =>
      _ ← check_open true;
      s ← get;
      if maximum_buffered_mutations (options_ s) <=? buffered_mutations_ s then mret (Some (client_put_capacity document))
      else _ ← put_document document; after_insertion
  | client_put_capacity document =>
      _ ← check_open true; _ ← modify freeze_active_locked; _ ← put_document document; after_insertion
  | client_put_full => _ ← check_open true; _ ← modify freeze_active_locked; mret None
  | client_refresh after =>
      _ ← check_open false;
      _ ← modify (set_refreshing true);
      s ← get;
      if buffered_mutations_ s =? 0 then mret (Some (client_refresh_idle after)) else mret (Some (client_refresh_capacity after))
  | client_refresh_capacity after =>
      _ ← check_open true; _ ← modify freeze_active_locked; mret (Some (client_refresh_idle after))
  | client_refresh_idle after =>
      _ ← check_open false;
      _ ← poison (io (storage wal_message) (WriteAheadLog.reset wal_name));
      _ ← modify (set_refreshing false);
      mret (refresh_returns after)
  | client_merge =>
      s ← get;
      if zlen (segments (manifest_ s)) <=? 1 then mret None else _ ← compact_published; mret (Some client_merge)
  | client_stop => _ ← modify set_stopping; mret None
  | client_done _ => mret None
  end.

(** [finish] on the error paths of [refresh]. *)
Definition unwind (c : Client) (s : IndexWriter) : IndexWriter :=
  match c with client_refresh_capacity _ | client_refresh_idle _ => set_refreshing false s | _ => s end.

(** The destructor ignores the result of its refresh. *)
Definition returns (c : Client) (r : expected WriterError unit) : Client :=
  match c with
  | client_refresh destroy | client_refresh_capacity destroy | client_refresh_idle destroy => client_stop
  | _ => client_done r
  end.

(** A thread runs until it returns, has to wait or releases the lock. *)
Fixpoint run_client (fuel : nat) (c : Client) (s : IndexWriter) (w : World) : Client * (IndexWriter * World) :=
  match fuel with
  | O => (c, (s, w))
  | S fuel' =>
      if waiting c s then (c, (s, w))
      else
        match section c (s, w) with
        | (Ok (Some client_merge), (s', w')) => (client_merge, (s', w'))
        | (Ok (Some client_stop), (s', w')) => (client_stop, (s', w'))
        | (Ok (Some c'), (s', w')) => run_client fuel' c' s' w'
        | (Ok None, (s', w')) => (client_done (Ok tt), (s', w'))
        | (Err e, (s', w')) => (returns c (Err e), (unwind c s', w'))
        end
  end.

(** No call waits more than three times. *)
Definition client_fuel : nat := 3.

Record Config := { writer : IndexWriter; machine : World; worker : Worker; clients : list Client }.

Definition step_client (i : nat) (c : Config) : option Config :=
  client ← clients c !! i;
  match client with
  | client_done _ => None
  | _ =>
      if waiting client (writer c) then None
      else
        let '(client', (s', w')) := run_client client_fuel client (writer c) (machine c) in
        Some {| writer := s'; machine := w'; worker := worker c; clients := <[i := client']> (clients c) |}
  end.

(** The calls of clients. *)
Inductive Call :=
| call_put (document : Document)
| call_erase (id : DocumentId) (version : Z)
| call_refresh
| call_merge_all
| call_destroy.

Definition start (call : Call) : Client :=
  match call with
  | call_put document => client_put document
  | call_erase id version => client_put (tombstone id version)
  | call_refresh => client_refresh return_
  | call_merge_all => client_refresh merge_loop
  | call_destroy => client_refresh destroy
  end.

(** The loop of the worker thread. *)
Definition step_worker (c : Config) : option Config :=
  let s := writer c in
  match worker c with
  | worker_waiting =>
      if negb (worker_may_run s) then None
      else
        match frozen_ s with
        | [] => Some {| writer := s; machine := machine c; worker := worker_exited; clients := clients c |}
        | snapshot :: rest =>
            Some {| writer := set_busy true (set_frozen rest s); machine := machine c;
                    worker := worker_publishing snapshot; clients := clients c |}
        end
  | worker_publishing snapshot =>
      match publish_snapshot snapshot (s, machine c) with
      | (Ok _, (s', w')) =>
          Some {| writer := set_busy false s'; machine := w'; worker := worker_waiting; clients := clients c |}
      | (Err e, (s', w')) =>
          Some {| writer := set_error e (set_busy false s'); machine := w'; worker := worker_exited; clients := clients c |}
      end
  | worker_exited => None
  end.

(** A new call, by a new thread. *)
Definition step_call (call : Call) (c : Config) : Config :=
  {| writer := writer c; machine := machine c; worker := worker c; clients := clients c ++ [start call] |}.

Inductive Choice := choose_client (i : nat) | choose_worker | choose_call (call : Call).

Definition step (choice : Choice) (c : Config) : option Config :=
  match choice with
  | choose_client i => step_client i c
  | choose_worker => step_worker c
  | choose_call call => Some (step_call call c)
  end.

Fixpoint run (choices : list Choice) (c : Config) : option Config :=
  match choices with [] => Some c | x :: rest => c' ← step x c; run rest c' end.

(** A writer that [open] returned, before any call. *)
Definition started (s : IndexWriter) (w : World) : Config :=
  {| writer := s; machine := w; worker := worker_waiting; clients := [] |}.

End IndexWriter.
