(* ===== verification/WriterSpec.v ===== *)
(** * The index writer: interleavings

    What holds in every interleaving of client threads and the worker, with
    any failing calls: the bounds and the mutual exclusion that the waits are
    for, and that no acknowledged mutation is dropped on its way from the
    active index to the publication; and three ways in which the program loses
    acknowledged mutations all the same. *)

From S2P Require Import Prelude Bytes Text Doubles Analysis Schema Types Index IndexSpec IndexChecks Segment SegmentFile Store StoreSpec SegmentStore Manifest Wal WalSpec WalDurability Generation GenerationSpec Writer.
Import IndexWriter.

(** ** Triples on the writer *)

Definition wtriple {A} (pre : IndexWriter -> Prop) (m : Section_ A) (post : A -> IndexWriter -> Prop)
    (err : IndexWriter -> Prop) : Prop :=
  forall s w, pre s -> let '(r, (s', _)) := m (s, w) in match r with Ok a => post a s' | Err _ => err s' end.

Lemma wtriple_ret {A} (a : A) (pre : IndexWriter -> Prop) post err :
  (forall s, pre s -> post a s) -> wtriple pre (mret a : Section_ A) post err.
Proof. intros H s w Hp. by apply H. Qed.

Lemma wtriple_bind {A B} pre (m : Section_ A) mid (f : A -> Section_ B) post err :
  wtriple pre m mid err -> (forall a, wtriple (mid a) (f a) post err) -> wtriple pre (m ≫= f) post err.
Proof.
  intros Hm Hf s w Hp. specialize (Hm s w Hp). unfold mbind, section_bind.
  destruct (m (s, w)) as [[a|e] [s' w']]; [|done]. by apply Hf.
Qed.

Lemma wtriple_weaken {A} (pre pre' : IndexWriter -> Prop) (m : Section_ A) (post post' : A -> IndexWriter -> Prop) err err' :
  wtriple pre m post err -> (forall s, pre' s -> pre s) -> (forall a s, post a s -> post' a s) ->
  (forall s, err s -> err' s : Prop) -> wtriple pre' m post' err'.
Proof.
  intros H H1 H2 H3 s w Hp. specialize (H s w (H1 s Hp)). destruct (m (s, w)) as [[a|e] [s' w']]; auto.
Qed.

Lemma wtriple_get (pre : IndexWriter -> Prop) err : wtriple pre get (fun a s => a = s /\ pre s) err.
Proof. by intros s w Hp. Qed.

Lemma wtriple_modify f (pre : IndexWriter -> Prop) (post : unit -> IndexWriter -> Prop) err :
  (forall s, pre s -> post tt (f s)) -> wtriple pre (modify f) post err.
Proof. intros H s w Hp. by apply H. Qed.

Lemma wtriple_check b e (pre : IndexWriter -> Prop) (err : IndexWriter -> Prop) :
  (forall s, pre s -> b = false -> err s) -> wtriple pre (check b e) (fun _ s => pre s /\ b = true) err.
Proof. intros H s w Hp. unfold check, ensure. destruct b; cbn; auto. Qed.

Lemma wtriple_lift {A} (m : expected WriterError A) (pre : IndexWriter -> Prop) (err : IndexWriter -> Prop) :
  (forall s, pre s -> err s) -> wtriple pre (lift m) (fun a s => pre s /\ m = Ok a) err.
Proof. intros H s w Hp. unfold lift. destruct m; cbn; auto. Qed.

Lemma wtriple_io {E A} (f : E -> WriterError) (m : IO E A) (pre : IndexWriter -> Prop) (err : IndexWriter -> Prop) :
  (forall s, pre s -> err s) -> wtriple pre (io f m) (fun _ s => pre s) err.
Proof. intros H s w Hp. unfold io. destruct (m w) as [[a|e] w']; cbn; auto. Qed.

Lemma wtriple_poison {A} (m : Section_ A) pre post (err : IndexWriter -> Prop) err' :
  wtriple pre m post err -> (forall s e, err s -> err' (set_error e s)) -> wtriple pre (poison m) post err'.
Proof.
  intros H He s w Hp. specialize (H s w Hp). unfold poison. destruct (m (s, w)) as [[a|e] [s' w']]; auto.
Qed.

(** A predicate that the publication sections respect: it says nothing of the
    manifest and the segment ids. *)
Definition unpublished (p : IndexWriter -> Prop) : Prop :=
  forall s, p s -> (forall m, p (set_manifest m s)) /\ (forall n, p (set_next_segment_id n s)).

Lemma wtriple_take_id p : unpublished p -> wtriple p take_segment_id (fun _ => p) p.
Proof.
  intros Hp. unfold take_segment_id. eapply wtriple_bind; [apply wtriple_get|]. intros s0. cbn beta.
  eapply wtriple_bind with (mid := fun _ => p); [apply wtriple_modify; intros s [_ H]; by apply Hp|].
  intros ?. by apply wtriple_ret.
Qed.

Lemma wtriple_compact p : unpublished p -> wtriple p compact_published (fun _ => p) p.
Proof.
  intros Hp. unfold compact_published. eapply wtriple_bind; [apply wtriple_get|]. intros s0. cbn beta.
  eapply wtriple_weaken with (pre := p); [|by intros s []|intros ? s H; exact H|intros s H; exact H].
  destruct (zlen (segments (manifest_ s0)) <=? 1); [by apply wtriple_ret|].
  eapply wtriple_bind; [by apply wtriple_io|]. intros opened. cbn beta.
  eapply wtriple_bind; [by apply wtriple_io|]. intros candidates. cbn beta.
  eapply wtriple_bind; [by apply wtriple_take_id|]. intros output_id. cbn beta.
  eapply wtriple_bind; [by apply wtriple_io|]. intros merged. cbn beta.
  eapply wtriple_bind; [by apply wtriple_io|]. intros ?. cbn beta.
  eapply wtriple_bind with (mid := fun _ => p); [apply wtriple_modify; intros s H; by apply Hp|].
  intros ?. cbn beta. by apply wtriple_io.
Qed.

Lemma wtriple_publish_snapshot p snapshot : unpublished p -> wtriple p (publish_snapshot snapshot) (fun _ => p) p.
Proof.
  intros Hp. unfold publish_snapshot. eapply wtriple_bind; [by apply wtriple_take_id|]. intros output_id. cbn beta.
  eapply wtriple_bind; [apply wtriple_get|]. intros s0. cbn beta.
  eapply wtriple_weaken with (pre := p); [|by intros s []|intros ? s H; exact H|intros s H; exact H].
  eapply wtriple_bind; [by apply wtriple_io|]. intros ?. cbn beta.
  eapply wtriple_bind; [by apply wtriple_io|]. intros ?. cbn beta.
  eapply wtriple_bind with (mid := fun _ => p); [apply wtriple_modify; intros s H; by apply Hp|].
  intros ?. cbn beta. match goal with |- wtriple _ (if ?b then _ else _) _ _ => destruct b end.
  - by apply wtriple_compact.
  - by apply wtriple_ret.
Qed.

(** ** The invariant *)

(** A snapshot holds a version of a document. *)
Definition version_in (documents : DocumentRecords) (id : DocumentId) (v : Z) : Prop :=
  exists r, documents !! id = Some r /\ doc_version (document r) = v.

Section invariant.
Context (options : IndexWriterOptions) (base : gmap string Z).

(** What every section keeps, given the snapshots that have left the queue:
    those published and the one the worker holds. *)
Record queue_ok (gone : list IndexSnapshot) (s : IndexWriter) : Prop := {
  qo_options : options_ s = options;
  qo_frozen : zlen (frozen_ s) <= maximum_frozen_indexes options;
  qo_versions : worker_error_ s = None -> forall id v, versions_ s !! id = Some v ->
    base !! id = Some v \/ version_in (InMemoryIndex.documents_ (active_ s)) id v \/
    exists snapshot, snapshot ∈ gone ++ frozen_ s /\ version_in (snap_documents snapshot) id v
}.

Definition flags_ok (refreshing busy : bool) (s : IndexWriter) : Prop :=
  refreshing_ s = refreshing /\ worker_busy_ s = busy.

Lemma queue_unpublished gone refreshing busy : unpublished (fun s => queue_ok gone s /\ flags_ok refreshing busy s).
Proof using Type. intros s [[Ho Hf Hv] Hfl]. split; intros ?; split; try done. Qed.

Lemma freeze_ok gone s : queue_ok gone s -> has_capacity s = true -> queue_ok gone (freeze_active_locked s).
Proof using Type.
  intros [Ho Hf Hv] Hc. unfold freeze_active_locked. destruct (buffered_mutations_ s =? 0); [done|].
  split; cbn.
  - done.
  - unfold has_capacity in Hc. rewrite Ho in Hc. rewrite zlen_app. change (zlen [_]) with 1. lia.
  - intros He id v Hid. destruct (Hv He id v Hid) as [H|[H|(sn & H & Hin)]]; [by left| |].
    + right. right. exists (InMemoryIndex.snapshot (active_ s)). split; [|done].
      rewrite app_assoc, elem_of_app. right. by left.
    + right. right. exists sn. split; [|done]. rewrite app_assoc, elem_of_app. by left.
Qed.

Lemma freeze_flags refreshing busy s : flags_ok refreshing busy s -> flags_ok refreshing busy (freeze_active_locked s).
Proof using Type. unfold freeze_active_locked. by destruct (buffered_mutations_ s =? 0). Qed.

Lemma put_ok gone refreshing busy document :
  let p s := queue_ok gone s /\ flags_ok refreshing busy s in
  wtriple p (put_document document) (fun _ => p) p.
Proof using Type.
  intros p. unfold put_document. eapply wtriple_bind; [apply wtriple_get|]. intros s0. cbn beta.
  eapply wtriple_bind; [apply wtriple_check; by intros s []|]. intros ?. cbn beta.
  eapply wtriple_bind; [apply wtriple_lift; by intros s [[] _]|]. intros active. cbn beta.
  eapply wtriple_bind with (mid := fun _ s => exists s1, p s1 /\ s = set_active active s1 /\
     InMemoryIndex.put (active_ s1) document = Ok active).
  { apply wtriple_modify. intros s [[[-> H] _] Hput%map_err_Ok]. by exists s. }
  intros ?. cbn beta. eapply wtriple_bind.
  { apply wtriple_poison with (err := fun s => exists s1, p s1 /\ s = set_active active s1 /\
      InMemoryIndex.put (active_ s1) document = Ok active); [by apply wtriple_io|].
    intros s e (s1 & [[Ho Hf Hv] Hfl] & -> & _). split; [|done]. by split. }
  intros ?. cbn beta. eapply wtriple_bind with (mid := fun _ => p); [|intros ?; apply wtriple_modify; by intros s [[] ?]].
  apply wtriple_modify. intros s (s1 & [[Ho Hf Hv] Hfl] & -> & Hput). split; [|done].
  apply put_Ok in Hput as (_ & _ & _ & _ & record & q & <- & _ & _ & _ & ->). split; [done|done|].
  intros He id v. cbn [versions_ set_versions set_active active_ frozen_]. rewrite publish_documents.
  unfold version_in. destruct (decide (doc_id (document record) = id)) as [<-|Hne].
  - rewrite lookup_insert_eq. intros [= <-]. right. left. exists record. by rewrite lookup_insert_eq.
  - rewrite lookup_insert_ne by done. intros Hid. destruct (Hv He id v Hid) as [H|[(r & H & Hr)|H]]; [by left| |by right; right].
    right. left. exists r. by rewrite lookup_insert_ne.
Qed.
End invariant.

(** ** Sections of clients *)

(** A thread between the two assignments of [refreshing_]. *)
Definition inside (c : Client) : bool :=
  match c with client_refresh_capacity _ | client_refresh_idle _ => true | _ => false end.

Definition inside_next (next : option Client) : Z := match next with Some c => Z.b2z (inside c) | None => 0 end.

Section sections.
Context (options : IndexWriterOptions) (base : gmap string Z) (gone : list IndexSnapshot).
Notation queue_ok := (queue_ok options base gone).

Definition settled_at (refreshing busy : bool) (s : IndexWriter) : Prop := queue_ok s /\ flags_ok refreshing busy s.

(** After a section: the flag has changed as the thread has moved. *)
Definition moved (c : Client) (refreshing busy : bool) (next : option Client) (s : IndexWriter) : Prop :=
  exists refreshing', settled_at refreshing' busy s /\
    Z.b2z refreshing' - Z.b2z refreshing = inside_next next - Z.b2z (inside c).

Lemma wtriple_check_open closed_too refreshing busy (extra : IndexWriter -> Prop) :
  wtriple (fun s => settled_at refreshing busy s /\ extra s) (check_open closed_too)
    (fun _ s => (settled_at refreshing busy s /\ extra s) /\ worker_error_ s = None /\ (closed_too = true -> stopping_ s = false))
    (settled_at refreshing busy).
Proof using Type.
  intros s w [Hs He]. unfold check_open, get, mbind, section_bind. cbn [fst].
  destruct (worker_error_ s) as [e|] eqn:E; [exact Hs|]. unfold check, ensure.
  destruct closed_too, (stopping_ s) eqn:Es; cbn [andb negb]; try exact Hs; (split; [done|split; [done|intros ?; done]]).
Qed.

Lemma wtriple_after_insertion refreshing busy c : inside c = false ->
  wtriple (settled_at refreshing busy) after_insertion (fun next => moved c refreshing busy next) (settled_at refreshing busy).
Proof using Type.
  intros Hc. unfold after_insertion. eapply wtriple_bind; [apply wtriple_get|]. intros s0. cbn beta.
  destruct (maximum_buffered_mutations (options_ s0) <=? buffered_mutations_ s0);
    (apply wtriple_ret; intros s [-> H]; exists refreshing; split; [done|rewrite Hc; cbn; lia]).
Qed.

Lemma capacity_freeze refreshing busy s : (settled_at refreshing busy s /\ capacity_wait_over s = true) ->
  worker_error_ s = None -> stopping_ s = false -> settled_at refreshing busy (freeze_active_locked s).
Proof using Type.
  intros [[Hq Hfl] Hw] He Hs. split; [|by apply freeze_flags]. apply freeze_ok; [done|].
  unfold capacity_wait_over, failed in Hw. by rewrite He, Hs in Hw.
Qed.

(** A section that begins by freezing, once there is capacity. *)
Lemma wtriple_freeze {A} refreshing busy (m : Section_ A) post :
  wtriple (settled_at refreshing busy) m post (settled_at refreshing busy) ->
  wtriple (fun s => settled_at refreshing busy s /\ capacity_wait_over s = true)
    (_ ← check_open true; _ ← modify freeze_active_locked; m) post (settled_at refreshing busy).
Proof using Type.
  intros H. eapply wtriple_bind; [apply wtriple_check_open|]. intros ?. cbn beta.
  eapply wtriple_bind with (mid := fun _ => settled_at refreshing busy); [|by intros ?].
  apply wtriple_modify. intros s (Hs & He & Hst). apply capacity_freeze; auto.
Qed.

Lemma wtriple_section c refreshing busy : (inside c = true -> refreshing = true) ->
  wtriple (fun s => settled_at refreshing busy s /\ waiting c s = false) (section c)
    (fun next => moved c refreshing busy next) (settled_at refreshing busy).
Proof using Type.
  intros Hin. unfold waiting.
  assert (Hover : forall (b : IndexWriter -> bool) s, settled_at refreshing busy s /\ negb (b s) = false ->
    settled_at refreshing busy s /\ b s = true).
  { intros b s [Hs Hb]. by destruct (b s). }
  assert (Hstay : forall next s, settled_at refreshing busy s -> inside_next next = Z.b2z (inside c) -> moved c refreshing busy next s).
  { intros next s Hs Hn. exists refreshing. split; [done|lia]. }
  destruct c as [document|document| |after|after|after| | |r]; cbn [section].
  - eapply wtriple_bind; [eapply wtriple_weaken; [apply wtriple_check_open|apply (Hover put_may_start)|intros ? s H; exact H|done]|].
    intros ?. cbn beta. eapply wtriple_bind; [apply wtriple_get|]. intros s0. cbn beta.
    eapply wtriple_weaken with (pre := settled_at refreshing busy);
      [|by intros s [-> [[? _] _]]|intros ? s H; exact H|intros s H; exact H].
    destruct (maximum_buffered_mutations (options_ s0) <=? buffered_mutations_ s0).
    + apply wtriple_ret. intros s H. by apply Hstay.
    + eapply wtriple_bind; [apply put_ok|]. intros ?. cbn beta. by apply wtriple_after_insertion.
  - eapply wtriple_weaken; [apply wtriple_freeze|apply (Hover capacity_wait_over)|intros ? s H; exact H|done].
    eapply wtriple_bind; [apply put_ok|]. intros ?. cbn beta. by apply wtriple_after_insertion.
  - eapply wtriple_weaken; [apply wtriple_freeze|apply (Hover capacity_wait_over)|intros ? s H; exact H|done].
    apply wtriple_ret. intros s H. by apply Hstay.
  - eapply wtriple_bind; [eapply wtriple_weaken; [apply wtriple_check_open|apply (Hover refresh_may_start)|intros ? s H; exact H|done]|].
    intros ?. cbn beta. eapply wtriple_bind with (mid := fun _ s => settled_at true busy s /\ refreshing = false).
    { apply wtriple_modify. intros s ([[Hq [Hr Hb]] Hs] & He & _).
      unfold refresh_may_start, failed in Hs. rewrite He, orb_false_r, Hr in Hs. apply negb_true_iff in Hs.
      split; [|done]. split; [|done]. destruct Hq. by split. }
    intros ?. cbn beta. eapply wtriple_bind; [apply wtriple_get|]. intros s0. cbn beta.
    destruct (buffered_mutations_ s0 =? 0); (apply wtriple_ret; intros s [-> [Hs ->]]; by exists true).
  - eapply wtriple_weaken; [apply wtriple_freeze|apply (Hover capacity_wait_over)|intros ? s H; exact H|done].
    apply wtriple_ret. intros s H. by apply Hstay.
  - rewrite (Hin eq_refl) in *.
    eapply wtriple_bind; [eapply wtriple_weaken; [apply wtriple_check_open|apply (Hover idle_wait_over)|intros ? s H; exact H|done]|].
    intros ?. cbn beta. eapply wtriple_bind with (mid := fun _ => settled_at true busy).
    { apply wtriple_poison with (err := settled_at true busy).
      - eapply wtriple_weaken; [apply wtriple_io; intros s H; exact H|by intros s [[H _] _]|intros ? s H; exact H|done].
      - intros s e [[Ho Hf Hv] Hfl]. split; [|done]. by split. }
    intros ?. cbn beta. eapply wtriple_bind with (mid := fun _ => settled_at false busy).
    { apply wtriple_modify. intros s [[Ho Hf Hv] [_ Hb]]. split; [by split|by split]. }
    intros ?. cbn beta. apply wtriple_ret. intros s H. exists false. split; [done|by destruct after].
  - eapply wtriple_bind; [apply wtriple_get|]. intros s0. cbn beta.
    eapply wtriple_weaken with (pre := settled_at refreshing busy);
      [|by intros s [-> [? _]]|intros ? s H; exact H|intros s H; exact H].
    destruct (zlen (segments (manifest_ s0)) <=? 1); [apply wtriple_ret; intros s H; by apply Hstay|].
    eapply wtriple_bind; [apply wtriple_compact, queue_unpublished|]. intros ?. cbn beta.
    apply wtriple_ret. intros s H. by apply Hstay.
  - eapply wtriple_bind with (mid := fun _ => settled_at refreshing busy).
    { apply wtriple_modify. intros s [[[Ho Hf Hv] [Hr Hb]] _]. split; [by split|by split]. }
    intros ?. cbn beta. apply wtriple_ret. intros s H. by apply Hstay.
  - apply wtriple_ret. intros s [H _]. by apply Hstay.
Qed.

Lemma unwind_settled c refreshing busy s : (inside c = true -> refreshing = true) -> settled_at refreshing busy s ->
  exists refreshing', settled_at refreshing' busy (unwind c s) /\
    Z.b2z refreshing' - Z.b2z refreshing = - Z.b2z (inside c).
Proof using Type.
  intros Hin [[Ho Hf Hv] [Hr Hb]].
  destruct (inside c) eqn:Ec; [|exists refreshing; destruct c; try done; (split; [by split|cbn; lia])].
  exists false. rewrite (Hin eq_refl). destruct c; try done; (split; [split; [by split|done]|done]).
Qed.

Lemma run_client_settled fuel : forall c s w refreshing busy,
  settled_at refreshing busy s -> (inside c = true -> refreshing = true) ->
  let '(c', (s', _)) := run_client fuel c s w in
  exists refreshing', settled_at refreshing' busy s' /\
    Z.b2z refreshing' - Z.b2z refreshing = Z.b2z (inside c') - Z.b2z (inside c).
Proof using Type.
  induction fuel as [|fuel IH]; intros c s w refreshing busy Hs Hin; cbn [run_client].
  { exists refreshing. split; [done|lia]. }
  destruct (waiting c s) eqn:Hw; [exists refreshing; split; [done|lia]|].
  pose proof (wtriple_section c refreshing busy Hin s w (conj Hs Hw)) as H.
  destruct (section c (s, w)) as [[[c'|]|e] [s' w']].
  - destruct H as (r' & Hs' & Hd). cbn [inside_next] in Hd.
    assert (Hin' : inside c' = true -> r' = true).
    { intros E. rewrite E in Hd. cbn in Hd. destruct (inside c); [rewrite (Hin eq_refl) in Hd; destruct r'; cbn in *; lia|].
      destruct r', refreshing; cbn in *; lia. }
    assert (Hrec : let '(c'', (s'', _)) := run_client fuel c' s' w' in exists r'', settled_at r'' busy s'' /\
      Z.b2z r'' - Z.b2z refreshing = Z.b2z (inside c'') - Z.b2z (inside c)).
    { specialize (IH c' s' w' r' busy Hs' Hin'). destruct (run_client fuel c' s' w') as [c'' [s'' w'']].
      destruct IH as (r'' & ? & ?). exists r''. split; [done|lia]. }
    destruct c'; try exact Hrec; exists r'; (split; [done|cbn in *; lia]).
  - destruct H as (r' & Hs' & Hd). cbn [inside_next] in Hd. exists r'. split; [done|cbn; lia].
  - destruct (unwind_settled c refreshing busy s' Hin H) as (r' & Hs' & Hd). exists r'. split; [done|].
    assert (inside (returns c (Err e)) = false) as -> by (by destruct c as [| | |[]|[]|[]| | |]). cbn. lia.
Qed.
End sections.

(** ** Configurations *)

Fixpoint insiders (l : list Client) : Z :=
  match l with [] => 0 | c :: l' => Z.b2z (inside c) + insiders l' end.

Lemma insiders_app l l' : insiders (l ++ l') = insiders l + insiders l'.
Proof. induction l as [|c l IH]; cbn; lia. Qed.

Lemma insiders_insert l : forall i c c', l !! i = Some c ->
  insiders (<[i := c']> l) = insiders l - Z.b2z (inside c) + Z.b2z (inside c').
Proof.
  induction l as [|x l IH]; intros [|i] c c' Hi; try done.
  - injection Hi as ->. cbn. lia.
  - change (Z.b2z (inside x) + insiders (<[i := c']> l) =
      Z.b2z (inside x) + insiders l - Z.b2z (inside c) + Z.b2z (inside c')). rewrite (IH i c c' Hi). lia.
Qed.

Lemma insiders_member l : forall i c, l !! i = Some c -> inside c = true -> 0 < insiders l.
Proof.
  assert (Hpos : forall l', 0 <= insiders l') by (induction l' as [|x l' IH]; cbn; [lia|destruct (inside x); cbn; lia]).
  induction l as [|x l IH]; intros [|i] c Hi Hc; try done; cbn in *.
  - injection Hi as ->. rewrite Hc. specialize (Hpos l). cbn. lia.
  - specialize (IH i c Hi Hc). destruct (inside x); cbn; lia.
Qed.

Definition held_by (w : Worker) : list IndexSnapshot :=
  match w with worker_publishing snapshot => [snapshot] | _ => [] end.

Definition publishing (w : Worker) : bool := match w with worker_publishing _ => true | _ => false end.

(** The snapshots that a step publishes, and those that a run does. *)
Definition published_by (choice : Choice) (c : Config) : list IndexSnapshot :=
  match choice, worker c with
  | choose_worker, worker_publishing snapshot =>
      match publish_snapshot snapshot (writer c, machine c) with (Ok _, _) => [snapshot] | _ => [] end
  | _, _ => []
  end.

Fixpoint published_in (choices : list Choice) (c : Config) : list IndexSnapshot :=
  match choices with
  | [] => []
  | choice :: rest =>
      published_by choice c ++ match step choice c with Some c' => published_in rest c' | None => [] end
  end.

Section config.
Context (options : IndexWriterOptions) (base : gmap string Z).

Record config_ok (done_ : list IndexSnapshot) (c : Config) : Prop := {
  co_writer : settled_at options base (done_ ++ held_by (worker c)) (0 <? insiders (clients c)) (publishing (worker c)) (writer c);
  co_one : insiders (clients c) <= 1
}.

Lemma b2z_positive n : 0 <= n <= 1 -> Z.b2z (0 <? n) = n.
Proof using Type. intros H. destruct (Z.ltb_spec 0 n); cbn; lia. Qed.

Lemma insiders_nonneg l : 0 <= insiders l.
Proof using Type. induction l as [|x l IH]; cbn; [lia|destruct (inside x); cbn; lia]. Qed.

Lemma step_client_ok done_ i c c' : config_ok done_ c -> step_client i c = Some c' -> config_ok done_ c'.
Proof using Type.
  intros [Hw Hone] Hstep. unfold step_client in Hstep. apply bind_Some in Hstep as (client & Hi & Hstep).
  assert (Hrun : client_done (Ok tt) = client \/ (if waiting client (writer c) then None else
      let '(client', (s', w')) := run_client client_fuel client (writer c) (machine c) in
      Some {| writer := s'; machine := w'; worker := worker c; clients := <[i := client']> (clients c) |}) = Some c')
    by (destruct client; first [right; exact Hstep|discriminate]).
  destruct Hrun as [<-|Hrun]; [discriminate|]. clear Hstep. destruct (waiting client (writer c)); [discriminate|].
  assert (Hin : inside client = true -> (0 <? insiders (clients c)) = true).
  { intros E. apply Z.ltb_lt. by eapply insiders_member. }
  pose proof (run_client_settled options base _ client_fuel client (writer c) (machine c) _ _ Hw Hin) as H.
  destruct (run_client client_fuel client (writer c) (machine c)) as [client' [s' w']].
  destruct H as (r' & Hs' & Hd). injection Hrun as <-. pose proof (insiders_nonneg (clients c)) as Hnn.
  rewrite b2z_positive in Hd by lia.
  assert (Hcount : insiders (<[i := client']> (clients c)) = Z.b2z r').
  { rewrite (insiders_insert _ _ _ _ Hi). lia. }
  split; cbn [writer worker clients]; rewrite Hcount; [|destruct r'; cbn; lia].
  replace (0 <? Z.b2z r') with r' by by destruct r'. exact Hs'.
Qed.

Lemma step_worker_ok done_ c c' : config_ok done_ c -> step_worker c = Some c' ->
  config_ok (done_ ++ published_by choose_worker c) c'.
Proof using Type.
  intros [Hw Hone] Hstep. unfold step_worker, published_by in *. destruct (worker c) as [|snapshot|] eqn:Ew; [| |discriminate].
  - cbn [held_by publishing] in Hw. rewrite app_nil_r in *. destruct (negb (worker_may_run (writer c))); [discriminate|].
    destruct Hw as [[Ho Hf Hv] [Hr Hb]].
    destruct (frozen_ (writer c)) as [|snapshot rest] eqn:Ef; injection Hstep as <-; (split; [|done]); cbn [writer worker clients held_by publishing].
    + rewrite app_nil_r. split; [|done]. split; [done|by rewrite Ef|by rewrite Ef].
    + split; [|done]. split; cbn; [done|rewrite zlen_cons in Hf; lia|]. by rewrite <- app_assoc.
  - cbn [held_by publishing] in Hw.
    pose proof (wtriple_publish_snapshot _ snapshot (queue_unpublished options base (done_ ++ [snapshot]) (0 <? insiders (clients c)) true)
      (writer c) (machine c) Hw) as H.
    destruct (publish_snapshot snapshot (writer c, machine c)) as [[[]|e] [s' w']]; injection Hstep as <-;
      destruct H as [[Ho Hf Hv] [Hr Hb]]; (split; [|done]); cbn [writer worker clients held_by publishing]; rewrite ?app_nil_r.
    + split; [by split|done].
    + split; [by split|done].
Qed.

Lemma step_ok done_ choice c c' : config_ok done_ c -> step choice c = Some c' ->
  config_ok (done_ ++ published_by choice c) c'.
Proof using Type.
  intros Hc Hstep. destruct choice as [i| |call]; cbn [step] in Hstep.
  - cbn [published_by]. rewrite app_nil_r. by eapply step_client_ok.
  - by apply step_worker_ok.
  - cbn [published_by]. rewrite app_nil_r. injection Hstep as <-. destruct Hc as [Hw Hone].
    unfold step_call. assert (E : insiders (clients c ++ [start call]) = insiders (clients c)).
    { rewrite insiders_app. destruct call; cbn; lia. }
    split; cbn [writer worker clients]; rewrite E; done.
Qed.

Lemma run_ok choices : forall done_ c c', config_ok done_ c -> run choices c = Some c' ->
  config_ok (done_ ++ published_in choices c) c'.
Proof using Type.
  induction choices as [|choice rest IH]; intros done_ c c' Hc Hrun; cbn [run published_in] in *.
  - injection Hrun as <-. by rewrite app_nil_r.
  - apply bind_Some in Hrun as (c1 & Hstep & Hrun). rewrite Hstep, app_assoc. apply IH; [|done]. by apply step_ok.
Qed.
End config.

(** ** The writer that [open] returns *)

Definition idle_writer (schema : IndexSchema) (options : IndexWriterOptions) (s : IndexWriter) : Prop :=
  schema_ s = schema /\ options_ s = options /\ frozen_ s = [] /\ flags_ok false false s /\ worker_error_ s = None /\
  stopping_ s = false.

Lemma wtriple_each {A} (f : A -> Section_ unit) p err l : (forall x, wtriple p (f x) (fun _ => p) err) ->
  wtriple p (each f l) (fun _ => p) err.
Proof.
  intros Hf. induction l as [|x l IH]; cbn [each]; [by apply wtriple_ret|]. eapply wtriple_bind; [apply Hf|]. by intros ?.
Qed.

Section idle.
Context (schema : IndexSchema) (options : IndexWriterOptions).
Notation p := (idle_writer schema options).
Notation keeps m := (wtriple p m (fun _ => p) (fun _ => True)).

Lemma keeps_modify f : (forall s, p s -> p (f s)) -> keeps (modify f).
Proof using Type. intros H. by apply wtriple_modify. Qed.

(** Reading the state first. *)
Lemma keeps_get {A} (m : IndexWriter -> Section_ A) : (forall s, keeps (m s)) -> keeps (s ← get; m s).
Proof using Type.
  intros H. eapply wtriple_bind; [apply wtriple_get|]. intros s0. cbn beta.
  eapply wtriple_weaken; [apply H|by intros s []|intros ? s Hs; exact Hs|done].
Qed.

Lemma keeps_bind {A B} (m : Section_ A) (f : A -> Section_ B) : keeps m -> (forall a, keeps (f a)) -> keeps (m ≫= f).
Proof using Type. intros Hm Hf. by eapply wtriple_bind. Qed.

Lemma keeps_lift {A} (m : expected WriterError A) : keeps (lift m).
Proof using Type. eapply wtriple_weaken; [by apply wtriple_lift|intros s H; exact H|by intros a s []|done]. Qed.

Lemma keeps_check b e : keeps (check b e).
Proof using Type. eapply wtriple_weaken; [by apply wtriple_check|intros s H; exact H|by intros a s []|done]. Qed.

Ltac keep := repeat first
  [ apply keeps_get; intros ? | apply keeps_bind; [|intros ?] | by apply wtriple_io | apply keeps_lift | apply keeps_check
  | by apply wtriple_ret | apply keeps_modify; intros ? (? & ? & ? & [] & ? & ?); by split_and! | apply wtriple_each; intros ?
  | match goal with |- wtriple _ (if ?b then _ else _) _ _ => destruct b end ].

Lemma wtriple_adopt readers : keeps (each adopt_segment readers).
Proof using Type. unfold adopt_segment. keep. Qed.

Lemma wtriple_replayed docs : keeps (each restore docs).
Proof using Type. unfold restore. keep. Qed.

Lemma wtriple_restore : keeps restore_writer.
Proof using Type. unfold restore_writer, adopt_generation, restore_log, adopt_segment, restore. keep. Qed.
End idle.

Lemma open_idle schema options w0 s w : open schema options w0 = (opened s, w) -> idle_writer schema options s /\ options_ok options = true.
Proof.
  unfold open. destruct (options_ok options); [|done]. cbn [negb].
  destruct (call _ _ w0) as [[[]|e] w1]; [|done].
  pose proof (wtriple_restore schema options (make schema options) w1) as H.
  destruct (restore_writer (make schema options, w1)) as [[[]|e] [s' w']].
  - intros [= <- <-]. split; [|done]. by apply H.
  - unfold abandon. by destruct (buffered_mutations_ s' =? 0).
Qed.

(** C18. In every interleaving of calls with the worker, whatever calls fail:
    the queue of frozen indexes stays within its limit; at most one thread is
    inside a refresh, and [refreshing_] says whether there is one; the worker
    is busy exactly when it holds a snapshot; and until an error poisons the
    writer, every version it has recorded is in the active index, in the queue,
    with the worker, or has been published. *)
Theorem writer_conserves (schema : IndexSchema) (options : IndexWriterOptions) (w0 : World) (s : IndexWriter) (w : World)
    (choices : list Choice) (c : Config) :
  0 <= maximum_frozen_indexes options ->
  open schema options w0 = (opened s, w) -> run choices (started s w) = Some c ->
  zlen (frozen_ (writer c)) <= maximum_frozen_indexes options /\
  insiders (clients c) = Z.b2z (refreshing_ (writer c)) /\
  worker_busy_ (writer c) = publishing (worker c) /\
  (worker_error_ (writer c) = None -> forall id v, versions_ (writer c) !! id = Some v ->
     versions_ s !! id = Some v \/ version_in (InMemoryIndex.documents_ (active_ (writer c))) id v \/
     exists snapshot, version_in (snap_documents snapshot) id v /\
       snapshot ∈ published_in choices (started s w) ++ held_by (worker c) ++ frozen_ (writer c)).
Proof.
  intros Hmax Hopen Hrun. apply open_idle in Hopen as ((_ & Ho & Hf & [Hr Hb] & _) & _).
  assert (Hstart : config_ok options (versions_ s) [] (started s w)).
  { split; [|done]. split; [|done]. split; cbn [started writer]; [done|rewrite Hf; done|]. intros _ id v Hid. by left. }
  apply (run_ok _ _ _ _ _ _ Hstart) in Hrun. destruct Hrun as [[[Ho' Hf' Hv'] [Hr' Hb']] Hone]. cbn [app] in *.
  pose proof (insiders_nonneg (clients c)). split_and!; [done| |done|].
  - rewrite Hr'. symmetry. apply b2z_positive. lia.
  - intros He id v Hid. destruct (Hv' He id v Hid) as [H'|[H'|(sn & Hin & Hsn)]]; [by left|by right; left|].
    right. right. exists sn. split; [done|]. by rewrite app_assoc.
Qed.

(** ** Runs without failing calls stay without *)

Create HintDb calm.

Definition calm {E A} (m : IO E A) : Prop := forall w, script w = [] -> script (m w).2 = [].

Section calm.
Context {E : Type}.

Lemma calm_ret {A} (a : A) : calm (mret a : IO E A). Proof using Type. by intros w. Qed.

Lemma calm_bind {A B} (m : IO E A) (f : A -> IO E B) : calm m -> (forall a, calm (f a)) -> calm (m ≫= f).
Proof using Type.
  intros Hm Hf w Hw. specialize (Hm w Hw). unfold mbind, io_bind. destruct (m w) as [[a|e] w']; [by apply Hf|done].
Qed.

Lemma calm_lift {A} (m : expected E A) : calm (io_lift m). Proof using Type. by intros w. Qed.
Lemma calm_ensure b (e : E) : calm (io_ensure b e). Proof using Type. by intros w. Qed.

Lemma calm_map_err {E' A} (f : E -> E') (m : IO E A) : calm m -> calm (io_map_err f m).
Proof using Type. intros Hm w Hw. specialize (Hm w Hw). unfold io_map_err. by destruct (m w). Qed.

Lemma calm_call (e : E) op : calm (call e op).
Proof using Type. intros w Hw. unfold call, next_fault. by rewrite Hw. Qed.

Lemma calm_read {A} (e : E) (f : Disk -> option A) : calm (call_read e f).
Proof using Type. intros w Hw. unfold call_read, next_fault. rewrite Hw. by destruct (f (disk w)). Qed.
End calm.

#[export] Hint Resolve calm_ret calm_bind calm_lift calm_ensure calm_map_err calm_call calm_read : calm.

Lemma calm_read_checked {E} (e1 e2 : E) check name : calm (read_checked e1 e2 check name).
Proof. unfold read_checked. auto with calm. Qed.

Lemma calm_open_segment name limits : calm (open_segment name limits).
Proof. unfold open_segment. apply calm_bind; [apply calm_read_checked|auto with calm]. Qed.

Lemma calm_open_each limits l : calm (ManifestStore.open_each limits l).
Proof.
  induction l as [|x l IH]; cbn; [auto with calm|]. apply calm_bind; [|intros r; apply calm_bind; auto with calm].
  unfold ManifestStore.open_one. apply calm_bind; [apply calm_map_err, calm_open_segment|]. auto with calm.
Qed.

Lemma calm_open_current limits : calm (ManifestStore.open_current limits).
Proof.
  unfold ManifestStore.open_current, ManifestStore.load_current, ManifestStore.read_file.
  repeat (apply calm_bind; [|intros ?]); auto with calm; [apply calm_read_checked..|apply calm_open_each].
Qed.

Lemma calm_remove_each l : calm (remove_each l).
Proof. induction l as [|x l IH]; cbn; [auto with calm|]. apply calm_bind; auto with calm. Qed.

Lemma calm_cleanup m : calm (cleanup_startup_files m).
Proof. unfold cleanup_startup_files. apply calm_bind; [auto with calm|]. intros names. apply calm_remove_each. Qed.

Lemma calm_wal_sync name : calm (WriteAheadLog.wal_sync name).
Proof. unfold WriteAheadLog.wal_sync, sync_file. auto with calm. Qed.

Lemma calm_exists name : calm (WriteAheadLog.exists_quietly name).
Proof.
  intros w Hw. unfold WriteAheadLog.exists_quietly. pose proof (calm_read tt (fun d => Some (bool_decide (is_Some (dir d !! name)))) w Hw) as H.
  unfold file_exists. destruct (call_read tt _ w) as [[b|e] w']; done.
Qed.

Lemma calm_replay name limits : calm (WriteAheadLog.replay name limits).
Proof.
  unfold WriteAheadLog.replay, WriteAheadLog.read_log. apply calm_bind; [apply calm_exists|]. intros b.
  destruct (negb b); [auto with calm|]. apply calm_bind.
  - repeat (apply calm_bind; [auto with calm|intros ?]). match goal with |- calm (if ?c then _ else _) => destruct c end; auto with calm.
  - intros bytes. apply calm_bind; [auto with calm|]. intros [documents tail].
    match goal with |- calm (if ?c then _ else _) => destruct c end; [|auto with calm].
    apply calm_bind; [auto with calm|]. intros ?. apply calm_bind; [apply calm_wal_sync|auto with calm].
Qed.

(** The same for sections. *)
Definition scalm {A} (m : Section_ A) : Prop := forall s w, script w = [] -> script (m (s, w)).2.2 = [].

Lemma scalm_pure {A} (m : Section_ A) : (forall s w, (m (s, w)).2.2 = w) -> scalm m.
Proof. intros H s w Hw. by rewrite H. Qed.

Lemma scalm_bind {A B} (m : Section_ A) (f : A -> Section_ B) : scalm m -> (forall a, scalm (f a)) -> scalm (m ≫= f).
Proof.
  intros Hm Hf s w Hw. specialize (Hm s w Hw). unfold mbind, section_bind. destruct (m (s, w)) as [[a|e] [s' w']]; [by apply Hf|done].
Qed.

Lemma scalm_io {E A} (f : E -> WriterError) (m : IO E A) : calm m -> scalm (io f m).
Proof. intros Hm s w Hw. specialize (Hm w Hw). unfold io. by destruct (m w). Qed.

Lemma scalm_each {A} (f : A -> Section_ unit) l : (forall x, scalm (f x)) -> scalm (each f l).
Proof. intros Hf. induction l as [|x l IH]; cbn [each]; [by apply scalm_pure|]. by apply scalm_bind. Qed.

Lemma scalm_restore : scalm restore_writer.
Proof.
  unfold restore_writer, adopt_generation, restore_log, adopt_segment, restore.
  repeat first [ apply scalm_each; intros ? | apply scalm_bind; [|intros ?] | apply scalm_io | apply scalm_pure; done
               | match goal with |- scalm (if ?b then _ else _) => destruct b end ].
  all: first [apply calm_read | apply calm_open_current | apply calm_cleanup | apply calm_replay].
Qed.

(** No byte is left of a file. *)
Definition emptied (name : string) (d : Disk) : Prop := forall bs, content d name = Some bs -> bs = [].

Lemma emptied_truncate name d : emptied name (d_truncate name d).
Proof.
  intros bs. unfold content, d_truncate. destruct (dir d !! name) as [i|] eqn:Hi; cbn [dir set_inode d_create].
  - rewrite Hi. cbn [mbind option_bind inodes set_inode]. rewrite lookup_alter_eq.
    destruct (inodes d !! i); cbn; [by intros [= <-]|done].
  - rewrite lookup_insert_eq. cbn [mbind option_bind]. unfold d_create. cbn [inodes]. rewrite lookup_insert_eq. by intros [= <-].
Qed.

Lemma emptied_sync name d : emptied name d -> emptied name (d_sync name d).
Proof.
  intros H bs. unfold emptied, content in *. unfold d_sync, on_file. destruct (dir d !! name) as [i|] eqn:Hi; [|by rewrite Hi].
  cbn [dir set_inode]. rewrite Hi. cbn [mbind option_bind inodes set_inode]. rewrite lookup_alter_eq.
  destruct (inodes d !! i) as [node|] eqn:Hn; [|done]. cbn. intros [= <-]. apply H. cbn. by rewrite Hn.
Qed.

(** A failed [open] destroys the log: whenever [open] refuses an index
    after it has constructed the writer, and no call fails, the destructor has
    truncated the write-ahead log, whatever it held. *)
Theorem failed_open_empties_log (schema : IndexSchema) (options : IndexWriterOptions) (d : Disk) (e : WriterError) (w : World) :
  options_ok options = true -> open schema options (world d []) = (refused e, w) -> emptied wal_name (disk w).
Proof.
  intros Hok. unfold open. rewrite Hok. cbn [negb]. change (world d []) with (quiet d [d]). rewrite call_run.
  pose proof (scalm_restore (make schema options) (quiet d [d; d]) eq_refl) as Hs.
  destruct (restore_writer (make schema options, quiet d [d; d])) as [[[]|e'] [s' w']]; [done|].
  unfold abandon. destruct (buffered_mutations_ s' =? 0); [|done]. intros [= _ <-]. cbn [snd] in Hs.
  destruct w' as [d' sc p]. cbn [script] in Hs. subst sc. change {| disk := d'; script := []; passed := p |} with (quiet d' p).
  unfold WriteAheadLog.reset. erewrite bind_run by apply call_run. unfold WriteAheadLog.wal_sync, sync_file.
  pose proof (emptied_truncate wal_name d') as He. set (d1 := d_truncate wal_name d') in *.
  unfold mbind, io_bind, call_read, next_fault. cbn [script quiet disk].
  destruct (dir d1 !! wal_name); cbn [snd disk]; [|done]. by apply emptied_sync.
Qed.

(** ** Traces *)

Definition small_options : IndexWriterOptions :=
  {| maximum_buffered_mutations := 2; maximum_frozen_indexes := 1; automatic_merge_segment_count := 0; merge_width := 2;
     reclaim_obsolete_files := true; compressed_segments := true |}.

Definition small_document (id : string) : Document :=
  {| doc_id := id; doc_fields := {["title" := "one"]}; doc_stored_metadata := ∅; doc_version := 1; doc_deleted := false |}.

(** The fifth put waits for the full queue when a refresh begins, and goes on
    while the refresh waits for the worker. *)
Definition racing_choices : list Choice :=
  [choose_call (call_put (small_document "a")); choose_client 0; choose_call (call_put (small_document "b")); choose_client 1;
   choose_call (call_put (small_document "c")); choose_client 2; choose_call (call_put (small_document "d")); choose_client 3;
   choose_call (call_put (small_document "e")); choose_client 4; choose_call call_refresh; choose_client 5;
   choose_worker; choose_client 5; choose_worker; choose_worker; choose_client 4; choose_worker; choose_client 5].

Definition opened_as (r : OpenResult * World) (test : IndexWriter -> World -> bool) : bool :=
  match r with (opened s, w) => test s w | _ => false end.

Lemma opened_as_true r test : opened_as r test = true -> exists s w, r = (opened s, w) /\ test s w = true.
Proof. destruct r as [[s| |] w]; [|done..]. intros H. exists s, w. split; [reflexivity|exact H]. Qed.

Definition acknowledged (c : Config) (i : nat) : bool :=
  match clients c !! i with Some (client_done (Ok tt)) => true | _ => false end.

(** C29. A race loses an acknowledged mutation: in an interleaving of five puts
    and a refresh, all without failing calls, the fifth put and the refresh
    return without error, and a writer that is opened on the files that are
    then there knows the first put but not the fifth. *)
Theorem acknowledged_mutation_lost :
  exists s w c s' w',
    open IndexSchema.default_schema small_options (world empty_disk []) = (opened s, w) /\
    run racing_choices (started s w) = Some c /\
    acknowledged c 4 = true /\ acknowledged c 5 = true /\
    open IndexSchema.default_schema small_options (world (disk (machine c)) []) = (opened s', w') /\
    versions_ s' !! "a" = Some 1 /\ versions_ s' !! "e" = None.
Proof.
  assert (H : opened_as (open IndexSchema.default_schema small_options (world empty_disk []))
    (fun s w => match run racing_choices (started s w) with
                | Some c => acknowledged c 4 && acknowledged c 5 &&
                    opened_as (open IndexSchema.default_schema small_options (world (disk (machine c)) []))
                      (fun s' _ => bool_decide (versions_ s' !! "a" = Some 1) && bool_decide (versions_ s' !! "e" = None))
                | None => false
                end) = true) by (vm_compute; reflexivity).
  apply opened_as_true in H as (s & w & E & H). destruct (run racing_choices (started s w)) as [c|] eqn:Er; [|discriminate H].
  apply andb_prop in H as [[H4 H5]%andb_prop H]. apply opened_as_true in H as (s' & w' & E' & [Ha He]%andb_prop).
  exists s, w, c, s', w'. split; [exact E|]. split; [exact Er|]. split; [exact H4|]. split; [exact H5|]. split; [exact E'|].
  split; [exact (bool_decide_eq_true_1 _ Ha)|exact (bool_decide_eq_true_1 _ He)].
Qed.

(** A schema without the fields of the log, and a log with a document. *)
Definition other_schema : IndexSchema := {| IndexSchema.fields_ := ∅ |}.

Lemma failed_open_empties_log_witness :
  exists e w, open other_schema small_options (world (log_disk wal_name (log [sample_logged "a"])) []) = (refused e, w) /\
    content (log_disk wal_name (log [sample_logged "a"])) wal_name <> Some [] /\ emptied wal_name (disk w).
Proof.
  assert (H : match open other_schema small_options (world (log_disk wal_name (log [sample_logged "a"])) []) with
              | (refused _, _) => true | _ => false end = true) by (vm_compute; reflexivity).
  destruct (open other_schema small_options (world (log_disk wal_name (log [sample_logged "a"])) [])) as [[s|e|] w] eqn:E;
    [discriminate H| |discriminate H].
  exists e, w. split; [reflexivity|]. split; [vm_compute; discriminate|].
  exact (failed_open_empties_log other_schema small_options _ e w ltac:(vm_compute; reflexivity) E).
Defined.

(** The log of a document the schema knows, then one it does not. *)
Definition mixed_log : list byte :=
  log [tombstone "a" 1; sample_logged "b"].

(** A failed [open] can also hang: when the log begins with a mutation
    that the index takes and goes on with one that it refuses, the destructor
    waits for a worker that was never started. *)
Theorem failed_open_hangs :
  exists w, open other_schema small_options (world (log_disk wal_name mixed_log) []) = (hangs, w).
Proof.
  assert (H : match open other_schema small_options (world (log_disk wal_name mixed_log) []) with
              | (hangs, _) => true | _ => false end = true) by (vm_compute; reflexivity).
  destruct (open other_schema small_options (world (log_disk wal_name mixed_log) [])) as [[s|e|] w];
    [discriminate H|discriminate H|]. exists w. reflexivity.
Qed.

Lemma writer_conserves_witness :
  exists s w c, open IndexSchema.default_schema small_options (world empty_disk []) = (opened s, w) /\
    run (take 12 racing_choices) (started s w) = Some c /\ insiders (clients c) = Z.b2z (refreshing_ (writer c)).
Proof.
  assert (H : opened_as (open IndexSchema.default_schema small_options (world empty_disk []))
    (fun s w => match run (take 12 racing_choices) (started s w) with Some _ => true | None => false end) = true)
    by (vm_compute; reflexivity).
  apply opened_as_true in H as (s & w & E & H). destruct (run (take 12 racing_choices) (started s w)) as [c|] eqn:Er; [|discriminate H].
  exists s, w, c. split; [exact E|]. split; [exact Er|].
  exact (proj1 (proj2 (writer_conserves IndexSchema.default_schema small_options (world empty_disk []) s w
    (take 12 racing_choices) c ltac:(vm_compute; discriminate) E Er))).
Defined.
