(* ===== verification/WriterRecovery.v ===== *)
(** * What a writer recovers

    Puts and erases by any number of clients, before the buffer is full: after
    a crash at any moment, reopening the index gives back every acknowledged
    mutation, unless the crash has taken the log itself. *)

From S2P Require Import Prelude Bytes Text Cursor Schema Types Index IndexSpec IndexChecks Segment Store StoreSpec SegmentStore Manifest ManifestSpec Durability Wal WalSpec WalDurability Generation Writer WriterSpec.
Import ManifestStore IndexWriter.

(** ** The writer that restoring a log gives *)

(** Restoring these documents, in this order, on a writer gives this one. *)
Definition restores (base : IndexWriter) (docs : list Document) (s : IndexWriter) : Prop :=
  forall w, each restore docs (base, w) = (Ok tt, (s, w)).

Lemma each_app {A} (f : A -> Section_ unit) l l' s : each f (l ++ l') s =
  match each f l s with (Ok _, s') => each f l' s' | (Err e, s') => (Err e, s') end.
Proof.
  revert s. induction l as [|x l IH]; intros s; cbn [app each]; [done|].
  unfold mbind, section_bind. destruct (f x s) as [[[]|e] s']; [|done]. apply IH.
Qed.

Lemma restores_snoc base docs s d s' : restores base docs s -> (forall w, restore d (s, w) = (Ok tt, (s', w))) ->
  restores base (docs ++ [d]) s'.
Proof.
  intros Hs Hd w. rewrite each_app, Hs. cbn [each]. unfold mbind, section_bind. by rewrite Hd.
Qed.

Lemma restores_nil base : restores base [] base.
Proof. by intros w. Qed.

(** A put does to the writer what restoring its document does, once the log
    has it; a put that the writer or the index refuses does nothing. *)
Lemma put_as_restore d s w :
  (exists e, put_document d (s, w) = (Err e, (s, w))) \/
  exists s', (forall w', restore d (s, w') = (Ok tt, (s', w'))) /\
    match WriteAheadLog.append wal_name d w with
    | (Ok _, w') => put_document d (s, w) = (Ok tt, (s', w'))
    | (Err e, w') => exists e' s'', put_document d (s, w) = (Err e', (s'', w')) /\ worker_error_ s'' = Some e' /\
        frozen_ s'' = frozen_ s /\ stopping_ s'' = stopping_ s
    end.
Proof.
  unfold put_document, restore, get, check, lift, modify, io, poison, mbind, section_bind. cbn [fst].
  destruct (match versions_ s !! doc_id d with Some _ => _ | None => true end) eqn:Ev; cbn [ensure]; [|left; by eexists].
  assert (Hstale : match versions_ s !! doc_id d with Some version => doc_version d <=? version | None => false end = false).
  { destruct (versions_ s !! doc_id d) as [v|]; [|done]. by destruct (doc_version d <=? v). }
  rewrite Hstale. destruct (InMemoryIndex.put (active_ s) d) as [active|e] eqn:Ep; cbn [map_err]; [|left; by eexists].
  right. eexists. split; [intros w'; reflexivity|].
  destruct (WriteAheadLog.append wal_name d w) as [[[]|e] w']; cbn [map_err]; [done|]. eexists _, _. by split_and!.
Qed.

(** Versions only grow. *)
Lemma restore_version d s s' w w' : restore d (s, w) = (Ok tt, (s', w')) ->
  (exists v, versions_ s' !! doc_id d = Some v /\ doc_version d <= v) /\
  (forall id v, versions_ s !! id = Some v -> exists v', versions_ s' !! id = Some v' /\ v <= v').
Proof.
  unfold restore, get, lift, modify, mbind, section_bind. cbn [fst]. intros H.
  assert (Hcases : (s' = s /\ exists v, versions_ s !! doc_id d = Some v /\ doc_version d <= v) \/
    (versions_ s' = <[doc_id d := doc_version d]> (versions_ s) /\ forall v, versions_ s !! doc_id d = Some v -> v < doc_version d)).
  { revert H. destruct (versions_ s !! doc_id d) as [v|] eqn:Ev.
    - destruct (Z.leb_spec (doc_version d) v); [intros [= <- <-]; left; split; [done|by exists v]|].
      destruct (InMemoryIndex.put _ _); [|done]. cbn [map_err]. intros [= <- <-]. right. split; [done|by intros ? [= <-]].
    - destruct (InMemoryIndex.put _ _); [|done]. cbn [map_err]. intros [= <- <-]. right. by split. }
  destruct Hcases as [[-> Hv]|[-> Hv]].
  - split; [exact Hv|]. intros id v Hid. exists v. split; [done|lia].
  - split; [exists (doc_version d); rewrite lookup_insert_eq; split; [done|lia]|]. intros id v Hid.
    destruct (decide (id = doc_id d)) as [->|].
    + exists (doc_version d). rewrite lookup_insert_eq. split; [done|]. apply Hv in Hid. lia.
    + exists v. rewrite lookup_insert_ne by done. split; [done|lia].
Qed.

Lemma each_versions docs : forall s s' w w', each restore docs (s, w) = (Ok tt, (s', w')) ->
  (forall d, d ∈ docs -> exists v, versions_ s' !! doc_id d = Some v /\ doc_version d <= v) /\
  (forall id v, versions_ s !! id = Some v -> exists v', versions_ s' !! id = Some v' /\ v <= v').
Proof.
  induction docs as [|x docs IH]; intros s s' w w'; cbn [each].
  - intros [= <- <-]. split; [by intros d ?%not_elem_of_nil|]. intros id v Hid. exists v. split; [done|lia].
  - unfold mbind at 1, section_bind at 1. destruct (restore x (s, w)) as [[[]|e] [s1 w1]] eqn:Er; [|done].
    intros H. apply IH in H as [Hin Hgrow]. apply restore_version in Er as [Hx Hg]. split.
    + intros d [->|Hd]%elem_of_cons; [|by apply Hin]. destruct Hx as (v & Hv & Hle).
      apply Hgrow in Hv as (v' & Hv' & ?). exists v'. split; [done|lia].
    + intros id v Hv. apply Hg in Hv as (v1 & Hv1 & ?). apply Hgrow in Hv1 as (v2 & ? & ?). exists v2. split; [done|lia].
Qed.

(** ** The directory beside the log *)

(** The other names of the directory, the files of [P] on the medium, and none of
    them shares its inode with the log or with a file to come; now and in every
    directory a crash can go back to. *)
Record beside (P : Files) (names : gset string) (d : Disk) : Prop := {
  beside_names m : m ∈ history d -> dom m ∖ {[wal_name]} = names;
  beside_settled m : m ∈ history d -> settled m (inodes d) P;
  beside_apart m m' n i : m ∈ history d -> m' ∈ history d -> is_Some (P !! n) -> m !! n = Some i -> m' !! wal_name <> Some i;
  beside_fresh m n i : m ∈ history d -> m !! n = Some i -> i < fresh d
}.

Lemma beside_kept P names lost : kept_by_file lost wal_name (beside P names).
Proof.
  intros d f (i & node & Hi & _) [Hn Hs Ha Hf]. unfold on_file. rewrite Hi.
  split; [exact Hn| |exact Ha|exact Hf]. intros m Hm n bs Hbs. destruct (Hs m Hm n bs Hbs) as (j & Hj & Ej).
  exists j. split; [done|]. cbn. rewrite lookup_alter_ne; [done|]. intros <-.
  by apply (Ha m (dir d) n i Hm); [left|exists bs| |].
Qed.

Lemma beside_created P names lost : kept_by_create lost wal_name (beside P names).
Proof.
  intros d _ Hm [Hn Hs Ha Hf].
  assert (Hhist : forall m, m ∈ history (d_create d wal_name) -> m = <[wal_name := fresh d]> (dir d) \/ m ∈ history d).
  { intros m. unfold history. cbn. rewrite !elem_of_cons. tauto. }
  assert (Hnew : forall n i, <[wal_name := fresh d]> (dir d) !! n = Some i -> n = wal_name /\ i = fresh d \/ dir d !! n = Some i).
  { intros n i. rewrite lookup_insert_Some. intros [[<- <-]|[_ ?]]; auto. }
  assert (Hwal : P !! wal_name = None).
  { destruct (P !! wal_name) as [bs|] eqn:E; [|done]. destruct (Hs (dir d) ltac:(left) _ _ E) as (i & Hi & _).
    by rewrite (Hm (dir d)) in Hi by left. }
  assert (Hkeep : forall m, m ∈ history d -> settled m (<[fresh d := synced []]> (inodes d)) P).
  { intros m Hin n bs Hbs. destruct (Hs m Hin n bs Hbs) as (j & Hj & Ej). exists j. split; [done|].
    pose proof (Hf m n j Hin Hj). by rewrite lookup_insert_ne by lia. }
  split.
  - intros m [->|Hin]%Hhist; [|by apply Hn]. rewrite dom_insert_L, <- (Hn (dir d)) by left. set_solver.
  - intros m [->|Hin]%Hhist; [|by apply Hkeep]. intros n bs Hbs. destruct (Hkeep (dir d) ltac:(left) n bs Hbs) as (j & Hj & Ej).
    exists j. split; [|done]. rewrite lookup_insert_ne; [done|congruence].
  - intros m m' n i Hin Hin' HP Hmn Hw.
    assert (Hi : exists m, m ∈ history d /\ m !! n = Some i).
    { apply Hhist in Hin as [->|Hin]; [|by exists m]. apply Hnew in Hmn as [[-> _]|Hmn]; [by rewrite Hwal in HP; destruct HP|].
      exists (dir d). split; [left|done]. }
    destruct Hi as (m0 & Hm0 & Hi). apply Hhist in Hin' as [->|Hin'].
    + rewrite lookup_insert_eq in Hw. injection Hw as <-. pose proof (Hf _ _ _ Hm0 Hi). lia.
    + by rewrite (Hm m' Hin') in Hw.
  - cbn [d_create fresh]. intros m n i [->|Hin]%Hhist Hmn; [apply Hnew in Hmn as [[_ ->]|Hmn]; [lia|]|].
    + pose proof (Hf (dir d) n i ltac:(left) Hmn). lia.
    + pose proof (Hf m n i Hin Hmn). lia.
Qed.

Lemma beside_crash P names d d' : beside P names d -> crash d d' -> beside P names d'.
Proof.
  intros [Hn Hs Ha Hf] C. assert (Hhist : forall m, m ∈ history d' -> m = dir d' /\ m ∈ history d).
  { intros m. unfold history. rewrite (crash_older _ _ C), list_elem_of_singleton. intros ->. split; [done|].
    rewrite elem_of_cons. apply C. }
  split.
  - intros m [_ Hm]%Hhist. by apply Hn.
  - intros m [-> Hm]%Hhist. apply crash_settled with d; [done|]. by apply Hs.
  - intros m m' n i [_ Hm]%Hhist [_ Hm']%Hhist. by apply Ha.
  - intros m n i [_ Hm]%Hhist. rewrite (crash_fresh _ _ C). by apply Hf.
Qed.

Lemma beside_content P names d n bs : beside P names d -> P !! n = Some bs -> content d n = Some bs.
Proof.
  intros [_ Hs _ _] Hn. destruct (Hs (dir d) ltac:(left) n bs Hn) as (i & Hi & E). unfold content. rewrite Hi. cbn. by rewrite E.
Qed.

Lemma beside_exists P names d n : n <> wal_name -> beside P names d ->
  bool_decide (is_Some (dir d !! n)) = bool_decide (n ∈ names).
Proof.
  intros Hne [Hn _ _ _]. rewrite <- (Hn (dir d)) by left. apply bool_decide_ext. rewrite <- elem_of_dom. set_solver.
Qed.

(** The log is never taken for a file left over. *)
Lemma leftover_wal m : leftover m wal_name = false.
Proof. by destruct m. Qed.

(** ** The writer before its log is restored *)

(** The segment of a manifest and its reader. *)
Definition opens_as (P : Files) (segment : ManifestSegment) (reader : SegmentReader) : Prop :=
  exists bs, P !! filename segment = Some bs /\ SegmentReader.open bs default_read_limits = Ok reader /\
    SegmentReader.segment_id_ reader = manifest_segment_id segment.

(** What is published, and the writer that has adopted it: nothing, or the
    segments of the current manifest. *)
Inductive published (schema : IndexSchema) (options : IndexWriterOptions) (P : Files) (names : gset string)
    : IndexWriter -> Prop :=
| published_nothing : "CURRENT" ∉ names -> published schema options P names (make schema options)
| published_generation m readers base :
    "CURRENT" ∈ names -> serving P m -> Forall2 (opens_as P) (segments m) readers ->
    (forall w, each adopt_segment readers (set_manifest m (make schema options), w) = (Ok tt, (base, w))) ->
    published schema options P names base.

(** Reopening has nothing to clean up. *)
Definition tidy (options : IndexWriterOptions) (names : gset string) (base : IndexWriter) : Prop :=
  reclaim_obsolete_files options = true -> forall name, name ∈ names -> leftover (manifest_ base) name = false.

Lemma io_quiet {E A} (f : E -> WriterError) (m : IO E A) s w a w' : m w = (Ok a, w') -> io f m (s, w) = (Ok a, (s, w')).
Proof. intros H. unfold io. by rewrite H. Qed.

Lemma section_run {A B} (m : Section_ A) (f : A -> Section_ B) s a s' : m s = (Ok a, s') -> (m ≫= f) s = f a s'.
Proof. intros H. unfold mbind, section_bind. by rewrite H. Qed.

Section published.
Context (schema : IndexSchema) (options : IndexWriterOptions) (P : Files) (names : gset string).

Lemma load_current_quiet m d p : serving P m -> beside P names d -> load_current (quiet d p) = (Ok m, quiet d p).
Proof.
  intros Hm Hd. pose proof (generation_u64 P m Hm) as Hg. unfold load_current, read_file.
  erewrite bind_run by (apply read_checked_quiet;
    [eapply beside_content; [exact Hd|apply Hm]|by rewrite (proj2 (Z.leb_le _ _) (current_fits _ Hg))]).
  erewrite bind_run by (unfold io_lift; by rewrite decode_encode_current).
  erewrite bind_run by (apply read_checked_quiet;
    [eapply beside_content; [exact Hd|apply Hm]|by rewrite (proj2 (Z.leb_le _ _) (sv_size _ _ Hm))]).
  unfold io_lift. by rewrite (proj2 (decode_manifest_Ok (encode_manifest m) m) (conj (sv_ok _ _ Hm) eq_refl)).
Qed.

Lemma open_each_quiet l readers d p : Forall2 (opens_as P) l readers -> beside P names d ->
  open_each default_read_limits l (quiet d p) = (Ok readers, quiet d p).
Proof.
  intros Hl Hd. induction Hl as [|segment reader l readers (bs & Hbs & Ho & Hid) _ IH]; cbn [open_each]; [done|].
  erewrite bind_run; [erewrite bind_run by apply IH; reflexivity|].
  unfold open_one. erewrite bind_run.
  2: { unfold io_map_err. rewrite (open_segment_quiet _ _ _ _ bs reader); [done| |done]. by eapply beside_content. }
  by rewrite Hid, Z.eqb_refl.
Qed.

Lemma adopt_quiet base d p : published schema options P names base -> beside P names d ->
  adopt_generation (make schema options, quiet d p) = (Ok tt, (base, quiet d p)).
Proof.
  intros Hbase Hd. unfold adopt_generation.
  assert (Hex : file_exists (failure filesystem_exception "") "CURRENT" (quiet d p) = (Ok (bool_decide ("CURRENT" ∈ names)), quiet d p)).
  { unfold file_exists. apply read_run. f_equal. by apply (beside_exists P). }
  erewrite section_run by (by apply io_quiet). cbn beta. destruct Hbase as [Hno|m readers base Hyes Hm Hreaders Hadopt].
  - by rewrite bool_decide_eq_false_2.
  - rewrite bool_decide_eq_true_2 by done.
    assert (Ho : open_current default_read_limits (quiet d p) = (Ok {| open_manifest := m; open_readers := readers |}, quiet d p)).
    { unfold open_current. erewrite bind_run by by apply load_current_quiet.
      erewrite bind_run by by apply open_each_quiet. done. }
    erewrite section_run by (by apply io_quiet). cbn beta.
    erewrite section_run by reflexivity. apply Hadopt.
Qed.

Lemma cleanup_quiet base d p : tidy options names base -> reclaim_obsolete_files options = true -> beside P names d ->
  cleanup_startup_files (manifest_ base) (quiet d p) = (Ok tt, quiet d p).
Proof.
  intros Ht Hr Hd. unfold cleanup_startup_files. erewrite bind_run by (by apply read_run).
  destruct (filter (fun name => leftover (manifest_ base) name = true) (map_items (dir d)).*1) as [|name l] eqn:E; [done|exfalso].
  assert (Hname : name ∈ filter (fun name => leftover (manifest_ base) name = true) (map_items (dir d)).*1) by (rewrite E; left).
  apply list_elem_of_filter in Hname as [Hleft ([id i] & -> & Hitem)%list_elem_of_fmap].
  cbn [fst] in Hleft. apply elem_of_map_items in Hitem. destruct (decide (id = wal_name)) as [->|Hne]; [by rewrite leftover_wal in Hleft|].
  rewrite (Ht Hr id) in Hleft; [done|]. rewrite <- (beside_names _ _ _ Hd (dir d)) by left.
  apply elem_of_difference. split; [by apply elem_of_dom; exists i|by rewrite elem_of_singleton].
Qed.

Lemma published_idle base : published schema options P names base -> idle_writer schema options base.
Proof.
  intros [Hno|m readers base' _ _ _ Hadopt]; [done|].
  pose proof (wtriple_adopt schema options readers (set_manifest m (make schema options)) (world empty_disk [])) as H.
  rewrite Hadopt in H. by apply H.
Qed.
End published.

Lemma restore_buffered d s s' w w' : restore d (s, w) = (Ok tt, (s', w')) -> buffered_mutations_ s' <= buffered_mutations_ s + 1.
Proof.
  unfold restore, get, lift, modify, mbind, section_bind. cbn [fst]. destruct (match versions_ s !! doc_id d with Some _ => _ | None => _ end).
  - intros [= <- <-]. lia.
  - destruct (InMemoryIndex.put _ _); [|done]. cbn [map_err]. intros [= <- <-]. cbn. lia.
Qed.

Lemma restores_buffered base docs s : restores base docs s -> buffered_mutations_ s <= buffered_mutations_ base + zlen docs.
Proof.
  intros H. specialize (H (world empty_disk [])). revert H. generalize (world empty_disk []). intros w. generalize w at 2. intros w'.
  revert base w. induction docs as [|x docs IH]; intros base w; cbn [each].
  - intros [= <- <-]. change (zlen (@nil Document)) with 0. lia.
  - unfold mbind at 1, section_bind at 1. destruct (restore x (base, w)) as [[[]|e] [s1 w1]] eqn:Er; [|done].
    intros H%IH. apply restore_buffered in Er. rewrite zlen_cons. lia.
Qed.

Lemma adopt_buffered readers : forall s s' w w', each adopt_segment readers (s, w) = (Ok tt, (s', w')) ->
  buffered_mutations_ s' = buffered_mutations_ s.
Proof.
  induction readers as [|r readers IH]; intros s s' w w'; cbn [each]; [by intros [= <- <-]|].
  unfold mbind at 1, section_bind at 1. destruct (adopt_segment r (s, w)) as [[[]|e] [s1 w1]] eqn:Er; [|done].
  intros H%IH. rewrite H. revert Er. unfold adopt_segment, get, check, modify, mbind, section_bind. cbn [fst].
  destruct (same_schema _ _); cbn [ensure]; [|done]. by intros [= <- <-].
Qed.

Lemma published_buffered schema options P names base : published schema options P names base -> buffered_mutations_ base = 0.
Proof.
  intros [Hno|m readers base' _ _ _ Hadopt]; [done|]. specialize (Hadopt (world empty_disk [])).
  by apply adopt_buffered in Hadopt.
Qed.

(** ** Reopening *)

Lemma zlen_log_perm l l' : l ≡ₚ l' -> zlen (log l) = zlen (log l').
Proof.
  induction 1 as [|x l l' _ IH|x y l|l l' l'' _ IH _ IH']; unfold log in *; rewrite ?bind_cons, ?zlen_app in *; lia.
Qed.

(** Documents that the log and the buffer have room for. *)
Record room (options : IndexWriterOptions) (docs : list Document) : Prop := {
  room_loggable : Forall (loggable default_wal_limits) docs;
  room_count : zlen docs <= wal_maximum_records default_wal_limits;
  room_bytes : zlen (log docs) <= wal_maximum_file_bytes default_wal_limits;
  room_buffer : zlen docs < maximum_buffered_mutations options
}.

Lemma room_submseteq options l l' : l ⊆+ l' -> room options l' -> room options l.
Proof.
  intros (k & E)%submseteq_Permutation [H1 H2 H3 H4]. rewrite (zlen_log_perm _ _ E) in H3. rewrite E in H1. apply Forall_app in H1 as [H1 _].
  assert (Hz : zlen l' = zlen l + zlen k) by (unfold zlen; rewrite E, length_app; lia).
  pose proof (zlen_nonneg k). unfold log in *. rewrite bind_app, zlen_app in H3. pose proof (zlen_nonneg (k ≫= entry)).
  split; [done|lia|unfold log; lia|lia].
Qed.

Lemma replay_quiet name limits d p : (exists i, dir d !! name = Some i) ->
  WriteAheadLog.replay name limits (quiet d p) = replay_found name limits (quiet d p).
Proof.
  intros [i Hi]. assert (H : WriteAheadLog.exists_quietly name (quiet d p) = (Ok true, quiet d p)).
  { unfold WriteAheadLog.exists_quietly, file_exists, call_read. cbn. by rewrite Hi. }
  unfold WriteAheadLog.replay. by rewrite (bind_run _ _ _ _ _ H).
Qed.

(** *** Programs do not look at the disks they have passed through *)

Section blind.
Context {E : Type}.

Definition blind {A} (m : IO E A) : Prop := forall d calls p q, let '(r, w) := m {| disk := d; script := calls; passed := p |} in
  exists p', m {| disk := d; script := calls; passed := q |} = (r, {| disk := disk w; script := script w; passed := p' |}).

Lemma blind_bind {A B} (m : IO E A) (f : A -> IO E B) : blind m -> (forall a, blind (f a)) -> blind (m ≫= f).
Proof using Type.
  intros Hm Hf d calls p q. specialize (Hm d calls p q). unfold mbind, io_bind.
  destruct (m {| disk := d; script := calls; passed := p |}) as [[a|e] [d' calls' p']]; destruct Hm as [q' ->]; [|by eexists].
  by apply Hf.
Qed.

Lemma blind_lift {A} (m : expected E A) : blind (io_lift m).
Proof using Type. intros d calls p q. by eexists. Qed.

Lemma blind_call (e : E) op : blind (call e op).
Proof using Type. intros d [|[n|] calls] p q; by eexists. Qed.

Lemma blind_write (e : E) name bs : blind (call_write e name bs).
Proof using Type. intros d [|[n|] calls] p q; by eexists. Qed.

Lemma blind_read {A} (e : E) (f : Disk -> option A) : blind (call_read e f).
Proof using Type. intros d [|[n|] calls] p q; unfold call_read; cbn; destruct (f d); by eexists. Qed.
End blind.

Lemma blind_append name x : blind (WriteAheadLog.append name x).
Proof.
  unfold WriteAheadLog.append, WriteAheadLog.wal_sync, sync_file, io_ensure.
  repeat first [apply blind_bind; [|intros ?] | apply blind_lift | apply blind_call | apply blind_write | apply blind_read].
Qed.

(** What a failed append leaves. *)
Lemma append_leaves lost name a x extra w : kept_by_file lost name extra -> kept_by_create lost name extra ->
  log_held lost name a (disk w) -> extra (disk w) ->
  let '(_, w') := WriteAheadLog.append name x w in appending lost name a x (disk w') /\ extra (disk w').
Proof.
  intros Hextra Hcreate Hlog Hd. destruct w as [d calls p]. cbn [disk] in *.
  pose proof (triple_append_within lost name a x (fun d => appending lost name a x d /\ extra d) extra ltac:(by auto) Hextra Hcreate
    {| disk := d; script := calls; passed := [] |} (conj Hlog Hd) (conj (or_introl Hlog) Hd) (Forall_nil_2 _)) as H.
  pose proof (blind_append name x d calls [] p) as Hb.
  destruct (WriteAheadLog.append name x {| disk := d; script := calls; passed := [] |}) as [r w].
  destruct Hb as [p' ->]. apply H.
Qed.

Section recovery.
Context (schema : IndexSchema) (options : IndexWriterOptions) (P : Files) (names : gset string) (base : IndexWriter).
Context (lost : Prop) (Hoptions : options_ok options = true) (Hbase : published schema options P names base) (Htidy : tidy options names base).

(** The log of these documents, with what may be left of one more record. *)
Definition logged (docs : list Document) (d : Disk) : Prop :=
  beside P names d /\ exists tail, (torn default_wal_limits tail \/ tail = []) /\
    zlen (log docs ++ tail) <= wal_maximum_file_bytes default_wal_limits /\ log_at wal_name (log docs ++ tail) d.

(** A directory without the log, whose entry could be lost. *)
Definition forgotten (d : Disk) : Prop := lost /\ beside P names d /\ missing wal_name d.

(** Opening runs up to the log as it does on an index that was closed. *)
Lemma open_restores d : beside P names d ->
  open schema options (world d []) = match restore_log (base, quiet d [d; d]) with
    | (Ok _, (s, w)) => (opened s, w)
    | (Err e, (s, w)) => abandon e s w
    end.
Proof using Hoptions Hbase Htidy.
  intros Hd. unfold open. rewrite Hoptions. cbn [negb]. change (world d []) with (quiet d [d]). rewrite call_run. unfold restore_writer.
  erewrite section_run by (by apply (adopt_quiet schema options P names)). cbn beta. erewrite section_run by reflexivity. cbn beta.
  assert (Eo : options_ (base, quiet d [d; d]).1 = options) by apply (published_idle _ _ _ _ _ Hbase).
  rewrite Eo.
  assert (Hclean : (if reclaim_obsolete_files options then io id (cleanup_startup_files (manifest_ base)) else mret tt)
    (base, quiet d [d; d]) = (Ok tt, (base, quiet d [d; d]))).
  { destruct (reclaim_obsolete_files options) eqn:Er; [|done]. apply io_quiet. by eapply cleanup_quiet. }
  by erewrite section_run by exact Hclean.
Qed.

(** Without the log the writer has what is published. *)
Lemma reopens_forgotten d : forgotten d -> exists w, open schema options (world d []) = (opened base, w).
Proof using Hoptions Hbase Htidy.
  intros (_ & Hd & Hm). rewrite open_restores by done. unfold restore_log.
  assert (Hreplay : WriteAheadLog.replay wal_name default_wal_limits (quiet d [d; d]) = (Ok [], quiet d [d; d])).
  { unfold WriteAheadLog.replay. erewrite bind_run; [|unfold WriteAheadLog.exists_quietly, file_exists, call_read; cbn;
      by rewrite (Hm (dir d)) by left]. done. }
  erewrite section_run by (by apply io_quiet). by eexists.
Qed.

Lemma reopens d docs s : logged docs d -> room options docs -> restores base docs s ->
  exists w, open schema options (world d []) = (opened s, w).
Proof using Hoptions Hbase Htidy.
  intros (Hd & tail & Htail & Hsize & Hlog) Hroom Hs. rewrite open_restores by done. unfold restore_log.
  pose proof (triple_replay_found wal_name default_wal_limits docs tail (room_loggable _ _ Hroom) (room_count _ _ Hroom)
    Htail Hsize (quiet d [d; d]) Hlog (or_introl Hlog) ltac:(constructor; [by left|constructor; [by left|done]])) as H.
  pose proof (replay_quiet wal_name default_wal_limits d [d; d]) as Hq.
  destruct (replay_found wal_name default_wal_limits (quiet d [d; d])) as [[r|e] w].
  - destruct H as (_ & _ & _ & _ & ->). erewrite section_run.
    2: { apply io_quiet. apply Hq. destruct (log_file_content _ _ _ _ Hlog) as (_ & _ & _ & ?). done. }
    cbn beta. rewrite Hs. by exists w.
  - destruct H as (_ & _ & _ & [H|[]]). destruct H. by constructor.
Qed.

(** ** One put *)

Lemma run_put x s w : idle_writer schema options s -> buffered_mutations_ s + 1 < maximum_buffered_mutations options ->
  (exists e, run_client client_fuel (client_put x) s w = (client_done (Err e), (s, w))) \/
  exists s', (forall w', restore x (s, w') = (Ok tt, (s', w'))) /\
    match WriteAheadLog.append wal_name x w with
    | (Ok _, w') => run_client client_fuel (client_put x) s w = (client_done (Ok tt), (s', w'))
    | (Err e, w') => exists e' s'', run_client client_fuel (client_put x) s w = (client_done (Err e'), (s'', w')) /\
        worker_error_ s'' = Some e' /\ frozen_ s'' = [] /\ stopping_ s'' = false
    end.
Proof using Type.
  intros Hidle Hbuf. pose proof Hidle as (_ & Hopt & Hf & [Hr _] & He & Hst).
  assert (Hs : section (client_put x) (s, w) = (_ ← put_document x; after_insertion) (s, w)).
  { cbn [section]. unfold check_open, get. erewrite section_run; [|erewrite section_run by reflexivity; cbn [fst]; rewrite He;
      unfold check; rewrite Hst; reflexivity].
    erewrite section_run by reflexivity. cbn [fst]. rewrite Hopt.
    destruct (Z.leb_spec (maximum_buffered_mutations options) (buffered_mutations_ s)); [lia|done]. }
  assert (Hw : waiting (client_put x) s = false).
  { unfold waiting, put_may_start. by rewrite Hr. }
  unfold client_fuel. cbn [run_client]. rewrite Hw, Hs.
  destruct (put_as_restore x s w) as [[e Hput]|(s' & Hrestore & Hput)].
  - left. exists e. unfold mbind, section_bind. by rewrite Hput.
  - right. exists s'. split; [exact Hrestore|]. destruct (WriteAheadLog.append wal_name x w) as [[u|e] w'].
    + erewrite section_run by exact Hput. cbn beta. unfold after_insertion. erewrite section_run by reflexivity. cbn [fst].
      pose proof (restore_buffered _ _ _ _ _ (Hrestore w)) as Hb'.
      pose proof (wtriple_replayed schema options [x] s w) as Hi. cbn [each] in Hi. unfold mbind at 1, section_bind at 1 in Hi.
      rewrite (Hrestore w) in Hi. destruct (Hi Hidle) as (_ & Hopt' & _). rewrite Hopt'.
      by destruct (Z.leb_spec (maximum_buffered_mutations options) (buffered_mutations_ s')); [lia|].
    + destruct Hput as (e' & s'' & Hput & He' & Hf' & Hst'). exists e', s''. unfold mbind, section_bind. rewrite Hput.
      split; [done|]. by rewrite Hf', Hst'.
Qed.

Lemma run_failed x s w e : worker_error_ s = Some e -> run_client client_fuel (client_put x) s w = (client_done (Err e), (s, w)).
Proof using Type.
  intros He. unfold client_fuel. cbn [run_client].
  assert (Hw : waiting (client_put x) s = false) by (unfold waiting, put_may_start, failed; by rewrite He, orb_true_r).
  rewrite Hw. cbn [section]. unfold check_open, get, mbind, section_bind. cbn [fst]. by rewrite He.
Qed.

(** ** Any run of puts *)

Section runs.
Context (ds : list Document).

(** A crash leaves the log of some first mutations of [order], or takes it away. *)
Definition recoverable_to (order : list Document) (d : Disk) : Prop :=
  forall after, crash d after -> (exists l, l `prefix_of` order /\ logged (ds ++ l) after) \/ forgotten after.

Lemma recoverable_more order more d : recoverable_to order d -> recoverable_to (order ++ more) d.
Proof using Type.
  intros H after C. destruct (H after C) as [(l & Hl & Hlog)|?]; [left|by right]. exists l. split; [|done].
  trans order; [done|]. by apply prefix_app_r.
Qed.

(** What a crash leaves of a log that is not being written. *)
Lemma held_crash l d after : room options l -> log_held lost wal_name (log l) d -> beside P names d -> crash d after ->
  logged l after \/ forgotten after.
Proof using Type.
  intros Hroom Hlog Hd C. pose proof (beside_crash _ _ _ _ Hd C) as Hd'.
  assert (Hcases : log_at wal_name (log l) after \/ (lost /\ missing wal_name after)).
  { destruct Hlog as [Hlog|(Hlost & _ & Hm)]; [|right; split; [done|by eapply missing_crash]].
    destruct (log_file_crash _ _ _ _ _ Hlog C) as [(node & bs & <- & Hsv & Hl)|?]; [left|by right].
    by apply survives_synced in Hsv as ->. }
  destruct Hcases as [Hl|[? ?]]; [left|by right]. split; [done|]. exists []. rewrite app_nil_r. split; [by right|]. split; [apply Hroom|done].
Qed.

(** What a crash leaves while one more mutation is appended. *)
Lemma append_crash order x d after : room options (ds ++ order ++ [x]) ->
  appending lost wal_name (log (ds ++ order)) x d -> beside P names d -> crash d after ->
  logged (ds ++ order) after \/ logged (ds ++ order ++ [x]) after \/ forgotten after.
Proof using Type.
  intros Hroom Ha Hd C. pose proof (beside_crash _ _ _ _ Hd C) as Hd'. rewrite app_assoc in *.
  assert (Hlog : log ((ds ++ order) ++ [x]) = log (ds ++ order) ++ entry x)
    by (rewrite log_app; unfold log at 2; by rewrite bind_cons, app_nil_r).
  pose proof (room_bytes _ _ Hroom) as Hbytes. pose proof (room_loggable _ _ Hroom) as [_ Hx]%Forall_app. apply Forall_cons in Hx as [Hx _].
  destruct (appending_crash _ _ _ _ _ _ Ha C) as [(p & Hp & Hl)|[? ?]]; [|by right; right].
  destruct (prefix_torn default_wal_limits x p Hx Hp) as [->|Ht]; [right; left|left]; (split; [done|]).
  - exists []. rewrite !app_nil_r, Hlog in *. split; [by right|]. by split.
  - exists p. split; [by left|]. split; [|done]. destruct Hp as [k E]. fold (entry x) in E.
    rewrite Hlog, E, !zlen_app in Hbytes. rewrite zlen_app. pose proof (zlen_nonneg k). lia.
Qed.

(** The state of a run whose log has taken [confirmed], or is in the middle of
    [order]. *)
Inductive log_state (confirmed order : list Document) (s : IndexWriter) (d : Disk) : Prop :=
| healthy : order = confirmed -> restores base (ds ++ order) s -> beside P names d ->
    log_held lost wal_name (log (ds ++ order)) d -> log_state confirmed order s d
| poisoned x : order = confirmed ++ [x] -> is_Some (worker_error_ s) ->
    (forall after, crash d after -> logged (ds ++ confirmed) after \/ logged (ds ++ order) after \/ forgotten after) -> log_state confirmed order s d.

Definition client_state (confirmed : list Document) (x : Document) (client : Client) : Prop :=
  client = client_put x \/ exists r, client = client_done r /\ (r = Ok tt -> x ∈ confirmed).

Definition pending (l : list Client) : list Document :=
  omap (fun client => match client with client_put x => Some x | _ => None end) l.

Record run_state (docs confirmed order : list Document) (c : Config) : Prop := {
  rs_log : log_state confirmed order (writer c) (disk (machine c));
  rs_clients : Forall2 (client_state confirmed) docs (clients c);
  rs_docs : order ++ pending (clients c) ⊆+ docs;
  rs_safe : Forall (recoverable_to order) (disk (machine c) :: passed (machine c));
  rs_restores : forall l, l `prefix_of` order -> exists s, restores base (ds ++ l) s;
  rs_worker : worker c = worker_waiting;
  rs_idle : frozen_ (writer c) = [] /\ stopping_ (writer c) = false
}.

Lemma pending_done l i x r : l !! i = Some (client_put x) -> pending l ≡ₚ x :: pending (<[i := client_done r]> l).
Proof using Type.
  intros Hi. rewrite <- (take_drop_middle l i _ Hi) at 1. rewrite insert_take_drop by (by eapply lookup_lt_Some).
  unfold pending. rewrite !omap_app. cbn [omap list_omap]. by rewrite Permutation_middle.
Qed.

Lemma prefix_snoc_inv (l order : list Document) x : l `prefix_of` order ++ [x] -> l `prefix_of` order \/ l = order ++ [x].
Proof using Type.
  intros [k E]. destruct k as [|y k _] using rev_ind; [right; by rewrite app_nil_r in E|left].
  rewrite app_assoc in E. apply app_inj_tail in E as [-> _]. by apply prefix_app_r.
Qed.

Lemma clients_done docs confirmed confirmed' l i x r : Forall2 (client_state confirmed) docs l -> l !! i = Some (client_put x) ->
  confirmed `prefix_of` confirmed' -> (r = Ok tt -> x ∈ confirmed') -> Forall2 (client_state confirmed') docs (<[i := client_done r]> l).
Proof using Type.
  intros Hl Hi Hc Hr. apply Forall2_same_length_lookup. split.
  { rewrite length_insert. by eapply Forall2_length. }
  intros j y client Hy Hclient. destruct (decide (i = j)) as [<-|Hne].
  - rewrite list_lookup_insert_eq in Hclient by (by eapply lookup_lt_Some). injection Hclient as <-. right.
    exists r. split; [done|]. intros E. destruct (Forall2_lookup_lr _ _ _ _ _ _ Hl Hy Hi) as [Hput|(? & ? & _)]; [|done].
    injection Hput as <-. by apply Hr.
  - rewrite list_lookup_insert_ne in Hclient by done.
    destruct (Forall2_lookup_lr _ _ _ _ _ _ Hl Hy Hclient) as [->|(r' & -> & Hin)]; [by left|right].
    exists r'. split; [done|]. intros E. destruct Hc as [k ->]. apply elem_of_app. left. by apply Hin.
Qed.

Lemma restores_idle order s : restores base order s -> idle_writer schema options s.
Proof using Hbase.
  intros H. pose proof (wtriple_replayed schema options order base (world empty_disk [])) as Hi. rewrite H in Hi.
  apply Hi. by eapply published_idle.
Qed.

(** A client that gets an error without touching the log. *)
Lemma refused_state docs confirmed order c i x e : run_state docs confirmed order c -> clients c !! i = Some (client_put x) ->
  run_state docs confirmed order
    {| writer := writer c; machine := machine c; worker := worker c; clients := <[i := client_done (Err e)]> (clients c) |}.
Proof using Type.
  intros [Hlog Hcl Hdocs Hsafe Hres Hw Hidle] Hi. split; try done; cbn [clients].
  - by eapply clients_done.
  - trans (order ++ pending (clients c)); [|done]. rewrite (pending_done _ _ _ (Err e) Hi). solve_submseteq.
Qed.

(** The log takes one more mutation, or fails to. *)
Lemma appended_state docs order c i x s' : room options (ds ++ docs) ->
  run_state docs order order c -> clients c !! i = Some (client_put x) ->
  restores base (ds ++ order) (writer c) -> beside P names (disk (machine c)) -> log_held lost wal_name (log (ds ++ order)) (disk (machine c)) ->
  (forall w', restore x (writer c, w') = (Ok tt, (s', w'))) ->
  let '(r, w') := WriteAheadLog.append wal_name x (machine c) in
  let after s r := {| writer := s; machine := w'; worker := worker c; clients := <[i := client_done r]> (clients c) |} in
  match r with
  | Ok _ => run_state docs (order ++ [x]) (order ++ [x]) (after s' (Ok tt))
  | Err _ => forall s e, is_Some (worker_error_ s) -> frozen_ s = [] -> stopping_ s = false ->
      run_state docs order (order ++ [x]) (after s (Err e))
  end.
Proof using Hbase.
  intros Hroom [_ Hcl Hdocs Hsafe Hres Hw _] Hi Hs Hd Hlog Hx.
  pose proof (fun r => pending_done _ _ _ r Hi) as Hpend.
  assert (Hdocs' : forall r, (order ++ [x]) ++ pending (<[i := client_done r]> (clients c)) ⊆+ docs).
  { intros r. rewrite <- app_assoc. cbn [app]. by rewrite <- (Hpend r). }
  assert (Hroom' : room options (ds ++ order ++ [x])).
  { eapply room_submseteq; [|exact Hroom]. apply submseteq_app; [done|].
    trans ((order ++ [x]) ++ pending (<[i := client_done (Ok tt)]> (clients c))); [apply submseteq_inserts_r; done|done]. }
  assert (Hs' : restores base (ds ++ order ++ [x]) s') by (rewrite app_assoc; by eapply restores_snoc).
  assert (Hres' : forall l, l `prefix_of` order ++ [x] -> exists s, restores base (ds ++ l) s).
  { intros l [Hl| ->]%prefix_snoc_inv; [by apply Hres|by exists s']. }
  pose proof (triple_append_within lost wal_name (log (ds ++ order)) x (recoverable_to (order ++ [x])) (beside P names)) as H.
  specialize (H ltac:(intros d Ha Hb after C; destruct (append_crash order x d after Hroom' Ha Hb C) as [?|[?|?]];
    [left; exists order; split; [by apply prefix_app_r|done]|left; by exists (order ++ [x])|by right])
    (beside_kept P names lost) (beside_created P names lost)).
  apply Forall_cons in Hsafe as [Hsafe Hpassed].
  specialize (H (machine c) (conj Hlog Hd) (recoverable_more _ _ _ Hsafe)
    ltac:(eapply Forall_impl; [exact Hpassed|intros d; apply recoverable_more])).
  pose proof (append_leaves lost wal_name (log (ds ++ order)) x (beside P names) (machine c)
    (beside_kept P names lost) (beside_created P names lost) Hlog Hd) as Hleaves.
  destruct (WriteAheadLog.append wal_name x (machine c)) as [[u|e] w'].
  - destruct H as (Hsafe' & Hpassed' & _ & [Hlog' Hd'] & _). split; cbn [writer machine clients worker]; try done.
    + apply healthy; [done..|]. left. rewrite app_assoc, log_app. unfold log at 2. by rewrite bind_cons, app_nil_r.
    + eapply clients_done; [exact Hcl|exact Hi|by apply prefix_app_r|]. intros _. apply elem_of_app. right. by left.
    + by constructor.
    + apply restores_idle in Hs' as (_ & _ & ? & _ & _ & ?). done.
  - destruct H as (Hsafe' & Hpassed' & _ & _). intros result s e' He Hf Hst. unfold result. clear result. split; cbn [writer machine clients worker]; try done.
    + apply (poisoned _ _ _ _ x); [done|done|]. intros after C. destruct Hleaves as [Ha Hb]. by apply (append_crash order x (disk w') after).
    + eapply clients_done; [exact Hcl|exact Hi|done|done].
    + by constructor.
Qed.

(** Choices that only put and erase. *)
Definition mutates (choice : Choice) : bool :=
  match choice with
  | choose_call (call_put _) | choose_call (call_erase _ _) | choose_client _ | choose_worker => true
  | choose_call _ => false
  end.

(** The document of a put, or the tombstone of an erase. *)
Definition called_document (choice : Choice) : list Document :=
  match choice with
  | choose_call (call_put x) => [x]
  | choose_call (call_erase id version) => [tombstone id version]
  | _ => []
  end.

Lemma client_step_state docs confirmed order c i c' : room options (ds ++ docs) -> run_state docs confirmed order c ->
  step_client i c = Some c' -> exists confirmed' order', run_state docs confirmed' order' c'.
Proof using Hbase.
  intros Hroom Hc. unfold step_client. destruct (clients c !! i) as [client|] eqn:Hi; cbn [mbind option_bind]; [|done].
  pose proof (rs_clients _ _ _ _ Hc) as Hcl. assert (Hx : exists x, docs !! i = Some x).
  { apply lookup_lt_is_Some. rewrite (Forall2_length _ _ _ Hcl). by eapply lookup_lt_Some. }
  destruct Hx as [x Hx]. destruct (Forall2_lookup_lr _ _ _ _ _ _ Hcl Hx Hi) as [->|(r & -> & _)]; [|done].
  destruct (waiting _ _); [done|]. destruct (rs_log _ _ _ _ Hc) as [E Hs Hd Hlog|y E [e He] _].
  - subst confirmed. pose proof (restores_idle _ _ Hs) as Hidle.
    assert (Hbuf : buffered_mutations_ (writer c) + 1 < maximum_buffered_mutations options).
    { pose proof (restores_buffered _ _ _ Hs) as Hb. rewrite (published_buffered _ _ _ _ _ Hbase) in Hb.
      pose proof (room_buffer _ _ Hroom) as Hm. pose proof (submseteq_length _ _ (rs_docs _ _ _ _ Hc)) as Hl.
      rewrite (pending_done _ _ _ (Ok tt) Hi), length_app in Hl. cbn [length] in Hl. rewrite !zlen_app in *. unfold zlen in *. lia. }
    destruct (run_put x (writer c) (machine c) Hidle Hbuf) as [[e ->]|(s' & Hx' & Happ)].
    + intros [= <-]. exists order, order. by eapply refused_state.
    + pose proof (appended_state docs order c i x s' Hroom Hc Hi Hs Hd Hlog Hx') as H.
      destruct (WriteAheadLog.append wal_name x (machine c)) as [[u|e] w'].
      * rewrite Happ. intros [= <-]. by eexists _, _.
      * destruct Happ as (e' & s'' & -> & He' & Hf & Hst). intros [= <-]. exists order, (order ++ [x]). by apply H.
  - rewrite (run_failed x (writer c) (machine c) e He). intros [= <-]. exists confirmed, order. by eapply refused_state.
Qed.

Lemma step_state docs confirmed order choice c c' : room options (ds ++ docs) -> run_state docs confirmed order c ->
  mutates choice = true -> step choice c = Some c' ->
  exists confirmed' order', run_state (docs ++ called_document choice) confirmed' order' c'.
Proof using Hbase.
  intros Hroom Hc Hm. destruct choice as [i| |call]; cbn [step].
  - rewrite app_nil_r. by apply (client_step_state docs confirmed order).
  - unfold step_worker. rewrite (rs_worker docs confirmed order c Hc). destruct (rs_idle docs confirmed order c Hc) as [Hf Hst].
    unfold worker_may_run. rewrite Hf, Hst. done.
  - intros [= <-]. exists confirmed, order.
    assert (Hx : exists x, called_document (choose_call call) = [x] /\ start call = client_put x)
      by (destruct call; try done; by eexists).
    destruct Hx as (x & -> & Hstart). destruct Hc as [Hlog Hcl Hdocs Hsafe Hres Hw Hidle].
    unfold step_call. rewrite Hstart. split; cbn [writer machine clients worker]; try done.
    + apply Forall2_app; [done|]. constructor; [by left|done].
    + unfold pending in *. rewrite omap_app, app_assoc. by apply submseteq_app.
Qed.

Lemma run_states choices : forall docs confirmed order c c',
  room options (ds ++ docs ++ (choices ≫= called_document)) -> forallb mutates choices = true ->
  run_state docs confirmed order c -> IndexWriter.run choices c = Some c' ->
  exists confirmed' order', run_state (docs ++ (choices ≫= called_document)) confirmed' order' c'.
Proof using Hbase.
  induction choices as [|choice choices IH]; intros docs confirmed order c c' Hroom Hm Hc; cbn [IndexWriter.run].
  - intros [= <-]. rewrite app_nil_r. by eexists _, _.
  - cbn [forallb] in Hm. apply andb_prop in Hm as [Hm1 Hm]. intros (c1 & Hstep & Hrun)%bind_Some. rewrite bind_cons, (app_assoc docs) in *.
    apply (step_state docs confirmed order) in Hstep as (confirmed' & order' & Hc1); [|..|done|done].
    + eapply IH; [| |exact Hc1|exact Hrun]; done.
    + eapply room_submseteq; [|exact Hroom]. apply submseteq_app; [done|].
      rewrite <- app_assoc. by apply submseteq_inserts_r.
Qed.

Lemma start_state s d calls : room options ds -> restores base ds s -> beside P names d -> log_held lost wal_name (log ds) d ->
  run_state [] [] [] (started s (world d calls)).
Proof using Hbase.
  intros Hroom Hs Hd Hlog. assert (Hsafe : recoverable_to [] d).
  { intros after C. destruct (held_crash ds d after Hroom Hlog Hd C) as [?|?]; [left|by right]. exists []. by rewrite app_nil_r. }
  split; cbn [started writer machine clients worker disk passed world]; try done.
  - apply healthy; rewrite ?app_nil_r; done.
  - by apply Forall_cons_2, Forall_cons_2, Forall_nil_2.
  - intros l ->%prefix_nil_inv. rewrite app_nil_r. by exists s.
  - apply restores_idle in Hs as (_ & _ & ? & _ & _ & ?). done.
Qed.
(** What a crash at the end leaves. *)
Lemma run_end docs confirmed order c : room options (ds ++ docs) -> run_state docs confirmed order c ->
  forall after, crash (disk (machine c)) after ->
    (exists l, l `prefix_of` order /\ confirmed `prefix_of` l /\ logged (ds ++ l) after) \/ forgotten after.
Proof using Type.
  intros Hroom Hc after C.
  destruct (rs_log _ _ _ _ Hc) as [E _ Hd' Hlog'|x E _ Hcrash].
  - subst confirmed. assert (Hroom' : room options (ds ++ order)).
    { eapply room_submseteq; [|exact Hroom]. apply submseteq_app; [done|].
      trans (order ++ pending (clients c)); [by apply submseteq_inserts_r|apply Hc]. }
    destruct (held_crash (ds ++ order) _ after Hroom' Hlog' Hd' C) as [?|?]; [left|by right]. by exists order.
  - subst order. assert (confirmed `prefix_of` confirmed ++ [x]) by (by apply prefix_app_r).
    destruct (Hcrash after C) as [?|[?|?]]; [left; by exists confirmed|left; by exists (confirmed ++ [x])|by right].
Qed.

Lemma acknowledged_confirmed docs confirmed order c i x : run_state docs confirmed order c ->
  docs !! i = Some x -> acknowledged c i = true -> x ∈ confirmed.
Proof using Type.
  intros Hc Hx Hack. unfold acknowledged in Hack. destruct (clients c !! i) as [client|] eqn:Hi; [|done].
  destruct (Forall2_lookup_lr _ _ _ _ _ _ (rs_clients _ _ _ _ Hc) Hx Hi) as [->|(r & -> & Hr)]; [done|].
  apply Hr. by destruct r as [[]|].
Qed.
End runs.

End recovery.

(** ** The theorem *)

(** C17. What a writer recovers, as long as it freezes nothing and its log is in
    the directory.  Take a directory, with or without a published generation,
    whose log holds the documents [ds] on the medium and whose other files are
    there too; the log's entry need not be durable, and an empty log need not
    exist.  Any number of clients put and erase, in any interleaving and
    whatever calls fail, with [room]: all these mutations are within the limits
    of the log and fewer than [maximum_buffered_mutations], so that nothing is
    frozen.  A crash at any moment leaves a directory that opens again.  The
    writer that [open] returns is the one that restoring the logged documents
    and some first mutations, in the order they were logged, gives; after a
    crash at the end these are all that were acknowledged, and the writer knows
    each at its version or a newer one.  The exception is a directory whose log
    is gone, where [open] returns the writer of the published generation alone:
    that can only happen when the log's entry was not durable at the start. *)
Theorem writer_recovers schema options P names base ds s d calls choices c :
  options_ok options = true -> published schema options P names base -> tidy options names base ->
  restores base ds s -> beside P names d -> log_holds wal_name (log ds) d ->
  let docs := choices ≫= called_document in
  room options (ds ++ docs) -> forallb mutates choices = true ->
  IndexWriter.run choices (started s (world d calls)) = Some c ->
  let reopens_as after reopened := exists w, open schema options (world after []) = (opened reopened, w) in
  let gone after := reopens_as after base /\ missing wal_name after /\ ~ durable_entry wal_name d in
  exists order, order ⊆+ docs /\
    (forall moment after, moment ∈ disk (machine c) :: passed (machine c) -> crash moment after ->
       (exists l reopened, l `prefix_of` order /\ reopens_as after reopened /\ restores base (ds ++ l) reopened) \/ gone after) /\
    (forall after, crash (disk (machine c)) after ->
       (exists l reopened, l `prefix_of` order /\ reopens_as after reopened /\ restores base (ds ++ l) reopened /\
          forall i x, docs !! i = Some x -> acknowledged c i = true ->
            x ∈ l /\ exists v, versions_ reopened !! doc_id x = Some v /\ doc_version x <= v) \/ gone after).
Proof.
  intros Hopt Hbase Htidy Hs Hd Hholds docs Hroom Hm Hrun reopens_as gone. apply log_holds_lost in Hholds as Hlog.
  assert (Hroom0 : room options ds) by (eapply room_submseteq; [by apply submseteq_inserts_r|exact Hroom]).
  apply (run_states schema options P names base (~ durable_entry wal_name d) Hbase ds choices [] [] []) in Hrun as (confirmed & order & Hc);
    [|done|done|by apply (start_state schema options P names base _ Hbase)].
  cbn [app] in Hc. fold docs in Hc. exists order.
  assert (Horder : order ⊆+ docs) by (trans (order ++ pending (clients c)); [by apply submseteq_inserts_r|apply Hc]).
  assert (Hopen : forall l after, l `prefix_of` order -> logged P names (ds ++ l) after ->
    exists reopened, reopens_as after reopened /\ restores base (ds ++ l) reopened).
  { intros l after Hl Hlogged. destruct (rs_restores _ _ _ _ _ _ _ _ _ Hc l Hl) as [s' Hs'].
    exists s'. split; [|done]. eapply (reopens schema options P names base); [exact Hopt|exact Hbase|exact Htidy|exact Hlogged| |exact Hs']. eapply room_submseteq; [|exact Hroom]. apply submseteq_app; [done|].
    trans order; [|done]. destruct Hl as [k ->]. by apply submseteq_inserts_r. }
  assert (Hgone : forall after, forgotten P names (~ durable_entry wal_name d) after -> gone after).
  { intros after Hf. split; [by eapply reopens_forgotten|]. by destruct Hf as (? & _ & ?). }
  split; [done|]. split.
  - intros moment after Hmoment C. pose proof (rs_safe _ _ _ _ _ _ _ _ _ Hc) as Hsafe. rewrite Forall_forall in Hsafe.
    destruct (Hsafe moment Hmoment after C) as [(l & Hl & Hlogged)|Hf]; [left|right; by apply Hgone].
    destruct (Hopen l after Hl Hlogged) as (s' & ? & ?). by exists l, s'.
  - intros after C. destruct (run_end options P names base _ ds docs confirmed order c Hroom Hc after C) as [(l & Hl & Hconf & Hlogged)|Hf]; [left|right; by apply Hgone].
    destruct (Hopen l after Hl Hlogged) as (s' & Ho & Hs').
    exists l, s'. split_and!; [done..|]. intros i x Hx Hack.
    pose proof (acknowledged_confirmed P names base _ ds docs confirmed order c i x Hc Hx Hack) as Hin. destruct Hconf as [k ->].
    split; [apply elem_of_app; by left|].
    specialize (Hs' (world empty_disk [])). apply each_versions in Hs' as [Hv _]. apply Hv. apply elem_of_app. right. apply elem_of_app. by left.
Qed.

(** ** A run *)

(** Two puts, the second of which is served first; the write of the other
    stops after seven bytes. *)
Definition sample_choices : list Choice :=
  [choose_call (call_put (sample_logged "a")); choose_call (call_put (sample_logged "b")); choose_client 1; choose_client 0].

Definition sample_calls : list (option nat) := [None; None; None; None; None; None; Some 7%nat].

Definition fresh_writer : IndexWriter := make IndexSchema.default_schema default_writer_options.

Lemma log_disk_beside bs : beside ∅ ∅ (log_disk wal_name bs).
Proof.
  split; [|by intros m _ n bs' ?|by intros m m' n i _ _ [bs' ?]|];
    intros m; [|intros n i]; intros ->%list_elem_of_singleton; cbn [log_disk dir].
  - set_solver.
  - intros [<- <-]%lookup_singleton_Some. done.
Qed.

Lemma sample_room docs : bool_decide (docs = [sample_logged "a"; sample_logged "b"]) = true -> room default_writer_options docs.
Proof.
  intros ->%bool_decide_eq_true_1. split.
  - apply Forall_cons; split; [|apply Forall_cons; split; [|apply Forall_nil_2]]; apply sample_loggable; vm_compute; reflexivity.
  - vm_compute. discriminate.
  - vm_compute. discriminate.
  - vm_compute. reflexivity.
Qed.

Lemma writer_recovers_witness : exists c,
  IndexWriter.run sample_choices (started fresh_writer (world (log_disk wal_name []) sample_calls)) = Some c /\
  acknowledged c 1 = true /\
  forall after, crash (disk (machine c)) after -> exists reopened w v,
    open IndexSchema.default_schema default_writer_options (world after []) = (opened reopened, w) /\
    versions_ reopened !! "b" = Some v /\ doc_version (sample_logged "b") <= v.
Proof.
  assert (H : match IndexWriter.run sample_choices (started fresh_writer (world (log_disk wal_name []) sample_calls)) with
    | Some c => acknowledged c 1 | None => false end = true) by (vm_compute; reflexivity).
  destruct (IndexWriter.run sample_choices _) as [c|] eqn:Hrun; [|discriminate H]. exists c. split; [reflexivity|]. split; [exact H|].
  destruct (log_at_holds _ _ _ (log_disk_at wal_name [])) as [Hheld Hentry].
  destruct (writer_recovers IndexSchema.default_schema default_writer_options ∅ ∅ fresh_writer [] fresh_writer
    (log_disk wal_name []) sample_calls sample_choices c) as (order & _ & _ & Hend); try exact Hrun.
  - vm_compute. reflexivity.
  - apply published_nothing. apply not_elem_of_empty.
  - intros _ name Hname. destruct (not_elem_of_empty name Hname).
  - apply restores_nil.
  - apply log_disk_beside.
  - exact Hheld.
  - apply sample_room. vm_compute. reflexivity.
  - vm_compute. reflexivity.
  - intros after C. destruct (Hend after C) as [(l & reopened & _ & [w Ho] & _ & Hv)|(_ & _ & Hno)]; [|destruct (Hno Hentry)].
    destruct (Hv 1%nat (sample_logged "b") eq_refl H) as (_ & v & Hv1 & Hv2). exists reopened, w, v.
    split; [exact Ho|]. split; [exact Hv1|exact Hv2].
Defined.
