(* ===== verification/Cluster.v ===== *)
(** * The in-process shard cluster

    include/dse/distributed/local_cluster.hpp and
    src/distributed/local_cluster.cpp.  Every document is put twice: in the
    index of the whole cluster and in the shard its id is hashed to.  A search
    runs on each shard, over a view that takes documents and postings from the
    shard and the corpus statistics from the whole, and the shards' hits are
    collected into one result.

    The futures of [search] only read the indexes, under the shared lock, and
    are awaited in the order of the shards, so their results are a list. *)

From S2P Require Import Prelude Bytes Text Doubles Analysis Schema Types Ranking Query Plan Planner Executor Index.
From Stdlib Require Import SpecFloat.


Inductive ClusterErrorCode := invalid_shard_count | mutation_error | execution_error | result_overflow.

#[export] Instance ClusterErrorCode_eq_dec : EqDecision ClusterErrorCode.
Proof. solve_decision. Defined.

Record ClusterError := { cluster_code : ClusterErrorCode; cluster_message : string }.

Definition fail (code : ClusterErrorCode) (message : string) : ClusterError :=
  {| cluster_code := code; cluster_message := message |}.

(** ** [StableShardRouter] *)

Record StableShardRouter := { shard_count_ : Z }.

Definition route (router : StableShardRouter) (id : DocumentId) : Z :=
  let hash := foldl fnv_step fnv_offset (string_bytes id) in
  if shard_count_ router =? 0 then 0 else hash mod shard_count_ router.

(** ** [ShardSearchView] *)

Module ShardSearchView.

Record ShardSearchView := {
  local_ : SearchIndexView;
  global_ : SearchIndexView;
  terms_ : gmap (string * string) TermEntry
}.

Definition make (local global : SearchIndexView) : ShardSearchView :=
  {| local_ := local; global_ := global; terms_ := ∅ |}.

(** A lookup may add an entry to [terms_], where later lookups find it. *)
Definition lookup (v : ShardSearchView) (field term : string) : option TermEntry * ShardSearchView :=
  match view_lookup (local_ v) field term with
  | None => (None, v)
  | Some local =>
      match terms_ v !! (field, term) with
      | Some entry => (Some entry, v)
      | None =>
          let entry :=
            {| document_frequency := match view_lookup (global_ v) field term with
                                     | None => 0
                                     | Some global => document_frequency global
                                     end;
               postings := postings local |} in
          (Some entry, {| local_ := local_ v; global_ := global_ v;
                          terms_ := <[(field, term) := entry]> (terms_ v) |})
      end
  end.

(** The view as the executor uses it; each lookup answers as a first one does
    ([ClusterSpec.lookup_cached]). *)
Definition view (v : ShardSearchView) : SearchIndexView :=
  {| view_lookup := fun field term => (lookup v field term).1;
     view_document := view_document (local_ v);
     view_document_internal := view_document_internal (local_ v);
     view_internal_id := view_internal_id (local_ v);
     view_external_id := view_external_id (local_ v);
     view_live_document_ids := view_live_document_ids (local_ v);
     view_live_document_count := view_live_document_count (global_ v);
     view_field_statistics := view_field_statistics (global_ v);
     view_schema := view_schema (global_ v) |}.

End ShardSearchView.

(** ** [LocalShardCluster] *)

Module LocalShardCluster.

Record LocalShardCluster := {
  router_ : StableShardRouter;
  global_ : InMemoryIndex;
  shards_ : list InMemoryIndex
}.

(** The indexes are made with the default limit on internal ids. *)
Definition construct (count : Z) (schema : IndexSchema) : LocalShardCluster :=
  {| router_ := {| shard_count_ := count |};
     global_ := InMemoryIndex.make schema u32_max;
     shards_ := replicate (Z.to_nat count) (InMemoryIndex.make schema u32_max) |}.

Definition create (shard_count : Z) (schema : IndexSchema) : expected ClusterError LocalShardCluster :=
  if (shard_count =? 0) || (shard_count >? 1024)
  then Err (fail invalid_shard_count "shard count must be between 1 and 1024")
  else Ok (construct shard_count schema).

(** The cluster after the call comes back with an error as well: the whole
    index is written before the shard. *)
Definition put (cluster : LocalShardCluster) (document : Document)
    : expected ClusterError unit * LocalShardCluster :=
  let shard := Z.to_nat (route (router_ cluster) (doc_id document)) in
  match InMemoryIndex.put (global_ cluster) document with
  | Err e => (Err (fail mutation_error (index_message e)), cluster)
  | Ok global =>
      let written := {| router_ := router_ cluster; global_ := global; shards_ := shards_ cluster |} in
      match shards_ cluster !! shard with
      | None => (Ok tt, written) (* not reached: the route is below the number of shards *)
      | Some index =>
          match InMemoryIndex.put index document with
          | Err e => (Err (fail mutation_error (index_message e)), written)
          | Ok local =>
              (Ok tt, {| router_ := router_ cluster; global_ := global;
                         shards_ := <[shard := local]> (shards_ cluster) |})
          end
      end
  end.

Definition erase (cluster : LocalShardCluster) (id : DocumentId) (version : Z)
    : expected ClusterError unit * LocalShardCluster :=
  put cluster (tombstone id version).

(** The loop over the futures. *)
Fixpoint merge (collector : TopKCollector) (total : Z)
    (results : list (expected ExecutionError SearchResult)) : expected ClusterError (TopKCollector * Z) :=
  match results with
  | [] => Ok (collector, total)
  | Err e :: _ => Err (fail execution_error (execution_message e))
  | Ok result :: rest =>
      if total_hits result >? u64_max - total then Err (fail result_overflow "total hits overflow")
      else
        merge (TopKCollector.collect_all collector
                 (map (fun hit => {| scored_id := hit_document_id hit; score := hit_score hit |}) (hits result)))
              (total + total_hits result) rest
  end.

Definition shard_view (cluster : LocalShardCluster) (shard : InMemoryIndex) : SearchIndexView :=
  ShardSearchView.view (ShardSearchView.make (InMemoryIndex.view shard) (InMemoryIndex.view (global_ cluster))).

Definition shard_search (log1p : double -> double) (cluster : LocalShardCluster) (query : Query)
    (options : SearchOptions) (shard : InMemoryIndex) : expected ExecutionError SearchResult :=
  Executor.search log1p (make_executor (shard_view cluster shard) default_parameters) query options.

Definition search (log1p : double -> double) (cluster : LocalShardCluster) (query : Query)
    (options : SearchOptions) : expected ClusterError SearchResult :=
  '(collector, total) ← merge (TopKCollector.make (top_k options)) 0
                          (map (shard_search log1p cluster query options) (shards_ cluster));
  Ok {| hits := map (fun scored => {| hit_document_id := scored_id scored; hit_score := score scored |})
                    (TopKCollector.results collector);
        total_hits := total |}.

End LocalShardCluster.

Notation LocalShardCluster := LocalShardCluster.LocalShardCluster.
