(* ===== verification/ClusterSpec.v ===== *)
(** * Sharding changes nothing that a search can see

    The shards partition the documents of the whole index, a mutation is taken
    by the shard exactly when the whole takes it, and the best hits of the
    shards' best hits are the best of the whole. *)

From S2P Require Import Prelude Bytes Text Doubles Analysis Schema Types Index IndexSpec IndexChecks Contents.
From S2P Require Import ViewSpec Ranking Query Plan Planner Executor ExecutorSpec SearchSpec PlannerSpec Cluster Index.
From Stdlib Require Import SpecFloat.
Import LocalShardCluster.

(** ** Routing *)

Lemma route_range router id : 1 <= shard_count_ router -> 0 <= route router id < shard_count_ router.
Proof.
  intros Hc. unfold route. destruct (Z.eqb_spec (shard_count_ router) 0); [lia|].
  apply Z.mod_pos_bound. lia.
Qed.

Definition shard_of (cluster : LocalShardCluster) (id : DocumentId) : nat :=
  Z.to_nat (route (router_ cluster) id).

(** ** The partition *)

(** Every shard holds exactly the documents of the whole that are routed to
    it. *)
Record partitioned (schema : IndexSchema) (cluster : LocalShardCluster) : Prop := {
  part_count : 1 <= shard_count_ (router_ cluster) <= 1024;
  part_length : length (shards_ cluster) = Z.to_nat (shard_count_ (router_ cluster));
  part_global : reachable schema u32_max (global_ cluster);
  part_shards : Forall (reachable schema u32_max) (shards_ cluster);
  part_contents i shard id : shards_ cluster !! i = Some shard ->
    contents shard !! id = if Nat.eqb i (shard_of cluster id) then contents (global_ cluster) !! id else None
}.

Lemma u32_max_u32 : is_u32 u32_max.
Proof. split; vm_compute; discriminate. Qed.

Lemma create_partitioned schema count cluster : 0 <= count -> create count schema = Ok cluster ->
  partitioned schema cluster.
Proof.
  intros Hc. unfold create. destruct (Z.eqb_spec count 0); [done|]. destruct (Z.gtb_spec count 1024); [done|].
  intros [= <-]. split; cbn.
  - lia.
  - by rewrite length_replicate.
  - apply reach_make.
  - apply Forall_replicate, reach_make.
  - intros i shard id [-> _]%lookup_replicate_1. rewrite contents_make, !lookup_empty. by destruct (Nat.eqb _ _).
Qed.

Section partition.
Context (schema : IndexSchema) (cluster : LocalShardCluster) (P : partitioned schema cluster).

Lemma shard_of_lookup id : exists shard, shards_ cluster !! shard_of cluster id = Some shard.
Proof using P.
  apply lookup_lt_is_Some_2. rewrite (part_length _ _ P). unfold shard_of.
  pose proof (part_count _ _ P) as Hc. pose proof (route_range (router_ cluster) id). lia.
Qed.

Lemma shard_wf i shard : shards_ cluster !! i = Some shard ->
  wf shard /\ InMemoryIndex.schema_ shard = schema /\ InMemoryIndex.maximum_internal_id_ shard = u32_max.
Proof using P.
  intros Hi. pose proof (Forall_lookup_1 _ _ _ _ (part_shards _ _ P) Hi) as Hr.
  destruct (reachable_wf _ _ _ u32_max_u32 Hr) as [W Hs]. split_and!; [done..|by eapply reachable_maximum].
Qed.

Lemma shard_subset i shard : shards_ cluster !! i = Some shard -> contents shard ⊆ contents (global_ cluster).
Proof using P.
  intros Hi. apply map_subseteq_spec. intros id d. rewrite (part_contents _ _ P _ _ id Hi). by destruct (Nat.eqb _ _).
Qed.

(** The shard of a document takes the mutation that the whole takes. *)
Lemma shard_takes d global' shard : InMemoryIndex.put (global_ cluster) d = Ok global' ->
  shards_ cluster !! shard_of cluster (doc_id d) = Some shard ->
  exists shard', InMemoryIndex.put shard d = Ok shard'.
Proof using P.
  intros Hput Hi. destruct (shard_wf _ _ Hi) as (W & Hs & Hm).
  destruct (reachable_wf _ _ _ u32_max_u32 (part_global _ _ P)) as [_ Hsg].
  assert (Hc : contents shard !! doc_id d = contents (global_ cluster) !! doc_id d)
    by (by rewrite (part_contents _ _ P _ _ _ Hi), Nat.eqb_refl).
  eapply put_agrees; [exact Hput|congruence|done|done|]. intros Hnone. rewrite Hm. rewrite Hc in Hnone.
  destruct (put_contents _ _ _ Hput) as [Hcg Hmg].
  destruct (reachable_wf _ _ _ u32_max_u32 (reach_put _ _ _ _ _ (part_global _ _ P) Hput)) as [W' _].
  pose proof (wf_maximum _ W') as Hmax. rewrite <- contents_size, Hcg, map_size_insert_None in Hmax by done.
  pose proof (map_subseteq_size _ _ (shard_subset _ _ Hi)).
  rewrite (reachable_maximum _ _ _ (reach_put _ _ _ _ _ (part_global _ _ P) Hput)) in Hmax. lia.
Qed.

Lemma put_partitioned d global' : InMemoryIndex.put (global_ cluster) d = Ok global' ->
  exists cluster', put cluster d = (Ok tt, cluster') /\ global_ cluster' = global' /\ partitioned schema cluster'.
Proof using P.
  intros Hput. destruct (shard_of_lookup (doc_id d)) as [shard Hi].
  destruct (shard_takes _ _ _ Hput Hi) as [shard' Hput'].
  unfold put. rewrite Hput. unfold shard_of in Hi. rewrite Hi, Hput'. eexists. split_and!; [done..|].
  split; cbn.
  - apply P.
  - rewrite length_insert. apply P.
  - eapply reach_put; [apply P|done].
  - apply Forall_insert; [apply P|]. eapply reach_put; [|exact Hput'].
    eapply Forall_lookup_1; [apply P|exact Hi].
  - destruct (put_contents _ _ _ Hput) as [Hcg _]. destruct (put_contents _ _ _ Hput') as [Hcs _].
    intros i s id Hs. rewrite Hcg. unfold shard_of. cbn.
    apply list_lookup_insert_Some in Hs as [(<- & <- & _)|[Hne Hs]].
    + rewrite Hcs. destruct (decide (doc_id d = id)) as [<-|Hid].
      * by rewrite !lookup_insert_eq, Nat.eqb_refl.
      * rewrite !lookup_insert_ne by done. by rewrite (part_contents _ _ P _ _ _ Hi).
    + rewrite (part_contents _ _ P _ _ _ Hs). unfold shard_of.
      destruct (Nat.eqb_spec i (Z.to_nat (route (router_ cluster) id))) as [->|]; [|done].
      rewrite lookup_insert_ne; [done|]. by intros <-.
Qed.

End partition.

(** ** The view of a shard *)

Section view.
Context (schema : IndexSchema) (cluster : LocalShardCluster) (P : partitioned schema cluster).
Context (Hanalyzers : schema_analyzers schema).
Notation corpus := (InMemoryIndex.documents_ (global_ cluster)).

Lemma shard_view_laws shard : shard ∈ shards_ cluster ->
  CorpusViewLaws (shard_view cluster shard) schema corpus (InMemoryIndex.documents_ shard).
Proof using P Hanalyzers.
  intros [i Hi]%list_elem_of_lookup.
  pose proof (in_memory_view_laws _ _ _ u32_max_u32 Hanalyzers (part_global _ _ P)) as G.
  pose proof (in_memory_view_laws _ _ _ u32_max_u32 Hanalyzers (Forall_lookup_1 _ _ _ _ (part_shards _ _ P) Hi)) as L.
  split.
  - exact (law_schema (CorpusViewLaws := G)).
  - done.
  - exact (law_records (CorpusViewLaws := L)).
  - exact (law_records (CorpusViewLaws := G)).
  - intros id r Hr. apply contents_Some. eapply lookup_weaken; [|by eapply shard_subset].
    apply contents_Some. by exists r.
  - exact (law_unique (CorpusViewLaws := L)).
  - exact (law_size (CorpusViewLaws := G)).
  - intros field t. cbn [view_lookup shard_view ShardSearchView.view].
    unfold ShardSearchView.lookup. cbn [ShardSearchView.make ShardSearchView.local_ ShardSearchView.global_ ShardSearchView.terms_].
    rewrite (whole_lookup _ _ _ L), (whole_lookup _ _ _ G).
    destruct (inverted schema (InMemoryIndex.documents_ shard) field t) as [e|] eqn:E; [|done].
    rewrite lookup_empty. cbn. do 2 f_equal.
    destruct (inverted schema corpus field t) as [g|] eqn:Eg; [|by rewrite no_documents_with].
    pose proof (inverted_frequency schema corpus field t) as Hf. rewrite Eg in Hf. cbn in Hf. injection Hf as Hf. by rewrite <- Hf.
  - exact (law_statistics (CorpusViewLaws := G)).
  - exact (law_document (CorpusViewLaws := L)).
  - exact (law_internal (CorpusViewLaws := L)).
  - exact (law_internal_id (CorpusViewLaws := L)).
  - exact (law_external (CorpusViewLaws := L)).
  - exact (law_live_sorted (CorpusViewLaws := L)).
  - exact (law_live (CorpusViewLaws := L)).
  - exact (law_live_count (CorpusViewLaws := G)).
Qed.

End view.

(** A memo that holds what first lookups answer; further lookups answer the
    same and keep it so. *)
Definition memo_ok (v : ShardSearchView.ShardSearchView) : Prop := forall field term entry,
  ShardSearchView.terms_ v !! (field, term) = Some entry ->
  (ShardSearchView.lookup (ShardSearchView.make (ShardSearchView.local_ v) (ShardSearchView.global_ v))
     field term).1 = Some entry.

Lemma lookup_cached v field term : memo_ok v ->
  (ShardSearchView.lookup v field term).1 =
    view_lookup (ShardSearchView.view (ShardSearchView.make (ShardSearchView.local_ v) (ShardSearchView.global_ v))) field term /\
  memo_ok (ShardSearchView.lookup v field term).2.
Proof.
  intros H. cbn [view_lookup ShardSearchView.view]. unfold ShardSearchView.lookup at 1 3.
  destruct (view_lookup (ShardSearchView.local_ v) field term) as [local|] eqn:El.
  2:{ split; [|done]. unfold ShardSearchView.lookup, ShardSearchView.make. cbn. by rewrite El. }
  destruct (ShardSearchView.terms_ v !! (field, term)) as [entry|] eqn:Et.
  { split; [|done]. cbn. symmetry. by apply H. }
  assert (Hfirst : (ShardSearchView.lookup (ShardSearchView.make (ShardSearchView.local_ v) (ShardSearchView.global_ v))
     field term).1 = Some {| document_frequency := match view_lookup (ShardSearchView.global_ v) field term with
                                     | None => 0
                                     | Some global => document_frequency global
                                     end;
               postings := postings local |}).
  { unfold ShardSearchView.lookup. cbn. by rewrite El, lookup_empty. }
  split; [done|]. intros f t e. cbn [snd ShardSearchView.terms_ ShardSearchView.local_ ShardSearchView.global_].
  destruct (decide ((field, term) = (f, t))) as [[= <- <-]|Hne].
  - rewrite lookup_insert_eq. by intros [= <-].
  - rewrite lookup_insert_ne by done. apply H.
Qed.

(** ** Merging the shards' results *)

(** What a shard's search returns for its matches. *)
Definition best_hits (k : Z) (all : list ScoredDocument) : expected ExecutionError SearchResult :=
  if forallb finite_score all then
    Ok {| hits := hit_of <$> take (Z.to_nat k) (sort_by BetterScore all); total_hits := zlen all |}
  else Err (exec_error exec_ranking_error "non-finite score").

Definition top (k : Z) (all : list ScoredDocument) : list ScoredDocument :=
  take (Z.to_nat k) (sort_by BetterScore all).

Lemma merge_results k parts : forall collector total,
  0 <= total -> total + zlen (concat parts) <= u64_max ->
  merge collector total (map (best_hits k) parts) =
  if forallb finite_score (concat parts)
  then Ok (TopKCollector.collect_all collector (concat (map (top k) parts)), total + zlen (concat parts))
  else Err (fail execution_error "non-finite score").
Proof.
  induction parts as [|all parts IH]; intros collector total H0 Hmax.
  { cbn. by rewrite Z.add_0_r. }
  cbn [map concat] in *. rewrite zlen_app in *. pose proof (zlen_nonneg all). pose proof (zlen_nonneg (concat parts)).
  rewrite forallb_app. cbn [merge]. unfold best_hits at 1. destruct (forallb finite_score all); [|done].
  cbn [total_hits hits andb]. destruct (Z.gtb_spec (zlen all) (u64_max - total)); [lia|].
  rewrite IH by lia. destruct (forallb finite_score (concat parts)); [|done]. do 2 f_equal; [|lia].
  unfold TopKCollector.collect_all. rewrite foldl_app. f_equal. f_equal.
  change (map ?f ?l) with (f <$> l). rewrite <- list_fmap_compose.
  unfold top. apply list_eq. intros i. rewrite list_lookup_fmap.
  destruct (take _ _ !! i) as [x|]; [|done]. by destruct x.
Qed.

Lemma rank_sort_perm l l' : l ≡ₚ l' -> rank_sort l = rank_sort l'.
Proof. intros Hp. apply rank_sort_unique; [by rewrite sort_by_perm|apply rank_sort_sorted]. Qed.

(** The best of a whole are the best among its parts' bests. *)
Lemma take_sort_concat k parts : forall seen,
  take k (rank_sort (seen ++ concat (map (fun a => take k (rank_sort a)) parts))) =
  take k (rank_sort (seen ++ concat parts)).
Proof.
  induction parts as [|a parts IH]; intros seen; [done|]. cbn [map concat].
  rewrite (rank_sort_perm (seen ++ take k (rank_sort a) ++ _)
    (take k (rank_sort a) ++ (seen ++ concat (map (fun a => take k (rank_sort a)) parts)))) by solve_Permutation.
  rewrite take_sort_app, app_assoc, IH. f_equal. apply rank_sort_perm. solve_Permutation.
Qed.

Lemma all_finite_concat parts : all_finite (concat parts) <-> Forall all_finite parts.
Proof. unfold all_finite. apply Forall_concat. Qed.

Lemma elem_of_top k all x : x ∈ top k all -> x ∈ all.
Proof.
  unfold top. intros Hx. eapply elem_of_submseteq in Hx; [|apply sublist_submseteq, sublist_take].
  by rewrite sort_by_perm in Hx.
Qed.

Lemma elem_of_tops k parts x : x ∈ concat (map (top k) parts) -> x ∈ concat parts.
Proof.
  induction parts as [|all parts IH]; [done|]. cbn [map concat]. rewrite !elem_of_app.
  intros [?%elem_of_top|?]; auto.
Qed.

Lemma NoDup_tops k parts : NoDup (scored_id <$> concat parts) -> NoDup (scored_id <$> concat (map (top k) parts)).
Proof.
  induction parts as [|all parts IH]; [done|]. cbn [map concat]. rewrite !fmap_app, !NoDup_app.
  intros (Ha & Hdis & Hc). split_and!; [|intros id Hid Hin|by apply IH].
  - unfold top. rewrite fmap_take. eapply sublist_NoDup; [|apply sublist_take]. by rewrite sort_by_perm.
  - apply list_elem_of_fmap in Hid as (x & -> & Hx%elem_of_top). apply list_elem_of_fmap in Hin as (y & E & Hy%elem_of_tops).
    apply (Hdis (scored_id x)); [by apply list_elem_of_fmap_2|]. rewrite E. by apply list_elem_of_fmap_2.
Qed.

Lemma ranks_tops k parts : Forall all_finite parts ->
  rank <$> concat (map (top k) parts) = concat (map (fun a => take (Z.to_nat k) (rank_sort a)) (map (fmap rank) parts)).
Proof.
  induction 1 as [|all parts Ha _ IH]; [done|]. cbn [map concat]. rewrite fmap_app, IH. f_equal.
  unfold top. by rewrite fmap_take, finite_ranks.
Qed.

Lemma ranks_concat (parts : list (list ScoredDocument)) : rank <$> concat parts = concat (map (fmap rank) parts).
Proof. induction parts as [|a parts IH]; [done|]. cbn. by rewrite fmap_app, IH. Qed.

Lemma merge_tops k parts : 0 <= k -> all_finite (concat parts) -> NoDup (scored_id <$> concat parts) ->
  TopKCollector.results (TopKCollector.collect_all (TopKCollector.make k) (concat (map (top k) parts))) =
  top k (concat parts).
Proof.
  intros Hk Hf Hnd.
  assert (Hft : all_finite (concat (map (top k) parts))).
  { unfold all_finite in *. rewrite Forall_forall in *. intros x Hx%elem_of_tops. by apply Hf. }
  apply (ranks_inj (concat parts)); [done| |by intros x ?%elem_of_top|].
  - intros x Hx. apply elem_of_results in Hx as [Hx _]; [|done]. by eapply elem_of_tops.
  - rewrite top_k_ranks, filter_all by (done || by apply Forall_forall).
    unfold top at 2. rewrite !fmap_take, !finite_ranks by done. rewrite ranks_tops by by apply all_finite_concat.
    pose proof (take_sort_concat (Z.to_nat k) (map (fmap rank) parts) []) as H. cbn [app] in H.
    by rewrite ranks_concat.
Qed.

(** ** What depends on the document alone *)

Section by_document.
Context (log1p : double -> double) (scorer : BM25Parameters) (schema : IndexSchema) (corpus : DocumentRecords).
Context (r r' : DocumentRecord) (E : document r' = document r).

Lemma same_analysed : analysed schema r' = analysed schema r.
Proof using E. unfold analysed, InMemoryIndex.is_live. by rewrite E. Qed.

Lemma same_field_value field : field_value r' field = field_value r field.
Proof using E. unfold field_value. by rewrite E. Qed.

Lemma map_ext_Forall {A B} (f g : A -> B) l : Forall (fun x => f x = g x) l -> map f l = map g l.
Proof using Type. induction 1 as [|x l Hx _ IH]; [done|]. cbn. by rewrite Hx, IH. Qed.

Lemma same_doc_match p : doc_match log1p scorer schema corpus p r' = doc_match log1p scorer schema corpus p r.
Proof using E.
  assert (Ht : forall field t boost, term_score log1p scorer schema corpus field t boost r' =
                                     term_score log1p scorer schema corpus field t boost r)
    by (intros; unfold term_score; by rewrite same_analysed).
  induction p as [e f t b|e f ts b|e cs IH|e cs IH|e q IH|e f lo hi il iu|e] using plan_induction; cbn [doc_match].
  - unfold posting_of. rewrite same_analysed, Ht. destruct (analysed schema r !! f) as [tokens|]; [|done].
    cbn. by destruct (occurrences t tokens).
  - rewrite same_analysed. destruct (analysed schema r !! f); [|done]. destruct (phrase_match _ _); [|done].
    f_equal. generalize d_zero. induction ts as [|token ts IH]; intros s; [done|]. cbn. by rewrite Ht, IH.
  - destruct IH as [|c cs Hc Hcs]; [done|]. by rewrite Hc, (map_ext_Forall _ _ _ Hcs).
  - by rewrite (map_ext_Forall _ _ _ IH).
  - by rewrite IH.
  - by rewrite same_field_value.
  - done.
Qed.

Lemma same_live_match p : live_match log1p scorer schema corpus p r' = live_match log1p scorer schema corpus p r.
Proof using E. unfold live_match, InMemoryIndex.is_live. by rewrite E, same_doc_match. Qed.

Lemma same_describes fields q : forall field, describes schema fields q field r' = describes schema fields q field r.
Proof using E.
  assert (Ht : forall name t, term_in schema name t r' = term_in schema name t r)
    by (intros; unfold term_in; by rewrite same_analysed).
  assert (Hp : forall name t, phrase_in schema name t r' = phrase_in schema name t r)
    by (intros; unfold phrase_in; by rewrite same_analysed).
  induction q as [pos t|pos t|pos l IHl q IHq|pos l IHl q IHq|pos q IHq|pos name q IHq|pos name lo hi il iu
                 |pos q IHq b|pos]; intros field; cbn [describes]; rewrite ?IHl, ?IHq; try done.
  - unfold over. destruct field; [done|]. by apply existsb_eq.
  - unfold over. destruct field; [done|]. by apply existsb_eq.
  - unfold in_range. by rewrite same_field_value.
Qed.
End by_document.

(** ** Plans up to their estimates *)

Fixpoint without_estimates (p : Plan) : Plan :=
  match p with
  | PlannedTerm _ field t boost => PlannedTerm 0 field t boost
  | PlannedPhrase _ field tokens boost => PlannedPhrase 0 field tokens boost
  | PlannedAnd _ children => PlannedAnd 0 (map without_estimates children)
  | PlannedOr _ children => PlannedOr 0 (map without_estimates children)
  | PlannedNot _ operand => PlannedNot 0 (without_estimates operand)
  | PlannedRange _ field lower upper il iu => PlannedRange 0 field lower upper il iu
  | PlannedMatchAll _ => PlannedMatchAll 0
  end.

Lemma doc_match_without_estimates log1p scorer schema corpus r p :
  doc_match log1p scorer schema corpus (without_estimates p) r = doc_match log1p scorer schema corpus p r.
Proof.
  induction p as [e f t b|e f ts b|e cs IH|e cs IH|e q IH|e f lo hi il iu|e] using plan_induction;
    cbn [doc_match without_estimates]; try done.
  - destruct IH as [|c cs Hc Hcs]; [done|]. cbn [map]. by rewrite Hc, map_map, (map_ext_Forall _ _ _ Hcs).
  - by rewrite map_map, (map_ext_Forall _ _ _ IH).
  - by rewrite IH.
Qed.

Lemma plan_ok_without_estimates schema p : plan_ok schema (without_estimates p) <-> plan_ok schema p.
Proof.
  induction p as [e f t b|e f ts b|e cs IH|e cs IH|e q IH|e f lo hi il iu|e] using plan_induction;
    cbn [plan_ok without_estimates]; try done.
  - induction IH as [|c cs Hc _ IH]; [done|]. cbn [map]. by rewrite Hc, IH.
  - induction IH as [|c cs Hc _ IH]; [done|]. cbn [map]. by rewrite Hc, IH.
Qed.

(** ** The parts of a search *)

Lemma elem_of_concat {A} (x : A) ls : x ∈ concat ls <-> exists l, l ∈ ls /\ x ∈ l.
Proof. setoid_rewrite list_elem_of_In. apply in_concat. Qed.

Lemma NoDup_concat_apart {A} (ls : list (list A)) :
  (forall i l, ls !! i = Some l -> NoDup l) ->
  (forall i j l l' x, ls !! i = Some l -> ls !! j = Some l' -> x ∈ l -> x ∈ l' -> i = j) ->
  NoDup (concat ls).
Proof.
  induction ls as [|l ls IH]; intros Hnd Hapart; [constructor|]. cbn [concat]. apply NoDup_app. split_and!.
  - by apply (Hnd 0%nat).
  - intros x Hx (l' & Hl' & Hx')%elem_of_concat.
    apply list_elem_of_lookup in Hl' as [j Hj]. by specialize (Hapart 0%nat (S j) l l' x eq_refl Hj Hx Hx').
  - apply IH.
    + intros i. apply (Hnd (S i)).
    + intros i j l1 l2 x Hi Hj H1 H2. by injection (Hapart (S i) (S j) l1 l2 x Hi Hj H1 H2).
Qed.

Section parts.
Context (log1p : double -> double) (schema : IndexSchema) (cluster : LocalShardCluster).
Context (P : partitioned schema cluster) (Hanalyzers : schema_analyzers schema).
Notation corpus := (InMemoryIndex.documents_ (global_ cluster)).
Notation live_match := (live_match log1p default_parameters schema corpus).
Notation matching := (matching log1p default_parameters schema corpus).

Definition parts (ps : list Plan) : list (list ScoredDocument) :=
  zip_with (fun shard p => matching (InMemoryIndex.documents_ shard) p) (shards_ cluster) ps.

Lemma parts_lookup ps i part : parts ps !! i = Some part -> exists shard p,
  shards_ cluster !! i = Some shard /\ ps !! i = Some p /\ part = matching (InMemoryIndex.documents_ shard) p.
Proof using Type. intros (shard & p & -> & Hs & Hp)%lookup_zip_with_Some. by exists shard, p. Qed.

(** A document is in its shard only, with the contents the whole has. *)
Lemma shard_document i shard id r : shards_ cluster !! i = Some shard ->
  InMemoryIndex.documents_ shard !! id = Some r ->
  i = shard_of cluster id /\ exists r', corpus !! id = Some r' /\ document r' = document r.
Proof using P.
  intros Hi Hr. assert (Hc : contents shard !! id = Some (document r)) by (apply contents_Some; eauto).
  rewrite (part_contents _ _ P _ _ _ Hi) in Hc. destruct (Nat.eqb_spec i (shard_of cluster id)); [|done].
  split; [done|]. by apply contents_Some.
Qed.

Lemma document_shard id r' : corpus !! id = Some r' -> exists shard r,
  shards_ cluster !! shard_of cluster id = Some shard /\ InMemoryIndex.documents_ shard !! id = Some r /\
  document r' = document r.
Proof using P.
  intros Hr. destruct (shard_of_lookup _ _ P id) as [shard Hi].
  assert (Hc : contents shard !! id = Some (document r')).
  { rewrite (part_contents _ _ P _ _ _ Hi), Nat.eqb_refl. apply contents_Some. eauto. }
  apply contents_Some in Hc as (r & Hr' & <-). by exists shard, r.
Qed.

Lemma NoDup_parts ps : NoDup (scored_id <$> concat (parts ps)).
Proof using P.
  assert (scored_id <$> concat (parts ps) = concat (map (fmap scored_id) (parts ps))) as ->.
  { induction (parts ps) as [|a l IH]; [done|]. cbn. by rewrite fmap_app, IH. }
  apply NoDup_concat_apart; change (map ?f ?l) with (f <$> l).
  - intros i l. rewrite list_lookup_fmap. intros (part & Hp & ->)%fmap_Some.
    apply parts_lookup in Hp as (shard & p & _ & _ & ->). apply NoDup_matching.
  - assert (Hin : forall i (l : list string) id,
      ((fun part : list ScoredDocument => scored_id <$> part) <$> parts ps) !! i = Some l -> id ∈ l -> i = shard_of cluster id).
    { intros i l id. rewrite list_lookup_fmap. intros (part & Hp & ->)%fmap_Some Hid.
      apply parts_lookup in Hp as (shard & p & Hs & _ & ->). apply list_elem_of_fmap in Hid as ([id' s] & -> & Hid).
      apply elem_of_matching in Hid as (r & Hr & _). by apply (shard_document _ _ _ _ Hs Hr). }
    intros i j l l' id Hi Hj H1 H2. by rewrite (Hin _ _ _ Hi H1), (Hin _ _ _ Hj H2).
Qed.

(** The matches of the shards, by the documents of the whole. *)
Lemma elem_of_parts ps id s : length ps = length (shards_ cluster) ->
  {| scored_id := id; score := s |} ∈ concat (parts ps) <->
  exists r p, corpus !! id = Some r /\ ps !! shard_of cluster id = Some p /\ live_match p r = Some s.
Proof using P.
  intros Hlen. rewrite elem_of_concat. split.
  - intros (part & [i Hp]%list_elem_of_lookup & Hin). apply parts_lookup in Hp as (shard & p & Hs & Hp & ->).
    apply elem_of_matching in Hin as (r & Hr & Hm). destruct (shard_document _ _ _ _ Hs Hr) as (-> & r' & Hr' & E).
    exists r', p. split_and!; [done..|]. by rewrite (same_live_match _ _ _ _ _ _ E).
  - intros (r' & p & Hr' & Hp & Hm). destruct (document_shard _ _ Hr') as (shard & r & Hs & Hr & E).
    exists (matching (InMemoryIndex.documents_ shard) p). split.
    + apply list_elem_of_lookup. exists (shard_of cluster id). apply lookup_zip_with_Some. by exists shard, p.
    + apply elem_of_matching. exists r. split; [done|]. by rewrite <- (same_live_match _ _ _ _ _ _ E).
Qed.

(** The number of matches cannot overflow. *)
Lemma parts_bound ps : length ps = length (shards_ cluster) -> zlen (concat (parts ps)) <= u64_max.
Proof using P Hanalyzers.
  intros Hlen. assert (Hsub : scored_id <$> concat (parts ps) ⊆+ (map_items corpus).*1).
  { apply NoDup_submseteq; [apply NoDup_parts|]. intros id Hid. apply list_elem_of_fmap in Hid as ([id' s] & -> & Hid).
    apply elem_of_parts in Hid as (r & p & Hr & _); [|done]. apply list_elem_of_fmap. exists (id', r).
    split; [done|]. by apply elem_of_map_items. }
  apply submseteq_length in Hsub. rewrite !length_fmap, length_map_items in Hsub.
  pose proof (law_size (CorpusViewLaws := in_memory_view_laws _ _ _ u32_max_u32 Hanalyzers (part_global _ _ P))).
  unfold zlen, u64_max, u32_max in *. lia.
Qed.

(** ** The search of the cluster *)

Context (q : Query) (options : SearchOptions) (Hk : 0 <= top_k options).
Notation planning := {| default_fields := search_default_fields options; limits := planner_limits options |}.

(** The plans the shards make. *)
Definition shard_plans (ps : list Plan) : Prop :=
  Forall2 (fun shard p => plan (shard_view cluster shard) q planning = Ok p /\ plan_ok schema p)
    (shards_ cluster) ps.

Lemma shard_search_planned shard p : shard ∈ shards_ cluster ->
  plan (shard_view cluster shard) q planning = Ok p -> plan_ok schema p ->
  shard_search log1p cluster q options shard =
  best_hits (top_k options) (matching (InMemoryIndex.documents_ shard) p).
Proof using P Hanalyzers Hk.
  intros Hin Hp Hok. unfold shard_search, Executor.search. cbn [executor_index make_executor]. rewrite Hp.
  cbn [map_err mbind expected_bind].
  pose proof (shard_view_laws _ _ P Hanalyzers _ Hin) as L.
  exact (search_plan_matching log1p default_parameters (make_executor (shard_view cluster shard) default_parameters)
    schema corpus (InMemoryIndex.documents_ shard) eq_refl p (top_k options) Hok Hk).
Qed.

Lemma shard_searches ps : shard_plans ps ->
  map (shard_search log1p cluster q options) (shards_ cluster) = map (best_hits (top_k options)) (parts ps).
Proof using P Hanalyzers Hk.
  unfold shard_plans, parts.
  assert (Hmem : forall shard, shard ∈ shards_ cluster -> shard ∈ shards_ cluster) by done.
  revert Hmem. generalize (shards_ cluster) at 1 3 4 5. intros shards Hmem Hall.
  induction Hall as [|shard p shards ps [Hp Hok] _ IH]; [done|]. cbn [map zip_with]. f_equal.
  - apply shard_search_planned; [apply Hmem; by left|done..].
  - apply IH. intros s Hs. apply Hmem. by right.
Qed.

Lemma search_planned ps : shard_plans ps ->
  search log1p cluster q options =
  if forallb finite_score (concat (parts ps))
  then Ok {| hits := hit_of <$> top (top_k options) (concat (parts ps)); total_hits := zlen (concat (parts ps)) |}
  else Err (fail execution_error "non-finite score").
Proof using P Hanalyzers Hk.
  intros Hall. unfold search. rewrite (shard_searches ps Hall).
  pose proof (Forall2_length _ _ _ Hall) as Hlen.
  rewrite merge_results by (try pose proof (parts_bound ps (eq_sym Hlen)); lia).
  destruct (forallb finite_score (concat (parts ps))) eqn:Ef; [|done]. cbn [mbind expected_bind]. do 2 f_equal.
  rewrite merge_tops; [done|done| |apply NoDup_parts].
  apply Forall_forall. rewrite forallb_forall in Ef. intros x Hx%list_elem_of_In. by apply Ef.
Qed.

(** A cluster search that succeeds has planned on every shard. *)
Lemma search_plans result :
  (forall shard p, shard ∈ shards_ cluster -> plan (shard_view cluster shard) q planning = Ok p -> plan_ok schema p) ->
  search log1p cluster q options = Ok result -> exists ps, shard_plans ps.
Proof using Type.
  intros Hok. unfold search. intros H. apply bind_Ok in H as ([collector total] & H & _). revert H. unfold shard_plans.
  generalize (TopKCollector.make (top_k options)), 0%Z. revert Hok. generalize (shards_ cluster) at 1 2 3.
  intros shards. induction shards as [|shard shards IH]; intros Hok c n H; [by exists []|].
  cbn [map merge] in H. destruct (shard_search log1p cluster q options shard) as [r|e] eqn:E; [|done].
  destruct (_ >? _); [done|]. apply IH in H as [ps Hps]; [|intros s p Hs; apply Hok; by right].
  unfold shard_search, Executor.search in E. cbn [executor_index make_executor] in E.
  apply bind_Ok in E as (p & Hp%map_err_Ok & _). exists (p :: ps). constructor; [|done].
  split; [done|]. eapply Hok; [by left|done].
Qed.

(** The totals of at most 1024 shards of 32-bit ids do not overflow. *)
Lemma merge_Err results e : forall collector total, 0 <= total ->
  Forall (fun r => match r with Ok result => 0 <= total_hits result <= u32_max | Err _ => True end) results ->
  total + zlen results * u32_max <= u64_max ->
  merge collector total results = Err e -> cluster_code e = execution_error.
Proof using Type.
  induction results as [|[r|e'] results IH]; intros c total H0 Hall Hmax; cbn [merge]; [done| |by intros [= <-]].
  apply Forall_cons in Hall as [Hr Hall]. rewrite zlen_cons in Hmax.
  pose proof (zlen_nonneg results). assert (0 <= zlen results * u32_max) by (unfold u32_max; lia).
  destruct (Z.gtb_spec (total_hits r) (u64_max - total)); [unfold u32_max in *; lia|].
  apply IH; [lia|done|lia].
Qed.

Lemma shard_total shard : shard ∈ shards_ cluster ->
  (forall p, plan (shard_view cluster shard) q planning = Ok p -> plan_ok schema p) ->
  match shard_search log1p cluster q options shard with
  | Ok result => 0 <= total_hits result <= u32_max
  | Err _ => True
  end.
Proof using P Hanalyzers Hk.
  intros Hin Hok. destruct (plan (shard_view cluster shard) q planning) as [p|e] eqn:Hp.
  2:{ unfold shard_search, Executor.search. cbn [executor_index make_executor]. by rewrite Hp. }
  rewrite (shard_search_planned _ _ Hin Hp) by by apply Hok.
  unfold best_hits. destruct (forallb _ _); [|done]. cbn [total_hits]. split; [apply zlen_nonneg|].
  pose proof Hin as [i Hi]%list_elem_of_lookup. destruct (shard_wf _ _ P _ _ Hi) as (W & _ & Hm).
  pose proof (wf_maximum _ W) as Hmax. rewrite Hm in Hmax.
  assert (Hlen : (length (matching (InMemoryIndex.documents_ shard) p) <= size (InMemoryIndex.documents_ shard))%nat).
  { rewrite <- length_map_items. unfold SearchSpec.matching. induction (map_items _) as [|[id r] l IH]; [done|].
    cbn [omap list_omap]. destruct (_ <$> _); cbn [length]; lia. }
  unfold zlen. lia.
Qed.

Lemma search_Err e :
  (forall shard p, shard ∈ shards_ cluster -> plan (shard_view cluster shard) q planning = Ok p -> plan_ok schema p) ->
  search log1p cluster q options = Err e -> cluster_code e = execution_error.
Proof using P Hanalyzers Hk.
  intros Hok H. unfold search in H. apply bind_Err in H as [H|([c n] & _ & ?)]; [|done].
  eapply merge_Err; [| | |exact H]; [done|..].
  - change (map ?f ?l) with (f <$> l). rewrite Forall_fmap, Forall_forall. intros shard Hin.
    apply shard_total; [done|]. intros p. by apply Hok.
  - unfold zlen. rewrite length_map, (part_length _ _ P). pose proof (part_count _ _ P).
    unfold u32_max, u64_max. lia.
Qed.

(** The shards' matches are the matches of the whole. *)
Lemma parts_matching p ps : shard_plans ps -> Forall (fun p' => without_estimates p' = without_estimates p) ps ->
  concat (parts ps) ≡ₚ matching corpus p.
Proof using P.
  intros Hps Hsame. pose proof (Forall2_length _ _ _ Hps) as Hlen. apply NoDup_Permutation.
  - eapply NoDup_fmap_1, NoDup_parts.
  - eapply NoDup_fmap_1, NoDup_matching.
  - assert (Hm : forall p' r, without_estimates p' = without_estimates p -> live_match p' r = live_match p r).
    { intros p' r E. unfold SearchSpec.live_match.
      by rewrite <- (doc_match_without_estimates _ _ _ _ _ p'), E, doc_match_without_estimates. }
    rewrite Forall_forall in Hsame. intros [id s]. rewrite elem_of_parts, elem_of_matching by done. split.
    + intros (r & p' & Hr & Hp & Hl). exists r. split; [done|].
      rewrite <- (Hm p'); [done|]. eapply Hsame, list_elem_of_lookup_2, Hp.
    + intros (r & Hr & Hl). destruct (document_shard _ _ Hr) as (shard & _ & Hs & _).
      destruct (Forall2_lookup_l _ _ _ _ _ Hps Hs) as (p' & Hp' & _).
      exists r, p'. split_and!; [done..|]. rewrite Hm; [done|]. eapply Hsame, list_elem_of_lookup_2, Hp'.
Qed.

(** The documents that match on the shards are those the query describes. *)
Lemma parts_described ps : shard_plans ps ->
  scored_id <$> concat (parts ps) ≡ₚ (described schema corpus (search_default_fields options) q).*1.
Proof using P Hanalyzers.
  intros Hps. pose proof (Forall2_length _ _ _ Hps) as Hlen. apply NoDup_Permutation.
  - apply NoDup_parts.
  - unfold described. eapply sublist_NoDup; [apply (NoDup_fst_map_items corpus)|].
    apply fmap_sublist, sublist_filter.
  - intros id. rewrite elem_of_described, list_elem_of_fmap. split.
    + intros ([id' s] & -> & (r & p & Hr & Hp & Hl)%elem_of_parts); [|done].
      destruct (Forall2_lookup_r _ _ _ _ _ Hps Hp) as (shard & Hs & Hplan & _).
      exists r. split; [done|]. unfold SearchSpec.live_match in Hl.
      destruct (InMemoryIndex.is_live r); [|done]. split; [done|].
      pose proof (shard_view_laws _ _ P Hanalyzers _ (list_elem_of_lookup_2 _ _ _ Hs)) as L.
      apply (planned_matches log1p default_parameters schema corpus _ _ q p r (law_schema (CorpusViewLaws := L)) Hanalyzers Hplan).
      by eexists.
    + intros (r & Hr & Hlive & Hd). destruct (document_shard _ _ Hr) as (shard & _ & Hs & _).
      destruct (Forall2_lookup_l _ _ _ _ _ Hps Hs) as (p & Hp & Hplan & _).
      pose proof (shard_view_laws _ _ P Hanalyzers _ (list_elem_of_lookup_2 _ _ _ Hs)) as L.
      apply (planned_matches log1p default_parameters schema corpus _ _ q p r (law_schema (CorpusViewLaws := L)) Hanalyzers Hplan)
        in Hd as [s Hd].
      exists {| scored_id := id; score := s |}. split; [done|]. apply elem_of_parts; [done|].
      exists r, p. split_and!; [done..|]. unfold SearchSpec.live_match. by rewrite Hlive.
Qed.
End parts.

(** ** Properties *)

(** C21.  Sharding never splits a mutation: [create] yields an empty partition,
    and on a partitioned cluster [put] succeeds exactly when the put in the
    whole index does.  Then the shard the id is routed to has taken the
    document too and the shards again partition the documents of the whole;
    otherwise the cluster is unchanged and the whole's message comes back, so
    the second error return of [put], which would leave the two apart, is
    never taken. *)
Theorem cluster_partition schema :
  (forall count cluster, 0 <= count -> create count schema = Ok cluster -> partitioned schema cluster) /\
  (forall cluster d, partitioned schema cluster ->
     match InMemoryIndex.put (global_ cluster) d with
     | Ok global => exists cluster', put cluster d = (Ok tt, cluster') /\ global_ cluster' = global /\
         partitioned schema cluster'
     | Err e => put cluster d = (Err (fail mutation_error (index_message e)), cluster)
     end).
Proof.
  split; [by apply create_partitioned|]. intros cluster d P.
  destruct (InMemoryIndex.put (global_ cluster) d) as [global|e] eqn:E; [by apply put_partitioned|].
  unfold put. by rewrite E.
Qed.

Definition sample_named (id : string) (version : Z) : Document :=
  {| doc_id := id; doc_fields := doc_fields sample_document; doc_stored_metadata := ∅;
     doc_version := version; doc_deleted := false |}.

Definition sample_cluster : LocalShardCluster :=
  foldl (fun cluster d => (put cluster d).2) (construct 2 IndexSchema.default_schema)
    [sample_named "a" 1; sample_named "b" 1; sample_named "c" 1].

Lemma sample_partitioned : partitioned IndexSchema.default_schema sample_cluster.
Proof.
  assert (Hput : forall cluster d, partitioned IndexSchema.default_schema cluster ->
    partitioned IndexSchema.default_schema (put cluster d).2).
  { intros cluster d P. destruct (InMemoryIndex.put (global_ cluster) d) as [global|e] eqn:E.
    - by destruct (put_partitioned _ _ P d _ E) as (cluster' & -> & _ & ?).
    - unfold put. by rewrite E. }
  unfold sample_cluster. cbn [foldl]. do 3 apply Hput. apply (create_partitioned _ 2); [done|reflexivity].
Qed.

Lemma cluster_partition_witness :
  exists cluster', put sample_cluster (sample_named "b" 2) = (Ok tt, cluster') /\
    partitioned IndexSchema.default_schema cluster'.
Proof.
  pose proof (proj2 (cluster_partition IndexSchema.default_schema) sample_cluster (sample_named "b" 2)
    sample_partitioned) as H.
  assert (E : is_Ok (InMemoryIndex.put (global_ sample_cluster) (sample_named "b" 2)) = true)
    by (vm_compute; reflexivity).
  destruct (InMemoryIndex.put (global_ sample_cluster) (sample_named "b" 2)) as [global|e]; [|discriminate E].
  destruct H as (cluster' & Hput & _ & P). exists cluster'. split; [exact Hput|exact P].
Defined.

(** C20.  A search of the cluster counts exactly the live documents of the
    whole index that the query describes, returns as many of them as [top_k]
    allows, each once, and its only failures are those of a shard's search:
    the totals cannot overflow. *)
Theorem cluster_search_describes log1p schema cluster q options :
  partitioned schema cluster -> schema_analyzers schema -> 0 <= top_k options ->
  (forall shard p, shard ∈ shards_ cluster ->
     plan (shard_view cluster shard) q
       {| default_fields := search_default_fields options; limits := planner_limits options |} = Ok p ->
     plan_ok schema p) ->
  let documents := described schema (InMemoryIndex.documents_ (global_ cluster)) (search_default_fields options) q in
  match search log1p cluster q options with
  | Ok result =>
      total_hits result = zlen documents /\
      zlen (hits result) = Z.min (top_k options) (total_hits result) /\
      NoDup (hit_document_id <$> hits result) /\
      (forall id, id ∈ hit_document_id <$> hits result -> id ∈ documents.*1)
  | Err e => cluster_code e = execution_error
  end.
Proof.
  intros P Ha Hk Hok documents. destruct (search log1p cluster q options) as [result|e] eqn:E.
  - destruct (search_plans _ _ _ _ _ _ Hok E) as [ps Hps].
    pose proof (parts_described log1p _ _ P Ha _ _ _ Hps) as Hperm. fold documents in Hperm.
    rewrite (search_planned _ _ _ P Ha _ _ Hk _ Hps) in E. destruct (forallb _ _); [|done]. injection E as <-.
    cbn [total_hits hits]. rewrite <- list_fmap_compose. change (hit_document_id ∘ hit_of) with scored_id.
    assert (Hlen : zlen (concat (parts log1p schema cluster ps)) = zlen documents).
    { apply Permutation_length in Hperm. rewrite !length_fmap in Hperm. unfold zlen. by rewrite Hperm. }
    assert (Hsub : sublist (scored_id <$> top (top_k options) (concat (parts log1p schema cluster ps)))
      (scored_id <$> sort_by BetterScore (concat (parts log1p schema cluster ps))))
      by (apply fmap_sublist, sublist_take).
    split_and!; [done|..].
    + unfold top, zlen. rewrite length_fmap, length_take, sort_by_perm. lia.
    + eapply sublist_NoDup; [|exact Hsub]. rewrite sort_by_perm. by eapply NoDup_parts.
    + intros id Hid. eapply elem_of_submseteq in Hid; [|by apply sublist_submseteq].
      by rewrite sort_by_perm, Hperm in Hid.
  - by eapply search_Err.
Qed.

Definition cluster_options : SearchOptions :=
  {| top_k := 2; search_default_fields := default_search_fields; planner_limits := default_planner_limits |}.

Lemma cluster_search_describes_witness :
  let q := FieldQuery 0 "title" (TermQuery 6 "One") in
  exists result, search (fun x => x) sample_cluster q cluster_options = Ok result /\
    total_hits result = zlen (described IndexSchema.default_schema
      (InMemoryIndex.documents_ (global_ sample_cluster)) default_search_fields q) /\ total_hits result = 3.
Proof.
  intros q.
  assert (E : ok_and (search (fun x => x) sample_cluster q cluster_options) (fun result => total_hits result =? 3) = true)
    by (vm_compute; reflexivity).
  apply ok_and_true in E as (result & E & Ht). apply Z.eqb_eq in Ht. exists result. split; [exact E|].
  split; [|exact Ht].
  assert (Hp : forallb (fun shard => ok_and (plan (shard_view sample_cluster shard) q sample_options)
      (fun p => match p with PlannedTerm _ _ _ boost => BM25Scorer.boosts_ok boost d_one | _ => false end))
    (shards_ sample_cluster) = true) by (vm_compute; reflexivity).
  pose proof (cluster_search_describes (fun x => x) IndexSchema.default_schema sample_cluster q cluster_options
    sample_partitioned default_schema_analyzers ltac:(discriminate)) as H.
  cbv zeta in H. rewrite E in H. refine (proj1 (H _)). clear H. intros shard p Hin Hplan.
  rewrite forallb_forall in Hp. apply list_elem_of_In in Hin. specialize (Hp shard Hin).
  change (plan _ q _) with (plan (shard_view sample_cluster shard) q sample_options) in Hplan.
  rewrite Hplan in Hp. destruct p; try discriminate Hp. exact Hp.
Defined.

(** C19.  When every shard plans the query as the whole index does (the
    estimates may differ), the cluster's answer is the answer of the single
    index, hit for hit and bit for bit: the scores use the statistics of the
    whole, and the best of the shards' best hits are the best of all. *)
Theorem cluster_search_oracle log1p schema cluster q options p :
  partitioned schema cluster -> schema_analyzers schema -> 0 <= top_k options ->
  let planning := {| default_fields := search_default_fields options; limits := planner_limits options |} in
  plan (InMemoryIndex.view (global_ cluster)) q planning = Ok p -> plan_ok schema p ->
  (forall shard, shard ∈ shards_ cluster -> exists p',
     plan (shard_view cluster shard) q planning = Ok p' /\ without_estimates p' = without_estimates p) ->
  search log1p cluster q options =
  map_err (fun e => fail execution_error (execution_message e))
    (Executor.search log1p (make_executor (InMemoryIndex.view (global_ cluster)) default_parameters) q options).
Proof.
  intros P Ha Hk planning Hp Hok Hshards.
  assert (exists ps, shard_plans schema cluster q options ps /\
            Forall (fun p' => without_estimates p' = without_estimates p) ps) as (ps & Hps & Hsame).
  { unfold shard_plans. clear P. induction (shards_ cluster) as [|shard shards IH]; [by exists []|].
    destruct (Hshards shard) as (p' & Hp' & E); [by left|].
    destruct IH as (ps & Hps & Hsame); [intros s Hs; apply Hshards; by right|].
    exists (p' :: ps). split; [|by constructor]. constructor; [|done]. split; [done|].
    by rewrite <- plan_ok_without_estimates, E, plan_ok_without_estimates. }
  rewrite (search_planned _ _ _ P Ha _ _ Hk _ Hps).
  pose proof (parts_matching log1p _ _ P _ _ _ _ Hps Hsame) as Hperm.
  pose proof (in_memory_view_laws _ _ _ u32_max_u32 Ha (part_global _ _ P)) as G.
  unfold Executor.search. cbn [executor_index make_executor]. fold planning. rewrite Hp. cbn [map_err mbind expected_bind].
  rewrite (search_plan_matching log1p default_parameters
    (make_executor (InMemoryIndex.view (global_ cluster)) default_parameters) schema _ _ eq_refl p _ Hok Hk).
  unfold expected_result. rewrite <- (forallb_perm _ _ _ Hperm).
  destruct (forallb finite_score _) eqn:Ef; [|done]. cbn [map_err]. f_equal. f_equal.
  - unfold top. do 2 f_equal. apply sort_scores_perm; [done| |by eapply NoDup_parts].
    apply Forall_forall. rewrite forallb_forall in Ef. intros x Hx%list_elem_of_In. by apply Ef.
  - unfold zlen. by rewrite Hperm.
Qed.

Lemma cluster_search_oracle_witness :
  let q := FieldQuery 0 "title" (TermQuery 6 "One") in
  exists result, search (fun x => x) sample_cluster q cluster_options = Ok result /\
    Executor.search (fun x => x) (make_executor (InMemoryIndex.view (global_ sample_cluster)) default_parameters)
      q cluster_options = Ok result /\ hit_document_id <$> hits result = ["a"; "b"].
Proof.
  intros q.
  assert (Hp : ok_and (plan (InMemoryIndex.view (global_ sample_cluster)) q sample_options) (fun p =>
      match p with PlannedTerm _ _ _ boost => BM25Scorer.boosts_ok boost d_one | _ => false end &&
      forallb (fun shard => ok_and (plan (shard_view sample_cluster shard) q sample_options)
        (fun p' => match p, p' with
                   | PlannedTerm _ f t b, PlannedTerm _ f' t' b' =>
                       bool_decide (f = f') && bool_decide (t = t') && bool_decide (b = b')
                   | _, _ => false end)) (shards_ sample_cluster)) = true) by (vm_compute; reflexivity).
  apply ok_and_true in Hp as (p & Hp & Hs). apply andb_prop in Hs as [Hb Hs].
  destruct p as [e f t b| | | | | |]; try discriminate Hb.
  pose proof (cluster_search_oracle (fun x => x) IndexSchema.default_schema sample_cluster q cluster_options
    (PlannedTerm e f t b) sample_partitioned default_schema_analyzers ltac:(discriminate) Hp Hb) as H.
  assert (E : ok_and (Executor.search (fun x => x)
      (make_executor (InMemoryIndex.view (global_ sample_cluster)) default_parameters) q cluster_options)
    (fun result => bool_decide (hit_document_id <$> hits result = ["a"; "b"])) = true) by (vm_compute; reflexivity).
  apply ok_and_true in E as (result & E & Hids). exists result. split; [|split; [exact E|exact (bool_decide_eq_true_1 _ Hids)]].
  rewrite E in H. apply H. clear H. intros shard Hin. rewrite forallb_forall in Hs.
  apply list_elem_of_In in Hin. specialize (Hs shard Hin).
  apply ok_and_true in Hs as (p' & Hp' & Hs). exists p'. split; [exact Hp'|].
  destruct p' as [e' f' t' b'| | | | | |]; try discriminate Hs.
  apply andb_prop in Hs as [Hs H3]. apply andb_prop in Hs as [H1 H2].
  apply bool_decide_eq_true_1 in H1, H2, H3. subst. reflexivity.
Defined.
