(* ===== verification/Replication.v ===== *)
(** * Replication

    include/dse/distributed/replication.hpp and src/distributed/replication.cpp:
    replicas that apply a numbered log of mutations in order, the group of a
    primary and its backups, the choice of a replica to read from, and the log
    and the snapshots that a replica is recovered from.

    A group's operations run under its mutex, so each is one function on its
    state.  Operations that return an error may have changed the state: they
    return it in both cases. *)

From S2P Require Import Prelude Bytes Text Analysis Schema Types Index Segment Store SegmentStore Wal.

Inductive NodeHealth := healthy | suspect | unhealthy | draining.

#[export] Instance NodeHealth_eq_dec : EqDecision NodeHealth.
Proof. solve_decision. Defined.

(** The order of the enumerators, as [<] on the enum compares them. *)
Definition health_rank (h : NodeHealth) : Z :=
  match h with healthy => 0 | suspect => 1 | unhealthy => 2 | draining => 3 end.

Record ReplicaStatus := {
  status_node_id : NodeId;
  status_health : NodeHealth;
  status_applied_sequence : Z;
  status_lag : Z;
  status_inflight : Z
}.

Inductive ReplicationErrorCode :=
| invalid_topology | wrong_shard | wrong_epoch | sequence_gap | stale_sequence | conflicting_operation
| replication_mutation_error | log_full | insufficient_acknowledgements | no_eligible_replica.

#[export] Instance ReplicationErrorCode_eq_dec : EqDecision ReplicationErrorCode.
Proof. solve_decision. Defined.

Record ReplicationError := { replication_code : ReplicationErrorCode; replication_message : string }.

Definition fail (code : ReplicationErrorCode) (message : string) : ReplicationError :=
  {| replication_code := code; replication_message := message |}.

Record MutationRecord := {
  record_shard : ShardId;
  record_epoch : Z;
  operation_id : string;
  sequence : Z;
  record_document : Document
}.

#[export] Instance MutationRecord_eq_dec : EqDecision MutationRecord.
Proof. solve_decision. Defined.

Definition same_document (a b : Document) : bool :=
  str_eqb (doc_id a) (doc_id b) && bool_decide (doc_fields a = doc_fields b) &&
  bool_decide (doc_stored_metadata a = doc_stored_metadata b) && (doc_version a =? doc_version b) &&
  Bool.eqb (doc_deleted a) (doc_deleted b).

Definition same_record (a b : MutationRecord) : bool :=
  (record_shard a =? record_shard b) && (record_epoch a =? record_epoch b) &&
  str_eqb (operation_id a) (operation_id b) && (sequence a =? sequence b) &&
  same_document (record_document a) (record_document b).

Inductive ApplyOutcome := applied | duplicate.

(** ** [OrderedReplica] *)

Module OrderedReplica.

Record OrderedReplica := {
  node_ : NodeId;
  shard_ : ShardId;
  epoch_ : Z;
  index_ : InMemoryIndex;
  applied_sequence_ : Z;
  health_ : NodeHealth;
  inflight_ : Z;
  operations_ : gmap string MutationRecord
}.

Definition make (node : NodeId) (shard : ShardId) (epoch : Z) (schema : IndexSchema) : OrderedReplica :=
  {| node_ := node; shard_ := shard; epoch_ := epoch; index_ := InMemoryIndex.make schema u32_max;
     applied_sequence_ := 0; health_ := healthy; inflight_ := 0; operations_ := ∅ |}.

(** An error leaves the replica as it was. *)
Definition apply (replica : OrderedReplica) (record : MutationRecord)
    : expected ReplicationError (ApplyOutcome * OrderedReplica) :=
  if negb (record_shard record =? shard_ replica) then
    Err (fail wrong_shard "mutation targets another shard")
  else if negb (record_epoch record =? epoch_ replica) then
    Err (fail wrong_epoch "mutation epoch does not match replica")
  else if str_eqb (operation_id record) "" then
    Err (fail conflicting_operation "operation ID is empty")
  else
    match operations_ replica !! operation_id record with
    | Some found =>
        if negb (same_record found record) then
          Err (fail conflicting_operation "operation ID was reused with different content")
        else Ok (duplicate, replica)
    | None =>
        if sequence record <=? applied_sequence_ replica then
          Err (fail stale_sequence "unknown operation has stale sequence")
        else if negb (sequence record =? wrap64 (applied_sequence_ replica + 1)) then
          Err (fail sequence_gap "mutation sequence is not contiguous")
        else
          match InMemoryIndex.put (index_ replica) (record_document record) with
          | Err e => Err (fail replication_mutation_error (index_message e))
          | Ok index =>
              Ok (applied, {| node_ := node_ replica; shard_ := shard_ replica; epoch_ := epoch_ replica;
                              index_ := index; applied_sequence_ := sequence record;
                              health_ := health_ replica; inflight_ := inflight_ replica;
                              operations_ := <[operation_id record := record]> (operations_ replica) |})
          end
    end.

Definition set_health (replica : OrderedReplica) (health : NodeHealth) : OrderedReplica :=
  {| node_ := node_ replica; shard_ := shard_ replica; epoch_ := epoch_ replica; index_ := index_ replica;
     applied_sequence_ := applied_sequence_ replica; health_ := health; inflight_ := inflight_ replica;
     operations_ := operations_ replica |}.

Definition set_inflight (replica : OrderedReplica) (inflight : Z) : OrderedReplica :=
  {| node_ := node_ replica; shard_ := shard_ replica; epoch_ := epoch_ replica; index_ := index_ replica;
     applied_sequence_ := applied_sequence_ replica; health_ := health_ replica; inflight_ := inflight;
     operations_ := operations_ replica |}.

Definition restore_record (index : InMemoryIndex) (item : DocumentId * DocumentRecord)
    : expected ReplicationError InMemoryIndex :=
  map_err (fun e => fail replication_mutation_error ("snapshot restore failed: " +:+ index_message e))
    (InMemoryIndex.put index (document item.2)).

Definition restore (node : NodeId) (shard : ShardId) (epoch : Z) (snapshot : SegmentReader)
    : expected ReplicationError OrderedReplica :=
  if (shard =? 0) || (epoch =? 0) || (SegmentReader.segment_id_ snapshot =? 0) then
    Err (fail invalid_topology "invalid replica snapshot identity")
  else
    index ← fold_each restore_record (InMemoryIndex.make (SegmentReader.schema_ snapshot) u32_max)
              (map_items (SegmentReader.documents_ snapshot));
    Ok {| node_ := node; shard_ := shard; epoch_ := epoch; index_ := index;
          applied_sequence_ := SegmentReader.segment_id_ snapshot; health_ := healthy; inflight_ := 0;
          operations_ := ∅ |}.

Definition status (replica : OrderedReplica) (primary_sequence : Z) : ReplicaStatus :=
  {| status_node_id := node_ replica; status_health := health_ replica;
     status_applied_sequence := applied_sequence_ replica;
     status_lag := if primary_sequence >? applied_sequence_ replica
                   then primary_sequence - applied_sequence_ replica else 0;
     status_inflight := inflight_ replica |}.

End OrderedReplica.

Notation OrderedReplica := OrderedReplica.OrderedReplica.

(** ** [ReplicaRouter] *)

Module ReplicaRouter.

Definition preferred (candidate best : ReplicaStatus) : bool :=
  (health_rank (status_health candidate) <? health_rank (status_health best)) ||
  ((health_rank (status_health candidate) =? health_rank (status_health best)) &&
   ((status_lag candidate <? status_lag best) ||
    ((status_lag candidate =? status_lag best) &&
     ((status_inflight candidate <? status_inflight best) ||
      ((status_inflight candidate =? status_inflight best) &&
       str_ltb (status_node_id candidate) (status_node_id best)))))).

Definition consider (maximum_lag : Z) (best : option ReplicaStatus) (candidate : ReplicaStatus)
    : option ReplicaStatus :=
  if bool_decide (status_health candidate = unhealthy) || bool_decide (status_health candidate = draining) ||
     (status_lag candidate >? maximum_lag) then best
  else match best with
       | None => Some candidate
       | Some b => if preferred candidate b then Some candidate else best
       end.

Definition select (replicas : list ReplicaStatus) (maximum_lag : Z) : expected ReplicationError NodeId :=
  match foldl (consider maximum_lag) None replicas with
  | None => Err (fail no_eligible_replica "no replica satisfies health and lag policy")
  | Some best => Ok (status_node_id best)
  end.

End ReplicaRouter.

(** ** [ReplicationGroup] *)

Inductive AcknowledgementMode := primary_only | all_replicas.

#[export] Instance AcknowledgementMode_eq_dec : EqDecision AcknowledgementMode.
Proof. solve_decision. Defined.

Record MutationReceipt := { receipt_sequence : Z; acknowledgements : Z }.

Module ReplicationGroup.
Import OrderedReplica.

Record ReplicationGroup := {
  group_shard_ : ShardId;
  group_epoch_ : Z;
  limit_ : Z;
  next_sequence_ : Z;
  replicas_ : list OrderedReplica;
  log_ : list MutationRecord;
  operation_indices_ : gmap string Z
}.

Definition construct (shard : ShardId) (epoch : Z) (nodes : list NodeId) (limit : Z) (schema : IndexSchema)
    : ReplicationGroup :=
  {| group_shard_ := shard; group_epoch_ := epoch; limit_ := limit; next_sequence_ := 1;
     replicas_ := map (fun node => OrderedReplica.make node shard epoch schema) nodes;
     log_ := []; operation_indices_ := ∅ |}.

Definition create (shard : ShardId) (epoch : Z) (nodes : list NodeId) (maximum_retained_records : Z)
    (schema : IndexSchema) : expected ReplicationError ReplicationGroup :=
  let unique : gset NodeId := list_to_set nodes in
  if (shard =? 0) || (epoch =? 0) || bool_decide (nodes = []) || (zlen nodes >? 64) ||
     negb (Z.of_nat (size unique) =? zlen nodes) || (maximum_retained_records =? 0)
  then Err (fail invalid_topology "invalid replication group")
  else Ok (construct shard epoch nodes maximum_retained_records schema).

Definition with_replicas (group : ReplicationGroup) (replicas : list OrderedReplica) : ReplicationGroup :=
  {| group_shard_ := group_shard_ group; group_epoch_ := group_epoch_ group; limit_ := limit_ group;
     next_sequence_ := next_sequence_ group; replicas_ := replicas; log_ := log_ group;
     operation_indices_ := operation_indices_ group |}.

Definition out_of_service (health : NodeHealth) : bool :=
  bool_decide (health = unhealthy) || bool_decide (health = draining).

(** The loop over the replicas; the first one is the primary, the others are
    passed over while out of service. *)
Fixpoint distribute (record : MutationRecord) (primary : bool) (replicas : list OrderedReplica)
    : Z * list OrderedReplica :=
  match replicas with
  | [] => (0, [])
  | replica :: rest =>
      let '(count, rest') := distribute record false rest in
      if negb primary && out_of_service (health_ replica) then (count, replica :: rest')
      else
        match apply replica record with
        | Ok (_, replica') => (count + 1, replica' :: rest')
        | Err _ => (count, replica :: rest')
        end
  end.

(** A new operation: the primary applies it, then it is logged. *)
Definition log_operation (group : ReplicationGroup) (operation : string) (document_value : Document)
    : expected ReplicationError (MutationRecord * ReplicationGroup) :=
  if zlen (log_ group) >=? limit_ group then Err (fail log_full "retained mutation log is full")
  else
    let record := {| record_shard := group_shard_ group; record_epoch := group_epoch_ group;
                     operation_id := operation; sequence := next_sequence_ group;
                     record_document := document_value |} in
    match replicas_ group with
    | [] => Err (fail invalid_topology "") (* not reached: a group has a primary *)
    | primary :: backups =>
        '(_, primary') ← apply primary record;
        Ok (record, {| group_shard_ := group_shard_ group; group_epoch_ := group_epoch_ group;
                       limit_ := limit_ group; next_sequence_ := wrap64 (next_sequence_ group + 1);
                       replicas_ := primary' :: backups; log_ := log_ group ++ [record];
                       operation_indices_ := <[operation := zlen (log_ group)]> (operation_indices_ group) |})
    end.

Definition find_operation (group : ReplicationGroup) (operation : string) (document_value : Document)
    : expected ReplicationError (MutationRecord * ReplicationGroup) :=
  match operation_indices_ group !! operation with
  | Some index =>
      match log_ group !! Z.to_nat index with
      | Some record =>
          if negb (same_document (record_document record) document_value) then
            Err (fail conflicting_operation "operation ID was reused with different content")
          else Ok (record, group)
      | None => Err (fail invalid_topology "") (* not reached: the indices are those of the log *)
      end
  | None => log_operation group operation document_value
  end.

Definition submit (group : ReplicationGroup) (operation : string) (document_value : Document)
    (mode : AcknowledgementMode) : expected ReplicationError MutationReceipt * ReplicationGroup :=
  match find_operation group operation document_value with
  | Err e => (Err e, group)
  | Ok (record, logged) =>
      let '(count, replicas) := distribute record true (replicas_ logged) in
      let group' := with_replicas logged replicas in
      if bool_decide (mode = all_replicas) && negb (count =? zlen replicas) then
        (Err (fail insufficient_acknowledgements
                "mutation committed on primary without every replica acknowledgement"), group')
      else (Ok {| receipt_sequence := sequence record; acknowledgements := count |}, group')
  end.

Definition statuses (group : ReplicationGroup) : list ReplicaStatus :=
  match replicas_ group with
  | [] => [] (* not reached: a group has a primary *)
  | primary :: _ => map (fun replica => status replica (applied_sequence_ primary)) (replicas_ group)
  end.

Definition select_read_replica (group : ReplicationGroup) (maximum_lag : Z) : expected ReplicationError NodeId :=
  ReplicaRouter.select (statuses group) maximum_lag.

(** A failing record ends the replay with what was applied before it. *)
Fixpoint replay_log (replica : OrderedReplica) (log : list MutationRecord)
    : expected ReplicationError unit * OrderedReplica :=
  match log with
  | [] => (Ok tt, replica)
  | record :: log' =>
      match apply replica record with
      | Err e => (Err e, replica)
      | Ok (_, replica') => replay_log replica' log'
      end
  end.

Definition bring_up (log : list MutationRecord) (health : NodeHealth) (replica : OrderedReplica)
    : expected ReplicationError unit * OrderedReplica :=
  if out_of_service health then (Ok tt, OrderedReplica.set_health replica health)
  else
    match replay_log replica log with
    | (Err e, replica') => (Err e, replica')
    | (Ok _, replica') => (Ok tt, OrderedReplica.set_health replica' health)
    end.

Fixpoint set_health_of (log : list MutationRecord) (node : NodeId) (health : NodeHealth)
    (replicas : list OrderedReplica) : expected ReplicationError unit * list OrderedReplica :=
  match replicas with
  | [] => (Err (fail invalid_topology "node is not in replication group"), [])
  | replica :: rest =>
      if str_eqb (node_ replica) node then
        let '(r, replica') := bring_up log health replica in (r, replica' :: rest)
      else
        let '(r, rest') := set_health_of log node health rest in (r, replica :: rest')
  end.

Definition set_health (group : ReplicationGroup) (node : NodeId) (health : NodeHealth)
    : expected ReplicationError unit * ReplicationGroup :=
  let '(r, replicas) := set_health_of (log_ group) node health (replicas_ group) in
  (r, with_replicas group replicas).

Definition retained_log (group : ReplicationGroup) : list MutationRecord := log_ group.

End ReplicationGroup.

Notation ReplicationGroup := ReplicationGroup.ReplicationGroup.

(** ** [PersistentMutationLog] *)

Module PersistentMutationLog.

(** [map::emplace]: a key that is there is left alone. *)
Definition emplace (key value : string) (m : gmap string string) : gmap string string :=
  match m !! key with Some _ => m | None => <[key := value]> m end.

Definition add_prefixed (prefix : string) (m : gmap string string) (item : string * string)
    : gmap string string := emplace (prefix +:+ item.1) item.2 m.

(** The document that stands for a record in the write-ahead log. *)
Definition persisted (record : MutationRecord) : Document :=
  let document_value := record_document record in
  let with_fields := foldl (add_prefixed "f:") ∅ (map_items (doc_fields document_value)) in
  let with_metadata := foldl (add_prefixed "m:") with_fields
                         (map_items (doc_stored_metadata document_value)) in
  {| doc_id := operation_id record;
     doc_fields := with_metadata;
     doc_stored_metadata :=
       <["@version" := to_string_u (doc_version document_value)]>
         (<["@shard" := to_string_u (record_shard record)]>
           (<["@epoch" := to_string_u (record_epoch record)]>
             (<["@document" := doc_id document_value]>
               {["@deleted" := if doc_deleted document_value then "1" else "0"]})));
     doc_version := sequence record;
     doc_deleted := false |}.

Definition append (name : string) (record : MutationRecord) : IO ReplicationError unit :=
  _ ← io_ensure (negb ((record_shard record =? 0) || (record_epoch record =? 0) || (sequence record =? 0) ||
                       str_eqb (operation_id record) "" || str_eqb (doc_id (record_document record)) ""))
        (fail conflicting_operation "persistent mutation identity is incomplete");
  io_map_err (fun e => fail replication_mutation_error ("replica log append failed: " +:+ wal_message e))
    (WriteAheadLog.append name (persisted record)).

(** One field of a persisted document, by its prefix. *)
Definition restore_field (maps : gmap string string * gmap string string) (item : string * string)
    : expected ReplicationError (gmap string string * gmap string string) :=
  let '(fields, metadata) := maps in
  let '(key, value) := item in
  match strip_prefix "f:" key with
  | Some rest => Ok (emplace rest value fields, metadata)
  | None =>
      match strip_prefix "m:" key with
      | Some rest => Ok (fields, emplace rest value metadata)
      | None => Err (fail conflicting_operation "invalid persistent replica document field")
      end
  end.

Definition restore_record (shard : ShardId) (epoch expected_sequence : Z) (wrapper : Document)
    : expected ReplicationError MutationRecord :=
  let metadata := doc_stored_metadata wrapper in
  match metadata !! "@shard", metadata !! "@epoch", metadata !! "@document", metadata !! "@version",
        metadata !! "@deleted" with
  | Some shard_value, Some epoch_value, Some document_id, Some document_version, Some deleted =>
      _ ← ensure (negb (str_eqb (doc_id wrapper) "" || negb (doc_version wrapper =? expected_sequence)))
            (fail sequence_gap "invalid persistent replica sequence");
      match parse_u64 shard_value, parse_u64 epoch_value, parse_u64 document_version with
      | Some parsed_shard, Some parsed_epoch, Some parsed_version =>
          _ ← ensure (negb (negb (parsed_shard =? shard) || negb (parsed_epoch =? epoch) ||
                            (negb (str_eqb deleted "0") && negb (str_eqb deleted "1"))))
                (fail wrong_epoch "persistent replica identity mismatch");
          '(fields, stored) ← fold_each restore_field (∅, ∅) (map_items (doc_fields wrapper));
          Ok {| record_shard := shard; record_epoch := epoch; operation_id := doc_id wrapper;
                sequence := doc_version wrapper;
                record_document := {| doc_id := document_id; doc_fields := fields;
                                      doc_stored_metadata := stored; doc_version := parsed_version;
                                      doc_deleted := str_eqb deleted "1" |} |}
      | _, _, _ => Err (fail wrong_epoch "persistent replica identity mismatch")
      end
  | _, _, _, _, _ => Err (fail sequence_gap "invalid persistent replica sequence")
  end.

Fixpoint restore_records (shard : ShardId) (epoch expected_sequence : Z) (wrappers : list Document)
    : expected ReplicationError (list MutationRecord) :=
  match wrappers with
  | [] => Ok []
  | wrapper :: rest =>
      record ← restore_record shard epoch expected_sequence wrapper;
      records ← restore_records shard epoch (wrap64 (expected_sequence + 1)) rest;
      Ok (record :: records)
  end.

Definition replay (name : string) (shard : ShardId) (epoch : Z) (limits : WalLimits)
    : IO ReplicationError (list MutationRecord) :=
  wrappers ← io_map_err (fun e => fail replication_mutation_error ("replica log recovery failed: " +:+ wal_message e))
               (WriteAheadLog.replay name limits);
  io_lift (restore_records shard epoch 1 wrappers).

Definition reset (name : string) : IO ReplicationError unit :=
  io_map_err (fun e => fail replication_mutation_error ("replica log reset failed: " +:+ wal_message e))
    (WriteAheadLog.reset name).

End PersistentMutationLog.

(** ** Recovery *)

Definition recover_step (replica : OrderedReplica) (record : MutationRecord)
    : expected ReplicationError OrderedReplica :=
  '(_, replica') ← OrderedReplica.apply replica record; Ok replica'.

Definition recover_replica (node : NodeId) (shard : ShardId) (epoch : Z) (name : string) (schema : IndexSchema)
    : IO ReplicationError OrderedReplica :=
  records ← PersistentMutationLog.replay name shard epoch default_wal_limits;
  io_lift (fold_each recover_step (OrderedReplica.make node shard epoch schema) records).

Definition write_replica_snapshot (name : string) (replica : OrderedReplica) : IO ReplicationError unit :=
  let sequence := OrderedReplica.applied_sequence_ replica in
  _ ← io_ensure (negb (sequence =? 0)) (fail stale_sequence "cannot snapshot an empty replica");
  io_map_err (fun e => fail replication_mutation_error ("replica snapshot failed: " +:+ segment_message e))
    (write_segment name (InMemoryIndex.snapshot (OrderedReplica.index_ replica))
       {| write_segment_id := sequence; compressed_postings := true |}).
