(* ===== verification/ReplicationSpec.v ===== *)
(** * What replication keeps

    Every replica of a group has applied a prefix of the retained log, the
    primary and the replicas in service all of it; so bringing a replica back
    cannot fail, a retry changes nothing, and a read goes to a replica with
    the primary's index. *)

From S2P Require Import Prelude Bytes Text Analysis Schema Types Index IndexSpec IndexChecks Contents Segment Store Replication.
Import OrderedReplica ReplicationGroup.

Lemma same_document_eq a b : same_document a b = true <-> a = b.
Proof.
  unfold same_document, str_eqb. rewrite !andb_true_iff, !bool_decide_eq_true, Z.eqb_eq, eqb_true_iff.
  split; [|by intros ->]. destruct a, b; cbn. naive_solver.
Qed.

Lemma same_record_eq a b : same_record a b = true <-> a = b.
Proof.
  unfold same_record, str_eqb. rewrite !andb_true_iff, !bool_decide_eq_true, !Z.eqb_eq, same_document_eq.
  split; [|by intros ->]. destruct a, b; cbn. naive_solver.
Qed.

Lemma fold_each_app {E A S} (f : S -> A -> expected E S) l k : forall s,
  fold_each f s (l ++ k) = (s' ← fold_each f s l; fold_each f s' k).
Proof.
  induction l as [|x l IH]; intros s; [done|]. cbn. destruct (f s x); [|done]. apply IH.
Qed.

(** ** Indexes and logs *)

(** The index that results from these mutations, in this order. *)
Definition builds (schema : IndexSchema) (docs : list Document) (index : InMemoryIndex) : Prop :=
  fold_each InMemoryIndex.put (InMemoryIndex.make schema u32_max) docs = Ok index.

Lemma builds_unique schema docs i j : builds schema docs i -> builds schema docs j -> i = j.
Proof. unfold builds. congruence. Qed.

Lemma builds_snoc schema docs d index : builds schema (docs ++ [d]) index <->
  exists before, builds schema docs before /\ InMemoryIndex.put before d = Ok index.
Proof.
  unfold builds. rewrite fold_each_app. split.
  - intros H. apply bind_Ok in H as (before & Hb & H). exists before. split; [done|]. cbn in H.
    by destruct (InMemoryIndex.put before d).
  - intros (before & -> & Hp). cbn. by rewrite Hp.
Qed.

Lemma builds_prefix schema docs more index : builds schema (docs ++ more) index -> exists before, builds schema docs before.
Proof. unfold builds. rewrite fold_each_app. intros H. apply bind_Ok in H as (before & Hb & _). by exists before. Qed.

Definition operations_of (log : list MutationRecord) : gmap string MutationRecord :=
  list_to_map ((fun r => (operation_id r, r)) <$> log).

Section log.
Context (shard : ShardId) (epoch : Z) (schema : IndexSchema).

(** A log of this shard and epoch, numbered from one, each operation once. *)
Record log_ok (log : list MutationRecord) : Prop := {
  lo_records i record : log !! i = Some record ->
    record_shard record = shard /\ record_epoch record = epoch /\ operation_id record <> "" /\
    sequence record = Z.of_nat i + 1;
  lo_distinct : NoDup (operation_id <$> log);
  lo_length : zlen log <= u64_max
}.

(** A replica that has applied the first [n] records of the log. *)
Record follows (log : list MutationRecord) (n : nat) (replica : OrderedReplica) : Prop := {
  fo_shard : shard_ replica = shard;
  fo_epoch : epoch_ replica = epoch;
  fo_applied : applied_sequence_ replica = Z.of_nat n;
  fo_length : (n <= length log)%nat;
  fo_operations : operations_ replica = operations_of (take n log);
  fo_index : builds schema (record_document <$> take n log) (index_ replica)
}.

Lemma operations_lookup log n op record : NoDup (operation_id <$> log) ->
  operations_of (take n log) !! op = Some record <->
  exists i, log !! i = Some record /\ (i < n)%nat /\ operation_id record = op.
Proof using Type.
  intros Hnd. unfold operations_of. rewrite <- elem_of_list_to_map.
  2:{ rewrite <- list_fmap_compose. change (fst ∘ _) with operation_id.
      eapply sublist_NoDup; [exact Hnd|]. apply fmap_sublist, sublist_take. }
  rewrite list_elem_of_fmap. split.
  - intros (r & [= -> ->] & Hin). apply list_elem_of_lookup in Hin as [i Hi].
    apply lookup_take_Some in Hi as [Hi Hlt]. by exists i.
  - intros (i & Hi & Hlt & <-). exists record. split; [done|]. apply list_elem_of_lookup.
    exists i. by apply lookup_take_Some.
Qed.

Lemma operation_index log i j r s : NoDup (operation_id <$> log) -> log !! i = Some r -> log !! j = Some s ->
  operation_id r = operation_id s -> i = j.
Proof using Type.
  intros Hnd Hi Hj E. eapply NoDup_lookup; [exact Hnd|..]; rewrite list_lookup_fmap, ?Hi, ?Hj; cbn; [done|by rewrite E].
Qed.

Lemma operations_next log n record : NoDup (operation_id <$> log) -> log !! n = Some record ->
  operations_of (take (S n) log) = <[operation_id record := record]> (operations_of (take n log)).
Proof using Type.
  intros Hnd Hn. apply map_eq. intros op. apply option_eq. intros r.
  rewrite lookup_insert_Some, !operations_lookup by done. split.
  - intros (i & Hi & Hlt & E). destruct (decide (i = n)) as [->|Hne].
    + left. split; [|congruence]. congruence.
    + right. split.
      * intros <-. pose proof (operation_index _ _ _ _ _ Hnd Hi Hn E). lia.
      * exists i. split_and!; [done|lia|done].
  - intros [[<- <-]|[_ (i & Hi & Hlt & E)]]; [exists n|exists i]; (split_and!; [done|lia|done]).
Qed.

(** Records that were applied before are recognised. *)
Lemma apply_old log n i record replica : log_ok log -> follows log n replica -> log !! i = Some record ->
  (i < n)%nat -> apply replica record = Ok (duplicate, replica).
Proof using Type.
  intros L F Hi Hlt. destruct (lo_records _ L _ _ Hi) as (Hs & He & Ho & _). unfold apply.
  rewrite Hs, He, (fo_shard _ _ _ F), (fo_epoch _ _ _ F), !Z.eqb_refl. cbn [negb].
  unfold str_eqb. rewrite bool_decide_eq_false_2 by done.
  assert (operations_ replica !! operation_id record = Some record) as ->.
  { rewrite (fo_operations _ _ _ F). apply operations_lookup; [apply L|]. by exists i. }
  by rewrite (proj2 (same_record_eq record record) eq_refl).
Qed.

Definition advanced (replica : OrderedReplica) (record : MutationRecord) (index : InMemoryIndex) : OrderedReplica :=
  {| node_ := node_ replica; shard_ := shard_ replica; epoch_ := epoch_ replica; index_ := index;
     applied_sequence_ := sequence record; health_ := health_ replica; inflight_ := inflight_ replica;
     operations_ := <[operation_id record := record]> (operations_ replica) |}.

(** The next record is taken when the index takes its document. *)
Lemma apply_next log n record replica : log_ok log -> follows log n replica -> log !! n = Some record ->
  apply replica record =
    match InMemoryIndex.put (index_ replica) (record_document record) with
    | Err e => Err (fail replication_mutation_error (index_message e))
    | Ok index => Ok (applied, advanced replica record index)
    end /\
  forall index, InMemoryIndex.put (index_ replica) (record_document record) = Ok index ->
    follows log (S n) (advanced replica record index).
Proof using Type.
  intros L F Hn. destruct (lo_records _ L _ _ Hn) as (Hs & He & Ho & Hq). split.
  - unfold apply. rewrite Hs, He, (fo_shard _ _ _ F), (fo_epoch _ _ _ F), !Z.eqb_refl. cbn [negb].
    unfold str_eqb. rewrite bool_decide_eq_false_2 by done.
    assert (operations_ replica !! operation_id record = None) as ->.
    { rewrite (fo_operations _ _ _ F). destruct (operations_of _ !! _) as [r|] eqn:E; [|done].
      apply operations_lookup in E as (i & Hi & Hlt & E); [|apply L].
      pose proof (operation_index _ _ _ _ _ (lo_distinct _ L) Hi Hn E). lia. }
    rewrite Hq, (fo_applied _ _ _ F). pose proof (lo_length _ L) as Hlen. unfold zlen in Hlen.
    apply lookup_lt_Some in Hn. rewrite wrap64_id by (unfold is_u64; lia).
    destruct (Z.leb_spec (Z.of_nat n + 1) (Z.of_nat n)); [lia|]. rewrite Z.eqb_refl. cbn [negb].
    destruct (InMemoryIndex.put _ _); [|done]. unfold advanced.
    by rewrite Hq, (fo_shard _ _ _ F), (fo_epoch _ _ _ F).
  - intros index Hput. split; cbn [advanced shard_ epoch_ applied_sequence_ operations_ index_]; try apply F.
    + rewrite Hq. lia.
    + by apply lookup_lt_Some in Hn.
    + rewrite (fo_operations _ _ _ F). symmetry. by apply operations_next; [apply L|].
    + rewrite (take_S_r _ _ _ Hn), fmap_app. apply builds_snoc. exists (index_ replica). split; [apply F|done].
Qed.

(** A replica takes every record of a log that was built once. *)
Definition buildable (log : list MutationRecord) : Prop :=
  exists index, builds schema (record_document <$> log) index.

Lemma apply_built log n record replica : log_ok log -> buildable log -> follows log n replica ->
  log !! n = Some record -> exists replica', apply replica record = Ok (applied, replica') /\
    follows log (S n) replica' /\ node_ replica' = node_ replica /\ health_ replica' = health_ replica.
Proof using Type.
  intros L [last Hlast] F Hn. destruct (apply_next _ _ _ _ L F Hn) as [E Hnext].
  assert (exists index, builds schema (record_document <$> take (S n) log) index) as [index Hi].
  { rewrite <- (take_drop (S n) log), fmap_app in Hlast. by eapply builds_prefix. }
  rewrite (take_S_r _ _ _ Hn), fmap_app in Hi. apply builds_snoc in Hi as (before & Hb & Hput).
  rewrite (builds_unique _ _ _ _ Hb (fo_index _ _ _ F)) in Hput. rewrite Hput in E.
  eexists. split; [exact E|]. split; [by apply Hnext|done].
Qed.

(** Replaying the log from any record the replica has reached brings it to
    the end. *)
Lemma replay_follows log : log_ok log -> buildable log -> forall k n replica, follows log n replica ->
  (k <= n)%nat -> exists replica', replay_log replica (drop k log) = (Ok tt, replica') /\
    follows log (length log) replica' /\ node_ replica' = node_ replica /\ health_ replica' = health_ replica.
Proof using Type.
  intros L B k n replica. remember (length log - k)%nat as m eqn:Em. revert k n replica Em.
  induction m as [|m IH]; intros k n replica Em F Hk; pose proof (fo_length _ _ _ F) as Hlen.
  - rewrite drop_ge by lia. exists replica. assert (n = length log) as <- by lia. done.
  - destruct (lookup_lt_is_Some_2 log k) as [record Hr]; [lia|].
    rewrite (drop_S _ _ _ Hr). cbn [replay_log]. destruct (decide (k < n)%nat) as [Hlt|Hge].
    + rewrite (apply_old _ _ _ _ _ L F Hr Hlt). apply (IH (S k) n); [lia|done|lia].
    + assert (k = n) as -> by lia. destruct (apply_built _ _ _ _ L B F Hr) as (replica1 & -> & F1 & Hn1 & Hh1).
      destruct (IH (S n) (S n) replica1) as (replica' & E & F' & Hn' & Hh'); [lia|done|lia|].
      exists replica'. by rewrite Hn', Hh'.
Qed.

(** The health and the log of the group are no part of what is followed. *)
Lemma follows_health log n replica health : follows log n replica -> follows log n (OrderedReplica.set_health replica health).
Proof using Type. intros F. split; apply F. Qed.

Lemma follows_app log more n replica : follows log n replica -> follows (log ++ more) n replica.
Proof using Type.
  intros F. pose proof (fo_length _ _ _ F). split; try apply F.
  - rewrite length_app. lia.
  - rewrite take_app_le by done. apply F.
  - rewrite take_app_le by done. apply F.
Qed.
End log.

(** ** Groups *)

Notation in_service replica := (out_of_service (health_ replica) = false).

(** The replicas that receive every mutation. *)
Definition receivers (replicas : list OrderedReplica) : Z :=
  match replicas with
  | [] => 0
  | _ :: backups => 1 + zlen (filter (fun replica => in_service replica) backups)
  end.

Record group_ok (schema : IndexSchema) (group : ReplicationGroup) : Prop := {
  gr_log : log_ok (group_shard_ group) (group_epoch_ group) (log_ group);
  gr_limit : is_u64 (limit_ group) /\ zlen (log_ group) <= limit_ group;
  gr_next : next_sequence_ group = wrap64 (zlen (log_ group) + 1);
  gr_indices operation j : operation_indices_ group !! operation = Some j <->
    exists i record, j = Z.of_nat i /\ log_ group !! i = Some record /\ operation_id record = operation;
  gr_nodes : NoDup (node_ <$> replicas_ group);
  gr_primary : exists primary backups, replicas_ group = primary :: backups /\
    follows (group_shard_ group) (group_epoch_ group) schema (log_ group) (length (log_ group)) primary;
  gr_replicas replica : replica ∈ replicas_ group -> exists n,
    follows (group_shard_ group) (group_epoch_ group) schema (log_ group) n replica /\
    (in_service replica -> n = length (log_ group))
}.

Lemma distinct_nodes (nodes : list NodeId) :
  (size (list_to_set nodes : gset NodeId) <= length nodes)%nat /\
  (size (list_to_set nodes : gset NodeId) = length nodes -> NoDup nodes).
Proof.
  induction nodes as [|node nodes [Hle IH]]; [by split; [|constructor]|]. cbn [list_to_set length].
  destruct (decide (node ∈ (list_to_set nodes : gset NodeId))) as [Hin|Hin].
  - replace ({[node]} ∪ list_to_set nodes : gset NodeId) with (list_to_set nodes : gset NodeId) by set_solver.
    split; lia.
  - rewrite size_union, size_singleton by set_solver. split; [lia|]. intros E.
    constructor; [|apply IH; lia]. intros H. apply Hin. by apply elem_of_list_to_set.
Qed.

Lemma follows_make shard epoch schema node : follows shard epoch schema [] 0 (OrderedReplica.make node shard epoch schema).
Proof. by split. Qed.

Lemma create_ok schema shard epoch nodes limit group : is_u64 limit ->
  create shard epoch nodes limit schema = Ok group -> group_ok schema group.
Proof.
  intros Hl. unfold create. destruct (_ || _) eqn:E; [done|]. intros [= <-].
  rewrite !orb_false_iff, negb_false_iff, bool_decide_eq_false in E.
  destruct E as (((((_ & _) & Hne) & _) & Hsize) & _). apply Z.eqb_eq in Hsize. unfold zlen in Hsize.
  assert (Hfo : forall replica, replica ∈ map (fun node => OrderedReplica.make node shard epoch schema) nodes ->
            follows shard epoch schema [] 0 replica).
  { change (map ?f ?l) with (f <$> l). intros r (node & -> & _)%list_elem_of_fmap. apply follows_make. }
  split; cbn [construct log_ group_shard_ group_epoch_ limit_ next_sequence_ operation_indices_ replicas_].
  - split; [by intros i ?|constructor|by vm_compute].
  - split; [done|]. apply Hl.
  - done.
  - intros operation j. rewrite lookup_empty. split; [done|]. by intros (i & record & _ & ? & _).
  - change (map ?f ?l) with (f <$> l). rewrite <- list_fmap_compose.
    change (node_ ∘ _) with (fun node : NodeId => node). rewrite list_fmap_id.
    apply distinct_nodes. lia.
  - destruct nodes as [|node nodes]; [done|]. eexists _, _. split; [reflexivity|]. apply follows_make.
  - intros replica Hin. exists 0%nat. split; [by apply Hfo|done].
Qed.

(** ** Distribution *)

Section distribution.
Context (shard : ShardId) (epoch : Z) (schema : IndexSchema) (log : list MutationRecord).
Context (L : log_ok shard epoch log) (B : buildable schema log).
Notation follows := (follows shard epoch schema log).

Definition at_end (replica : OrderedReplica) : Prop := follows (length log) replica.

(** Where a replica may stand when the record at [i] is distributed: at the
    end, or, for the last record, just before it. *)
Definition awaits (i n : nat) : Prop := n = length log \/ n = i /\ S i = length log.

Lemma receive i n record replica : log !! i = Some record -> follows n replica -> awaits i n ->
  exists o replica', apply replica record = Ok (o, replica') /\ at_end replica' /\
    node_ replica' = node_ replica /\ health_ replica' = health_ replica /\ (n = length log -> replica' = replica).
Proof using L B.
  intros Hi F [->|[-> Hlast]].
  - exists duplicate, replica. split; [|done]. eapply (apply_old shard epoch schema log); [done|exact F|done|].
    by apply lookup_lt_Some in Hi.
  - destruct (apply_built _ _ _ _ _ _ _ L B F Hi) as (replica' & E & F' & Hn & Hh).
    exists applied, replica'. split_and!; [done| |done|done|].
    + unfold at_end. by rewrite <- Hlast.
    + lia.
Qed.

Definition keeps (replica replica' : OrderedReplica) : Prop :=
  node_ replica' = node_ replica /\ health_ replica' = health_ replica.

Definition stands (P : nat -> Prop) (replica : OrderedReplica) : Prop :=
  exists n, follows n replica /\ (in_service replica -> P n).

Lemma distribute_backups i record backups : log !! i = Some record ->
  Forall (stands (awaits i)) backups -> exists backups',
  distribute record false backups = (zlen (filter (fun replica => in_service replica) backups), backups') /\
  Forall2 keeps backups backups' /\ Forall (stands (eq (length log))) backups' /\
  (Forall (stands (eq (length log))) backups -> backups' = backups).
Proof using L B.
  intros Hi. induction 1 as [|replica backups (n & F & Hn) _ IH]; [by exists []|].
  destruct IH as (backups' & E & Hk & Hs & Hsame). cbn [distribute]. rewrite E, filter_cons.
  destruct (out_of_service (health_ replica)) eqn:Eo; cbn [negb andb].
  - rewrite decide_False by done. exists (replica :: backups'). split_and!; [done|by constructor|..].
    + constructor; [|done]. exists n. split; [done|]. by rewrite Eo.
    + intros Hall. by rewrite Hsame by by apply Forall_cons in Hall as [_ ?].
  - rewrite decide_True by done.
    destruct (receive _ _ _ _ Hi F (Hn eq_refl)) as (o & replica' & -> & Fend & Hnode & Hhealth & Hid).
    exists (replica' :: backups'). split_and!.
    + rewrite zlen_cons. f_equal. lia.
    + by constructor.
    + constructor; [|done]. by exists (length log).
    + intros [(n' & F' & Hn') Hall]%Forall_cons. rewrite Hsame, Hid; [done| |done].
      pose proof (fo_applied _ _ _ _ _ _ F). pose proof (fo_applied _ _ _ _ _ _ F'). specialize (Hn' Eo). lia.
Qed.

Lemma distribute_ok i n record primary backups : log !! i = Some record ->
  follows n primary -> awaits i n -> Forall (stands (awaits i)) backups -> exists primary' backups',
  distribute record true (primary :: backups) = (receivers (primary :: backups), primary' :: backups') /\
  at_end primary' /\ keeps primary primary' /\
  Forall2 keeps backups backups' /\ Forall (stands (eq (length log))) backups' /\
  (n = length log -> primary' = primary) /\
  (Forall (stands (eq (length log))) backups -> backups' = backups).
Proof using L B.
  intros Hi F Hn Hb. destruct (distribute_backups _ _ _ Hi Hb) as (backups' & E & Hk & Hs & Hsame).
  destruct (receive _ _ _ _ Hi F Hn) as (o & primary' & Ep & Fend & Hnode & Hhealth & Hid).
  exists primary', backups'. split_and!; [|done..]. cbn [distribute negb andb]. rewrite E, Ep. unfold receivers.
  f_equal. lia.
Qed.
End distribution.

Lemma keeps_nodes replicas replicas' : Forall2 keeps replicas replicas' -> node_ <$> replicas' = node_ <$> replicas.
Proof. induction 1 as [|r r' l l' [Hn _] _ IH]; [done|]. by rewrite !fmap_cons, Hn, IH. Qed.

Lemma keeps_receivers p p' replicas replicas' : Forall2 keeps replicas replicas' ->
  receivers (p' :: replicas') = receivers (p :: replicas).
Proof.
  intros Hall. cbn. f_equal. induction Hall as [|r r' l l' [_ Hh] _ IH]; [done|].
  rewrite !filter_cons, Hh. case_decide; [|done]. by rewrite !zlen_cons, IH.
Qed.

(** ** [submit] *)

Section submit.
Context (schema : IndexSchema) (group : ReplicationGroup) (G : group_ok schema group).
Notation shard := (group_shard_ group).
Notation epoch := (group_epoch_ group).
Notation log := (log_ group).

Lemma group_buildable : buildable schema log.
Proof using G.
  destruct (gr_primary _ _ G) as (primary & backups & _ & F). exists (index_ primary).
  pose proof (fo_index _ _ _ _ _ _ F) as H. by rewrite take_ge in H.
Qed.

Lemma group_stands backups primary : replicas_ group = primary :: backups ->
  Forall (stands shard epoch schema log (eq (length log))) backups.
Proof using G.
  intros E. apply Forall_forall. intros replica Hin.
  destruct (gr_replicas _ _ G replica) as (n & F & Hn); [rewrite E; by right|]. exists n. split; [done|]. intros ?. symmetry. auto.
Qed.

(** What [submit] answers when the record is in the log. *)
Definition answer (mode : AcknowledgementMode) (number count replicas : Z) : expected ReplicationError MutationReceipt :=
  if bool_decide (mode = all_replicas) && negb (count =? replicas) then
    Err (fail insufficient_acknowledgements
           "mutation committed on primary without every replica acknowledgement")
  else Ok {| receipt_sequence := number; acknowledgements := count |}.

Lemma submit_retry record d mode : record ∈ log ->
  submit group (operation_id record) d mode =
  (if same_document (record_document record) d
   then answer mode (sequence record) (receivers (replicas_ group)) (zlen (replicas_ group))
   else Err (fail conflicting_operation "operation ID was reused with different content"), group).
Proof using G.
  intros [i Hi]%list_elem_of_lookup. unfold submit, find_operation.
  assert (operation_indices_ group !! operation_id record = Some (Z.of_nat i)) as ->
    by (apply (gr_indices _ _ G); eauto).
  rewrite Nat2Z.id, Hi. destruct (same_document _ d); [|done]. cbn [negb].
  destruct (gr_primary _ _ G) as (primary & backups & E & F). rewrite E.
  pose proof (group_stands _ _ E) as Hs.
  destruct (distribute_ok shard epoch schema log (gr_log _ _ G) group_buildable i (length log) record primary backups Hi F)
    as (primary' & backups' & Ed & _ & _ & _ & _ & Hp & Hb); [by left| |].
  { eapply Forall_impl; [exact Hs|]. intros r (n & Fr & Hn). exists n. split; [done|]. intros Hr. left. by rewrite Hn. }
  rewrite Hp, Hb in Ed by done. rewrite Ed.
  assert (with_replicas group (primary :: backups) = group) as -> by (rewrite <- E; by destruct group).
  unfold answer. by destruct (_ && _).
Qed.

(** The record of a new operation. *)
Definition next_record (operation : string) (d : Document) : MutationRecord :=
  {| record_shard := shard; record_epoch := epoch; operation_id := operation;
     sequence := zlen log + 1; record_document := d |}.

Lemma no_index operation : (forall record, record ∈ log -> operation_id record <> operation) ->
  operation_indices_ group !! operation = None.
Proof using G.
  intros Hnew. destruct (operation_indices_ group !! operation) as [j|] eqn:E; [|done].
  apply (gr_indices _ _ G) in E as (i & record & _ & Hi & Ho). by apply list_elem_of_lookup_2, Hnew in Hi.
Qed.

Lemma next_sequence : zlen log < limit_ group -> next_sequence_ group = zlen log + 1.
Proof using G.
  intros Hlt. rewrite (gr_next _ _ G). pose proof (gr_limit _ _ G) as [Hl _]. pose proof (zlen_nonneg log).
  apply wrap64_id. unfold is_u64 in *. lia.
Qed.

Lemma log_ok_next operation d : zlen log < limit_ group -> operation <> "" ->
  (forall record, record ∈ log -> operation_id record <> operation) ->
  log_ok shard epoch (log ++ [next_record operation d]).
Proof using G.
  intros Hlt Hne Hnew. pose proof (gr_log _ _ G) as L. split.
  - intros i record [Hi|[Hge Hi]]%lookup_app_Some; [by apply L|].
    apply list_lookup_singleton_Some in Hi as [Hi <-]. cbn. split_and!; [done..|]. unfold zlen. lia.
  - rewrite fmap_app. apply NoDup_app. split_and!; [apply L| |apply NoDup_singleton].
    intros o Ho Hin. apply list_elem_of_singleton in Hin as ->. apply list_elem_of_fmap in Ho as (r & E & Hr).
    by apply (Hnew r).
  - rewrite zlen_app. change (zlen [_]) with 1. pose proof (gr_limit _ _ G) as [[_ Hl] _]. lia.
Qed.

(** A new operation that cannot be logged changes nothing. *)
Lemma submit_refused operation d mode : (forall record, record ∈ log -> operation_id record <> operation) ->
  (limit_ group <= zlen log -> submit group operation d mode =
     (Err (fail log_full "retained mutation log is full"), group)) /\
  (zlen log < limit_ group -> operation = "" -> submit group operation d mode =
     (Err (fail conflicting_operation "operation ID is empty"), group)).
Proof using G.
  intros Hnew. unfold submit, find_operation, log_operation. rewrite (no_index _ Hnew).
  destruct (gr_primary _ _ G) as (primary & backups & E & F). split.
  - intros Hfull. by destruct (Z.geb_spec (zlen log) (limit_ group)); [|lia].
  - intros Hlt ->. destruct (Z.geb_spec (zlen log) (limit_ group)); [lia|]. rewrite E. unfold apply.
    cbn [record_shard record_epoch operation_id].
    by rewrite (fo_shard _ _ _ _ _ _ F), (fo_epoch _ _ _ _ _ _ F), !Z.eqb_refl.
Qed.

(** A new operation that the primary's index takes is logged and reaches every
    replica in service; otherwise nothing changes. *)
Lemma submit_new operation d mode primary backups : replicas_ group = primary :: backups ->
  (forall record, record ∈ log -> operation_id record <> operation) ->
  zlen log < limit_ group -> operation <> "" ->
  match InMemoryIndex.put (index_ primary) d with
  | Err e => submit group operation d mode =
      (Err (fail replication_mutation_error (index_message e)), group)
  | Ok index => exists group' primary' backups',
      submit group operation d mode =
        (answer mode (zlen log + 1) (receivers (replicas_ group)) (zlen (replicas_ group)), group') /\
      log_ group' = log ++ [next_record operation d] /\ replicas_ group' = primary' :: backups' /\
      index_ primary' = index /\ Forall2 keeps backups backups' /\ group_ok schema group'
  end.
Proof using G.
  intros E Hnew Hlt Hne. set (record := next_record operation d).
  pose proof (log_ok_next operation d Hlt Hne Hnew) as L'. fold record in L'.
  destruct (gr_primary _ _ G) as (p & bs & E' & F). rewrite E in E'. injection E' as <- <-.
  pose proof (follows_app _ _ _ log [record] _ _ F) as F1.
  assert (Hlast : (log ++ [record]) !! length log = Some record) by (by rewrite lookup_app_r, Nat.sub_diag).
  destruct (apply_next _ _ _ _ _ _ _ L' F1 Hlast) as [Happly Hnext].
  unfold submit, find_operation, log_operation. rewrite (no_index _ Hnew), E, (next_sequence Hlt).
  destruct (Z.geb_spec (zlen log) (limit_ group)); [lia|].
  change {| record_shard := _ |} with record. rewrite Happly. cbn [record next_record record_document].
  destruct (InMemoryIndex.put (index_ primary) d) as [index|e] eqn:Hput; [|done].
  cbn [mbind expected_bind].
  specialize (Hnext index Hput). set (primary1 := advanced primary record index) in *.
  assert (Hend : S (length log) = length (log ++ [record])) by (rewrite length_app; cbn; lia).
  assert (B' : buildable schema (log ++ [record])).
  { exists index. pose proof (fo_index _ _ _ _ _ _ Hnext) as H'. by rewrite Hend, take_ge in H'. }
  assert (Hs : Forall (stands shard epoch schema (log ++ [record]) (awaits (log ++ [record]) (length log))) backups).
  { eapply Forall_impl; [by apply (group_stands _ _ E)|]. intros r (n & Fr & Hn). exists n.
    split; [by apply follows_app|]. intros Hr. right. split; [symmetry; auto|done]. }
  destruct (distribute_ok shard epoch schema (log ++ [record]) L' B' (length log) (S (length log)) record primary1 backups
    Hlast Hnext (or_introl Hend) Hs) as (primary' & backups' & Ed & Fend & Hkeep & Hk & Hstand & Hp & _).
  rewrite (Hp Hend) in *. clear Hp Hkeep.
  cbn [replicas_]. rewrite Ed.
  match goal with |- context [with_replicas ?a ?b] => exists (with_replicas a b), primary1, backups' end. split_and!; [|reflexivity|reflexivity|reflexivity|done|].
  { unfold answer. assert (zlen (primary1 :: backups') = zlen (primary :: backups)) as ->.
    { rewrite !zlen_cons. f_equal. unfold zlen. by rewrite (Forall2_length _ _ _ Hk). }
    change (receivers (primary1 :: backups)) with (receivers (primary :: backups)). by destruct (_ && _). }
  pose proof (gr_limit _ _ G) as [Hlim _].
  split; cbn [with_replicas log_ group_shard_ group_epoch_ limit_ next_sequence_ operation_indices_ replicas_].
  - done.
  - split; [done|]. rewrite zlen_app. change (zlen [record]) with 1. lia.
  - by rewrite zlen_app.
  - intros o j. rewrite lookup_insert_Some, (gr_indices _ _ G). split.
    + intros [[<- <-]|[Hno (i & r & -> & Hi & Ho)]].
      * exists (length log), record. by split_and!.
      * exists i, r. split_and!; [done| |done]. apply lookup_app_l_Some, Hi.
    + intros (i & r & -> & [Hi|[Hge Hi]]%lookup_app_Some & Ho).
      * right. split; [|by exists i, r]. intros <-. apply list_elem_of_lookup_2 in Hi. by apply (Hnew r).
      * apply list_lookup_singleton_Some in Hi as [Hi <-]. left. split; [done|]. unfold zlen. f_equal. lia.
  - rewrite fmap_cons, (keeps_nodes _ _ Hk). change (node_ primary1) with (node_ primary).
    pose proof (gr_nodes _ _ G) as Hn. by rewrite E in Hn.
  - by exists primary1, backups'.
  - intros replica [->|Hin]%elem_of_cons; [by exists (length (log ++ [record]))|].
    rewrite Forall_forall in Hstand. destruct (Hstand _ Hin) as (n & Fr & Hn). exists n. split; [done|].
    intros Hr. symmetry. by apply Hn.
Qed.

(** The group stays well-formed. *)
Lemma submit_ok operation d mode : group_ok schema (submit group operation d mode).2.
Proof using G.
  destruct (decide (Exists (fun record => operation_id record = operation) log)) as [Hold|Hnew].
  - apply Exists_exists in Hold as (record & Hin & <-). by rewrite (submit_retry _ _ _ Hin).
  - assert (Hnew' : forall record, record ∈ log -> operation_id record <> operation).
    { intros record Hin Ho. apply Hnew, Exists_exists. eauto. }
    destruct (submit_refused operation d mode Hnew') as [Hfull Hempty].
    destruct (Z.lt_ge_cases (zlen log) (limit_ group)) as [Hlt|Hge]; [|by rewrite Hfull].
    destruct (decide (operation = "")) as [Ho|Ho]; [by rewrite Hempty|].
    destruct (gr_primary _ _ G) as (primary & backups & E & _).
    pose proof (submit_new operation d mode primary backups E Hnew' Hlt Ho) as H.
    destruct (InMemoryIndex.put _ _); [|by rewrite H].
    by destruct H as (group' & primary' & backups' & -> & _ & _ & _ & _ & ?).
Qed.
End submit.

(** ** [set_health] *)

Section set_health.
Context (schema : IndexSchema) (group : ReplicationGroup) (G : group_ok schema group).
Notation shard := (group_shard_ group).
Notation epoch := (group_epoch_ group).
Notation log := (log_ group).
Notation stands := (stands shard epoch schema log (eq (length log))).

Lemma bring_up_ok health n replica : follows shard epoch schema log n replica -> exists replica' n',
  bring_up log health replica = (Ok tt, replica') /\ node_ replica' = node_ replica /\
  follows shard epoch schema log n' replica' /\ (n <= n')%nat /\ (in_service replica' -> length log = n').
Proof using G.
  intros F. unfold bring_up. destruct (out_of_service health) eqn:Eh.
  - exists (OrderedReplica.set_health replica health), n. split_and!; [done..|by apply follows_health|done|].
    cbn. by rewrite Eh.
  - destruct (replay_follows shard epoch schema log (gr_log _ _ G) (group_buildable _ _ G) 0 n replica F)
      as (replica' & E & F' & Hn & _); [lia|]. rewrite drop_0 in E. rewrite E.
    exists (OrderedReplica.set_health replica' health), (length log).
    split_and!; [done..|by apply follows_health|apply F|done].
Qed.

Lemma set_health_of_ok node health replicas : Forall stands replicas -> node ∈ node_ <$> replicas ->
  exists replicas', set_health_of log node health replicas = (Ok tt, replicas') /\
    node_ <$> replicas' = node_ <$> replicas /\ Forall stands replicas' /\
    forall primary backups, replicas = primary :: backups -> at_end shard epoch schema log primary ->
      exists primary' backups', replicas' = primary' :: backups' /\ at_end shard epoch schema log primary'.
Proof using G.
  intros Hs. induction Hs as [|replica replicas (n & F & Hn) Hs IH]; [by intros ?%not_elem_of_nil|].
  rewrite fmap_cons. intros Hin. cbn [set_health_of]. unfold str_eqb. case_bool_decide as Enode.
  - destruct (bring_up_ok health n replica F) as (replica' & n' & -> & Hnode & F' & Hle & Hend).
    exists (replica' :: replicas). split_and!; [done|by rewrite fmap_cons, Hnode|constructor; [by exists n'|done]|].
    intros p b [= <- <-] Fp. exists replica', replicas. split; [done|]. unfold at_end in *.
    pose proof (fo_applied _ _ _ _ _ _ F). pose proof (fo_applied _ _ _ _ _ _ Fp). pose proof (fo_length _ _ _ _ _ _ F').
    assert (n' = length log) as -> by lia. done.
  - apply elem_of_cons in Hin as [Hin|Hin]; [by subst|]. destruct (IH Hin) as (replicas' & -> & Hnodes & Hall & _).
    exists (replica :: replicas'). split_and!; [done|by rewrite fmap_cons, Hnodes|constructor; [by exists n|done]|].
    intros p b [= <- <-] Fp. by exists replica, replicas'.
Qed.

Lemma set_health_of_unknown node health replicas : node ∉ node_ <$> replicas ->
  set_health_of log node health replicas = (Err (fail invalid_topology "node is not in replication group"), replicas).
Proof using Type.
  clear G.
  induction replicas as [|replica replicas IH]; [done|]. rewrite fmap_cons, not_elem_of_cons. intros [Hne Hnot].
  cbn [set_health_of]. unfold str_eqb. rewrite bool_decide_eq_false_2 by done. by rewrite IH.
Qed.

Lemma group_stands_all : Forall stands (replicas_ group).
Proof using G.
  apply Forall_forall. intros replica Hin. destruct (gr_replicas _ _ G _ Hin) as (n & F & Hn).
  exists n. split; [done|]. intros ?. symmetry. auto.
Qed.

(** A replica of the group is always brought back; nothing else changes. *)
Lemma set_health_known node health : node ∈ node_ <$> replicas_ group -> exists group',
  ReplicationGroup.set_health group node health = (Ok tt, group') /\ log_ group' = log /\ group_ok schema group'.
Proof using G.
  intros Hin. destruct (set_health_of_ok node health _ group_stands_all Hin) as (replicas' & E & Hnodes & Hall & Hp).
  unfold ReplicationGroup.set_health. rewrite E. eexists. split_and!; [done..|].
  split; cbn [with_replicas log_ group_shard_ group_epoch_ limit_ next_sequence_ operation_indices_ replicas_]; try apply G.
  - rewrite Hnodes. apply G.
  - destruct (gr_primary _ _ G) as (p & b & Er & Fp). by apply (Hp p b).
  - intros replica Hr. rewrite Forall_forall in Hall. destruct (Hall _ Hr) as (n & F & Hn).
    exists n. split; [done|]. intros ?. symmetry. auto.
Qed.

Lemma set_health_unknown node health : node ∉ node_ <$> replicas_ group ->
  ReplicationGroup.set_health group node health =
    (Err (fail invalid_topology "node is not in replication group"), group).
Proof using Type.
  clear G.
  intros Hnot. unfold ReplicationGroup.set_health. rewrite set_health_of_unknown by done. by destruct group.
Qed.

Lemma set_health_ok node health : group_ok schema (ReplicationGroup.set_health group node health).2.
Proof using G.
  destruct (decide (node ∈ node_ <$> replicas_ group)) as [Hin|Hnot].
  - by destruct (set_health_known node health Hin) as (group' & -> & _ & ?).
  - by rewrite set_health_unknown.
Qed.
End set_health.

(** ** Reading *)

Definition eligible (maximum_lag : Z) (status : ReplicaStatus) : Prop :=
  out_of_service (status_health status) = false /\ status_lag status <= maximum_lag.

Lemma consider_eligible maximum_lag best candidate :
  ReplicaRouter.consider maximum_lag best candidate =
  if decide (eligible maximum_lag candidate) then
    match best with
    | None => Some candidate
    | Some b => if ReplicaRouter.preferred candidate b then Some candidate else best
    end
  else best.
Proof.
  unfold ReplicaRouter.consider, eligible. fold (out_of_service (status_health candidate)).
  destruct (out_of_service (status_health candidate)); cbn [orb].
  - by rewrite decide_False by by intros [? _].
  - destruct (Z.gtb_spec (status_lag candidate) maximum_lag); [rewrite decide_False by (intros [_ ?]; lia)|rewrite decide_True]; done.
Qed.

Lemma str_ltb_trans a b c : str_ltb a b = true -> str_ltb b c = true -> str_ltb a c = true.
Proof.
  unfold str_ltb, str_leb. rewrite !negb_true_iff, !bool_decide_eq_false. intros H1 H2 H3. apply H2.
  destruct (total String.le a b) as [H|H]; [by etrans|done].
Qed.

Lemma preferred_iff a b : ReplicaRouter.preferred a b = true <->
  health_rank (status_health a) < health_rank (status_health b) \/
  health_rank (status_health a) = health_rank (status_health b) /\
  (status_lag a < status_lag b \/ status_lag a = status_lag b /\
  (status_inflight a < status_inflight b \/ status_inflight a = status_inflight b /\
   str_ltb (status_node_id a) (status_node_id b) = true)).
Proof.
  unfold ReplicaRouter.preferred. by rewrite !orb_true_iff, !andb_true_iff, !orb_true_iff, !andb_true_iff,
    !orb_true_iff, !andb_true_iff, !Z.ltb_lt, !Z.eqb_eq.
Qed.

Lemma preferred_trans a b c : ReplicaRouter.preferred a b = true -> ReplicaRouter.preferred b c = true ->
  ReplicaRouter.preferred a c = true.
Proof.
  rewrite !preferred_iff.
  intros [H|(E & [H|(E1 & [H|[E2 H]])])] [K|(F & [K|(F1 & [K|[F2 K]])])];
    repeat first [left; lia | right; split; [lia|]]; by eapply str_ltb_trans.
Qed.

Lemma preferred_irrefl a : ReplicaRouter.preferred a a = false.
Proof.
  destruct (ReplicaRouter.preferred a a) eqn:E; [|done]. apply preferred_iff in E.
  rewrite str_ltb_irrefl in E. destruct E as [?|(_ & [?|(_ & [?|[_ ?]])])]; lia || done.
Qed.

(** The best of the statuses considered so far. *)
Definition chosen (maximum_lag : Z) (seen : list ReplicaStatus) (best : option ReplicaStatus) : Prop :=
  match best with
  | None => Forall (fun c => ~ eligible maximum_lag c) seen
  | Some b => b ∈ seen /\ eligible maximum_lag b /\
      Forall (fun c => eligible maximum_lag c -> ReplicaRouter.preferred c b = false) seen
  end.

Lemma consider_all maximum_lag statuses : forall seen best, chosen maximum_lag seen best ->
  chosen maximum_lag (seen ++ statuses) (foldl (ReplicaRouter.consider maximum_lag) best statuses).
Proof.
  induction statuses as [|x statuses IH]; intros seen best Hb; [by rewrite app_nil_r|].
  cbn [foldl]. rewrite cons_middle, app_assoc. apply IH. rewrite consider_eligible.
  destruct (decide (eligible maximum_lag x)) as [He|He].
  - destruct best as [b|].
    + destruct Hb as (Hin & Hbe & Hall). destruct (ReplicaRouter.preferred x b) eqn:Ep; cbn.
      * split_and!; [set_solver|done|]. apply Forall_app. split.
        -- eapply Forall_impl; [exact Hall|]. cbn. intros c Hc Hce. destruct (ReplicaRouter.preferred c x) eqn:E; [|done].
           rewrite (preferred_trans _ _ _ E Ep) in Hc. by specialize (Hc Hce).
        -- constructor; [|constructor]. intros _. apply preferred_irrefl.
      * split_and!; [set_solver|done|]. apply Forall_app. split; [done|by constructor].
    + cbn in *. split_and!; [set_solver|done|]. apply Forall_app. split.
      * eapply Forall_impl; [exact Hb|]. by intros c Hn Hce.
      * constructor; [|constructor]. intros _. apply preferred_irrefl.
  - destruct best as [b|]; cbn in *.
    + destruct Hb as (Hin & Hbe & Hall). split_and!; [set_solver|done|]. apply Forall_app. split; [done|].
      by constructor.
    + apply Forall_app. split; [done|by constructor].
Qed.

(** A replica that is read from is the preferred one of those in service
    within the lag, and has the primary's index. *)
Lemma read_current schema group maximum_lag : group_ok schema group ->
  match select_read_replica group maximum_lag with
  | Ok node => exists best primary backups replica,
      chosen maximum_lag (statuses group) (Some best) /\ status_node_id best = node /\
      replicas_ group = primary :: backups /\ replica ∈ replicas_ group /\ node_ replica = node /\
      index_ replica = index_ primary
  | Err _ => chosen maximum_lag (statuses group) None
  end.
Proof.
  intros G. unfold select_read_replica, ReplicaRouter.select.
  pose proof (consider_all maximum_lag (statuses group) [] None (Forall_nil_2 _)) as H. cbn [app] in H.
  destruct (foldl _ _ _) as [best|]; [|done]. pose proof H as (Hin & [Hs _] & _).
  destruct (gr_primary _ _ G) as (primary & backups & E & F). exists best, primary, backups.
  unfold statuses in Hin. rewrite E in Hin. change (map ?f ?l) with (f <$> l) in Hin.
  apply list_elem_of_fmap in Hin as (replica & Eb & Hr). rewrite <- E in Hr. exists replica.
  subst best. split_and!; [done..|]. destruct (gr_replicas _ _ G _ Hr) as (n & Fr & Hn).
  cbn in Hs. rewrite (Hn Hs) in Fr. eapply builds_unique; [apply Fr|apply F].
Qed.

(** ** Properties *)

Inductive group_reachable (schema : IndexSchema) : ReplicationGroup -> Prop :=
| group_created shard epoch nodes limit group :
    is_u64 limit -> create shard epoch nodes limit schema = Ok group -> group_reachable schema group
| group_submitted group operation d mode :
    group_reachable schema group -> group_reachable schema (submit group operation d mode).2
| group_health_set group node health :
    group_reachable schema group -> group_reachable schema (ReplicationGroup.set_health group node health).2.

Lemma group_reachable_ok schema group : group_reachable schema group -> group_ok schema group.
Proof.
  induction 1 as [shard epoch nodes limit group Hl H|group operation d mode _ IH|group node health _ IH].
  - by eapply create_ok.
  - by apply submit_ok.
  - by apply set_health_ok.
Qed.

(** C25.  In every state a group can reach by creating it, submitting and
    changing health in any order, whatever the calls answer: each replica has
    applied the first records of the retained log, in order and each once, and
    holds the index these build; the primary and every replica in service have
    applied all of it; bringing back a known node never fails; and a read goes
    to the preferred one of the replicas in service within the lag, whose index
    is exactly the primary's, and is refused only when there is none. *)
Theorem replicas_follow_log schema group :
  group_reachable schema group ->
  log_ok (group_shard_ group) (group_epoch_ group) (log_ group) /\
  (forall replica, replica ∈ replicas_ group -> exists n,
     applied_sequence_ replica = Z.of_nat n /\ (n <= length (log_ group))%nat /\
     builds schema (record_document <$> take n (log_ group)) (index_ replica) /\
     (out_of_service (health_ replica) = false -> n = length (log_ group))) /\
  (exists primary backups, replicas_ group = primary :: backups /\
     builds schema (record_document <$> log_ group) (index_ primary)) /\
  (forall node health, node ∈ node_ <$> replicas_ group -> exists group',
     ReplicationGroup.set_health group node health = (Ok tt, group') /\ log_ group' = log_ group) /\
  (forall maximum_lag, match select_read_replica group maximum_lag with
   | Ok node => exists best primary backups replica,
       chosen maximum_lag (statuses group) (Some best) /\ status_node_id best = node /\
       replicas_ group = primary :: backups /\ replica ∈ replicas_ group /\ node_ replica = node /\
       index_ replica = index_ primary
   | Err _ => chosen maximum_lag (statuses group) None
   end).
Proof.
  intros G%group_reachable_ok. split_and!.
  - apply G.
  - intros replica Hr. destruct (gr_replicas _ _ G _ Hr) as (n & F & Hn). exists n. by split_and!; try apply F.
  - destruct (gr_primary _ _ G) as (primary & backups & E & F). exists primary, backups. split; [done|].
    pose proof (fo_index _ _ _ _ _ _ F) as H. by rewrite take_ge in H.
  - intros node health Hin. destruct (set_health_known _ _ G node health Hin) as (group' & E & Hl & _). by exists group'.
  - intros maximum_lag. by eapply read_current.
Qed.

Definition replica_options : list NodeId := ["n1"; "n2"; "n3"].

Definition sample_mutation (id : string) (version : Z) : Document :=
  {| doc_id := id; doc_fields := {["title" := "One two one"]}; doc_stored_metadata := ∅;
     doc_version := version; doc_deleted := false |}.

Definition sample_group : ReplicationGroup :=
  let group := construct 7 1 replica_options 10 IndexSchema.default_schema in
  let group := (ReplicationGroup.set_health group "n3" unhealthy).2 in
  let group := (submit group "op1" (sample_mutation "a" 1) primary_only).2 in
  (submit group "op2" (sample_mutation "b" 1) primary_only).2.

Lemma sample_group_reachable : group_reachable IndexSchema.default_schema sample_group.
Proof.
  unfold sample_group. cbv zeta. apply group_submitted, group_submitted, group_health_set.
  apply (group_created _ 7 1 replica_options 10); [split; vm_compute; discriminate|reflexivity].
Qed.

Lemma replicas_follow_log_witness :
  map applied_sequence_ (replicas_ sample_group) = [2; 2; 0] /\
  (exists group', ReplicationGroup.set_health sample_group "n3" suspect = (Ok tt, group') /\
     log_ group' = log_ sample_group) /\
  select_read_replica sample_group 0 = Ok "n1".
Proof.
  destruct (replicas_follow_log IndexSchema.default_schema sample_group sample_group_reachable)
    as (_ & _ & _ & Hback & _).
  split; [vm_compute; reflexivity|]. split; [|vm_compute; reflexivity].
  apply Hback. apply list_elem_of_lookup. exists 2%nat. vm_compute. reflexivity.
Defined.

(** C26.  [submit], on every reachable group.  A retry of a logged operation
    changes nothing and is answered with its sequence number; with another
    document it is refused.  A new operation that does not fit the log, has no
    id or is refused by the primary's index changes nothing; otherwise it gets
    the next number, is appended to the log and has been applied by the primary
    and by every replica in service.  The count of acknowledgements is the
    number of these, and [all_replicas] is refused, the mutation staying
    committed, exactly when a backup is out of service. *)
Theorem submit_spec schema group operation d mode :
  group_reachable schema group ->
  let unlogged := forall record, record ∈ log_ group -> operation_id record <> operation in
  (forall record, record ∈ log_ group -> operation_id record = operation ->
     submit group operation d mode =
       (if same_document (record_document record) d
        then answer mode (sequence record) (receivers (replicas_ group)) (zlen (replicas_ group))
        else Err (fail conflicting_operation "operation ID was reused with different content"), group)) /\
  (unlogged -> limit_ group <= zlen (log_ group) ->
     submit group operation d mode = (Err (fail log_full "retained mutation log is full"), group)) /\
  (unlogged -> zlen (log_ group) < limit_ group -> operation = "" ->
     submit group operation d mode = (Err (fail conflicting_operation "operation ID is empty"), group)) /\
  (unlogged -> zlen (log_ group) < limit_ group -> operation <> "" ->
     exists primary backups, replicas_ group = primary :: backups /\
     match InMemoryIndex.put (index_ primary) d with
     | Err e => submit group operation d mode =
         (Err (fail replication_mutation_error (index_message e)), group)
     | Ok index => exists group' primary' backups',
         submit group operation d mode =
           (answer mode (zlen (log_ group) + 1) (receivers (replicas_ group)) (zlen (replicas_ group)), group') /\
         log_ group' = log_ group ++ [next_record group operation d] /\
         replicas_ group' = primary' :: backups' /\ index_ primary' = index /\
         Forall2 keeps backups backups' /\
         (forall replica, replica ∈ backups' -> out_of_service (health_ replica) = false -> index_ replica = index)
     end).
Proof.
  intros G%group_reachable_ok unlogged. split_and!.
  - intros record Hin <-. by eapply submit_retry.
  - intros Hnew. by eapply submit_refused.
  - intros Hnew. by eapply submit_refused.
  - intros Hnew Hlt Hne. destruct (gr_primary _ _ G) as (primary & backups & E & _).
    exists primary, backups. split; [done|].
    pose proof (submit_new _ _ G operation d mode primary backups E Hnew Hlt Hne) as H.
    destruct (InMemoryIndex.put (index_ primary) d) as [index|e]; [|done].
    destruct H as (group' & primary' & backups' & Es & El & Er & Ei & Hk & G'). exists group', primary', backups'.
    split_and!; [done..|]. intros replica Hin Hs.
    destruct (gr_replicas _ _ G' replica) as (n & F & Hn); [rewrite Er; by right|].
    destruct (gr_primary _ _ G') as (p & b & E' & Fp). rewrite Er in E'. injection E' as <- <-.
    rewrite (Hn Hs) in F. rewrite <- Ei. eapply builds_unique; [apply F|apply Fp].
Qed.

Lemma submit_spec_witness :
  submit sample_group "op2" (sample_mutation "b" 1) all_replicas =
    (Err (fail insufficient_acknowledgements
            "mutation committed on primary without every replica acknowledgement"), sample_group) /\
  submit sample_group "op2" (sample_mutation "b" 1) primary_only =
    (Ok {| receipt_sequence := 2; acknowledgements := 2 |}, sample_group).
Proof.
  destruct (submit_spec IndexSchema.default_schema sample_group "op2" (sample_mutation "b" 1) all_replicas
    sample_group_reachable) as (Hall & _).
  destruct (submit_spec IndexSchema.default_schema sample_group "op2" (sample_mutation "b" 1) primary_only
    sample_group_reachable) as (Hone & _).
  assert (Hin : log_ sample_group !! 1%nat = Some {| record_shard := 7; record_epoch := 1; operation_id := "op2";
      sequence := 2; record_document := sample_mutation "b" 1 |}) by (vm_compute; reflexivity).
  apply list_elem_of_lookup_2 in Hin.
  rewrite (Hall _ Hin eq_refl), (Hone _ Hin eq_refl). split; (f_equal; vm_compute; reflexivity).
Defined.
