(* ===== verification/ReplicaRecovery.v ===== *)
(** * Recovering a replica

    A mutation record survives its translation to a document of the
    write-ahead log and back, so that what was acknowledged as logged is
    rebuilt after any crash that leaves the log in its directory; and a snapshot restores the documents it was
    taken of. *)

From S2P Require Import Prelude Bytes Text Analysis Schema Types Index IndexSpec IndexChecks Contents Segment Store StoreSpec SegmentStore Wal WalSpec WalDurability Replication ReplicationSpec.
Import PersistentMutationLog.

(** ** The translation of fields *)

Lemma emplace_lookup key value m k : emplace key value m !! k =
  match m !! key with Some _ => m !! k | None => if decide (key = k) then Some value else m !! k end.
Proof.
  unfold emplace. destruct (m !! key) eqn:E; [done|]. case_decide as Hk; subst; [apply lookup_insert_eq|by apply lookup_insert_ne].
Qed.

(** Adding entries under a prefix that is not used yet. *)
Lemma add_prefixed_all prefix l : forall m, NoDup l.*1 -> (forall k, k ∈ l.*1 -> m !! (prefix +:+ k) = None) ->
  forall k v, foldl (add_prefixed prefix) m l !! k = Some v <->
    m !! k = Some v \/ exists k', k = prefix +:+ k' /\ (k', v) ∈ l.
Proof.
  induction l as [|[k0 v0] l IH]; intros m Hnd Hfree k v; cbn [foldl].
  { split; [by left|]. intros [?|(k' & _ & ?%not_elem_of_nil)]; done. }
  rewrite fmap_cons in Hnd, Hfree. apply NoDup_cons in Hnd as [Hk0 Hnd].
  unfold add_prefixed at 2. cbn [fst snd].
  assert (Hnone : m !! (prefix +:+ k0) = None) by (apply Hfree; by left).
  rewrite IH; [|done|].
  - rewrite emplace_lookup, Hnone. case_decide as E; [subst k|].
    + split.
      * intros [[= <-]|(k' & E & Hin)]; right; [exists k0; split; [done|by left]|].
        exists k'. split; [done|by right].
      * intros [H|(k' & E & [[= -> ->]|Hin]%elem_of_cons)]; [congruence|by left|].
        right. by exists k'.
    + split.
      * intros [H|(k' & -> & Hin)]; [by left|]. right. exists k'. split; [done|by right].
      * intros [H|(k' & -> & [[= -> ->]|Hin]%elem_of_cons)]; [by left|done|]. right. by exists k'.
  - intros k' Hk'. rewrite emplace_lookup, Hnone. case_decide as E.
    + apply (inj (String.append prefix)) in E as <-. done.
    + apply Hfree. by right.
Qed.

Lemma persisted_fields record k v : doc_fields (persisted record) !! k = Some v <->
  (exists k', k = "f:" +:+ k' /\ doc_fields (record_document record) !! k' = Some v) \/
  (exists k', k = "m:" +:+ k' /\ doc_stored_metadata (record_document record) !! k' = Some v).
Proof.
  unfold persisted. cbn [doc_fields].
  assert (Hf : forall k v, foldl (add_prefixed "f:") ∅ (map_items (doc_fields (record_document record))) !! k = Some v <->
    exists k', k = "f:" +:+ k' /\ (k', v) ∈ map_items (doc_fields (record_document record))).
  { intros k0 v0. rewrite add_prefixed_all; [|apply NoDup_fst_map_items|by intros; apply lookup_empty].
    rewrite lookup_empty. naive_solver. }
  rewrite add_prefixed_all; [|apply NoDup_fst_map_items|].
  { rewrite Hf. by setoid_rewrite elem_of_map_items. }
  intros k' _. destruct (foldl _ _ _ !! _) as [x|] eqn:E; [|done]. apply Hf in E as (k'' & E & _). done.
Qed.

(** Reading entries back by their prefixes. *)
Lemma restore_fields l : forall fields metadata,
  Forall (fun x => (exists k, x.1 = "f:" +:+ k) \/ (exists k, x.1 = "m:" +:+ k)) l -> NoDup l.*1 ->
  (forall k, "f:" +:+ k ∈ l.*1 -> fields !! k = None) -> (forall k, "m:" +:+ k ∈ l.*1 -> metadata !! k = None) ->
  exists fields' metadata', fold_each restore_field (fields, metadata) l = Ok (fields', metadata') /\
    (forall k v, fields' !! k = Some v <-> fields !! k = Some v \/ ("f:" +:+ k, v) ∈ l) /\
    (forall k v, metadata' !! k = Some v <-> metadata !! k = Some v \/ ("m:" +:+ k, v) ∈ l).
Proof.
  induction l as [|[key value] l IH]; intros fields metadata Hp Hnd Hf Hm.
  { exists fields, metadata. split_and!; [done|..]; intros k v; (split; [by left|]); by intros [?|?%not_elem_of_nil]. }
  apply Forall_cons in Hp as [Hkey Hp]. rewrite fmap_cons in Hnd, Hf, Hm. apply NoDup_cons in Hnd as [Hnew Hnd].
  cbn [fst] in *. cbn [fold_each]. destruct Hkey as [[k0 ->]|[k0 ->]].
  - unfold restore_field at 1. rewrite (proj2 (strip_prefix_Some "f:" ("f:" +:+ k0) k0) eq_refl). cbn [mbind expected_bind].
    assert (Hnone : fields !! k0 = None) by (apply Hf; by left).
    destruct (IH (emplace k0 value fields) metadata) as (fields' & metadata' & E & H1 & H2); [done|done|..].
    + intros k Hk. rewrite emplace_lookup, Hnone. case_decide; [by subst|]. apply Hf. by right.
    + intros k Hk. apply Hm. by right.
    + exists fields', metadata'. split_and!; [done|..]; intros k v.
      * rewrite H1, emplace_lookup, Hnone, elem_of_cons. case_decide as Ek; [subst k|].
        -- split; [intros [[= ->]|?]; right; [by left|by right]|]. intros [?|[[= ->]|?]]; [congruence|by left|by right].
        -- split; [intros [?|?]; [by left|right; by right]|]. intros [?|[[= E1 ->]|?]]; [by left|congruence|by right].
      * rewrite H2, elem_of_cons. split; [intros [?|?]; [by left|right; by right]|]. intros [?|[?|?]]; [by left|done|by right].
  - unfold restore_field at 1.
    assert (strip_prefix "f:" ("m:" +:+ k0) = None) as -> by done.
    rewrite (proj2 (strip_prefix_Some "m:" ("m:" +:+ k0) k0) eq_refl). cbn [mbind expected_bind].
    assert (Hnone : metadata !! k0 = None) by (apply Hm; by left).
    destruct (IH fields (emplace k0 value metadata)) as (fields' & metadata' & E & H1 & H2); [done|done|..].
    + intros k Hk. apply Hf. by right.
    + intros k Hk. rewrite emplace_lookup, Hnone. case_decide; [by subst|]. apply Hm. by right.
    + exists fields', metadata'. split_and!; [done|..]; intros k v.
      * rewrite H1, elem_of_cons. split; [intros [?|?]; [by left|right; by right]|]. intros [?|[?|?]]; [by left|done|by right].
      * rewrite H2, emplace_lookup, Hnone, elem_of_cons. case_decide as Ek; [subst k|].
        -- split; [intros [[= ->]|?]; right; [by left|by right]|]. intros [?|[[= ->]|?]]; [congruence|by left|by right].
        -- split; [intros [?|?]; [by left|right; by right]|]. intros [?|[[= E1 ->]|?]]; [by left|congruence|by right].
Qed.

(** ** Records *)

(** A record that [append] takes: numbers of their widths, no empty name. *)
Record persistable (record : MutationRecord) : Prop := {
  ps_shard : 1 <= record_shard record <= u32_max;
  ps_epoch : 1 <= record_epoch record <= u64_max;
  ps_sequence : 1 <= sequence record <= u64_max;
  ps_version : is_u64 (doc_version (record_document record));
  ps_operation : operation_id record <> "";
  ps_document : doc_id (record_document record) <> ""
}.

Lemma persisted_metadata record :
  doc_stored_metadata (persisted record) !! "@shard" = Some (to_string_u (record_shard record)) /\
  doc_stored_metadata (persisted record) !! "@epoch" = Some (to_string_u (record_epoch record)) /\
  doc_stored_metadata (persisted record) !! "@document" = Some (doc_id (record_document record)) /\
  doc_stored_metadata (persisted record) !! "@version" = Some (to_string_u (doc_version (record_document record))) /\
  doc_stored_metadata (persisted record) !! "@deleted" = Some (if doc_deleted (record_document record) then "1" else "0").
Proof.
  unfold persisted. cbn [doc_stored_metadata].
  split_and!; repeat (rewrite lookup_insert_ne by done); try apply lookup_insert_eq; apply lookup_singleton_eq.
Qed.

Lemma restore_persisted record : persistable record ->
  restore_record (record_shard record) (record_epoch record) (sequence record) (persisted record) = Ok record.
Proof.
  intros [Hs He Hq Hv Ho Hd]. destruct (persisted_metadata record) as (E1 & E2 & E3 & E4 & E5).
  unfold restore_record. rewrite E1, E2, E3, E4, E5.
  change (doc_id (persisted record)) with (operation_id record). change (doc_version (persisted record)) with (sequence record).
  assert (str_eqb (operation_id record) "" = false) as -> by by apply bool_decide_eq_false_2.
  rewrite Z.eqb_refl. cbn [negb orb ensure mbind expected_bind].
  rewrite !parse_u64_to_string by (unfold is_u64, u64_max, u32_max in *; lia). rewrite !Z.eqb_refl.
  assert (negb (str_eqb (if doc_deleted (record_document record) then "1" else "0") "0") &&
          negb (str_eqb (if doc_deleted (record_document record) then "1" else "0") "1") = false) as ->
    by (by destruct (doc_deleted (record_document record))).
  cbn [negb orb ensure mbind expected_bind].
  assert (Hin : forall k v, (k, v) ∈ map_items (doc_fields (persisted record)) <-> doc_fields (persisted record) !! k = Some v)
    by (intros; apply elem_of_map_items).
  destruct (restore_fields (map_items (doc_fields (persisted record))) ∅ ∅) as (fields & metadata & -> & Hf & Hm).
  - apply Forall_forall. intros [k v] Hk. apply Hin, persisted_fields in Hk as [(k' & -> & _)|(k' & -> & _)]; [left|right]; by exists k'.
  - apply NoDup_fst_map_items.
  - intros; apply lookup_empty.
  - intros; apply lookup_empty.
  - assert (fields = doc_fields (record_document record)) as ->.
    { apply map_eq. intros k. apply option_eq. intros v. rewrite Hf, Hin, persisted_fields, lookup_empty. split.
      - intros [?|[(k' & [= <-] & ?)|(k' & [=] & _)]]; done.
      - intros ?. right. left. by exists k. }
    assert (metadata = doc_stored_metadata (record_document record)) as ->.
    { apply map_eq. intros k. apply option_eq. intros v. rewrite Hm, Hin, persisted_fields, lookup_empty. split.
      - intros [?|[(k' & [=] & _)|(k' & [= <-] & ?)]]; done.
      - intros ?. right. right. by exists k. }
    cbn [mbind expected_bind]. destruct record as [shard epoch op seq [id fs ms version deleted]]. cbn. by destruct deleted.
Qed.

Lemma restore_log shard epoch records : forall n, Forall persistable records ->
  (forall i record, records !! i = Some record -> record_shard record = shard /\ record_epoch record = epoch /\
     sequence record = n + Z.of_nat i) ->
  restore_records shard epoch n (persisted <$> records) = Ok records.
Proof.
  induction records as [|record records IH]; intros n Hp Hr; [done|]. apply Forall_cons in Hp as [Hrec Hp].
  rewrite fmap_cons. cbn [restore_records]. destruct (Hr 0%nat record eq_refl) as (<- & <- & Hq).
  replace n with (sequence record) at 1 by lia. rewrite restore_persisted by done. cbn [mbind expected_bind].
  destruct records as [|next records]; [done|].
  assert (wrap64 (n + 1) = n + 1) as ->.
  { destruct (Hr 1%nat next eq_refl) as (_ & _ & Hq'). apply Forall_cons in Hp as [Hn _].
    pose proof (ps_sequence _ Hn). apply wrap64_id. unfold is_u64. lia. }
  rewrite IH; [done|done|]. intros i r Hi. destruct (Hr (S i) r Hi) as (? & ? & E). split_and!; [done..|]. rewrite E. lia.
Qed.

(** ** Recovery from the log *)

Section recovery.
Context (node : NodeId) (shard : ShardId) (epoch : Z) (name : string) (schema : IndexSchema).

(** Recovering a replica, without failures, rebuilds all these records. *)
Definition rebuilds (d : Disk) (records : list MutationRecord) : Prop :=
  exists replica, (recover_replica node shard epoch name schema (world d [])).1 = Ok replica /\
    OrderedReplica.node_ replica = node /\ follows shard epoch schema records (length records) replica.

Lemma recover_all records : log_ok shard epoch records -> buildable schema records -> forall k n replica,
  follows shard epoch schema records n replica -> (k = n)%nat ->
  exists replica', fold_each recover_step replica (drop k records) = Ok replica' /\
    OrderedReplica.node_ replica' = OrderedReplica.node_ replica /\
    follows shard epoch schema records (length records) replica'.
Proof using Type.
  intros L B k n replica. remember (length records - k)%nat as m eqn:Em. revert k n replica Em.
  induction m as [|m IH]; intros k n replica Em F ->; pose proof (fo_length _ _ _ _ _ _ F) as Hlen.
  - rewrite drop_ge by lia. exists replica. assert (n = length records) as <- by lia. done.
  - destruct (lookup_lt_is_Some_2 records n) as [record Hr]; [lia|].
    rewrite (drop_S _ _ _ Hr). cbn [fold_each]. unfold recover_step at 1.
    destruct (apply_built _ _ _ _ _ _ _ L B F Hr) as (replica1 & -> & F1 & Hn1 & _). cbn [mbind expected_bind].
    destruct (IH (S n) (S n) replica1) as (replica' & E & Hn & F'); [lia|done|done|].
    exists replica'. by rewrite Hn, Hn1.
Qed.

Lemma recovers_rebuilds d records : log_ok shard epoch records -> Forall persistable records -> buildable schema records ->
  recovers default_wal_limits name d (persisted <$> records) -> rebuilds d records.
Proof using Type.
  intros L Hp B Hr. unfold rebuilds, recover_replica, replay. unfold recovers in Hr.
  unfold mbind, io_bind, io_map_err.
  destruct (WriteAheadLog.replay name default_wal_limits (world d [])) as [r w]. cbn in Hr. subst r. cbn [map_err].
  unfold io_lift. rewrite restore_log; [|done|].
  2:{ intros i record Hi. destruct (lo_records _ _ _ L _ _ Hi) as (? & ? & _ & ?). split_and!; [done..|lia]. }
  destruct (recover_all records L B 0 0 (OrderedReplica.make node shard epoch schema)) as (replica & E & Hn & F); [|done|].
  - split; cbn; try done; lia.
  - rewrite drop_0 in E. cbn. rewrite E. by exists replica.
Qed.
End recovery.

Lemma log_ok_app shard epoch l k : log_ok shard epoch (l ++ k) -> log_ok shard epoch l.
Proof.
  intros [H1 H2 H3]. split.
  - intros i r Hi. apply H1, lookup_app_l_Some, Hi.
  - rewrite fmap_app in H2. by apply NoDup_app in H2 as [? _].
  - rewrite zlen_app in H3. pose proof (zlen_nonneg k). lia.
Qed.

Lemma buildable_app schema l k : buildable schema (l ++ k) -> buildable schema l.
Proof. intros [index Hi]. rewrite fmap_app in Hi. by eapply builds_prefix. Qed.

(** ** Properties *)

(** C28.  What a replica logged it can be rebuilt from, as long as the log's
    entry is there.  Take the numbered records of a shard that an index takes,
    within the limits of [replay], in a log that is on the medium but for its
    entry in the directory, or an empty log that does not exist yet.  Whatever
    calls fail while the next record is appended, after a crash at any moment
    [recover_replica] rebuilds the replica that applied the logged records, or
    these and the new one, or an empty one; once [append] has returned without
    error, it is the replica with the new record after any crash, or an empty
    one.  It can be an empty one only if the entry was not durable when
    [append] started ([append] never makes it so, and if it was not, some crash
    after [append] has returned does leave an empty one).  Without failing
    calls [append] returns without error. *)
Theorem replica_log_durable node shard epoch name schema records record d calls :
  log_ok shard epoch (records ++ [record]) -> buildable schema (records ++ [record]) ->
  Forall persistable (records ++ [record]) ->
  Forall (fun r => loggable default_wal_limits (persisted r)) (records ++ [record]) ->
  zlen records < wal_maximum_records default_wal_limits ->
  zlen (log (persisted <$> records ++ [record])) <= wal_maximum_file_bytes default_wal_limits ->
  log_holds name (log (persisted <$> records)) d ->
  let rebuilt := rebuilds node shard epoch name schema in
  let gone after := rebuilt after [] /\ ~ durable_entry name d in
  let '(r, w) := append name record (world d calls) in
  (forall moment after, moment ∈ disk w :: passed w -> crash moment after ->
     rebuilt after records \/ rebuilt after (records ++ [record]) \/ gone after) /\
  (r = Ok tt -> (forall after, crash (disk w) after -> rebuilt after (records ++ [record]) \/ gone after) /\
     (~ durable_entry name d -> exists after, crash (disk w) after /\ rebuilt after [])) /\
  (Forall (eq None) calls -> r = Ok tt).
Proof.
  intros L B Hp Hl Hcount Hsize Hat rebuilt gone.
  apply Forall_app in Hl as [Hl Hl1]. apply Forall_inv in Hl1. pose proof Hp as [Hp0 Hp1]%Forall_app. apply Forall_inv in Hp1.
  unfold append.
  assert (Hguard : negb ((record_shard record =? 0) || (record_epoch record =? 0) || (sequence record =? 0) ||
            str_eqb (operation_id record) "" || str_eqb (doc_id (record_document record)) "") = true).
  { destruct Hp1 as [H1 H2 H3 _ H4 H5]. unfold str_eqb. rewrite !bool_decide_eq_false_2 by done.
    by rewrite !(proj2 (Z.eqb_neq _ _)) by lia. }
  rewrite Hguard. unfold mbind, io_bind, io_ensure, io_lift, io_map_err. cbn [ensure].
  pose proof (append_durable default_wal_limits name (persisted <$> records) (persisted record) d calls) as H.
  rewrite fmap_app in Hsize. cbn [fmap list_fmap] in Hsize.
  destruct (WriteAheadLog.append name (persisted record) (world d calls)) as [r w].
  destruct H as (Hmoment & Hdone & Hquiet); [by apply Forall_fmap|exact Hl1| |exact Hsize|exact Hat|].
  { unfold zlen in *. by rewrite length_fmap. }
  pose proof (log_ok_app _ _ _ _ L) as L0. pose proof (buildable_app _ _ _ B) as B0.
  assert (Hall : forall after, recovers default_wal_limits name after ((persisted <$> records) ++ [persisted record]) ->
    rebuilt after (records ++ [record])).
  { intros after Hr. apply recovers_rebuilds; [assumption..|]. by rewrite fmap_app. }
  assert (Hnone : forall after, missing name after -> rebuilt after []).
  { intros after Hm%(missing_recovers default_wal_limits). apply recovers_rebuilds; [|constructor| |exact Hm].
    - by apply (log_ok_app _ _ [] records).
    - by apply (buildable_app _ [] records). }
  split_and!.
  - intros moment after Hm C. destruct (Hmoment _ _ Hm C) as [Hr|[Hr|[Hno Hr]]]; [left|right; left; by apply Hall|right; right; by split; [apply Hnone|]].
    by apply recovers_rebuilds.
  - destruct r as [[]|e]; [|done]. intros _. destruct (Hdone eq_refl) as (_ & Hafter & Hcan). split.
    + intros after C. destruct (Hafter after C) as [Hr|[Hno Hr]]; [left; by apply Hall|right; by split; [apply Hnone|]].
    + intros Hno. destruct (Hcan Hno) as (after & C & Hr). exists after. split; [done|by apply Hnone].
  - intros Hc. by rewrite Hquiet.
Qed.

(** ** Samples *)

Definition small (m : gmap string string) : bool :=
  (Z.of_nat (size m) <=? 1000000) &&
  forallb (fun x => negb (str_eqb x.1 "") && (zstrlen x.1 <=? 16777216) && (zstrlen x.2 <=? 16777216)) (map_items m).

Definition small_document (d : Document) : bool :=
  negb (str_eqb (doc_id d) "") && (zstrlen (doc_id d) <=? 16777216) && small (doc_fields d) &&
  small (doc_stored_metadata d) && (0 <=? doc_version d) && (doc_version d <=? u64_max) &&
  (zlen (payload d) <=? 16777216).

Lemma small_spec m : small m = true -> map_encodable m /\ map_allowed default_wal_limits m.
Proof.
  unfold small, map_encodable, map_allowed, allowed, short, is_u32, u32_max.
  change (wal_maximum_string_bytes default_wal_limits) with 16777216.
  intros [Hs Hall]%andb_prop. apply Z.leb_le in Hs. rewrite forallb_forall in Hall.
  assert (He : forall k v, m !! k = Some v -> k <> "" /\ zstrlen k <= 16777216 /\ zstrlen v <= 16777216).
  { intros k v Hk. specialize (Hall (k, v)). rewrite <- list_elem_of_In, elem_of_map_items in Hall. specialize (Hall Hk).
    cbn in Hall. apply andb_prop in Hall as [Hall H3]. apply andb_prop in Hall as [H1 H2].
    apply Z.leb_le in H2, H3. apply negb_true_iff, bool_decide_eq_false_1 in H1. done. }
  split; (split; [lia|]); intros k v Hk; destruct (He _ _ Hk) as (H1 & H2 & H3);
    pose proof (zstrlen_nonneg k); pose proof (zstrlen_nonneg v); split_and!; try done; lia.
Qed.

Lemma small_loggable d : small_document d = true -> loggable default_wal_limits d.
Proof.
  unfold small_document. rewrite !andb_true_iff, negb_true_iff, !Z.leb_le.
  intros ((((((H1 & H2) & H3) & H4) & H5) & H6) & H7). apply bool_decide_eq_false_1 in H1.
  apply small_spec in H3 as [? ?], H4 as [? ?]. pose proof (zstrlen_nonneg (doc_id d)). pose proof (zlen_nonneg (payload d)).
  split.
  - split; [unfold short, is_u32, u32_max; lia|by split].
  - by split.
  - by split.
  - unfold is_u32, u32_max. lia.
  - change (wal_maximum_record_bytes default_wal_limits) with 67108864. lia.
Qed.

Definition sample_record (operation id : string) (number : Z) : MutationRecord :=
  {| record_shard := 7; record_epoch := 1; operation_id := operation; sequence := number;
     record_document := sample_mutation id 1 |}.

Definition sample_records : list MutationRecord := [sample_record "op1" "a" 1].

Lemma sample_log_ok : log_ok 7 1 (sample_records ++ [sample_record "op2" "b" 2]).
Proof.
  split.
  - intros i r H. destruct i as [|[|i]]; [injection H as <-; done..|discriminate].
  - repeat constructor; set_solver.
  - vm_compute. discriminate.
Qed.

Lemma sample_persistable operation id number : operation <> "" -> id <> "" -> 1 <= number <= u64_max ->
  persistable (sample_record operation id number).
Proof. intros. split; cbn; try done; unfold u32_max, u64_max in *; try lia. Qed.

Lemma sample_persistables : Forall persistable (sample_records ++ [sample_record "op2" "b" 2]).
Proof.
  apply Forall_cons_2; [|apply Forall_cons_2; [|apply Forall_nil_2]];
    (apply sample_persistable; [discriminate|discriminate|unfold u64_max; lia]).
Qed.

Lemma sample_loggables :
  Forall (fun r => loggable default_wal_limits (persisted r)) (sample_records ++ [sample_record "op2" "b" 2]).
Proof.
  apply Forall_cons_2; [|apply Forall_cons_2; [|apply Forall_nil_2]];
    (apply small_loggable; vm_compute; reflexivity).
Qed.

Lemma sample_buildable : buildable IndexSchema.default_schema (sample_records ++ [sample_record "op2" "b" 2]).
Proof.
  assert (E : is_Ok (fold_each InMemoryIndex.put (InMemoryIndex.make IndexSchema.default_schema u32_max)
    (record_document <$> sample_records ++ [sample_record "op2" "b" 2])) = true) by (vm_compute; reflexivity).
  unfold buildable, builds. destruct (fold_each _ _ _) as [index|e]; [exists index; reflexivity|discriminate E].
Qed.

Lemma sample_log_size :
  zlen (log (persisted <$> sample_records ++ [sample_record "op2" "b" 2])) <= wal_maximum_file_bytes default_wal_limits.
Proof. vm_compute. discriminate. Qed.

Lemma replica_log_durable_witness :
  let before := log_disk "LOG" (log (persisted <$> sample_records)) in
  let '(r, w) := append "LOG" (sample_record "op2" "b" 2) (world before []) in
  r = Ok tt /\
  forall after, crash (disk w) after ->
    rebuilds "n2" 7 1 "LOG" IndexSchema.default_schema after (sample_records ++ [sample_record "op2" "b" 2]).
Proof.
  intros before. destruct (log_at_holds _ _ _ (log_disk_at "LOG" (log (persisted <$> sample_records)))) as [Hheld Hentry].
  pose proof (replica_log_durable "n2" 7 1 "LOG" IndexSchema.default_schema sample_records (sample_record "op2" "b" 2)
    before [] sample_log_ok sample_buildable sample_persistables sample_loggables (eq_refl Lt) sample_log_size Hheld) as H.
  destruct (append "LOG" (sample_record "op2" "b" 2) (world before [])) as [r w].
  destruct H as (_ & Hdone & Hquiet). specialize (Hquiet (Forall_nil_2 _)). split; [exact Hquiet|]. intros after C.
  destruct (proj1 (Hdone Hquiet) after C) as [H|[_ Hno]]; [exact H|destruct (Hno Hentry)].
Defined.
