(* ===== verification/QueryCache.v ===== *)
(** * The query result cache

    include/dse/query/cache.hpp and src/query/cache.cpp: results under their
    generation, schema, plan, cut and scoring, the most recently used first,
    within a bound on the bytes they are estimated to take.

    A [std::list] node keeps its address while it is spliced, so nodes carry a
    number that stands for the iterator, and [lookup_] maps keys to these
    numbers.  The hash function only chooses buckets and is left out: the map
    compares whole keys.  The mutex makes each operation one function. *)

From S2P Require Import Prelude Doubles Types Executor.
From Stdlib Require Import SpecFloat.

Record QueryCacheKey := {
  key_generation : GenerationId;
  key_schema_fingerprint : string;
  key_plan : string;
  key_top_k : Z;
  key_scoring_fingerprint : string
}.

#[export] Instance QueryCacheKey_eq_dec : EqDecision QueryCacheKey.
Proof. solve_decision. Defined.

#[export] Instance QueryCacheKey_countable : Countable QueryCacheKey.
Proof.
  refine (inj_countable'
    (fun k => (key_generation k, key_schema_fingerprint k, key_plan k, key_top_k k, key_scoring_fingerprint k))
    (fun '(g, s, p, t, f) => {| key_generation := g; key_schema_fingerprint := s; key_plan := p; key_top_k := t;
                                key_scoring_fingerprint := f |}) _).
  by intros [].
Defined.

Record QueryCacheStatistics := {
  statistics_entries : Z;
  statistics_bytes : Z;
  statistics_hits : Z;
  statistics_misses : Z;
  statistics_evictions : Z
}.

Module QueryResultCache.

Record Entry := { entry_node : Z; entry_key : QueryCacheKey; entry_result : SearchResult; entry_bytes : Z }.

Record QueryResultCache := {
  maximum_bytes_ : Z;
  bytes_ : Z;
  entries_ : list Entry;
  lookup_ : gmap QueryCacheKey Z;
  next_node : Z;
  hits_ : Z;
  misses_ : Z;
  evictions_ : Z
}.

Definition make (maximum_bytes : Z) : QueryResultCache :=
  {| maximum_bytes_ := maximum_bytes; bytes_ := 0; entries_ := []; lookup_ := ∅; next_node := 0;
     hits_ := 0; misses_ := 0; evictions_ := 0 |}.

(** [sizeof] of the two structs, which the ABI fixes. *)
Section sizes.
Context (sizeof_entry sizeof_hit : Z).

Definition measure (key : QueryCacheKey) (result : SearchResult) : Z :=
  foldl (fun bytes hit => wrap64 (bytes + wrap64 (sizeof_hit + zstrlen (hit_document_id hit))))
    (wrap64 (sizeof_entry + zstrlen (key_schema_fingerprint key) + zstrlen (key_plan key) +
             zstrlen (key_scoring_fingerprint key)))
    (hits result).

(** The node an iterator points to. *)
Definition at_node (node : Z) (entries : list Entry) : option Entry :=
  head (filter (fun entry => entry_node entry = node) entries).

Definition without (node : Z) (entries : list Entry) : list Entry :=
  filter (fun entry => entry_node entry <> node) entries.

Definition get (cache : QueryResultCache) (key : QueryCacheKey) : option SearchResult * QueryResultCache :=
  match lookup_ cache !! key with
  | None =>
      (None, {| maximum_bytes_ := maximum_bytes_ cache; bytes_ := bytes_ cache; entries_ := entries_ cache;
                lookup_ := lookup_ cache; next_node := next_node cache; hits_ := hits_ cache;
                misses_ := wrap64 (misses_ cache + 1); evictions_ := evictions_ cache |})
  | Some node =>
      match at_node node (entries_ cache) with
      | None => (None, cache) (* not reached: every iterator of the map points to a node *)
      | Some entry =>
          (Some (entry_result entry),
           {| maximum_bytes_ := maximum_bytes_ cache; bytes_ := bytes_ cache;
              entries_ := entry :: without node (entries_ cache);
              lookup_ := lookup_ cache; next_node := next_node cache; hits_ := wrap64 (hits_ cache + 1);
              misses_ := misses_ cache; evictions_ := evictions_ cache |})
      end
  end.

Definition with_entries (cache : QueryResultCache) (bytes : Z) (entries : list Entry)
    (lookup : gmap QueryCacheKey Z) (evictions : Z) : QueryResultCache :=
  {| maximum_bytes_ := maximum_bytes_ cache; bytes_ := bytes; entries_ := entries; lookup_ := lookup;
     next_node := next_node cache; hits_ := hits_ cache; misses_ := misses_ cache; evictions_ := evictions |}.

(** The first part of [put]: an old result under the key is taken out. *)
Definition forget (cache : QueryResultCache) (key : QueryCacheKey) : QueryResultCache :=
  match lookup_ cache !! key with
  | None => cache
  | Some node =>
      match at_node node (entries_ cache) with
      | None => cache (* not reached *)
      | Some entry =>
          with_entries cache (wrap64 (bytes_ cache - entry_bytes entry)) (without node (entries_ cache))
            (delete key (lookup_ cache)) (evictions_ cache)
      end
  end.

(** The loop that evicts from the back: one entry a round. *)
Fixpoint evict (fuel : nat) (cache : QueryResultCache) : QueryResultCache :=
  match fuel with
  | O => cache
  | S fuel' =>
      if bytes_ cache >? maximum_bytes_ cache then
        match last (entries_ cache) with
        | None => cache
        | Some entry =>
            evict fuel'
              (with_entries cache (wrap64 (bytes_ cache - entry_bytes entry)) (removelast (entries_ cache))
                 (delete (entry_key entry) (lookup_ cache)) (wrap64 (evictions_ cache + 1)))
        end
      else cache
  end.

Definition put (cache : QueryResultCache) (key : QueryCacheKey) (result : SearchResult) : QueryResultCache :=
  let forgotten := forget cache key in
  let bytes := measure key result in
  if bytes >? maximum_bytes_ forgotten then forgotten
  else
    let entry := {| entry_node := next_node forgotten; entry_key := key; entry_result := result;
                    entry_bytes := bytes |} in
    let pushed :=
      {| maximum_bytes_ := maximum_bytes_ forgotten; bytes_ := wrap64 (bytes_ forgotten + bytes);
         entries_ := entry :: entries_ forgotten; lookup_ := <[key := next_node forgotten]> (lookup_ forgotten);
         next_node := next_node forgotten + 1; hits_ := hits_ forgotten; misses_ := misses_ forgotten;
         evictions_ := evictions_ forgotten |} in
    evict (length (entries_ pushed)) pushed.

(** The loop over the list, erasing while it goes. *)
Fixpoint invalidate (generation : GenerationId) (rest : list Entry) (bytes : Z) (lookup : gmap QueryCacheKey Z)
    : Z * list Entry * gmap QueryCacheKey Z :=
  match rest with
  | [] => (bytes, [], lookup)
  | entry :: rest' =>
      if key_generation (entry_key entry) <? generation then
        invalidate generation rest' (wrap64 (bytes - entry_bytes entry)) (delete (entry_key entry) lookup)
      else
        let '(bytes', kept, lookup') := invalidate generation rest' bytes lookup in
        (bytes', entry :: kept, lookup')
  end.

Definition invalidate_before (cache : QueryResultCache) (generation : GenerationId) : QueryResultCache :=
  let '(bytes, entries, lookup) := invalidate generation (entries_ cache) (bytes_ cache) (lookup_ cache) in
  with_entries cache bytes entries lookup (evictions_ cache).

Definition statistics (cache : QueryResultCache) : QueryCacheStatistics :=
  {| statistics_entries := zlen (entries_ cache); statistics_bytes := bytes_ cache;
     statistics_hits := hits_ cache; statistics_misses := misses_ cache;
     statistics_evictions := evictions_ cache |}.

End sizes.
End QueryResultCache.

Notation QueryResultCache := QueryResultCache.QueryResultCache.
