(* ===== verification/QueryCacheSpec.v ===== *)
(** * The cache is a bounded least-recently-used map

    The list, the map of iterators and the byte count of the cache stay in
    step, and together they implement the list of results, most recent first,
    of which the longest prefix within the bound is kept. *)

From S2P Require Import Prelude Doubles Types Executor QueryCache.
From Stdlib Require Import SpecFloat.
Import QueryResultCache.

(** ** The specification *)

Section lru.
Context (size : QueryCacheKey * SearchResult -> Z).
Notation item := (QueryCacheKey * SearchResult)%type.

Definition lru_without (key : QueryCacheKey) (l : list item) : list item := filter (fun x => x.1 <> key) l.

Definition lru_find (key : QueryCacheKey) (l : list item) : option SearchResult :=
  snd <$> head (filter (fun x => x.1 = key) l).

(** A hit moves to the front. *)
Definition lru_get (l : list item) (key : QueryCacheKey) : option SearchResult * list item :=
  match lru_find key l with
  | Some result => (Some result, (key, result) :: lru_without key l)
  | None => (None, l)
  end.

(** The longest prefix within the budget. *)
Fixpoint lru_fit (budget : Z) (l : list item) : list item :=
  match l with
  | [] => []
  | x :: l' => if size x <=? budget then x :: lru_fit (budget - size x) l' else []
  end.

Definition lru_put (budget : Z) (l : list item) (key : QueryCacheKey) (result : SearchResult) : list item :=
  if size (key, result) >? budget then lru_without key l
  else lru_fit budget ((key, result) :: lru_without key l).

Definition lru_invalidate (generation : GenerationId) (l : list item) : list item :=
  filter (fun x => generation <= key_generation x.1) l.

Fixpoint total (l : list item) : Z := match l with [] => 0 | x :: l' => size x + total l' end.

Lemma total_app l k : total (l ++ k) = total l + total k.
Proof using Type. induction l as [|x l IH]; [done|]. cbn. rewrite IH. lia. Qed.

Context (Hsize : forall x, 0 <= size x).

Lemma total_nonneg l : 0 <= total l.
Proof using Hsize. induction l as [|x l IH]; cbn; [lia|]. pose proof (Hsize x). lia. Qed.

Lemma lru_fit_all l : forall budget, total l <= budget -> lru_fit budget l = l.
Proof using Hsize.
  induction l as [|x l IH]; intros budget H; [done|]. cbn in *. pose proof (total_nonneg l).
  destruct (Z.leb_spec (size x) budget); [|lia]. rewrite IH; [done|lia].
Qed.

(** Dropping the last of a list that does not fit changes nothing. *)
Lemma lru_fit_snoc l x : forall budget, budget < total (l ++ [x]) -> lru_fit budget (l ++ [x]) = lru_fit budget l.
Proof using Hsize.
  induction l as [|y l IH]; intros budget H; cbn in *.
  - destruct (Z.leb_spec (size x) budget); [lia|done].
  - destruct (Z.leb_spec (size y) budget); [|done]. by rewrite IH by lia.
Qed.

Lemma total_filter (P : item -> Prop) `{!forall x, Decision (P x)} l : total (filter P l) <= total l.
Proof using Hsize.
  induction l as [|x l IH]; [done|]. rewrite filter_cons. pose proof (Hsize x). case_decide; cbn; lia.
Qed.
End lru.

(** ** The cache *)

Section cache.
Context (sizeof_entry sizeof_hit : Z).
Notation measure := (measure sizeof_entry sizeof_hit).
Notation put := (put sizeof_entry sizeof_hit).

Definition size_of (x : QueryCacheKey * SearchResult) : Z := measure x.1 x.2.

Lemma size_nonneg x : 0 <= size_of x.
Proof using Type.
  unfold size_of, QueryResultCache.measure. generalize (sizeof_entry + zstrlen (key_schema_fingerprint x.1) +
    zstrlen (key_plan x.1) + zstrlen (key_scoring_fingerprint x.1)). intros n.
  assert (0 <= wrap64 n) as H by apply wrap64_range. revert H. generalize (wrap64 n).
  induction (hits x.2) as [|h l IH]; intros m Hm; [done|]. cbn. apply IH, wrap64_range.
Qed.

(** The results in the order of the list. *)
Definition items (cache : QueryResultCache) : list (QueryCacheKey * SearchResult) :=
  (fun e => (entry_key e, entry_result e)) <$> entries_ cache.

Record entries_ok (entries : list Entry) (lookup : gmap QueryCacheKey Z) (bytes bound : Z) : Prop := {
  eo_nodes : NoDup (entry_node <$> entries);
  eo_keys : NoDup (entry_key <$> entries);
  eo_lookup key node : lookup !! key = Some node <->
    exists entry, entry ∈ entries /\ entry_key entry = key /\ entry_node entry = node;
  eo_bytes : bytes = total size_of ((fun e => (entry_key e, entry_result e)) <$> entries);
  eo_measure : Forall (fun e => entry_bytes e = measure (entry_key e) (entry_result e)) entries;
  eo_fresh : Forall (fun e => entry_node e < bound) entries
}.

Record cache_ok (cache : QueryResultCache) : Prop := {
  co_entries : entries_ok (entries_ cache) (lookup_ cache) (bytes_ cache) (next_node cache);
  co_maximum : 0 <= bytes_ cache <= maximum_bytes_ cache;
  co_limit : maximum_bytes_ cache <= i64_max
}.

Lemma at_node_Some node entries entry : NoDup (entry_node <$> entries) -> entry ∈ entries ->
  entry_node entry = node -> at_node node entries = Some entry.
Proof using Type.
  unfold at_node. induction entries as [|e entries IH]; [by intros _ ?%not_elem_of_nil|].
  rewrite fmap_cons, NoDup_cons. intros [Hnew Hnd] Hin Hn. rewrite filter_cons.
  apply elem_of_cons in Hin as [<-|Hin]; [by rewrite decide_True|].
  rewrite decide_False; [by apply IH|]. intros E. apply Hnew. rewrite E, <- Hn. by apply list_elem_of_fmap_2.
Qed.

(** Nodes and keys pick out the same entries. *)
Lemma same_entry entries e f : NoDup (entry_key <$> entries) -> e ∈ entries -> f ∈ entries ->
  entry_key e = entry_key f -> e = f.
Proof using Type. intros Hnd He Hf. by apply (NoDup_fmap_inj entry_key entries). Qed.

Lemma without_key entries entry : NoDup (entry_node <$> entries) -> NoDup (entry_key <$> entries) ->
  entry ∈ entries -> (fun e => (entry_key e, entry_result e)) <$> without (entry_node entry) entries =
  lru_without (entry_key entry) ((fun e => (entry_key e, entry_result e)) <$> entries).
Proof using Type.
  intros Hn Hk Hin. unfold without, lru_without.
  assert (H : forall e, e ∈ entries -> entry_node e = entry_node entry <-> entry_key e = entry_key entry).
  { intros e He. split; intros E; (assert (e = entry) as ->; [|done]).
    - by apply (NoDup_fmap_inj entry_node entries).
    - by apply (same_entry entries). }
  clear Hn Hk Hin. induction entries as [|e entries IH]; [done|].
  assert (IH' := IH (fun f Hf => H f (list_elem_of_further _ _ _ Hf))). clear IH.
  pose proof (H e (list_elem_of_here _ _)) as He. rewrite fmap_cons, !filter_cons. cbn [fst].
  destruct (decide (entry_key e = entry_key entry)) as [E|E].
  - rewrite !decide_False by tauto. done.
  - rewrite !decide_True by tauto. by rewrite fmap_cons, IH'.
Qed.

Lemma find_entry entries entry : NoDup (entry_key <$> entries) -> entry ∈ entries ->
  lru_find (entry_key entry) ((fun e => (entry_key e, entry_result e)) <$> entries) = Some (entry_result entry).
Proof using Type.
  intros Hk. unfold lru_find. induction entries as [|e entries IH]; [by intros ?%not_elem_of_nil|].
  rewrite fmap_cons in Hk. apply NoDup_cons in Hk as [Hnew Hk]. rewrite fmap_cons, filter_cons. cbn [fst].
  intros [->|Hin]%elem_of_cons; [by rewrite decide_True|].
  rewrite decide_False; [by apply IH|]. intros E. apply Hnew. rewrite E. by apply list_elem_of_fmap_2.
Qed.

Lemma find_nothing entries lookup bytes bound key : entries_ok entries lookup bytes bound -> lookup !! key = None ->
  lru_find key ((fun e => (entry_key e, entry_result e)) <$> entries) = None /\
  lru_without key ((fun e => (entry_key e, entry_result e)) <$> entries) = (fun e => (entry_key e, entry_result e)) <$> entries.
Proof using Type.
  intros O Hnone.
  assert (H : forall e, e ∈ entries -> entry_key e <> key).
  { intros e He E. assert (lookup !! key = Some (entry_node e)) by (apply (eo_lookup _ _ _ _ O); eauto). congruence. }
  unfold lru_find, lru_without. clear O. induction entries as [|e entries IH]; [done|].
  destruct IH as [IH1 IH2]; [intros f Hf; apply H; by right|].
  pose proof (H e (list_elem_of_here _ _)). rewrite fmap_cons, !filter_cons. cbn [fst].
  by rewrite decide_False, decide_True, IH1, IH2.
Qed.

Lemma elem_of_without node entries entry : entry ∈ without node entries <-> entry ∈ entries /\ entry_node entry <> node.
Proof using Type. unfold without. rewrite list_elem_of_filter. tauto. Qed.

Lemma total_without entries entry : NoDup (entry_node <$> entries) -> entry ∈ entries ->
  total size_of ((fun e => (entry_key e, entry_result e)) <$> entries) =
  size_of (entry_key entry, entry_result entry) +
  total size_of ((fun e => (entry_key e, entry_result e)) <$> without (entry_node entry) entries).
Proof using Type.
  unfold without. induction entries as [|e entries IH]; [by intros _ ?%not_elem_of_nil|].
  rewrite fmap_cons, NoDup_cons. intros [Hnew Hnd] Hin. rewrite !fmap_cons, filter_cons. cbn [total].
  apply elem_of_cons in Hin as [<-|Hin].
  - rewrite decide_False by tauto. rewrite filter_all; [done|]. intros f Hf E. apply Hnew. rewrite <- E. by apply list_elem_of_fmap_2.
  - rewrite decide_True.
    + rewrite fmap_cons. cbn [total]. rewrite (IH Hnd Hin). lia.
    + intros E. apply Hnew. rewrite E. by apply list_elem_of_fmap_2.
Qed.

(** Taking an entry out keeps list, map and count in step. *)
Lemma take_out entries lookup bytes bound entry : entries_ok entries lookup bytes bound -> entry ∈ entries ->
  bytes <= u64_max ->
  entries_ok (without (entry_node entry) entries) (delete (entry_key entry) lookup) (wrap64 (bytes - entry_bytes entry)) bound /\
  wrap64 (bytes - entry_bytes entry) <= bytes.
Proof using Type.
  intros O Hin Hmax. pose proof O as [Hn Hk Hl Hb Hm Hf].
  pose proof (total_without _ _ Hn Hin) as Ht. rewrite Forall_forall in Hm. specialize (Hm _ Hin).
  pose proof (total_nonneg size_of size_nonneg ((fun e => (entry_key e, entry_result e)) <$> without (entry_node entry) entries)) as Hp.
  pose proof (size_nonneg (entry_key entry, entry_result entry)) as Hs.
  assert (E : bytes - entry_bytes entry = total size_of ((fun e => (entry_key e, entry_result e)) <$> without (entry_node entry) entries)).
  { rewrite Hm, Hb, Ht. unfold size_of. cbn. lia. }
  assert (Hsub : sublist (without (entry_node entry) entries) entries) by apply sublist_filter.
  rewrite wrap64_id by (unfold is_u64; lia). split; [|lia]. split.
  - eapply sublist_NoDup; [exact Hn|by apply fmap_sublist].
  - eapply sublist_NoDup; [exact Hk|by apply fmap_sublist].
  - intros key node. rewrite lookup_delete_Some, Hl. setoid_rewrite elem_of_without. split.
    + intros [Hne (e & He & <- & <-)]. exists e. split_and!; [done| |done|done].
      intros E'. apply Hne. by rewrite (NoDup_fmap_inj entry_node entries e entry).
    + intros (e & [He Hne] & <- & <-). split; [|by exists e]. intros E'. apply Hne.
      by rewrite (same_entry entries e entry).
  - done.
  - apply Forall_forall. intros e [He _]%elem_of_without. pose proof (eo_measure _ _ _ _ O) as Hall.
    rewrite Forall_forall in Hall. auto.
  - apply Forall_forall. intros e [He _]%elem_of_without. rewrite Forall_forall in Hf. auto.
Qed.

(** Putting an entry in front. *)
Lemma push entries lookup bytes bound key result : entries_ok entries lookup bytes bound -> lookup !! key = None ->
  let entry := {| entry_node := bound; entry_key := key; entry_result := result; entry_bytes := measure key result |} in
  bytes + measure key result <= u64_max ->
  entries_ok (entry :: entries) (<[key := bound]> lookup) (wrap64 (bytes + measure key result)) (bound + 1).
Proof using Type.
  intros [Hn Hk Hl Hb Hm Hf] Hnone entry Hmax. rewrite Forall_forall in Hf.
  pose proof (size_nonneg (key, result)) as Hs. unfold size_of in Hs. cbn in Hs.
  pose proof (total_nonneg size_of size_nonneg ((fun e => (entry_key e, entry_result e)) <$> entries)).
  rewrite wrap64_id by (unfold is_u64; lia).
  assert (Hnew : forall e, e ∈ entries -> entry_key e <> key).
  { intros e He E. assert (lookup !! key = Some (entry_node e)) by (apply Hl; eauto). congruence. }
  split.
  - rewrite fmap_cons. constructor; [|done]. intros (e & E & He)%list_elem_of_fmap. specialize (Hf _ He). cbn in E. lia.
  - rewrite fmap_cons. constructor; [|done]. intros (e & E & He)%list_elem_of_fmap. by apply (Hnew e).
  - intros k node. rewrite lookup_insert_Some, Hl. setoid_rewrite elem_of_cons. split.
    + intros [[<- <-]|[Hne (e & He & <- & <-)]]; [exists entry|exists e]; split_and!; auto.
    + intros (e & [->|He] & <- & <-); [by left|right]. split; [intros E; symmetry in E; by apply Hnew in E|by exists e].
  - rewrite fmap_cons. cbn [total]. unfold size_of at 1. cbn. lia.
  - by constructor.
  - constructor; [cbn; lia|]. apply Forall_forall. intros e He. specialize (Hf _ He). cbn in *. lia.
Qed.

(** ** The operations *)

Lemma forget_ok cache key : cache_ok cache ->
  let cache' := forget cache key in
  cache_ok cache' /\ items cache' = lru_without key (items cache) /\ lookup_ cache' !! key = None /\
  maximum_bytes_ cache' = maximum_bytes_ cache.
Proof using Type.
  intros [O Hm Hlim]. unfold forget, items. destruct (lookup_ cache !! key) as [node|] eqn:E.
  2:{ split_and!; [by split| |done|done]. symmetry. by eapply find_nothing. }
  apply (eo_lookup _ _ _ _ O) in E as (entry & Hin & <- & <-).
  rewrite (at_node_Some _ _ entry) by (done || apply O). cbn [with_entries entries_ lookup_ maximum_bytes_].
  destruct (take_out _ _ _ _ entry O Hin) as [O' Hle]; [unfold i64_max, u64_max in *; lia|].
  split_and!; [|apply without_key; [apply O..|done]|apply lookup_delete_eq|done].
  split; cbn; [done| |done]. pose proof (wrap64_range (bytes_ cache - entry_bytes entry)) as [? _]. lia.
Qed.

Lemma take_last (entries : list Entry) entry : last entries = Some entry -> entries = removelast entries ++ [entry].
Proof using Type.
  intros H. destruct (decide (entries = [])) as [->|Hne]; [done|].
  rewrite (app_removelast_last entry Hne) at 1. f_equal. f_equal.
  apply last_Some in H as [l ->]. by rewrite last_last.
Qed.

Lemma without_last (entries : list Entry) entry : last entries = Some entry -> NoDup (entry_node <$> entries) ->
  without (entry_node entry) entries = removelast entries.
Proof using Type.
  intros Hlast Hnd. pose proof (take_last _ _ Hlast) as E. rewrite E in Hnd |- *.
  rewrite fmap_app in Hnd. apply NoDup_app in Hnd as (_ & Hdis & _). unfold without.
  rewrite filter_app, filter_cons, decide_False, filter_nil, app_nil_r by tauto.
  rewrite removelast_last. apply filter_all. intros e He Hn. apply (Hdis (entry_node e)); [by apply list_elem_of_fmap_2|].
  rewrite Hn. cbn. by left.
Qed.

(** Eviction leaves the longest prefix that fits. *)
Lemma evict_ok fuel : forall cache, (length (entries_ cache) <= fuel)%nat ->
  entries_ok (entries_ cache) (lookup_ cache) (bytes_ cache) (next_node cache) ->
  bytes_ cache <= u64_max -> 0 <= maximum_bytes_ cache <= i64_max ->
  let cache' := evict fuel cache in
  cache_ok cache' /\ items cache' = lru_fit size_of (maximum_bytes_ cache) (items cache) /\
  maximum_bytes_ cache' = maximum_bytes_ cache.
Proof using Type.
  induction fuel as [|fuel IH]; intros cache Hlen O Hmax Hlim.
  { destruct (entries_ cache) eqn:E; [|cbn in Hlen; lia]. cbn. pose proof (eo_bytes _ _ _ _ O) as Hb. cbn in Hb.
    unfold items. rewrite E. split_and!; [|done|done]. split; [by rewrite E|lia|lia]. }
  cbn [evict]. destruct (Z.gtb_spec (bytes_ cache) (maximum_bytes_ cache)) as [Hgt|Hle].
  - destruct (last (entries_ cache)) as [entry|] eqn:El.
    2:{ apply last_None in El. pose proof (eo_bytes _ _ _ _ O) as Hb. rewrite El in Hb. cbn in Hb. lia. }
    pose proof (take_last _ _ El) as Ee. pose proof (without_last _ _ El (eo_nodes _ _ _ _ O)) as Ew.
    assert (Hin : entry ∈ entries_ cache) by (rewrite Ee; apply elem_of_app; right; by left).
    destruct (take_out _ _ _ _ entry O Hin Hmax) as [O' Hle]. rewrite Ew in O'.
    match goal with |- context [evict fuel ?c] => set (next := c) end.
    destruct (IH next) as (Hok & Hitems & Hm); [| |cbn; lia|done|].
    + cbn. rewrite Ee, length_app in Hlen. cbn in Hlen. lia.
    + done.
    + split_and!; [done| |done]. rewrite Hitems. unfold items. cbn.
      rewrite Ee at 2. rewrite fmap_app. symmetry. apply lru_fit_snoc; [apply size_nonneg|].
      change [_] with ((fun e => (entry_key e, entry_result e)) <$> [entry]). rewrite <- fmap_app, <- Ee, <- (eo_bytes _ _ _ _ O). lia.
  - pose proof (eo_bytes _ _ _ _ O) as Hb. pose proof (total_nonneg size_of size_nonneg (items cache)). fold (items cache) in Hb.
    split_and!; [split; [done|lia|lia]| |done]. rewrite lru_fit_all; [done|apply size_nonneg|lia].
Qed.

Lemma cache_put_ok cache key result : cache_ok cache ->
  cache_ok (put cache key result) /\ items (put cache key result) = lru_put size_of (maximum_bytes_ cache) (items cache) key result /\
  maximum_bytes_ (put cache key result) = maximum_bytes_ cache.
Proof using Type.
  intros C. destruct (forget_ok cache key C) as (F & Hi & Hnone & Hm). unfold QueryResultCache.put, lru_put.
  unfold size_of at 1. cbn [fst snd]. rewrite Hm.
  destruct (Z.gtb_spec (measure key result) (maximum_bytes_ cache)) as [Hgt|Hle]; [done|].
  destruct F as [O Hb Hlim]. rewrite Hm in Hb, Hlim.
  assert (Hsum : bytes_ (forget cache key) + measure key result <= u64_max) by (unfold i64_max, u64_max in *; lia).
  pose proof (push _ _ _ _ key result O Hnone Hsum) as P.
  pose proof (size_nonneg (key, result)) as Hs. unfold size_of in Hs. cbn in Hs.
  match goal with |- context [evict ?n ?c] => set (pushed := c) end.
  destruct (evict_ok (length (entries_ pushed)) pushed) as (Hok & Hitems & Hmax); [done|done| |cbn; lia|].
  - cbn. rewrite wrap64_id; [done|]. unfold is_u64. lia.
  - split_and!; [done| |done]. rewrite Hitems. cbn [pushed maximum_bytes_ items]. unfold items at 1. cbn [pushed entries_].
    rewrite fmap_cons. fold (items (forget cache key)). by rewrite Hi.
Qed.

Lemma perm_ok entries entries' lookup bytes bound : entries ≡ₚ entries' ->
  entries_ok entries lookup bytes bound -> entries_ok entries' lookup bytes bound.
Proof using Type.
  intros Hp [Hn Hk Hl Hb Hm Hf]. split.
  - by rewrite <- Hp.
  - by rewrite <- Hp.
  - intros key node. rewrite Hl. by setoid_rewrite Hp.
  - rewrite Hb. clear -Hp. induction Hp as [|x l l' _ IH|x y l|l l' l'' _ IH1 _ IH2];
      rewrite ?fmap_cons; cbn [total]; lia || congruence.
  - by rewrite <- Hp.
  - by rewrite <- Hp.
Qed.

Lemma front_perm entries entry : NoDup (entry_node <$> entries) -> entry ∈ entries ->
  entries ≡ₚ entry :: without (entry_node entry) entries.
Proof using Type.
  intros Hnd Hin. apply NoDup_Permutation; [by eapply NoDup_fmap_1| |].
  - constructor; [rewrite elem_of_without; tauto|]. apply NoDup_filter. by eapply NoDup_fmap_1.
  - intros e. rewrite elem_of_cons, elem_of_without. split; [|by intros [->|[? _]]].
    intros He. destruct (decide (entry_node e = entry_node entry)) as [E|E]; [left|by right].
    by apply (NoDup_fmap_inj entry_node entries).
Qed.

Lemma get_ok cache key : cache_ok cache ->
  let '(result, cache') := get cache key in
  cache_ok cache' /\ (result, items cache') = lru_get (items cache) key /\ maximum_bytes_ cache' = maximum_bytes_ cache.
Proof using Type.
  intros [O Hm Hlim]. unfold get, lru_get. destruct (lookup_ cache !! key) as [node|] eqn:E.
  - apply (eo_lookup _ _ _ _ O) in E as (entry & Hin & <- & <-).
    rewrite (at_node_Some _ _ entry) by (done || apply O). unfold items. cbn [entries_ maximum_bytes_].
    rewrite find_entry by (done || apply O). rewrite fmap_cons, without_key by (done || apply O).
    split_and!; [|done|done]. split; cbn; [|done|done].
    eapply perm_ok; [|exact O]. apply front_perm; [apply O|done].
  - destruct (find_nothing _ _ _ _ _ O E) as [Hf _]. unfold items. rewrite Hf. by split_and!.
Qed.

Lemma without_middle before entry after : NoDup (entry_node <$> before ++ entry :: after) ->
  without (entry_node entry) (before ++ entry :: after) = before ++ after.
Proof using Type.
  intros Hnd. rewrite fmap_app, fmap_cons, NoDup_app, NoDup_cons in Hnd. destruct Hnd as (_ & Hdis & Hnew & _).
  unfold without. rewrite filter_app, filter_cons, decide_False by tauto. f_equal; apply filter_all; intros e He Hn.
  - apply (Hdis (entry_node e)); [by apply list_elem_of_fmap_2|]. rewrite Hn. by left.
  - apply Hnew. rewrite <- Hn. by apply list_elem_of_fmap_2.
Qed.

(** The loop keeps what it has passed. *)
Lemma invalidate_ok generation rest : forall before bytes lookup bound,
  entries_ok (before ++ rest) lookup bytes bound -> bytes <= u64_max ->
  let '(bytes', kept, lookup') := invalidate generation rest bytes lookup in
  entries_ok (before ++ kept) lookup' bytes' bound /\ bytes' <= bytes /\
  (fun e => (entry_key e, entry_result e)) <$> kept =
    lru_invalidate generation ((fun e => (entry_key e, entry_result e)) <$> rest).
Proof using Type.
  induction rest as [|entry rest IH]; intros before bytes lookup bound O Hmax; [by split_and!|].
  cbn [invalidate]. unfold lru_invalidate. rewrite fmap_cons, filter_cons. cbn [fst].
  destruct (Z.ltb_spec (key_generation (entry_key entry)) generation) as [Hlt|Hge].
  - rewrite decide_False by lia.
    destruct (take_out _ _ _ _ entry O) as [O' Hle]; [apply elem_of_app; right; by left|done|].
    rewrite without_middle in O' by apply O.
    specialize (IH before _ _ _ O' ltac:(lia)).
    destruct (invalidate generation rest _ _) as [[bytes' kept] lookup']. destruct IH as (? & ? & ?).
    split_and!; [done|lia|done].
  - rewrite decide_True by lia. rewrite cons_middle, app_assoc in O. specialize (IH _ _ _ _ O Hmax).
    destruct (invalidate generation rest bytes lookup) as [[bytes' kept] lookup']. destruct IH as (O' & Hle & E).
    split_and!; [by rewrite cons_middle, app_assoc|done|]. by rewrite fmap_cons, E.
Qed.

Lemma invalidate_before_ok cache generation : cache_ok cache ->
  let cache' := invalidate_before cache generation in
  cache_ok cache' /\ items cache' = lru_invalidate generation (items cache) /\ maximum_bytes_ cache' = maximum_bytes_ cache.
Proof using Type.
  intros [O Hm Hlim]. unfold invalidate_before.
  pose proof (invalidate_ok generation (entries_ cache) [] _ _ _ O ltac:(unfold i64_max, u64_max in *; lia)) as H.
  destruct (invalidate generation (entries_ cache) (bytes_ cache) (lookup_ cache)) as [[bytes' kept] lookup'].
  destruct H as (O' & Hle & E). cbn [app] in O'. unfold items. cbn [with_entries entries_ maximum_bytes_].
  split_and!; [|done|done]. split; cbn; [done| |done].
  rewrite (eo_bytes _ _ _ _ O') in *. split; [apply total_nonneg, size_nonneg|lia].
Qed.

Lemma cache_make_ok maximum : 0 <= maximum <= i64_max -> cache_ok (make maximum).
Proof using Type.
  intros H. split; cbn; [|lia|lia]. split; cbn; [constructor|constructor| |done|constructor|constructor].
  intros ? ?. rewrite lookup_empty. split; [done|]. by intros (e & ?%not_elem_of_nil & _).
Qed.
End cache.

(** ** Properties *)

(** C27.  The cache refines a least-recently-used map bounded in bytes: started
    empty, in every state its operations reach, the byte count is that of the
    results held and within the limit, and every iterator of the map points to
    the entry of its key; a lookup returns the result last put under exactly
    that key, or nothing, and moves it to the front; a put keeps the longest
    prefix of the most recently used results that fits, and nothing under the
    key when the result alone does not fit; invalidation drops exactly the
    older generations. *)
Theorem cache_refines_lru sizeof_entry sizeof_hit :
  let ok := cache_ok sizeof_entry sizeof_hit in
  let size := size_of sizeof_entry sizeof_hit in
  (forall maximum, 0 <= maximum <= i64_max -> ok (make maximum) /\ items (make maximum) = []) /\
  (forall cache key, ok cache ->
     let '(result, cache') := get cache key in
     ok cache' /\ (result, items cache') = lru_get (items cache) key) /\
  (forall cache key result, ok cache ->
     let cache' := put sizeof_entry sizeof_hit cache key result in
     ok cache' /\ items cache' = lru_put size (maximum_bytes_ cache) (items cache) key result) /\
  (forall cache generation, ok cache ->
     let cache' := invalidate_before cache generation in
     ok cache' /\ items cache' = lru_invalidate generation (items cache)).
Proof.
  intros ok size. split_and!.
  - intros maximum H. split; [by apply cache_make_ok|done].
  - intros cache key C. pose proof (get_ok _ _ _ key C) as H. destruct (get cache key). by destruct H as (? & ? & _).
  - intros cache key result C. by destruct (cache_put_ok _ _ _ key result C) as (? & ? & _).
  - intros cache generation C. by destruct (invalidate_before_ok _ _ _ generation C) as (? & ? & _).
Qed.

Definition sample_key (plan : string) : QueryCacheKey :=
  {| key_generation := 1; key_schema_fingerprint := ""; key_plan := plan; key_top_k := 10;
     key_scoring_fingerprint := "" |}.

Definition sample_result (total : Z) : SearchResult := {| hits := []; total_hits := total |}.

Lemma cache_refines_lru_witness :
  let cache := put 10 5 (put 10 5 (make 24) (sample_key "a") (sample_result 1)) (sample_key "b") (sample_result 2) in
  let touched := (get cache (sample_key "a")).2 in
  cache_ok 10 5 (put 10 5 touched (sample_key "c") (sample_result 3)) /\
  items (put 10 5 touched (sample_key "c") (sample_result 3)) =
    [(sample_key "c", sample_result 3); (sample_key "a", sample_result 1)].
Proof.
  intros cache touched.
  destruct (cache_refines_lru 10 5) as (Hmake & Hget & Hput & _).
  destruct (Hmake 24) as [H0 _]; [split; vm_compute; discriminate|].
  destruct (Hput _ (sample_key "a") (sample_result 1) H0) as [H1 _].
  destruct (Hput _ (sample_key "b") (sample_result 2) H1) as [H2 _].
  pose proof (Hget _ (sample_key "a") H2) as H3. fold cache in H3.
  assert (E : get cache (sample_key "a") = ((get cache (sample_key "a")).1, touched)) by (vm_compute; reflexivity).
  rewrite E in H3. destruct H3 as [H3 _].
  destruct (Hput _ (sample_key "c") (sample_result 3) H3) as [H4 _].
  split; [exact H4|vm_compute; reflexivity].
Defined.
