(* ===== verification/DocumentFile.v ===== *)
(** * Document files

    include/dse/index/document_file.hpp and src/index/document_file.cpp: the
    escaped tab-separated files that the command line indexes.  The input
    stream is the text that is left to read. *)

From S2P Require Import Prelude Text Types.
From Stdlib Require Import Ascii String.

Inductive DocumentFileErrorCode :=
| open_failed | invalid_header | invalid_column_count | invalid_escape | invalid_version | invalid_deleted
| file_empty_document_id.

#[export] Instance DocumentFileErrorCode_eq_dec : EqDecision DocumentFileErrorCode.
Proof. solve_decision. Defined.

Record DocumentFileError := {
  file_code : DocumentFileErrorCode;
  file_line : Z;
  file_column : Z;
  file_message : string
}.

Definition fail (code : DocumentFileErrorCode) (line column : Z) (message : string) : DocumentFileError :=
  {| file_code := code; file_line := line; file_column := column; file_message := message |}.

Definition tab : ascii := "009".
Definition newline : ascii := "010".
Definition carriage : ascii := "013".
Definition backslash : ascii := "\".

Definition kHeader : string :=
  "document_id" +:+ String tab ("version" +:+ String tab ("deleted" +:+ String tab ("title" +:+ String tab
    ("body" +:+ String tab ("tags" +:+ String tab "timestamp"))))).

(** The character that an escape stands for. *)
Definition unescape (c : ascii) : option ascii :=
  if ascii_dec c "t" then Some tab
  else if ascii_dec c "n" then Some newline
  else if ascii_dec c "r" then Some carriage
  else if ascii_dec c backslash then Some backslash
  else None.

(** The loop over the line; [current] is [columns.back()]. *)
Fixpoint split_from (line_number cursor : Z) (line current : string) (columns : list string)
    : expected DocumentFileError (list string) :=
  match line with
  | EmptyString => Ok (columns ++ [current])
  | String c rest =>
      if ascii_dec c tab then split_from line_number (cursor + 1) rest "" (columns ++ [current])
      else if ascii_dec c backslash then
        match rest with
        | EmptyString => Err (fail invalid_escape line_number (cursor + 1) "trailing backslash in escaped TSV value")
        | String e rest' =>
            match unescape e with
            | Some value => split_from line_number (cursor + 2) rest' (current +:+ String value "") columns
            | None => Err (fail invalid_escape line_number (cursor + 1) "unsupported TSV escape sequence")
            end
        end
      else split_from line_number (cursor + 1) rest (current +:+ String c "") columns
  end.

Definition split_line (line : string) (line_number : Z) : expected DocumentFileError (list string) :=
  split_from line_number 0 line "" [].

(** [std::getline]: the line and what is left, or failure at the end. *)
Fixpoint until_newline (s : string) : string * string :=
  match s with
  | EmptyString => ("", "")
  | String c rest =>
      if ascii_dec c newline then ("", rest)
      else let '(line, rest') := until_newline rest in (String c line, rest')
  end.

Definition getline (input : string) : option (string * string) :=
  match input with EmptyString => None | _ => Some (until_newline input) end.

(** The body of the loop, for a line that is not empty. *)
Definition read_row (line_number : Z) (line : string) : expected DocumentFileError Document :=
  columns ← split_line line line_number;
  match columns with
  | [id; version_text; deleted_text; title; body; tags; timestamp] =>
      _ ← ensure (negb (str_eqb id ""))
            (fail file_empty_document_id line_number 0 "document ID must not be empty");
      match parse_u64 version_text with
      | Some version =>
          _ ← ensure (negb (version =? 0)) (fail invalid_version line_number 1 "version must be a positive uint64 value");
          _ ← ensure (str_eqb deleted_text "0" || str_eqb deleted_text "1")
                (fail invalid_deleted line_number 2 "deleted must be 0 or 1");
          Ok {| doc_id := id;
                doc_fields := <["body" := body]> (<["tags" := tags]> {["title" := title]});
                doc_stored_metadata := {["timestamp" := timestamp]};
                doc_version := version;
                doc_deleted := str_eqb deleted_text "1" |}
      | None => Err (fail invalid_version line_number 1 "version must be a positive uint64 value")
      end
  | _ => Err (fail invalid_column_count line_number (zstrlen line) "document row must contain exactly seven columns")
  end.

(** Each round takes at least one character, so the length of the input is
    fuel enough. *)
Fixpoint read_rows (fuel : nat) (line_number : Z) (input : string) : expected DocumentFileError (list Document) :=
  match fuel with
  | O => Ok []
  | S fuel' =>
      match getline input with
      | None => Ok []
      | Some (line, rest) =>
          if str_eqb line "" then read_rows fuel' (line_number + 1) rest
          else
            document ← read_row (line_number + 1) line;
            documents ← read_rows fuel' (line_number + 1) rest;
            Ok (document :: documents)
      end
  end.

Definition read_documents (input : string) : expected DocumentFileError (list Document) :=
  let bad := fail invalid_header 1 0 ("expected escaped TSV header: " +:+ kHeader) in
  match getline input with
  | None => Err bad
  | Some (line, rest) =>
      if str_eqb line kHeader then read_rows (S (String.length rest)) 1 rest else Err bad
  end.

(** Reading a path: the text of the file, or [None] when it cannot be opened. *)
Definition read_documents_at (path : string) (contents : option string) : expected DocumentFileError (list Document) :=
  match contents with
  | None => Err (fail open_failed 0 0 ("unable to open document file: " +:+ path))
  | Some input => read_documents input
  end.
