(* ===== verification/DocumentFileSpec.v ===== *)
(** * Document files can be written and read back

    The escaped form of a table of documents, which reading inverts, and what
    reading says of a table with a bad row. *)

From S2P Require Import Prelude Text Types DocumentFile.
From Stdlib Require Import Ascii String.

(** ** The written form *)

Definition escape_char (c : ascii) : string :=
  if ascii_dec c tab then String backslash "t"
  else if ascii_dec c newline then String backslash "n"
  else if ascii_dec c carriage then String backslash "r"
  else if ascii_dec c backslash then String backslash (String backslash "")
  else String c "".

Fixpoint escape (s : string) : string :=
  match s with EmptyString => "" | String c rest => escape_char c +:+ escape rest end.

(** A document that a row can hold: these three fields, this metadata. *)
Record Row := { row_id : string; row_version : Z; row_deleted : bool; row_title : string; row_body : string;
                row_tags : string; row_timestamp : string }.

Definition row_document (r : Row) : Document :=
  {| doc_id := row_id r;
     doc_fields := <["body" := row_body r]> (<["tags" := row_tags r]> {["title" := row_title r]});
     doc_stored_metadata := {["timestamp" := row_timestamp r]};
     doc_version := row_version r; doc_deleted := row_deleted r |}.

Definition row_ok (r : Row) : Prop := row_id r <> "" /\ 1 <= row_version r <= u64_max.

Definition row_columns (r : Row) : list string :=
  [row_id r; to_string_u (row_version r); if row_deleted r then "1" else "0"; row_title r; row_body r; row_tags r;
   row_timestamp r].

Fixpoint join (columns : list string) : string :=
  match columns with
  | [] => ""
  | [column] => escape column
  | column :: rest => escape column +:+ String tab (join rest)
  end.

Definition write_row (r : Row) : string := join (row_columns r).

Definition lines (l : list string) : string := foldr (fun line rest => line +:+ String newline rest) "" l.

Definition write_documents (rows : list Row) : string := lines (kHeader :: (write_row <$> rows)).

(** ** Reading a line *)

Lemma split_escaped n s : forall cursor rest current columns, exists cursor',
  split_from n cursor (escape s +:+ rest) current columns = split_from n cursor' rest (current +:+ s) columns.
Proof.
  induction s as [|c s IH]; intros cursor rest current columns; [exists cursor; by rewrite str_app_nil_r|].
  assert (Hstep : exists cursor1, split_from n cursor (escape_char c +:+ (escape s +:+ rest)) current columns =
    split_from n cursor1 (escape s +:+ rest) (current +:+ String c "") columns).
  { unfold escape_char.
    destruct (ascii_dec c tab) as [->|]; [by exists (cursor + 2)|].
    destruct (ascii_dec c newline) as [->|]; [by exists (cursor + 2)|].
    destruct (ascii_dec c carriage) as [->|]; [by exists (cursor + 2)|].
    destruct (ascii_dec c backslash) as [->|]; [by exists (cursor + 2)|].
    exists (cursor + 1). cbn [append split_from]. destruct (ascii_dec c tab); [done|].
    by destruct (ascii_dec c backslash). }
  destruct Hstep as [cursor1 E]. destruct (IH cursor1 rest (current +:+ String c "") columns) as [cursor' E'].
  exists cursor'. cbn [escape]. rewrite str_app_assoc, E, E'. by rewrite str_app_assoc.
Qed.

Lemma split_join n columns : columns <> [] -> forall cursor before,
  split_from n cursor (join columns) "" before = Ok (before ++ columns).
Proof.
  induction columns as [|c columns IH]; [done|]. intros _ cursor before. destruct columns as [|d columns].
  - cbn [join]. destruct (split_escaped n c cursor "" "" before) as [cursor' E].
    rewrite str_app_nil_r in E. by rewrite E.
  - cbn [join]. destruct (split_escaped n c cursor (String tab (join (d :: columns))) "" before) as [cursor' E].
    cbn [join] in E. rewrite E. cbn [split_from]. destruct (ascii_dec tab tab); [|done].
    rewrite IH by done. by rewrite <- app_assoc.
Qed.

Lemma read_row_written n r : row_ok r -> read_row n (write_row r) = Ok (row_document r).
Proof.
  intros [Hid Hv]. unfold read_row, split_line, write_row. rewrite split_join by done. cbn [app row_columns mbind expected_bind].
  assert (E : str_eqb (row_id r) "" = false) by (by apply bool_decide_eq_false_2). rewrite E. cbn [negb ensure mbind expected_bind].
  rewrite parse_u64_to_string by (unfold is_u64; lia). rewrite (proj2 (Z.eqb_neq _ _)) by lia.
  by destruct r as [id v [|] t b g ts].
Qed.

(** ** Lines *)

Definition line_ok (s : string) : bool := str_forallb (fun c => negb (Ascii.eqb c newline)) s.

Lemma until_newline_line s rest : line_ok s = true -> until_newline (s +:+ String newline rest) = (s, rest).
Proof.
  induction s as [|c s IH]; [done|]. cbn. intros [Hc Hs]%andb_prop.
  destruct (ascii_dec c newline) as [->|_]; [done|]. by rewrite IH.
Qed.

Lemma escape_line s : line_ok (escape s) = true.
Proof.
  unfold line_ok. induction s as [|c s IH]; [done|]. cbn [escape]. rewrite str_forallb_app, IH, andb_true_r.
  unfold escape_char. repeat (destruct (ascii_dec _ _); [done|]). cbn. rewrite andb_true_r.
  apply negb_true_iff. by destruct (Ascii.eqb_spec c newline).
Qed.

Lemma join_line columns : line_ok (join columns) = true.
Proof.
  induction columns as [|c [|d columns] IH]; [done|apply escape_line|].
  cbn [join]. unfold line_ok in *. rewrite str_forallb_app. fold (line_ok (escape c)). rewrite escape_line.
  cbn [join] in IH. cbn [str_forallb andb]. exact IH.
Qed.

Lemma write_row_line r : line_ok (write_row r) = true.
Proof. apply join_line. Qed.

Lemma escape_ne s : s <> "" -> escape s <> "".
Proof.
  destruct s as [|c s]; [done|]. intros _. cbn. unfold escape_char. by repeat (destruct (ascii_dec _ _); [done|]).
Qed.

Lemma write_row_ne r : row_ok r -> write_row r <> "".
Proof.
  intros [Hid _]. unfold write_row, row_columns. cbn [join]. pose proof (escape_ne _ Hid).
  by destruct (escape (row_id r)).
Qed.

(** ** A table *)

Lemma getline_line s rest : line_ok s = true -> getline (s +:+ String newline rest) = Some (s, rest).
Proof. intros H. rewrite <- (until_newline_line s rest H). by destruct s. Qed.

Lemma lines_length l : (Datatypes.length l <= String.length (lines l))%nat.
Proof.
  induction l as [|line l IH]; cbn [lines foldr Datatypes.length]; [lia|].
  rewrite length_str_app. cbn [String.length]. fold (lines l). lia.
Qed.

(** Good rows are read in order; what follows them is read after. *)
Lemma read_rows_good rows : Forall row_ok rows -> forall fuel n rest,
  read_rows (Datatypes.length rows + fuel) n (lines (write_row <$> rows) +:+ rest) =
  (documents ← read_rows fuel (n + zlen rows) rest; Ok ((row_document <$> rows) ++ documents)).
Proof.
  induction 1 as [|r rows Hr _ IH]; intros fuel n rest.
  - cbn [fmap list_fmap lines foldr Datatypes.length Nat.add]. change (zlen (@nil Row)) with 0. rewrite Z.add_0_r. cbn [append].
    by destruct (read_rows fuel n rest).
  - cbn [fmap list_fmap lines foldr Datatypes.length Nat.add read_rows]. fold (lines (write_row <$> rows)).
    rewrite str_app_assoc. cbn [append]. rewrite getline_line by apply write_row_line.
    assert (E : str_eqb (write_row r) "" = false) by (apply bool_decide_eq_false_2; by apply write_row_ne). rewrite E.
    rewrite read_row_written by done. cbn [mbind expected_bind]. rewrite IH, zlen_cons.
    replace (n + 1 + zlen rows) with (n + (1 + zlen rows)) by lia. by destruct (read_rows fuel _ rest).
Qed.

Lemma split_from_line n : forall line cursor current columns e,
  split_from n cursor line current columns = Err e -> file_line e = n.
Proof.
  refine (fix go line {struct line} := _). intros cursor current columns e.
  destruct line as [|c rest]; [done|]. cbn [split_from].
  destruct (ascii_dec c tab); [apply go|]. destruct (ascii_dec c backslash); [|apply go].
  destruct rest as [|x rest]; [by intros [= <-]|]. destruct (unescape x); [apply go|by intros [= <-]].
Qed.

Lemma read_row_line n line e : read_row n line = Err e -> file_line e = n.
Proof.
  unfold read_row, split_line. destruct (split_from n 0 line "" []) as [columns|x] eqn:E.
  - clear E. cbn [mbind expected_bind]. do 7 (destruct columns as [|? columns]; [by intros [= <-]|]).
    destruct columns; [|by intros [= <-]]. unfold ensure.
    destruct (negb _); cbn [mbind expected_bind]; [|by intros [= <-]]. destruct (parse_u64 _); [|by intros [= <-]].
    destruct (negb _); cbn [mbind expected_bind]; [|by intros [= <-]].
    destruct (_ || _); cbn [mbind expected_bind]; [done|by intros [= <-]].
  - intros [= <-]. by eapply split_from_line.
Qed.

Lemma read_header rest : read_documents (kHeader +:+ String newline rest) = read_rows (S (String.length rest)) 1 rest.
Proof. unfold read_documents. rewrite getline_line by done. by destruct (str_eqb kHeader kHeader) eqn:E. Qed.

Lemma written_rows rows rest : exists fuel, read_documents (write_documents rows +:+ rest) =
    read_rows (Datatypes.length rows + S fuel) 1 (lines (write_row <$> rows) +:+ rest) /\
  (String.length rest <= fuel)%nat.
Proof.
  exists (String.length (lines (write_row <$> rows)) - Datatypes.length rows + String.length rest)%nat.
  split; [|lia]. unfold write_documents. cbn [lines foldr]. fold (lines (write_row <$> rows)).
  rewrite str_app_assoc. cbn [append]. rewrite read_header, length_str_app. f_equal.
  pose proof (lines_length (write_row <$> rows)) as H. rewrite length_fmap in H. lia.
Qed.

(** C37. Reading a document file inverts writing it: a table of rows with
    identifiers and positive 64-bit versions, its fields escaped (any bytes,
    tabs, line breaks and backslashes included), is read back as the documents
    of the rows, in order.  When a line that is no good row follows, reading
    reports that line's error and number instead, whatever comes after. *)
Theorem document_file_roundtrip rows (Hok : Forall row_ok rows) :
  read_documents (write_documents rows) = Ok (row_document <$> rows) /\
  (forall bad after e, line_ok bad = true -> bad <> "" -> read_row (zlen rows + 2) bad = Err e ->
    read_documents (write_documents rows +:+ bad +:+ String newline after) = Err e /\ file_line e = zlen rows + 2).
Proof.
  split.
  - destruct (written_rows rows "") as (fuel & E & _). rewrite str_app_nil_r in E. rewrite E.
    rewrite read_rows_good by done. cbn [read_rows getline mbind expected_bind]. by rewrite app_nil_r.
  - intros bad after e Hline Hne He. split; [|by eapply read_row_line].
    destruct (written_rows rows (bad +:+ String newline after)) as (fuel & -> & _).
    rewrite read_rows_good by done. cbn [read_rows]. rewrite getline_line by done.
    assert (E : str_eqb bad "" = false) by (by apply bool_decide_eq_false_2). rewrite E.
    replace (1 + zlen rows + 1) with (zlen rows + 2) by lia. by rewrite He.
Qed.

Definition two_rows : list Row :=
  [{| row_id := "a" +:+ String tab "b"; row_version := 3; row_deleted := false; row_title := String newline "";
      row_body := String backslash "t"; row_tags := ""; row_timestamp := "5" |};
   {| row_id := "c"; row_version := u64_max; row_deleted := true; row_title := ""; row_body := ""; row_tags := "x";
      row_timestamp := "" |}].

(** A table of two rows, and a third line that ends in a backslash. *)
Lemma document_file_roundtrip_witness :
  read_documents (write_documents two_rows) = Ok (row_document <$> two_rows) /\
  read_documents (write_documents two_rows +:+ String "z" (String backslash "") +:+ String newline "rest") =
    Err (fail invalid_escape 4 2 "trailing backslash in escaped TSV value").
Proof.
  assert (H : Forall row_ok two_rows) by (repeat constructor; vm_compute; discriminate).
  split; [exact (proj1 (document_file_roundtrip two_rows H))|].
  exact (proj1 (proj2 (document_file_roundtrip two_rows H) (String "z" (String backslash "")) "rest" _ eq_refl
    ltac:(discriminate) eq_refl)).
Defined.
