(* ===== verification/Metrics.v ===== *)
(** * Telemetry: counters, gauges and histograms

    include/dse/telemetry/metrics.hpp and src/telemetry/metrics.cpp.  The
    registry's mutex makes each operation one function of the three maps. *)

From S2P Require Import Prelude Text Doubles Numbers.
From Stdlib Require Import Ascii String.

Record HistogramSnapshot := {
  upper_bounds : list double;
  cumulative_counts : list Z;
  snapshot_count : Z;
  snapshot_sum : double
}.

Definition empty_snapshot : HistogramSnapshot :=
  {| upper_bounds := []; cumulative_counts := []; snapshot_count := 0; snapshot_sum := d_zero |}.

Definition name_char (value : ascii) : bool :=
  is_lower value || is_upper value || is_digit value || Ascii.eqb value "_" || Ascii.eqb value ":".

Definition valid_name (name : string) : bool := negb (str_eqb name "") && str_forallb name_char name.

Module MetricsRegistry.

Record Histogram := {
  bounds : list double;
  buckets : list Z;
  count : Z;
  sum : double
}.

Record MetricsRegistry := {
  counters_ : gmap string Z;
  gauges_ : gmap string Z;
  histograms_ : gmap string Histogram
}.

Definition empty : MetricsRegistry := {| counters_ := ∅; gauges_ := ∅; histograms_ := ∅ |}.

(** [counters_[name]] inserts a zero when the name is new. *)
Definition increment (r : MetricsRegistry) (name : string) (amount : Z) : MetricsRegistry :=
  if negb (valid_name name) then r
  else
    let value := default 0 (counters_ r !! name) in
    {| counters_ := <[name := if amount >? u64_max - value then u64_max else value + amount]> (counters_ r);
       gauges_ := gauges_ r; histograms_ := histograms_ r |}.

Definition with_gauge (r : MetricsRegistry) (name : string) (value : Z) : MetricsRegistry :=
  {| counters_ := counters_ r; gauges_ := <[name := value]> (gauges_ r); histograms_ := histograms_ r |}.

Definition add_gauge (r : MetricsRegistry) (name : string) (amount : Z) : MetricsRegistry :=
  if negb (valid_name name) then r
  else
    let value := default 0 (gauges_ r !! name) in
    with_gauge r name
      (if (amount >? 0) && (value >? i64_max - amount) then i64_max
       else if (amount <? 0) && (value <? i64_min - amount) then i64_min
       else value + amount).

Definition set_gauge (r : MetricsRegistry) (name : string) (value : Z) : MetricsRegistry :=
  if negb (valid_name name) then r else with_gauge r name value.

Definition default_bounds : list double :=
  Eval vm_compute in
    [d_decimal 1 (-3); d_decimal 5 (-3); d_decimal 1 (-2); d_decimal 5 (-2); d_decimal 1 (-1); d_decimal 5 (-1);
     d_decimal 1 0; d_decimal 5 0].

(** [std::ranges::is_sorted]: no element is less than the one before it. *)
Definition is_sorted (l : list double) : bool := adjacent_all (fun x y => negb (d_ltb y x)) l.

(** [std::ranges::adjacent_find(bounds) == bounds.end()] *)
Definition no_adjacent_equal (l : list double) : bool := adjacent_all (fun x y => negb (d_eqb x y)) l.

(** [==] on vectors of doubles *)
Fixpoint same_bounds (xs ys : list double) : bool :=
  match xs, ys with
  | [], [] => true
  | x :: xs', y :: ys' => d_eqb x y && same_bounds xs' ys'
  | _, _ => false
  end.

(** The counts after the value: every bucket whose bound is not below it. *)
Definition add_value (histogram : Histogram) (value : double) : Histogram :=
  {| bounds := bounds histogram;
     buckets := zip_with (fun bound bucket => if d_leb value bound then wrap64 (bucket + 1) else bucket)
                  (bounds histogram) (buckets histogram);
     count := wrap64 (count histogram + 1);
     sum := d_add (sum histogram) value |}.

Definition observe (r : MetricsRegistry) (name : string) (value : double) (bounds' : list double)
    : MetricsRegistry :=
  if negb (valid_name name) || negb (d_finite value) || negb (is_sorted bounds') || negb (no_adjacent_equal bounds')
  then r
  else
    let store histogram :=
      {| counters_ := counters_ r; gauges_ := gauges_ r;
         histograms_ := <[name := add_value histogram value]> (histograms_ r) |} in
    match histograms_ r !! name with
    | None => store {| bounds := bounds'; buckets := replicate (List.length bounds') 0; count := 0; sum := d_zero |}
    | Some found => if negb (same_bounds (bounds found) bounds') then r else store found
    end.

Definition counter (r : MetricsRegistry) (name : string) : Z := default 0 (counters_ r !! name).
Definition gauge (r : MetricsRegistry) (name : string) : Z := default 0 (gauges_ r !! name).

Definition histogram (r : MetricsRegistry) (name : string) : HistogramSnapshot :=
  match histograms_ r !! name with
  | None => empty_snapshot
  | Some h => {| upper_bounds := bounds h; cumulative_counts := buckets h; snapshot_count := count h;
                 snapshot_sum := sum h |}
  end.

(** ** The exposition text *)

Definition newline : string := String "010" "".
Definition quote : string := String "034" "".

Definition sample (name value : string) : string := name +:+ " " +:+ value +:+ newline.

Definition bucket_sample (name bound : string) (value : Z) : string :=
  sample (name +:+ "_bucket{le=" +:+ quote +:+ bound +:+ quote +:+ "}") (to_string_u value).

Definition concat_map {A} (f : A -> string) (l : list A) : string := foldr (fun x rest => f x +:+ rest) "" l.

Definition histogram_text (name : string) (h : Histogram) : string :=
  concat_map (fun item => bucket_sample name (print_double item.1) item.2) (zip (bounds h) (buckets h)) +:+
  bucket_sample name "+Inf" (count h) +:+
  sample (name +:+ "_sum") (print_double (sum h)) +:+
  sample (name +:+ "_count") (to_string_u (count h)).

Definition prometheus (r : MetricsRegistry) : string :=
  concat_map (fun item => sample item.1 (to_string_u item.2)) (map_items (counters_ r)) +:+
  concat_map (fun item => sample item.1 (to_string_i item.2)) (map_items (gauges_ r)) +:+
  concat_map (fun item => histogram_text item.1 item.2) (map_items (histograms_ r)).

End MetricsRegistry.
