(* ===== verification/MetricsSpec.v ===== *)
(** * What the metrics say about the updates

    The registry against the log of the updates that reached it: counters and
    gauges saturate instead of wrapping, and a histogram counts the values
    below each of its bounds. *)

From S2P Require Import Prelude Text Doubles Numbers Metrics.
From Stdlib Require Import Ascii String.
Import MetricsRegistry.

(** ** Logs *)

Inductive Update :=
| Increment (name : string) (amount : Z)
| AddGauge (name : string) (amount : Z)
| SetGauge (name : string) (value : Z)
| Observe (name : string) (value : double) (bounds : list double).

Definition apply (r : MetricsRegistry) (u : Update) : MetricsRegistry :=
  match u with
  | Increment name amount => increment r name amount
  | AddGauge name amount => add_gauge r name amount
  | SetGauge name value => set_gauge r name value
  | Observe name value bounds => observe r name value bounds
  end.

Definition run (log : list Update) : MetricsRegistry := foldl apply empty log.

(** The arguments have the widths of their types. *)
Definition update_ok (u : Update) : Prop :=
  match u with
  | Increment _ amount => is_u64 amount
  | AddGauge _ amount => i64_min <= amount <= i64_max
  | SetGauge _ value => i64_min <= value <= i64_max
  | Observe _ _ _ => True
  end.

Definition incremented (name : string) (u : Update) : Z :=
  match u with Increment n amount => if str_eqb n name then amount else 0 | _ => 0 end.

Definition total (name : string) (log : list Update) : Z := foldr (fun u z => incremented name u + z) 0 log.

Definition clamp (z : Z) : Z := Z.max i64_min (Z.min i64_max z).

Definition gauge_after (name : string) (g : Z) (u : Update) : Z :=
  match u with
  | AddGauge n amount => if str_eqb n name then clamp (g + amount) else g
  | SetGauge n value => if str_eqb n name then value else g
  | _ => g
  end.

(** The observations of [name] that pass the guards of [observe]. *)
Definition observations (name : string) (log : list Update) : list (double * list double) :=
  omap (fun u => match u with
    | Observe n value bounds =>
        if str_eqb n name && d_finite value && is_sorted bounds && no_adjacent_equal bounds
        then Some (value, bounds) else None
    | _ => None
    end) log.

(** The first one fixes the bounds, later ones with other bounds are dropped. *)
Definition kept (l : list (double * list double)) : option (list double * list double) :=
  match l with
  | [] => None
  | (value, bounds) :: rest => Some (bounds, value :: (filter (fun o => same_bounds bounds o.2 = true) rest).*1)
  end.

Definition below (bound : double) (values : list double) : list double :=
  filter (fun v => d_leb v bound = true) values.

Definition histogram_of (item : list double * list double) : Histogram :=
  {| bounds := item.1;
     buckets := (fun bound => wrap64 (zlen (below bound item.2))) <$> item.1;
     count := wrap64 (zlen item.2);
     sum := foldl d_add d_zero item.2 |}.

(** ** One update *)

Lemma observations_app name log u : observations name (log ++ [u]) = observations name log ++ observations name [u].
Proof. apply omap_app. Qed.

Lemma kept_snoc l value bounds : kept (l ++ [(value, bounds)]) =
  Some (match kept l with
        | None => (bounds, [value])
        | Some (b, vs) => (b, if same_bounds b bounds then vs ++ [value] else vs)
        end).
Proof.
  destruct l as [|[v b] l]; [done|]. cbn [app kept]. rewrite filter_app, filter_cons. cbn [snd].
  destruct (same_bounds b bounds) eqn:E.
  - rewrite decide_True by done. by rewrite filter_nil, fmap_app.
  - rewrite decide_False by done. by rewrite filter_nil, app_nil_r.
Qed.

Lemma wrap64_succ n : wrap64 (wrap64 n + 1) = wrap64 (n + 1).
Proof. unfold wrap64. by rewrite Zplus_mod_idemp_l. Qed.

Lemma add_value_of b vs value : add_value (histogram_of (b, vs)) value = histogram_of (b, vs ++ [value]).
Proof.
  unfold add_value, histogram_of. cbn [bounds buckets count sum fst snd]. f_equal.
  - induction b as [|x b IH]; [done|]. cbn [fmap list_fmap zip_with]. f_equal; [|exact IH].
    unfold below. rewrite filter_app, filter_cons, filter_nil.
    destruct (d_leb value x) eqn:E.
    + rewrite decide_True by done. rewrite wrap64_succ. by rewrite zlen_app.
    + rewrite decide_False by done. by rewrite app_nil_r.
  - rewrite wrap64_succ. by rewrite zlen_app.
  - by rewrite foldl_app.
Qed.

Lemma histogram_empty b : {| bounds := b; buckets := replicate (List.length b) 0; count := 0; sum := d_zero |} =
  histogram_of (b, []).
Proof.
  unfold histogram_of. cbn [fst snd]. f_equal. induction b as [|x b IH]; [done|]. cbn. by f_equal.
Qed.

Lemma str_eqb_spec s t : reflect (s = t) (str_eqb s t).
Proof. apply bool_decide_reflect. Qed.

Lemma run_snoc log u : run (log ++ [u]) = apply (run log) u.
Proof. unfold run. by rewrite foldl_app. Qed.

Lemma total_snoc name log u : total name (log ++ [u]) = total name log + incremented name u.
Proof. unfold total. rewrite foldr_app. cbn [foldr]. induction log as [|v log IH]; cbn [foldr]; lia. Qed.

Ltac by_name := repeat match goal with
  | |- context [str_eqb ?s ?t] => destruct (str_eqb_spec s t); subst
  end; rewrite ?lookup_insert, ?lookup_insert_ne by done.

Section names.
Context (name : string) (Hname : valid_name name = true).

Lemma increment_counter r n amount : default 0 (counters_ (increment r n amount) !! name) =
  let value := default 0 (counters_ r !! name) in
  if str_eqb n name then (if amount >? u64_max - value then u64_max else value + amount) else value.
Proof using Hname.
  unfold increment. destruct (str_eqb_spec n name) as [->|Hne].
  - rewrite Hname. cbn [negb counters_]. by rewrite lookup_insert_eq.
  - destruct (negb (valid_name n)); [done|]. cbn [counters_]. by rewrite lookup_insert_ne.
Qed.

Lemma counter_step r u : update_ok u -> 0 <= counter r name <= u64_max ->
  counter (apply r u) name = Z.min u64_max (counter r name + incremented name u).
Proof using Hname.
  unfold counter. intros Hu Hr. destruct u as [n a|n a|n a|n v b]; cbn [apply incremented].
  - rewrite increment_counter. cbn zeta. cbn [update_ok] in Hu. unfold is_u64 in Hu.
    destruct (str_eqb n name); [|lia]. destruct (Z.gtb_spec a (u64_max - default 0 (counters_ r !! name))); lia.
  - unfold add_gauge. destruct (negb _); cbn [with_gauge counters_]; lia.
  - unfold set_gauge. destruct (negb _); cbn [with_gauge counters_]; lia.
  - unfold observe. destruct (_ || _); [lia|]. destruct (histograms_ r !! n); [destruct (negb _)|]; cbn [counters_]; lia.
Qed.

Lemma gauge_step r u : update_ok u -> i64_min <= gauge r name <= i64_max ->
  gauge (apply r u) name = gauge_after name (gauge r name) u /\ i64_min <= gauge (apply r u) name <= i64_max.
Proof using Hname.
  unfold gauge. intros Hu Hr. set (g := default 0 (gauges_ r !! name)) in *.
  assert (Hset : forall n v, n = name -> default 0 (gauges_ (with_gauge r n v) !! name) = v)
    by (intros n v ->; cbn [with_gauge gauges_]; by rewrite lookup_insert_eq).
  assert (Hother : forall n v, n <> name -> default 0 (gauges_ (with_gauge r n v) !! name) = g)
    by (intros n v Hn; cbn [with_gauge gauges_]; by rewrite lookup_insert_ne).
  destruct u as [n a|n a|n a|n v b]; cbn [apply gauge_after update_ok] in *.
  - unfold increment. by destruct (negb _).
  - unfold add_gauge. destruct (str_eqb_spec n name) as [->|Hn].
    + rewrite Hname. cbn [negb]. rewrite Hset by done. fold g. unfold clamp, i64_min, i64_max in *.
      destruct (Z.gtb_spec a 0), (Z.gtb_spec g (9223372036854775807 - a)), (Z.ltb_spec a 0),
        (Z.ltb_spec g (-9223372036854775808 - a)); cbn [andb]; lia.
    + destruct (negb _); [done|]. by rewrite Hother.
  - unfold set_gauge. destruct (str_eqb_spec n name) as [->|Hn].
    + rewrite Hname. cbn [negb]. by rewrite Hset.
    + destruct (negb _); [done|]. by rewrite Hother.
  - unfold observe. destruct (_ || _); [done|]. by destruct (histograms_ r !! n); [destruct (negb _)|].
Qed.

Lemma observe_other r n v b : n <> name -> histograms_ (observe r n v b) !! name = histograms_ r !! name.
Proof.
  intros Hn. unfold observe. destruct (_ || _); [done|].
  destruct (histograms_ r !! n); [destruct (negb _); [done|]|]; cbn [histograms_]; by rewrite lookup_insert_ne.
Qed.

Lemma histogram_step r log u : histograms_ r !! name = histogram_of <$> kept (observations name log) ->
  histograms_ (apply r u) !! name = histogram_of <$> kept (observations name (log ++ [u])).
Proof using Hname.
  intros Hr. rewrite observations_app. destruct u as [n a|n a|n a|n v b]; cbn [apply observations omap list_omap].
  - rewrite app_nil_r, <- Hr. unfold increment. by destruct (negb _).
  - rewrite app_nil_r, <- Hr. unfold add_gauge. by destruct (negb _).
  - rewrite app_nil_r, <- Hr. unfold set_gauge. by destruct (negb _).
  - destruct (str_eqb_spec n name) as [->|Hn].
    2: { cbn [andb]. rewrite app_nil_r, <- Hr. by apply observe_other. }
    cbn [andb]. unfold observe. rewrite Hname. cbn [negb orb].
    destruct (d_finite v); cbn [negb orb andb]; [|by rewrite app_nil_r].
    destruct (is_sorted b); cbn [negb orb andb]; [|by rewrite app_nil_r].
    destruct (no_adjacent_equal b); cbn [negb orb andb]; [|by rewrite app_nil_r].
    fold observations. rewrite kept_snoc, Hr. destruct (kept (observations name log)) as [[b' vs]|]; cbn [fmap option_fmap option_map].
    + cbn [histogram_of bounds fst]. destruct (same_bounds b' b); cbn [negb].
      * cbn [histograms_]. rewrite lookup_insert_eq. by rewrite <- add_value_of.
      * by rewrite Hr.
    + cbn [histograms_]. rewrite lookup_insert_eq. by rewrite histogram_empty, add_value_of.
Qed.

End names.

(** ** Cumulative counts *)

Lemma d_leb_weaken v x y : d_not_nan v = true -> d_not_nan x = true -> d_not_nan y = true ->
  d_leb v x = true -> d_ltb y x = false -> d_leb v y = true.
Proof.
  intros Hv Hx Hy Hle Hnlt. unfold d_leb, SpecFloat.SFleb, d_ltb, SpecFloat.SFltb in *.
  rewrite d_compare_key in * by done.
  destruct (lex3 (d_key v) (d_key y)) eqn:E; try done. exfalso.
  assert (Hyv : lex3 (d_key y) (d_key v) = Lt) by (rewrite lex3_antisym, E; done).
  assert (Hyx : lex3 (d_key y) (d_key x) = Lt).
  { destruct (lex3 (d_key v) (d_key x)) eqn:E'; [|by eapply lex3_lt_trans|done].
    apply lex3_eq in E'. by rewrite <- E'. }
  by rewrite Hyx in Hnlt.
Qed.

Lemma below_mono values x y : Forall (fun v => d_finite v = true) values -> d_not_nan x = true ->
  d_not_nan y = true -> d_ltb y x = false -> zlen (below x values) <= zlen (below y values).
Proof.
  intros Hv Hx Hy Hxy. unfold below. induction Hv as [|v values Hf Hv IH]; [done|].
  rewrite !filter_cons. destruct (decide (d_leb v x = true)) as [Hle|]; [|case_decide; rewrite ?zlen_cons; lia].
  rewrite decide_True by (apply (d_leb_weaken v x y); try assumption; by apply d_finite_not_nan).
  rewrite !zlen_cons. lia.
Qed.

Lemma below_all values x : zlen (below x values) <= zlen values.
Proof. unfold below, zlen. pose proof (length_filter (fun v => d_leb v x = true) values). lia. Qed.

Lemma kept_finite name log b vs : kept (observations name log) = Some (b, vs) ->
  Forall (fun v => d_finite v = true) vs /\ is_sorted b = true.
Proof.
  assert (Ho : Forall (fun o => d_finite o.1 = true /\ is_sorted o.2 = true) (observations name log)).
  { apply Forall_forall. intros [v x] [u [_ Hu]]%list_elem_of_omap. destruct u as [n a|n a|n a|n w y]; try done.
    destruct (str_eqb n name), (d_finite w) eqn:?, (is_sorted y) eqn:?, (no_adjacent_equal y); try done.
    by injection Hu as -> ->. }
  destruct (observations name log) as [|[v x] l]; [done|]. cbn [kept]. intros [= <- <-].
  inversion_clear Ho as [|? ? [Hv Hx] Hl]. split; [|done]. constructor; [done|].
  apply Forall_fmap, Forall_forall. intros o [_ Ho]%list_elem_of_filter. rewrite Forall_forall in Hl. by apply Hl.
Qed.

Lemma kept_length name log b vs : kept (observations name log) = Some (b, vs) -> zlen vs <= zlen log.
Proof.
  assert (Ho : (List.length (observations name log) <= List.length log)%nat).
  { unfold observations. induction log as [|u log IH]; [done|]. cbn [omap list_omap].
    destruct u as [n a|n a|n a|n v x]; cbn [List.length]; try lia. destruct (_ && _); cbn [List.length]; lia. }
  destruct (observations name log) as [|[v x] l]; [done|]. cbn [kept List.length] in *. intros [= <- <-].
  unfold zlen. cbn [List.length]. rewrite length_fmap.
  pose proof (length_filter (fun o : double * list double => same_bounds x o.2 = true) l). lia.
Qed.

Lemma cumulative b vs : Forall (fun v => d_finite v = true) vs -> is_sorted b = true ->
  Forall (fun x => d_not_nan x = true) b -> zlen vs <= u64_max ->
  Sorted Z.le (buckets (histogram_of (b, vs)) ++ [count (histogram_of (b, vs))]).
Proof.
  intros Hv Hs Hb Hn.
  assert (Hw : forall n, 0 <= n <= zlen vs -> wrap64 n = n).
  { intros n H. unfold wrap64. unfold u64_max in Hn. apply Z.mod_small. lia. }
  assert (Hbw : forall x, wrap64 (zlen (below x vs)) = zlen (below x vs)).
  { intros x. apply Hw. pose proof (below_all vs x). pose proof (zlen_nonneg (below x vs)). lia. }
  cbn [histogram_of buckets count fst snd]. rewrite Hw by (pose proof (zlen_nonneg vs); lia).
  induction Hb as [|x b Hx Hb IH]; [by repeat constructor|]. destruct b as [|y b].
  - cbn. rewrite Hbw. repeat constructor. apply below_all.
  - change (is_sorted (x :: y :: b)) with (negb (d_ltb y x) && is_sorted (y :: b)) in Hs.
    apply andb_prop in Hs as [Hxy Hs]. apply negb_true_iff in Hxy.
    cbn [fmap list_fmap app]. constructor; [by apply IH|]. constructor. rewrite !Hbw.
    inversion_clear Hb. by apply below_mono.
Qed.

(** ** The log and the registry *)

Definition snapshot_of (h : Histogram) : HistogramSnapshot :=
  {| upper_bounds := bounds h; cumulative_counts := buckets h; snapshot_count := count h; snapshot_sum := sum h |}.

Definition updated (u : Update) : string :=
  match u with Increment n _ | AddGauge n _ | SetGauge n _ | Observe n _ _ => n end.

Lemma apply_invalid name r u : valid_name name = false ->
  counters_ (apply r u) !! name = counters_ r !! name /\ gauges_ (apply r u) !! name = gauges_ r !! name /\
  histograms_ (apply r u) !! name = histograms_ r !! name.
Proof.
  intros Hname. destruct (decide (updated u = name)) as [<-|Hne].
  - destruct u as [n a|n a|n a|n v b]; cbn [apply updated] in *;
      unfold increment, add_gauge, set_gauge, observe; by rewrite Hname.
  - destruct u as [n a|n a|n a|n v b]; cbn [apply updated] in *;
      unfold increment, add_gauge, set_gauge.
    1-3: destruct (negb _); [done|]; cbn; by rewrite lookup_insert_ne.
    rewrite observe_other by done. unfold observe. destruct (_ || _); [done|].
    by destruct (histograms_ r !! n); [destruct (negb _)|].
Qed.

Lemma run_invalid name log : valid_name name = false ->
  counters_ (run log) !! name = None /\ gauges_ (run log) !! name = None /\ histograms_ (run log) !! name = None.
Proof.
  intros Hname. induction log as [|u log IH] using rev_ind; [done|]. rewrite run_snoc.
  by destruct (apply_invalid name (run log) u Hname) as (-> & -> & ->).
Qed.

Lemma run_valid name log : valid_name name = true -> Forall update_ok log ->
  counter (run log) name = Z.min u64_max (total name log) /\ 0 <= total name log /\
  gauge (run log) name = foldl (gauge_after name) 0 log /\ i64_min <= gauge (run log) name <= i64_max /\
  histograms_ (run log) !! name = histogram_of <$> kept (observations name log).
Proof.
  intros Hname. induction log as [|u log IH] using rev_ind; [done|].
  intros [Hlog Hu]%Forall_app. destruct (IH Hlog) as (Hc & Ht & Hg & Hr & Hh). apply Forall_inv in Hu as Hu'. clear Hu IH.
  rewrite run_snoc, total_snoc, foldl_app. cbn [foldl].
  assert (Hi : 0 <= incremented name u).
  { destruct u; cbn [incremented update_ok] in *; unfold is_u64 in *; try lia. destruct (str_eqb _ _); lia. }
  destruct (gauge_step name Hname (run log) u Hu' Hr) as [Hg' Hr'].
  split_and!; [|lia|by rewrite Hg', Hg|apply Hr'|apply Hr'|by apply histogram_step].
  rewrite counter_step, Hc; [unfold u64_max; lia|assumption..|rewrite Hc; unfold u64_max; lia].
Qed.

(** C40. The registry against any log of updates.  A counter is the sum of its
    increments, or the largest 64-bit value once the sum passes it; a gauge is
    the result of its additions and assignments, each addition clamped to the
    signed 64-bit range; neither ever wraps.  A histogram has the bounds of
    its first accepted observation, counts for each bound the accepted values
    that are not above it (modulo 2^64), and sums the values in order; its
    counts ascend up to the total count when no bound is a NaN.  Updates with
    an invalid name leave no trace. *)
Theorem metrics_of_log log (Hok : Forall update_ok log) name :
  (valid_name name = true ->
     counter (run log) name = Z.min u64_max (total name log) /\
     gauge (run log) name = foldl (gauge_after name) 0 log /\
     i64_min <= gauge (run log) name <= i64_max /\
     histogram (run log) name =
       match kept (observations name log) with
       | None => empty_snapshot
       | Some item => snapshot_of (histogram_of item)
       end) /\
  (valid_name name = false ->
     counter (run log) name = 0 /\ gauge (run log) name = 0 /\ histogram (run log) name = empty_snapshot) /\
  (Forall (fun x => d_not_nan x = true) (upper_bounds (histogram (run log) name)) -> zlen log <= u64_max ->
     let h := histogram (run log) name in
     Sorted Z.le (cumulative_counts h ++ [snapshot_count h])).
Proof.
  split_and!.
  - intros Hname. destruct (run_valid name log Hname Hok) as (Hc & _ & Hg & Hr & Hh).
    split_and!; [exact Hc|exact Hg|apply Hr|apply Hr|]. unfold histogram. rewrite Hh.
    by destruct (kept _).
  - intros Hname. unfold counter, gauge, histogram. by destruct (run_invalid name log Hname) as (-> & -> & ->).
  - unfold histogram. destruct (valid_name name) eqn:Hname.
    + destruct (run_valid name log Hname Hok) as (_ & _ & _ & _ & ->).
      destruct (kept (observations name log)) as [[b vs]|] eqn:Ek; [|intros _ _; repeat constructor].
      destruct (kept_finite _ _ _ _ Ek) as [Hf Hs]. intros Hb Hlen. apply cumulative; [exact Hf|exact Hs|exact Hb|].
      etransitivity; [|exact Hlen]. apply (kept_length _ _ _ _ Ek).
    + destruct (run_invalid name log Hname) as (_ & _ & ->). intros _ _. repeat constructor.
Qed.

Definition sample_log : list Update :=
  [Increment "a" u64_max; Increment "a" 3; Increment "b c" 1; AddGauge "a" 5; SetGauge "g" i64_min; AddGauge "g" (-1);
   Observe "h" d_half [d_zero; d_half; d_one]; Observe "h" d_one [d_zero; d_half; d_one]; Observe "h" d_one [d_one]].

Lemma metrics_of_log_witness :
  counter (run sample_log) "a" = u64_max /\ gauge (run sample_log) "g" = i64_min /\
  cumulative_counts (histogram (run sample_log) "h") = [0; 1; 2] /\ counter (run sample_log) "b c" = 0.
Proof.
  assert (H : Forall update_ok sample_log) by (repeat constructor; vm_compute; discriminate).
  pose proof (proj1 (metrics_of_log sample_log H "a") eq_refl) as (Ha & _).
  pose proof (proj1 (metrics_of_log sample_log H "g") eq_refl) as (_ & Hg & _).
  pose proof (proj1 (metrics_of_log sample_log H "h") eq_refl) as (_ & _ & _ & Hh).
  pose proof (proj1 (proj2 (metrics_of_log sample_log H "b c")) eq_refl) as (Hb & _).
  split; [rewrite Ha; vm_compute; reflexivity|]. split; [rewrite Hg; vm_compute; reflexivity|].
  split; [rewrite Hh; vm_compute; reflexivity|exact Hb].
Defined.
