(* ===== verification/Sockets.v ===== *)
(** * Programs over a socket

    The remote calls of src/distributed/shard_rpc.cpp loop until a deadline
    around system calls whose answers they do not control, so they are
    interaction trees: an event per system call, answered by the environment.
    The trace of a run is the list of its calls with their answers.

    Two program logics read the traces: [wp] for what holds at every moment and
    on return (with loop invariants, for loops that may not end), and [twp]
    for programs that return whatever an environment of some kind answers. *)

From S2P Require Import Prelude Bytes.
From ITree Require Import ITree.

(** ** System calls *)

(** The values of [errno] that the code tells apart. *)
Inductive Errno := eintr | eagain | epipe | einprogress | other_error (number : Z).

(** [descriptor.revents], by the tests the code makes on it. *)
Record Revents := { error_or_invalid : bool; hung_up : bool; requested : bool }.

Inductive PollAnswer := poll_ready (revents : Revents) | poll_timeout | poll_error (error : Errno).

Variant SocketE : Type -> Type :=
| Now : SocketE Z                                              (* steady_clock::now, in nanoseconds *)
| Poll (writing : bool) (milliseconds : Z) : SocketE PollAnswer
| Read (size : Z) : SocketE (expected Errno (list byte))       (* ::read, and the bytes it stored *)
| Write (bytes : list byte) : SocketE (expected Errno Z)       (* ::write *)
| BlockSigpipe : SocketE (expected Errno bool)                 (* was SIGPIPE already blocked? *)
| TakeSigpipe : SocketE unit                                   (* ::sigtimedwait *)
| RestoreSignals : SocketE (expected Errno unit)
| GetAddrInfo (host port : string) : SocketE (expected Z (list Z))
| NewSocket (address : Z) : SocketE (expected Errno Z)
| GetFlags (fd : Z) : SocketE (expected Errno Z)
| SetFlags (fd flags : Z) : SocketE (expected Errno unit)
| Connect (fd address : Z) : SocketE (expected Errno unit)
| PollConnect (fd milliseconds : Z) : SocketE (expected Errno bool) (* ready, or the timeout *)
| GetSocketError (fd : Z) : SocketE (expected Errno Z)
| Close (fd : Z) : SocketE unit.

#[export] Instance Errno_eq_dec : EqDecision Errno.
Proof. solve_decision. Defined.

(** A call and its answer. *)
Inductive action :=
| called_now (time : Z)
| called_poll (writing : bool) (milliseconds : Z) (answer : PollAnswer)
| called_read (size : Z) (answer : expected Errno (list byte))
| called_write (bytes : list byte) (answer : expected Errno Z)
| called_block (answer : expected Errno bool)
| called_take
| called_restore (answer : expected Errno unit)
| called_getaddrinfo (host port : string) (answer : expected Z (list Z))
| called_socket (address : Z) (answer : expected Errno Z)
| called_getflags (fd : Z) (answer : expected Errno Z)
| called_setflags (fd flags : Z) (answer : expected Errno unit)
| called_connect (fd address : Z) (answer : expected Errno unit)
| called_poll_connect (fd milliseconds : Z) (answer : expected Errno bool)
| called_socket_error (fd : Z) (answer : expected Errno Z)
| called_close (fd : Z).

Definition action_of {X} (e : SocketE X) : X -> action :=
  match e with
  | Now => called_now
  | Poll writing milliseconds => called_poll writing milliseconds
  | Read size => called_read size
  | Write bytes => called_write bytes
  | BlockSigpipe => called_block
  | TakeSigpipe => fun _ => called_take
  | RestoreSignals => called_restore
  | GetAddrInfo host port => called_getaddrinfo host port
  | NewSocket address => called_socket address
  | GetFlags fd => called_getflags fd
  | SetFlags fd flags => called_setflags fd flags
  | Connect fd address => called_connect fd address
  | PollConnect fd milliseconds => called_poll_connect fd milliseconds
  | GetSocketError fd => called_socket_error fd
  | Close fd => fun _ => called_close fd
  end.

(** What POSIX promises: no more bytes than asked for, counts within range, and
    [pthread_sigmask] is not interrupted. *)
Definition posix (a : action) : Prop :=
  match a with
  | called_read size (Ok bytes) => zlen bytes <= size
  | called_write bytes (Ok count) => 0 <= count <= zlen bytes
  | called_restore (Err e) => e <> eintr /\ e <> eagain
  | _ => True
  end.

(** The bytes that a trace took from the socket, and put into it. *)
Definition received (trace : list action) : list byte :=
  a ← trace; match a with called_read _ (Ok bytes) => bytes | _ => [] end.

Definition sent (trace : list action) : list byte :=
  a ← trace; match a with called_write bytes (Ok count) => take (Z.to_nat count) bytes | _ => [] end.

(** The sockets that a trace opened, and closed. *)
Definition opened (trace : list action) : list Z :=
  a ← trace; match a with called_socket _ (Ok fd) => [fd] | _ => [] end.

Definition closed (trace : list action) : list Z := a ← trace; match a with called_close fd => [fd] | _ => [] end.

(** ** Runs *)

Section runs.
Context {R : Type}.

Inductive reaches : itree SocketE R -> list action -> itree SocketE R -> Prop :=
| reaches_here t : reaches t [] t
| reaches_tau t u trace v : observe t = TauF u -> reaches u trace v -> reaches t trace v
| reaches_call t X (e : SocketE X) (x : X) k trace v :
    observe t = VisF e k -> reaches (k x) trace v -> reaches t (action_of e x :: trace) v.

Definition runs (t : itree SocketE R) (trace : list action) (r : R) : Prop :=
  exists u, reaches t trace u /\ observe u = RetF r.

End runs.

(** A call answers by its continuation (no axiom on equality is needed). *)
Lemma vis_cases {R X Y} (e : SocketE X) k (e' : SocketE Y) k' : (VisF e k : itree' SocketE R) = VisF e' k' ->
  forall y, exists x, action_of e' y = action_of e x /\ k' y = k x.
Proof.
  intros H. change (match (VisF e' k' : itree' SocketE R) with
    | VisF e0 k0 => forall y, exists x, action_of e0 y = action_of e x /\ k0 y = k x
    | _ => True
    end). rewrite <- H. intros x. by exists x.
Qed.

Lemma observe_bind {A B} (t : itree SocketE A) (k : A -> itree SocketE B) : observe (ITree.bind t k) =
  match observe t with
  | RetF a => observe (k a)
  | TauF u => TauF (ITree.bind u k)
  | VisF e h => VisF e (fun x => ITree.bind (h x) k)
  end.
Proof.
  change (observe (match observe t with
    | RetF a => k a
    | TauF u => Tau (ITree.bind u k)
    | VisF e h => Vis e (fun x => ITree.bind (h x) k)
    end) = match observe t with
    | RetF a => observe (k a)
    | TauF u => TauF (ITree.bind u k)
    | VisF e h => VisF e (fun x => ITree.bind (h x) k)
    end).
  by destruct (observe t).
Qed.

Lemma reaches_bind {A B} (t : itree SocketE A) (k : A -> itree SocketE B) trace w :
  reaches (ITree.bind t k) trace w ->
  (exists u, reaches t trace u /\ w = ITree.bind u k) \/
  (exists before after a, trace = before ++ after /\ runs t before a /\ reaches (k a) after w).
Proof.
  intros H. remember (ITree.bind t k) as b eqn:Eb. revert t Eb.
  induction H as [b|b b' trace w Ht H IH|b X e x k' trace w Ht H IH]; intros t ->.
  - left. exists t. split; [constructor|done].
  - rewrite observe_bind in Ht. destruct (observe t) as [a|u|Y e' k''] eqn:Et; [| |done].
    + right. exists [], trace, a. split; [done|]. split; [exists t; split; [constructor|done]|].
      by eapply reaches_tau.
    + injection Ht as <-.
      destruct (IH u eq_refl) as [(v & Hv & ->)|(before & after & a & -> & (v & Hv & Ea) & Hk)].
      * left. exists v. split; [by eapply reaches_tau|done].
      * right. exists before, after, a. split; [done|]. split; [|done]. exists v. split; [by eapply reaches_tau|done].
  - rewrite observe_bind in Ht. destruct (observe t) as [a|u|Y e' k''] eqn:Et; [|done|].
    + right. exists [], (action_of e x :: trace), a. split; [done|]. split; [exists t; split; [constructor|done]|].
      by eapply reaches_call.
    + destruct (vis_cases _ _ _ _ Ht x) as (y & -> & Ek).
      destruct (IH (k'' y) Ek) as [(v & Hv & ->)|(before & after & a & -> & (v & Hv & Ea) & Hk)].
      * left. exists v. split; [by eapply reaches_call|done].
      * right. exists (action_of e' y :: before), after, a. split; [done|]. split; [|done].
        exists v. split; [by eapply reaches_call|done].
Qed.

Lemma reaches_vis {R X} (t : itree SocketE R) (e : SocketE X) k trace w : observe t = VisF e k ->
  reaches t trace w ->
  (trace = [] /\ w = t) \/ (exists x after, trace = action_of e x :: after /\ reaches (k x) after w).
Proof.
  intros Ht H. destruct H as [t|t u trace w Ht' H|t Y e' y k' trace w Ht' H].
  - by left.
  - by rewrite Ht in Ht'.
  - right. rewrite Ht in Ht'. destruct (vis_cases _ _ _ _ Ht' y) as (x & -> & Ek).
    exists x, trace. split; [done|]. by rewrite <- Ek.
Qed.

Lemma reaches_tau_inv {R} (t u : itree SocketE R) trace w : observe t = TauF u -> reaches t trace w ->
  (trace = [] /\ w = t) \/ reaches u trace w.
Proof.
  intros Ht H. destruct H as [t|t u' trace w Ht' H|t Y e' y k' trace w Ht' H].
  - by left.
  - right. rewrite Ht in Ht'. by injection Ht' as ->.
  - by rewrite Ht in Ht'.
Qed.

Lemma reaches_ret_inv {R} (t : itree SocketE R) r trace w : observe t = RetF r -> reaches t trace w ->
  trace = [] /\ w = t.
Proof.
  intros Ht H. destruct H as [t|t u' trace w Ht' H|t Y e' y k' trace w Ht' H]; [done|..]; by rewrite Ht in Ht'.
Qed.

(** ** What holds at every moment

    [wp h t G Q]: the program [t], started after the trace [h], keeps the trace
    in [G] as long as it runs, and returns only with the trace and the result
    in [Q].  It need not return. *)

Definition wp {R} (h : list action) (t : itree SocketE R) (G : list action -> Prop)
    (Q : list action -> R -> Prop) : Prop :=
  forall trace u, Forall posix trace -> reaches t trace u ->
    G (h ++ trace) /\ (forall r, observe u = RetF r -> Q (h ++ trace) r).

Lemma wp_conseq {R} (G G' : list action -> Prop) h (t : itree SocketE R) (Q Q' : list action -> R -> Prop) :
  (forall h, G h -> G' h) -> (forall h r, G h -> Q h r -> Q' h r) -> wp h t G Q -> wp h t G' Q'.
Proof.
  intros HG HQ Ht trace u Hp H. destruct (Ht trace u Hp H) as [HG0 HQ0]. split; [by apply HG|].
  intros r Hr. apply HQ; [done|]. by apply HQ0.
Qed.

Section logic.
Context (G : list action -> Prop).

Lemma wp_here {R} h (t : itree SocketE R) Q : wp h t G Q -> G h /\ (forall r, observe t = RetF r -> Q h r).
Proof. intros H. specialize (H [] t (Forall_nil_2 _) (reaches_here t)). by rewrite app_nil_r in H. Qed.

Lemma wp_ret {R} h (r : R) (Q : list action -> R -> Prop) : G h -> Q h r -> wp h (Ret r) G Q.
Proof.
  intros HG HQ trace u _ H. apply (reaches_ret_inv _ r) in H as [-> ->]; [|done]. rewrite app_nil_r.
  split; [done|]. cbn. by intros r' [= <-].
Qed.

Lemma wp_call {X} h (e : SocketE X) (Q : list action -> X -> Prop) : G h ->
  (forall x, posix (action_of e x) -> G (h ++ [action_of e x]) /\ Q (h ++ [action_of e x]) x) ->
  wp h (ITree.trigger e) G Q.
Proof.
  intros HG HQ trace u Hp H. apply (reaches_vis _ e (fun x => Ret x)) in H; [|done].
  destruct H as [[-> ->]|(x & after & -> & H)].
  - rewrite app_nil_r. by split.
  - apply Forall_cons in Hp as [Hx _]. destruct (HQ x Hx) as [HG' HQ'].
    apply (reaches_ret_inv _ x) in H as [-> ->]; [|done]. split; [done|]. cbn. by intros r [= <-].
Qed.

Lemma wp_bind {A B} h (t : itree SocketE A) (k : A -> itree SocketE B) Q :
  wp h t G (fun h' a => wp h' (k a) G Q) -> wp h (ITree.bind t k) G Q.
Proof.
  intros Ht trace w Hp H. apply reaches_bind in H as [(u & Hu & ->)|(before & after & a & -> & (u & Hu & Ea) & Hk)].
  - destruct (Ht trace u Hp Hu) as [HG HQ]. split; [done|]. intros r Hr. rewrite observe_bind in Hr.
    destruct (observe u) as [a|u'|X e k'] eqn:Eu; [|done..]. by apply (wp_here _ _ _ (HQ a eq_refl)).
  - apply Forall_app in Hp as [Hb Ha]. destruct (Ht before u Hb Hu) as [_ HQ].
    rewrite app_assoc. exact (HQ a Ea after w Ha Hk).
Qed.

Lemma wp_mono {R} h (t : itree SocketE R) (Q Q' : list action -> R -> Prop) :
  (forall h r, G h -> Q h r -> Q' h r) -> wp h t G Q -> wp h t G Q'.
Proof.
  intros HQ Ht trace u Hp H. destruct (Ht trace u Hp H) as [HG HQr]. split; [done|].
  intros r Hr. apply HQ; [done|]. by apply HQr.
Qed.

Lemma wp_tau {R} h (t u : itree SocketE R) Q : observe t = TauF u -> wp h t G Q -> wp h u G Q.
Proof. intros Ht H trace w Hp Hu. apply (H trace w Hp). by eapply reaches_tau. Qed.

Lemma wp_vis {R X} h (t : itree SocketE R) (e : SocketE X) k x Q : observe t = VisF e k ->
  posix (action_of e x) -> wp h t G Q -> wp (h ++ [action_of e x]) (k x) G Q.
Proof.
  intros Ht Hx H trace w Hp Hu. rewrite <- app_assoc. apply (H (action_of e x :: trace) w); [by constructor|].
  by eapply reaches_call.
Qed.

(** The rest of the loop after its body. *)
Definition iter_rest {I R} (body : I -> itree SocketE (I + R)) (lr : I + R) : itree SocketE R :=
  match lr with inl i => Tau (ITree.iter body i) | inr r => Ret r end.

Lemma observe_iter {I R} (body : I -> itree SocketE (I + R)) i :
  observe (ITree.iter body i) = observe (ITree.bind (body i) (iter_rest body)).
Proof. reflexivity. Qed.

(** Loops, by an invariant of the loop's state and the trace. *)
Lemma wp_iter {I R} (body : I -> itree SocketE (I + R)) (Inv : I -> list action -> Prop) (Q : list action -> R -> Prop) :
  (forall i h, Inv i h -> wp h (body i) G (fun h' lr => match lr with inl j => Inv j h' | inr r => Q h' r end)) ->
  forall i h, Inv i h -> wp h (ITree.iter body i) G Q.
Proof.
  intros Hbody.
  assert (Hrest : forall t trace w, reaches t trace w -> forall u h,
    observe t = observe (ITree.bind u (iter_rest body)) ->
    wp h u G (fun h' lr => match lr with inl j => Inv j h' | inr r => Q h' r end) -> Forall posix trace ->
    G (h ++ trace) /\ (forall r, observe w = RetF r -> Q (h ++ trace) r)).
  { induction 1 as [t|t t' trace w Ht H IH|t X e x k trace w Ht H IH]; intros u h Hu Hw Hp;
      destruct (wp_here _ _ _ Hw) as [HG HQ]; rewrite observe_bind in Hu; rewrite ?app_nil_r.
    - split; [done|]. intros r Hr. rewrite Hr in Hu. destruct (observe u) as [[j|r']| |] eqn:Eu; try done.
      cbn in Hu. injection Hu as <-. by apply (HQ (inr r)).
    - rewrite Ht in Hu. destruct (observe u) as [[j|r']|u'|] eqn:Eu; try done; cbn in Hu; injection Hu as ->.
      + apply (IH (body j) h); [by rewrite observe_iter|by apply Hbody, (HQ (inl j))|done].
      + apply (IH u' h); [done|by eapply wp_tau|done].
    - rewrite Ht in Hu. apply Forall_cons in Hp as [Hx Hp].
      destruct (observe u) as [[j|r']|u'|Y e' k'] eqn:Eu; try done.
      destruct (vis_cases _ _ _ _ (eq_sym Hu) x) as (y & Ea & Ek). rewrite Ea in Hx |- *.
      rewrite cons_middle, app_assoc. apply (IH (k' y)); [by rewrite Ek|by apply (wp_vis _ u e' k')|done]. }
  intros i h Hi trace w Hp H. apply (Hrest (ITree.iter body i) trace w H (body i) h); [apply observe_iter| |done].
  by apply Hbody.
Qed.

End logic.

(** ** Programs that return

    An environment answers every call from the trace so far.  [twp env Q h t]:
    against that environment [t] returns, with the trace and result in [Q]. *)

Definition environment : Type := forall X, SocketE X -> list action -> X.

Section total.
Context (env : environment).

Inductive twp {R} (Q : list action -> R -> Prop) (h : list action) (t : itree SocketE R) : Prop :=
| twp_done r : observe t = RetF r -> Q h r -> twp Q h t
| twp_silent u : observe t = TauF u -> twp Q h u -> twp Q h t
| twp_asks X (e : SocketE X) k : observe t = VisF e k ->
    twp Q (h ++ [action_of e (env X e h)]) (k (env X e h)) -> twp Q h t.

Lemma twp_ret {R} (Q : list action -> R -> Prop) h r : Q h r -> twp Q h (Ret r).
Proof. intros H. by apply (twp_done _ _ _ r). Qed.

Lemma twp_call {X} (Q : list action -> X -> Prop) h (e : SocketE X) :
  Q (h ++ [action_of e (env X e h)]) (env X e h) -> twp Q h (ITree.trigger e).
Proof. intros H. apply (twp_asks _ _ _ X e (fun x => Ret x)); [done|]. by apply twp_ret. Qed.

Lemma twp_mono {R} (Q Q' : list action -> R -> Prop) h t : (forall h r, Q h r -> Q' h r) -> twp Q h t -> twp Q' h t.
Proof.
  intros HQ. induction 1 as [h t r Ht H|h t u Ht _ IH|h t X e k Ht _ IH].
  - by eapply twp_done; [|apply HQ].
  - by eapply twp_silent.
  - by eapply twp_asks.
Qed.

Lemma twp_bind {A B} (Q : list action -> B -> Prop) h (t : itree SocketE A) (k : A -> itree SocketE B) :
  twp (fun h' a => twp Q h' (k a)) h t -> twp Q h (ITree.bind t k).
Proof.
  induction 1 as [h t a Ht H|h t u Ht _ IH|h t X e k' Ht _ IH].
  - destruct H as [r Hr HQ|u Hu Hw|X e k' Hk Hw].
    + eapply twp_done; [|done]. by rewrite observe_bind, Ht.
    + eapply twp_silent; [|done]. by rewrite observe_bind, Ht.
    + eapply twp_asks; [|done]. by rewrite observe_bind, Ht.
  - eapply twp_silent; [|exact IH]. by rewrite observe_bind, Ht.
  - apply (twp_asks _ _ _ X e (fun x => ITree.bind (k' x) k)); [|exact IH]. by rewrite observe_bind, Ht.
Qed.

(** Loops, by a measure of the trace and the loop's state that each round
    makes smaller. *)
Lemma twp_iter {I R} (body : I -> itree SocketE (I + R)) (Inv : I -> list action -> Prop)
    (measure : I -> list action -> nat) (Q : list action -> R -> Prop) :
  (forall i h, Inv i h ->
    twp (fun h' lr => match lr with
         | inl j => Inv j h' /\ (measure j h' < measure i h)%nat
         | inr r => Q h' r
         end) h (body i)) ->
  forall i h, Inv i h -> twp Q h (ITree.iter body i).
Proof.
  intros Hbody i h. remember (measure i h) as n eqn:En.
  revert i h En. induction n as [n IH] using lt_wf_ind. intros i h -> Hi.
  assert (Hrest : twp Q h (ITree.bind (body i) (iter_rest body))).
  { apply twp_bind. eapply twp_mono; [|by apply Hbody]. intros h' [j|r]; cbn [iter_rest].
    - intros [Hj Hlt]. eapply twp_silent; [reflexivity|]. by eapply IH.
    - apply twp_ret. }
  destruct Hrest as [r Hr HQ|u Hu Hw|X e k Hk Hw].
  - by eapply twp_done.
  - by eapply twp_silent.
  - by eapply twp_asks.
Qed.

(** What an environment makes a program do is a run of it. *)
Lemma twp_runs {R} (Q : list action -> R -> Prop) h t : twp Q h t -> exists trace r, runs t trace r /\ Q (h ++ trace) r.
Proof.
  induction 1 as [h t r Ht H|h t u Ht _ (trace & r & (v & Hv & Er) & HQ)|h t X e k Ht _ (trace & r & (v & Hv & Er) & HQ)].
  - exists [], r. rewrite app_nil_r. split; [|done]. exists t. split; [constructor|done].
  - exists trace, r. split; [|done]. exists v. split; [by eapply reaches_tau|done].
  - exists (action_of e (env X e h) :: trace), r. rewrite <- app_assoc in HQ. split; [|done].
    exists v. split; [by eapply reaches_call|done].
Qed.

(** A steady clock: every reading is after [start] and after the readings
    before it. *)
Definition times (h : list action) : list Z := omap (fun a => match a with called_now t => Some t | _ => None end) h.

Class SteadyClock (start : Z) := {
  clock_start : forall h, start < env Z Now h;
  clock_advances : forall h, Forall (fun t => t < env Z Now h) (times h)
}.

(** The latest reading. *)
Definition latest (start : Z) (h : list action) : Z := foldr Z.max start (times h).

Lemma latest_app start h a : latest start (h ++ [a]) =
  match a with called_now t => Z.max t (latest start h) | _ => latest start h end.
Proof.
  unfold latest, times. rewrite omap_app, foldr_app. cbn [omap list_omap].
  destruct a; cbn [foldr]; try done.
  induction (omap _ h) as [|x l IH]; cbn [foldr]; lia.
Qed.

Lemma latest_lt `{!SteadyClock start} h : latest start h < env Z Now h.
Proof.
  unfold latest. pose proof (clock_start h) as Hs. pose proof (clock_advances h) as Ha.
  induction Ha as [|t l Ht Hl IH]; cbn [foldr]; lia.
Qed.

End total.

(** ** Runs by computation *)

(** The calls of a program against an environment, for [fuel] nodes of its
    tree. *)
Fixpoint drive {R} (env : environment) (fuel : nat) (h : list action) (t : itree SocketE R) : option (list action * R) :=
  match fuel with
  | O => None
  | S fuel' =>
      match observe t with
      | RetF r => Some (h, r)
      | TauF u => drive env fuel' h u
      | VisF e k => drive env fuel' (h ++ [action_of e (env _ e h)]) (k (env _ e h))
      end
  end.

Lemma drive_runs {R} env fuel : forall h (t : itree SocketE R) h' r, drive env fuel h t = Some (h', r) ->
  exists trace, h' = h ++ trace /\ runs t trace r.
Proof.
  induction fuel as [|fuel IH]; intros h t h' r; [done|]. cbn [drive].
  destruct (observe t) as [a|u|X e k] eqn:Et.
  - intros [= <- <-]. exists []. rewrite app_nil_r. split; [done|]. exists t. split; [constructor|done].
  - intros H. destruct (IH _ _ _ _ H) as (trace & -> & v & Hv & Er). exists trace. split; [done|].
    exists v. split; [by eapply reaches_tau|done].
  - intros H. destruct (IH _ _ _ _ H) as (trace & -> & v & Hv & Er). exists (action_of e (env X e h) :: trace).
    rewrite <- app_assoc. split; [done|]. exists v. split; [by eapply reaches_call|done].
Qed.

(** A peer that has [stream] to say, of which a call reads at most [chunk]
    bytes, and takes at most [chunk] bytes of a write; every call advances
    the clock. *)
Definition streaming (stream : list byte) (chunk : nat) : environment := fun X e h =>
  match e in SocketE X return X with
  | Now => latest 0 h + 1
  | Poll _ _ => poll_ready {| error_or_invalid := false; hung_up := false; requested := true |}
  | Read size => Ok (take (Z.to_nat (Z.min size (Z.of_nat chunk))) (drop (List.length (received h)) stream))
  | Write bytes => Ok (Z.min (zlen bytes) (Z.of_nat chunk))
  | BlockSigpipe => Ok false
  | TakeSigpipe => tt
  | RestoreSignals => Ok tt
  | GetAddrInfo _ _ => Ok [1]
  | NewSocket _ => Ok 3
  | GetFlags _ => Ok 2
  | SetFlags _ _ => Ok tt
  | Connect _ _ => Err einprogress
  | PollConnect _ _ => Ok true
  | GetSocketError _ => Ok 0
  | Close _ => tt
  end.

Definition posixb (a : action) : bool :=
  match a with
  | called_read size (Ok bytes) => zlen bytes <=? size
  | called_write bytes (Ok count) => (0 <=? count) && (count <=? zlen bytes)
  | called_restore (Err e) => negb (bool_decide (e = eintr)) && negb (bool_decide (e = eagain))
  | _ => true
  end.

Lemma posixb_posix a : posixb a = true -> posix a.
Proof.
  destruct a as [t|w m p|n [bs|e]|bs [c|e]|p| |[u|e]|host port x|d x|fd x|fd fl x|fd d x|fd m x|fd x|fd]; cbn; try done; intros H.
  - by apply Z.leb_le.
  - apply andb_prop in H as [H1%Z.leb_le H2%Z.leb_le]. done.
  - apply andb_prop in H as [H1%negb_true_iff H2%negb_true_iff]. by apply bool_decide_eq_false in H1, H2.
Qed.

#[export] Instance streaming_clock stream chunk : SteadyClock (streaming stream chunk) 0.
Proof.
  constructor; intros h; cbn [streaming]; unfold latest.
  - induction (times h) as [|t l IH]; cbn [foldr]; lia.
  - induction (times h) as [|t l IH]; cbn [foldr]; constructor; [lia|].
    eapply Forall_impl; [exact IH|]. cbn. lia.
Qed.
