(* ===== verification/Rpc.v ===== *)
(** * The shard protocol

    include/dse/distributed/shard_rpc.hpp and src/distributed/shard_rpc.cpp: a
    request and a response, each a frame of a 32-bit size and a payload, over
    a socket, with a deadline.  What both sides put in their payloads is a
    function ([request], [answer], [decode_response]); the transfers are
    interaction trees over the system calls of Sockets.v.

    The texts of [strerror] and the C library's [log1p] are parameters. *)

From S2P Require Import Prelude Bytes Text Doubles Cursor Sockets Index Ranking Query Parser Planner Executor.
From ITree Require Import ITree.
From Stdlib Require Import Init.Byte.

Inductive RpcErrorCode :=
| rpc_io_error | rpc_timeout | rpc_disconnected | rpc_protocol_error | rpc_resource_limit | rpc_remote_error.

#[export] Instance RpcErrorCode_eq_dec : EqDecision RpcErrorCode.
Proof. solve_decision. Defined.

Record RpcError := { rpc_code : RpcErrorCode; rpc_message : string }.

Record RpcLimits := { maximum_frame_bytes : Z; maximum_query_bytes : Z; maximum_hits : Z }.

Definition default_rpc_limits : RpcLimits :=
  {| maximum_frame_bytes := Z.shiftl 16 20; maximum_query_bytes := Z.shiftl 1 20; maximum_hits := 100000 |}.

Definition rpc_fail (code : RpcErrorCode) (message : string) : RpcError :=
  {| rpc_code := code; rpc_message := message |}.

(** ** Payloads *)

(** [text]: a string that is too long is left out, and the caller is not told. *)
Definition put_text (value : string) : list byte := if zstrlen value >? u32_max then [] else put_string32 value.

(** The reader of payloads; a read that fails leaves a null. *)
Module RpcCursor.

Definition cursor_byte (data : list byte) : option Z * list byte :=
  match data with [] => (None, []) | b :: rest => (Some (byte_val b), rest) end.

Definition fixed (width : nat) (data : list byte) : option Z * list byte :=
  if (List.length data <? width)%nat then (None, data)
  else (Some (get_int 0 0 (take width data)), drop width data).

Definition u32v : list byte -> option Z * list byte := fixed 4.
Definition u64v : list byte -> option Z * list byte := fixed 8.

Definition text (limit : Z) (data : list byte) : option string * list byte :=
  let '(n, rest) := u32v data in
  match n with
  | Some size =>
      if (size >? limit) || (size >? zlen rest) then (None, rest)
      else (Some (bytes_string (take (Z.to_nat size) rest)), drop (Z.to_nat size) rest)
  | None => (None, rest)
  end.

End RpcCursor.
Import RpcCursor.

Module ShardRpcClient.

Definition request (query : string) (top_k : Z) : list byte := byte_of 1 :: put_u64 top_k ++ put_text query.

Fixpoint read_hits (limits : RpcLimits) (count : nat) (data : list byte)
    : expected RpcError (list SearchHit * list byte) :=
  match count with
  | O => Ok ([], data)
  | S count' =>
      let '(id, rest) := text (maximum_frame_bytes limits) data in
      let '(bits, rest) := u64v rest in
      match id, bits with
      | Some id, Some bits =>
          '(hits, rest) ← read_hits limits count' rest;
          Ok ({| hit_document_id := id; hit_score := d_of_bits bits |} :: hits, rest)
      | _, _ => Err (rpc_fail rpc_protocol_error "invalid RPC hit")
      end
  end.

(** What the client makes of a response. *)
Definition decode_response (limits : RpcLimits) (response : list byte) : expected RpcError SearchResult :=
  let '(version, rest) := cursor_byte response in
  let '(status, rest) := cursor_byte rest in
  match version, status with
  | Some version, Some status =>
      _ ← ensure (version =? 1) (rpc_fail rpc_protocol_error "invalid RPC response");
      if negb (status =? 0) then
        let '(message, _) := text (maximum_frame_bytes limits) rest in
        Err (rpc_fail rpc_remote_error (default "remote search failed" message))
      else
        let '(total, rest) := u64v rest in
        let '(count, rest) := u32v rest in
        match total, count with
        | Some total, Some count =>
            _ ← ensure (negb (total >? u64_max) && negb (count >? maximum_hits limits))
                  (rpc_fail rpc_protocol_error "invalid RPC result header");
            '(hits, rest) ← read_hits limits (Z.to_nat count) rest;
            _ ← ensure (zlen rest =? 0) (rpc_fail rpc_protocol_error "trailing RPC response bytes");
            Ok {| hits := hits; total_hits := total |}
        | _, _ => Err (rpc_fail rpc_protocol_error "invalid RPC result header")
        end
  | _, _ => Err (rpc_fail rpc_protocol_error "invalid RPC response")
  end.

End ShardRpcClient.

Module ShardRpcServer.

Definition refusal (message : string) : list byte := byte_of 1 :: byte_of 1 :: put_text message.

Definition hit_bytes (hit : SearchHit) : list byte :=
  put_text (hit_document_id hit) ++ put_u64 (d_bits (hit_score hit)).

Definition success (result : SearchResult) : list byte :=
  byte_of 1 :: byte_of 0 :: put_u64 (total_hits result) ++ put_u32 (wrap32 (zlen (hits result))) ++
  (hits result ≫= hit_bytes).

(** The message of a failed [parse]; the two other failures of the model do
    not happen. *)
Definition failure_message (failure : Failure) : string :=
  match failure with parse_error e => parse_message e | _ => "" end.

(** [query::parse] and [QueryExecutor(index).search]: the result or the
    message that is sent back. *)
Definition run_query (log1p : double -> double) (index : SearchIndexView) (query : string) (top_k : Z)
    : expected string SearchResult :=
  parsed ← map_err failure_message (parse query default_limits);
  map_err execution_message
    (search log1p (make_executor index default_parameters) parsed
       {| top_k := top_k; search_default_fields := default_search_fields; planner_limits := default_planner_limits |}).

(** The response to a request. *)
Definition answer (log1p : double -> double) (index : SearchIndexView) (limits : RpcLimits) (request : list byte)
    : list byte :=
  let '(version, rest) := cursor_byte request in
  let '(top_k, rest) := u64v rest in
  let '(query, rest) := text (maximum_query_bytes limits) rest in
  match version, top_k, query with
  | Some version, Some top_k, Some query =>
      if negb (version =? 1) || (top_k >? maximum_hits limits) || negb (zlen rest =? 0)
      then refusal "invalid search request"
      else
        match run_query log1p index query top_k with
        | Ok result => success result
        | Err message => refusal message
        end
  | _, _, _ => refusal "invalid search request"
  end.

End ShardRpcServer.

(** ** Transfers *)

#[export] Instance itree_bind : MBind (itree SocketE) := fun A B f t => ITree.bind t f.

Definition syscall {X} (e : SocketE X) : itree SocketE X := ITree.trigger e.

(** A program that fails with an [RpcError]; the rest runs only on success. *)
Definition attempt {A B} (t : itree SocketE (expected RpcError A)) (k : A -> itree SocketE (expected RpcError B))
    : itree SocketE (expected RpcError B) :=
  ITree.bind t (fun r => match r with Ok a => k a | Err e => Ret (Err e) end).

Section transfers.
Context (strerror : Errno -> string).

(** One round of the loop of [wait_fd]: [inl] goes round again. *)
Definition wait_round (writing : bool) (deadline : Z) (_ : unit) : itree SocketE (unit + expected RpcError unit) :=
  now ← syscall Now;
  if now >=? deadline then Ret (inr (Err (rpc_fail rpc_timeout "RPC deadline exceeded")))
  else
    result ← syscall (Poll writing (Z.min ((deadline - now) / 1000000 + 1) 2147483647));
    Ret match result with
        | poll_ready revents =>
            inr (if error_or_invalid revents then Err (rpc_fail rpc_io_error "socket poll error")
                 else if hung_up revents && negb (requested revents)
                 then Err (rpc_fail rpc_disconnected "peer disconnected")
                 else Ok tt)
        | poll_timeout => inl tt
        | poll_error eintr => inl tt
        | poll_error e => inr (Err (rpc_fail rpc_io_error (strerror e)))
        end.

Definition wait_fd (writing : bool) (deadline : Z) : itree SocketE (expected RpcError unit) :=
  ITree.iter (wait_round writing deadline) tt.

Definition write_without_sigpipe (data : list byte) : itree SocketE (expected Errno Z) :=
  masked ← syscall BlockSigpipe;
  match masked with
  | Err e => Ret (Err e)
  | Ok previously =>
      count ← syscall (Write data);
      _ ← match count with
          | Err epipe => if negb previously then syscall TakeSigpipe else Ret tt
          | _ => Ret tt
          end;
      restore ← syscall RestoreSignals;
      Ret match restore, count with Err e, Ok _ => Err e | _, _ => count end
  end.

(** [::read] into the buffer from [done] on: the count and the buffer. *)
Definition read_into (buffer : list byte) (done : Z) : itree SocketE (expected Errno (Z * list byte)) :=
  result ← syscall (Read (zlen buffer - done));
  Ret match result with
      | Ok bytes => Ok (zlen bytes, take (Z.to_nat done) buffer ++ bytes ++ drop (Z.to_nat (done + zlen bytes)) buffer)
      | Err e => Err e
      end.

Definition write_from (buffer : list byte) (done : Z) : itree SocketE (expected Errno (Z * list byte)) :=
  count ← write_without_sigpipe (drop (Z.to_nat done) buffer);
  Ret match count with Ok n => Ok (n, buffer) | Err e => Err e end.

(** One round of the loop of [transfer], from the buffer and [done]. *)
Definition transfer_round (writing : bool) (deadline : Z) (state : list byte * Z)
    : itree SocketE (list byte * Z + expected RpcError (list byte)) :=
  let '(buffer, done) := state in
  if done <? zlen buffer then
    ready ← wait_fd writing deadline;
    match ready with
    | Err e => Ret (inr (Err e))
    | Ok _ =>
        moved ← (if writing then write_from buffer done else read_into buffer done);
        Ret match moved with
            | Ok (count, buffer') =>
                if count =? 0 then inr (Err (rpc_fail rpc_disconnected "peer disconnected"))
                else inl (buffer', done + count)
            | Err eintr | Err eagain => inl (buffer, done)
            | Err e => inr (Err (rpc_fail rpc_io_error (strerror e)))
            end
    end
  else Ret (inr (Ok buffer)).

(** The bytes are the buffer as the transfer leaves it. *)
Definition transfer (bytes : list byte) (writing : bool) (deadline : Z) : itree SocketE (expected RpcError (list byte)) :=
  ITree.iter (transfer_round writing deadline) (bytes, 0).

Definition frame_too_large : RpcError := rpc_fail rpc_resource_limit "RPC frame exceeds limit".

Definition receive_frame (deadline : Z) (limits : RpcLimits) : itree SocketE (expected RpcError (list byte)) :=
  attempt (transfer (replicate 4 x00) false deadline) (fun header =>
    match (u32v header).1 with
    | Some length =>
        if length >? maximum_frame_bytes limits then Ret (Err frame_too_large)
        else transfer (replicate (Z.to_nat length) x00) false deadline
    | None => Ret (Err frame_too_large)
    end).

Definition frame (payload : list byte) : list byte := put_u32 (wrap32 (zlen payload)) ++ payload.

Definition send_frame (payload : list byte) (deadline : Z) (limits : RpcLimits)
    : itree SocketE (expected RpcError unit) :=
  if zlen payload >? maximum_frame_bytes limits then Ret (Err frame_too_large)
  else attempt (transfer (frame payload) true deadline) (fun _ => Ret (Ok tt)).

(** ** The two sides *)

(** [ShardRpcClient::search] *)
Definition client_search (limits : RpcLimits) (query : string) (top_k deadline : Z)
    : itree SocketE (expected RpcError SearchResult) :=
  if (zstrlen query >? maximum_query_bytes limits) || (top_k >? maximum_hits limits)
  then Ret (Err (rpc_fail rpc_resource_limit "RPC request exceeds limit"))
  else
    attempt (send_frame (ShardRpcClient.request query top_k) deadline limits) (fun _ =>
    attempt (receive_frame deadline limits) (fun response =>
    Ret (ShardRpcClient.decode_response limits response))).

(** [ShardRpcServer::serve_one] *)
Definition serve_one (log1p : double -> double) (index : SearchIndexView) (deadline : Z) (limits : RpcLimits)
    : itree SocketE (expected RpcError unit) :=
  attempt (receive_frame deadline limits) (fun request =>
  send_frame (ShardRpcServer.answer log1p index limits request) deadline limits).

End transfers.
