(* ===== verification/RpcSpec.v ===== *)
(** * The payloads of the shard protocol

    What one side writes, the other side reads back: a client that receives
    the server's answer to its own request ends with the result of the query,
    or with the server's message. *)

From S2P Require Import Prelude Bytes Text Doubles Cursor Sockets Index Ranking Query Parser Planner Executor ScoreBits Rpc.
From Stdlib Require Import Init.Byte.
Import RpcCursor ShardRpcClient ShardRpcServer.

(** ** Reading what was written *)

Lemma fixed_put width v rest : 0 <= v < 2 ^ (Z.of_nat width * 8) -> fixed width (put_int width v ++ rest) = (Some v, rest).
Proof.
  intros Hv. unfold fixed. pose proof (length_put_int width v) as Hl.
  destruct (Nat.ltb_spec (List.length (put_int width v ++ rest)) width) as [H|_]; [rewrite length_app in H; lia|].
  rewrite take_app_length', drop_app_length' by done. by rewrite get_put_int, Z.mod_small.
Qed.

Lemma u32v_put v rest : is_u32 v -> u32v (put_u32 v ++ rest) = (Some v, rest).
Proof. intros H. apply fixed_put. change (2 ^ (Z.of_nat 4 * 8)) with 4294967296. unfold is_u32, u32_max in H. lia. Qed.

Lemma u64v_put v rest : is_u64 v -> u64v (put_u64 v ++ rest) = (Some v, rest).
Proof. intros H. apply fixed_put. change (2 ^ (Z.of_nat 8 * 8)) with 18446744073709551616. unfold is_u64, u64_max in H. lia. Qed.

Lemma cursor_byte_put v rest : 0 <= v < 256 -> cursor_byte (byte_of v :: rest) = (Some v, rest).
Proof. intros H. cbn [cursor_byte]. by rewrite byte_val_of, Z.mod_small by lia. Qed.

Lemma put_text_small s : zstrlen s <= u32_max -> put_text s = put_u32 (zstrlen s) ++ string_bytes s.
Proof. intros H. unfold put_text. destruct (Z.gtb_spec (zstrlen s) u32_max); [lia|done]. Qed.

Lemma rpc_text_put limit s rest : zstrlen s <= u32_max -> zstrlen s <= limit ->
  text limit (put_text s ++ rest) = (Some s, rest).
Proof.
  intros Hu Hl. rewrite put_text_small by done. pose proof (zstrlen_nonneg s) as H0.
  unfold text. rewrite <- app_assoc, u32v_put by done.
  destruct (Z.gtb_spec (zstrlen s) limit); [lia|]. rewrite zlen_app, zlen_string_bytes.
  pose proof (zlen_nonneg rest). destruct (Z.gtb_spec (zstrlen s) (zstrlen s + zlen rest)); [lia|]. cbn [orb].
  assert (Hn : Z.to_nat (zstrlen s) = List.length (string_bytes s)) by (rewrite length_string_bytes; unfold zstrlen; lia).
  by rewrite Hn, take_app_length, drop_app_length, bytes_string_bytes.
Qed.

Lemma zlen_put_text s : zstrlen s <= u32_max -> zlen (put_text s) = 4 + zstrlen s.
Proof.
  intros H. rewrite put_text_small, zlen_app, zlen_string_bytes by done. f_equal.
Qed.

(** ** Answers *)

(** Values that the wire can hold: identifiers with a 32-bit size, scores that
    a [double] holds, counts of their width. *)
Definition hit_ok (hit : SearchHit) : Prop :=
  zstrlen (hit_document_id hit) <= u32_max /\ d_valid (hit_score hit) = true.

Definition wire_ok (outcome : expected string SearchResult) : Prop :=
  match outcome with
  | Ok result => Forall hit_ok (hits result) /\ is_u64 (total_hits result)
  | Err message => zstrlen message <= u32_max
  end.

Definition respond (outcome : expected string SearchResult) : list byte :=
  match outcome with Ok result => success result | Err message => refusal message end.

(** What the client is to report. *)
Definition reported (outcome : expected string SearchResult) : expected RpcError SearchResult :=
  map_err (rpc_fail rpc_remote_error) outcome.

Lemma read_hits_put limits l : forall rest, Forall hit_ok l ->
  Forall (fun hit => zstrlen (hit_document_id hit) <= maximum_frame_bytes limits) l ->
  read_hits limits (List.length l) ((l ≫= hit_bytes) ++ rest) = Ok (l, rest).
Proof.
  induction l as [|[id score] l IH]; intros rest Hok Hlen; [done|].
  apply Forall_cons in Hok as [[Hid Hs] Hok]. apply Forall_cons in Hlen as [Hi Hlen]. cbn in Hid, Hs, Hi.
  rewrite bind_cons. unfold hit_bytes at 1. cbn [hit_document_id hit_score List.length read_hits].
  rewrite <- !app_assoc, rpc_text_put, u64v_put by (done || by apply d_bits_range).
  rewrite IH by done. cbn [mbind expected_bind]. by rewrite d_of_bits_bits.
Qed.

Lemma hits_length limits l : Forall hit_ok l -> zlen (l ≫= hit_bytes) <= limits ->
  Forall (fun hit => zstrlen (hit_document_id hit) <= limits) l.
Proof.
  induction 1 as [|[id score] l [Hid Hs] Hok IH]; [constructor|]. rewrite bind_cons, zlen_app. unfold hit_bytes at 1.
  cbn [hit_document_id hit_score] in *. rewrite zlen_app, zlen_put_text by done.
  pose proof (zlen_nonneg (l ≫= hit_bytes)). pose proof (zlen_nonneg (put_u64 (d_bits score))). intros Hl.
  pose proof (zstrlen_nonneg id). constructor; [cbn; lia|apply IH; lia].
Qed.

Lemma decode_success limits result : wire_ok (Ok result) -> zlen (hits result) <= maximum_hits limits ->
  zlen (hits result) <= u32_max -> zlen (success result) <= maximum_frame_bytes limits ->
  decode_response limits (success result) = Ok result.
Proof.
  intros [Hh Ht] Hn Hu Hf. pose proof (zlen_nonneg (hits result)) as H0.
  unfold decode_response, success in *.
  rewrite !cursor_byte_put by lia. cbn [Z.eqb Pos.eqb ensure mbind expected_bind negb].
  assert (Hw : wrap32 (zlen (hits result)) = zlen (hits result)) by (unfold wrap32, u32_max in *; apply Z.mod_small; lia).
  rewrite Hw in *. rewrite u64v_put by done. rewrite u32v_put by done.
  unfold is_u64 in Ht. destruct (Z.gtb_spec (total_hits result) u64_max); [lia|].
  destruct (Z.gtb_spec (zlen (hits result)) (maximum_hits limits)); [lia|]. cbn [negb andb ensure mbind expected_bind].
  assert (El : Z.to_nat (zlen (hits result)) = List.length (hits result)) by (unfold zlen; lia). rewrite El.
  rewrite <- (app_nil_r (hits result ≫= hit_bytes)).
  rewrite read_hits_put; [|done|].
  - cbn. by destruct result.
  - apply hits_length; [done|]. rewrite !zlen_cons, !zlen_app in Hf.
    pose proof (zlen_nonneg (put_u64 (total_hits result))). pose proof (zlen_nonneg (put_u32 (zlen (hits result)))). lia.
Qed.

Lemma decode_refusal limits message : zstrlen message <= u32_max -> zlen (refusal message) <= maximum_frame_bytes limits ->
  decode_response limits (refusal message) = Err (rpc_fail rpc_remote_error message).
Proof.
  intros Hu Hf. unfold decode_response, refusal in *. rewrite !cursor_byte_put by lia.
  cbn [Z.eqb Pos.eqb ensure mbind expected_bind negb].
  rewrite !zlen_cons, zlen_put_text in Hf by done. rewrite <- (app_nil_r (put_text message)), rpc_text_put by (done || lia).
  done.
Qed.

(** The outcome of a request: the server's limits, then the query. *)
Definition outcome (log1p : double -> double) (index : SearchIndexView) (limits : RpcLimits) (query : string) (top_k : Z)
    : expected string SearchResult :=
  if (zstrlen query >? maximum_query_bytes limits) || (top_k >? maximum_hits limits) then Err "invalid search request"
  else run_query log1p index query top_k.

Lemma answer_request log1p index limits query top_k : zstrlen query <= u32_max -> is_u64 top_k ->
  answer log1p index limits (request query top_k) = respond (outcome log1p index limits query top_k).
Proof.
  intros Hq Hk. unfold answer, request, outcome. rewrite cursor_byte_put by lia. rewrite u64v_put by done.
  destruct (Z.gtb_spec (zstrlen query) (maximum_query_bytes limits)) as [Hl|Hl]; cbn [orb].
  - rewrite put_text_small by done. pose proof (zstrlen_nonneg query). unfold text.
    rewrite u32v_put by done. destruct (Z.gtb_spec (zstrlen query) (maximum_query_bytes limits)); [done|lia].
  - rewrite <- (app_nil_r (put_text query)), rpc_text_put by done. cbn [Z.eqb Pos.eqb negb orb].
    destruct (top_k >? maximum_hits limits); [done|]. cbn [orb zlen List.length Z.of_nat Z.eqb negb].
    unfold respond. by destruct (run_query log1p index query top_k).
Qed.

(** What a search returned, if there is a result. *)
Lemma outcome_search log1p index limits query top_k result : 0 <= top_k -> outcome log1p index limits query top_k = Ok result ->
  top_k <= maximum_hits limits /\ zlen (hits result) <= top_k /\ 0 <= total_hits result /\
  Forall (fun hit => d_finite (hit_score hit) = true /\ d_valid (hit_score hit) = true) (hits result).
Proof.
  intros Hk. unfold outcome. destruct (Z.gtb_spec top_k (maximum_hits limits)) as [|Hm]; [by rewrite orb_true_r|].
  destruct (_ || _); [done|]. unfold run_query. destruct (parse _ _) as [parsed|]; [|done].
  cbn [map_err mbind expected_bind]. destruct (search _ _ _ _) as [r|] eqn:E; [|done]. cbn [map_err]. intros [= <-].
  split; [exact Hm|]. by apply search_scores in E.
Qed.

(** The sizes that the wire has to hold: lengths of 32 bits, a count of 64. *)
Definition outcome_fits (outcome : expected string SearchResult) : Prop :=
  match outcome with
  | Ok result =>
      Forall (fun hit => zstrlen (hit_document_id hit) <= u32_max) (hits result) /\ total_hits result <= u64_max
  | Err message => zstrlen message <= u32_max
  end.

Lemma outcome_wire log1p index limits query top_k : 0 <= top_k ->
  outcome_fits (outcome log1p index limits query top_k) -> wire_ok (outcome log1p index limits query top_k).
Proof.
  intros Hk. destruct (outcome _ _ _ _ _) as [result|message] eqn:E; [|done]. intros [Hl Ht].
  apply outcome_search in E as (_ & _ & H0 & Hs); [|done]. split; [|by unfold is_u64].
  rewrite Forall_forall in Hl, Hs |- *. intros hit Hhit. split; [by apply Hl|by apply Hs].
Qed.
