(* ===== verification/RpcRuns.v ===== *)
(** * What the two sides of a remote search put on the socket

    The traces of [transfer], [receive_frame], [send_frame], [client_search]
    and [serve_one], whatever the system calls answer. *)

From S2P Require Import Prelude Bytes Text Doubles Cursor Sockets Index Ranking Query Parser Planner Executor Rpc RpcSpec.
From ITree Require Import ITree.
From Stdlib Require Import Init.Byte.
Import RpcCursor ShardRpcClient ShardRpcServer.

(** ** Traces *)

Definition taken (a : action) : list byte := match a with called_read _ (Ok bytes) => bytes | _ => [] end.

Definition given (a : action) : list byte :=
  match a with called_write bytes (Ok count) => take (Z.to_nat count) bytes | _ => [] end.

Lemma received_snoc h a : received (h ++ [a]) = received h ++ taken a.
Proof. unfold received. rewrite bind_app. f_equal. apply app_nil_r. Qed.

Lemma sent_snoc h a : sent (h ++ [a]) = sent h ++ given a.
Proof. unfold sent. rewrite bind_app. f_equal. apply app_nil_r. Qed.

Definition socket_call (a : action) : bool := match a with called_socket _ _ | called_close _ => true | _ => false end.

Lemma opened_snoc h a : opened (h ++ [a]) = opened h ++ match a with called_socket _ (Ok fd) => [fd] | _ => [] end.
Proof. unfold opened. rewrite bind_app. f_equal. apply app_nil_r. Qed.

Lemma closed_snoc h a : closed (h ++ [a]) = closed h ++ match a with called_close fd => [fd] | _ => [] end.
Proof. unfold closed. rewrite bind_app. f_equal. apply app_nil_r. Qed.

(** The bytes exchanged from [h] to [h'], over a socket that is there. *)
Definition moved (h h' : list action) (got put : list byte) : Prop :=
  received h' = received h ++ got /\ sent h' = sent h ++ put /\ opened h' = opened h /\ closed h' = closed h.

Lemma moved_refl h : moved h h [] [].
Proof. by split_and!; rewrite ?app_nil_r. Qed.

Lemma moved_snoc h h' got put a : moved h h' got put -> socket_call a = false ->
  moved h (h' ++ [a]) (got ++ taken a) (put ++ given a).
Proof.
  intros (Hr & Hs & Ho & Hc) Ha. unfold moved. rewrite <- Ho, <- Hc, opened_snoc, closed_snoc.
  split_and!; try (by rewrite ?received_snoc, ?sent_snoc, ?Hr, ?Hs, app_assoc); destruct a; try done; by rewrite app_nil_r.
Qed.

Lemma moved_quiet h h' got put a : moved h h' got put -> taken a = [] -> given a = [] -> socket_call a = false ->
  moved h (h' ++ [a]) got put.
Proof. intros H Ht Hg Ha. apply (moved_snoc _ _ _ _ a) in H; [|done]. by rewrite Ht, Hg, !app_nil_r in H. Qed.

(** The errors of the transport, as opposed to those of the protocol. *)
Definition transport (e : RpcError) : Prop :=
  rpc_code e = rpc_io_error \/ rpc_code e = rpc_timeout \/ rpc_code e = rpc_disconnected.

Definition failed_by {A} (P : RpcError -> Prop) (r : expected RpcError A) : Prop :=
  match r with Ok _ => True | Err e => P e end.

Section transfers.
Context (strerror : Errno -> string) (G : list action -> Prop).

Lemma wp_attempt {A B} h (t : itree SocketE (expected RpcError A)) (k : A -> itree SocketE (expected RpcError B))
    (Q : list action -> expected RpcError B -> Prop) :
  wp h t G (fun h' r => G h' /\ match r with Ok a => wp h' (k a) G Q | Err e => Q h' (Err e) end) ->
  wp h (attempt t k) G Q.
Proof.
  intros H. apply wp_bind. eapply wp_mono; [|exact H]. cbn. intros h' [a|e] _ [HG Hr]; [done|]. by apply wp_ret.
Qed.

(** Waiting exchanges no bytes, and fails only by the transport. *)
Lemma wp_wait h0 start got put writing deadline Q : moved h0 start got put ->
  (forall h', moved h0 h' got put -> G h') ->
  (forall h' r, moved h0 h' got put -> failed_by transport r -> Q h' r) ->
  wp start (wait_fd strerror writing deadline) G Q.
Proof.
  intros Hstart HG HQ. unfold wait_fd. apply (wp_iter G _ (fun _ h' => moved h0 h' got put)); [|done].
  intros [] h Hm. unfold wait_round. apply wp_bind. apply wp_call; [by apply HG|]. intros now _.
  apply (moved_quiet _ _ _ _ (called_now now)) in Hm; [|done..]. split; [by apply HG|]. cbn [action_of].
  destruct (now >=? deadline); [apply wp_ret; [by apply HG|]; apply HQ; [done|]; cbn; unfold transport; auto|].
  apply wp_bind. apply wp_call; [by apply HG|]. intros result _.
  apply (moved_quiet _ _ _ _ (called_poll writing (Z.min ((deadline - now) / 1000000 + 1) 2147483647) result)) in Hm; [|done..].
  split; [by apply HG|]. cbn [action_of]. apply wp_ret; [by apply HG|].
  destruct result as [revents| |[| | | |n]]; try done; try (apply HQ; [done|]; cbn; unfold transport; auto).
  destruct (error_or_invalid revents); [left; done|]. by destruct (_ && _); [right; right|].
Qed.

(** [write] hands over at least the bytes it reports. *)
Lemma wp_write h0 h got put data Q : moved h0 h got put ->
  (forall h' n, moved h0 h' got (put ++ take n data) -> G h') ->
  (forall h' n, 0 <= n <= zlen data -> moved h0 h' got (put ++ take (Z.to_nat n) data) -> Q h' (Ok n)) ->
  (forall h' e n, moved h0 h' got (put ++ take n data) -> n = 0%nat \/ (e <> eintr /\ e <> eagain) -> Q h' (Err e)) ->
  wp h (write_without_sigpipe data) G Q.
Proof.
  intros Hm HG HOk HErr. assert (H0 : forall h', moved h0 h' got put -> moved h0 h' got (put ++ take 0 data))
    by (intros h' H; by rewrite take_0, app_nil_r).
  assert (HG0 : forall h', moved h0 h' got put -> G h') by (intros h' H; by apply (HG h' 0%nat), H0).
  unfold write_without_sigpipe. apply wp_bind. apply wp_call; [by apply HG0|]. intros masked _.
  apply (moved_quiet _ _ _ _ (called_block masked)) in Hm; [|done..]. split; [by apply HG0|]. cbn [action_of].
  destruct masked as [previously|e]; [|apply wp_ret; [by apply HG0|]; apply (HErr _ e 0%nat); [by apply H0|by left]].
  apply wp_bind. apply wp_call; [by apply HG0|]. intros count Hcount.
  apply (moved_snoc _ _ _ _ (called_write data count)) in Hm; [|done]. cbn [taken] in Hm. rewrite app_nil_r in Hm.
  cbn [action_of]. assert (Hput : exists n, given (called_write data count) = take n data /\
      match count with Ok c => n = Z.to_nat c | Err _ => n = 0%nat end).
  { destruct count as [c|e]; [by exists (Z.to_nat c)|by exists 0%nat]. }
  destruct Hput as (n & Eg & Hn). rewrite Eg in Hm. clear Eg. split; [by eapply HG|].
  apply wp_bind. eapply (wp_mono _ _ _ (fun h' _ => moved h0 h' got (put ++ take n data))).
  - intros h1 [] _ Hm1. apply wp_bind. apply wp_call; [by eapply HG|]. intros restore Hrestore.
    apply (moved_quiet _ _ _ _ (called_restore restore)) in Hm1; [|done..]. split; [by eapply HG|]. cbn [action_of].
    apply wp_ret; [by eapply HG|]. destruct restore as [[]|e], count as [c|e']; subst n.
    + by apply HOk.
    + eapply HErr; [done|by left].
    + eapply HErr; [done|by right].
    + eapply HErr; [done|by left].
  - assert (Hret : wp (h ++ [called_block (Ok previously)] ++ [called_write data count]) (Ret tt : itree SocketE unit) G
        (fun h' _ => moved h0 h' got (put ++ take n data))).
    { rewrite app_assoc. apply wp_ret; [by eapply HG|done]. }
    rewrite app_assoc in Hret.
    destruct count as [c|[| | | |m]]; try exact Hret. destruct previously; [exact Hret|].
    apply wp_call; [by eapply HG|]. intros [] _.
    apply (moved_quiet _ _ _ _ called_take) in Hm; [|done..]. split; [by eapply HG|done].
Qed.

(** Writing a buffer: a prefix of it at every moment, all of it on success. *)
Lemma wp_transfer_write h0 start got put bytes deadline Q : moved h0 start got put ->
  (forall h' n, moved h0 h' got (put ++ take n bytes) -> G h') ->
  (forall h' n r, moved h0 h' got (put ++ take n bytes) -> failed_by transport r ->
     match r with Ok _ => take n bytes = bytes | Err _ => True end -> Q h' r) ->
  wp start (transfer strerror bytes true deadline) G Q.
Proof.
  intros Hstart HG HQ. unfold transfer.
  apply (wp_iter G _ (fun state h' => state.1 = bytes /\ 0 <= state.2 /\
    moved h0 h' got (put ++ take (Z.to_nat state.2) bytes))).
  2: { cbn [fst snd]. split_and!; [done|lia|]. change (Z.to_nat 0) with 0%nat. by rewrite take_0, app_nil_r. }
  intros [buffer done'] h (Eb & H0 & Hm). cbn [fst snd] in *. subst buffer. unfold transfer_round.
  destruct (Z.ltb_spec done' (zlen bytes)) as [Hlt|Hge].
  2: { apply wp_ret; [by eapply HG|]. eapply HQ; [exact Hm|done|]. apply take_ge. unfold zlen in Hge. lia. }
  apply wp_bind. eapply wp_wait; [exact Hm|intros h'; by apply HG|]. intros h1 [[]|e] Hm1 He.
  2: { apply wp_ret; [by eapply HG|]. by eapply HQ. }
  assert (Hjoin : forall m, take (Z.to_nat done') bytes ++ take m (drop (Z.to_nat done') bytes) =
    take (Z.to_nat done' + m) bytes) by (intros m; apply take_take_drop).
  apply wp_bind, wp_bind. eapply wp_write; [exact Hm1|..].
  - intros h' n H. rewrite <- app_assoc, Hjoin in H. by eapply HG.
  - intros h' n Hn H. rewrite <- app_assoc, Hjoin in H.
    replace (Z.to_nat done' + Z.to_nat n)%nat with (Z.to_nat (done' + n)) in H by lia.
    apply wp_ret; [by eapply HG|]. apply wp_ret; [by eapply HG|].
    destruct (n =? 0); [eapply HQ; [exact H| |done]; cbn; unfold transport; auto|].
    cbn [fst snd]. split_and!; [done|lia|done].
  - intros h' x n H Hx. rewrite <- app_assoc, Hjoin in H.
    apply wp_ret; [by eapply HG|]. apply wp_ret; [by eapply HG|].
    destruct x as [| | | |m].
    + destruct Hx as [->|[? _]]; [|done]. rewrite Nat.add_0_r in H. by split_and!.
    + destruct Hx as [->|[_ ?]]; [|done]. rewrite Nat.add_0_r in H. by split_and!.
    + eapply HQ; [exact H| |done]. cbn. unfold transport. auto.
    + eapply HQ; [exact H| |done]. cbn. unfold transport. auto.
    + eapply HQ; [exact H| |done]. cbn. unfold transport. auto.
Qed.

(** Reading fills the buffer in order, and never takes more than fits. *)
Lemma wp_transfer_read h0 start got put size deadline Q : moved h0 start got put ->
  (forall h' p, moved h0 h' (got ++ p) put -> (List.length p <= size)%nat -> G h') ->
  (forall h' p r, moved h0 h' (got ++ p) put -> (List.length p <= size)%nat -> failed_by transport r ->
     match r with Ok bytes => bytes = p /\ List.length p = size | Err _ => True end -> Q h' r) ->
  wp start (transfer strerror (replicate size x00) false deadline) G Q.
Proof.
  intros Hstart HG HQ. unfold transfer.
  apply (wp_iter G _ (fun state h' => List.length state.1 = size /\ 0 <= state.2 <= Z.of_nat size /\
    moved h0 h' (got ++ take (Z.to_nat state.2) state.1) put)).
  2: { cbn [fst snd]. split_and!; [apply length_replicate|lia|lia|]. change (Z.to_nat 0) with 0%nat.
       by rewrite take_0, app_nil_r. }
  intros [buffer done'] h (El & H0 & Hm). cbn [fst snd] in *.
  assert (Hl : (List.length (take (Z.to_nat done') buffer) <= size)%nat) by (rewrite length_take; lia).
  unfold transfer_round. destruct (Z.ltb_spec done' (zlen buffer)) as [Hlt|Hge].
  2: { apply wp_ret; [by eapply HG|]. unfold zlen in Hge.
       eapply HQ; [exact Hm|done|done|]. rewrite take_ge by lia. by rewrite El. }
  apply wp_bind. eapply wp_wait; [exact Hm|intros h' H; by eapply HG|]. intros h1 [[]|e] Hm1 He.
  2: { apply wp_ret; [by eapply HG|]. by eapply HQ. }
  apply wp_bind. unfold read_into. apply wp_bind. apply wp_call; [by eapply HG|]. intros result Hresult.
  apply (moved_snoc _ _ _ _ (called_read (zlen buffer - done') result)) in Hm1; [|done]. cbn [given] in Hm1.
  rewrite app_nil_r in Hm1. cbn [action_of posix] in *. unfold zlen in *.
  destruct result as [bytes|x]; cbn [taken] in Hm1.
  - assert (Hb : (List.length bytes + Z.to_nat done' <= size)%nat) by lia.
    rewrite <- app_assoc in Hm1.
    assert (Hp : List.length (take (Z.to_nat done') buffer ++ bytes) = (Z.to_nat done' + List.length bytes)%nat).
    { rewrite length_app, length_take. lia. }
    split; [eapply HG; [exact Hm1|lia]|]. apply wp_ret; [eapply HG; [exact Hm1|lia]|].
    apply wp_ret; [eapply HG; [exact Hm1|lia]|].
    destruct (Z.eqb_spec (Z.of_nat (List.length bytes)) 0) as [E0|E0].
    + eapply HQ; [exact Hm1|lia| |done]. cbn. unfold transport. auto.
    + cbn [fst snd]. split_and!; [|lia|lia|].
      * rewrite !length_app, length_take, length_drop. lia.
      * rewrite app_assoc, take_app_length'; [exact Hm1|]. rewrite Hp. lia.
  - rewrite app_nil_r in Hm1. split; [by eapply HG|]. apply wp_ret; [by eapply HG|]. apply wp_ret; [by eapply HG|].
    destruct x as [| | | |m]; cbn [fst snd]; [exact (conj El (conj H0 Hm1))|exact (conj El (conj H0 Hm1))|..];
      (eapply HQ; [exact Hm1|done| |done]; cbn; unfold transport; auto).
Qed.

(** ** Frames *)

(** The part of a frame within the limits that has arrived. *)
Definition within_frame (limits : RpcLimits) (p : list byte) : Prop :=
  (List.length p <= 4)%nat \/
  exists n rest, p = put_u32 n ++ rest /\ is_u32 n /\ n <= maximum_frame_bytes limits /\ zlen rest <= n.

(** The header of a frame that is not within the limits. *)
Definition oversized (limits : RpcLimits) (p : list byte) : Prop :=
  exists n, p = put_u32 n /\ is_u32 n /\ n > maximum_frame_bytes limits.

Lemma within_frame_frame limits payload : zlen payload <= maximum_frame_bytes limits -> zlen payload <= u32_max ->
  within_frame limits (frame payload).
Proof.
  intros Hl Hu. pose proof (zlen_nonneg payload). right. exists (zlen payload), payload.
  unfold frame, wrap32. rewrite Z.mod_small by (unfold u32_max in Hu; lia). done.
Qed.

Lemma wp_receive_frame h0 start got put deadline limits Q : moved h0 start got put ->
  (forall h' p, moved h0 h' (got ++ p) put -> within_frame limits p -> G h') ->
  (forall h' p r, moved h0 h' (got ++ p) put -> within_frame limits p ->
     failed_by (fun e => transport e \/ (e = frame_too_large /\ oversized limits p)) r ->
     match r with
     | Ok payload => p = frame payload /\ zlen payload <= maximum_frame_bytes limits /\ zlen payload <= u32_max
     | Err _ => True
     end -> Q h' r) ->
  wp start (receive_frame strerror deadline limits) G Q.
Proof.
  intros Hstart HG HQ. unfold receive_frame. apply wp_attempt. eapply wp_transfer_read; [exact Hstart|..].
  { intros h' p H Hp. eapply HG; [exact H|by left]. }
  intros h1 p [header|e] Hm Hp He Hr; (split; [eapply HG; [exact Hm|by left]|]).
  2: { eapply HQ; [exact Hm|by left|by left|done]. }
  destruct Hr as [-> H4]. unfold u32v, fixed. rewrite H4. cbn [Nat.ltb Nat.leb fst].
  set (n := get_int 0 0 (take 4 p)).
  assert (Hn : is_u32 n).
  { unfold n. pose proof (get_int_range (take 4 p)) as H. rewrite length_take, H4 in H. cbn in H.
    unfold is_u32, u32_max. lia. }
  assert (Ep : p = put_u32 n).
  { unfold n, put_u32. rewrite (take_ge p) by lia. rewrite <- H4 at 1. symmetry. apply put_get_int. }
  destruct (Z.gtb_spec n (maximum_frame_bytes limits)) as [Hgt|Hle].
  { apply wp_ret; [eapply HG; [exact Hm|by left]|]. eapply HQ; [exact Hm|by left| |done].
    right. split; [done|]. exists n. split_and!; [done..|lia]. }
  clearbody n. subst p.
  assert (Hin : forall q, (List.length q <= Z.to_nat n)%nat -> within_frame limits (put_u32 n ++ q)).
  { intros q Hq. right. exists n, q. unfold zlen, is_u32 in *. split_and!; done || lia. }
  eapply wp_transfer_read; [exact Hm|..].
  { intros h' q H Hq. rewrite <- app_assoc in H. eapply HG; [exact H|by apply Hin]. }
  intros h2 q r Hm2 Hq Her Hr2. rewrite <- app_assoc in Hm2. eapply HQ; [exact Hm2|by apply Hin|..].
  - destruct r; [done|by left].
  - destruct r as [payload|e]; [|done]. destruct Hr2 as [-> Hlen].
    assert (En : zlen q = n) by (unfold zlen, is_u32 in *; lia). unfold is_u32 in Hn. split_and!; [|lia..].
    unfold frame. rewrite En. unfold wrap32. rewrite Z.mod_small by (unfold u32_max in Hn; lia). done.
Qed.

Lemma wp_send_frame h0 start got put payload deadline limits Q : moved h0 start got put ->
  (forall h' n, moved h0 h' got (put ++ take n (frame payload)) -> G h') ->
  (forall h' n r, moved h0 h' got (put ++ take n (frame payload)) ->
     match r with
     | Ok _ => take n (frame payload) = frame payload /\ zlen payload <= maximum_frame_bytes limits
     | Err e => transport e \/ (e = frame_too_large /\ n = 0%nat /\ zlen payload > maximum_frame_bytes limits)
     end -> Q h' r) ->
  wp start (send_frame strerror payload deadline limits) G Q.
Proof.
  intros Hstart HG HQ. unfold send_frame.
  assert (Hstart0 : moved h0 start got (put ++ take 0 (frame payload))) by (by rewrite take_0, app_nil_r).
  destruct (Z.gtb_spec (zlen payload) (maximum_frame_bytes limits)) as [Hgt|Hle].
  { apply wp_ret; [by eapply HG|]. eapply HQ; [exact Hstart0|]. right. split_and!; [done..|lia]. }
  apply wp_attempt. eapply wp_transfer_write; [exact Hstart|exact HG|].
  intros h' n r Hm Hr Hb. split; [by eapply HG|]. destruct r as [bytes|e].
  - apply wp_ret; [by eapply HG|]. by eapply HQ.
  - eapply HQ; [exact Hm|by left].
Qed.

End transfers.
