(* ===== verification/RpcExchange.v ===== *)
(** * A remote search

    [client_search] and [serve_one] over a connection that delivers bytes in
    order: the server answers the request that arrived and nothing else, the
    client ends with the server's outcome, and the deadline ends both. *)

From S2P Require Import Prelude Bytes Text Schema Types Doubles Cursor Sockets Ranking Query Parser Planner Executor Index IndexChecks Rpc RpcSpec RpcRuns.
From ITree Require Import ITree.
From Stdlib Require Import Init.Byte.
Import RpcCursor ShardRpcClient ShardRpcServer.

(** ** The server *)

Section server.
Context (strerror : Errno -> string) (log1p : double -> double) (index : SearchIndexView).
Context (deadline : Z) (limits : RpcLimits) (Hlimits : maximum_frame_bytes limits <= u32_max).

(** Until the whole request has arrived nothing is sent; then a prefix of its
    response is. *)
Definition server_moment (h : list action) : Prop :=
  (within_frame limits (received h) /\ sent h = []) \/
  (exists request n, received h = frame request /\ zlen request <= maximum_frame_bytes limits /\
     sent h = take n (frame (answer log1p index limits request)) /\
     (n = 0%nat \/ zlen (answer log1p index limits request) <= maximum_frame_bytes limits)).

Definition server_result (h : list action) (r : expected RpcError unit) : Prop :=
  match r with
  | Ok _ => exists request, received h = frame request /\ zlen request <= maximum_frame_bytes limits /\
      sent h = frame (answer log1p index limits request)
  | Err e => transport e \/ e = frame_too_large
  end.

(** Started when nothing has been exchanged, over a socket that stays. *)
Lemma serve_wp_from h0 : received h0 = [] -> sent h0 = [] ->
  wp h0 (serve_one strerror log1p index deadline limits) server_moment server_result.
Proof using Hlimits.
  intros Er0 Es0. unfold serve_one. apply wp_attempt.
  assert (Hat : forall h got put, moved h0 h got put -> received h = got /\ sent h = put).
  { intros h got put (Hr & Hs & _). by rewrite Hr, Hs, Er0, Es0. }
  assert (Hread : forall h p, moved h0 h ([] ++ p) [] -> within_frame limits p -> server_moment h).
  { intros h p Hm Hp. apply Hat in Hm as [Hr Hs]. left. by rewrite Hr, Hs. }
  eapply (wp_receive_frame _ _ h0 h0 [] []); [apply moved_refl|apply Hread|].
  intros h1 p [request|e] Hm Hp He Hr; (split; [by eapply Hread|]).
  2: { destruct He as [He|[-> _]]; [by left|by right]. }
  destruct Hr as (-> & Hl & Hu).
  assert (Hsend : forall h n, moved h0 h (frame request) ([] ++ take n (frame (answer log1p index limits request))) ->
    n = 0%nat \/ zlen (answer log1p index limits request) <= maximum_frame_bytes limits -> server_moment h).
  { intros h n Hm2 Hn. apply Hat in Hm2 as [Hrr Hss]. right. exists request, n. done. }
  destruct (Z.le_gt_cases (zlen (answer log1p index limits request)) (maximum_frame_bytes limits)) as [Hle|Hgt].
  - eapply (wp_send_frame _ _ h0 _ _ []); [exact Hm|intros h n H; eapply Hsend; [exact H|by right]|].
    intros h n [u|e] Hm2 Hr.
    + destruct Hr as [En _]. rewrite En in Hm2. apply Hat in Hm2 as [Hrr Hss]. by exists request.
    + destruct Hr as [Hr|[-> _]]; [by left|by right].
  - unfold send_frame. destruct (Z.gtb_spec (zlen (answer log1p index limits request)) (maximum_frame_bytes limits)); [|lia].
    apply wp_ret; [|by right]. eapply (Hsend _ 0%nat); [by rewrite take_0|by left].
Qed.

End server.

(** ** The client *)

Section client.
Context (strerror : Errno -> string) (limits : RpcLimits) (query : string) (top_k deadline : Z).

Definition too_much : Prop :=
  zstrlen query > maximum_query_bytes limits \/ top_k > maximum_hits limits \/
  zlen (request query top_k) > maximum_frame_bytes limits.

Definition client_moment (h : list action) : Prop :=
  exists n, sent h = take n (frame (request query top_k)) /\
    (received h = [] \/ (sent h = frame (request query top_k) /\ within_frame limits (received h))).

Definition client_result (h : list action) (r : expected RpcError SearchResult) : Prop :=
  (exists response, sent h = frame (request query top_k) /\ received h = frame response /\
     zlen (request query top_k) <= maximum_frame_bytes limits /\
     zlen response <= maximum_frame_bytes limits /\ ~ too_much /\ r = decode_response limits response) \/
  (exists e, r = Err e /\
    (transport e \/
     (rpc_code e = rpc_resource_limit /\
       (too_much \/ (sent h = frame (request query top_k) /\ ~ too_much /\ oversized limits (received h)))))).

(** The same socket stays open. *)
Definition same_sockets (h0 h : list action) : Prop := opened h = opened h0 /\ closed h = closed h0.

Lemma client_wp_from h0 : received h0 = [] -> sent h0 = [] ->
  wp h0 (client_search strerror limits query top_k deadline)
    (fun h => client_moment h /\ same_sockets h0 h) (fun h r => client_result h r /\ same_sockets h0 h).
Proof.
  intros Er0 Es0.
  assert (Hat : forall h got put, moved h0 h got put -> received h = got /\ sent h = put /\ same_sockets h0 h).
  { intros h got put (Hr & Hs & Ho & Hc). rewrite Hr, Hs, Er0, Es0. done. }
  assert (Hsent : forall h n, moved h0 h [] ([] ++ take n (frame (request query top_k))) -> client_moment h /\ same_sockets h0 h).
  { intros h n Hm. apply Hat in Hm as (Hr & Hs & Hsame). split; [|done]. exists n. split; [done|by left]. }
  assert (Hnil : client_moment h0 /\ same_sockets h0 h0) by (split; [exists 0%nat; rewrite take_0; auto|done]).
  unfold client_search.
  destruct (Z.gtb_spec (zstrlen query) (maximum_query_bytes limits)) as [Hq|Hq]; cbn [orb].
  { apply wp_ret; [done|]. split; [|done]. right. eexists. split; [done|]. right. split; [done|]. left. left. lia. }
  destruct (Z.gtb_spec top_k (maximum_hits limits)) as [Hk|Hk]; cbn [orb].
  { apply wp_ret; [done|]. split; [|done]. right. eexists. split; [done|]. right. split; [done|]. left. right. left. lia. }
  apply wp_attempt. eapply (wp_send_frame _ _ h0 h0 [] []); [apply moved_refl|exact Hsent|].
  intros h1 n [u|e] Hm1 Hr; (split; [by eapply Hsent|]).
  2: { apply Hat in Hm1 as (_ & _ & Hsame). split; [|done]. right. exists e. split; [done|].
       destruct Hr as [Hr|(-> & _ & Hgt)]; [by left|]. right. split; [done|]. left. right. by right. }
  destruct Hr as [En Hl]. rewrite En in Hm1. cbn [app] in Hm1.
  assert (Hnot : ~ too_much) by (intros [?|[?|?]]; lia).
  assert (Hgot : forall h p, moved h0 h ([] ++ p) (frame (request query top_k)) -> within_frame limits p ->
    client_moment h /\ same_sockets h0 h).
  { intros h p Hm Hp. apply Hat in Hm as (Hrr & Hss & Hsame). split; [|done].
    exists (List.length (frame (request query top_k))). rewrite firstn_all, Hss, Hrr. by split; [|right]. }
  apply wp_attempt. eapply (wp_receive_frame _ _ h0 _ [] _); [exact Hm1|exact Hgot|].
  intros h2 p [response|e] Hm2 Hp He Hr2; (split; [by eapply Hgot|]); pose proof (Hgot _ _ Hm2 Hp) as Hmom;
    apply Hat in Hm2 as (Hrr & Hss & Hsame).
  - destruct Hr2 as (-> & Hlr & _). apply wp_ret; [done|]. split; [|done]. left. exists response. by split_and!.
  - split; [|done]. right. exists e. split; [done|]. destruct He as [He|[-> Ho]]; [by left|]. right. split; [done|]. right.
    cbn in Hrr. rewrite Hrr. done.
Qed.

End client.

(** ** The exchange *)

Lemma put_u32_inj m n : is_u32 m -> is_u32 n -> put_u32 m = put_u32 n -> m = n.
Proof.
  intros Hm Hn E. pose proof (u32v_put m [] Hm) as H. rewrite E, u32v_put in H by done. by injection H.
Qed.

Lemma frame_eq payload : zlen payload <= u32_max -> frame payload = put_u32 (zlen payload) ++ payload.
Proof.
  intros H. pose proof (zlen_nonneg payload). unfold frame, wrap32. by rewrite Z.mod_small by (unfold u32_max in H; lia).
Qed.

Lemma length_put_u32 n : List.length (put_u32 n) = 4%nat.
Proof. apply length_put_int. Qed.

(** A frame that begins another one is that frame. *)
Lemma frame_prefix a b : zlen a <= u32_max -> zlen b <= u32_max -> frame a `prefix_of` frame b -> a = b.
Proof.
  intros Ha Hb [rest E]. rewrite !frame_eq, <- app_assoc in E by done.
  pose proof (zlen_nonneg a). pose proof (zlen_nonneg b).
  apply app_inj_1 in E as [En E]; [|by rewrite !length_put_u32]. apply put_u32_inj in En; [|done..].
  apply (f_equal (@List.length _)) in E as El. rewrite length_app in El. unfold zlen in En.
  assert (rest = []) as -> by (destruct rest; [done|cbn in El; lia]). by rewrite app_nil_r in E.
Qed.

Lemma prefix_take_frame {A} (l k : list A) n : l `prefix_of` take n k -> l `prefix_of` k.
Proof. intros H. etransitivity; [exact H|]. apply prefix_take. Qed.

(** The whole request of the server is the request of the client. *)
Lemma request_arrived limits answer_of h q : zlen q <= u32_max -> maximum_frame_bytes limits <= u32_max ->
  received h `prefix_of` frame q ->
  (exists request n, received h = frame request /\ zlen request <= maximum_frame_bytes limits /\
    sent h = take n (frame (answer_of request))) ->
  exists n, sent h = take n (frame (answer_of q)).
Proof.
  intros Hq Hl Hp (request & n & Er & Hlr & Es). rewrite Er in Hp. apply frame_prefix in Hp; [|lia|done].
  exists n. by rewrite Es, Hp.
Qed.

Lemma zlen_request query top_k : zstrlen query <= u32_max -> zlen (request query top_k) = 13 + zstrlen query.
Proof. intros H. unfold request. rewrite zlen_cons, zlen_app, zlen_put_text by done. unfold put_u64, zlen at 1. rewrite length_put_int. lia. Qed.

Definition limits_ok (limits : RpcLimits) : Prop :=
  maximum_frame_bytes limits <= u32_max /\ maximum_query_bytes limits <= u32_max /\ maximum_hits limits <= u32_max.

(** The bytes arrive in the order they were written, if they arrive. *)
Definition connected (client server : list action) : Prop :=
  received server `prefix_of` sent client /\ received client `prefix_of` sent server.

(** What the client may have read when the server, having read a part of the
    request, has written [sent ts]. *)
Lemma response_read log1p index limits query top_k tc ts : maximum_frame_bytes limits <= u32_max ->
  zstrlen query <= u32_max -> is_u64 top_k -> sent tc = frame (request query top_k) ->
  zlen (request query top_k) <= u32_max ->
  server_moment log1p index limits ts -> connected tc ts -> (0 < List.length (received tc))%nat ->
  received tc `prefix_of` frame (respond (outcome log1p index limits query top_k)) /\
  zlen (respond (outcome log1p index limits query top_k)) <= maximum_frame_bytes limits.
Proof.
  intros Hl Hq Hk Hs Hlr Hm [Hst Htc] Hlen. rewrite Hs in Hst. destruct Hm as [[_ E0]|(r & n & Er & Hr & Es & Hn)].
  - rewrite E0 in Htc. apply prefix_nil_inv in Htc. rewrite Htc in Hlen. cbn in Hlen. lia.
  - rewrite Er in Hst. apply frame_prefix in Hst; [|lia|done]. subst r. rewrite answer_request in Es, Hn by done.
    rewrite Es in Htc. destruct Hn as [->|Hn]; [|split; [by eapply prefix_take_frame|done]].
    rewrite take_0 in Htc. apply prefix_nil_inv in Htc. rewrite Htc in Hlen. cbn in Hlen. lia.
Qed.

Lemma reported_outcome log1p index lc ls query top_k : limits_ok lc -> 0 <= top_k <= maximum_hits lc ->
  wire_ok (outcome log1p index ls query top_k) ->
  zlen (respond (outcome log1p index ls query top_k)) <= maximum_frame_bytes lc ->
  decode_response lc (respond (outcome log1p index ls query top_k)) = reported (outcome log1p index ls query top_k).
Proof.
  intros (Hf & _ & Hh) Hk Hw Hl. destruct (outcome log1p index ls query top_k) as [result|message] eqn:E; cbn [respond reported map_err] in *.
  - apply outcome_search in E as (_ & Hn & _); [|lia]. apply decode_success; [done|lia|lia|done].
  - by apply decode_refusal.
Qed.

(** What the client reports, from what was exchanged. *)
Definition exchange_result log1p index lc ls query top_k (rc : expected RpcError SearchResult) : Prop :=
  rc = reported (outcome log1p index ls query top_k) \/
  (exists e, rc = Err e /\
    (transport e \/
     (rpc_code e = rpc_resource_limit /\
       (too_much lc query top_k \/
        zlen (respond (outcome log1p index ls query top_k)) > maximum_frame_bytes lc)))).

Lemma exchanged log1p index lc ls query top_k tc rc ts : limits_ok lc -> limits_ok ls -> 0 <= top_k <= u64_max ->
  outcome_fits (outcome log1p index ls query top_k) -> client_result lc query top_k tc rc -> server_moment log1p index ls ts ->
  connected tc ts -> exchange_result log1p index lc ls query top_k rc.
Proof.
  intros Hlc Hls Hk Hwire Hres Hmom Hconnected. unfold exchange_result.
  assert (Hq : ~ too_much lc query top_k ->
    zstrlen query <= u32_max /\ 0 <= top_k <= maximum_hits lc /\ zlen (request query top_k) <= u32_max).
  { intros Hnot. unfold too_much in Hnot. destruct Hlc as (? & ? & ?). lia. }
  destruct Hres as [(response & Es & Er & Hlq & Hlr & Hnot & ->)|(e & -> & [He|(He & [Ht|(Es & Hnot & Ho)])])].
  - left. destruct (Hq Hnot) as (Hq1 & Hq2 & Hq3).
    destruct (response_read log1p index ls query top_k tc ts) as [Hpre Hlen]; try done; try apply Hls.
    { rewrite Er. unfold frame. rewrite length_app, length_put_u32. lia. }
    rewrite Er in Hpre. apply frame_prefix in Hpre; [|destruct Hlc; lia|destruct Hls; lia]. subst response.
    apply reported_outcome; [done|done| |done]. apply outcome_wire; [lia|done].
  - right. exists e. split; [done|]. by left.
  - right. exists e. split; [done|]. right. split; [done|]. by left.
  - right. exists e. split; [done|]. right. split; [done|]. right. destruct (Hq Hnot) as (Hq1 & Hq2 & Hq3).
    destruct Ho as (n & En & Hn & Hgt).
    destruct (response_read log1p index ls query top_k tc ts) as [Hpre Hlen]; try done; try apply Hls.
    { rewrite En, length_put_u32. lia. }
    rewrite En, frame_eq in Hpre by (destruct Hls; lia). destruct Hpre as [rest E].
    apply app_inj_1 in E as [E _]; [|by rewrite !length_put_u32]. pose proof (zlen_nonneg (respond (outcome log1p index ls query top_k))).
    apply put_u32_inj in E; [lia|split; destruct Hls; lia|done].
Qed.
