(* ===== verification/RpcDeadline.v ===== *)
(** * Deadlines of remote searches

    Whatever the other side and the system calls do, a call returns once it has
    seen the clock at its deadline; after that it starts no read and no write,
    and it never asks to wait for longer than the time left. *)

From S2P Require Import Prelude Bytes Text Schema Types Doubles Cursor Sockets Ranking Query Parser Planner Executor Index Rpc.
From ITree Require Import ITree.
From Stdlib Require Import Init.Byte.

(** What a call may do when it last saw the clock at [now], before the deadline:
    read, write, or wait for as long as the time left, rounded up to the next
    millisecond.  Times are in nanoseconds. *)
Definition within (deadline now : Z) (a : action) : Prop :=
  match a with
  | called_read _ _ | called_write _ _ => now < deadline
  | called_poll _ milliseconds _ | called_poll_connect _ milliseconds _ =>
      now < deadline /\ 0 < milliseconds /\ (milliseconds - 1) * 1000000 <= deadline - now
  | _ => True
  end.

(** Every system call is within the deadline at the time last seen before it. *)
Definition timely (start deadline : Z) (h : list action) : Prop :=
  forall before a after, h = before ++ a :: after -> within deadline (latest start before) a.

#[export] Hint Extern 0 (within _ _ _) => exact I : core.

Lemma timely_nil start deadline : timely start deadline [].
Proof. intros before x after E. by destruct before. Qed.

Lemma timely_snoc start deadline h a : timely start deadline h ->
  within deadline (latest start h) a -> timely start deadline (h ++ [a]).
Proof.
  intros Hh Ha before x after E. destruct after as [|y after _] using rev_ind.
  - by apply app_inj_tail in E as [<- <-].
  - rewrite app_comm_cons, app_assoc in E. apply app_inj_tail in E as [-> _]. by eapply Hh.
Qed.

(** The time that [poll] is given. *)
Lemma wait_within deadline now : now < deadline -> let milliseconds := Z.min ((deadline - now) / 1000000 + 1) 2147483647 in
  now < deadline /\ 0 < milliseconds /\ (milliseconds - 1) * 1000000 <= deadline - now.
Proof.
  intros H milliseconds. pose proof (Z.div_pos (deadline - now) 1000000 ltac:(lia) ltac:(lia)).
  pose proof (Z.mul_div_le (deadline - now) 1000000 ltac:(lia)). unfold milliseconds. lia.
Qed.

Section deadline.
Context (strerror : Errno -> string) (env : environment) (start deadline : Z) `{!SteadyClock env start}.

Notation now_of h := (latest start h).
Notation in_time := (timely start deadline).

Lemma twp_attempt {A B} h (t : itree SocketE (expected RpcError A)) (k : A -> itree SocketE (expected RpcError B))
    (Q : list action -> expected RpcError B -> Prop) :
  twp env (fun h' r => match r with Ok a => twp env Q h' (k a) | Err e => Q h' (Err e) end) h t ->
  twp env Q h (attempt t k).
Proof.
  intros H. apply twp_bind. eapply twp_mono; [|exact H]. intros h' [a|e] Hr; [done|]. by apply twp_ret.
Qed.

(** A call other than the clock's leaves the time alone. *)
Lemma twp_quiet {X} h (e : SocketE X) (Q : list action -> X -> Prop) : in_time h ->
  (forall x, match action_of e x with called_now _ => False | _ => True end) ->
  (forall x, within deadline (now_of h) (action_of e x)) ->
  (forall h' x, in_time h' -> now_of h' = now_of h -> Q h' x) -> twp env Q h (syscall e).
Proof using Type.
  intros Hh Hnow Hin HQ. apply twp_call. apply HQ.
  - apply timely_snoc; [done|apply Hin].
  - rewrite latest_app. specialize (Hnow (env X e h)). by destruct (action_of e _).
Qed.

Lemma twp_wait h writing : in_time h ->
  twp env (fun h' r => in_time h' /\ now_of h < now_of h' /\ (is_Ok r = true -> now_of h' < deadline)) h
    (wait_fd strerror writing deadline).
Proof using SteadyClock0.
  intros Hh. unfold wait_fd.
  apply (twp_iter env _ (fun _ h' => in_time h' /\ now_of h <= now_of h')
    (fun _ h' => Z.to_nat (deadline - now_of h'))); [|split; [done|lia]].
  intros [] h1 [Hh1 Hle]. unfold wait_round. apply twp_bind, twp_call. cbn [action_of].
  pose proof (latest_lt env h1) as Hlt.
  assert (Hin : in_time (h1 ++ [called_now (env Z Now h1)])) by (apply timely_snoc; done).
  assert (Et : now_of (h1 ++ [called_now (env Z Now h1)]) = env Z Now h1) by (rewrite latest_app; lia).
  destruct (Z.geb_spec (env Z Now h1) deadline) as [Hge|Hge].
  - apply twp_ret. rewrite Et. split_and!; [done|lia|done].
  - apply twp_bind, twp_quiet; [done|done|intros x; rewrite Et; by apply wait_within|]. intros h2 result Hh2 E2. apply twp_ret. rewrite E2, Et.
    destruct result as [revents| |[| | | |n]].
    1: destruct (error_or_invalid revents); [|destruct (_ && _)].
    all: split_and!; done || lia || (cbn; lia).
Qed.

Lemma twp_write h data : in_time h -> now_of h < deadline ->
  twp env (fun h' _ => in_time h' /\ now_of h' = now_of h) h (write_without_sigpipe data).
Proof using Type.
  intros Hh Hd. unfold write_without_sigpipe. apply twp_bind, twp_quiet; [done..|]. intros h1 [previously|e] Hh1 E1.
  2: by apply twp_ret.
  apply twp_bind, twp_quiet; [done..|cbn; lia|]. intros h2 count Hh2 E2. apply twp_bind.
  assert (Hskip : twp env (fun h' _ => in_time h' /\ now_of h' = now_of h) h2 (match count with
      | Err epipe => if negb previously then syscall TakeSigpipe else Ret tt
      | _ => Ret tt
      end)).
  { assert (Hret : twp env (fun h' _ => in_time h' /\ now_of h' = now_of h) h2 (Ret tt : itree SocketE unit))
      by (apply twp_ret; split; [done|lia]).
    destruct count as [c|[| | | |n]]; try exact Hret. destruct previously; [exact Hret|].
    apply twp_quiet; [done..|]. intros h3 [] Hh3 E3. split; [done|lia]. }
  eapply twp_mono; [|exact Hskip]. intros h3 [] [Hh3 E3]. apply twp_bind, twp_quiet; [done..|].
  intros h4 restore Hh4 E4. apply twp_ret. split; [done|lia].
Qed.

Lemma twp_transfer h bytes writing : in_time h -> twp env (fun h' _ => in_time h') h (transfer strerror bytes writing deadline).
Proof using SteadyClock0.
  intros Hh. unfold transfer.
  apply (twp_iter env _ (fun _ h' => in_time h') (fun _ h' => Z.to_nat (deadline - now_of h'))); [|done].
  clear h Hh. intros [buffer done'] h Hh. unfold transfer_round. destruct (done' <? zlen buffer); [|by apply twp_ret].
  apply twp_bind. eapply twp_mono; [|by apply twp_wait]. intros h1 [[]|e] (Hh1 & Hlt & Hd); [|by apply twp_ret].
  specialize (Hd eq_refl). apply twp_bind.
  assert (Hmove : twp env (fun h' _ => in_time h' /\ now_of h' = now_of h1) h1
      (if writing then write_from buffer done' else read_into buffer done')).
  { destruct writing; apply twp_bind.
    - eapply twp_mono; [|by apply twp_write]. intros h2 count [Hh2 E2]. by apply twp_ret.
    - apply twp_quiet; [done..|]. intros h2 result Hh2 E2. by apply twp_ret. }
  eapply twp_mono; [|exact Hmove]. intros h2 moved [Hh2 E2]. apply twp_ret. rewrite E2.
  destruct moved as [[count buffer']|[| | | |n]]; [destruct (count =? 0)|..]; try done; (split; [done|lia]).
Qed.

Lemma twp_receive h limits : in_time h -> twp env (fun h' _ => in_time h') h (receive_frame strerror deadline limits).
Proof using SteadyClock0.
  intros Hh. apply twp_attempt. eapply twp_mono; [|by apply twp_transfer]. intros h1 [header|e] Hh1; [|done].
  destruct (RpcCursor.u32v header).1 as [n|]; [|by apply twp_ret].
  destruct (n >? _); [by apply twp_ret|by apply twp_transfer].
Qed.

Lemma twp_send h payload limits : in_time h -> twp env (fun h' _ => in_time h') h (send_frame strerror payload deadline limits).
Proof using SteadyClock0.
  intros Hh. unfold send_frame. destruct (zlen payload >? _); [by apply twp_ret|]. apply twp_attempt.
  eapply twp_mono; [|by apply twp_transfer]. intros h1 [bytes|e] Hh1; [by apply twp_ret|done].
Qed.

(** ** The two sides *)

Lemma twp_client_search h limits query top_k : in_time h ->
  twp env (fun h' _ => in_time h') h (client_search strerror limits query top_k deadline).
Proof using SteadyClock0.
  intros Hh. unfold client_search. destruct (_ || _); [by apply twp_ret|]. apply twp_attempt.
  eapply twp_mono; [|by apply twp_send]. intros h1 [u|e] Hh1; [|done]. apply twp_attempt.
  eapply twp_mono; [|by apply twp_receive]. intros h2 [response|e] Hh2; [by apply twp_ret|done].
Qed.

Lemma twp_serve_one h log1p index limits : in_time h ->
  twp env (fun h' _ => in_time h') h (serve_one strerror log1p index deadline limits).
Proof using SteadyClock0.
  intros Hh. apply twp_attempt. eapply twp_mono; [|by apply twp_receive]. intros h1 [request|e] Hh1; [|done].
  by apply twp_send.
Qed.

End deadline.
