(* ===== verification/TcpServer.v ===== *)
(** * The TCP server of a shard

    include/dse/distributed/tcp_transport.hpp and the [TcpShardServer] of
    src/distributed/tcp_transport.cpp: an acceptor thread that queues
    connections, worker threads that serve them, and [stop].  Every locked
    section, every call on the metrics (which locks for itself) and every
    system call is one atomic step of its thread; a wait on the condition
    variable is a step that is enabled when the condition holds, so
    notifications have no counterpart.  [stop] is called once: a second caller
    returns at once and is left out. *)

From S2P Require Import Prelude Text Doubles Sockets Index Executor Rpc Metrics MetricsSpec.
From ITree Require Import ITree.

Record TcpEndpoint := { host : string; port : Z }.

Record TcpServerOptions := {
  worker_count : Z;
  maximum_queued_connections : Z;
  request_timeout : Z;                 (* milliseconds *)
  rpc_limits : RpcLimits;
  has_metrics : bool
}.

Definition default_server_options : TcpServerOptions :=
  {| worker_count := 4; maximum_queued_connections := 128; request_timeout := 5000;
     rpc_limits := default_rpc_limits; has_metrics := false |}.

Module TcpShardServer.

(** Where the acceptor is in [accept_loop]. *)
Inductive AcceptorPoint :=
| accepting                     (* before [accept4] *)
| accept_failed                 (* [accept4] failed, before the lock *)
| connected (fd : Z)            (* a connection, before the lock *)
| admitted                      (* queued, before the counter *)
| admitted_counted              (* before the gauge *)
| refused (fd : Z)              (* not queued, before the counter *)
| refused_counted (fd : Z)      (* before [close] *)
| acceptor_returned.

(** Where a worker is in [worker_loop]. *)
Inductive WorkerPoint :=
| waiting
| taken (fd : Z)                (* popped, before the first gauge *)
| taken_counted (fd : Z)        (* before the second gauge *)
| serving (fd : Z)
| served (fd : Z) (ok : bool)   (* before the gauge *)
| served_counted (fd : Z) (ok : bool) (* before the counter *)
| served_observed (fd : Z)      (* before the histogram *)
| closing (fd : Z)              (* before the destructor of the socket *)
| worker_returned.

(** Where [stop] is. *)
Inductive StopPoint :=
| not_called
| stop_marked                   (* [stopping_] is set *)
| stop_closed                   (* the listener is closed *)
| stop_joined                   (* the acceptor is joined *)
| stop_workers_joined
| stopped.

Record TcpShardServer := {
  listener_ : Z;
  connections_ : list Z;
  stopping_ : bool;
  acceptor_ : AcceptorPoint;
  workers_ : list WorkerPoint;
  stopper : StopPoint;
  descriptors : gset Z;         (* the open descriptors of this server *)
  double_closed : bool;         (* a descriptor was closed that was not open *)
  updates : list Update;        (* the calls on the metrics, in order *)
  admissions : list Z;          (* what was ever put in the queue *)
  services : list Z             (* what was ever taken from it *)
}.

(** After [start]: the threads run, the queue is empty. *)
Definition started (options : TcpServerOptions) (listener : Z) : TcpShardServer :=
  {| listener_ := listener; connections_ := []; stopping_ := false; acceptor_ := accepting;
     workers_ := replicate (Z.to_nat (worker_count options)) waiting; stopper := not_called;
     descriptors := {[listener]}; double_closed := false; updates := []; admissions := []; services := [] |}.

Section steps.
Context (options : TcpServerOptions).

Definition with_acceptor (s : TcpShardServer) (p : AcceptorPoint) : TcpShardServer :=
  {| listener_ := listener_ s; connections_ := connections_ s; stopping_ := stopping_ s; acceptor_ := p;
     workers_ := workers_ s; stopper := stopper s; descriptors := descriptors s; double_closed := double_closed s;
     updates := updates s; admissions := admissions s; services := services s |}.

Definition with_worker (s : TcpShardServer) (i : nat) (p : WorkerPoint) : TcpShardServer :=
  {| listener_ := listener_ s; connections_ := connections_ s; stopping_ := stopping_ s; acceptor_ := acceptor_ s;
     workers_ := <[i := p]> (workers_ s); stopper := stopper s; descriptors := descriptors s;
     double_closed := double_closed s; updates := updates s; admissions := admissions s; services := services s |}.

Definition with_stopper (s : TcpShardServer) (p : StopPoint) : TcpShardServer :=
  {| listener_ := listener_ s; connections_ := connections_ s; stopping_ := stopping_ s; acceptor_ := acceptor_ s;
     workers_ := workers_ s; stopper := p; descriptors := descriptors s; double_closed := double_closed s;
     updates := updates s; admissions := admissions s; services := services s |}.

(** [if (options_.metrics) options_.metrics->...] *)
Definition metric (s : TcpShardServer) (u : Update) : TcpShardServer :=
  {| listener_ := listener_ s; connections_ := connections_ s; stopping_ := stopping_ s; acceptor_ := acceptor_ s;
     workers_ := workers_ s; stopper := stopper s; descriptors := descriptors s; double_closed := double_closed s;
     updates := if has_metrics options then updates s ++ [u] else updates s;
     admissions := admissions s; services := services s |}.

(** [::close] *)
Definition close (s : TcpShardServer) (fd : Z) : TcpShardServer :=
  {| listener_ := listener_ s; connections_ := connections_ s; stopping_ := stopping_ s; acceptor_ := acceptor_ s;
     workers_ := workers_ s; stopper := stopper s; descriptors := descriptors s ∖ {[fd]};
     double_closed := double_closed s || negb (bool_decide (fd ∈ descriptors s));
     updates := updates s; admissions := admissions s; services := services s |}.

Definition accepted_total : string := "dse_tcp_connections_accepted_total".
Definition rejected_total : string := "dse_tcp_connections_rejected_total".
Definition connections_queued : string := "dse_tcp_connections_queued".
Definition requests_active : string := "dse_tcp_requests_active".
Definition completed_total : string := "dse_tcp_requests_completed_total".
Definition failed_total : string := "dse_tcp_requests_failed_total".
Definition request_duration : string := "dse_tcp_request_duration_seconds".

(** What [accept4] answers. *)
Inductive AcceptAnswer := new_connection (fd : Z) | accept_interrupted | accept_error.

(** The locked section that queues a connection, unless the server stops or
    the queue is full. *)
Definition queue_connection (s : TcpShardServer) (fd : Z) : TcpShardServer :=
  if negb (stopping_ s) && (zlen (connections_ s) <? maximum_queued_connections options) then
    {| listener_ := listener_ s; connections_ := connections_ s ++ [fd]; stopping_ := stopping_ s;
       acceptor_ := admitted; workers_ := workers_ s; stopper := stopper s; descriptors := descriptors s;
       double_closed := double_closed s; updates := updates s; admissions := admissions s ++ [fd];
       services := services s |}
  else with_acceptor s (refused fd).

(** One step of [accept_loop]; the answer is used where [accept4] is called. *)
Definition acceptor_step (s : TcpShardServer) (answer : AcceptAnswer) : option TcpShardServer :=
  match acceptor_ s with
  | accepting =>
      match answer with
      | new_connection fd =>
          if (fd <? 0) || bool_decide (fd ∈ descriptors s) then None (* no answer of the kernel *)
          else
            Some {| listener_ := listener_ s; connections_ := connections_ s; stopping_ := stopping_ s;
                    acceptor_ := connected fd; workers_ := workers_ s; stopper := stopper s;
                    descriptors := {[fd]} ∪ descriptors s; double_closed := double_closed s; updates := updates s;
                    admissions := admissions s; services := services s |}
      | accept_interrupted => Some s
      | accept_error => Some (with_acceptor s accept_failed)
      end
  | accept_failed => Some (with_acceptor s (if stopping_ s then acceptor_returned else accepting))
  | connected fd => Some (queue_connection s fd)
  | admitted => Some (with_acceptor (metric s (Increment accepted_total 1)) admitted_counted)
  | admitted_counted => Some (with_acceptor (metric s (AddGauge connections_queued 1)) accepting)
  | refused fd => Some (with_acceptor (metric s (Increment rejected_total 1)) (refused_counted fd))
  | refused_counted fd => Some (with_acceptor (close s fd) accepting)
  | acceptor_returned => None
  end.

(** The locked section of a worker; [None] while the condition does not hold. *)
Definition take_connection (s : TcpShardServer) (i : nat) : option TcpShardServer :=
  match connections_ s with
  | [] => if stopping_ s then Some (with_worker s i worker_returned) else None
  | fd :: rest =>
      Some {| listener_ := listener_ s; connections_ := rest; stopping_ := stopping_ s; acceptor_ := acceptor_ s;
              workers_ := <[i := taken fd]> (workers_ s); stopper := stopper s; descriptors := descriptors s;
              double_closed := double_closed s; updates := updates s; admissions := admissions s;
              services := services s ++ [fd] |}
  end.

(** One step of [worker_loop]; [ok] is what [serve_one] returns and
    [duration] what the clock measures, where they are used. *)
Definition worker_step (s : TcpShardServer) (i : nat) (ok : bool) (duration : double) : option TcpShardServer :=
  match workers_ s !! i with
  | None => None
  | Some waiting => take_connection s i
  | Some (taken fd) => Some (with_worker (metric s (AddGauge connections_queued (-1))) i (taken_counted fd))
  | Some (taken_counted fd) => Some (with_worker (metric s (AddGauge requests_active 1)) i (serving fd))
  | Some (serving fd) => Some (with_worker s i (served fd ok))
  | Some (served fd ok') => Some (with_worker (metric s (AddGauge requests_active (-1))) i (served_counted fd ok'))
  | Some (served_counted fd ok') =>
      Some (with_worker (metric s (Increment (if ok' then completed_total else failed_total) 1)) i (served_observed fd))
  | Some (served_observed fd) =>
      Some (with_worker (metric s (Observe request_duration duration MetricsRegistry.default_bounds)) i (closing fd))
  | Some (closing fd) => Some (with_worker (close s fd) i waiting)
  | Some worker_returned => None
  end.

(** What a worker runs on its connection: [serve_one] until [request_timeout]
    after now. *)
Definition serve_connection (strerror : Errno -> string) (log1p : double -> double) (index : SearchIndexView)
    : itree SocketE (expected RpcError unit) :=
  now ← syscall Now;
  serve_one strerror log1p index (now + request_timeout options * 1000000) (rpc_limits options).

Definition close_all (s : TcpShardServer) (fds : list Z) : TcpShardServer := foldl close s fds.

(** One step of [stop]; a join is enabled when its threads have returned. *)
Definition stop_step (s : TcpShardServer) : option TcpShardServer :=
  match stopper s with
  | not_called =>
      Some {| listener_ := listener_ s; connections_ := connections_ s; stopping_ := true; acceptor_ := acceptor_ s;
              workers_ := workers_ s; stopper := stop_marked; descriptors := descriptors s;
              double_closed := double_closed s; updates := updates s; admissions := admissions s;
              services := services s |}
  | stop_marked => Some (with_stopper (if 0 <=? listener_ s then close s (listener_ s) else s) stop_closed)
  | stop_closed =>
      match acceptor_ s with
      | acceptor_returned =>
          Some {| listener_ := -1; connections_ := connections_ s; stopping_ := stopping_ s; acceptor_ := acceptor_ s;
                  workers_ := workers_ s; stopper := stop_joined; descriptors := descriptors s;
                  double_closed := double_closed s; updates := updates s; admissions := admissions s;
                  services := services s |}
      | _ => None
      end
  | stop_joined =>
      if forallb (fun w => match w with worker_returned => true | _ => false end) (workers_ s)
      then Some (with_stopper s stop_workers_joined)
      else None
  | stop_workers_joined =>
      let s' := close_all s (connections_ s) in
      Some {| listener_ := listener_ s'; connections_ := []; stopping_ := stopping_ s'; acceptor_ := acceptor_ s';
              workers_ := workers_ s'; stopper := stopped; descriptors := descriptors s';
              double_closed := double_closed s'; updates := updates s'; admissions := admissions s';
              services := services s' |}
  | stopped => None
  end.

(** Any thread may take its next step. *)
Inductive Move :=
| acceptor_moves (answer : AcceptAnswer)
| worker_moves (i : nat) (ok : bool) (duration : double)
| stop_moves.

Definition step (s : TcpShardServer) (m : Move) : option TcpShardServer :=
  match m with
  | acceptor_moves answer => acceptor_step s answer
  | worker_moves i ok duration => worker_step s i ok duration
  | stop_moves => stop_step s
  end.

Inductive reachable (listener : Z) : TcpShardServer -> Prop :=
| reachable_start : reachable listener (started options listener)
| reachable_step s m s' : reachable listener s -> step s m = Some s' -> reachable listener s'.

End steps.

(** What the system calls of [start] answer, in order. *)
Record StartAnswers := {
  socket_answer : expected Errno Z;
  inet_pton_answer : bool;             (* the host is an IPv4 literal *)
  bind_answer : expected Errno unit;
  listen_answer : expected Errno unit;
  getsockname_answer : expected Errno Z
}.

Definition valid_options (options : TcpServerOptions) (has_index : bool) : bool :=
  negb (negb has_index || (worker_count options =? 0) || (worker_count options >? 256) ||
        (maximum_queued_connections options =? 0) || (request_timeout options <=? 0)).

(** [start]: the server and its port, or an error; every error after [socket]
    closes the listener again, in the destructor of [Socket]. *)
Definition start (strerror : Errno -> string) (options : TcpServerOptions) (has_index : bool) (answers : StartAnswers)
    : expected RpcError (TcpShardServer * Z) :=
  _ ← ensure (valid_options options has_index) (rpc_fail rpc_resource_limit "invalid TCP server options");
  listener ← map_err (fun e => rpc_fail rpc_io_error (strerror e)) (socket_answer answers);
  _ ← ensure (inet_pton_answer answers)
        (rpc_fail rpc_protocol_error "server bind address must be an IPv4 literal");
  _ ← map_err (fun e => rpc_fail rpc_io_error (strerror e)) (bind_answer answers);
  _ ← map_err (fun e => rpc_fail rpc_io_error (strerror e)) (listen_answer answers);
  port ← map_err (fun e => rpc_fail rpc_io_error (strerror e)) (getsockname_answer answers);
  Ok (started options listener, port).

(** [static_cast<int>(std::min<std::size_t>(maximum_queued_connections, 4096))] *)
Definition backlog (options : TcpServerOptions) : Z := Z.min (maximum_queued_connections options) 4096.

End TcpShardServer.
