(* ===== verification/TcpServerSpec.v ===== *)
(** * The TCP server loses no connection

    What holds in every interleaving of the acceptor, the workers and [stop]:
    each open descriptor has one owner, none is closed twice, the queue keeps
    its bound, connections are served in the order of their admission, and
    when [stop] returns every admitted connection has been served, every
    descriptor is closed and the gauges are back at zero. *)

From S2P Require Import Prelude Text Doubles Sockets Index Executor Rpc Metrics MetricsSpec TcpServer.
Import TcpShardServer.

(** ** Owners *)

Definition acceptor_holds (p : AcceptorPoint) : list Z :=
  match p with connected fd | refused fd | refused_counted fd => [fd] | _ => [] end.

Definition worker_holds (p : WorkerPoint) : list Z :=
  match p with
  | taken fd | taken_counted fd | serving fd | served fd _ | served_counted fd _ | served_observed fd | closing fd => [fd]
  | waiting | worker_returned => []
  end.

Definition listener_open (s : TcpShardServer) : list Z :=
  match stopper s with not_called | stop_marked => [listener_ s] | _ => [] end.

Definition workers_hold (ws : list WorkerPoint) : list Z := ws ≫= worker_holds.

Definition owned (s : TcpShardServer) : list Z :=
  listener_open s ++ acceptor_holds (acceptor_ s) ++ connections_ s ++ workers_hold (workers_ s).

Record descriptors_ok (s : TcpShardServer) : Prop := {
  owned_once : NoDup (owned s);
  owned_all : descriptors s = list_to_set (owned s);
  closed_once : double_closed s = false;
  listener_positive : listener_open s <> [] -> 0 <= listener_ s
}.

Lemma workers_hold_insert ws i p : ws !! i = Some p -> exists rest, workers_hold ws ≡ₚ worker_holds p ++ rest /\
  (forall q, workers_hold (<[i := q]> ws) ≡ₚ worker_holds q ++ rest).
Proof.
  intros H. apply list_elem_of_split_length in H as (l & k & -> & ->). exists (workers_hold (l ++ k)). unfold workers_hold. split.
  - rewrite !bind_app, bind_cons. solve_Permutation.
  - intros q. rewrite insert_app_r_alt by lia. rewrite Nat.sub_diag. cbn [insert list_insert].
    rewrite !bind_app, bind_cons. solve_Permutation.
Qed.

(** Ownership is about which descriptors are owned, not in which order. *)
Lemma descriptors_perm s s' : owned s' ≡ₚ owned s -> descriptors s' = descriptors s ->
  double_closed s' = double_closed s -> (listener_open s' <> [] -> 0 <= listener_ s') -> descriptors_ok s -> descriptors_ok s'.
Proof.
  intros Ho Hd Hc Hl [H1 H2 H3 _]. constructor; [by rewrite Ho|rewrite Hd, H2; by apply list_to_set_perm_L|by rewrite Hc|done].
Qed.

Lemma descriptors_close s s' fd : owned s ≡ₚ fd :: owned s' -> descriptors s' = descriptors s ∖ {[fd]} ->
  double_closed s' = double_closed s || negb (bool_decide (fd ∈ descriptors s)) ->
  (listener_open s' <> [] -> 0 <= listener_ s') -> descriptors_ok s -> descriptors_ok s'.
Proof.
  intros Ho Hd Hc Hl [H1 H2 H3 _]. rewrite Ho in H1. apply NoDup_cons in H1 as [Hfd H1].
  assert (Es : descriptors s = {[fd]} ∪ list_to_set (owned s')) by (rewrite H2; by rewrite (list_to_set_perm_L _ _ Ho)).
  constructor; [done|rewrite Hd, Es|rewrite Hc, H3, Es|done].
  - set_solver.
  - rewrite bool_decide_eq_true_2 by set_solver. done.
Qed.

Lemma descriptors_open s s' fd : owned s' ≡ₚ fd :: owned s -> fd ∉ descriptors s ->
  descriptors s' = {[fd]} ∪ descriptors s -> double_closed s' = double_closed s ->
  (listener_open s' <> [] -> 0 <= listener_ s') -> descriptors_ok s -> descriptors_ok s'.
Proof.
  intros Ho Hfd Hd Hc Hl [H1 H2 H3 _]. constructor; [|rewrite Hd, H2; by rewrite (list_to_set_perm_L _ _ Ho)|by rewrite Hc|done].
  rewrite Ho. apply NoDup_cons. split; [|done]. rewrite H2 in Hfd. set_solver.
Qed.

(** ** The steps *)

Section steps.
Context (options : TcpServerOptions).

(** A step of a thread, by the point the thread is at. *)
Ltac step_cases H :=
  lazymatch type of H with
  | acceptor_step _ ?s ?answer = Some _ =>
      unfold acceptor_step in H; destruct (acceptor_ s) as [| |fd| | |fd|fd|] eqn:Ea;
      [destruct answer as [fd| |];
         [destruct (Z.ltb_spec fd 0) as [|Hpos]; [done|]; cbn [orb] in H; destruct (bool_decide_reflect (fd ∈ descriptors s)) as [|Hfresh]; [done|]|..]
      |..]; try done; injection H as <-
  | worker_step _ ?s ?i _ _ = Some _ =>
      unfold worker_step in H; destruct (workers_ s !! i) as [[|fd|fd|fd|fd okf|fd okf|fd|fd|]|] eqn:Ew; try done;
      [unfold take_connection in H; destruct (connections_ s) as [|fd rest] eqn:Ec; [destruct (stopping_ s) eqn:Es; [|done]|]|..];
      injection H as <-
  | stop_step ?s = Some _ =>
      unfold stop_step in H; destruct (stopper s) eqn:Ep; try done;
      [|destruct (Z.leb_spec 0 (listener_ s))
       |destruct (acceptor_ s) eqn:Ea; try done
       |destruct (forallb _ (workers_ s)) eqn:Ef; [|done]
       |]; injection H as <-
  end.

Lemma acceptor_descriptors s answer s' : descriptors_ok s -> acceptor_step options s answer = Some s' -> descriptors_ok s'.
Proof.
  intros D H. pose proof (listener_positive s D) as Hl. step_cases H;
    try (by apply (descriptors_perm s); [unfold owned; cbn; by rewrite ?Ea|done..]); try done.
  - apply (descriptors_open s _ fd); try done. unfold owned. cbn. rewrite Ea. cbn. solve_Permutation.
  - apply (descriptors_perm s); [unfold owned; cbn; by destruct (stopping_ s); rewrite Ea|done..].
  - unfold queue_connection. destruct (_ && _); (apply (descriptors_perm s); [|done..]); unfold owned; cbn; rewrite Ea; cbn; [solve_Permutation|done].
  - apply (descriptors_close s _ fd); try done. unfold owned. cbn. rewrite Ea. cbn. solve_Permutation.
Qed.

Lemma worker_descriptors s i okr duration s' : descriptors_ok s -> worker_step options s i okr duration = Some s' ->
  descriptors_ok s'.
Proof.
  intros D H. pose proof (listener_positive s D) as Hl. step_cases H;
    destruct (workers_hold_insert _ _ _ Ew) as (held & Hheld & Hnew).
  9: { apply (descriptors_close s _ fd); try done. unfold owned. cbn. rewrite (Hnew waiting), Hheld. cbn. solve_Permutation. }
  all: apply (descriptors_perm s); [|done..]; unfold owned, metric, with_worker; cbn [listener_open stopper listener_ acceptor_ connections_ workers_];
    rewrite Hnew, Hheld, ?Ec; cbn [worker_holds]; solve_Permutation.
Qed.

Lemma close_all_fields fds : forall s, let s' := close_all s fds in
  listener_ s' = listener_ s /\ connections_ s' = connections_ s /\ stopping_ s' = stopping_ s /\
  acceptor_ s' = acceptor_ s /\ workers_ s' = workers_ s /\ stopper s' = stopper s /\ updates s' = updates s /\
  admissions s' = admissions s /\ services s' = services s.
Proof.
  induction fds as [|fd fds IH]; intros s; [done|]. cbn. unfold close_all in IH. specialize (IH (close s fd)). cbn in IH. exact IH.
Qed.

(** ** The flow of connections *)

Definition joined (p : StopPoint) : bool :=
  match p with stop_joined | stop_workers_joined | stopped => true | _ => false end.

Definition workers_joined (p : StopPoint) : bool :=
  match p with stop_workers_joined | stopped => true | _ => false end.

Record flow_ok (s : TcpShardServer) : Prop := {
  queue_bound : zlen (connections_ s) <= maximum_queued_connections options;
  queue_order : admissions s = services s ++ connections_ s;
  stop_called : stopping_ s = true <-> stopper s <> not_called;
  acceptor_stops : acceptor_ s = acceptor_returned -> stopping_ s = true;
  workers_drain : worker_returned ∈ workers_ s -> stopping_ s = true /\ connections_ s = [];
  workers_count : Z.of_nat (List.length (workers_ s)) = worker_count options;
  acceptor_joined : joined (stopper s) = true -> acceptor_ s = acceptor_returned;
  all_joined : workers_joined (stopper s) = true -> Forall (eq worker_returned) (workers_ s)
}.

Lemma started_flow listener : 0 <= maximum_queued_connections options -> 0 <= worker_count options ->
  flow_ok (started options listener).
Proof.
  intros Hm Hw. constructor; cbn; try done.
  - intros H. apply elem_of_replicate in H as [H _]. done.
  - rewrite length_replicate. lia.
Qed.

Lemma acceptor_flow s answer s' : flow_ok s -> acceptor_step options s answer = Some s' -> flow_ok s'.
Proof.
  intros [F1 F2 F3 F4 F5 F6 F7 F8] H. step_cases H; rewrite ?Ea in F4, F7;
    try (constructor; cbn; rewrite ?Ea; auto; try done; intros Hj; apply F7 in Hj; done).
  - destruct (stopping_ s) eqn:Es; constructor; cbn; rewrite ?Es; auto; try done. intros Hj. apply F7 in Hj. done.
  - unfold queue_connection. destruct (negb (stopping_ s)) eqn:Es; cbn [andb].
    2: { constructor; cbn; rewrite ?Ea; auto; try done. intros Hj. apply F7 in Hj. done. }
    apply negb_true_iff in Es.
    destruct (Z.ltb_spec (zlen (connections_ s)) (maximum_queued_connections options)).
    2: { constructor; cbn; rewrite ?Ea; auto; try done. intros Hj. apply F7 in Hj. done. }
    constructor; cbn; auto; try done.
    + rewrite zlen_app. change (zlen [fd]) with 1. lia.
    + by rewrite F2, app_assoc.
    + intros Hw. apply F5 in Hw as [Hw _]. by rewrite Es in Hw.
    + intros Hj. apply F7 in Hj. done.
Qed.

Lemma elem_of_insert_ne (ws : list WorkerPoint) i p q : p <> q -> q ∈ <[i := p]> ws -> q ∈ ws.
Proof.
  intros Hne H. apply list_elem_of_lookup in H as [j Hj]. apply list_lookup_insert_Some in Hj as [(_ & E & _)|[_ Hj]]; [done|].
  by eapply list_elem_of_lookup_2.
Qed.

Lemma worker_not_joined s i p : flow_ok s -> workers_ s !! i = Some p -> p <> worker_returned -> workers_joined (stopper s) = false.
Proof.
  intros F H Hp. destruct (workers_joined (stopper s)) eqn:E; [|done]. apply (all_joined s F) in E.
  rewrite Forall_lookup in E. by destruct (Hp (eq_sym (E _ _ H))).
Qed.

Lemma worker_flow s i okr duration s' : flow_ok s -> worker_step options s i okr duration = Some s' -> flow_ok s'.
Proof.
  intros F H. pose proof F as [F1 F2 F3 F4 F5 F6 F7 F8].
  step_cases H; pose proof (worker_not_joined s i _ F Ew ltac:(done)) as Hnj;
    constructor; cbn; rewrite ?length_insert, ?Ec, ?Es; auto;
    try (intros Hj; by rewrite Hj in Hnj); try (intros Hw; apply elem_of_insert_ne in Hw; [by auto|done]).
  - rewrite zlen_cons in F1. lia.
  - by rewrite F2, <- app_assoc.
  - intros Hw. apply elem_of_insert_ne in Hw; [|done]. apply F5 in Hw as [_ Hw]. done.
Qed.

Lemma stop_flow s s' : flow_ok s -> 1 <= worker_count options -> stop_step s = Some s' ->
  flow_ok s' /\ (stopper s = stop_workers_joined -> connections_ s = []).
Proof.
  intros F Hw H. pose proof F as [F1 F2 F3 F4 F5 F6 F7 F8].
  assert (Hdrained : workers_joined (stopper s) = true -> connections_ s = []).
  { intros Hj. apply F8 in Hj. destruct (workers_ s) as [|w ws]; [cbn in F6; lia|].
    apply Forall_cons in Hj as [<- _]. apply F5. by left. }
  split; [|intros E; apply Hdrained; by rewrite E].
  step_cases H; try (constructor; cbn; rewrite ?Ep, ?Ea in *; auto; try done; intuition congruence).
  - constructor; cbn; rewrite ?Ep in *; auto; try done; try (intuition congruence).
    intros _. apply Forall_forall. intros w Hin. rewrite forallb_forall in Ef. apply list_elem_of_In, Ef in Hin.
    by destruct w.
  - assert (En : connections_ s = []) by (apply Hdrained; by rewrite ?Ep). rewrite En. cbn [close_all foldl].
    constructor; cbn; rewrite ?Ep in *; auto; try done; try (intuition congruence).
Qed.

Lemma stop_descriptors s s' : descriptors_ok s -> flow_ok s -> 1 <= worker_count options -> stop_step s = Some s' ->
  descriptors_ok s'.
Proof.
  intros D F Hw H. pose proof (listener_positive s D) as Hl. destruct (stop_flow s s' F Hw H) as [_ Hdrained].
  step_cases H.
  - apply (descriptors_perm s); [unfold owned, listener_open; cbn; by rewrite Ep|done|done| |done]. cbn. intros _.
    apply Hl. unfold listener_open. by rewrite Ep.
  - apply (descriptors_close s _ (listener_ s)); [unfold owned, listener_open; cbn; by rewrite Ep|done..].
  - exfalso. assert (0 <= listener_ s) by (apply Hl; unfold listener_open; by rewrite Ep). lia.
  - apply (descriptors_perm s); [unfold owned, listener_open; cbn; by rewrite Ep, ?Ea|done..].
  - apply (descriptors_perm s); [unfold owned, listener_open; cbn; by rewrite Ep, ?Ea|done..].
  - specialize (Hdrained eq_refl). rewrite Hdrained. cbn [close_all foldl].
    apply (descriptors_perm s); [unfold owned, listener_open; cbn; by rewrite Ep, Hdrained|done..].
Qed.

(** ** The metrics

    The sums of what was added to each counter and gauge, against where the
    connections are. *)

Definition gauge_sum (name : string) (log : list Update) : Z :=
  foldr (fun u z => match u with AddGauge n a => if str_eqb n name then a + z else z | _ => z end) 0 log.

Definition workers_sum (f : WorkerPoint -> Z) (ws : list WorkerPoint) : Z := foldr (fun w z => f w + z) 0 ws.

Definition uncounted (p : WorkerPoint) : Z := match p with taken _ => 1 | _ => 0 end.

Definition active (p : WorkerPoint) : Z := match p with serving _ | served _ _ => 1 | _ => 0 end.

Definition unfinished (p : WorkerPoint) : Z :=
  match p with taken _ | taken_counted _ | serving _ | served _ _ | served_counted _ _ => 1 | _ => 0 end.

Definition finished_total (log : list Update) : Z := total completed_total log + total failed_total log.

Record metrics_ok (s : TcpShardServer) : Prop := {
  accepted_sum : total accepted_total (updates s) =
    zlen (admissions s) - match acceptor_ s with admitted => 1 | _ => 0 end;
  queued_sum : gauge_sum connections_queued (updates s) =
    zlen (connections_ s) + workers_sum uncounted (workers_ s) -
    match acceptor_ s with admitted | admitted_counted => 1 | _ => 0 end;
  active_sum : gauge_sum requests_active (updates s) = workers_sum active (workers_ s);
  finished_sum : finished_total (updates s) = zlen (services s) - workers_sum unfinished (workers_ s)
}.

Lemma gauge_sum_snoc name log u : gauge_sum name (log ++ [u]) =
  gauge_sum name log + match u with AddGauge n a => if str_eqb n name then a else 0 | _ => 0 end.
Proof.
  unfold gauge_sum. rewrite foldr_app. cbn [foldr].
  induction log as [|v log IH]; cbn [foldr]; [destruct u; try done; destruct (str_eqb _ _); lia|].
  rewrite IH. destruct v; try done. destruct (str_eqb _ _); lia.
Qed.

Lemma finished_snoc log u : finished_total (log ++ [u]) =
  finished_total log + (incremented completed_total u + incremented failed_total u).
Proof. unfold finished_total. rewrite !total_snoc. lia. Qed.

Lemma workers_sum_insert f ws i p q : ws !! i = Some p -> workers_sum f (<[i := q]> ws) = workers_sum f ws - f p + f q.
Proof.
  revert i. induction ws as [|w ws IH]; intros [|i] H; try done.
  - injection H as ->. change (f q + workers_sum f ws = f p + workers_sum f ws - f p + f q). lia.
  - change (f w + workers_sum f (<[i := q]> ws) = f w + workers_sum f ws - f p + f q). rewrite (IH _ H). lia.
Qed.

Lemma workers_sum_zero f ws : Forall (eq worker_returned) ws -> f worker_returned = 0 -> workers_sum f ws = 0.
Proof.
  intros H Hf. induction H as [|w ws <- _ IH]; [done|].
  change (f worker_returned + workers_sum f ws = 0). lia.
Qed.

(** The names of the metrics are told apart by computation. *)
Ltac name_tests := cbn [incremented]; repeat match goal with
  | |- context [str_eqb ?a ?b] => let r := eval vm_compute in (str_eqb a b) in change (str_eqb a b) with r
  end; cbv iota.

Ltac sums Hon := cbn [metric with_acceptor with_worker close acceptor_ workers_ updates connections_ admissions services];
  rewrite ?Hon, ?total_snoc, ?gauge_sum_snoc, ?finished_snoc; name_tests; rewrite ?zlen_app.

Lemma acceptor_metrics s answer s' : has_metrics options = true -> metrics_ok s ->
  acceptor_step options s answer = Some s' -> metrics_ok s'.
Proof.
  intros Hon [M1 M2 M3 M4] H. step_cases H; rewrite ?Ea in M1, M2; try (by constructor; cbn; rewrite ?Ea).
  - destruct (stopping_ s); by constructor.
  - unfold queue_connection. destruct (_ && _); constructor; sums Hon; try done; change (zlen [fd]) with 1; lia.
  - constructor; sums Hon; lia.
  - constructor; sums Hon; lia.
  - constructor; sums Hon; lia.
Qed.

Lemma worker_metrics s i okr duration s' : has_metrics options = true -> metrics_ok s ->
  worker_step options s i okr duration = Some s' -> metrics_ok s'.
Proof.
  intros Hon [M1 M2 M3 M4] H. step_cases H; rewrite ?Ec in M2; try destruct okf;
    constructor; sums Hon; rewrite ?Ec, ?(workers_sum_insert _ _ _ _ _ Ew); cbn [uncounted active unfinished]; try done;
    rewrite ?zlen_cons, ?zlen_nil in *; lia.
Qed.

Lemma stop_metrics s s' : metrics_ok s -> connections_ s = [] \/ stopper s <> stop_workers_joined ->
  stop_step s = Some s' -> metrics_ok s'.
Proof.
  intros [M1 M2 M3 M4] Hd H. step_cases H; rewrite ?Ea in M1, M2; try (by constructor; cbn; rewrite ?Ea).
  destruct Hd as [Hd|]; [|done]. rewrite Hd in *. cbn [close_all foldl]. by constructor.
Qed.

End steps.

(** ** All interleavings *)

Lemma workers_sum_waiting f n : f waiting = 0 -> workers_sum f (replicate n waiting) = 0.
Proof. intros Hf. induction n as [|n IH]; [done|]. change (f waiting + workers_sum f (replicate n waiting) = 0). lia. Qed.

Section interleavings.
Context (options : TcpServerOptions) (listener : Z).
Context (Hworkers : 1 <= worker_count options) (Hqueue : 0 <= maximum_queued_connections options) (Hlistener : 0 <= listener).

Lemma started_descriptors : descriptors_ok (started options listener).
Proof using Hlistener.
  clear Hworkers Hqueue.
  assert (Ho : owned (started options listener) = [listener]).
  { unfold owned, started, workers_hold. cbn [listener_open stopper listener_ acceptor_ acceptor_holds connections_ workers_ app].
    induction (Z.to_nat (worker_count options)) as [|n IH]; [done|]. cbn [replicate]. rewrite bind_cons. exact IH. }
  constructor; rewrite ?Ho; [apply NoDup_singleton|cbn; set_solver|done|done].
Qed.

Lemma started_metrics : metrics_ok (started options listener).
Proof.
  constructor; cbn [started updates admissions acceptor_ connections_ workers_ services];
    rewrite ?workers_sum_waiting by done; reflexivity.
Qed.

Lemma reachable_ok s : reachable options listener s ->
  descriptors_ok s /\ flow_ok options s /\ (has_metrics options = true -> metrics_ok s).
Proof using Hworkers Hqueue Hlistener.
  induction 1 as [|s m s' _ (D & F & M) H].
  - split; [apply started_descriptors|]. split; [apply started_flow; lia|]. intros _. apply started_metrics.
  - destruct m as [answer|i okr duration|]; cbn [step] in H.
    + split; [by eapply acceptor_descriptors|]. split; [by eapply acceptor_flow|].
      intros Hon. eapply acceptor_metrics; [exact Hon|by apply M|exact H].
    + split; [by eapply worker_descriptors|]. split; [by eapply worker_flow|].
      intros Hon. eapply worker_metrics; [exact Hon|by apply M|exact H].
    + destruct (stop_flow options s s' F Hworkers H) as [F' Hd].
      split; [by eapply stop_descriptors|]. split; [exact F'|].
      intros Hon. eapply stop_metrics; [by apply M| |exact H].
      destruct (stopper s); auto; right; done.
Qed.

Lemma forallb_false {A} (f : A -> bool) l : forallb f l = false -> exists i x, l !! i = Some x /\ f x = false.
Proof.
  induction l as [|x l IH]; [done|]. cbn. destruct (f x) eqn:E; [|by exists 0%nat, x].
  intros H. destruct (IH H) as (i & y & Hi & Hy). by exists (S i), y.
Qed.

(** Until [stop] has returned some thread can move. *)
Lemma some_move s : flow_ok options s -> stopper s <> stopped -> exists m s', step options s m = Some s'.
Proof.
  intros F Hs. destruct (stopper s) eqn:Ep.
  - exists stop_moves. cbn. unfold stop_step. rewrite Ep. by eexists.
  - exists stop_moves. cbn. unfold stop_step. rewrite Ep. by eexists.
  - destruct (acceptor_ s) eqn:Ea.
    8: { exists stop_moves. cbn. unfold stop_step. rewrite Ep, Ea. by eexists. }
    all: exists (acceptor_moves accept_error); cbn; unfold acceptor_step; rewrite Ea; by eexists.
  - destruct (forallb (fun w => match w with worker_returned => true | _ => false end) (workers_ s)) eqn:Ef.
    { exists stop_moves. cbn. unfold stop_step. rewrite Ep, Ef. by eexists. }
    apply forallb_false in Ef as (i & w & Hi & Hw).
    assert (Hstop : stopping_ s = true) by (apply (stop_called _ s F); by rewrite Ep).
    exists (worker_moves i true d_zero). cbn. unfold worker_step. rewrite Hi.
    destruct w; try done; try by eexists. unfold take_connection. rewrite Hstop. destruct (connections_ s); by eexists.
  - exists stop_moves. cbn. unfold stop_step. rewrite Ep. by eexists.
  - done.
Qed.

(** The gauges stay where they do not saturate. *)
Context (Hsmall : maximum_queued_connections options + worker_count options < i64_max).

Lemma workers_sum_range f ws : (forall p, 0 <= f p <= 1) -> 0 <= workers_sum f ws <= Z.of_nat (List.length ws).
Proof.
  intros Hf. induction ws as [|w ws IH]; [done|]. cbn [List.length]. specialize (Hf w).
  change (0 <= f w + workers_sum f ws <= Z.of_nat (S (List.length ws))). lia.
Qed.

Definition gauges_true (s : TcpShardServer) : Prop := forall name, name = connections_queued \/ name = requests_active ->
  MetricsRegistry.gauge (MetricsSpec.run (updates s)) name = gauge_sum name (updates s).

Lemma gauge_sum_range s name : flow_ok options s -> metrics_ok s -> name = connections_queued \/ name = requests_active ->
  i64_min <= gauge_sum name (updates s) <= i64_max.
Proof using Hsmall Hworkers Hqueue.
  clear Hlistener. intros F M Hname. pose proof (queue_bound _ s F) as Hq. pose proof (zlen_nonneg (connections_ s)) as H0.
  pose proof (workers_count _ s F) as Hc.
  pose proof (workers_sum_range uncounted (workers_ s) ltac:(intros []; cbn; lia)) as Hu.
  pose proof (workers_sum_range active (workers_ s) ltac:(intros []; cbn; lia)) as Ha.
  unfold i64_max, i64_min in *. destruct Hname as [-> | ->].
  - rewrite (queued_sum s M). destruct (acceptor_ s); lia.
  - rewrite (active_sum s M). lia.
Qed.

(** What a step adds to the log of the metrics is one addition at most. *)
Definition one_update (log log' : list Update) : Prop :=
  log' = log \/ exists u, log' = log ++ [u] /\ update_ok u /\ match u with SetGauge _ _ => False | _ => True end.

Lemma one_update_metric s u : update_ok u -> match u with SetGauge _ _ => False | _ => True end ->
  one_update (updates s) (updates (metric options s u)).
Proof. intros Hu Hs. cbn. destruct (has_metrics options); [right; by exists u|by left]. Qed.

Lemma step_updates s m s' : step options s m = Some s' -> one_update (updates s) (updates s').
Proof.
  assert (Hn : i64_min <= -1 <= i64_max /\ i64_min <= 1 <= i64_max /\ is_u64 1) by done. destruct Hn as (Hn & Hp & Hu).
  destruct m as [answer|i okr duration|]; cbn [step]; intros H.
  - unfold acceptor_step in H. destruct (acceptor_ s) as [| |fd| | |fd|fd|].
    1: destruct answer as [fd| |]; [destruct (_ || _); [done|]|..].
    all: try done; injection H as <-; try (by left); try (by apply one_update_metric).
    unfold queue_connection. by destruct (_ && _); left.
  - unfold worker_step in H. destruct (workers_ s !! i) as [[|fd|fd|fd|fd okf|fd okf|fd|fd|]|]; try done.
    1: unfold take_connection in H; destruct (connections_ s); [destruct (stopping_ s); [|done]|].
    all: injection H as <-; try (by left); by apply one_update_metric.
  - unfold stop_step in H. destruct (stopper s); try done;
      [|destruct (0 <=? listener_ s)|destruct (acceptor_ s); try done|destruct (forallb _ _); [|done]|]; injection H as <-; left; try done.
    by destruct (close_all_fields (connections_ s) s) as (_ & _ & _ & _ & _ & _ & E & _).
Qed.

Lemma updates_nil s : has_metrics options = false -> reachable options listener s -> updates s = [].
Proof.
  intros Hoff. induction 1 as [|s m s' _ IH H]; [done|]. destruct (step_updates s m s' H) as [->|(u & E & _)]; [done|].
  exfalso. assert (Hsame : updates s' = updates s); [|by rewrite Hsame, IH in E].
  clear E. destruct m as [answer|i okr duration|]; cbn [step] in H.
  - unfold acceptor_step in H. destruct (acceptor_ s) as [| |fd| | |fd|fd|].
    1: destruct answer as [fd| |]; [destruct (_ || _); [done|]|..].
    all: try done; injection H as <-; cbn; rewrite ?Hoff; try done. unfold queue_connection. by destruct (_ && _).
  - unfold worker_step in H. destruct (workers_ s !! i) as [[|fd|fd|fd|fd okf|fd okf|fd|fd|]|]; try done.
    1: unfold take_connection in H; destruct (connections_ s); [destruct (stopping_ s); [|done]|].
    all: injection H as <-; cbn; by rewrite ?Hoff.
  - unfold stop_step in H. destruct (stopper s); try done;
      [|destruct (0 <=? listener_ s)|destruct (acceptor_ s); try done|destruct (forallb _ _); [|done]|]; injection H as <-; try done.
    by destruct (close_all_fields (connections_ s) s) as (_ & _ & _ & _ & _ & _ & E & _).
Qed.

Lemma reachable_gauges s : reachable options listener s -> gauges_true s.
Proof using Hworkers Hqueue Hlistener Hsmall.
  intros Hr. destruct (has_metrics options) eqn:Hon.
  2: { intros name _. by rewrite (updates_nil s Hon Hr). }
  induction Hr as [|s m s' Hr IH H]; [by intros name|]. intros name Hname. specialize (IH name Hname).
  destruct (reachable_ok s Hr) as (_ & F & M).
  destruct (reachable_ok s' (reachable_step _ _ _ _ _ Hr H)) as (_ & F' & M').
  pose proof (gauge_sum_range s name F (M Hon) Hname) as Hrange.
  pose proof (gauge_sum_range s' name F' (M' Hon) Hname) as Hrange'.
  destruct (step_updates s m s' H) as [->|(u & E & Hu & Hset)]; [exact IH|]. rewrite E in *.
  rewrite run_snoc. rewrite gauge_sum_snoc in *.
  assert (Hvalid : valid_name name = true) by (destruct Hname as [-> | ->]; reflexivity).
  destruct (gauge_step name Hvalid (MetricsSpec.run (updates s)) u Hu ltac:(rewrite IH; exact Hrange)) as [-> _].
  rewrite IH. destruct u as [n a|n a|n a|n v b]; cbn [gauge_after]; try lia; try done.
  destruct (str_eqb n name); [|lia]. unfold clamp, i64_max, i64_min in *. lia.
Qed.

End interleavings.

(** C23. The server loses no connection, in any interleaving of its threads and
    whatever [accept4] and [serve_one] answer: the open descriptors are exactly
    those of the listener, the queue and the threads' hands, each once, and
    none is closed twice; the queue keeps its bound and is served in order;
    until [stop] has returned some thread can move.  When it has, the threads
    have returned, every admitted connection has been served, no descriptor
    is open, both gauges are zero, and as many requests were counted finished
    as connections were accepted. *)
Theorem tcp_server_drains options listener s : 1 <= worker_count options -> 0 <= maximum_queued_connections options ->
  maximum_queued_connections options + worker_count options < i64_max -> 0 <= listener ->
  reachable options listener s ->
  NoDup (owned s) /\ descriptors s = list_to_set (owned s) /\ double_closed s = false /\
  zlen (connections_ s) <= maximum_queued_connections options /\ admissions s = services s ++ connections_ s /\
  (stopper s <> stopped -> exists m s', step options s m = Some s') /\
  (stopper s = stopped ->
     acceptor_ s = acceptor_returned /\ Forall (eq worker_returned) (workers_ s) /\
     services s = admissions s /\ descriptors s = ∅ /\
     MetricsRegistry.gauge (MetricsSpec.run (updates s)) connections_queued = 0 /\
     MetricsRegistry.gauge (MetricsSpec.run (updates s)) requests_active = 0 /\
     (has_metrics options = true ->
        total accepted_total (updates s) = zlen (services s) /\ finished_total (updates s) = zlen (services s))).
Proof.
  intros Hw Hq Hs Hl Hr. destruct (reachable_ok options listener Hw Hq Hl s Hr) as (D & F & M).
  pose proof (reachable_gauges options listener Hw Hq Hl Hs s Hr) as Hg.
  split_and!; [apply D|apply D|apply D|apply F|apply F|by apply some_move|]. intros Ep.
  assert (Ha : acceptor_ s = acceptor_returned) by (apply (acceptor_joined _ s F); by rewrite Ep).
  assert (Hret : Forall (eq worker_returned) (workers_ s)) by (apply (all_joined _ s F); by rewrite Ep).
  assert (Hnil : connections_ s = []).
  { apply (workers_drain _ s F). pose proof (workers_count _ s F) as Hc.
    destruct (workers_ s) as [|w ws]; [cbn in Hc; lia|]. apply Forall_inv in Hret. subst w. by left. }
  assert (Hown : owned s = []).
  { unfold owned, listener_open. rewrite Ep, Ha, Hnil. cbn. clear - Hret. induction Hret as [|w ws <- _ IH]; [done|exact IH]. }
  assert (Hserved : services s = admissions s) by (rewrite (queue_order _ s F), Hnil; by rewrite app_nil_r).
  assert (Hzero : forall name, name = connections_queued \/ name = requests_active -> gauge_sum name (updates s) = 0).
  { intros name Hname. destruct (has_metrics options) eqn:Hon; [|by rewrite (updates_nil options listener s Hon Hr)].
    specialize (M eq_refl). destruct Hname as [-> | ->].
    - rewrite (queued_sum s M), Hnil, Ha, workers_sum_zero by done. done.
    - rewrite (active_sum s M). by apply workers_sum_zero. }
  split_and!; [done..|rewrite (owned_all s D), Hown; done|rewrite Hg by auto; apply Hzero; auto|rewrite Hg by auto; apply Hzero; auto|].
  intros Hon. specialize (M Hon). rewrite (accepted_sum s M), (finished_sum s M), Ha, Hserved, workers_sum_zero by done. lia.
Qed.

(** ** A server with one worker *)

Definition sample_options : TcpServerOptions :=
  {| worker_count := 1; maximum_queued_connections := 1; request_timeout := 5000; rpc_limits := default_rpc_limits;
     has_metrics := true |}.

Fixpoint after_moves (options : TcpServerOptions) (ms : list Move) (s : TcpShardServer) : option TcpShardServer :=
  match ms with
  | [] => Some s
  | m :: rest => match step options s m with Some s' => after_moves options rest s' | None => None end
  end.

Lemma after_moves_reachable options listener ms : forall s s', reachable options listener s ->
  after_moves options ms s = Some s' -> reachable options listener s'.
Proof.
  induction ms as [|m ms IH]; intros s s' Hr; cbn [after_moves]; [by intros [= <-]|].
  destruct (step options s m) as [s1|] eqn:E; [|done]. intros H. eapply IH; [|exact H]. by eapply reachable_step.
Qed.

(** Connection 5 is queued and served, connection 6 is refused while 5 waits
    in the queue, and 7 is still queued when [stop] is called. *)
Definition sample_moves : list Move :=
  let a := acceptor_moves in let w := worker_moves 0 true d_half in
  [a (new_connection 5); a accept_interrupted; a accept_interrupted; a accept_interrupted;
   a (new_connection 6); a accept_interrupted; a accept_interrupted; a accept_interrupted;
   w; w; a (new_connection 7); a accept_interrupted; stop_moves; w; w; a accept_interrupted; a accept_interrupted;
   stop_moves; a accept_error; a accept_error; stop_moves; w; w; w; w; w; w; w; w; w; w; w; w; w; stop_moves; stop_moves].

Definition sample_end : option TcpShardServer := after_moves sample_options sample_moves (started sample_options 3).

Lemma sample_stops : match sample_end with
  | Some s => match stopper s with stopped => true | _ => false end
  | None => false
  end = true.
Proof. vm_compute. reflexivity. Qed.

Lemma tcp_server_drains_witness : exists s, sample_end = Some s /\ stopper s = stopped /\ services s = admissions s /\
  descriptors s = ∅.
Proof.
  pose proof sample_stops as H. destruct sample_end as [s|] eqn:E; [|discriminate H]. exists s.
  assert (Hs : stopper s = stopped) by (destruct (stopper s); discriminate H || reflexivity).
  assert (Hr : reachable sample_options 3 s)
    by exact (after_moves_reachable sample_options 3 sample_moves _ s (reachable_start _ _) E).
  destruct (tcp_server_drains sample_options 3 s ltac:(vm_compute; discriminate) ltac:(vm_compute; discriminate)
    ltac:(vm_compute; reflexivity) ltac:(vm_compute; discriminate) Hr) as (_ & _ & _ & _ & _ & _ & Hstop).
  destruct (Hstop Hs) as (_ & _ & Hserved & Hd & _).
  split; [reflexivity|]. split; [exact Hs|]. split; [exact Hserved|exact Hd].
Defined.
