(* ===== verification/TcpClient.v ===== *)
(** * The TCP client of a shard

    [connect_socket] and [TcpShardClient::search] of
    src/distributed/tcp_transport.cpp: each address the host resolves to is
    tried in turn, with a non-blocking connect until the deadline, then one
    search runs on the socket.  The destructor of [Socket] is a [Close] on every
    path on which the descriptor was not released.  An address is a token of
    [getaddrinfo]; [gai_strerror] is a parameter as [strerror] is. *)

From S2P Require Import Prelude Bytes Text Sockets Executor Rpc TcpServer.
From ITree Require Import ITree.

Definition O_NONBLOCK : Z := 2048.

Section client.
Context (strerror : Errno -> string) (gai_strerror : Z -> string).

(** One round of the loop that waits for the connection: [inl] goes round
    again, [inr None] is [break], [inr (Some r)] returns from the function. *)
Definition connect_round (fd flags deadline : Z) (_ : unit) : itree SocketE (unit + option (expected RpcError unit)) :=
  now ← syscall Now;
  if now >=? deadline then Ret (inr (Some (Err (rpc_fail rpc_timeout "TCP connect deadline exceeded"))))
  else
    ready ← syscall (PollConnect fd (Z.min ((deadline - now) / 1000000 + 1) 2147483647));
    match ready with
    | Err eintr => Ret (inl tt)
    | Err _ => Ret (inr None)
    | Ok false => Ret (inl tt)
    | Ok true =>
        error ← syscall (GetSocketError fd);
        match error with
        | Ok 0 => _ ← syscall (SetFlags fd flags); Ret (inr (Some (Ok tt)))
        | _ => Ret (inr None)
        end
    end.

(** The body of the loop over the addresses, once there is a socket; [None] is
    [continue] or the end of the body. *)
Definition connect_address (fd address deadline : Z) : itree SocketE (option (expected RpcError unit)) :=
  flags ← syscall (GetFlags fd);
  match flags with
  | Err _ => Ret None
  | Ok flags =>
      set ← syscall (SetFlags fd (Z.lor flags O_NONBLOCK));
      match set with
      | Err _ => Ret None
      | Ok _ =>
          connected ← syscall (Connect fd address);
          match connected with
          | Ok _ | Err einprogress => ITree.iter (connect_round fd flags deadline) tt
          | Err _ => Ret None
          end
      end
  end.

Fixpoint connect_addresses (addresses : list Z) (deadline : Z) : itree SocketE (expected RpcError Z) :=
  match addresses with
  | [] => Ret (Err (rpc_fail rpc_io_error "cannot connect to shard endpoint"))
  | address :: rest =>
      socket ← syscall (NewSocket address);
      match socket with
      | Err _ => connect_addresses rest deadline
      | Ok fd =>
          outcome ← connect_address fd address deadline;
          match outcome with
          | None => _ ← syscall (Close fd); connect_addresses rest deadline
          | Some (Err e) => _ ← syscall (Close fd); Ret (Err e)
          | Some (Ok _) => Ret (Ok fd)
          end
      end
  end.

Definition connect_socket (endpoint : TcpEndpoint) (deadline : Z) : itree SocketE (expected RpcError Z) :=
  if port endpoint =? 0 then Ret (Err (rpc_fail rpc_protocol_error "TCP port is zero"))
  else
    resolved ← syscall (GetAddrInfo (host endpoint) (to_string_u (port endpoint)));
    match resolved with
    | Err code => Ret (Err (rpc_fail rpc_io_error (gai_strerror code)))
    | Ok addresses => connect_addresses addresses deadline
    end.

(** [TcpShardClient::search] *)
Definition tcp_search (endpoint : TcpEndpoint) (limits : RpcLimits) (query : string) (top_k deadline : Z)
    : itree SocketE (expected RpcError SearchResult) :=
  attempt (connect_socket endpoint deadline) (fun fd =>
  result ← client_search strerror limits query top_k deadline;
  _ ← syscall (Close fd);
  Ret result).

End client.
