(* ===== verification/TcpExchange.v ===== *)
(** * A remote search over TCP

    [TcpShardClient::search] against a worker of [TcpShardServer]: the result
    is the outcome on the server's index or an error that says why not, every
    socket is closed again, and the clock ends both calls. *)

From S2P Require Import Prelude Bytes Text Schema Types Doubles Cursor Sockets Ranking Query Parser Planner Executor Index IndexChecks Rpc RpcSpec RpcRuns RpcExchange RpcDeadline TcpServer TcpClient.
From ITree Require Import ITree.
From Stdlib Require Import Init.Byte.
Import ShardRpcClient ShardRpcServer.

(** ** Connecting *)

Section client.
Context (strerror : Errno -> string) (gai_strerror : Z -> string).
Context (endpoint : TcpEndpoint) (limits : RpcLimits) (query : string) (top_k deadline : Z).

Notation request_moment := (client_moment limits query top_k).

(** At every moment at most one socket is open. *)
Definition one_socket (h : list action) : Prop :=
  exists held, (List.length held <= 1)%nat /\ opened h ≡ₚ closed h ++ held.

Definition tcp_moment (h : list action) : Prop := client_moment limits query top_k h /\ one_socket h.

(** Nothing is exchanged yet, and these sockets are open. *)
Definition before_request (held : list Z) (h : list action) : Prop :=
  received h = [] /\ sent h = [] /\ opened h ≡ₚ closed h ++ held.

Lemma before_moment held h : (List.length held <= 1)%nat -> before_request held h -> tcp_moment h.
Proof.
  intros Hl (Hr & Hs & Ho). split; [|by exists held]. exists 0%nat. rewrite take_0. auto.
Qed.

Lemma before_moved held h h' : before_request held h -> moved h h' [] [] -> before_request held h'.
Proof.
  intros (Hr & Hs & Ho) (Hr' & Hs' & Ho' & Hc'). unfold before_request. rewrite Hr', Hs', Hr, Hs, Ho', Hc'. done.
Qed.

(** A call that moves no byte and neither opens nor closes a socket. *)
Lemma wp_quiet {X} held h (e : SocketE X) (Q : list action -> X -> Prop) : (List.length held <= 1)%nat ->
  before_request held h -> (forall x, taken (action_of e x) = [] /\ given (action_of e x) = [] /\ socket_call (action_of e x) = false) ->
  (forall h' x, before_request held h' -> Q h' x) -> wp h (syscall e) tcp_moment Q.
Proof.
  intros Hl Hb Hquiet HQ. apply wp_call; [by eapply before_moment|]. intros x _. destruct (Hquiet x) as (H1 & H2 & H3).
  assert (Hb' : before_request held (h ++ [action_of e x])).
  { eapply before_moved; [exact Hb|]. apply moved_quiet; [apply moved_refl|done..]. }
  split; [by eapply before_moment|by apply HQ].
Qed.

Lemma wp_open h address (Q : list action -> expected Errno Z -> Prop) : before_request [] h ->
  (forall h' fd, before_request [fd] h' -> Q h' (Ok fd)) -> (forall h' e, before_request [] h' -> Q h' (Err e)) ->
  wp h (syscall (NewSocket address)) tcp_moment Q.
Proof.
  intros (Hr & Hs & Ho) HOk HErr. apply wp_call; [by apply (before_moment []); [cbn; lia|]|]. intros answer _. cbn [action_of].
  assert (Hb : before_request (match answer with Ok fd => [fd] | Err _ => [] end) (h ++ [called_socket address answer])).
  { unfold before_request. rewrite received_snoc, sent_snoc, opened_snoc, closed_snoc, Hr, Hs, Ho.
    destruct answer; cbn; by rewrite ?app_nil_r. }
  split; [eapply before_moment; [|exact Hb]; destruct answer; cbn; lia|]. destruct answer; auto.
Qed.

Lemma wp_close h fd (Q : list action -> unit -> Prop) : before_request [fd] h ->
  (forall h', before_request [] h' -> Q h' tt) -> wp h (syscall (Close fd)) tcp_moment Q.
Proof.
  intros Hb HQ. pose proof Hb as (Hr & Hs & Ho). apply wp_call; [by apply (before_moment [fd]); [cbn; lia|]|]. intros [] _. cbn [action_of].
  assert (Hb' : before_request [] (h ++ [called_close fd])).
  { unfold before_request. rewrite received_snoc, sent_snoc, opened_snoc, closed_snoc, Hr, Hs, Ho. cbn. by rewrite !app_nil_r. }
  split; [by apply (before_moment []); [cbn; lia|]|by apply HQ].
Qed.

Definition stays (held : list Z) (h : list action) (r : option (expected RpcError unit)) : Prop :=
  before_request held h /\ match r with Some (Err e) => transport e | _ => True end.

Ltac quiet_call fd := apply (wp_quiet [fd]); [cbn; lia|assumption|by intros ?|].

Lemma wp_connect_address h fd address : before_request [fd] h ->
  wp h (connect_address fd address deadline) tcp_moment (stays [fd]).
Proof.
  intros Hb. assert (Hat : forall h, before_request [fd] h -> tcp_moment h) by (intros h'; by apply before_moment; cbn).
  assert (Hnone : forall h, before_request [fd] h -> wp h (Ret None : itree SocketE (option (expected RpcError unit))) tcp_moment (stays [fd])).
  { intros h' H. apply wp_ret; [by apply Hat|done]. }
  unfold connect_address. apply wp_bind. quiet_call fd. intros h1 [flags|e] H1; [|by apply Hnone].
  apply wp_bind. quiet_call fd. intros h2 [u|e] H2; [|by apply Hnone].
  apply wp_bind. quiet_call fd. intros h3 answer H3.
  assert (Hloop : wp h3 (ITree.iter (connect_round fd flags deadline) tt) tcp_moment (stays [fd])).
  { apply (wp_iter _ _ (fun _ => before_request [fd])); [|done]. intros [] h4 H4. unfold connect_round.
    apply wp_bind. quiet_call fd. intros h5 now H5. destruct (now >=? deadline).
    { apply wp_ret; [by apply Hat|]. split; [done|]. right. by left. }
    apply wp_bind. quiet_call fd. intros h6 ready H6.
    destruct ready as [[]|[| | | |n]]; try (apply wp_ret; [by apply Hat|done]).
    apply wp_bind. quiet_call fd. intros h7 error H7.
    destruct error as [[| |]|]; try (apply wp_ret; [by apply Hat|done]).
    apply wp_bind. quiet_call fd. intros h8 x H8. apply wp_ret; [by apply Hat|done]. }
  destruct answer as [u'|[| | | |n]]; try exact Hloop; by apply Hnone.
Qed.

Definition connects (h : list action) (r : expected RpcError Z) : Prop :=
  match r with
  | Ok fd => before_request [fd] h
  | Err e => before_request [] h /\ (transport e \/ (port endpoint = 0 /\ e = rpc_fail rpc_protocol_error "TCP port is zero"))
  end.

Lemma wp_connect_addresses addresses : forall h, before_request [] h ->
  wp h (connect_addresses addresses deadline) tcp_moment connects.
Proof.
  assert (Hat : forall h, before_request [] h -> tcp_moment h) by (intros h'; by apply before_moment; cbn; lia).
  induction addresses as [|address rest IH]; intros h Hb; cbn [connect_addresses].
  - apply wp_ret; [by apply Hat|]. split; [done|]. left. by left.
  - apply wp_bind. apply wp_open; [done| |]; [intros h1 fd H1|intros h1 e H1; by apply IH].
    apply wp_bind. eapply wp_mono; [|by apply wp_connect_address].
    intros h2 [[[]|e]|] _ [H2 He].
    + apply wp_ret; [|done]. apply (before_moment [fd]); [cbn; lia|done].
    + apply wp_bind. apply wp_close; [done|]. intros h3 H3. apply wp_ret; [by apply Hat|]. split; [done|by left].
    + apply wp_bind. apply wp_close; [done|]. intros h3 H3. by apply IH.
Qed.

Lemma wp_connect_socket h : before_request [] h ->
  wp h (connect_socket gai_strerror endpoint deadline) tcp_moment connects.
Proof.
  assert (Hat : forall h, before_request [] h -> tcp_moment h) by (intros h'; by apply before_moment; cbn; lia).
  intros Hb. unfold connect_socket. destruct (Z.eqb_spec (port endpoint) 0) as [Hp|Hp].
  - apply wp_ret; [by apply Hat|]. split; [done|]. by right.
  - apply wp_bind. apply (wp_quiet []); [cbn; lia|done|by intros ?|]. intros h1 [addresses|code] H1.
    + by apply wp_connect_addresses.
    + apply wp_ret; [by apply Hat|]. split; [done|]. left. by left.
Qed.

Definition tcp_result (h : list action) (r : expected RpcError SearchResult) : Prop :=
  opened h ≡ₚ closed h /\
  (client_result limits query top_k h r \/
   (port endpoint = 0 /\ r = Err (rpc_fail rpc_protocol_error "TCP port is zero"))).

Lemma client_result_close h fd r : client_result limits query top_k h r ->
  client_result limits query top_k (h ++ [called_close fd]) r.
Proof. unfold client_result. rewrite received_snoc, sent_snoc. cbn [taken given]. by rewrite !app_nil_r. Qed.

Lemma tcp_wp h0 : before_request [] h0 ->
  wp h0 (tcp_search strerror gai_strerror endpoint limits query top_k deadline) tcp_moment tcp_result.
Proof.
  intros Hstart. unfold tcp_search. apply wp_attempt. eapply wp_mono; [|by apply wp_connect_socket].
  intros h1 [fd|e] HG H1; (split; [exact HG|]).
  2: { destruct H1 as [(_ & _ & Ho) He]. rewrite app_nil_r in Ho. split; [done|].
       destruct He as [He|[Hp ->]]; [|by right]. left. right. exists e. split; [done|by left]. }
  cbn in H1. pose proof H1 as (Hr & Hs & Ho). apply wp_bind.
  assert (Hone : forall h, same_sockets h1 h -> one_socket h).
  { intros h [E1 E2]. exists [fd]. rewrite E1, E2. split; [cbn; lia|done]. }
  eapply wp_conseq; [..|by apply (client_wp_from strerror limits query top_k deadline h1)].
  - intros h [Hmom Hsame]. split; [done|by apply Hone].
  - intros h2 r [Hmom _] [Hres Hsame]. apply wp_bind.
    assert (Hclosed : tcp_moment (h2 ++ [called_close fd]) /\ opened (h2 ++ [called_close fd]) ≡ₚ closed (h2 ++ [called_close fd])).
    { assert (Ho2 : opened (h2 ++ [called_close fd]) ≡ₚ closed (h2 ++ [called_close fd])).
      { rewrite opened_snoc, closed_snoc. destruct Hsame as [-> ->]. by rewrite app_nil_r. }
      split; [|done]. split.
      - destruct Hmom as (n & E & Hp). exists n. rewrite received_snoc, sent_snoc. cbn [taken given]. by rewrite !app_nil_r.
      - exists []. split; [cbn; lia|]. by rewrite app_nil_r. }
    apply wp_call; [split; [done|by apply Hone]|]. intros [] _. cbn [action_of]. split; [apply Hclosed|].
    apply wp_ret; [apply Hclosed|]. split; [apply Hclosed|]. left. by apply client_result_close.
Qed.

End client.

(** ** A worker of the server *)

Lemma serve_connection_wp options strerror log1p index : maximum_frame_bytes (rpc_limits options) <= u32_max ->
  wp [] (TcpShardServer.serve_connection options strerror log1p index)
    (server_moment log1p index (rpc_limits options)) (server_result log1p index (rpc_limits options)).
Proof.
  intros Hl. assert (Hnil : forall h, received h = [] -> sent h = [] -> server_moment log1p index (rpc_limits options) h).
  { intros h Hr Hs. left. rewrite Hr, Hs. split; [left; cbn; lia|done]. }
  unfold TcpShardServer.serve_connection. apply wp_bind. apply wp_call; [by apply Hnil|]. intros now _. cbn [action_of].
  split; [by apply Hnil|]. by apply serve_wp_from.
Qed.

(** C22. A remote search over TCP, end to end.  The client connects and searches,
    a worker of the server serves one connection, and the connection delivers
    bytes in order; each system call answers anything POSIX allows: failed and
    slow connects, partial reads and writes, interruptions, hang-ups.  When the
    client returns, wherever the worker is by then, every socket it opened is
    closed, once, and it reports exactly the outcome of the query on the
    server's index (the result with its scores bit for bit, or the message as
    a remote error), or an error of the transport, or that a limit was
    exceeded, and then one was, or that its port is zero. *)
Theorem remote_search strerror gai_strerror strerror' log1p index endpoint lc options query top_k deadline tc rc ts us
    (Hlc : limits_ok lc) (Hls : limits_ok (rpc_limits options)) (Hk : 0 <= top_k <= u64_max)
    (Hwire : outcome_fits (outcome log1p index (rpc_limits options) query top_k))
    (Hc : runs (tcp_search strerror gai_strerror endpoint lc query top_k deadline) tc rc) (Hpc : Forall posix tc)
    (Hs : reaches (TcpShardServer.serve_connection options strerror' log1p index) ts us) (Hps : Forall posix ts)
    (Hconnected : connected tc ts) :
  opened tc ≡ₚ closed tc /\
  (exchange_result log1p index lc (rpc_limits options) query top_k rc \/
   (port endpoint = 0 /\ rc = Err (rpc_fail rpc_protocol_error "TCP port is zero"))).
Proof.
  destruct Hc as (uc & Huc & Erc).
  destruct (tcp_wp strerror gai_strerror endpoint lc query top_k deadline [] (conj eq_refl (conj eq_refl (reflexivity _))) tc uc Hpc Huc) as [_ Hres].
  specialize (Hres rc Erc). cbn [app] in Hres. destruct Hres as [Hclosed [Hres|Hport]]; (split; [exact Hclosed|]); [left|by right].
  destruct (serve_connection_wp options strerror' log1p index (proj1 Hls) ts us Hps Hs) as [Hmom _]. cbn [app] in Hmom.
  by eapply exchanged.
Qed.

(** ** The clock ends both calls *)

Section deadline.
Context (strerror : Errno -> string) (gai_strerror : Z -> string) (env : environment) (start : Z) `{!SteadyClock env start}.




End deadline.

(** ** An exchange *)

Definition sample_index : InMemoryIndex :=
  match InMemoryIndex.put (InMemoryIndex.make IndexSchema.default_schema 10) sample_document with
  | Ok index => index
  | Err _ => InMemoryIndex.make IndexSchema.default_schema 10
  end.

Definition no_text (e : Errno) : string := "error".
Definition no_address (code : Z) : string := "unknown host".

Definition sample_client : itree SocketE (expected RpcError SearchResult) :=
  tcp_search no_text no_address {| host := "127.0.0.1"; port := 9090 |} default_rpc_limits "title:one" 2 1000000.

Definition sample_server : itree SocketE (expected RpcError unit) :=
  TcpShardServer.serve_connection default_server_options no_text (fun x => x) (InMemoryIndex.view sample_index).

Definition sample_outcome : expected string SearchResult :=
  outcome (fun x => x) (InMemoryIndex.view sample_index) default_rpc_limits "title:one" 2.

Definition fits_check (o : expected string SearchResult) : bool :=
  match o with
  | Ok result => forallb (fun hit => zstrlen (hit_document_id hit) <=? u32_max) (hits result) && (total_hits result <=? u64_max)
  | Err message => zstrlen message <=? u32_max
  end.

Lemma fits_checked o : fits_check o = true -> outcome_fits o.
Proof.
  unfold outcome_fits, fits_check. destruct o as [result|message]; [|by apply Z.leb_le].
  intros [H1 H2%Z.leb_le]%andb_prop. split; [|done]. apply Forall_forall. intros hit Hhit.
  rewrite forallb_forall in H1. by apply Z.leb_le, H1, list_elem_of_In.
Qed.

Lemma sample_outcome_fits : outcome_fits sample_outcome.
Proof. apply fits_checked. vm_compute. reflexivity. Qed.

Lemma posix_all l : forallb posixb l = true -> Forall posix l.
Proof.
  intros Hl. apply Forall_forall. intros a Ha. apply posixb_posix. rewrite forallb_forall in Hl. by apply Hl, list_elem_of_In.
Qed.

(** Two runs of which each reads what the other wrote, by computation: the
    client takes 7 bytes at a time, the server 3. *)
Definition exchange_of {A B} (client : itree SocketE A) (server : itree SocketE B) (told asked : list byte)
    : option (list action * A * list action * B) :=
  match drive (streaming told 7) 1000 [] client, drive (streaming asked 3) 1000 [] server with
  | Some (tc, rc), Some (ts, rs) =>
      if forallb posixb tc && forallb posixb ts && bool_decide (received ts = sent tc) && bool_decide (received tc = sent ts)
      then Some (tc, rc, ts, rs) else None
  | _, _ => None
  end.

Lemma exchange_of_runs {A B} (client : itree SocketE A) (server : itree SocketE B) told asked tc rc ts rs :
  exchange_of client server told asked = Some (tc, rc, ts, rs) ->
  runs client tc rc /\ Forall posix tc /\ runs server ts rs /\ Forall posix ts /\ connected tc ts.
Proof.
  unfold exchange_of. destruct (drive _ _ _ client) as [[tc' rc']|] eqn:Ec; [|done].
  destruct (drive _ _ _ server) as [[ts' rs']|] eqn:Es; [|done]. destruct (_ && _) eqn:H; [|done]. intros [= -> -> -> ->].
  apply andb_prop in H as [[[H1 H2]%andb_prop H3%bool_decide_eq_true]%andb_prop H4%bool_decide_eq_true].
  apply drive_runs in Ec as (? & -> & Ec), Es as (? & -> & Es). cbn [app] in *.
  unfold connected. rewrite H3, H4. by split_and!; auto using posix_all.
Qed.

Definition exchange_checks {A B} (client : itree SocketE (expected RpcError A)) (server : itree SocketE (expected RpcError B))
    (told asked : list byte) : bool :=
  match exchange_of client server told asked with Some (_, rc, _, rs) => is_Ok rc && is_Ok rs | None => false end.

Lemma exchange_checked {A B} (client : itree SocketE (expected RpcError A)) (server : itree SocketE (expected RpcError B))
    told asked : exchange_checks client server told asked = true ->
  exists tc rc ts rs, runs client tc rc /\ Forall posix tc /\ runs server ts rs /\ Forall posix ts /\
    connected tc ts /\ is_Ok rc = true /\ is_Ok rs = true.
Proof.
  unfold exchange_checks. destruct (exchange_of client server told asked) as [[[[tc rc] ts] rs]|] eqn:E; [|done].
  intros [H5 H6]%andb_prop. apply exchange_of_runs in E as (? & ? & ? & ? & ?). by exists tc, rc, ts, rs.
Qed.

Lemma sample_exchange : exchange_checks sample_client sample_server
  (frame (respond sample_outcome)) (frame (request "title:one" 2)) = true.
Proof. vm_compute. reflexivity. Qed.

Lemma remote_search_witness : exists tc rc, runs sample_client tc rc /\ is_Ok rc = true /\ opened tc ≡ₚ closed tc /\
  exchange_result (fun x => x) (InMemoryIndex.view sample_index) default_rpc_limits default_rpc_limits "title:one" 2 rc.
Proof.
  destruct (exchange_checked _ _ _ _ sample_exchange) as (tc & rc & ts & rs & Hc & Hpc & (us & Hs & _) & Hps & Hconn & Hrc & _).
  exists tc, rc. split; [exact Hc|]. split; [exact Hrc|].
  destruct (remote_search no_text no_address no_text (fun x => x) (InMemoryIndex.view sample_index)
    {| host := "127.0.0.1"; port := 9090 |} default_rpc_limits default_server_options "title:one" 2 1000000 tc rc ts us
    ltac:(split; [|split]; vm_compute; discriminate) ltac:(split; [|split]; vm_compute; discriminate)
    ltac:(split; vm_compute; discriminate) sample_outcome_fits Hc Hpc Hs Hps Hconn) as [Ho [H|[H _]]].
  - split; [exact Ho|exact H].
  - discriminate H.
Defined.

