(* ===== verification/Evaluation.v ===== *)
(** * Ranking metrics

    include/dse/evaluation/metrics.hpp and src/evaluation/metrics.cpp: what the
    benchmarks report of a ranking, from graded relevance judgments.  Counts
    are numbers of objects in memory; [std::exp2] and [std::log2] are
    parameters. *)

From S2P Require Import Prelude Text Doubles Types.
From Stdlib Require Import SpecFloat.

Notation RelevanceJudgments := (gmap string Z).

Record RankingMetrics := {
  precision_at_k : double;
  recall_at_k : double;
  average_precision : double;
  reciprocal_rank : double;
  ndcg_at_k : double
}.

(** The variables of the loop over the ranking. *)
Record Sums := { found : Z; precision_sum : double; reciprocal : double; dcg : double }.

Definition no_sums : Sums := {| found := 0; precision_sum := d_zero; reciprocal := d_zero; dcg := d_zero |}.

Definition grade_of (judgments : RelevanceJudgments) (id : DocumentId) : Z := default 0 (judgments !! id).

Definition is_relevant (grade : Z) : bool := negb (grade =? 0).

(** [std::greater<>] *)
Definition greater (a b : Z) : bool := b <? a.

Definition count_if {A} (test : A -> bool) (l : list A) : Z := zlen (filter (fun x => test x = true) l).

Section evaluate.
Context (exp2 log2 : double -> double).

Definition gain (index grade : Z) : double :=
  d_div (d_sub (exp2 (d_of_Z grade)) d_one) (log2 (d_add (d_of_Z index) (d_of_Z 2))).

(** The body of the loop over the ranking. *)
Definition rank_step (judgments : RelevanceJudgments) (limit index : Z) (id : DocumentId) (s : Sums) : Sums :=
  let grade := grade_of judgments id in
  let s1 :=
    if is_relevant grade then
      let found' := found s + 1 in
      {| found := found';
         precision_sum := d_add (precision_sum s) (d_div (d_of_Z found') (d_of_Z (index + 1)));
         reciprocal := if d_eqb (reciprocal s) d_zero then d_div d_one (d_of_Z (index + 1)) else reciprocal s;
         dcg := dcg s |}
    else s in
  if index <? limit then
    {| found := found s1; precision_sum := precision_sum s1; reciprocal := reciprocal s1;
       dcg := d_add (dcg s1) (gain index grade) |}
  else s1.

Fixpoint rank_loop (judgments : RelevanceJudgments) (limit index : Z) (ranked : list DocumentId) (s : Sums) : Sums :=
  match ranked with
  | [] => s
  | id :: rest => rank_loop judgments limit (index + 1) rest (rank_step judgments limit index id s)
  end.

(** The loop over the first grades of [ideal]. *)
Fixpoint ideal_loop (index : Z) (ideal : list Z) (sum : double) : double :=
  match ideal with
  | [] => sum
  | grade :: rest => ideal_loop (index + 1) rest (d_add sum (gain index grade))
  end.

Definition evaluate (ranked : list DocumentId) (judgments : RelevanceJudgments) (k : Z) : RankingMetrics :=
  let relevant := count_if (fun item : string * Z => is_relevant item.2) (map_items judgments) in
  let limit := Z.min k (zlen ranked) in
  let sums := rank_loop judgments limit 0 ranked no_sums in
  let ideal := sort_by greater (map_items judgments).*2 in
  let ideal_dcg := ideal_loop 0 (take (Z.to_nat (Z.min limit (zlen ideal))) ideal) d_zero in
  let found_at_k := count_if (fun id => is_relevant (grade_of judgments id)) (take (Z.to_nat limit) ranked) in
  {| precision_at_k := if k =? 0 then d_zero else d_div (d_of_Z found_at_k) (d_of_Z k);
     recall_at_k := if relevant =? 0 then d_zero else d_div (d_of_Z found_at_k) (d_of_Z relevant);
     average_precision := if relevant =? 0 then d_zero else d_div (precision_sum sums) (d_of_Z relevant);
     reciprocal_rank := reciprocal sums;
     ndcg_at_k := if d_eqb ideal_dcg d_zero then d_zero else d_div (dcg sums) ideal_dcg |}.

(** ** In closed form *)

(** The gains of a list of grades, added from the left. *)
Definition dcg_of (grades : list Z) : double := foldl d_add d_zero (imap (fun i g => gain (Z.of_nat i) g) grades).

Section judged.
Context (judgments : RelevanceJudgments).

Definition relevant_id (id : DocumentId) : bool := is_relevant (grade_of judgments id).

(** The precision at each relevant position. *)
Definition precisions (ranked : list DocumentId) : list double :=
  omap (fun i => match ranked !! i with
                 | Some id => if relevant_id id
                              then Some (d_div (d_of_Z (count_if relevant_id (take (S i) ranked))) (d_of_Z (Z.of_nat i + 1)))
                              else None
                 | None => None
                 end) (seq 0 (length ranked)).

(** One over the position of the first relevant document. *)
Definition first_relevant (ranked : list DocumentId) : double :=
  match list_find (fun id => relevant_id id = true) ranked with
  | Some (i, _) => d_div d_one (d_of_Z (Z.of_nat i + 1))
  | None => d_zero
  end.

Definition sums_of (limit : Z) (ranked : list DocumentId) : Sums :=
  {| found := count_if relevant_id ranked;
     precision_sum := foldl d_add d_zero (precisions ranked);
     reciprocal := first_relevant ranked;
     dcg := dcg_of (grade_of judgments <$> take (Z.to_nat limit) ranked) |}.

Lemma rank_loop_snoc limit ranked id : forall index s,
  rank_loop judgments limit index (ranked ++ [id]) s =
  rank_step judgments limit (index + zlen ranked) id (rank_loop judgments limit index ranked s).
Proof using Type.
  induction ranked as [|x ranked IH]; intros index s; cbn [app rank_loop].
  - change (zlen []) with 0. by rewrite Z.add_0_r.
  - rewrite IH, zlen_cons. f_equal. lia.
Qed.

Lemma count_if_app {A} (test : A -> bool) l l' : count_if test (l ++ l') = count_if test l + count_if test l'.
Proof using Type. unfold count_if. by rewrite filter_app, zlen_app. Qed.

Lemma precisions_snoc ranked id : precisions (ranked ++ [id]) =
  precisions ranked ++
  if relevant_id id then [d_div (d_of_Z (count_if relevant_id ranked + 1)) (d_of_Z (zlen ranked + 1))] else [].
Proof using Type.
  unfold precisions. rewrite length_app. cbn [length]. rewrite seq_app, omap_app. cbn [seq Nat.add]. f_equal.
  - apply list_omap_ext, Forall2_same_length_lookup_2; [done|]. intros i a b Ha Hb. simplify_eq.
    apply lookup_seq in Ha as [-> Hi]. cbn [Nat.add]. rewrite lookup_app_l, take_app_le by lia. done.
  - cbn [omap list_omap]. rewrite lookup_app_r, Nat.sub_diag by done. cbn.
    rewrite (take_ge _ (S (length ranked))) by (rewrite length_app; cbn; lia).
    rewrite count_if_app. destruct (relevant_id id) eqn:E; [|done]. unfold count_if at 2. by rewrite filter_cons, E.
Qed.

Lemma first_relevant_zero ranked : zlen ranked <= u64_max ->
  d_eqb (first_relevant ranked) d_zero = bool_decide (list_find (fun id => relevant_id id = true) ranked = None).
Proof using Type.
  intros Hl. unfold first_relevant. destruct (list_find _ ranked) as [[i x]|] eqn:E; [|done].
  apply list_find_Some in E as (Hi & _ & _). apply lookup_lt_Some in Hi.
  destruct (d_ratio_pos 1 (Z.of_nat i + 1)) as (p & e & Hd); [unfold u64_max; lia|unfold zlen in Hl; lia|].
  change (d_of_Z 1) with d_one in Hd. by rewrite Hd.
Qed.

Lemma first_relevant_snoc ranked id : zlen ranked <= u64_max ->
  first_relevant (ranked ++ [id]) =
  if relevant_id id && d_eqb (first_relevant ranked) d_zero
  then d_div d_one (d_of_Z (zlen ranked + 1)) else first_relevant ranked.
Proof using Type.
  intros Hl. rewrite first_relevant_zero by done. unfold first_relevant.
  destruct (list_find (fun x => relevant_id x = true) ranked) as [[i x]|] eqn:E.
  - rewrite (list_find_app_l _ _ _ _ _ E), bool_decide_eq_false_2, andb_false_r by done. done.
  - rewrite (list_find_app_r _ _ _ E), bool_decide_eq_true_2, andb_true_r by done. cbn [list_find].
    destruct (relevant_id id) eqn:Er; case_decide; try congruence; done.
Qed.

Lemma dcg_snoc grades g : dcg_of (grades ++ [g]) = d_add (dcg_of grades) (gain (zlen grades) g).
Proof using Type. unfold dcg_of. rewrite imap_app, foldl_app. cbn. by rewrite Nat.add_0_r. Qed.

Lemma ideal_loop_app grades : forall index sum,
  ideal_loop index grades sum = foldl d_add sum (imap (fun i g => gain (index + Z.of_nat i) g) grades).
Proof using Type.
  induction grades as [|g grades IH]; intros index sum; [done|]. cbn [ideal_loop imap foldl].
  rewrite IH, Z.add_0_r. f_equal. apply imap_ext. intros i x _. cbn. f_equal. lia.
Qed.

Lemma rank_loop_sums limit ranked : 0 <= limit -> zlen ranked <= u64_max ->
  rank_loop judgments limit 0 ranked no_sums = sums_of limit ranked.
Proof using Type.
  intros Hk. induction ranked as [|id ranked IH] using rev_ind; [by unfold sums_of; rewrite take_nil|].
  rewrite zlen_app. change (zlen [id]) with 1. intros Hl. rewrite rank_loop_snoc, IH by lia.
  assert (Hc : count_if (relevant_id) (ranked ++ [id]) =
    count_if (relevant_id) ranked + if relevant_id id then 1 else 0).
  { rewrite count_if_app. f_equal. unfold count_if. rewrite filter_cons. by destruct (relevant_id id). }
  assert (Hg : dcg_of (grade_of judgments <$> take (Z.to_nat limit) (ranked ++ [id])) =
    if zlen ranked <? limit then d_add (dcg_of (grade_of judgments <$> take (Z.to_nat limit) ranked))
                                  (gain (zlen ranked) (grade_of judgments id))
    else dcg_of (grade_of judgments <$> take (Z.to_nat limit) ranked)).
  { unfold zlen in *. destruct (Z.ltb_spec (Z.of_nat (length ranked)) limit).
    - rewrite !take_ge by (rewrite ?length_app; cbn; lia). rewrite fmap_app.
      change (grade_of judgments <$> [id]) with [grade_of judgments id]. rewrite dcg_snoc. unfold zlen.
      by rewrite length_fmap.
    - by rewrite take_app_le by lia. }
  unfold rank_step, sums_of at 1 2 3. rewrite Z.add_0_l. unfold sums_of. rewrite Hc, Hg, precisions_snoc, foldl_app.
  rewrite first_relevant_snoc by lia. unfold relevant_id.
  destruct (is_relevant (grade_of judgments id)); cbn [found precision_sum reciprocal dcg andb foldl];
    rewrite ?Z.add_0_r; by destruct (_ <? limit).
Qed.
End judged.
End evaluate.

(** ** Properties *)

Lemma take_min {A} k (l : list A) : 0 <= k -> take (Z.to_nat (Z.min k (zlen l))) l = take (Z.to_nat k) l.
Proof.
  intros Hk. unfold zlen. destruct (Z.le_gt_cases k (Z.of_nat (length l))).
  - by rewrite Z.min_l.
  - rewrite Z.min_r by lia. rewrite Nat2Z.id, firstn_all, take_ge by lia. done.
Qed.

(** How many documents are judged relevant. *)
Definition relevant_count (judgments : RelevanceJudgments) : Z :=
  count_if (fun item : string * Z => is_relevant item.2) (map_items judgments).

(** The grades of the judgments, the best first. *)
Definition ideal_grades (judgments : RelevanceJudgments) : list Z := sort_by greater (map_items judgments).*2.

(** The discounted gain of the first [k], over that of the [k] best grades. *)
Definition textbook_ndcg (exp2 log2 : double -> double) (ranked : list DocumentId) (judgments : RelevanceJudgments)
    (k : Z) : double :=
  let ideal := dcg_of exp2 log2 (take (Z.to_nat k) (ideal_grades judgments)) in
  if d_eqb ideal d_zero then d_zero
  else d_div (dcg_of exp2 log2 (grade_of judgments <$> take (Z.to_nat k) ranked)) ideal.

(** The figures by their formulas. *)
Definition textbook (exp2 log2 : double -> double) (ranked : list DocumentId) (judgments : RelevanceJudgments) (k : Z)
    : RankingMetrics :=
  let ratio n d := if d =? 0 then d_zero else d_div n (d_of_Z d) in
  let found := d_of_Z (count_if (relevant_id judgments) (take (Z.to_nat k) ranked)) in
  {| precision_at_k := ratio found k;
     recall_at_k := ratio found (relevant_count judgments);
     average_precision := ratio (foldl d_add d_zero (precisions judgments ranked)) (relevant_count judgments);
     reciprocal_rank := first_relevant judgments ranked;
     ndcg_at_k := textbook_ndcg exp2 log2 ranked judgments k |}.

Definition with_ndcg (metrics : RankingMetrics) (ndcg : double) : RankingMetrics :=
  {| precision_at_k := precision_at_k metrics; recall_at_k := recall_at_k metrics;
     average_precision := average_precision metrics; reciprocal_rank := reciprocal_rank metrics; ndcg_at_k := ndcg |}.

(** The nDCG is the one with the cut where the ranking ends. *)
Lemma evaluate_textbook exp2 log2 ranked judgments k : 0 <= k -> zlen ranked <= u64_max ->
  evaluate exp2 log2 ranked judgments k =
  with_ndcg (textbook exp2 log2 ranked judgments k) (textbook_ndcg exp2 log2 ranked judgments (Z.min k (zlen ranked))).
Proof.
  intros Hk Hl. pose proof (zlen_nonneg ranked) as Hn. unfold evaluate.
  rewrite rank_loop_sums by lia. fold (relevant_count judgments) (ideal_grades judgments). rewrite ideal_loop_app.
  unfold with_ndcg, textbook, textbook_ndcg, sums_of, dcg_of. cbn [precision_sum reciprocal dcg precision_at_k recall_at_k average_precision reciprocal_rank].
  rewrite (take_min (Z.min k (zlen ranked))) by lia. by rewrite (take_min k ranked).
Qed.

(** A cut after the end of the ranking is harmless when the ranking is as long
    as the judgments. *)
Lemma textbook_ndcg_cut exp2 log2 ranked judgments k : 0 <= k ->
  k <= zlen ranked \/ zlen (ideal_grades judgments) <= zlen ranked ->
  textbook_ndcg exp2 log2 ranked judgments (Z.min k (zlen ranked)) = textbook_ndcg exp2 log2 ranked judgments k.
Proof.
  intros Hk Hl. unfold textbook_ndcg. rewrite take_min by done. destruct (Z.le_gt_cases k (zlen ranked)); [by rewrite Z.min_l by lia|].
  assert (E : take (Z.to_nat (Z.min k (zlen ranked))) (ideal_grades judgments) = take (Z.to_nat k) (ideal_grades judgments))
    by (rewrite !take_ge by (unfold zlen in *; lia); done).
  by rewrite E.
Qed.

Lemma with_ndcg_id metrics : with_ndcg metrics (ndcg_at_k metrics) = metrics.
Proof. by destruct metrics. Qed.

Lemma zlen_ideal judgments : zlen (ideal_grades judgments) = Z.of_nat (size judgments).
Proof.
  unfold ideal_grades, zlen. by rewrite sort_by_perm, length_fmap, length_map_items.
Qed.

(** *** A number over itself *)

Lemma d_div_self (s : bool) m e : d_div (S754_finite s m e) (S754_finite s m e) = d_one.
Proof.
  unfold d_div, SFdiv. rewrite xorb_nilpotent. unfold SFdiv_core_binary.
  set (d := Zdigits2 (Z.pos m)). replace (d + e - (d + e)) with 0 by lia. rewrite Z.sub_diag.
  change (Z.min (fexp d_prec d_emax 0) 0) with (-53). change (0 - -53) with 53. cbn iota.
  rewrite Z.shiftl_mul_pow2 by lia.
  pose proof (Z.div_eucl_eq (Z.pos m * 2 ^ 53) (Z.pos m) ltac:(lia)) as Heq.
  pose proof (Z.mod_pos_bound (Z.pos m * 2 ^ 53) (Z.pos m) ltac:(lia)) as Hr. unfold Z.modulo in Hr.
  destruct (Z.div_eucl (Z.pos m * 2 ^ 53) (Z.pos m)) as [q r].
  assert (2 ^ 53 = q /\ 0 = r) as [<- <-] by (apply (Z.div_mod_unique (Z.pos m)); lia). unfold new_location.
  by destruct (Z.even (Z.pos m)); vm_compute.
Qed.

(** Not zero, infinite or NaN. *)
Definition proper (x : double) : Prop := exists s m e, x = S754_finite s m e.

Lemma proper_over x : proper x -> d_div x x = d_one.
Proof. intros (s & m & e & ->). apply d_div_self. Qed.

Lemma proper_count n : 0 < n <= u64_max -> proper (d_of_Z n).
Proof. intros (p & e & -> & _)%d_of_Z_pos. by exists false, p, e. Qed.

Lemma count_if_fmap {A B} (f : A -> B) (test : B -> bool) l : count_if test (f <$> l) = count_if (fun x => test (f x)) l.
Proof.
  unfold count_if, zlen. f_equal. induction l as [|x l IH]; [done|].
  rewrite fmap_cons, !filter_cons. case_decide; [cbn [length]; by f_equal|done].
Qed.

Lemma count_if_perm {A} (test : A -> bool) l l' : l ≡ₚ l' -> count_if test l = count_if test l'.
Proof. intros H. unfold count_if, zlen. by rewrite H. Qed.

Lemma relevant_ideal judgments : count_if is_relevant (ideal_grades judgments) = relevant_count judgments.
Proof. unfold ideal_grades. rewrite (count_if_perm _ _ _ (sort_by_perm greater _)). by rewrite count_if_fmap. Qed.

Lemma ideal_sorted judgments : StronglySorted (not_after greater) (ideal_grades judgments).
Proof.
  apply (sort_by_sorted greater (fun _ => True)); [..|by apply Forall_true]; unfold not_after, greater; intros *; intros.
  - apply Z.ltb_lt in H1. apply Z.ltb_ge. lia.
  - rewrite Z.ltb_ge in *. lia.
Qed.

(** When some document is relevant, the best grade is that of one. *)
Lemma best_relevant judgments g grades : g :: grades = ideal_grades judgments -> 0 < relevant_count judgments ->
  Forall (fun g => 0 <= g) (map_items judgments).*2 -> is_relevant g = true.
Proof.
  intros E Hrel Hpos. pose proof (ideal_sorted judgments) as Hs. rewrite <- E in Hs. apply StronglySorted_inv in Hs as [_ Hs].
  assert (Hp : Forall (fun g => 0 <= g) (g :: grades)) by (rewrite E; unfold ideal_grades; by rewrite sort_by_perm).
  rewrite <- relevant_ideal, <- E in Hrel. unfold count_if in Hrel.
  destruct (filter (fun x => is_relevant x = true) (g :: grades)) as [|x l] eqn:Ef; [done|].
  assert (Hx : x ∈ filter (fun x => is_relevant x = true) (g :: grades)) by (rewrite Ef; by left).
  apply list_elem_of_filter in Hx as [Hr Hx]. rewrite Forall_forall in Hp, Hs. pose proof (Hp x Hx) as H0.
  apply elem_of_cons in Hx as [->|Hx]; [done|]. apply Hs in Hx. unfold not_after, greater in Hx.
  apply Z.ltb_ge in Hx. unfold is_relevant in *. destruct (Z.eqb_spec x 0); [done|].
  destruct (Z.eqb_spec g 0); [lia|done].
Qed.

(** A ranking with the grades of the judgments, the best first, gets the best
    figures, whatever the cut: its discounted gain is the ideal one, the
    first document is a relevant one, and all are found by the end. *)
Theorem ideal_ranking exp2 log2 ranked judgments k :
  0 <= k -> zlen ranked <= u64_max -> grade_of judgments <$> ranked = ideal_grades judgments ->
  0 < relevant_count judgments ->
  Forall (fun g => 0 <= g) (map_items judgments).*2 ->
  let metrics := evaluate exp2 log2 ranked judgments k in
  (proper (dcg_of exp2 log2 (take (Z.to_nat k) (ideal_grades judgments))) -> ndcg_at_k metrics = d_one) /\
  reciprocal_rank metrics = d_one /\
  (zlen ranked <= k -> recall_at_k metrics = d_one).
Proof.
  intros Hk Hl Hgrades Hrel Hpos metrics. unfold metrics. rewrite evaluate_textbook by done.
  cbn [with_ndcg textbook ndcg_at_k reciprocal_rank recall_at_k]. split_and!.
  - intros Hp. rewrite textbook_ndcg_cut by (rewrite <- ?Hgrades; unfold zlen; rewrite ?length_fmap; lia).
    unfold textbook_ndcg. rewrite <- Hgrades, <- !fmap_take in *.
    pose proof (proper_over _ Hp) as Hone. destruct Hp as (s & m & e & Hp). rewrite Hp in *. by destruct s.
  - unfold first_relevant. destruct ranked as [|id ranked].
    { rewrite <- (relevant_ideal judgments), <- Hgrades in Hrel. done. }
    cbn [list_find]. rewrite decide_True; [by vm_compute|]. cbn [fmap list_fmap] in Hgrades.
    unfold relevant_id. by apply (best_relevant judgments _ (grade_of judgments <$> ranked)).
  - intros Hkl. rewrite (take_ge ranked) by (unfold zlen in Hkl; lia). rewrite (proj2 (Z.eqb_neq _ _)) by lia.
    assert (E : count_if (relevant_id judgments) ranked = relevant_count judgments).
    { rewrite <- relevant_ideal, <- Hgrades. by rewrite count_if_fmap. }
    rewrite E. apply proper_over, proper_count. split; [done|]. rewrite <- E. unfold count_if.
    etrans; [|exact Hl]. unfold zlen. pose proof (length_filter (fun x => relevant_id judgments x = true) ranked). lia.
Qed.

(** The ideal gain is cut where the ranking ends, not at [k]: with a cut of ten
    and one document found out of two relevant ones, the nDCG is perfect, which
    by the formula it is not as long as the second gain counts. *)
Theorem short_ranking_ndcg exp2 log2 : proper (dcg_of exp2 log2 [1]) ->
  let judgments := {["a" := 1; "b" := 1]} in
  let metrics := evaluate exp2 log2 ["a"] judgments 10 in
  ndcg_at_k metrics = d_one /\ recall_at_k metrics = d_half /\
  (proper (dcg_of exp2 log2 [1; 1]) ->
   ndcg_at_k (textbook exp2 log2 ["a"] judgments 10) = d_div (dcg_of exp2 log2 [1]) (dcg_of exp2 log2 [1; 1])).
Proof.
  intros Hp judgments metrics. unfold metrics. rewrite evaluate_textbook by (vm_compute; discriminate).
  cbn [with_ndcg textbook ndcg_at_k recall_at_k].
  assert (Er : forall k, 1 <= k -> grade_of judgments <$> take (Z.to_nat k) ["a"%string] = [1]).
  { intros k Hk. rewrite take_ge by (cbn; lia). vm_compute. reflexivity. }
  assert (Ei : ideal_grades judgments = [1; 1]) by (vm_compute; reflexivity).
  unfold textbook_ndcg. rewrite Ei, !Er by (done || (vm_compute; discriminate)). split_and!.
  - change (take _ [1; 1]) with [1]. pose proof (proper_over _ Hp) as Hone. destruct Hp as (s & m & e & Hp).
    rewrite Hp in *. by destruct s.
  - vm_compute. reflexivity.
  - change (take _ [1; 1]) with [1; 1]. intros (s & m & e & ->). by destruct s.
Qed.

Lemma short_ranking_ndcg_witness :
  let judgments := {["a" := 1; "b" := 1]} in
  let exp2 x := d_add x d_one in
  ndcg_at_k (evaluate exp2 (fun x => x) ["a"] judgments 10) = d_one /\
  d_ltb (ndcg_at_k (textbook exp2 (fun x => x) ["a"] judgments 10)) d_one = true.
Proof.
  intros judgments exp2. split; [|vm_compute; reflexivity].
  refine (proj1 (short_ranking_ndcg exp2 (fun x => x) _)). vm_compute. by eexists _, _, _.
Defined.

(** C39. [evaluate] against the formulas: its precision is the relevant part of the first
    [k] documents over [k], its recall the same over all relevant ones, its
    average precision the mean, over all relevant documents, of the precision
    at each relevant position of the whole ranking, its reciprocal rank one
    over the first relevant position.  Its nDCG is that of the formula with
    the cut not at [k] but where the ranking ends, if that is before [k]; so
    all five figures are the formulas' when the ranking has [k] documents or
    as many as are judged, and a ranking that ends earlier can get a better
    nDCG than it should ([short_ranking_ndcg]).  A ranking with the grades of
    the judgments, the best first, has the best nDCG and reciprocal rank, and
    all recall by its end. *)
Theorem evaluate_closed_form exp2 log2 ranked judgments k : 0 <= k -> zlen ranked <= u64_max ->
  let metrics := evaluate exp2 log2 ranked judgments k in
  let formulas := textbook exp2 log2 ranked judgments in
  (precision_at_k metrics = precision_at_k (formulas k) /\ recall_at_k metrics = recall_at_k (formulas k) /\
   average_precision metrics = average_precision (formulas k) /\ reciprocal_rank metrics = reciprocal_rank (formulas k) /\
   ndcg_at_k metrics = ndcg_at_k (formulas (Z.min k (zlen ranked)))) /\
  (k <= zlen ranked \/ Z.of_nat (size judgments) <= zlen ranked -> metrics = formulas k) /\
  (grade_of judgments <$> ranked = ideal_grades judgments -> 0 < relevant_count judgments ->
   Forall (fun g => 0 <= g) (map_items judgments).*2 ->
   (proper (dcg_of exp2 log2 (take (Z.to_nat k) (ideal_grades judgments))) -> ndcg_at_k metrics = d_one) /\
   reciprocal_rank metrics = d_one /\ (zlen ranked <= k -> recall_at_k metrics = d_one)).
Proof.
  intros Hk Hl metrics formulas. split; [|split].
  - unfold metrics. by rewrite evaluate_textbook.
  - intros Hcut. unfold metrics. rewrite evaluate_textbook, textbook_ndcg_cut by (rewrite ?zlen_ideal; done). apply with_ndcg_id.
  - intros Hg Hr Hp. by apply ideal_ranking.
Qed.

Lemma evaluate_closed_form_witness :
  let exp2 x := d_add x d_one in
  let judgments := {["b" := 2; "c" := 1; "d" := 1]} in
  let metrics := evaluate exp2 (fun x => x) ["b"; "c"; "d"] judgments 10 in
  metrics = textbook exp2 (fun x => x) ["b"; "c"; "d"] judgments 10 /\ recall_at_k metrics = d_one.
Proof.
  intros exp2 judgments metrics.
  destruct (evaluate_closed_form exp2 (fun x => x) ["b"; "c"; "d"] judgments 10
    ltac:(done) ltac:(vm_compute; discriminate)) as (_ & H1 & H2).
  split; [apply H1; right; vm_compute; discriminate|].
  apply H2; [vm_compute; reflexivity|vm_compute; reflexivity| |vm_compute; discriminate].
  apply (bool_decide_unpack _). vm_compute. exact I.
Defined.
