(* ===== verification/IndexCli.v ===== *)
(** * The index command line

    apps/index_cli/main.cpp: arguments, the JSON output, and the two ways to
    get an index, from a document file or from a segment.  A run ends with an
    exit code and what it has printed; it prints only right before it ends.
    A path names a file of the directory of Store.v. *)

From S2P Require Import Prelude Bytes Text Doubles Numbers Types DocumentFile Schema Segment Store SegmentStore Query Lexer Parser Ranking Planner Executor Index.
From Stdlib Require Import Ascii String.

(** How a run ends: [return exit_code], with the two streams. *)
Record Exit := { exit_code : Z; standard_output : string; standard_error : string }.

Definition answers (output : string) : Exit := {| exit_code := 0; standard_output := output; standard_error := "" |}.
Definition fails (code : Z) (message : string) : Exit :=
  {| exit_code := code; standard_output := ""; standard_error := message |}.

Definition line_end : string := String "010" "".
Definition quote : string := String "034" "".
Definition quoted (s : string) : string := quote +:+ s +:+ quote.

(** ** Arguments *)

Record Arguments := {
  documents : option string;
  segment : option string;
  write_segment : option string;
  query : string;
  has_query : bool;
  top_k : Z
}.

Definition no_arguments : Arguments :=
  {| documents := None; segment := None; write_segment := None; query := ""; has_query := false; top_k := 10 |}.

Definition set_documents (value : string) (a : Arguments) : Arguments :=
  {| documents := Some value; segment := segment a; write_segment := write_segment a; query := query a;
     has_query := has_query a; top_k := top_k a |}.
Definition set_segment (value : string) (a : Arguments) : Arguments :=
  {| documents := documents a; segment := Some value; write_segment := write_segment a; query := query a;
     has_query := has_query a; top_k := top_k a |}.
Definition set_write_segment (value : string) (a : Arguments) : Arguments :=
  {| documents := documents a; segment := segment a; write_segment := Some value; query := query a;
     has_query := has_query a; top_k := top_k a |}.
Definition set_query (value : string) (a : Arguments) : Arguments :=
  {| documents := documents a; segment := segment a; write_segment := write_segment a; query := value;
     has_query := true; top_k := top_k a |}.
Definition set_top_k (value : Z) (a : Arguments) : Arguments :=
  {| documents := documents a; segment := segment a; write_segment := write_segment a; query := query a;
     has_query := has_query a; top_k := value |}.

Definition usage : string :=
  "Usage:" +:+ line_end +:+
  "  dse_index_cli --documents PATH [--write-segment PATH] [--query QUERY] [--top-k K]" +:+ line_end +:+
  "  dse_index_cli --segment PATH --query QUERY [--top-k K]" +:+ line_end.

(** [std::nullopt] comes with what was printed, on either stream. *)
Record Refusal := { refused_output : string; refused_error : string }.

Definition refuse (message : string) : Refusal := {| refused_output := ""; refused_error := message |}.

(** One option with its value. *)
Definition set_option (option value : string) (a : Arguments) : expected Refusal Arguments :=
  if str_eqb option "--documents" then Ok (set_documents value a)
  else if str_eqb option "--segment" then Ok (set_segment value a)
  else if str_eqb option "--write-segment" then Ok (set_write_segment value a)
  else if str_eqb option "--query" then Ok (set_query value a)
  else if str_eqb option "--top-k" then
    match parse_u64 value with
    | Some k => if k =? 0 then Err (refuse ("--top-k must be a positive integer" +:+ line_end)) else Ok (set_top_k k a)
    | None => Err (refuse ("--top-k must be a positive integer" +:+ line_end))
    end
  else Err (refuse ("unknown option: " +:+ option +:+ line_end +:+ usage)).

(** The checks after the loop. *)
Definition complete (a : Arguments) : bool :=
  negb (Bool.eqb (bool_decide (is_Some (documents a))) (bool_decide (is_Some (segment a))) ||
        (bool_decide (is_Some (segment a)) && bool_decide (is_Some (write_segment a))) ||
        (negb (has_query a) && negb (bool_decide (is_Some (write_segment a))))).

(** The loop over [argv], from its second element on. *)
Fixpoint parse_options (a : Arguments) (argv : list string) : expected Refusal Arguments :=
  match argv with
  | [] => if complete a then Ok a else Err (refuse usage)
  | option :: rest =>
      if str_eqb option "--help" then Err {| refused_output := usage; refused_error := "" |}
      else
        match rest with
        | [] => Err (refuse ("missing value for " +:+ option +:+ line_end +:+ usage))
        | value :: rest' => a' ← set_option option value a; parse_options a' rest'
        end
  end.

Definition parse_arguments (argv : list string) : expected Refusal Arguments := parse_options no_arguments (drop 1 argv).

(** ** Output *)

Definition hex_digit (n : Z) : ascii := default "0"%char (String.get (Z.to_nat n) "0123456789abcdef").

Definition escape_byte (c : ascii) : string :=
  let byte := code c in
  if byte =? 34 then "\" +:+ quote
  else if byte =? 92 then "\\"
  else if byte =? 8 then "\b"
  else if byte =? 12 then "\f"
  else if byte =? 10 then "\n"
  else if byte =? 13 then "\r"
  else if byte =? 9 then "\t"
  else if byte <? 32 then
    "\u00" +:+ String (hex_digit (Z.shiftr byte 4)) (String (hex_digit (Z.land byte 15)) "")
  else String c "".

Fixpoint json_escape (value : string) : string :=
  match value with EmptyString => "" | String c rest => escape_byte c +:+ json_escape rest end.

(** The items of a loop that prints a comma before all but the first. *)
Fixpoint comma_separated (items : list string) : string :=
  match items with
  | [] => ""
  | [item] => item
  | item :: rest => item +:+ "," +:+ comma_separated rest
  end.

Definition field_text (item : string * string) : string :=
  quoted (json_escape item.1) +:+ ":" +:+ quoted (json_escape item.2).

(** [std::setprecision(17)] *)
Definition hit_text (index : SearchIndexView) (hit : SearchHit) : string :=
  "{" +:+ quoted "document_id" +:+ ":" +:+ quoted (json_escape (hit_document_id hit)) +:+
  "," +:+ quoted "score" +:+ ":" +:+ print_double (hit_score hit) +:+
  "," +:+ quoted "fields" +:+ ":{" +:+
  match view_document index (hit_document_id hit) with
  | Some record => comma_separated (field_text <$> map_items (doc_fields (document record)))
  | None => ""
  end +:+ "}}".

Definition search_text (index : SearchIndexView) (result : SearchResult) : string :=
  "{" +:+ quoted "indexed_documents" +:+ ":" +:+ to_string_u (view_live_document_count index) +:+
  "," +:+ quoted "total_hits" +:+ ":" +:+ to_string_u (total_hits result) +:+
  "," +:+ quoted "hits" +:+ ":[" +:+ comma_separated (hit_text index <$> hits result) +:+ "]}" +:+ line_end.

Definition count_text (index : SearchIndexView) : string :=
  "{" +:+ quoted "indexed_documents" +:+ ":" +:+ to_string_u (view_live_document_count index) +:+ "}" +:+ line_end.

(** ** Runs *)

Definition default_write_options : SegmentWriteOptions := {| write_segment_id := 1; compressed_postings := false |}.

Definition default_index : InMemoryIndex := InMemoryIndex.make IndexSchema.default_schema u32_max.

(** [std::ifstream] and all that can be read from it. *)
Definition read_file {E} (name : string) : IO E (option string) := fun w =>
  match call_read tt (fun d => bytes_string <$> content d name) w with
  | (Ok contents, w') => (Ok (Some contents), w')
  | (Err _, w') => (Ok None, w')
  end.

Definition document_failure (e : DocumentFileError) : Exit :=
  fails 2 ("document error at line " +:+ to_string_u (file_line e) +:+ ", column " +:+ to_string_u (file_column e) +:+
           ": " +:+ file_message e +:+ line_end).

Definition segment_failure (e : SegmentError) : Exit := fails 3 ("segment error: " +:+ segment_message e +:+ line_end).

(** A failure of the parser is always a [parse_error] ([parse_total]). *)
Definition query_failure (failure : Failure) : Exit :=
  match failure with
  | parse_error e =>
      fails 2 ("query error at byte " +:+ to_string_u (parse_position e) +:+ ": " +:+ parse_message e +:+ line_end)
  | _ => fails 2 ""
  end.

Definition put_document (index : InMemoryIndex) (document : Document) : expected Exit InMemoryIndex :=
  map_err (fun _ => fails 2 ("document rejected because its ID is empty or version is stale" +:+ line_end))
    (InMemoryIndex.put index document).

Definition check_invariants (index : InMemoryIndex) : expected Exit unit :=
  map_err (fun reason => fails 3 ("index invariant failed: " +:+ reason +:+ line_end))
    (InMemoryIndex.validate_invariants index).

Section runs.
Context (log1p : double -> double).

Definition search_options (a : Arguments) : SearchOptions :=
  {| Executor.top_k := top_k a;
     search_default_fields := [{| search_name := "title"; search_boost := d_one |};
                               {| search_name := "body"; search_boost := d_one |};
                               {| search_name := "tags"; search_boost := d_one |}];
     planner_limits := default_planner_limits |}.

Definition run_search (index : SearchIndexView) (a : Arguments) : Exit :=
  if negb (has_query a) then answers (count_text index)
  else
    match parse (query a) default_limits with
    | Err failure => query_failure failure
    | Ok parsed =>
        match search log1p (make_executor index default_parameters) parsed (search_options a) with
        | Err e => fails 3 ("execution error: " +:+ execution_message e +:+ line_end)
        | Ok result => answers (search_text index result)
        end
    end.

(** [parse_arguments] returns with exactly one of [documents] and [segment]. *)
Definition run (a : Arguments) : IO Exit Exit :=
  match segment a with
  | Some path =>
      reader ← io_map_err segment_failure (open_segment path default_read_limits);
      mret (run_search (SegmentReader.view reader) a)
  | None =>
      let path := default "" (documents a) in
      contents ← read_file path;
      table ← io_lift (map_err document_failure (read_documents_at path contents));
      index ← io_lift (fold_each put_document default_index table);
      _ ← io_lift (check_invariants index);
      _ ← match write_segment a with
          | Some name => io_map_err segment_failure
                           (SegmentStore.write_segment name (InMemoryIndex.snapshot index) default_write_options)
          | None => mret tt
          end;
      mret (run_search (InMemoryIndex.view index) a)
  end.

Definition main (argv : list string) : World -> Exit * World := fun w =>
  match parse_arguments argv with
  | Err refusal =>
      ({| exit_code := match argv with [_; option] => if str_eqb option "--help" then 0 else 2 | _ => 2 end;
          standard_output := refused_output refusal; standard_error := refused_error refusal |}, w)
  | Ok a => match run a w with (Ok e, w') | (Err e, w') => (e, w') end
  end.
End runs.
