(* ===== verification/Json.v ===== *)
(** * Reading JSON

    A reader of compact JSON texts (RFC 8259 without white space, booleans and
    null; escapes of characters below 256 only), against which the output of
    the command line is stated.  Numbers are kept as their texts. *)

From S2P Require Import Prelude Text Doubles Numbers.
From Stdlib Require Import Ascii String SpecFloat.

Inductive Json :=
| JString (s : string)
| JNumber (token : string)
| JArray (items : list Json)
| JObject (members : list (string * Json)).

(** ** Numbers *)

(** A digit, or one of the signs, points and exponent marks. *)
Definition number_char (c : ascii) : bool :=
  is_digit c || Ascii.eqb c "-" || Ascii.eqb c "+" || Ascii.eqb c "." || Ascii.eqb c "e" || Ascii.eqb c "E".

Definition is_empty (s : string) : bool := match s with "" => true | _ => false end.

(** [0], or digits that do not begin with one. *)
Definition json_integer (digits : string) : bool :=
  match digits with
  | "" => false
  | String c rest => negb (Ascii.eqb c "0") || is_empty rest
  end.

Definition json_digits (s : string) : bool := negb (is_empty s) && str_forallb is_digit s.

(** What may follow the integer and the fraction. *)
Definition json_exponent (s : string) : bool :=
  match s with
  | "" => true
  | String c rest =>
      (Ascii.eqb c "e" || Ascii.eqb c "E") &&
      match rest with
      | String sign digits => if Ascii.eqb sign "+" || Ascii.eqb sign "-" then json_digits digits else json_digits rest
      | "" => false
      end
  end.

Definition json_fraction (s : string) : bool :=
  match s with
  | String "." rest => let '(digits, exponent) := span is_digit rest in json_digits digits && json_exponent exponent
  | _ => json_exponent s
  end.

Definition json_magnitude (s : string) : bool :=
  let '(digits, rest) := span is_digit s in json_integer digits && json_fraction rest.

Definition json_number (token : string) : bool :=
  match token with String "-" rest => json_magnitude rest | _ => json_magnitude token end.

(** ** Strings *)

Definition double_quote : ascii := "034".

Definition hex_value (c : ascii) : option Z :=
  if is_digit c then Some (digit_value c)
  else if (97 <=? code c) && (code c <=? 102) then Some (code c - 87)
  else if (65 <=? code c) && (code c <=? 70) then Some (code c - 55)
  else None.

(** The character after a backslash, unless it is [u]. *)
Definition simple_escape (c : ascii) : option ascii :=
  if Ascii.eqb c double_quote then Some double_quote
  else if Ascii.eqb c "\" then Some "\"%char
  else if Ascii.eqb c "/" then Some "/"%char
  else if Ascii.eqb c "b" then Some "008"%char
  else if Ascii.eqb c "f" then Some "012"%char
  else if Ascii.eqb c "n" then Some "010"%char
  else if Ascii.eqb c "r" then Some "013"%char
  else if Ascii.eqb c "t" then Some "009"%char
  else None.

(** After the opening quote: the string, and what follows the closing quote. *)
Fixpoint read_string (s : string) : option (string * string) :=
  match s with
  | "" => None
  | String c rest =>
      if Ascii.eqb c double_quote then Some ("", rest)
      else if Ascii.eqb c "\" then
        match rest with
        | String "u" (String "0" (String "0" (String high (String low rest')))) =>
            h ← hex_value high; l ← hex_value low;
            '(value, after) ← read_string rest'; Some (String (chr (16 * h + l)) value, after)
        | String e rest' =>
            character ← simple_escape e; '(value, after) ← read_string rest'; Some (String character value, after)
        | "" => None
        end
      else if code c <? 32 then None
      else '(value, after) ← read_string rest; Some (String c value, after)
  end.

(** ** Values *)

Definition expect (c : ascii) (s : string) : option string :=
  match s with String d rest => if Ascii.eqb c d then Some rest else None | "" => None end.

Section containers.
Context {A : Type} (item : string -> option (A * string)) (close : ascii).

(** After the first item: more of them, up to the closing bracket. *)
Fixpoint more_items (fuel : nat) (s : string) : option (list A * string) :=
  match fuel with
  | O => None
  | S fuel' =>
      match expect close s with
      | Some rest => Some ([], rest)
      | None =>
          after ← expect "," s; '(a, rest) ← item after; '(l, rest') ← more_items fuel' rest; Some (a :: l, rest')
      end
  end.

(** After the opening bracket. *)
Definition read_items (fuel : nat) (s : string) : option (list A * string) :=
  match expect close s with
  | Some rest => Some ([], rest)
  | None => '(a, rest) ← item s; '(l, rest') ← more_items fuel rest; Some (a :: l, rest')
  end.
End containers.

Definition read_member (value : string -> option (Json * string)) (s : string) : option ((string * Json) * string) :=
  after ← expect double_quote s; '(name, rest) ← read_string after;
  rest' ← expect ":" rest; '(v, rest'') ← value rest'; Some ((name, v), rest'').

(** Every call consumes a character before the next, so the length of the text
    and one more is fuel enough. *)
Fixpoint read_value (fuel : nat) (s : string) : option (Json * string) :=
  match fuel with
  | O => None
  | S fuel' =>
      match s with
      | "" => None
      | String c rest =>
          if Ascii.eqb c double_quote then '(value, after) ← read_string rest; Some (JString value, after)
          else if Ascii.eqb c "[" then '(l, after) ← read_items (read_value fuel') "]" fuel' rest; Some (JArray l, after)
          else if Ascii.eqb c "{" then
            '(l, after) ← read_items (read_member (read_value fuel')) "}" fuel' rest; Some (JObject l, after)
          else let '(token, after) := span number_char s in if json_number token then Some (JNumber token, after) else None
      end
  end.

(** One value and a line end. *)
Definition read_json (s : string) : option Json :=
  match read_value (S (String.length s)) s with
  | Some (value, after) => if str_eqb after (String "010" "") then Some value else None
  | None => None
  end.
