(* ===== verification/IndexCliSpec.v ===== *)
(** * What the index command line prints

    The output of a search is a JSON text that reads back as its result:
    escaped strings, printed numbers, and values as a whole. *)

From S2P Require Import Prelude Bytes Text Doubles Numbers PlanSpec Types DocumentFile Schema Segment Store StoreSpec SegmentStore Query Lexer Parser Ranking Planner Executor Index IndexCli Json.
From Stdlib Require Import Ascii String SpecFloat.

(** ** Strings *)

Lemma escape_byte_read c rest : read_string (escape_byte c +:+ rest) =
  ('(value, after) ← read_string rest; Some (String c value, after)).
Proof.
  destruct c as [b0 b1 b2 b3 b4 b5 b6 b7].
  by destruct b7, b6, b5, b4, b3, b2, b1, b0.
Qed.

Lemma json_escape_read s rest : read_string (json_escape s +:+ String double_quote rest) = Some (s, rest).
Proof.
  induction s as [|c s IH]; [done|]. cbn [json_escape]. by rewrite str_app_assoc, escape_byte_read, IH.
Qed.

(** ** Numbers *)

Lemma decimal_loop_head fuel : forall n acc, 0 < n < 2 ^ Z.of_nat fuel -> exists c s,
  decimal_loop fuel n acc = String c s /\ Ascii.eqb c "0" = false.
Proof.
  induction fuel as [|fuel IH]; intros n acc Hn; [cbn in Hn; lia|]. cbn [decimal_loop].
  pose proof (Z.div_mod n 10 ltac:(lia)) as Hdm. pose proof (Z.mod_pos_bound n 10 ltac:(lia)) as Hm.
  destruct (Z.eqb_spec (n / 10) 0) as [E|E].
  - eexists _, _. split; [done|]. rewrite E in Hdm. destruct (digit_char_digit (n mod 10) Hm) as [_ Hv].
    destruct (Ascii.eqb_spec (digit_char (n mod 10)) "0"); [|done]. exfalso. rewrite e in Hv. change (digit_value "0") with 0 in Hv. lia.
  - apply IH. assert (0 < n / 10) by (pose proof (Z.div_pos n 10); lia). split; [done|].
    rewrite Nat2Z.inj_succ, Z.pow_succ_r in Hn by lia. apply Z.div_lt_upper_bound; lia.
Qed.

Lemma to_string_u_integer n : 0 <= n -> json_integer (to_string_u n) = true.
Proof.
  intros Hn. destruct (Z.eq_dec n 0) as [->|]; [done|]. unfold to_string_u.
  destruct (decimal_loop_head (S (Z.to_nat (Z.log2 n))) n "") as (c & s & -> & Hc); [|cbn; by rewrite Hc].
  rewrite Nat2Z.inj_succ, Z2Nat.id by apply Z.log2_nonneg. split; [lia|]. apply Z.log2_spec. lia.
Qed.

Lemma json_integer_take n s : json_integer s = true -> json_integer (str_take (S n) s) = true.
Proof.
  destruct s as [|c s]; [done|]. cbn. destruct (Ascii.eqb c "0"); [|done]. cbn. destruct s; [|done]. by destruct n.
Qed.

Lemma json_magnitude_parts digits rest : str_forallb is_digit digits = true -> json_integer digits = true ->
  json_fraction rest = true -> stops is_digit rest -> json_magnitude (digits +:+ rest) = true.
Proof. intros Hd Hi Hf Hs. unfold json_magnitude. rewrite span_exact by (try done; by destruct rest). by rewrite Hi, Hf. Qed.

Lemma fraction_parts digits rest : str_forallb is_digit digits = true -> json_exponent rest = true ->
  stops is_digit rest -> stops (Ascii.eqb ".") rest ->
  json_fraction (with_fraction "" digits +:+ rest) = true.
Proof.
  intros Hd He Hs Hp. destruct digits as [|c digits].
  - cbn [with_fraction append]. destruct rest as [|c rest]; [done|].
    destruct c as [[] [] [] [] [] [] [] []]; try exact He. by vm_compute in Hp.
  - assert (E : span is_digit (String c digits +:+ rest) = (String c digits, rest))
      by (apply span_exact; [done|by destruct rest]).
    cbn [with_fraction append json_fraction] in *. rewrite E. unfold json_digits. by rewrite Hd, He.
Qed.

Lemma with_fraction_split a b rest : with_fraction a b +:+ rest = a +:+ (with_fraction "" b +:+ rest).
Proof. destruct b; cbn [with_fraction append]; [done|]. by rewrite !str_app_assoc. Qed.

(** The exponent that [format_magnitude] writes. *)
Lemma exponent_written x : json_exponent ((if x <? 0 then "e-" else "e+") +:+
  (if Z.abs x <? 10 then "0" +:+ to_string_u (Z.abs x) else to_string_u (Z.abs x))) = true.
Proof.
  destruct (to_string_u_spec (Z.abs x) (Z.abs_nonneg x)) as (Hd & Hne & _).
  assert (H : json_digits (if Z.abs x <? 10 then "0" +:+ to_string_u (Z.abs x) else to_string_u (Z.abs x)) = true).
  { unfold json_digits. destruct (_ <? 10); [by rewrite str_forallb_app, Hd|]. rewrite Hd, andb_true_r. by destruct (to_string_u _). }
  by destruct (x <? 0).
Qed.

Lemma format_magnitude_number p digits x : 0 <= digits -> json_magnitude (format_magnitude p digits x) = true.
Proof.
  intros Hd. pose proof (to_string_u_integer digits Hd) as Hi. destruct (to_string_u_spec digits Hd) as (Hds & Hne & _).
  assert (Hfixed : forall n, json_magnitude (with_fraction (str_take (S n) (to_string_u digits))
    (trim_zeros (str_drop (S n) (to_string_u digits)))) = true).
  { intros n. rewrite <- (str_app_nil_r (with_fraction _ _)), with_fraction_split. apply json_magnitude_parts.
    - by apply str_take_forallb.
    - by apply json_integer_take.
    - apply fraction_parts; try done. by apply trim_zeros_forallb, str_drop_forallb.
    - by destruct (trim_zeros _). }
  unfold format_magnitude. destruct (_ || _).
  - rewrite with_fraction_split. apply json_magnitude_parts.
    + by apply str_take_forallb.
    + by apply json_integer_take.
    + apply fraction_parts; [by apply trim_zeros_forallb, str_drop_forallb|apply exponent_written|by destruct (x <? 0)..].
    + destruct (trim_zeros _); [by destruct (x <? 0)|done].
  - destruct (Z.leb_spec 0 x).
    + replace (Z.to_nat x + 1)%nat with (S (Z.to_nat x)) by lia. apply Hfixed.
    + rewrite <- (str_app_nil_r (with_fraction _ _)), with_fraction_split. apply json_magnitude_parts; [done..| |].
      * apply fraction_parts; try done. rewrite str_forallb_app, trim_zeros_forallb by done.
        by rewrite andb_true_r; apply digits_fixed_digits.
      * by destruct (zeros _ +:+ _).
Qed.

(** A finite double is written as a number. *)
Lemma print_double_number x : d_finite x = true -> json_number (print_double x) = true.
Proof.
  destruct x as [s|s| |s m e]; [by destruct s|done|done|]. intros _. unfold print_double, print_general.
  destruct (fraction_of m e) as [n d] eqn:Ef. pose proof (fraction_of_pos m e) as Hp. rewrite Ef in Hp.
  pose proof (digits_nonneg 17 n d ltac:(lia) ltac:(lia)) as Hdig. destruct (significant 17 n d) as [digits exponent].
  pose proof (format_magnitude_number 17 digits exponent Hdig) as H. destruct s; [done|]. cbn [append].
  unfold json_number. destruct (format_magnitude 17 digits exponent) as [|[[] [] [] [] [] [] [] []] t]; try exact H.
  by vm_compute in H.
Qed.

(** ** Values *)

Lemma digits_number_chars s : str_forallb is_digit s = true -> str_forallb number_char s = true.
Proof. apply str_forallb_impl. unfold number_char. by intros c ->. Qed.

Lemma json_exponent_chars s : json_exponent s = true -> str_forallb number_char s = true.
Proof.
  destruct s as [|c rest]; [done|]. cbn [json_exponent str_forallb]. intros [Hc H]%andb_prop.
  assert (number_char c = true) as ->.
  { destruct (Ascii.eqb_spec c "e") as [->|]; [done|]. by destruct (Ascii.eqb_spec c "E") as [->|]. }
  assert (Hd : forall t, json_digits t = true -> str_forallb number_char t = true)
    by (intros t [_ Ht]%andb_prop; by apply digits_number_chars).
  destruct rest as [|sign digits]; [done|]. destruct (Ascii.eqb_spec sign "+") as [->|]; [by apply Hd in H|].
  destruct (Ascii.eqb_spec sign "-") as [->|]; [by apply Hd in H|]. by apply Hd.
Qed.

Lemma json_magnitude_chars s : json_magnitude s = true -> str_forallb number_char s = true.
Proof.
  unfold json_magnitude. destruct (span is_digit s) as [digits rest] eqn:E.
  apply span_app in E as (-> & Hd & _). intros [_ Hf]%andb_prop. rewrite str_forallb_app, digits_number_chars by done.
  assert (Hp : json_exponent rest = true \/ exists rest', rest = String "." rest' /\
    (let '(digits, exponent) := span is_digit rest' in json_digits digits && json_exponent exponent) = true).
  { destruct rest as [|c rest']; [by left|]. destruct (ascii_dec c ".") as [->|Hc]; [right; by exists rest'|left].
    revert Hf. unfold json_fraction. by destruct c as [[] [] [] [] [] [] [] []]. }
  destruct Hp as [He|(rest' & -> & H)]; [by apply json_exponent_chars|].
  destruct (span is_digit rest') as [fraction exponent] eqn:E. apply span_app in E as (-> & Hd' & _).
  apply andb_prop in H as [_ He]. cbn [str_forallb andb]. change (number_char ".") with true. cbn [andb].
  by rewrite str_forallb_app, digits_number_chars, json_exponent_chars.
Qed.

Lemma json_number_chars token : json_number token = true -> str_forallb number_char token = true.
Proof.
  destruct token as [|c rest]; [done|]. intros H.
  assert (Hc : json_magnitude (String c rest) = true \/ c = "-"%char /\ json_magnitude rest = true).
  { destruct (ascii_dec c "-") as [->|Hc]; [by right|left]. revert H. unfold json_number.
    by destruct c as [[] [] [] [] [] [] [] []]. }
  destruct Hc as [Hm|[-> Hm]]; [by apply json_magnitude_chars|]. cbn [str_forallb]. by apply json_magnitude_chars in Hm.
Qed.

(** How a value is written without white space. *)
Fixpoint print_json (j : Json) : string :=
  match j with
  | JString s => quoted (json_escape s)
  | JNumber token => token
  | JArray items => "[" +:+ comma_separated (map print_json items) +:+ "]"
  | JObject members =>
      "{" +:+ comma_separated (map (fun m => quoted (json_escape m.1) +:+ ":" +:+ print_json m.2) members) +:+ "}"
  end.

(** Values whose numbers are well-formed. *)
Inductive json_ok : Json -> Prop :=
| ok_string s : json_ok (JString s)
| ok_number token : json_number token = true -> json_ok (JNumber token)
| ok_array items : Forall json_ok items -> json_ok (JArray items)
| ok_object members : Forall (fun m => json_ok m.2) members -> json_ok (JObject members).

Section json_ok_induction.
Context (P : Json -> Prop).
Hypothesis Hstring : forall s, P (JString s).
Hypothesis Hnumber : forall token, json_number token = true -> P (JNumber token).
Hypothesis Harray : forall items, Forall json_ok items -> Forall P items -> P (JArray items).
Hypothesis Hobject : forall members, Forall (fun m : string * Json => json_ok m.2) members ->
  Forall (fun m : string * Json => P m.2) members -> P (JObject members).

Fixpoint json_ok_induction j (H : json_ok j) {struct H} : P j :=
  match H with
  | ok_string s => Hstring s
  | ok_number token Ht => Hnumber token Ht
  | ok_array items Hi => Harray items Hi
      ((fix go l (Hl : Forall json_ok l) : Forall P l :=
          match Hl with
          | List.Forall_nil _ => Forall_nil_2 P
          | List.Forall_cons _ x l' Hx Hl' => Forall_cons_2 P x l' (json_ok_induction x Hx) (go l' Hl')
          end) items Hi)
  | ok_object members Hm => Hobject members Hm
      ((fix go l (Hl : Forall (fun m : string * Json => json_ok m.2) l) : Forall (fun m => P m.2) l :=
          match Hl with
          | List.Forall_nil _ => Forall_nil_2 _
          | List.Forall_cons _ x l' Hx Hl' => Forall_cons_2 _ x l' (json_ok_induction x.2 Hx) (go l' Hl')
          end) members Hm)
  end.
End json_ok_induction.

(** [text] is read as [a] by [item], when no number goes on after it. *)
Definition reads {A} (item : string -> option (A * string)) (text : string) (a : A) : Prop :=
  text <> "" /\ forall rest, stops number_char rest -> item (text +:+ rest) = Some (a, rest).

Lemma expect_head c text rest : text <> "" -> expect c text = None -> expect c (text +:+ rest) = None.
Proof. destruct text as [|d text]; [done|]. cbn. by destruct (Ascii.eqb c d). Qed.

Section items.
Context {A : Type} (item : string -> option (A * string)) (close : ascii).
Hypothesis Hclose : number_char close = false.
Hypothesis Hcomma : Ascii.eqb close "," = false.

(** What follows the first item. *)
Fixpoint more_text (texts : list string) : string :=
  match texts with [] => "" | t :: rest => "," +:+ t +:+ more_text rest end.

Lemma comma_separated_cons t texts : comma_separated (t :: texts) = t +:+ more_text texts.
Proof using Type.
  revert t. induction texts as [|u texts IH]; intros t; [by cbn; rewrite str_app_nil_r|].
  change (t +:+ "," +:+ comma_separated (u :: texts) = t +:+ "," +:+ (u +:+ more_text texts)). by rewrite IH.
Qed.

Lemma more_text_stops texts rest : stops number_char (more_text texts +:+ String close rest).
Proof using Hclose. destruct texts; [done|]. by cbn. Qed.

Lemma more_items_read texts l : Forall2 (reads item) texts l -> forall fuel rest,
  (Datatypes.length texts < fuel)%nat ->
  more_items item close fuel (more_text texts +:+ String close rest) = Some (l, rest).
Proof using Hclose Hcomma.
  induction 1 as [|t a texts l [Hne Ht] _ IH]; intros [|fuel] rest Hf; cbn [Datatypes.length] in Hf; try lia.
  - cbn [more_text append more_items expect]. by rewrite Ascii.eqb_refl.
  - cbn [more_text append more_items expect]. rewrite Hcomma, Ascii.eqb_refl.
    cbn [mbind option_bind].
    rewrite str_app_assoc, Ht by apply more_text_stops. cbn [mbind option_bind].
    by rewrite IH by lia.
Qed.

Lemma read_items_read texts l fuel rest : Forall2 (reads item) texts l ->
  Forall (fun t => expect close t = None) texts -> (Datatypes.length texts <= fuel)%nat ->
  read_items item close fuel (comma_separated texts +:+ String close rest) = Some (l, rest).
Proof using Hclose Hcomma.
  intros H Hx Hf. destruct H as [|t a texts l [Hne Ht] H].
  - cbn [comma_separated append read_items expect]. unfold read_items. cbn [expect]. by rewrite Ascii.eqb_refl.
  - rewrite comma_separated_cons, str_app_assoc. unfold read_items. inversion Hx; subst.
    rewrite expect_head, Ht by (try done; apply more_text_stops). cbn [mbind option_bind].
    rewrite (more_items_read _ _ H) by (cbn in Hf; lia). done.
Qed.
End items.

Lemma length_comma_separated texts t : t ∈ texts -> (String.length t <= String.length (comma_separated texts))%nat.
Proof.
  induction texts as [|u texts IH]; [by intros ?%not_elem_of_nil|]. rewrite comma_separated_cons, length_str_app.
  intros [->|Ht]%elem_of_cons; [lia|]. specialize (IH Ht). destruct texts as [|v texts]; [by apply not_elem_of_nil in Ht|].
  rewrite comma_separated_cons, length_str_app in IH. cbn [more_text append String.length]. rewrite length_str_app.
  lia.
Qed.

Lemma count_comma_separated texts : Forall (fun t => t <> "") texts ->
  (Datatypes.length texts <= String.length (comma_separated texts))%nat.
Proof.
  intros [|t texts' Ht H]; [done|]. rewrite comma_separated_cons, length_str_app.
  assert (Hm : (Datatypes.length texts' <= String.length (more_text texts'))%nat).
  { clear. induction texts' as [|u l IH]; [done|]. cbn. rewrite length_str_app. lia. }
  destruct t; [done|]. cbn. lia.
Qed.

Lemma print_json_ne j : json_ok j -> print_json j <> "" /\ expect "]" (print_json j) = None.
Proof.
  intros [s|token Hn|items _|members _]; [done| |done|done]. cbn [print_json].
  pose proof (json_number_chars token Hn) as Hc.
  destruct token as [|c token]; [done|]. split; [done|]. cbn [expect]. destruct (Ascii.eqb_spec "]" c) as [<-|]; [|done].
  by vm_compute in Hc.
Qed.

Lemma number_token_read fuel token : json_number token = true -> reads (read_value (S fuel)) token (JNumber token).
Proof.
  intros Hn. pose proof (json_number_chars token Hn) as Hc. split; [by destruct token|]. intros rest Hs.
  assert (E : span number_char (token +:+ rest) = (token, rest)) by (apply span_exact; [done|by destruct rest]).
  destruct token as [|c token]; [done|]. cbn [append] in *. cbn [read_value]. rewrite E, Hn.
  cbn in Hc. apply andb_prop in Hc as [Hc _].
  destruct (Ascii.eqb_spec c double_quote) as [->|]; [by vm_compute in Hc|].
  destruct (Ascii.eqb_spec c "[") as [->|]; [by vm_compute in Hc|].
  by destruct (Ascii.eqb_spec c "{") as [->|]; [vm_compute in Hc|].
Qed.

Definition member_text (m : string * Json) : string := quoted (json_escape m.1) +:+ ":" +:+ print_json m.2.

Lemma read_member_read value m : reads value (print_json m.2) m.2 -> reads (read_member value) (member_text m) m.
Proof.
  destruct m as [name v]. intros [Hne Hv]. split; [done|]. intros rest Hs. unfold member_text, quoted, quote, read_member.
  cbn [fst snd] in *. rewrite !str_app_assoc. cbn [append expect]. rewrite Ascii.eqb_refl.
  cbn [mbind option_bind]. fold double_quote. rewrite json_escape_read. cbn [mbind option_bind expect].
  rewrite Ascii.eqb_refl. cbn [mbind option_bind]. by rewrite Hv.
Qed.

(** The items of a list, each read within the fuel. *)
Lemma items_read {A} (text : A -> string) (item : string -> option (A * string)) (close : ascii) fuel l rest :
  number_char close = false -> Ascii.eqb close "," = false ->
  Forall (fun a => ((String.length (text a) <= fuel)%nat -> reads item (text a) a) /\ expect close (text a) = None /\
    text a <> "") l ->
  (String.length (comma_separated (map text l)) <= fuel)%nat ->
  read_items item close fuel (comma_separated (map text l) +:+ String close rest) = Some (l, rest).
Proof.
  intros Hc Hcomma Hl Hf. rewrite Forall_forall in Hl.
  assert (Hsub : forall a, a ∈ l -> text a ∈ map text l) by (intros a Ha; apply list_elem_of_In, in_map; by apply list_elem_of_In).
  assert (Hback : forall P : string -> Prop, (forall a, a ∈ l -> P (text a)) -> Forall P (map text l)).
  { intros P HP. rewrite Forall_forall. intros t Ht%list_elem_of_In%in_map_iff. destruct Ht as (a & <- & Ha).
    apply HP. by apply list_elem_of_In. }
  apply read_items_read; [done|done| | |].
  - assert (H : Forall (fun a => reads item (text a) a) l).
    { rewrite Forall_forall. intros a Ha. apply Hl; [done|]. etrans; [|exact Hf].
      by apply length_comma_separated, Hsub. }
    clear -H. induction H; constructor; auto.
  - apply Hback. intros a Ha. by apply Hl.
  - etrans; [|exact Hf]. apply count_comma_separated, Hback. intros a Ha. by apply Hl.
Qed.

Lemma print_json_read j : json_ok j -> expect "]" (print_json j) = None /\
  forall fuel, (String.length (print_json j) <= fuel)%nat -> reads (read_value fuel) (print_json j) j.
Proof.
  intros H. split; [by apply print_json_ne|].
  induction H as [s|token Ht|items Hok IH|members Hok IH] using json_ok_induction; intros [|fuel] Hf;
    try (cbn in Hf; lia).
  - split; [done|]. intros rest _. unfold print_json, quoted, quote. rewrite !str_app_assoc. cbn [append read_value].
    rewrite Ascii.eqb_refl. fold double_quote. by rewrite json_escape_read.
  - destruct token; [by vm_compute in Ht|cbn in Hf; lia].
  - by apply number_token_read.
  - split; [done|]. intros rest _. cbn [print_json] in *. rewrite !str_app_assoc. cbn [append read_value].
    change (Ascii.eqb "[" double_quote) with false. change (Ascii.eqb "[" "[") with true. cbn iota.
    rewrite items_read; [done|done|done| |].
    + rewrite Forall_forall in Hok, IH |- *. intros j Hj. split; [by apply IH|]. by destruct (print_json_ne j (Hok j Hj)).
    + cbn in Hf. rewrite length_str_app in Hf. lia.
  - split; [done|]. intros rest _. cbn [print_json] in *. fold member_text in *. rewrite !str_app_assoc. cbn [append read_value].
    change (Ascii.eqb "{" double_quote) with false. change (Ascii.eqb "{" "[") with false.
    change (Ascii.eqb "{" "{") with true. cbn iota.
    change (map _ members) with (map member_text members) in *.
    rewrite items_read; [done|done|done| |].
    + rewrite Forall_forall in IH |- *. intros m Hm. split; [|done]. intros Hl. apply read_member_read, IH; [done|].
      unfold member_text in Hl. rewrite !length_str_app in Hl. lia.
    + cbn in Hf. rewrite length_str_app in Hf. lia.
Qed.

(** What is printed on a line of its own is read back. *)
Lemma read_json_print j : json_ok j -> read_json (print_json j +:+ line_end) = Some j.
Proof.
  intros H. unfold read_json. rewrite length_str_app.
  destruct (print_json_read j H) as [_ Hr]. destruct (Hr (S (String.length (print_json j) + String.length line_end)) ltac:(lia))
    as [_ ->]; done.
Qed.

(** ** The output of a search *)

Definition hit_json (fields : DocumentId -> option (gmap string string)) (hit : SearchHit) : Json :=
  JObject [("document_id", JString (hit_document_id hit)); ("score", JNumber (print_double (hit_score hit)));
           ("fields", JObject (prod_map id JString <$> map_items (default ∅ (fields (hit_document_id hit)))))].

Definition result_json (live : Z) (fields : DocumentId -> option (gmap string string)) (result : SearchResult) : Json :=
  JObject [("indexed_documents", JNumber (to_string_u live)); ("total_hits", JNumber (to_string_u (total_hits result)));
           ("hits", JArray (hit_json fields <$> hits result))].

(** What a view shows of a document. *)
Definition shown (v : SearchIndexView) (id : DocumentId) : option (gmap string string) :=
  (fun r => doc_fields (document r)) <$> view_document v id.

Lemma quoted_append s rest : quoted s +:+ rest = quote +:+ s +:+ quote +:+ rest.
Proof. unfold quoted. by rewrite !str_app_assoc. Qed.

Lemma hit_text_json v hit : hit_text v hit = print_json (hit_json (shown v) hit).
Proof.
  assert (E : match view_document v (hit_document_id hit) with
      | Some record => comma_separated (field_text <$> map_items (doc_fields (document record)))
      | None => ""
      end = comma_separated (map member_text (prod_map id JString <$> map_items (default ∅ (shown v (hit_document_id hit)))))).
  { unfold shown. destruct (view_document v (hit_document_id hit)) as [r|]; cbn [default fmap option_fmap option_map]; [|done].
    f_equal. induction (map_items _) as [|[k x] l IH]; [done|]. cbn [fmap list_fmap map] in *. by rewrite <- IH. }
  unfold hit_text. rewrite E. cbn [print_json hit_json map comma_separated fst snd]. fold member_text.
  change (json_escape "document_id") with "document_id". change (json_escape "score") with "score".
  change (json_escape "fields") with "fields". change (map _ (prod_map id JString <$> _)) with
    (map member_text (prod_map id JString <$> map_items (default ∅ (shown v (hit_document_id hit))))).
  rewrite !str_app_assoc. done.
Qed.

Lemma search_text_json v result : search_text v result =
  print_json (result_json (view_live_document_count v) (shown v) result) +:+ line_end.
Proof.
  assert (E : hit_text v <$> hits result = map print_json (hit_json (shown v) <$> hits result)).
  { induction (hits result) as [|h l IH]; [done|]. cbn [fmap list_fmap map] in *. by rewrite hit_text_json, IH. }
  unfold search_text. rewrite E. cbn [print_json result_json map comma_separated fst snd].
  change (json_escape "indexed_documents") with "indexed_documents". change (json_escape "total_hits") with "total_hits".
  change (json_escape "hits") with "hits". rewrite !str_app_assoc. done.
Qed.

Lemma count_text_json v : count_text v =
  print_json (JObject [("indexed_documents", JNumber (to_string_u (view_live_document_count v)))]) +:+ line_end.
Proof. unfold count_text. cbn [print_json map comma_separated fst snd]. by rewrite !str_app_assoc. Qed.

Lemma unsigned_number n : 0 <= n -> json_number (to_string_u n) = true.
Proof.
  intros Hn. destruct (to_string_u_spec n Hn) as (Hd & _ & _). pose proof (to_string_u_integer n Hn) as Hi.
  assert (Hm : json_magnitude (to_string_u n) = true) by (rewrite <- (str_app_nil_r (to_string_u n)); by apply json_magnitude_parts).
  revert Hm Hd. destruct (to_string_u n) as [|[[] [] [] [] [] [] [] []] s]; try done.
Qed.

Lemma result_json_ok live fields result : 0 <= live -> 0 <= total_hits result ->
  Forall (fun hit => d_finite (hit_score hit) = true) (hits result) -> json_ok (result_json live fields result).
Proof.
  intros Hl Ht Hf. apply ok_object. repeat constructor; try by apply unsigned_number.
  apply Forall_fmap. eapply Forall_impl; [exact Hf|]. intros hit Hfin. cbn. apply ok_object. repeat constructor.
  - by apply print_double_number.
  - apply Forall_fmap, Forall_true. intros [k x]. constructor.
Qed.
