(* ===== verification/IndexCliRuns.v ===== *)
(** * What a run of the index command line says

    A run over a document file answers for the newest row of every document,
    or names what is wrong; a segment written by one run answers the next one
    as the documents themselves did, even after a crash. *)

From S2P Require Import Prelude Bytes Text Doubles Types Schema Segment Store StoreSpec SegmentStore Durability SegmentRoundtrip DocumentFile DocumentFileSpec Query Lexer Parser Grammar Ranking Planner PlannerSpec PlanBoosts Executor ScoreBits SearchSpec ClusterSpec Index IndexSpec IndexChecks Contents ViewSpec IndexCli Json IndexCliSpec.
From Stdlib Require Import Ascii String SpecFloat.

(** ** The documents of a table *)

(** The newest row of every document: rows are put in order, each with a
    higher version than the row before it. *)
Definition newest (table : list Document) : gmap string Document := foldl (fun m d => <[doc_id d := d]> m) ∅ table.

Lemma newest_snoc table d : newest (table ++ [d]) = <[doc_id d := d]> (newest table).
Proof. unfold newest. by rewrite foldl_app. Qed.

(** [done] documents of the table are in the index. *)
Record loaded (done : list Document) (index : InMemoryIndex) : Prop := {
  loaded_reachable : reachable IndexSchema.default_schema u32_max index;
  loaded_contents : contents index = newest done
}.

Lemma loaded_default : loaded [] default_index.
Proof. split; [apply reach_make|apply contents_make]. Qed.

(** Putting the rows one after another: all of them, or a first one that is
    rejected. *)
Lemma put_documents table : forall done index, loaded done index ->
  match fold_each put_document index table with
  | Ok index' => loaded (done ++ table) index'
  | Err e =>
      e = fails 2 ("document rejected because its ID is empty or version is stale" +:+ line_end) /\
      exists before d after index' error, table = before ++ d :: after /\ loaded (done ++ before) index' /\
        InMemoryIndex.put index' d = Err error /\ put_rejected index' d (index_code error)
  end.
Proof.
  induction table as [|d table IH]; intros done index Hl; cbn [fold_each]; [by rewrite app_nil_r|].
  unfold put_document at 1. destruct (InMemoryIndex.put index d) as [index'|error] eqn:E; cbn [map_err].
  - specialize (IH (done ++ [d]) index'). destruct Hl as [Hr Hc].
    assert (Hl' : loaded (done ++ [d]) index').
    { split; [by eapply reach_put|]. rewrite newest_snoc, <- Hc. by apply put_contents in E as [-> _]. }
    specialize (IH Hl'). rewrite <- app_assoc in IH. cbn [app] in IH. destruct (fold_each _ _ _); [done|].
    destruct IH as (-> & before & x & after & index'' & error & -> & Hl'' & Hput & Hrej). split; [done|].
    rewrite <- app_assoc in Hl''. by exists (d :: before), x, after, index'', error.
  - split; [done|]. exists [], d, table, index, error. rewrite app_nil_r. destruct Hl as [Hr Hc]. split_and!; try done.
    apply put_Err; [|done]. by apply reachable_wf in Hr as [W _].
Qed.

Lemma loaded_invariants done index : loaded done index -> check_invariants index = Ok tt.
Proof.
  intros [Hr _]. unfold check_invariants. apply reachable_wf in Hr as [W Hs]; [|done].
  by rewrite (validate_invariants_Ok index W (eq_rect_r schema_analyzers default_schema_analyzers Hs)).
Qed.

Lemma loaded_laws done index : loaded done index ->
  IndexViewLaws (InMemoryIndex.view index) IndexSchema.default_schema (InMemoryIndex.documents_ index).
Proof. intros [Hr _]. by apply (in_memory_view_laws _ u32_max); [|apply default_schema_analyzers|]. Qed.

Lemma loaded_shown done index : loaded done index ->
  forall id, shown (InMemoryIndex.view index) id = doc_fields <$> newest done !! id.
Proof.
  intros [_ Hc] id. unfold shown. cbn [view_document InMemoryIndex.view]. unfold InMemoryIndex.find_document.
  rewrite <- Hc. unfold contents. rewrite lookup_fmap, <- option_fmap_compose. done.
Qed.

(** ** Searches *)

(** Putting no documents or a search away: how [run_search] ends. *)
Definition no_answer (e : Exit) : Prop := standard_output e = "" /\ exit_code e <> 0.

(** A successful search prints its result as JSON. *)
Lemma run_search_output log1p v a : 0 <= view_live_document_count v -> 1 <= top_k a -> has_query a = true ->
  let e := run_search log1p v a in
  match parse (query a) default_limits with
  | Err failure => e = query_failure failure
  | Ok parsed =>
      match search log1p (make_executor v default_parameters) parsed (search_options a) with
      | Err error => e = fails 3 ("execution error: " +:+ execution_message error +:+ line_end)
      | Ok result => exit_code e = 0 /\ standard_error e = "" /\
          read_json (standard_output e) = Some (result_json (view_live_document_count v) (shown v) result)
      end
  end.
Proof.
  intros Hl Hk Hq e. unfold e, run_search. rewrite Hq. cbn [negb].
  destruct (parse (query a) default_limits) as [parsed|failure]; [|done].
  destruct (search _ _ _ _) as [result|error] eqn:E; [|done]. split; [done|]. split; [done|].
  cbn [standard_output answers]. rewrite search_text_json. apply read_json_print.
  assert (0 <= Executor.top_k (search_options a)) as H by (cbn [search_options Executor.top_k]; lia).
  destruct (search_scores log1p _ _ _ _ H E) as (_ & Ht & Hs). apply result_json_ok; [done..|].
  eapply Forall_impl; [exact Hs|]. by intros hit [? _].
Qed.

(** ** Runs over a document file *)

(** How many documents pass a test. *)
Definition count_documents (test : Document -> bool) (docs : gmap string Document) : Z :=
  zlen (filter (fun item : string * Document => test item.2 = true) (map_items docs)).

Definition is_visible (d : Document) : bool := negb (doc_deleted d).

(** A document outside any index. *)
Definition bare (d : Document) : DocumentRecord :=
  {| internal_id := 0; document := d; field_lengths := ∅; indexed_terms := ∅ |}.

(** What a query says of a document, whatever its place in an index. *)
Definition describes_document (q : Query) (d : Document) : bool :=
  is_visible d &&
  describes IndexSchema.default_schema default_search_fields q None (bare d).

Lemma count_contents (test : Document -> bool) (test' : DocumentId * DocumentRecord -> Prop)
    `{forall item, Decision (test' item)} index :
  (forall id r, test' (id, r) <-> test (document r) = true) ->
  zlen (filter test' (map_items (InMemoryIndex.documents_ index))) = count_documents test (contents index).
Proof.
  intros Ht. unfold count_documents, zlen. f_equal. unfold contents. rewrite !map_items_perm, map_to_list_fmap.
  induction (map_to_list (InMemoryIndex.documents_ index)) as [|[id r] l IH]; [done|].
  rewrite fmap_cons, !filter_cons. specialize (Ht id r). do 2 case_decide; cbn in *; [by f_equal|tauto|tauto|done].
Qed.

Lemma loaded_live done index : loaded done index ->
  view_live_document_count (InMemoryIndex.view index) = count_documents is_visible (newest done).
Proof. intros [_ <-]. by apply (count_contents is_visible). Qed.

Lemma result_json_ext live fields fields' result : (forall id, fields id = fields' id) ->
  result_json live fields result = result_json live fields' result.
Proof.
  intros E. unfold result_json. assert (hit_json fields <$> hits result = hit_json fields' <$> hits result) as ->; [|done].
  apply list_fmap_ext. intros _ hit _. unfold hit_json. by rewrite E.
Qed.

(** A result answers a query over some documents. *)
Definition matches (docs : gmap string Document) (q : Query) (k : Z) (result : SearchResult) : Prop :=
  total_hits result = count_documents (describes_document q) docs /\
  zlen (hits result) = Z.min k (total_hits result) /\
  NoDup (hit_document_id <$> hits result) /\
  (forall id, id ∈ hit_document_id <$> hits result -> exists d, docs !! id = Some d /\ describes_document q d = true).

(** The answer in JSON: the hits with the fields of their documents. *)
Definition answered (docs : gmap string Document) (q : Query) (k : Z) (output : string) : Prop :=
  exists result,
    read_json output =
      Some (result_json (count_documents is_visible docs) (fun id => doc_fields <$> docs !! id) result) /\
    matches docs q k result.

(** A search over the loaded rows finds what the query describes. *)
Lemma loaded_matches log1p table index q k result : loaded table index -> 0 <= k ->
  usable_boosts IndexSchema.default_schema default_search_fields q None d_one = true ->
  search log1p (make_executor (InMemoryIndex.view index) default_parameters) q
    {| Executor.top_k := k; search_default_fields := default_search_fields; planner_limits := default_planner_limits |} = Ok result ->
  matches (newest table) q k result.
Proof.
  intros Hload Hk Hu Es. pose proof (loaded_laws _ _ Hload) as L.
  pose proof (search_answers log1p (make_executor (InMemoryIndex.view index) default_parameters) default_parameters
    IndexSchema.default_schema _ q
    {| Executor.top_k := k; search_default_fields := default_search_fields; planner_limits := default_planner_limits |}
    L eq_refl Hk) as Hs. cbv zeta in Hs. rewrite Es in Hs. destruct (plan _ _ _) as [p|error] eqn:Eplan; [|done].
  specialize (Hs (planned_ok _ {| default_fields := default_search_fields; limits := default_planner_limits |} _ _ _
    (law_schema (CorpusViewLaws := L)) Hu Eplan)). destruct Hs as (Ht & Hh & Hn & Hin). destruct Hload as [_ <-].
  split; [rewrite Ht|split; [done|split; [done|]]].
  - unfold described. apply (count_contents (describes_document q)). intros id r.
    unfold describes_document, is_visible, InMemoryIndex.is_live. by rewrite (same_describes _ r (bare (document r)) eq_refl).
  - intros id (r & Hr & Hlive & Hd)%Hin. exists (document r).
    split; [apply contents_Some; by exists r|]. unfold describes_document, is_visible. apply andb_true_intro. split; [done|].
    by rewrite (same_describes _ r (bare (document r)) eq_refl).
Qed.

(** How a search over the loaded rows ends. *)
Lemma loaded_search log1p table index a parsed : loaded table index -> 1 <= top_k a -> has_query a = true ->
  parse (query a) default_limits = Ok parsed ->
  usable_boosts IndexSchema.default_schema default_search_fields parsed None d_one = true ->
  let e := run_search log1p (InMemoryIndex.view index) a in
  (exists error, search log1p (make_executor (InMemoryIndex.view index) default_parameters) parsed (search_options a) = Err error /\
     e = fails 3 ("execution error: " +:+ execution_message error +:+ line_end)) \/
  (exit_code e = 0 /\ standard_error e = "" /\ answered (newest table) parsed (top_k a) (standard_output e)).
Proof.
  intros Hload Hk Hq Hp Hu e.
  assert (Hl : 0 <= view_live_document_count (InMemoryIndex.view index)) by (rewrite (loaded_live _ _ Hload); apply zlen_nonneg).
  pose proof (run_search_output log1p _ a Hl Hk Hq) as Hrun. cbv zeta in Hrun. rewrite Hp in Hrun. fold e in Hrun.
  destruct (search log1p _ parsed (search_options a)) as [result|error] eqn:Es; [right|left; by eexists].
  destruct Hrun as (? & ? & Hread). split; [done|]. split; [done|]. exists result. split.
  - rewrite Hread. f_equal. rewrite (loaded_live _ _ Hload). by apply result_json_ext, loaded_shown.
  - by eapply loaded_matches; [|lia| |].
Qed.

(** ** Arguments *)

Lemma digits_value_nonneg s : forall acc, 0 <= acc -> str_forallb is_digit s = true -> 0 <= digits_value acc s.
Proof.
  induction s as [|c s IH]; intros acc Ha; [done|]. cbn. intros [Hc Hs]%andb_prop. apply IH; [|done].
  pose proof (digit_value_range c Hc). lia.
Qed.

Lemma parse_u64_nonneg s k : parse_u64 s = Some k -> 0 <= k.
Proof.
  unfold parse_u64, from_chars_unsigned. destruct (span is_digit s) as [ds rest] eqn:E.
  apply span_app in E as (_ & Hd & _). destruct ds as [|c ds]; [done|]. cbv zeta.
  destruct (_ <=? _); [|done]. cbn [whole]. destruct rest; [|done]. intros [= <-]. apply (digits_value_nonneg (String c ds) 0); [lia|done].
Qed.

Lemma parse_options_complete argv : forall a a',
  parse_options a argv = Ok a' -> 1 <= top_k a -> complete a' = true /\ 1 <= top_k a'.
Proof.
  induction argv as [argv IH] using (induction_ltof1 _ (@Datatypes.length string)). unfold ltof in IH.
  intros a a' H Hk. destruct argv as [|option [|value rest]]; cbn [parse_options] in H.
  - destruct (complete a) eqn:E; [|done]. by injection H as <-.
  - by destruct (str_eqb option "--help").
  - destruct (str_eqb option "--help"); [done|]. apply bind_Ok in H as (b & Hb & H).
    apply IH in H; [done|cbn; lia|]. revert Hb. unfold set_option.
    do 4 (destruct (str_eqb option _); [intros [= <-]; exact Hk|]). destruct (str_eqb option _); [|done].
    destruct (parse_u64 value) as [k|] eqn:Ek; [|done]. destruct (Z.eqb_spec k 0); [done|]. intros [= <-]. cbn [top_k set_top_k].
    pose proof (parse_u64_nonneg _ _ Ek). lia.
Qed.

Lemma parse_arguments_complete argv a : parse_arguments argv = Ok a -> complete a = true /\ 1 <= top_k a.
Proof. intros H. by eapply parse_options_complete. Qed.

(** ** The whole program *)

(** A row that the index refuses, after the rows before it. *)
Definition rejected_row (table : list Document) : Prop :=
  exists before d after index code, table = before ++ d :: after /\ loaded before index /\ put_rejected index d code.

(** How a run ends whose document file has been read into a table. *)
Definition table_outcome (log1p : double -> double) (table : list Document) (a : Arguments) (e : Exit) : Prop :=
  (rejected_row table /\
   e = fails 2 ("document rejected because its ID is empty or version is stale" +:+ line_end)) \/
  match parse (query a) default_limits with
  | Err failure => e = query_failure failure
  | Ok q =>
      (exists index error, loaded table index /\
         search log1p (make_executor (InMemoryIndex.view index) default_parameters) q (search_options a) = Err error /\
         e = fails 3 ("execution error: " +:+ execution_message error +:+ line_end)) \/
      (exit_code e = 0 /\ standard_error e = "" /\ answered (newest table) q (top_k a) (standard_output e))
  end.

Lemma read_file_quiet {E} name d p :
  read_file (E := E) name (quiet d p) = (Ok (bytes_string <$> content d name), quiet d p).
Proof. unfold read_file, call_read. cbn. by destruct (content d name). Qed.

Lemma read_file_run {E} name w : exists w' c, read_file (E := E) name w = (Ok c, w') /\
  disk w' = disk w /\ passed w' = passed w /\ (c = None \/ c = bytes_string <$> content (disk w) name).
Proof.
  unfold read_file, call_read. pose proof (next_fault_world w) as Hn. destruct (next_fault w) as [fault w'].
  destruct Hn as (Hd & Hp & _). rewrite Hd. destruct fault; [by exists w', None; eauto|].
  destruct (content (disk w) name); [|by exists w', None; eauto]. eexists w', _. by eauto.
Qed.

Lemma loaded_outcome log1p table index a : loaded table index -> 1 <= top_k a -> has_query a = true ->
  (forall q, parse (query a) default_limits = Ok q ->
     usable_boosts IndexSchema.default_schema default_search_fields q None d_one = true) ->
  table_outcome log1p table a (run_search log1p (InMemoryIndex.view index) a).
Proof.
  intros Hload Hk Hq Hu. right. destruct (parse (query a) default_limits) as [q|failure] eqn:Ep.
  - destruct (loaded_search log1p table index a q Hload Hk Hq Ep (Hu q eq_refl)) as [(error & He & ->)|H]; [left|by right].
    by exists index, error.
  - unfold run_search. by rewrite Hq, Ep.
Qed.

(** C7. A run of the command line over a document file and a query, from the
    arguments to the text it prints.  It ends in the first error there is: the
    file cannot be opened, a line is malformed, a row is refused by the index,
    the query does not parse, or the search fails.  Otherwise it exits with 0
    and prints JSON that reads back as the answer: the number of documents not
    deleted, the number of these that the query describes, as many distinct
    ones of them as [--top-k] allows, each with its identifier and the fields
    of its newest row.  The index's own check never fails. *)
Theorem index_cli_answers log1p d argv a :
  parse_arguments argv = Ok a -> segment a = None -> write_segment a = None ->
  (forall q, parse (query a) default_limits = Ok q ->
     usable_boosts IndexSchema.default_schema default_search_fields q None d_one = true) ->
  let path := default "" (documents a) in
  let e := (main log1p argv (world d [])).1 in
  match bytes_string <$> content d path with
  | None => e = document_failure (fail open_failed 0 0 ("unable to open document file: " +:+ path))
  | Some text =>
      match read_documents text with
      | Err failure => e = document_failure failure
      | Ok table => table_outcome log1p table a e
      end
  end.
Proof.
  intros Ha Hseg Hw Hu path. unfold main. rewrite Ha. apply parse_arguments_complete in Ha as [Hc Hk].
  assert (Hq : has_query a = true).
  { unfold complete in Hc. rewrite Hw in Hc. destruct (has_query a); [done|]. by rewrite !orb_true_r in Hc. }
  unfold run. rewrite Hseg, Hw. fold path.
  erewrite bind_run by apply (read_file_quiet path d [d]). unfold read_documents_at.
  destruct (bytes_string <$> content d path) as [text|]; [|done].
  destruct (read_documents text) as [table|failure]; [|done].
  cbn [map_err]. erewrite bind_run by done.
  pose proof (put_documents table [] default_index loaded_default) as Hput. cbn [app] in Hput.
  destruct (fold_each put_document default_index table) as [index|failure].
  - erewrite bind_run by done. erewrite bind_run by (unfold io_lift; by rewrite (loaded_invariants _ _ Hput)).
    erewrite bind_run by done. cbn. by apply loaded_outcome.
  - destruct Hput as (-> & before & x & after & index & error & -> & Hl & _ & Hr). left. split; [|done].
    by exists before, x, after, index, (index_code error).
Qed.

(** Three rows, the first of which the third replaces. *)
Definition sample_text : string := write_documents
  [{| row_id := "a"; row_version := 1; row_deleted := false; row_title := "one"; row_body := "two"; row_tags := "x";
      row_timestamp := "2024-01-01" |};
   {| row_id := "b"; row_version := 1; row_deleted := false; row_title := quote; row_body := "three one"; row_tags := "y";
      row_timestamp := "2024-01-01" |};
   {| row_id := "a"; row_version := 2; row_deleted := false; row_title := "four"; row_body := "two"; row_tags := "x";
      row_timestamp := "2024-01-01" |}].

Definition sample_disk : Disk :=
  {| inodes := {[0 := synced (string_bytes sample_text)]}; dir := {["docs" := 0]}; older := []; fresh := 1 |}.

Definition sample_arguments : list string := ["dse_index_cli"; "--documents"; "docs"; "--query"; "one"].

(** At the sample, the one document that has the word is printed. *)
Lemma index_cli_answers_witness :
  let e := (main (fun x => x) sample_arguments (world sample_disk [])).1 in
  exit_code e = 0 /\ exists table q, read_documents sample_text = Ok table /\ parse "one" default_limits = Ok q /\
    answered (newest table) q 10 (standard_output e).
Proof.
  intros e.
  assert (H : ok_and (parse_arguments sample_arguments) (fun a =>
      bool_decide (segment a = None /\ write_segment a = None /\ documents a = Some "docs" /\ query a = "one" /\ top_k a = 10)) &&
    ok_and (read_documents sample_text) (fun _ => true) && ok_and (parse "one" default_limits) boost_free &&
    (exit_code e =? 0) = true) by (vm_compute; reflexivity).
  apply andb_prop in H as [[[Ha Ht]%andb_prop Hq]%andb_prop He%Z.eqb_eq].
  apply ok_and_true in Ha as (a & Ha & (Hs & Hw & Hd & Hqa & Hk)%bool_decide_eq_true_1).
  apply ok_and_true in Ht as (table & Ht & _). apply ok_and_true in Hq as (q & Hq & Hf).
  split; [exact He|]. exists table, q. split; [exact Ht|]. split; [exact Hq|].
  assert (Hc : bytes_string <$> content sample_disk "docs" = Some sample_text) by (vm_compute; reflexivity).
  pose proof (index_cli_answers (fun x => x) sample_disk sample_arguments a Ha Hs Hw) as H.
  rewrite Hqa, Hd in H. specialize (H ltac:(intros q' Hq'; rewrite Hq in Hq'; injection Hq' as <-; by apply boost_free_usable)).
  cbv zeta in H. change (default "" (Some "docs")) with "docs" in H. fold e in H. rewrite Hc, Ht in H. unfold table_outcome in H. rewrite Hqa, Hq, Hk in H.
  destruct H as [[_ E]|[(? & ? & _ & _ & E)|(_ & _ & H)]]; [rewrite E in He; discriminate He..|exact H].
Defined.

(** ** Runs over a segment *)

(** Comparisons of names that are written out. *)
Ltac decide_names :=
  repeat match goal with
  | |- context [str_eqb ?a ?b] => let v := eval vm_compute in (str_eqb a b) in change (str_eqb a b) with v; cbn iota
  end.

(** [--top-k] as the last option. *)
Lemma search_arguments option path q k : option = "--segment" \/ option = "--documents" ->
  parse_arguments ["dse_index_cli"; option; path; "--query"; q; "--top-k"; k] =
  (a ← set_option "--top-k" k (set_query q (if str_eqb option "--segment" then set_segment path no_arguments
                                           else set_documents path no_arguments)); Ok a).
Proof.
  intros [-> | ->]; unfold parse_arguments; cbn [drop parse_options]; unfold set_option; decide_names;
    cbn [mbind expected_bind]; (destruct (parse_u64 k) as [z|]; [|done]); by destruct (z =? 0).
Qed.

Lemma build_arguments docs name :
  parse_arguments ["dse_index_cli"; "--documents"; docs; "--write-segment"; name] =
  Ok (set_write_segment name (set_documents docs no_arguments)).
Proof. unfold parse_arguments. cbn [drop parse_options]. unfold set_option. by decide_names. Qed.

(** The index a document file gives, if any. *)
Definition indexed (bytes : list byte) (index : InMemoryIndex) : Prop :=
  exists table, read_documents (bytes_string bytes) = Ok table /\ fold_each put_document default_index table = Ok index.

Lemma indexed_loaded bytes index : indexed bytes index ->
  exists table, read_documents (bytes_string bytes) = Ok table /\ loaded table index.
Proof.
  intros (table & Ht & Hf). pose proof (put_documents table [] default_index loaded_default) as H. rewrite Hf in H. by exists table.
Qed.

(** Writing a segment: what is under its name afterwards, even after a crash. *)
Lemma segment_written P name snapshot options w : stored P (disk w) -> passed w = [disk w] -> temporary name = false ->
  let encoded := encode_segment snapshot options in
  match SegmentStore.write_segment name snapshot options w with
  | (Ok _, w') => (exists r, SegmentReader.open encoded default_read_limits = Ok r) /\
      forall after, after = disk w' \/ crash (disk w') after -> content after name = Some encoded
  | (Err _, _) => True
  end.
Proof.
  intros (Hok & Hl & Hh) Hp Hname encoded. set (good := written P name snapshot options).
  assert (Hinv : inv good P [] (disk w)) by (split; [done..|by constructor|by left|by constructor]).
  pose proof (triple_write_segment P name snapshot options Hname w) as H.
  rewrite Hp in H. specialize (H (ex_intro _ [] Hinv) (inv_safe _ _ _ _ Hinv)).
  specialize (H ltac:(constructor; [by eapply inv_safe|done])).
  destruct (SegmentStore.write_segment name snapshot options w) as [[[]|failure] w2]; [|done].
  destruct H as (_ & _ & _ & Hw & _ & _ & Hopen). split; [exact Hopen|]. clear Hopen Hinv good.
  destruct Hw as [Hok2 Hh2 _ _ _ _]. fold encoded in Hh2. clearbody encoded.
  intros after [->|C]; [eapply holds_content; [exact Hh2|apply lookup_insert_eq]|].
  destruct (crash_holds _ _ _ _ Hok2 Hh2 C) as (_ & P' & ->%list_elem_of_singleton & Hh').
  eapply holds_content; [exact Hh'|apply lookup_insert_eq].
Qed.

(** What a run that exits with 0 after writing a segment has done. *)
Lemma build_run log1p P d docs name bytes calls :
  stored P d -> temporary name = false -> P !! docs = Some bytes ->
  let '(e, w) := main log1p ["dse_index_cli"; "--documents"; docs; "--write-segment"; name] (world d calls) in
  exit_code e = 0 -> exists index, indexed bytes index /\
    let encoded := encode_segment (InMemoryIndex.snapshot index) default_write_options in
    (exists r, SegmentReader.open encoded default_read_limits = Ok r) /\
    forall after, after = disk w \/ crash (disk w) after -> content after name = Some encoded.
Proof.
  intros Hst Hname Hdocs. unfold main. rewrite build_arguments. unfold run.
  cbn [segment set_write_segment set_documents documents write_segment no_arguments].
  change (default "" (Some docs)) with docs.
  destruct (read_file_run (E := Exit) docs (world d calls)) as (w1 & c & E & Hd1 & Hp1 & Hc). cbn [disk passed world] in *.
  erewrite bind_run by exact E. cbn beta. rewrite (holds_content _ _ _ _ _ (proj2 (proj2 Hst)) Hdocs) in Hc.
  destruct Hc as [-> | ->]; [by intros|]. cbn [fmap option_fmap option_map read_documents_at].
  destruct (read_documents (bytes_string bytes)) as [table|failure] eqn:Et; [|by intros].
  cbn [map_err]. erewrite bind_run by done. cbn beta.
  destruct (fold_each put_document default_index table) as [index|failure] eqn:Ef.
  2:{ pose proof (put_documents table [] default_index loaded_default) as H. rewrite Ef in H. destruct H as [-> _]. by intros. }
  erewrite bind_run by done. cbn beta.
  destruct (indexed_loaded bytes index) as (done & _ & Hload); [by exists table|].
  erewrite bind_run by (unfold io_lift; by rewrite (loaded_invariants _ _ Hload)). cbn beta.
  pose proof (segment_written P name (InMemoryIndex.snapshot index) default_write_options w1) as H.
  rewrite Hd1 in H. specialize (H Hst Hp1 Hname). cbv zeta in H |- *.
  unfold mbind at 1, io_bind at 1, io_map_err.
  destruct (SegmentStore.write_segment name _ default_write_options w1) as [[[]|failure] w2]; cbn [map_err mret io_ret]; [|by intros].
  intros _. exists index. split; [by exists table|exact H].
Qed.

(** A search over a document file that gives an index, without failing calls. *)
Lemma documents_run log1p d docs bytes index a p : segment a = None -> documents a = Some docs -> write_segment a = None ->
  content d docs = Some bytes -> indexed bytes index ->
  run log1p a (quiet d p) = (Ok (run_search log1p (InMemoryIndex.view index) a), quiet d p).
Proof.
  intros Hs Hd Hw Hc Hi. destruct (indexed_loaded _ _ Hi) as (done & _ & Hload). destruct Hi as (table & Ht & Hf).
  unfold run. rewrite Hs, Hd, Hw. change (default "" (Some docs)) with docs.
  erewrite bind_run by apply (read_file_quiet docs d p). cbn beta.
  rewrite Hc. cbn [fmap option_fmap option_map read_documents_at]. rewrite Ht. cbn [map_err].
  erewrite bind_run by done. cbn beta. erewrite bind_run by (unfold io_lift; by rewrite Hf). cbn beta.
  by erewrite bind_run by (unfold io_lift; by rewrite (loaded_invariants _ _ Hload)).
Qed.

Lemma segment_run log1p d name bytes reader a p : segment a = Some name -> content d name = Some bytes ->
  SegmentReader.open bytes default_read_limits = Ok reader ->
  run log1p a (quiet d p) = (Ok (run_search log1p (SegmentReader.view reader) a), quiet d p).
Proof.
  intros Hs Hc Ho. unfold run. rewrite Hs. erewrite bind_run; [done|]. unfold io_map_err.
  by rewrite (open_segment_quiet _ _ _ _ _ _ Hc Ho).
Qed.

(** The index that comes back from a segment written by the command line. *)
Lemma reopened_view index reader done : loaded done index -> storable default_read_limits index ->
  SegmentReader.open (encode_segment (InMemoryIndex.snapshot index) default_write_options) default_read_limits = Ok reader ->
  SegmentReader.view reader = InMemoryIndex.view index.
Proof.
  intros [Hr _] Hs Ho. pose proof (open_inv _ _ _ Ho) as (Hmax & _ & _).
  destruct (open_index default_read_limits IndexSchema.default_schema u32_max index default_write_options
    default_limits_ok ltac:(split; vm_compute; discriminate) Hr Hs ltac:(split; vm_compute; discriminate) Hmax) as [Ho' _].
  rewrite Ho in Ho'. injection Ho' as ->. apply segment_view.
Qed.

(** C8. A segment that the command line has written stands in for the document
    file it was made of: once the writing run has exited with 0, whatever
    calls failed on the way and even after a crash, a search over the segment
    prints exactly what the search over the document file prints, with the
    same exit code, for every query and [--top-k].  The index is assumed to be
    within the reader's limits. *)
Theorem segment_stands_in log1p P d docs name bytes query k calls :
  stored P d -> temporary name = false -> P !! docs = Some bytes ->
  (forall index, indexed bytes index -> storable default_read_limits index) ->
  let '(e, w) := main log1p ["dse_index_cli"; "--documents"; docs; "--write-segment"; name] (world d calls) in
  exit_code e = 0 -> forall after, after = disk w \/ crash (disk w) after ->
  (main log1p ["dse_index_cli"; "--segment"; name; "--query"; query; "--top-k"; k] (world after [])).1 =
  (main log1p ["dse_index_cli"; "--documents"; docs; "--query"; query; "--top-k"; k] (world d [])).1.
Proof.
  intros Hst Hname Hdocs Hlim. pose proof (build_run log1p P d docs name bytes calls Hst Hname Hdocs) as Hb.
  destruct (main log1p _ (world d calls)) as [e w]. intros He after Hafter.
  destruct (Hb He) as (index & Hi & [reader Hopen] & Hc). specialize (Hc after Hafter).
  destruct (indexed_loaded _ _ Hi) as (done & _ & Hload).
  pose proof (reopened_view index reader done Hload (Hlim index Hi) Hopen) as Hview.
  unfold main. rewrite !search_arguments by eauto.
  change (str_eqb "--segment" "--segment") with true. change (str_eqb "--documents" "--segment") with false. cbn iota.
  unfold set_option. decide_names. destruct (parse_u64 k) as [z|]; [|done]. destruct (z =? 0); [done|].
  cbn [mbind expected_bind]. destruct Hst as (_ & _ & Hh).
  unfold world. fold (quiet after [after]) (quiet d [d]).
  erewrite segment_run; [|reflexivity|exact Hc|exact Hopen].
  erewrite documents_run; [|reflexivity..|exact (holds_content _ _ _ _ _ Hh Hdocs)|exact Hi].
  by rewrite Hview.
Qed.

(** The sample table is within the reader's limits. *)
Lemma sample_storable_index index : indexed (string_bytes sample_text) index -> storable default_read_limits index.
Proof.
  assert (H : ok_and (table ← map_err (fun _ => fails 0 "") (read_documents sample_text);
                      fold_each put_document default_index table)
    (fun index => bool_decide (storable_data default_read_limits index)) = true) by (vm_compute; reflexivity).
  intros Hi. destruct (indexed_loaded _ _ Hi) as (done & _ & [Hr _]). destruct Hi as (table & Ht & Hf).
  rewrite bytes_string_bytes in Ht. rewrite Ht in H. cbn [map_err mbind expected_bind] in H. rewrite Hf in H.
  cbn [ok_and] in H. apply bool_decide_eq_true_1 in H as (H1 & H2 & H3 & H4 & H5). split; try assumption.
  apply reachable_wf in Hr as [_ Hs]; [|vm_compute; split; discriminate]. rewrite Hs. exact default_schema_fits.
Qed.

Definition sample_stored : list (string * list byte) := [("docs", string_bytes sample_text)].

Lemma segment_stands_in_witness :
  let built := main (fun x => x) ["dse_index_cli"; "--documents"; "docs"; "--write-segment"; "s.seg"]
                 (world (disk_with sample_stored) []) in
  exit_code built.1 = 0 /\
  (main (fun x => x) ["dse_index_cli"; "--segment"; "s.seg"; "--query"; "two"; "--top-k"; "5"] (world (disk built.2) [])).1 =
  (main (fun x => x) ["dse_index_cli"; "--documents"; "docs"; "--query"; "two"; "--top-k"; "5"]
     (world (disk_with sample_stored) [])).1.
Proof.
  intros built. assert (He : exit_code built.1 = 0) by (vm_compute; reflexivity). split; [exact He|].
  pose proof (segment_stands_in (fun x => x) (files_with ∅ sample_stored) (disk_with sample_stored) "docs" "s.seg"
    (string_bytes sample_text) "two" "5" [] (disk_with_stored sample_stored ltac:(vm_compute; reflexivity))
    ltac:(vm_compute; reflexivity) ltac:(vm_compute; reflexivity) sample_storable_index) as H.
  fold built in H. destruct built as [e w]. cbn [fst snd] in *. exact (H He (disk w) (or_introl eq_refl)).
Defined.
