(* ===== verification/Programs.v ===== *)
(** * The shard server and client programs

    apps/shard_server/main.cpp and apps/rpc_client/main.cpp: their arguments,
    and how they put the segment reader and the TCP transport together. *)

From S2P Require Import Prelude Bytes Text Doubles Numbers Types Segment Store SegmentStore Ranking Query Planner Executor Index IndexCli Sockets Rpc TcpServer TcpClient.
From ITree Require Import ITree.
From Stdlib Require Import Ascii String.

(** [--port]: all of the text, as an [unsigned] of at most 65535. *)
Definition parse_port (value : string) : option Z :=
  match whole (from_chars_unsigned u32_max value) with
  | Some parsed => if parsed >? 65535 then None else Some parsed
  | None => None
  end.

(** ** apps/shard_server/main.cpp *)

Module ShardServer.

Record Options := { segment : string; bind : string; port : Z }.

Definition default_options : Options := {| segment := ""; bind := "0.0.0.0"; port := 9090 |}.

Definition takes_value (option : string) : bool :=
  str_eqb option "--segment" || str_eqb option "--bind" || str_eqb option "--port".

Definition set_option (option value : string) (o : Options) : expected Exit Options :=
  if str_eqb option "--segment" then Ok {| segment := value; bind := bind o; port := port o |}
  else if str_eqb option "--bind" then Ok {| segment := segment o; bind := value; port := port o |}
  else
    match parse_port value with
    | Some parsed => Ok {| segment := segment o; bind := bind o; port := parsed |}
    | None => Err (fails 2 ("invalid port" +:+ line_end))
    end.

(** The loop over [argv], from its second element on. *)
Fixpoint parse_options (o : Options) (argv : list string) : expected Exit Options :=
  match argv with
  | [] => Ok o
  | option :: rest =>
      if takes_value option then
        match rest with
        | [] => Err (fails 2 ("missing value for " +:+ option +:+ line_end))
        | value :: rest' => o' ← set_option option value o; parse_options o' rest'
        end
      else Err (fails 2 ("unknown option: " +:+ option +:+ line_end))
  end.

Definition parse_arguments (argv : list string) : expected Exit Options :=
  o ← parse_options default_options (drop 1 argv);
  _ ← ensure (negb (str_eqb (segment o) ""))
        (fails 2 ("usage: dse_shard_server --segment PATH [--bind ADDRESS] [--port PORT]" +:+ line_end));
  Ok o.

(** The server as it runs until a signal, with what it serves and has printed. *)
Record Serving := {
  options : Options;
  view : SearchIndexView;
  server : TcpShardServer.TcpShardServer;
  printed : string
}.

Definition announce (port documents : Z) : string :=
  "ready port=" +:+ to_string_u port +:+ " documents=" +:+ to_string_u documents +:+ line_end.

(** Up to the loop that sleeps until a signal; [bind] and [port] only go to
    the system calls whose answers are given. *)
Definition launch (strerror : Errno -> string) (argv : list string) (answers : TcpShardServer.StartAnswers) : IO Exit Serving :=
  o ← io_lift (parse_arguments argv);
  reader ← io_map_err (fun e => fails 3 (segment_message e +:+ line_end)) (open_segment (segment o) default_read_limits);
  let view := SegmentReader.view reader in
  '(server, port) ← io_lift (map_err (fun e => fails 4 (rpc_message e +:+ line_end))
                               (TcpShardServer.start strerror default_server_options true answers));
  mret {| options := o; view := view; server := server; printed := announce port (view_live_document_count view) |}.

(** After a signal [main] returns 0, and the destructor stops the server. *)
Definition finish (s : Serving) : Exit := IndexCli.answers (printed s).

End ShardServer.

(** ** apps/rpc_client/main.cpp *)

Module RpcClient.

Record Options := { host : string; port : Z; query : string }.

Definition default_options : Options := {| host := "127.0.0.1"; port := 9090; query := "*" |}.

Definition takes_value (option : string) : bool :=
  str_eqb option "--host" || str_eqb option "--port" || str_eqb option "--query".

Definition set_option (option value : string) (o : Options) : expected Exit Options :=
  if str_eqb option "--host" then Ok {| host := value; port := port o; query := query o |}
  else if str_eqb option "--query" then Ok {| host := host o; port := port o; query := value |}
  else
    match parse_port value with
    | Some parsed => Ok {| host := host o; port := parsed; query := query o |}
    | None => Err (fails 2 "")
    end.

Fixpoint parse_options (o : Options) (argv : list string) : expected Exit Options :=
  match argv with
  | [] => Ok o
  | option :: rest =>
      if takes_value option then
        match rest with
        | [] => Err (fails 2 "")
        | value :: rest' => o' ← set_option option value o; parse_options o' rest'
        end
      else Err (fails 2 "")
  end.

(** The default precision of a stream is 6. *)
Definition hit_line (hit : SearchHit) : string :=
  hit_document_id hit +:+ String "009" (print_general 6 (hit_score hit)) +:+ line_end.

Definition report (result : SearchResult) : string :=
  "total_hits=" +:+ to_string_u (total_hits result) +:+ line_end +:+
  foldr (fun hit rest => hit_line hit +:+ rest) "" (hits result).

Definition exit_of (result : expected RpcError SearchResult) : Exit :=
  match result with
  | Ok result => IndexCli.answers (report result)
  | Err e => fails 3 (rpc_message e +:+ line_end)
  end.

Section main.
Context (strerror : Errno -> string) (gai_strerror : Z -> string).

(** [steady_clock::now() + seconds(5)] *)
Definition request_from (o : Options) (now : Z) : itree SocketE (expected RpcError SearchResult) :=
  tcp_search strerror gai_strerror {| TcpServer.host := host o; TcpServer.port := port o |} default_rpc_limits (query o) 10
    (now + 5 * 1000000000).

Definition main (argv : list string) : itree SocketE Exit :=
  match parse_options default_options (drop 1 argv) with
  | Err e => Ret e
  | Ok o =>
      ITree.bind (syscall Now) (fun now =>
      ITree.bind (request_from o now) (fun result => Ret (exit_of result)))
  end.
End main.

End RpcClient.
