(* ===== verification/ProgramsSpec.v ===== *)
(** * Three programs together

    The index command line writes a segment, the shard server serves it, the
    client program asks: what the client prints is the answer over the
    document file. *)

From S2P Require Import Prelude Bytes Text Doubles Numbers Types Schema Segment Store StoreSpec SegmentStore SegmentRoundtrip Ranking Query Parser Planner PlanBoosts Executor Index Durability DocumentFile IndexCli IndexCliRuns Sockets Rpc RpcSpec RpcRuns RpcExchange TcpServer TcpClient TcpExchange Programs.
From ITree Require Import ITree.
Import ShardRpcClient.

Lemma default_rpc_limits_ok : RpcExchange.limits_ok default_rpc_limits.
Proof. split; [|split]; vm_compute; discriminate. Qed.

(** ** The client program *)

Section client.
Context (strerror : Errno -> string) (gai_strerror : Z -> string).

(** What the program exits with is what [search] gave it, after the trace of
    the search. *)
Definition client_exit (o : RpcClient.Options) (h : list action) (e : Exit) : Prop :=
  exists r, e = RpcClient.exit_of r /\
    tcp_result {| host := RpcClient.host o; port := RpcClient.port o |} default_rpc_limits (RpcClient.query o) 10 h r.

Lemma client_main_wp argv o : RpcClient.parse_options RpcClient.default_options (drop 1 argv) = Ok o ->
  wp [] (RpcClient.main strerror gai_strerror argv) (tcp_moment default_rpc_limits (RpcClient.query o) 10) (client_exit o).
Proof.
  intros Ho. unfold RpcClient.main. rewrite Ho.
  assert (Hstart : before_request [] []) by done. apply wp_bind.
  apply (wp_quiet default_rpc_limits (RpcClient.query o) 10 []); [cbn; lia|done|by intros ?|].
  intros h1 now H1. apply wp_bind. eapply wp_mono; [|by apply tcp_wp].
  intros h2 r HG Hr. apply wp_ret; [done|]. by exists r.
Qed.

(** Unusable arguments end the program before its first call. *)
Lemma client_main_usage argv e : RpcClient.parse_options RpcClient.default_options (drop 1 argv) = Err e ->
  RpcClient.main strerror gai_strerror argv = Ret e /\ e = fails 2 "".
Proof.
  intros He. unfold RpcClient.main. rewrite He. split; [done|]. revert He.
  generalize RpcClient.default_options (drop 1 argv). clear argv. intros o argv. revert o.
  induction argv as [argv IH] using (induction_ltof1 _ (@Datatypes.length string)). unfold ltof in IH.
  intros o. destruct argv as [|option rest]; cbn [RpcClient.parse_options]; [done|].
  destruct (RpcClient.takes_value option); [|by intros [= <-]]. destruct rest as [|value rest]; [by intros [= <-]|].
  destruct (RpcClient.set_option option value o) as [o'|failure] eqn:Es; cbn [mbind expected_bind].
  - apply IH. cbn. lia.
  - intros [= <-]. revert Es. unfold RpcClient.set_option. destruct (str_eqb _ _); [done|]. destruct (str_eqb _ _); [done|].
    destruct (parse_port value); [done|]. by intros [= <-].
Qed.

End client.

(** ** The server program *)

(** The server that comes up on a segment that can be read serves its index;
    the socket calls decide whether it comes up. *)
Lemma launched strerror argv o answers d p bytes reader : ShardServer.parse_arguments argv = Ok o ->
  content d (ShardServer.segment o) = Some bytes -> SegmentReader.open bytes default_read_limits = Ok reader ->
  ShardServer.launch strerror argv answers (quiet d p) =
  (match TcpShardServer.start strerror default_server_options true answers with
   | Ok (server, port) => Ok {| ShardServer.options := o; ShardServer.view := SegmentReader.view reader; ShardServer.server := server;
        ShardServer.printed := ShardServer.announce port (view_live_document_count (SegmentReader.view reader)) |}
   | Err e => Err (fails 4 (rpc_message e +:+ line_end))
   end, quiet d p).
Proof.
  intros Ho Hc Hr. unfold ShardServer.launch. erewrite bind_run by (unfold io_lift; by rewrite Ho). cbn beta.
  erewrite bind_run by (unfold io_map_err; by rewrite (open_segment_quiet _ _ _ _ _ _ Hc Hr)). cbn beta.
  unfold mbind at 1, io_bind at 1, io_lift. by destruct (TcpShardServer.start _ _ _ _) as [[server port]|e].
Qed.

(** ** The three programs *)

(** What [outcome] reports is a search over the rows of the document file. *)
Lemma outcome_matches log1p bytes index query k result : indexed bytes index -> 0 <= k ->
  outcome log1p (InMemoryIndex.view index) default_rpc_limits query k = Ok result ->
  exists table q, read_documents (bytes_string bytes) = Ok table /\ parse query default_limits = Ok q /\
    (usable_boosts IndexSchema.default_schema default_search_fields q None d_one = true -> matches (newest table) q k result).
Proof.
  intros Hi Hk. destruct (indexed_loaded _ _ Hi) as (table & Ht & Hload). unfold outcome. destruct (_ || _); [done|].
  unfold ShardRpcServer.run_query. destruct (parse query default_limits) as [q|failure] eqn:Eq; [|done].
  cbn [map_err mbind expected_bind]. destruct (search _ _ _ _) as [r|failure] eqn:Es; [|done]. intros [= <-].
  exists table, q. split; [exact Ht|]. split; [done|]. intros Hu. by eapply loaded_matches.
Qed.

(** C9. The three programs together, each call of each answered in any way
    that POSIX allows.  The index command line has written a segment of a
    document file and exited with 0; after that or a crash, the shard server
    comes up on the segment; the client program runs against a worker of the
    server, over a connection that delivers bytes in order.  When the client
    exits, wherever the worker is by then, it has closed every socket it
    opened.  Either it exits with 0 and prints the result of the query over
    the document file, ten hits or, where there are fewer, as many as the
    newest rows that the query describes, or it exits with 3 and prints
    none. *)
Theorem programs_answer log1p P d docs name bytes calls strerror gai_strerror strerror' answers server_argv client_argv so o :
  stored P d -> temporary name = false -> P !! docs = Some bytes ->
  ShardServer.parse_arguments server_argv = Ok so -> ShardServer.segment so = name ->
  RpcClient.parse_options RpcClient.default_options (drop 1 client_argv) = Ok o ->
  (forall index, indexed bytes index -> storable default_read_limits index /\
     outcome_fits (outcome log1p (InMemoryIndex.view index) default_rpc_limits (RpcClient.query o) 10)) ->
  let '(built, w) := IndexCli.main log1p ["dse_index_cli"; "--documents"; docs; "--write-segment"; name] (world d calls) in
  exit_code built = 0 -> forall after, after = disk w \/ crash (disk w) after ->
  forall s w', ShardServer.launch strerror' server_argv answers (world after []) = (Ok s, w') ->
  forall tc e ts us, runs (RpcClient.main strerror gai_strerror client_argv) tc e -> Forall posix tc ->
  reaches (TcpShardServer.serve_connection default_server_options strerror' log1p (ShardServer.view s)) ts us ->
  Forall posix ts -> connected tc ts ->
  opened tc ≡ₚ closed tc /\
  ((exit_code e = 0 /\ standard_error e = "" /\ exists table q result,
      read_documents (bytes_string bytes) = Ok table /\ parse (RpcClient.query o) default_limits = Ok q /\
      standard_output e = RpcClient.report result /\
      (usable_boosts IndexSchema.default_schema default_search_fields q None d_one = true ->
       matches (newest table) q 10 result)) \/
   (exit_code e = 3 /\ standard_output e = "")).
Proof.
  intros Hst Hname Hdocs Hso Hseg Ho Hlim. pose proof (build_run log1p P d docs name bytes calls Hst Hname Hdocs) as Hb.
  destruct (IndexCli.main log1p _ (world d calls)) as [built w]. intros He after Hafter.
  destruct (Hb He) as (index & Hi & [reader Hopen] & Hc). specialize (Hc after Hafter). destruct (Hlim index Hi) as [Hstor Hfits].
  destruct (indexed_loaded _ _ Hi) as (done & _ & Hload). rewrite <- Hseg in Hc.
  intros s w'. unfold world. fold (quiet after [after]). rewrite (launched _ _ _ _ _ _ _ _ Hso Hc Hopen).
  destruct (TcpShardServer.start _ _ _ _) as [[server port]|failure]; [|done]. intros [= <- _]. cbn [ShardServer.view].
  rewrite (reopened_view index reader done Hload Hstor Hopen).
  intros tc e ts us (uc & Huc & Erc) Hpc Hs Hps Hconnected.
  destruct (client_main_wp strerror gai_strerror client_argv o Ho tc uc Hpc Huc) as [_ Hres].
  destruct (Hres e Erc) as (r & -> & Hclosed & Hr). cbn [app] in *. split; [exact Hclosed|].
  assert (Hno : forall x, r = Err x -> exit_code (RpcClient.exit_of r) = 3 /\ standard_output (RpcClient.exit_of r) = "") by (by intros x ->).
  destruct Hr as [Hr|[_ Hr]]; [|right; by eapply Hno].
  destruct (serve_connection_wp default_server_options strerror' log1p (InMemoryIndex.view index)
    (proj1 default_rpc_limits_ok) ts us Hps Hs) as [Hmom _]. cbn [app] in Hmom.
  pose proof (exchanged log1p (InMemoryIndex.view index) default_rpc_limits default_rpc_limits (RpcClient.query o) 10 tc r ts
    default_rpc_limits_ok default_rpc_limits_ok ltac:(vm_compute; split; discriminate) Hfits Hr Hmom Hconnected) as [Hr'|(x & Hx & _)];
    [|right; by eapply Hno].
  unfold reported in Hr'. destruct (outcome _ _ _ _ _) as [result|message] eqn:Eo; [left|right; by eapply Hno].
  rewrite Hr'. split; [done|]. split; [done|].
  destruct (outcome_matches log1p bytes index (RpcClient.query o) 10 result Hi ltac:(done) Eo) as (table & q & Ht & Hq & Hm). by exists table, q, result.
Qed.

(** ** A run of the three *)

Definition sample_built : Exit * World :=
  IndexCli.main (fun x => x) ["dse_index_cli"; "--documents"; "docs"; "--write-segment"; "s.seg"] (world (disk_with sample_stored) []).

Definition sample_answers : TcpShardServer.StartAnswers :=
  {| TcpShardServer.socket_answer := Ok 3; TcpShardServer.inet_pton_answer := true; TcpShardServer.bind_answer := Ok tt;
     TcpShardServer.listen_answer := Ok tt; TcpShardServer.getsockname_answer := Ok 40000 |}.

Definition server_arguments : list string := ["dse_shard_server"; "--port"; "0"; "--segment"; "s.seg"].
Definition client_arguments : list string := ["dse_rpc_client"; "--query"; "two"; "--port"; "40000"].

Definition sample_launched : expected Exit ShardServer.Serving * World :=
  ShardServer.launch no_text server_arguments sample_answers (world (disk sample_built.2) []).

Lemma sample_outcome_fits_two index : indexed (string_bytes sample_text) index ->
  outcome_fits (outcome (fun x => x) (InMemoryIndex.view index) default_rpc_limits "two" 10).
Proof.
  assert (H : ok_and (table ← map_err (fun _ => fails 0 "") (read_documents sample_text);
                      fold_each put_document default_index table)
    (fun index => fits_check (outcome (fun x => x) (InMemoryIndex.view index) default_rpc_limits "two" 10)) = true)
    by (vm_compute; reflexivity).
  intros (table & Ht & Hf). rewrite bytes_string_bytes in Ht. rewrite Ht in H. cbn [map_err mbind expected_bind] in H.
  rewrite Hf in H. by apply fits_checked.
Qed.

(** The client program and a worker of the server. *)
Lemma sample_checks : match sample_launched with
  | (Ok s, _) =>
      match exchange_of (RpcClient.main no_text no_address client_arguments)
              (TcpShardServer.serve_connection default_server_options no_text (fun x => x) (ShardServer.view s))
              (frame (respond (outcome (fun x => x) (ShardServer.view s) default_rpc_limits "two" 10)))
              (frame (request "two" 10)) with
      | Some (_, e, _, _) => (exit_code sample_built.1 =? 0) && (exit_code e =? 0) &&
          str_eqb (str_take 14 (standard_output e)) ("total_hits=1" +:+ line_end +:+ "a")
      | None => false
      end
  | _ => false
  end = true.
Proof. vm_compute. reflexivity. Qed.

Lemma sample_run : exists s w tc e ts us,
  sample_launched = (Ok s, w) /\ exit_code sample_built.1 = 0 /\ exit_code e = 0 /\
  runs (RpcClient.main no_text no_address client_arguments) tc e /\ Forall posix tc /\
  reaches (TcpShardServer.serve_connection default_server_options no_text (fun x => x) (ShardServer.view s)) ts us /\
  Forall posix ts /\ connected tc ts.
Proof.
  pose proof sample_checks as H. destruct sample_launched as [[s|failure] w]; [|discriminate H].
  destruct (exchange_of _ _ _ _) as [[[[tc e] ts] rs]|] eqn:Ex in H; [|discriminate H].
  apply andb_prop in H as [[Hb%Z.eqb_eq He%Z.eqb_eq]%andb_prop _].
  apply exchange_of_runs in Ex as (Hc & Hpc & (us & Hs & _) & Hps & Hconn).
  exists s, w, tc, e, ts, us. exact (conj eq_refl (conj Hb (conj He (conj Hc (conj Hpc (conj Hs (conj Hps Hconn))))))).
Qed.

Lemma programs_answer_witness : exists tc e, runs (RpcClient.main no_text no_address client_arguments) tc e /\
  exit_code e = 0 /\ opened tc ≡ₚ closed tc /\
  exists table q result, read_documents sample_text = Ok table /\ parse "two" default_limits = Ok q /\
    standard_output e = RpcClient.report result /\ matches (newest table) q 10 result.
Proof.
  destruct sample_run as (s & w & tc & e & ts & us & Hl & Hb & He & Hc & Hpc & Hs & Hps & Hconn).
  exists tc, e. split; [exact Hc|]. split; [exact He|].
  assert (Ha : ok_and (ShardServer.parse_arguments server_arguments) (fun so => bool_decide (ShardServer.segment so = "s.seg")) = true)
    by (vm_compute; reflexivity).
  apply ok_and_true in Ha as (so & Hso & Hseg%bool_decide_eq_true_1).
  assert (Ho : ok_and (RpcClient.parse_options RpcClient.default_options (drop 1 client_arguments))
    (fun o => bool_decide (RpcClient.query o = "two")) = true) by (vm_compute; reflexivity).
  apply ok_and_true in Ho as (o & Ho & Hq%bool_decide_eq_true_1).
  pose proof (programs_answer (fun x => x) (files_with ∅ sample_stored) (disk_with sample_stored) "docs" "s.seg"
    (string_bytes sample_text) [] no_text no_address no_text sample_answers server_arguments client_arguments so o
    (disk_with_stored sample_stored ltac:(vm_compute; reflexivity)) ltac:(vm_compute; reflexivity)
    ltac:(vm_compute; reflexivity) Hso Hseg Ho) as H. rewrite Hq in H.
  specialize (H (fun index Hi => conj (sample_storable_index index Hi) (sample_outcome_fits_two index Hi))).
  fold sample_built in H. destruct sample_built as [built w'] eqn:Eb.
  unfold sample_launched in Hl. rewrite Eb in Hl. cbn [fst snd] in Hb, Hl.
  specialize (H Hb (disk w') (or_introl eq_refl) s w Hl tc e ts us Hc Hpc Hs Hps Hconn).
  rewrite bytes_string_bytes in H. destruct H as [Hclosed [(_ & _ & table & q & result & Ht & Hp & Hr & Hm)|[E _]]].
  2: { rewrite He in E. discriminate E. }
  split; [exact Hclosed|]. exists table, q, result. split; [exact Ht|]. split; [exact Hp|]. split; [exact Hr|].
  apply Hm, boost_free_usable.
  assert (Hbf : ok_and (parse "two" default_limits) boost_free = true) by (vm_compute; reflexivity).
  rewrite Hp in Hbf. exact Hbf.
Defined.
